(* ===== verification/_CoqProject ===== *)
-Q . S2P
Prelude.v
Word.v
Fs.v
GoStr.v
Memtable.v
Wal.v
Manifest.v
Bloom.v
SstFormat.v
SstWriter.v
SstReader.v
SstRefs.v
BlockCache.v
MergeIter.v
SstMerge.v
SstTable.v
DbState.v
DbFlush.v
DbWrite.v
DbRead.v
DbScan.v
DbCompact.v
DbOpen.v
DbRecover.v
DbInv.v
DbFlushSpec.v
DbCompactSpec.v
DbCloseSpec.v
DbCrash.v
DbGroupCommit.v
DbWorkers.v
Demo.v
SstProps.v
DbProps.v
Cli.v
CliProps.v
AtfSession.v
AtfResource.v
AtfDag.v
AtfScheduler.v
AtfCrash.v
AtfDataset.v
AtfVerify.v
AtfVerifySpec.v
AtfEngine.v
AtfSound.v
AtfChild.v
AtfRunner.v
AtfBus.v
AtfConfig.v
AtfRegistry.v
AtfTelemetry.v
DbFindings.v
