(* ===== verification/Prelude.v ===== *)
(** * PebbleDB: a verified model of an embedded LSM key-value store

    The program (Go, under src/) is a log-structured store.  [Put] and [Delete]
    queue a record in a batch; a group commit appends the batch to the write-ahead
    log, syncs it and applies it to the active memtable, a skip list.  A memtable
    that is too large is frozen, written to an immutable sorted table (SSTable), named
    in the manifest, and its records are cut from the log.  A compaction merges the
    two oldest tables.  [Get] asks batch, memtables and tables, the newest first;
    [Scan] merges them.  [Open] loads the manifest and its tables and replays the log.
    A command line puts the store into a process.  An acceptance framework runs it in
    child processes that write a known data set and are made to die at crash points,
    and then checks what a new process recovers.

    ** Files

    - Prelude: bytes, entries and layers (maps from keys to the newest word on them),
      sorted entry lists, errors and outcomes, notations, tactics and hints.
    - Word: 32- and 64-bit words, big-endian encoding, CRC-32 and FNV-1a
      (encoding/binary, hash/crc32 and hash/fnv of the standard library).
    - Fs: the file system with durable and volatile bytes, schedules of faults and
      crashes, the monad [io], Hoare triples over every schedule.
    - GoStr: the formatting and parsing of file names (internal/db/db.go).
    - Memtable: internal/memtable; the skip list on a store of nodes.
    - Wal: internal/wal.  Manifest: internal/manifest.  Bloom: internal/bloom.
    - SstFormat, SstWriter, SstReader: internal/sstable (block.go, index.go, footer.go,
      writer.go, reader.go, iterator.go).  SstRefs: the reference counts of a reader
      as a state machine.  BlockCache: cache.go and [readBlock] through it.
    - MergeIter: internal/iterator over the interface [Iterator] with its laws
      [IteratorSpec]; SstMerge: merge_adapter.go, tables as such iterators; SstTable:
      the image of a table file.
    - DbState, DbFlush, DbWrite, DbRead, DbScan, DbCompact, DbOpen: internal/db.  The
      record [Db.DB] is the handle; every operation takes it and returns the one
      after the call.  Shared readers are pointers into the heap of the handle.
      Functions of the source that release the lock in the middle
      ([flushPendingBatch], [doCompaction]) are cut at their critical sections, so
      that other operations can be run in between.
    - DbRecover, DbInv, DbFlushSpec, DbCompactSpec: what a directory holds, the
      invariant [db_inv] that ties a handle to its directory, and what commits,
      flushes and compactions do to it.
      DbCloseSpec: a clean [Close].  DbCrash: crashes of flushes and compactions.
    - DbGroupCommit: batch.go, write.go, sync.go and close.go once more, as a transition
      system: any number of callers, the timer, the batch flusher and [Close], one
      critical section or channel operation at a time.  DbWorkers: the table flusher, the
      compactor, [Close] with its timeouts and [ForceMemtableFlush] on their channels, in
      the same way.
    - Demo: concrete handles.  SstProps, DbProps: the properties of tables and of the
      database.  DbFindings: runs on which the code departs from its contract.
    - Cli, CliProps: cmd/pebbledb, from the arguments of the process to its output and
      exit code, with the flag package.
    - The acceptance framework, internal/db/acceptance/framework.  AtfSession: types
      and session (the life cycle as a transition system).  AtfResource: resource
      (reservations and waiters as a step relation).  AtfScheduler: scheduler, over
      the class [ScenarioExecutor].  AtfCrash: crash (points, policies, registry,
      manager).  AtfDataset: dataset, the expected state and its generator over the
      class [LogicalWriter], of which the database is an instance.  AtfDag, AtfVerify,
      AtfEngine: verifier (the plan of the modules, the eight modules, the engine), on
      the model of the database; AtfVerifySpec: what the verdicts of the modules mean.
      AtfSound: a directory that passes the engine holds the expected state.
      AtfChild, AtfRunner: runner (the child process and its exit protocol, the life
      of a scenario); the runner is an instance of [ScenarioExecutor].  AtfBus: eventbus
      (its goroutines as a transition system).  AtfConfig: config.  AtfRegistry:
      registry.  AtfTelemetry: telemetry, over the class [Float64].

    ** What the theorems show

    - Durability: a batch or a synced write that was acknowledged survives any loss of
      power, as long as the log is within its limits and no checkpoint is left over; an
      interrupted commit leaves a prefix of the batch; [Open] rebuilds what
      the directory holds; cutting the log, appending to the manifest, rotating it and
      writing a table are each atomic, for every schedule of errors and crashes.
    - Concurrency: in every interleaving of writers, [Sync], timer, flusher and [Close] the
      log is a prefix of the accepted records, an acknowledgement means that the record
      is in it, and without [Close] every call returns and the queue empties; the
      background goroutines, used as [DbWorkers.allowed] says, never meet a closed
      channel, leave no memtable behind, and end with [Close].
    - Refinement: the skip list refines a sorted map, [Get] and [Scan] the contents
      (the union of the layers), the k-way merge a reference merge, reading through
      the cache reading the file.
    - Preservation: commits and flushes keep the contents; a compaction, also one that is
      interrupted, keeps the record of every key that is not both in the merged tables
      and in another one.
    - The command line is a persistent map over its runs in one directory, until a
      compaction is due.
    - The acceptance framework reaches sound verdicts: a scenario passes only on a child
      that ended as the protocol says and on an engine that returned no error; the
      engine returns none only when every module of the plan ran and passed, and the
      directory then holds exactly the expected state; the generator records exactly what it wrote; a named crash point
      reaches the engine; a campaign reports every scenario once and blocks those
      behind a failure; the budgets of the resources hold over every interleaving; the
      plan of the modules is topological or reports a cycle; the registry and the
      configuration are what their declarative readings say; the event bus delivers at
      most once, comes to rest, and does not panic when it is used as meant.
    - Findings: concrete runs, by evaluation, for the defects listed in the manifest
      of the development.

    ** Conventions and bounds

    A loop that is not structural has fuel; the fuel is computed from the data (the
    length of a list, of a file or of the rest of it) and the theorems show that it is
    enough.  Where the fuel stands for patience (the rounds of the flusher that
    [Close] waits for, the rounds of the compactor) it is an argument.  Theorems about
    whole tables assume fewer than 2^26 entries and less than 2^40 bytes, far above
    what the size of a memtable allows, so that no offset overflows 48 bits.  Words
    are kept at their width where the source wraps.

    A loss of power keeps a prefix of every file that contains its synced part;
    creating, renaming and removing a file take effect at once and in order, as on a
    journaling file system; the source syncs no directory.

    ** Parameters

    The two sizes [bloom.New] computes in floating point are the class [BloomSizing],
    the LRU cache of hashicorp/golang-lru is the class [Lru]; both come with an
    instance.  The sums and quotients of the telemetry are behind the class [Float64].
    Random heights are a list of coin flips, and every theorem holds for all of them.
    The random numbers of the data set and of the crash policies, what a
    context says each time it is asked, the answers of the lock and of the operating
    system to the runner, and the JSON encoding of the expected state with its digest
    are arguments too.

    ** Not modelled

    One model with both the data and all interleavings: the operations are run one after
    the other, cut at their critical sections, and the goroutines of the database, the
    scheduler, the resource manager and the event bus have transition systems of their
    own, which keep what the protocol needs.  Durations and log lines, the Windows lock,
    and of the acceptance framework evidence (zip files), logging, errors and util, which
    are input, output and texts.  Subscribers see events in AtfBus and AtfTelemetry; the
    other models keep the events that are published as lists.  The crash points of the
    engine are points at which a schedule of faults may end the process. *)

From stdpp Require Import gmap strings list sorting.
From Stdlib Require Export Strings.Byte.
From stdpp Require Export gmap strings list sorting.
From Stdlib Require Import ZArith Lia.


Declare Scope pebble_scope.
Delimit Scope pebble_scope with pebble.
Open Scope pebble_scope.
#[global] Open Scope Z_scope.

(** * Bytes and byte strings

    A Go [[]byte] is a list of bytes.  Every slice whose nil-ness the source
    tests is produced by [append([]byte(nil), s...)], which is nil exactly when
    [s] is empty; the empty list therefore stands for the nil slice. *)

Abbreviation bytes := (list byte).

Definition byte_Z (b : byte) : Z := Z.of_N (Byte.to_N b).

Definition byte_of_Z (z : Z) : byte :=
  match Byte.of_N (Z.to_N (z mod 256)) with Some b => b | None => x00 end.

#[export] Instance byte_eq_decision : EqDecision byte := Byte.byte_eq_dec.

#[export] Instance byte_countable : Countable byte :=
  inj_countable Byte.to_N Byte.of_N Byte.of_to_N.

Lemma byte_Z_range b : 0 <= byte_Z b < 256.
Proof.
  unfold byte_Z. pose proof (Byte.to_N_bounded b). lia.
Qed.

Lemma byte_of_Z_Z b : byte_of_Z (byte_Z b) = b.
Proof.
  unfold byte_of_Z. rewrite Z.mod_small by apply byte_Z_range.
  unfold byte_Z. rewrite N2Z.id. by rewrite Byte.of_to_N.
Qed.

Lemma byte_Z_of_Z z : byte_Z (byte_of_Z z) = z mod 256.
Proof.
  unfold byte_of_Z. pose proof (Z.mod_pos_bound z 256 eq_refl).
  destruct (Byte.of_N (Z.to_N (z mod 256))) as [b|] eqn:E.
  - apply Byte.to_of_N in E. unfold byte_Z. rewrite E. lia.
  - apply Byte.of_N_None_iff in E. lia.
Qed.

Lemma byte_Z_inj a b : byte_Z a = byte_Z b -> a = b.
Proof. intros H. rewrite <- (byte_of_Z_Z a), H. apply byte_of_Z_Z. Qed.

(** ** Go's [bytes.Compare]: lexicographic on unsigned bytes. *)

Fixpoint bytes_compare (a b : bytes) : comparison :=
  match a, b with
  | [], [] => Eq
  | [], _ :: _ => Lt
  | _ :: _, [] => Gt
  | x :: a', y :: b' =>
      match byte_Z x ?= byte_Z y with
      | Eq => bytes_compare a' b'
      | c => c
      end
  end.

Definition bytes_ltb (a b : bytes) : bool :=
  match bytes_compare a b with Lt => true | _ => false end.
Definition bytes_leb (a b : bytes) : bool :=
  match bytes_compare a b with Gt => false | _ => true end.
Definition bytes_eqb (a b : bytes) : bool :=
  match bytes_compare a b with Eq => true | _ => false end.

Definition blt (a b : bytes) : Prop := bytes_compare a b = Lt.

Lemma bytes_compare_refl a : bytes_compare a a = Eq.
Proof. induction a as [|x a IH]; [done|]. simpl. by rewrite Z.compare_refl. Qed.

Lemma bytes_compare_eq a b : bytes_compare a b = Eq <-> a = b.
Proof.
  split; [|intros ->; apply bytes_compare_refl].
  revert b. induction a as [|x a IH]; intros [|y b]; simpl; try done.
  destruct (Z.compare_spec (byte_Z x) (byte_Z y)) as [E|E|E]; try done.
  intros H. f_equal; [by apply byte_Z_inj | by apply IH].
Qed.

Lemma bytes_compare_antisym a b : bytes_compare b a = CompOpp (bytes_compare a b).
Proof.
  revert b. induction a as [|x a IH]; intros [|y b]; simpl; try done.
  rewrite (Z.compare_antisym (byte_Z x) (byte_Z y)).
  destruct (byte_Z x ?= byte_Z y); simpl; [apply IH|done|done].
Qed.

Lemma blt_trans a b c : blt a b -> blt b c -> blt a c.
Proof.
  unfold blt. revert b c.
  induction a as [|x a IH]; intros [|y b] [|z c]; simpl; try done.
  destruct (Z.compare_spec (byte_Z x) (byte_Z y)) as [E|E|E];
  destruct (Z.compare_spec (byte_Z y) (byte_Z z)) as [F|F|F]; try done;
  destruct (Z.compare_spec (byte_Z x) (byte_Z z)); try done; try lia.
  apply IH.
Qed.

Lemma blt_irrefl a : ~ blt a a.
Proof. unfold blt. by rewrite bytes_compare_refl. Qed.

#[export] Instance blt_strict : StrictOrder blt.
Proof. split; [intros a H; by apply blt_irrefl in H | exact blt_trans]. Qed.

#[export] Instance blt_dec : RelDecision blt.
Proof. intros a b. unfold blt. apply _. Defined.

Lemma bytes_compare_gt a b : bytes_compare a b = Gt <-> blt b a.
Proof.
  unfold blt. rewrite (bytes_compare_antisym a b).
  destruct (bytes_compare a b); simpl; naive_solver.
Qed.

Lemma blt_trichotomy a b : blt a b \/ a = b \/ blt b a.
Proof.
  destruct (bytes_compare a b) eqn:E.
  - right; left. by apply bytes_compare_eq.
  - by left.
  - right; right. by apply bytes_compare_gt.
Qed.

Lemma bytes_ltb_spec a b : bytes_ltb a b = true <-> blt a b.
Proof. unfold bytes_ltb, blt. destruct (bytes_compare a b); naive_solver. Qed.

Lemma bytes_eqb_spec a b : bytes_eqb a b = true <-> a = b.
Proof.
  unfold bytes_eqb. rewrite <- bytes_compare_eq.
  destruct (bytes_compare a b); naive_solver.
Qed.

Lemma bytes_leb_spec a b : bytes_leb a b = true <-> ~ blt b a.
Proof.
  unfold bytes_leb. rewrite <- bytes_compare_gt.
  destruct (bytes_compare a b); naive_solver.
Qed.

Lemma bytes_ltb_false a b : bytes_ltb a b = false <-> ~ blt a b.
Proof. rewrite <- bytes_ltb_spec. destruct (bytes_ltb a b); naive_solver. Qed.

Lemma bytes_eqb_false a b : bytes_eqb a b = false <-> a <> b.
Proof. rewrite <- bytes_eqb_spec. destruct (bytes_eqb a b); naive_solver. Qed.

Lemma blt_ne a b : blt a b -> a <> b.
Proof. intros H ->. by apply blt_irrefl in H. Qed.

Lemma blt_asym a b : blt a b -> ~ blt b a.
Proof. intros H1 H2. apply (blt_irrefl a). by eapply blt_trans. Qed.

Lemma blt_nle_trans a b c : blt a b -> ~ blt c b -> blt a c.
Proof.
  intros H1 H2. destruct (blt_trichotomy b c) as [H|[->|H]]; [|done|done].
  by eapply blt_trans.
Qed.

Lemma nlt_blt_trans a b c : ~ blt b a -> blt b c -> blt a c.
Proof.
  intros H1 H2. destruct (blt_trichotomy a b) as [H|[->|H]]; [|done|done].
  by eapply blt_trans.
Qed.

Lemma blt_nil a : a <> [] -> blt [] a.
Proof. by destruct a. Qed.

Lemma not_blt_nil a : ~ blt a [].
Proof. by destruct a. Qed.

(** Case analysis on one comparison made by the code. *)
Ltac bytes_cases :=
  repeat match goal with
  | H : bytes_ltb _ _ = true |- _ => apply bytes_ltb_spec in H
  | H : bytes_ltb _ _ = false |- _ => apply bytes_ltb_false in H
  | H : bytes_eqb _ _ = true |- _ => apply bytes_eqb_spec in H
  | H : bytes_eqb _ _ = false |- _ => apply bytes_eqb_false in H
  | H : bytes_leb _ _ = true |- _ => apply bytes_leb_spec in H
  | H : context [if bytes_ltb ?a ?b then _ else _] |- _ => destruct (bytes_ltb a b) eqn:?
  | H : context [if bytes_eqb ?a ?b then _ else _] |- _ => destruct (bytes_eqb a b) eqn:?
  | |- context [if bytes_ltb ?a ?b then _ else _] => destruct (bytes_ltb a b) eqn:?
  | |- context [if bytes_eqb ?a ?b then _ else _] => destruct (bytes_eqb a b) eqn:?
  | |- context [if bytes_leb ?a ?b then _ else _] => destruct (bytes_leb a b) eqn:?
  end.

(** * Lengths as Go [int]s *)

Definition zlen {A} (l : list A) : Z := Z.of_nat (length l).

Lemma zlen_nonneg {A} (l : list A) : 0 <= zlen l.
Proof. unfold zlen. lia. Qed.

Lemma zlen_app {A} (l k : list A) : zlen (l ++ k) = zlen l + zlen k.
Proof. unfold zlen. rewrite length_app. lia. Qed.

Lemma zlen_cons {A} (x : A) (l : list A) : zlen (x :: l) = 1 + zlen l.
Proof. unfold zlen. simpl length. lia. Qed.

Lemma zlen_nil_inv {A} (l : list A) : zlen l <= 0 -> l = [].
Proof. destruct l; [done|]. unfold zlen. simpl. lia. Qed.

(** [data[a:b]] for [0 <= a <= b <= len data]. *)
Definition slice {A} (data : list A) (a b : Z) : list A :=
  take (Z.to_nat (b - a)) (drop (Z.to_nat a) data).

Lemma slice_app_mid {A} (l1 l2 l3 : list A) a b :
  a = zlen l1 -> b = zlen l1 + zlen l2 -> slice (l1 ++ l2 ++ l3) a b = l2.
Proof.
  unfold slice, zlen. intros -> ->.
  replace (Z.to_nat (Z.of_nat (length l1))) with (length l1) by lia.
  rewrite drop_app_length.
  replace (Z.to_nat (Z.of_nat (length l1) + Z.of_nat (length l2) - Z.of_nat (length l1)))
    with (length l2) by lia.
  apply take_app_length.
Qed.

Lemma nth_middle_at {A} (l1 l2 : list A) x d n :
  n = zlen l1 -> nth (Z.to_nat n) (l1 ++ x :: l2) d = x.
Proof. intros ->. unfold zlen. rewrite Nat2Z.id. apply nth_middle. Qed.

Lemma drop_zlen {A} (a b : list A) n : n = zlen a -> drop (Z.to_nat n) (a ++ b) = b.
Proof. intros ->. unfold zlen. by rewrite Nat2Z.id, drop_app_length. Qed.

Lemma take_zlen {A} (a b : list A) n : n = zlen a -> take (Z.to_nat n) (a ++ b) = a.
Proof. intros ->. unfold zlen. by rewrite Nat2Z.id, take_app_length. Qed.

Lemma elem_of_concat {A} (x : A) (ll : list (list A)) : x ∈ concat ll <-> exists l, l ∈ ll /\ x ∈ l.
Proof. rewrite list_elem_of_In, in_concat. by setoid_rewrite list_elem_of_In. Qed.

Lemma string_app_length (s1 s2 : string) :
  String.length (String.append s1 s2) = (String.length s1 + String.length s2)%nat.
Proof. induction s1 as [|a s1 IH]; [done|]. simpl. by rewrite IH. Qed.

(** * Entries

    The triple that WAL records, memtable snapshots and SSTable cells all carry. *)

Record entry := Entry { Key : bytes; Value : bytes; Tombstone : bool }.

#[export] Instance entry_eq_decision : EqDecision entry.
Proof. solve_decision. Defined.

(** What an entry says about its key: a live value or a deletion. *)
Definition cell (e : entry) : option bytes :=
  if Tombstone e then None else Some (Value e).

(** One layer of the store: a finite map from keys to values or tombstones. *)
Abbreviation layer := (gmap bytes (option bytes)).

(** The layer of a list of entries in which the first entry of a key wins. *)
Definition layer_of (l : list entry) : layer :=
  list_to_map ((fun e => (Key e, cell e)) <$> l).

(** The layer of a log of entries in which the last entry of a key wins. *)
Definition log_layer (l : list entry) : layer := layer_of (rev l).
#[global] Arguments log_layer _ : simpl never.

(** Strictly ascending keys. *)
Definition keys_sorted (l : list entry) : Prop := StronglySorted blt (Key <$> l).

Lemma layer_of_cons e l : layer_of (e :: l) = <[Key e := cell e]> (layer_of l).
Proof. done. Qed.

Lemma layer_of_app l1 l2 : layer_of (l1 ++ l2) = layer_of l1 ∪ layer_of l2.
Proof.
  induction l1 as [|e l1 IH]; simpl.
  - symmetry. apply (map_empty_union (M := gmap bytes)).
  - rewrite !layer_of_cons, IH. by rewrite insert_union_l.
Qed.

Lemma log_layer_app l1 l2 : log_layer (l1 ++ l2) = log_layer l2 ∪ log_layer l1.
Proof. unfold log_layer. by rewrite rev_app_distr, layer_of_app. Qed.

Lemma log_layer_snoc l e : log_layer (l ++ [e]) = <[Key e := cell e]> (log_layer l).
Proof. unfold log_layer. by rewrite rev_app_distr. Qed.

Lemma keys_sorted_nil : keys_sorted [].
Proof. constructor. Qed.

Lemma keys_sorted_cons e l :
  keys_sorted (e :: l) <-> keys_sorted l /\ Forall (fun x => blt (Key e) (Key x)) l.
Proof.
  unfold keys_sorted. rewrite fmap_cons. split.
  - inversion 1; subst. split; [done|]. by rewrite Forall_fmap in *.
  - intros [H1 H2]. constructor; [done|]. by rewrite Forall_fmap.
Qed.

Lemma keys_sorted_app l1 l2 :
  keys_sorted (l1 ++ l2) <->
  (forall x y, x ∈ l1 -> y ∈ l2 -> blt (Key x) (Key y)) /\ keys_sorted l1 /\ keys_sorted l2.
Proof.
  unfold keys_sorted. rewrite fmap_app, StronglySorted_app.
  split; intros (H & H1 & H2); repeat split; try done.
  - intros x y Hx Hy. apply H; by apply list_elem_of_fmap_2.
  - intros k1 k2 (x & -> & Hx)%list_elem_of_fmap (y & -> & Hy)%list_elem_of_fmap. by apply H.
Qed.

Lemma keys_sorted_NoDup l : keys_sorted l -> NoDup (Key <$> l).
Proof.
  induction l as [|e l IH]; [constructor|].
  rewrite keys_sorted_cons. intros [Hs Hf]. simpl. constructor; [|by apply IH].
  intros (x & E & Hx)%list_elem_of_fmap.
  rewrite Forall_forall in Hf. specialize (Hf x Hx). rewrite <- E in Hf. by apply blt_irrefl in Hf.
Qed.

Lemma layer_of_lookup_None l k : layer_of l !! k = None <-> k ∉ Key <$> l.
Proof.
  unfold layer_of. rewrite <- not_elem_of_list_to_map.
  by rewrite <- list_fmap_compose.
Qed.

Lemma layer_of_lookup_sorted l e :
  keys_sorted l -> e ∈ l -> layer_of l !! Key e = Some (cell e).
Proof.
  intros Hs He. unfold layer_of. apply elem_of_list_to_map_1.
  - rewrite <- list_fmap_compose. by apply keys_sorted_NoDup.
  - apply list_elem_of_fmap. by exists e.
Qed.

(** The first entry of a key. *)
Fixpoint find_entry (key : bytes) (l : list entry) : option entry :=
  match l with
  | [] => None
  | e :: l' => if bytes_eqb (Key e) key then Some e else find_entry key l'
  end.

Lemma find_entry_layer key l : layer_of l !! key = cell <$> find_entry key l.
Proof.
  induction l as [|e l IH]; [done|]. rewrite layer_of_cons. simpl. bytes_cases.
  - subst. by rewrite lookup_insert_eq.
  - by rewrite lookup_insert_ne.
Qed.

Lemma find_entry_app key l1 l2 : find_entry key (l1 ++ l2) =
  match find_entry key l1 with Some e => Some e | None => find_entry key l2 end.
Proof. induction l1 as [|e l1 IH]; [done|]. simpl. by bytes_cases. Qed.

Lemma find_entry_None key l : Forall (fun e => Key e <> key) l -> find_entry key l = None.
Proof. induction 1 as [|e l He _ IH]; [done|]. simpl. by bytes_cases. Qed.

Lemma find_entry_Some key l e : find_entry key l = Some e -> e ∈ l /\ Key e = key.
Proof.
  induction l as [|x l IH]; [done|]. simpl. bytes_cases; intros H.
  - simplify_eq. split; [constructor|done].
  - destruct (IH H). split; [by constructor|done].
Qed.

Lemma find_entry_sorted l e : keys_sorted l -> e ∈ l -> find_entry (Key e) l = Some e.
Proof.
  induction l as [|x l IH]; [by intros _ ?%not_elem_of_nil|].
  intros [Hs Hlt]%keys_sorted_cons [->|He]%elem_of_cons; simpl.
  - by rewrite (proj2 (bytes_eqb_spec _ _) eq_refl).
  - rewrite (proj2 (bytes_eqb_false _ _)); [by apply IH|].
    rewrite Forall_forall in Hlt. by apply blt_ne, Hlt.
Qed.

(** The entries from the first key that is not below [key] on. *)
Fixpoint skip_below (key : bytes) (l : list entry) : list entry :=
  match l with
  | [] => []
  | e :: l' => if bytes_ltb (Key e) key then skip_below key l' else l
  end.

Lemma skip_below_suffix key l : exists l1, l = l1 ++ skip_below key l /\
  Forall (fun e => blt (Key e) key) l1.
Proof.
  induction l as [|e l (l1 & E & H)]; [by exists []|]. simpl. bytes_cases.
  - exists (e :: l1). split; [by rewrite <- app_comm_cons, <- E|by constructor].
  - by exists [].
Qed.

Lemma skip_below_sorted key l : keys_sorted l ->
  keys_sorted (skip_below key l) /\ Forall (fun e => ~ blt (Key e) key) (skip_below key l).
Proof.
  induction l as [|e l IH]; [done|]. intros Hs. pose proof Hs as [Hs' Hf]%keys_sorted_cons.
  simpl. bytes_cases; [by apply IH|]. split; [done|]. constructor; [done|].
  eapply Forall_impl; [exact Hf|]. intros x Hx Hlt. match goal with H : ~ _ |- _ => apply H end.
  exact (blt_trans _ _ _ Hx Hlt).
Qed.

Lemma skip_below_app key l1 l2 : Forall (fun e => blt (Key e) key) l1 ->
  skip_below key (l1 ++ l2) = skip_below key l2.
Proof.
  induction 1 as [|e l1 He _ IH]; [done|]. simpl. by rewrite (proj2 (bytes_ltb_spec _ _) He).
Qed.

Lemma skip_below_app_r key l1 l2 : skip_below key l1 <> [] ->
  skip_below key (l1 ++ l2) = skip_below key l1 ++ l2.
Proof. induction l1 as [|e l1 IH]; [done|]. simpl. bytes_cases; [done|]. done. Qed.

Lemma skip_below_all key l : Forall (fun e => blt (Key e) key) l -> skip_below key l = [].
Proof. intros H. rewrite <- (app_nil_r l). by rewrite skip_below_app. Qed.

Lemma skip_below_elem key l e : e ∈ l -> ~ blt (Key e) key -> skip_below key l <> [].
Proof.
  intros He Hn Hs. destruct (skip_below_suffix key l) as (l1 & E & H). rewrite Hs, app_nil_r in E.
  subst l1. rewrite Forall_forall in H. by apply Hn, H.
Qed.

Lemma skip_below_nil l : skip_below [] l = l.
Proof. destruct l as [|e l]; [done|]. simpl. bytes_cases; [|done]. by apply not_blt_nil in Heqb. Qed.

(** * Sums over maps *)

Definition sum_map {A} (f : A -> nat) (m : gmap nat A) : nat := map_fold (fun _ x n => f x + n)%nat 0%nat m.

Section SumMap.
Context {A : Type} (f : A -> nat).
Implicit Types (m : gmap nat A).

Lemma sum_map_fresh m k x : m !! k = None -> sum_map f (<[k := x]> m) = (f x + sum_map f m)%nat.
Proof. intros Hk. apply (map_fold_insert_L (fun _ x n => f x + n)%nat); [intros; lia | done]. Qed.

Lemma sum_map_delete m k x : m !! k = Some x -> sum_map f m = (f x + sum_map f (delete k m))%nat.
Proof. intros Hk. rewrite <- (sum_map_fresh (delete k m) k x (lookup_delete_eq m k)). by rewrite insert_delete_id. Qed.

Lemma sum_map_replace m k x y : m !! k = Some x -> (sum_map f (<[k := y]> m) + f x = sum_map f m + f y)%nat.
Proof.
  intros Hk. rewrite <- insert_delete_eq, (sum_map_fresh (delete k m) k y (lookup_delete_eq m k)).
  rewrite (sum_map_delete m k x Hk). lia.
Qed.

Lemma sum_map_alter m k (g : A -> A) : (forall x, f (g x) = f x) -> sum_map f (alter g k m) = sum_map f m.
Proof.
  intros Hg. destruct (m !! k) as [x|] eqn:Hk; [|by rewrite alter_id by congruence].
  rewrite <- (insert_id m k x Hk) at 1. rewrite alter_insert_eq.
  pose proof (sum_map_replace m k x (g x) Hk) as Hr. rewrite Hg in Hr. lia.
Qed.

Lemma sum_map_le (g : A -> nat) m : (forall x, f x <= g x)%nat -> (sum_map f m <= sum_map g m)%nat.
Proof.
  intros Hle. unfold sum_map. induction m as [|k x m Hk Hf IH] using map_first_key_ind; [done|].
  rewrite !map_fold_insert_first_key by done. specialize (Hle x). lia.
Qed.

End SumMap.

(** A closed decidable statement, by running its decision. *)
Ltac by_decide := refine (bool_decide_eq_true_1 _ _); vm_compute; reflexivity.

#[export] Hint Resolve keys_sorted_nil zlen_nonneg byte_Z_range : core.

(** * Errors and outcomes

    One constructor per error value of the source; [os_error] is any other
    error an operating-system call returns.  [joined] is [errors.Join] and
    [background] the [BackgroundError] wrapper. *)

Inductive error :=
| io_EOF
| io_ErrUnexpectedEOF
| os_ErrNotExist
| os_ErrClosed
| os_error (code : Z)
| ErrTruncateIncomplete
| ErrWALTooLarge
| ErrKeyTooLarge
| ErrValueTooLarge
| ErrRecordTooLarge
| ErrPriorityMismatch
| sst_ErrBadMagic
| sst_ErrCorruptIndex
| sst_ErrCorruptFooter
| sst_ErrUnsupportedVersion
| sst_ErrKeyOutOfOrder
| sst_ErrInvalidBlockSize
| sst_ErrKeyTooLarge
| sst_ErrCorruptBloom
| ErrNotFound
| ErrClosed
| ErrEmptyDir
| ErrCorruptWalFlushState
| ErrCloseFlushTimeout
| ErrCloseWorkerTimeout
| ErrDatabaseLocked
| ErrCloseIncomplete
| ErrManifestUnavailable
| ErrInvalidSSTPath
| background (op : string) (e : error)
| joined (e1 e2 : error).

#[export] Instance error_eq_decision : EqDecision error.
Proof. solve_decision. Defined.

(** The outcome of a fallible call.  [Crashed] is the end of the process in the
    middle of the call: no later code of the caller runs. *)
Inductive res (A : Type) :=
| Ok (a : A)
| Err (e : error)
| Crashed.
Arguments Ok {A} _.
Arguments Err {A} _.
Arguments Crashed {A}.

Definition res_bind {A B} (m : res A) (k : A -> res B) : res B :=
  match m with Ok a => k a | Err e => Err e | Crashed => Crashed end.

Notation "'let?' p ':=' m 'in' k" := (res_bind m (fun x => match x with p => k end))
  (at level 10, p pattern, m at level 100, k at level 200) : pebble_scope.

(** [Err] carries the same error at another result type. *)
Definition res_is_ok {A} (r : res A) : bool :=
  match r with Ok _ => true | _ => false end.

(** Case analysis on the [match] or [if] that blocks the goal or a hypothesis. *)
Ltac break_goal :=
  match goal with |- context [match ?x with _ => _ end] => destruct x eqn:? end.
Ltac break_hyp H :=
  match type of H with context [match ?x with _ => _ end] => destruct x eqn:? end.
