(* ===== verification/Word.v ===== *)
(** Machine integers and checksums.

    Fixed-width unsigned integers are values of [Z] with the wrap-around written
    out ([u32], [u64]) and [int64] the signed reading of a 64-bit pattern.
    [be_put]/[be_get] are [encoding/binary.BigEndian]; [crc32_ieee] is
    [hash/crc32.ChecksumIEEE] and [fnv64a] is [hash/fnv.New64a], both executable. *)

From Stdlib Require Import ZArith Lia.
From S2P Require Import Prelude.

(** * Wrap-around *)

Definition u8 (z : Z) : Z := z mod 2 ^ 8.
Definition u32 (z : Z) : Z := z mod 2 ^ 32.
Definition u64 (z : Z) : Z := z mod 2 ^ 64.

(** The conversion [int64(x)] of an unsigned 64-bit value. *)
Definition int64 (z : Z) : Z :=
  let r := u64 z in if r <? 2 ^ 63 then r else r - 2 ^ 64.

Definition is_u32 (z : Z) : Prop := 0 <= z < 2 ^ 32.
Definition is_u64 (z : Z) : Prop := 0 <= z < 2 ^ 64.

Lemma u32_range z : is_u32 (u32 z).
Proof. unfold is_u32, u32. apply Z.mod_pos_bound. lia. Qed.

Lemma u64_range z : is_u64 (u64 z).
Proof. unfold is_u64, u64. apply Z.mod_pos_bound. lia. Qed.

Lemma u32_id z : is_u32 z -> u32 z = z.
Proof. unfold is_u32, u32. apply Z.mod_small. Qed.

Lemma u64_id z : is_u64 z -> u64 z = z.
Proof. unfold is_u64, u64. apply Z.mod_small. Qed.

Lemma int64_id z : 0 <= z < 2 ^ 63 -> int64 z = z.
Proof.
  intros H. unfold int64. rewrite u64_id by (unfold is_u64; lia).
  destruct (z <? 2 ^ 63) eqn:E; lia.
Qed.

Lemma int64_u64 z : - 2 ^ 63 <= z < 2 ^ 63 -> int64 (u64 z) = z.
Proof.
  intros H. unfold int64. rewrite (u64_id (u64 z)) by apply u64_range. unfold u64.
  destruct (Z.lt_ge_cases z 0).
  - rewrite <- (Z.mod_add z 1) by lia. rewrite Z.mod_small by lia.
    destruct (_ <? _) eqn:E; lia.
  - rewrite Z.mod_small by lia. destruct (_ <? _) eqn:E; lia.
Qed.

(** * Big-endian encodings of [n] bytes *)

Fixpoint be_put (n : nat) (v : Z) : bytes :=
  match n with
  | O => []
  | S n' => be_put n' (v / 256) ++ [byte_of_Z v]
  end.

Definition be_get (bs : bytes) : Z := fold_left (fun acc b => acc * 256 + byte_Z b) bs 0.

Lemma length_be_put n v : length (be_put n v) = n.
Proof.
  revert v. induction n as [|n IH]; intros v; [done|].
  simpl. rewrite length_app, IH. simpl. lia.
Qed.

Lemma zlen_be_put n v : zlen (be_put n v) = Z.of_nat n.
Proof. unfold zlen. by rewrite length_be_put. Qed.

Lemma be_get_snoc bs b : be_get (bs ++ [b]) = be_get bs * 256 + byte_Z b.
Proof. unfold be_get. by rewrite fold_left_app. Qed.

Lemma be_get_put n v : be_get (be_put n v) = v mod 256 ^ Z.of_nat n.
Proof.
  revert v. induction n as [|n IH]; intros v; [by rewrite Z.mod_1_r|].
  simpl be_put. rewrite be_get_snoc, IH, byte_Z_of_Z.
  rewrite Nat2Z.inj_succ, Z.pow_succ_r by lia.
  rewrite Z.rem_mul_r by lia. lia.
Qed.

Lemma be_get_range bs : 0 <= be_get bs < 256 ^ zlen bs.
Proof.
  induction bs as [|b bs IH] using rev_ind; [done|].
  rewrite be_get_snoc, zlen_app.
  replace (zlen [b]) with 1 by done.
  rewrite Z.pow_add_r by (try lia; apply zlen_nonneg).
  pose proof (byte_Z_range b). lia.
Qed.

Lemma be_put_get bs : be_put (length bs) (be_get bs) = bs.
Proof.
  induction bs as [|b bs IH] using rev_ind; [done|].
  rewrite length_app, Nat.add_comm. simpl. rewrite be_get_snoc.
  pose proof (byte_Z_range b).
  rewrite Z.div_add_l, (Z.div_small (byte_Z b)), Z.add_0_r by lia.
  rewrite IH. f_equal. f_equal. apply byte_Z_inj.
  rewrite byte_Z_of_Z, Z.add_comm, Z.mod_add, Z.mod_small by lia. done.
Qed.

(** The four widths the source uses. *)
Definition put_u32 (v : Z) : bytes := be_put 4 v.
Definition put_u64 (v : Z) : bytes := be_put 8 v.
Definition get_u32 (bs : bytes) : Z := be_get (take 4 bs).
Definition get_u64 (bs : bytes) : Z := be_get (take 8 bs).
#[global] Arguments put_u32 _ : simpl never.
#[global] Arguments put_u64 _ : simpl never.

Lemma length_put_u32 v : length (put_u32 v) = 4%nat.
Proof. apply length_be_put. Qed.

Lemma length_put_u64 v : length (put_u64 v) = 8%nat.
Proof. apply length_be_put. Qed.

Lemma zlen_put_u32 v : zlen (put_u32 v) = 4.
Proof. apply zlen_be_put. Qed.

Lemma zlen_put_u64 v : zlen (put_u64 v) = 8.
Proof. apply zlen_be_put. Qed.

Lemma get_put_u32 v rest : is_u32 v -> get_u32 (put_u32 v ++ rest) = v.
Proof.
  intros H. unfold get_u32. rewrite take_app_length' by by rewrite length_put_u32.
  unfold put_u32. rewrite be_get_put. by apply Z.mod_small.
Qed.

Lemma be_get_put_u32 v : is_u32 v -> be_get (put_u32 v) = v.
Proof. intros H. unfold put_u32. rewrite be_get_put. by apply Z.mod_small. Qed.

Lemma be_get_put_u64 v : is_u64 v -> be_get (put_u64 v) = v.
Proof. intros H. unfold put_u64. rewrite be_get_put. by apply Z.mod_small. Qed.

Lemma get_put_u64 v rest : is_u64 v -> get_u64 (put_u64 v ++ rest) = v.
Proof.
  intros H. unfold get_u64. rewrite take_app_length' by by rewrite length_put_u64.
  unfold put_u64. rewrite be_get_put. by apply Z.mod_small.
Qed.

Lemma get_u32_range bs : is_u32 (get_u32 bs).
Proof.
  unfold is_u32, get_u32. pose proof (be_get_range (take 4 bs)) as H.
  assert (256 ^ zlen (take 4 bs) <= 256 ^ 4).
  { apply Z.pow_le_mono_r; [lia|]. unfold zlen. rewrite length_take. lia. }
  lia.
Qed.

Lemma get_u64_range bs : is_u64 (get_u64 bs).
Proof.
  unfold is_u64, get_u64. pose proof (be_get_range (take 8 bs)) as H.
  assert (256 ^ zlen (take 8 bs) <= 256 ^ 8).
  { apply Z.pow_le_mono_r; [lia|]. unfold zlen. rewrite length_take. lia. }
  lia.
Qed.

#[export] Hint Resolve u32_range u64_range get_u32_range get_u64_range : core.

(** Sums of lengths of encoded pieces. *)
Create Rewrite HintDb zlen.
#[export] Hint Rewrite @zlen_app zlen_put_u32 zlen_put_u64 @length_app length_put_u32
  length_put_u64 : zlen.

(** * CRC-32 (IEEE), reflected polynomial 0xEDB88320 *)

Definition crc_bit (c : Z) : Z :=
  if Z.testbit c 0 then Z.lxor (Z.shiftr c 1) 0xEDB88320 else Z.shiftr c 1.

Definition crc_byte (c : Z) (b : byte) : Z :=
  Nat.iter 8 crc_bit (Z.lxor c (byte_Z b)).

Definition crc32_ieee (data : bytes) : Z :=
  u32 (Z.lxor (fold_left crc_byte data 0xFFFFFFFF) 0xFFFFFFFF).

Lemma crc32_range data : is_u32 (crc32_ieee data).
Proof. unfold crc32_ieee. auto. Qed.

#[export] Hint Resolve crc32_range : core.

(** The check value of the CRC-32/IEEE specification, of "123456789". *)
Example crc32_check : crc32_ieee [x31; x32; x33; x34; x35; x36; x37; x38; x39] = 0xCBF43926.
Proof. vm_compute. reflexivity. Qed.

(** * FNV-1a, 64 bits *)

Definition fnv64a (data : bytes) : Z :=
  fold_left (fun h b => u64 (Z.lxor h (byte_Z b) * 1099511628211)) data 14695981039346656037.

Lemma fnv64a_range data : is_u64 (fnv64a data).
Proof.
  unfold fnv64a. destruct data as [|b data] using rev_ind; [done|].
  rewrite fold_left_app. simpl. auto.
Qed.

(** The published FNV-1a value of "a". *)
Example fnv64a_check : fnv64a [x61] = 0xaf63dc4c8601ec8c.
Proof. vm_compute. reflexivity. Qed.
