(* ===== verification/Fs.v ===== *)
(** The file system and the process around it.

    A [World] is the database directory (file name to file) together with a
    schedule of faults: every operating-system call consumes the next element of
    the schedule, which lets it succeed, fail with an error after having
    performed part of its effect, or end the process at that point.  A schedule
    that has run out lets every further call succeed.

    Each file records its content and the part of it that an [fsync] has made
    durable.  [power_loss] is what a loss of power may leave of a file.

    [io] is the state-and-error monad of the code that performs such calls:
    [let!] is Go's [if err != nil { return err }], [try] gives the caller the
    error instead, and the end of the process cannot be intercepted.  [triple] is a
    Hoare triple over it that holds for every schedule, so a proved triple covers
    every error path and every crash point at once. *)

From Stdlib Require Import ZArith Lia.
From S2P Require Import Prelude.

Record file := File { content : bytes; durable : bytes }.

#[export] Instance file_eq_dec : EqDecision file.
Proof. solve_decision. Defined.

Abbreviation fsys := (gmap string file).

Inductive fault :=
| NoFault
| Fail (e : error) (n : nat)
| Crash (n : nat).

Record World := mkWorld { fs : fsys; faults : list fault }.

Definition io (A : Type) := World -> res A * World.

Definition io_ret {A} (a : A) : io A := fun w => (Ok a, w).
Definition io_err {A} (e : error) : io A := fun w => (Err e, w).
Definition io_bind {A B} (m : io A) (k : A -> io B) : io B := fun w =>
  match m w with
  | (Ok a, w') => k a w'
  | (Err e, w') => (Err e, w')
  | (Crashed, w') => (Crashed, w')
  end.
Definition try {A} (m : io A) : io (A + error) := fun w =>
  match m w with
  | (Ok a, w') => (Ok (inl a), w')
  | (Err e, w') => (Ok (inr e), w')
  | (Crashed, w') => (Crashed, w')
  end.
(** A call whose error the source ignores. *)
Definition ignore {A} (m : io A) : io unit := fun w =>
  match m w with
  | (Crashed, w') => (Crashed, w')
  | (_, w') => (Ok tt, w')
  end.
Definition io_res {A} (r : res A) : io A := fun w => (r, w).

Lemma io_bind_run {A B} (m : io A) (k : A -> io B) w r w' : m w = (r, w') ->
  io_bind m k w = match r with Ok a => k a w' | Err e => (Err e, w') | Crashed => (Crashed, w') end.
Proof. unfold io_bind. by intros ->. Qed.

Lemma try_run {A} (m : io A) w r w' : m w = (r, w') ->
  try m w = match r with Ok a => (Ok (inl a), w') | Err e => (Ok (inr e), w') | Crashed => (Crashed, w') end.
Proof. unfold try. by intros ->. Qed.

Lemma io_bind_ok {A B} (m : io A) (k : A -> io B) w a w' : m w = (Ok a, w') ->
  io_bind m k w = k a w'.
Proof. unfold io_bind. by intros ->. Qed.

Lemma bind_try_ok {A B} (m : io A) (k : A + error -> io B) w a w' : m w = (Ok a, w') ->
  io_bind (try m) k w = k (inl a) w'.
Proof. unfold io_bind, try. by intros ->. Qed.

Notation "'let!' p ':=' m 'in' k" := (io_bind m (fun x => match x with p => k end))
  (at level 10, p pattern, m at level 100, k at level 200) : pebble_scope.
Notation "m ;;! k" := (io_bind m (fun _ => k))
  (at level 100, k at level 200, right associativity) : pebble_scope.

(** * Operating-system calls *)

(** A call with its complete effect [run] and what is done of it when it is cut
    short ([partial n]). *)
Definition prim {A} (partial : nat -> fsys -> fsys) (run : fsys -> res A * fsys) : io A :=
  fun w =>
    match faults w with
    | [] => let '(r, f) := run (fs w) in (r, mkWorld f [])
    | NoFault :: fl => let '(r, f) := run (fs w) in (r, mkWorld f fl)
    | Fail e n :: fl => (Err e, mkWorld (partial n (fs w)) fl)
    | Crash n :: fl => (Crashed, mkWorld (partial n (fs w)) fl)
    end.

Definition no_effect (_ : nat) (f : fsys) : fsys := f.

Definition append_to (p : string) (bs : bytes) (f : fsys) : fsys :=
  alter (fun fl => File (content fl ++ bs) (durable fl)) p f.

(** [f.Write(bs)] on a handle that writes at the end of the file. *)
Definition fs_write (p : string) (bs : bytes) : io unit :=
  prim (fun n => append_to p (take n bs))
       (fun f => match f !! p with
                 | Some _ => (Ok tt, append_to p bs f)
                 | None => (Err os_ErrClosed, f)
                 end).

(** [f.Sync()] *)
Definition fs_sync (p : string) : io unit :=
  prim no_effect
       (fun f => match f !! p with
                 | Some _ => (Ok tt, alter (fun fl => File (content fl) (content fl)) p f)
                 | None => (Err os_ErrClosed, f)
                 end).

(** [f.Close()] *)
Definition fs_close (p : string) : io unit := prim no_effect (fun f => (Ok tt, f)).

(** [os.OpenFile] with [O_CREATE|O_TRUNC], and [os.Create]. *)
Definition fs_open_trunc (p : string) : io unit :=
  prim no_effect (fun f => (Ok tt, <[p := File [] []]> f)).

(** [os.OpenFile] with [O_CREATE] and without [O_TRUNC]. *)
Definition fs_open_create (p : string) : io unit :=
  prim no_effect
       (fun f => (Ok tt, match f !! p with Some _ => f | None => <[p := File [] []]> f end)).

(** [os.Open], and [os.OpenFile] without [O_CREATE]. *)
Definition fs_open (p : string) : io unit :=
  prim no_effect
       (fun f => (match f !! p with Some _ => Ok tt | None => Err os_ErrNotExist end, f)).

(** [os.Rename(a, b)], atomic. *)
Definition fs_rename (a b : string) : io unit :=
  prim no_effect
       (fun f => match f !! a with
                 | Some fl => (Ok tt, <[b := fl]> (delete a f))
                 | None => (Err os_ErrNotExist, f)
                 end).

(** [os.Remove(p)] *)
Definition fs_remove (p : string) : io unit :=
  prim no_effect
       (fun f => match f !! p with
                 | Some _ => (Ok tt, delete p f)
                 | None => (Err os_ErrNotExist, f)
                 end).

(** Shorten to [n] bytes, or extend with zero bytes. *)
Definition resize (n : Z) (bs : bytes) : bytes :=
  take (Z.to_nat n) bs ++ replicate (Z.to_nat n - length bs) x00.

(** [os.Truncate(p, n)] and [f.Truncate(n)] *)
Definition fs_truncate (p : string) (n : Z) : io unit :=
  prim no_effect
       (fun f => match f !! p with
                 | Some _ => (Ok tt, alter (fun fl => File (resize n (content fl))
                                                         (take (Z.to_nat n) (durable fl))) p f)
                 | None => (Err os_ErrNotExist, f)
                 end).

(** [f.Stat()] followed by [Size()]. *)
Definition fs_size (p : string) : io Z :=
  prim no_effect
       (fun f => match f !! p with
                 | Some fl => (Ok (zlen (content fl)), f)
                 | None => (Err os_ErrNotExist, f)
                 end).

(** [os.ReadFile(p)] *)
Definition fs_read (p : string) : io bytes :=
  prim no_effect
       (fun f => match f !! p with
                 | Some fl => (Ok (content fl), f)
                 | None => (Err os_ErrNotExist, f)
                 end).

(** [os.ReadDir]: the names of the directory. *)
Definition fs_list : io (list string) :=
  prim no_effect (fun f => (Ok (fst <$> map_to_list f), f)).

(** A point at which the process may end ([maybeCrash]). *)
Definition crash_point : io unit := fun w =>
  match faults w with
  | Crash n :: fl => (Crashed, mkWorld (fs w) fl)
  | NoFault :: fl | Fail _ _ :: fl => (Ok tt, mkWorld (fs w) fl)
  | [] => (Ok tt, w)
  end.

(** * Loss of power *)

(** What may remain of a file: at least what was synced, at most what was written. *)
Definition power_loss_file (f f' : file) : Prop :=
  (durable f) `prefix_of` (content f') /\ (content f') `prefix_of` (content f)
  /\ durable f' = content f'.

Definition power_loss (f f' : fsys) : Prop :=
  forall p, match f !! p, f' !! p with
            | Some fl, Some fl' => power_loss_file fl fl'
            | None, None => True
            | _, _ => False
            end.

Lemma alter_as_insert (g : file -> file) p (f : fsys) fl :
  f !! p = Some fl -> alter g p f = <[p := g fl]> f.
Proof.
  intros H. apply map_eq. intros q. rewrite lookup_insert, lookup_alter.
  case_decide; [subst|done]. by rewrite H.
Qed.

(** The bytes of a file. *)
Definition bytes_at (f : fsys) (p : string) : option bytes := content <$> f !! p.

(** When everything is durable a loss of power may change nothing. *)
Lemma power_loss_self f : map_Forall (fun _ fl => durable fl = content fl) f -> power_loss f f.
Proof.
  intros H p. destruct (f !! p) as [fl|] eqn:E; [|done].
  pose proof (map_Forall_lookup_1 _ _ _ _ H E) as Hd. simpl in Hd. unfold power_loss_file. by rewrite Hd.
Qed.

(** The two extremes of what a loss of power leaves: nothing that was not synced,
    and everything that was written. *)
Definition lose_unsynced (f : fsys) : fsys := (fun fl => File (durable fl) (durable fl)) <$> f.
Definition keep_written (f : fsys) : fsys := (fun fl => File (content fl) (content fl)) <$> f.

Lemma power_loss_extremes f : map_Forall (fun _ fl => durable fl `prefix_of` content fl) f ->
  power_loss f (lose_unsynced f) /\ power_loss f (keep_written f).
Proof.
  intros H. split; intros p; unfold lose_unsynced, keep_written; rewrite lookup_fmap;
    destruct (f !! p) as [fl|] eqn:E; try done; pose proof (map_Forall_lookup_1 _ _ _ _ H E) as Hd;
    simpl; by split.
Qed.

(** * Worlds without faults *)

Definition quiet (w : World) : Prop := faults w = [].

Definition quiet_run {A} (m : io A) (f : fsys) : res A * fsys :=
  let '(r, w) := m (mkWorld f []) in (r, fs w).

Lemma resize_take n bs : 0 <= n <= zlen bs -> resize n bs = take (Z.to_nat n) bs.
Proof.
  intros H. unfold resize, zlen in *. replace (Z.to_nat n - length bs)%nat with 0%nat by lia.
  apply app_nil_r.
Qed.

Lemma bytes_at_insert_eq f p fl : bytes_at (<[p := fl]> f) p = Some (content fl).
Proof. unfold bytes_at. by rewrite lookup_insert_eq. Qed.

Lemma bytes_at_insert_ne f p q fl : p <> q -> bytes_at (<[p := fl]> f) q = bytes_at f q.
Proof. intros H. unfold bytes_at. by rewrite lookup_insert_ne. Qed.

Lemma bytes_at_Some f p c : bytes_at f p = Some c <-> exists d, f !! p = Some (File c d).
Proof.
  unfold bytes_at. destruct (f !! p) as [[c' d]|]; simpl; naive_solver.
Qed.

Lemma prim_quiet {A} partial (run : fsys -> res A * fsys) f :
  prim partial run (mkWorld f []) = let '(r, f') := run f in (r, mkWorld f' []).
Proof. done. Qed.

(** What each call does when nothing goes wrong. *)
Section quiet.
Context (f : fsys) (p : string) (c d : bytes) (Hf : f !! p = Some (File c d)).

Lemma fs_write_quiet bs :
  fs_write p bs (mkWorld f []) = (Ok tt, mkWorld (<[p := File (c ++ bs) d]> f) []).
Proof.
  unfold fs_write. rewrite prim_quiet, Hf. unfold append_to. by rewrite (alter_as_insert _ _ _ _ Hf).
Qed.

Lemma fs_sync_quiet : fs_sync p (mkWorld f []) = (Ok tt, mkWorld (<[p := File c c]> f) []).
Proof. unfold fs_sync. rewrite prim_quiet, Hf. by rewrite (alter_as_insert _ _ _ _ Hf). Qed.

Lemma fs_rename_quiet b :
  fs_rename p b (mkWorld f []) = (Ok tt, mkWorld (<[b := File c d]> (delete p f)) []).
Proof. unfold fs_rename. by rewrite prim_quiet, Hf. Qed.

Lemma fs_remove_quiet : fs_remove p (mkWorld f []) = (Ok tt, mkWorld (delete p f) []).
Proof. unfold fs_remove. by rewrite prim_quiet, Hf. Qed.

Lemma fs_read_quiet : fs_read p (mkWorld f []) = (Ok c, mkWorld f []).
Proof. unfold fs_read. by rewrite prim_quiet, Hf. Qed.

Lemma fs_size_quiet : fs_size p (mkWorld f []) = (Ok (zlen c), mkWorld f []).
Proof. unfold fs_size. by rewrite prim_quiet, Hf. Qed.

Lemma fs_open_quiet : fs_open p (mkWorld f []) = (Ok tt, mkWorld f []).
Proof. unfold fs_open. by rewrite prim_quiet, Hf. Qed.

End quiet.

Lemma fs_close_quiet f p : fs_close p (mkWorld f []) = (Ok tt, mkWorld f []).
Proof. done. Qed.

Lemma fs_open_trunc_quiet f p :
  fs_open_trunc p (mkWorld f []) = (Ok tt, mkWorld (<[p := File [] []]> f) []).
Proof. done. Qed.

(** * Triples that hold under every schedule *)

Definition triple {A} (P : fsys -> Prop) (m : io A) (Q : res A -> fsys -> Prop) : Prop :=
  forall w, P (fs w) -> Q (fst (m w)) (fs (snd (m w))).

Lemma triple_ret {A} (a : A) (P : fsys -> Prop) (Q : res A -> fsys -> Prop) :
  (forall f, P f -> Q (Ok a) f) -> triple P (io_ret a) Q.
Proof. intros H w HP. by apply H. Qed.

Lemma triple_err {A} e (P : fsys -> Prop) (Q : res A -> fsys -> Prop) :
  (forall f, P f -> Q (Err e) f) -> triple P (io_err e) Q.
Proof. intros H w HP. by apply H. Qed.

Lemma triple_bind {A B} (m : io A) (k : A -> io B) P (R : A -> fsys -> Prop) Q :
  triple P m (fun r f => match r with
                         | Ok a => R a f | Err e => Q (Err e) f | Crashed => Q Crashed f
                         end) ->
  (forall a, triple (R a) (k a) Q) ->
  triple P (io_bind m k) Q.
Proof.
  intros Hm Hk w HP. specialize (Hm w HP). unfold io_bind.
  destruct (m w) as [[a|e|] w']; simpl in *; [by apply Hk|done|done].
Qed.

Lemma triple_conseq {A} (m : io A) (P P' : fsys -> Prop) (Q Q' : res A -> fsys -> Prop) :
  triple P m Q -> (forall f, P' f -> P f) -> (forall r f, Q r f -> Q' r f) ->
  triple P' m Q'.
Proof. intros H HP HQ w Hw. apply HQ, H, HP, Hw. Qed.

Lemma triple_prim {A} partial (run : fsys -> res A * fsys) (P : fsys -> Prop)
    (Q : res A -> fsys -> Prop) :
  (forall f, P f -> Q (fst (run f)) (snd (run f))) ->
  (forall f n e, P f -> Q (Err e) (partial n f) /\ Q Crashed (partial n f)) ->
  triple P (prim partial run) Q.
Proof.
  intros H1 H2 [f fl] HP. unfold prim. simpl in *.
  destruct fl as [|[|e n|n] fl]; simpl.
  - specialize (H1 f HP). by destruct (run f).
  - specialize (H1 f HP). by destruct (run f).
  - by apply (H2 f n e).
  - by apply (H2 f n io_EOF).
Qed.

Lemma triple_try {A} (m : io A) (P : fsys -> Prop) (Q : res (A + error) -> fsys -> Prop) :
  triple P m (fun r f => match r with
                         | Ok a => Q (Ok (inl a)) f
                         | Err e => Q (Ok (inr e)) f
                         | Crashed => Q Crashed f
                         end) ->
  triple P (try m) Q.
Proof.
  intros H w HP. specialize (H w HP). unfold try.
  by destruct (m w) as [[a|e|] w'].
Qed.

Lemma triple_ignore {A} (m : io A) (P : fsys -> Prop) (Q : res unit -> fsys -> Prop) :
  triple P m (fun r f => match r with Crashed => Q Crashed f | _ => Q (Ok tt) f end) ->
  triple P (ignore m) Q.
Proof.
  intros H w HP. specialize (H w HP). unfold ignore.
  by destruct (m w) as [[a|e|] w'].
Qed.

(** A write appends all of the bytes, or some of them and does not succeed. *)
Lemma fs_write_triple p bs c d :
  triple (fun f => f !! p = Some (File c d)) (fs_write p bs)
    (fun r f => match r with
       | Ok _ => f !! p = Some (File (c ++ bs) d)
       | _ => exists k, (k <= length bs)%nat /\ f !! p = Some (File (c ++ take k bs) d)
       end).
Proof.
  apply triple_prim; unfold append_to.
  - intros f Hf. rewrite Hf. simpl. unfold append_to. by rewrite lookup_alter_eq, Hf.
  - intros f n e Hf. rewrite lookup_alter_eq, Hf. simpl.
    assert (exists k, (k <= length bs)%nat /\ take n bs = take k bs) as (k & Hk & ->).
    { destruct (decide (n <= length bs)%nat); [by exists n|].
      exists (length bs). split; [lia|]. by rewrite !take_ge by lia. }
    split; by exists k.
Qed.

Lemma fs_sync_triple p c d :
  triple (fun f => f !! p = Some (File c d)) (fs_sync p)
    (fun r f => match r with
       | Ok _ => f !! p = Some (File c c)
       | _ => f !! p = Some (File c d)
       end).
Proof.
  apply triple_prim; unfold no_effect; [|done].
  intros f Hf. rewrite Hf. simpl. by rewrite lookup_alter_eq, Hf.
Qed.

(** An invariant of the directory that [m] keeps whatever happens. *)
Definition preserves {A} (I : fsys -> Prop) (m : io A) : Prop := triple I m (fun _ f => I f).

Lemma preserves_ret {A} (a : A) I : preserves I (io_ret a).
Proof. by apply triple_ret. Qed.

Lemma preserves_err {A} e I : preserves I (@io_err A e).
Proof. by apply triple_err. Qed.

Lemma preserves_res {A} (r : res A) I : preserves I (io_res r).
Proof. by intros w H. Qed.

Lemma preserves_bind {A B} (m : io A) (k : A -> io B) I :
  preserves I m -> (forall a, preserves I (k a)) -> preserves I (io_bind m k).
Proof.
  intros Hm Hk. eapply triple_bind with (R := fun _ => I).
  - eapply triple_conseq; [exact Hm|done|]. by intros [] f.
  - exact Hk.
Qed.

Lemma preserves_prim {A} partial (run : fsys -> res A * fsys) I :
  (forall f, I f -> I (snd (run f))) -> (forall f n, I f -> I (partial n f)) ->
  preserves I (prim partial run).
Proof. intros H1 H2. apply triple_prim; [done|]. intros f n e H. split; by apply H2. Qed.

Lemma preserves_try {A} (m : io A) I : preserves I m -> preserves I (try m).
Proof.
  intros H. apply triple_try. eapply triple_conseq; [exact H|done|]. by intros [] f.
Qed.

Lemma preserves_ignore {A} (m : io A) I : preserves I m -> preserves I (ignore m).
Proof.
  intros H. apply triple_ignore. eapply triple_conseq; [exact H|done|]. by intros [] f.
Qed.

(** Calls that leave every file in place. *)
Lemma preserves_close p I : preserves I (fs_close p).
Proof. by apply preserves_prim. Qed.

Lemma preserves_size p I : preserves I (fs_size p).
Proof. apply preserves_prim; [|done]. intros f H. by destruct (f !! p). Qed.

Lemma preserves_read p I : preserves I (fs_read p).
Proof. apply preserves_prim; [|done]. intros f H. by destruct (f !! p). Qed.

Lemma preserves_open p I : preserves I (fs_open p).
Proof. by apply preserves_prim. Qed.

(** An invariant about the file [q] alone is kept by calls on other files. *)
Definition about (q : string) (Q : option file -> Prop) (f : fsys) : Prop := Q (f !! q).

Lemma about_write p q bs Q : p <> q -> preserves (about q Q) (fs_write p bs).
Proof.
  intros Hne. unfold about, append_to. apply preserves_prim.
  - intros f H. destruct (f !! p); simpl; [|done]. unfold append_to.
    by rewrite lookup_alter_ne.
  - intros f n H. unfold append_to. by rewrite lookup_alter_ne.
Qed.

Lemma about_sync_other p q Q : p <> q -> preserves (about q Q) (fs_sync p).
Proof.
  intros Hne. unfold about. apply preserves_prim; [|done].
  intros f H. destruct (f !! p); simpl; [|done]. by rewrite lookup_alter_ne.
Qed.

Lemma about_open_trunc p q Q : p <> q -> preserves (about q Q) (fs_open_trunc p).
Proof.
  intros Hne. unfold about. apply preserves_prim; [|done].
  intros f H. simpl. by rewrite lookup_insert_ne.
Qed.

Lemma about_remove p q Q : p <> q -> preserves (about q Q) (fs_remove p).
Proof.
  intros Hne. unfold about. apply preserves_prim; [|done].
  intros f H. destruct (f !! p); simpl; [|done]. by rewrite lookup_delete_ne.
Qed.

Lemma about_rename_other a b q Q : a <> q -> b <> q -> preserves (about q Q) (fs_rename a b).
Proof.
  intros Ha Hb. unfold about. apply preserves_prim; [|done].
  intros f H. destruct (f !! a); simpl; [|done]. by rewrite lookup_insert_ne, lookup_delete_ne.
Qed.

Lemma about_truncate p n q Q : p <> q -> preserves (about q Q) (fs_truncate p n).
Proof.
  intros Hne. unfold about. apply preserves_prim; [|done].
  intros f H. destruct (f !! p); simpl; [|done]. by rewrite lookup_alter_ne.
Qed.

Lemma about_open_create p q Q : p <> q -> preserves (about q Q) (fs_open_create p).
Proof.
  intros Hne. unfold about. apply preserves_prim; [|done].
  intros f H. simpl. destruct (f !! p); [done|]. by rewrite lookup_insert_ne.
Qed.

(** A program that touches only the files in [S]. *)
Definition touches (S : string -> Prop) {A} (m : io A) : Prop :=
  forall q Q, ~ S q -> preserves (about q Q) m.

Lemma touches_frame S {A} (m : io A) wd q : touches S m -> ~ S q -> fs (snd (m wd)) !! q = fs wd !! q.
Proof. intros Hm Hq. by apply (Hm q (fun o => o = fs wd !! q) Hq wd). Qed.

Lemma touches_unchanged S {A} (m : io A) (f0 : fsys) : touches S m ->
  preserves (fun f => forall q, ~ S q -> f !! q = f0 !! q) m.
Proof. intros Hm wd H q Hq. rewrite (touches_frame S m wd q Hm Hq). by apply H. Qed.

(** The size call reports the size of the file. *)
Lemma fs_size_triple p c (P : fsys -> Prop) :
  (forall f, P f -> bytes_at f p = Some c) ->
  triple P (fs_size p) (fun r f => P f /\ forall n, r = Ok n -> n = zlen c).
Proof.
  intros H. apply triple_prim; [|done]. intros f HP. specialize (H f HP).
  apply bytes_at_Some in H as [d H]. rewrite H. simpl. naive_solver.
Qed.

Lemma fs_read_triple p c (P : fsys -> Prop) :
  (forall f, P f -> bytes_at f p = Some c) ->
  triple P (fs_read p) (fun r f => P f /\ forall bs, r = Ok bs -> bs = c).
Proof.
  intros H. apply triple_prim; [|done]. intros f HP. specialize (H f HP).
  apply bytes_at_Some in H as [d H]. rewrite H. simpl. naive_solver.
Qed.

(** A frame: what a call does to [p] does not disturb what is known about [q]. *)
Lemma triple_and {A} (m : io A) P Q (I : fsys -> Prop) :
  triple P m Q -> preserves I m -> triple (fun f => P f /\ I f) m (fun r f => Q r f /\ I f).
Proof. intros H1 H2 w [HP HI]. split; [by apply H1|by apply H2]. Qed.

Lemma triple_pull {A} (m : io A) (P : fsys -> Prop) (phi : Prop) Q :
  (phi -> triple P m Q) -> triple (fun f => P f /\ phi) m Q.
Proof. intros H w [HP Hphi]. by apply H. Qed.

(** * Programs that only read

    The directory is unchanged, a successful result satisfies [P], and there is
    no other outcome unless the schedule has a fault. *)

Definition reads {A} (m : io A) (w : World) (P : A -> Prop) : Prop :=
  fs (snd (m w)) = fs w /\ (faults w = [] -> faults (snd (m w)) = []) /\
  match fst (m w) with Ok a => P a | _ => faults w <> [] end.

Lemma reads_ret {A} (a : A) w (P : A -> Prop) : P a -> reads (io_ret a) w P.
Proof. by intros H. Qed.

Lemma reads_bind {A B} (m : io A) (k : A -> io B) w P Q :
  reads m w P ->
  (forall a w', P a -> fs w' = fs w -> (faults w = [] -> faults w' = []) -> reads (k a) w' Q) ->
  reads (io_bind m k) w Q.
Proof.
  intros (H1 & H2 & H3) Hk. unfold reads, io_bind in *.
  destruct (m w) as [[a|e|] w']; simpl in *; [|done|done].
  destruct (Hk a w' H3 H1 H2) as (K1 & K2 & K3). split; [congruence|]. split; [auto|].
  destruct (fst (k a w')); auto.
Qed.

Lemma reads_try {A} (m : io A) w P : reads m w P ->
  reads (try m) w (fun x => match x with inl a => P a | inr _ => faults w <> [] end).
Proof.
  intros (H1 & H2 & H3). unfold reads, try in *. by destruct (m w) as [[a|e|] w'].
Qed.

Lemma reads_weaken {A} (m : io A) w (P Q : A -> Prop) : reads m w P -> (forall a, P a -> Q a) -> reads m w Q.
Proof. intros (H1 & H2 & H3) HQ. split; [done|]. split; [done|]. destruct (fst (m w)); auto. Qed.

Lemma reads_res {A} (a : A) w (P : A -> Prop) : P a -> reads (io_res (Ok a)) w P.
Proof. by intros H. Qed.

Lemma reads_prim {A} (run : fsys -> res A * fsys) w (P : A -> Prop) a :
  run (fs w) = (Ok a, fs w) -> P a -> reads (prim no_effect run) w P.
Proof.
  intros Hr HP. unfold reads, prim, no_effect.
  destruct (faults w) as [|[|e n|n] fl] eqn:E; rewrite ?Hr; done.
Qed.

Lemma reads_quiet {A} (m : io A) f P : reads m (mkWorld f []) P ->
  exists a, m (mkWorld f []) = (Ok a, mkWorld f []) /\ P a.
Proof.
  unfold reads. destruct (m (mkWorld f [])) as [r [f' fl]]. simpl. intros (-> & H2 & H3).
  rewrite H2 by done. destruct r; [by eexists|done|done].
Qed.

(** The same where [F] is what a failure of the program reveals. *)
Definition reads_in (F : Prop) {A} (m : io A) (w : World) (P : A -> Prop) : Prop :=
  fs (snd (m w)) = fs w /\ (faults w = [] -> faults (snd (m w)) = []) /\
  match fst (m w) with Ok a => P a | _ => F end.

Lemma reads_reads_in (F : Prop) {A} (m : io A) w P : (faults w <> [] -> F) ->
  reads m w P -> reads_in F m w P.
Proof.
  intros HF (H1 & H2 & H3). split; [done|]. split; [done|]. destruct (fst (m w)); auto.
Qed.

Lemma reads_in_reads {A} (m : io A) w P : reads_in (faults w <> []) m w P -> reads m w P.
Proof. done. Qed.

Lemma reads_in_err (F : Prop) {A} e w (P : A -> Prop) : F -> reads_in F (io_err e) w P.
Proof. done. Qed.

Lemma reads_in_bind (F : Prop) {A B} (m : io A) (k : A -> io B) w P Q :
  reads_in F m w P ->
  (forall a w', P a -> fs w' = fs w -> (faults w = [] -> faults w' = []) -> reads_in F (k a) w' Q) ->
  reads_in F (io_bind m k) w Q.
Proof.
  intros (H1 & H2 & H3) Hk. unfold reads_in, io_bind in *.
  destruct (m w) as [[a|e|] w']; simpl in *; [|done|done].
  destruct (Hk a w' H3 H1 H2) as (K1 & K2 & K3). split; [congruence|]. split; [auto|].
  destruct (fst (k a w')); auto.
Qed.

Section reads_file.
Context (w : World) (p : string) (c : bytes) (Hc : bytes_at (fs w) p = Some c).

Lemma reads_read : reads (fs_read p) w (fun bs => bs = c).
Proof. apply bytes_at_Some in Hc as [d H]. eapply reads_prim; [by rewrite H|done]. Qed.

Lemma reads_size : reads (fs_size p) w (fun n => n = zlen c).
Proof. apply bytes_at_Some in Hc as [d H]. eapply reads_prim; [by rewrite H|done]. Qed.

Lemma reads_open : reads (fs_open p) w (fun _ => True).
Proof. apply bytes_at_Some in Hc as [d H]. eapply reads_prim; [by rewrite H|done]. Qed.

End reads_file.

Create HintDb iopres.
#[export] Hint Resolve preserves_ret preserves_err preserves_res preserves_close preserves_size
  preserves_read preserves_open about_write about_sync_other about_open_trunc
  about_remove about_rename_other about_truncate about_open_create preserves_try preserves_ignore : iopres.

(** Decompose a program into its calls and discharge the ones the database knows. *)
Ltac io_pres :=
  repeat match goal with
  | |- preserves _ (io_bind _ _) => apply preserves_bind; [|intros ?]
  | |- preserves _ (try _) => apply preserves_try
  | |- preserves _ (ignore _) => apply preserves_ignore
  | |- preserves _ (if ?b then _ else _) => destruct b eqn:?
  | |- preserves _ (match ?x with _ => _ end) => destruct x eqn:?
  | |- preserves _ _ => solve [eauto with iopres]
  end.

(** Symbolic execution of calls in a world without faults; [Hf] says what the
    files that matter hold. *)
Ltac io_cbn :=
  cbn [io_bind try ignore io_ret io_err io_res fs faults no_effect content durable prim fst snd].
Ltac io_cbn_in H :=
  cbn [io_bind try ignore io_ret io_err io_res fs faults no_effect content durable prim fst snd] in H.

(** * Runs that the process may not survive

    A program is [steady] when it does under a schedule without errors what it does
    without faults, as far as it gets: the schedule can only end the process. *)

Definition no_fail (fl : list fault) : Prop :=
  Forall (fun x => match x with Fail _ _ => False | _ => True end) fl.

Definition steady {A} (m : io A) : Prop := forall f,
  faults (snd (m (mkWorld f []))) = [] /\
  forall fl, no_fail fl ->
    fst (m (mkWorld f fl)) = Crashed \/
    exists fl', fl' `suffix_of` fl /\
      m (mkWorld f fl) = (fst (m (mkWorld f [])), mkWorld (fs (snd (m (mkWorld f [])))) fl').

Lemma no_fail_suffix fl' fl : fl' `suffix_of` fl -> no_fail fl -> no_fail fl'.
Proof. intros [l ->] H. by apply Forall_app in H as [_ H]. Qed.

Lemma no_fail_cons x fl : no_fail (x :: fl) -> match x with Fail _ _ => False | _ => True end /\ no_fail fl.
Proof. apply Forall_cons. Qed.

Lemma steady_quiet {A} (m : io A) wd : steady m -> faults wd = [] -> faults (snd (m wd)) = [].
Proof. intros Hm Hw. destruct wd as [f fl]. cbn in Hw. subst fl. apply Hm. Qed.

Lemma steady_pure {A} (r : res A) : steady (io_res r).
Proof. intros f. split; [done|]. intros fl _. right. by exists fl. Qed.
Lemma steady_ret {A} (a : A) : steady (io_ret a).
Proof. apply (steady_pure (Ok a)). Qed.
Lemma steady_err {A} e : steady (@io_err A e).
Proof. apply (steady_pure (Err e)). Qed.

Lemma steady_bind {A B} (m : io A) (k : A -> io B) :
  steady m -> (forall a, steady (k a)) -> steady (io_bind m k).
Proof.
  intros Hm Hk f. destruct (Hm f) as [Hq Hc]. unfold io_bind.
  destruct (m (mkWorld f [])) as [r [f1 fl1]]. cbn [fst snd fs faults] in *. subst fl1. split.
  { destruct r as [a|e|]; [apply (Hk a)|done|done]. }
  intros fl Hfl. destruct (Hc fl Hfl) as [Hcr|(fl' & Hsuf & ->)].
  { left. by destruct (m (mkWorld f fl)) as [[a|e|] w]. }
  destruct r as [a|e|]; [|right; by exists fl'|by left].
  destruct (proj2 (Hk a f1) fl' (no_fail_suffix _ _ Hsuf Hfl)) as [Hcr|(fl2 & Hsuf2 & E)]; [by left|].
  right. exists fl2. split; [by etrans|done].
Qed.

Lemma steady_prim {A} partial (run : fsys -> res A * fsys) : steady (prim partial run).
Proof.
  intros f. unfold prim. cbn. destruct (run f) as [r f1]. split; [done|]. intros fl Hfl.
  destruct fl as [|[|e n|n] fl]; [right; by exists [] | |by apply no_fail_cons in Hfl as [[] _]|by left].
  right. exists fl. split; [by apply suffix_cons_r|done].
Qed.

Lemma steady_try {A} (m : io A) : steady m -> steady (try m).
Proof.
  intros Hm f. destruct (Hm f) as [Hq Hc]. unfold try.
  destruct (m (mkWorld f [])) as [r [f1 fl1]]. cbn [fst snd fs faults] in *. subst fl1. split.
  { by destruct r. }
  intros fl Hfl. destruct (Hc fl Hfl) as [Hcr|(fl' & Hsuf & ->)].
  { left. by destruct (m (mkWorld f fl)) as [[a|e|] w]. }
  right. exists fl'. by destruct r.
Qed.

Lemma steady_ignore {A} (m : io A) : steady m -> steady (ignore m).
Proof.
  intros Hm f. destruct (Hm f) as [Hq Hc]. unfold ignore.
  destruct (m (mkWorld f [])) as [r [f1 fl1]]. cbn [fst snd fs faults] in *. subst fl1. split.
  { by destruct r. }
  intros fl Hfl. destruct (Hc fl Hfl) as [Hcr|(fl' & Hsuf & ->)].
  { left. by destruct (m (mkWorld f fl)) as [[a|e|] w]. }
  right. exists fl'. by destruct r.
Qed.

Lemma steady_crash_point : steady crash_point.
Proof.
  intros f. split; [done|]. intros fl Hfl. unfold crash_point. cbn.
  destruct fl as [|[|e n|n] fl]; [right; by exists []| |by apply no_fail_cons in Hfl as [[] _]|by left].
  right. exists fl. split; [by apply suffix_cons_r|done].
Qed.

Create HintDb iosteady.
#[export] Hint Resolve steady_ret steady_err steady_pure steady_crash_point : iosteady.

Ltac io_steady :=
  repeat match goal with
  | |- steady (io_bind _ _) => apply steady_bind; [|intros ?]
  | |- steady (try _) => apply steady_try
  | |- steady (ignore _) => apply steady_ignore
  | |- steady (if ?b then _ else _) => destruct b eqn:?
  | |- steady (match ?x with _ => _ end) => destruct x eqn:?
  | |- steady (prim _ _) => apply steady_prim
  | |- steady _ => solve [eauto with iosteady]
  end.
Ltac prim_steady := intros; apply steady_prim.

Lemma steady_write p bs : steady (fs_write p bs). Proof. prim_steady. Qed.
Lemma steady_sync p : steady (fs_sync p). Proof. prim_steady. Qed.
Lemma steady_close p : steady (fs_close p). Proof. prim_steady. Qed.
Lemma steady_open_trunc p : steady (fs_open_trunc p). Proof. prim_steady. Qed.
Lemma steady_open_create p : steady (fs_open_create p). Proof. prim_steady. Qed.
Lemma steady_open p : steady (fs_open p). Proof. prim_steady. Qed.
Lemma steady_rename a b : steady (fs_rename a b). Proof. prim_steady. Qed.
Lemma steady_remove p : steady (fs_remove p). Proof. prim_steady. Qed.
Lemma steady_truncate p n : steady (fs_truncate p n). Proof. prim_steady. Qed.
Lemma steady_size p : steady (fs_size p). Proof. prim_steady. Qed.
Lemma steady_read p : steady (fs_read p). Proof. prim_steady. Qed.
Lemma steady_list : steady fs_list. Proof. prim_steady. Qed.
#[export] Hint Resolve steady_write steady_sync steady_close steady_open_trunc steady_open_create
  steady_open steady_rename steady_remove steady_truncate steady_size steady_read steady_list : iosteady.

(** A steady program that leaves the directory alone. *)
Definition read_only {A} (m : io A) : Prop := steady m /\ forall I, preserves I m.

Lemma read_only_steady {A} (m : io A) : read_only m -> steady m.
Proof. apply proj1. Qed.
Lemma read_only_preserves {A} (m : io A) I : read_only m -> preserves I m.
Proof. intros H. apply H. Qed.
Lemma read_only_fs {A} (m : io A) wd : read_only m -> fs (snd (m wd)) = fs wd.
Proof. intros [_ H]. by apply (H (fun f => f = fs wd) wd). Qed.
#[export] Hint Resolve read_only_steady : iosteady.
#[export] Hint Resolve read_only_preserves : iopres.

Ltac io_read_only := split; [io_steady|intros; io_pres].

(** [runs m f a f1 C]: from [f] the program returns [a] and leaves [f1], unless the
    process ends on the way, in a directory that satisfies [C]. *)
Definition runs {A} (m : io A) (f : fsys) (a : A) (f1 : fsys) (C : fsys -> Prop) : Prop :=
  m (mkWorld f []) = (Ok a, mkWorld f1 []) /\
  forall fl, no_fail fl ->
    (fst (m (mkWorld f fl)) = Crashed /\ C (fs (snd (m (mkWorld f fl))))) \/
    exists fl', fl' `suffix_of` fl /\ m (mkWorld f fl) = (Ok a, mkWorld f1 fl').

(** A run without faults and a triple give it for a steady program. *)
Lemma runs_steady {A} (m : io A) f a f1 P Q (C : fsys -> Prop) : steady m ->
  m (mkWorld f []) = (Ok a, mkWorld f1 []) -> triple P m Q -> P f -> (forall f', Q Crashed f' -> C f') ->
  runs m f a f1 C.
Proof.
  intros Hs Hq Ht HP HC. split; [done|]. intros fl Hfl. destruct (proj2 (Hs f) fl Hfl) as [Hcr|(fl' & Hsuf & E)].
  - left. split; [done|]. specialize (Ht (mkWorld f fl) HP). rewrite Hcr in Ht. by apply HC.
  - right. exists fl'. split; [done|]. by rewrite E, Hq.
Qed.

Lemma runs_from {A} (m : io A) f a f1 (C : fsys -> Prop) : steady m ->
  m (mkWorld f []) = (Ok a, mkWorld f1 []) -> triple (eq f) m (fun _ => C) -> runs m f a f1 C.
Proof. intros Hs Hq Ht. by eapply runs_steady. Qed.

Lemma runs_weaken {A} (m : io A) f a f1 (C C' : fsys -> Prop) : runs m f a f1 C ->
  (forall f', C f' -> C' f') -> runs m f a f1 C'.
Proof. intros [Hq Hm] H. split; [done|]. intros fl Hfl. destruct (Hm fl Hfl) as [[]|]; auto. Qed.

Lemma runs_ret {A} (a : A) f C : runs (io_ret a) f a f C.
Proof. split; [done|]. intros fl _. right. by exists fl. Qed.

Lemma runs_bind {A B} (m : io A) (k : A -> io B) f a f1 b f2 C :
  runs m f a f1 C -> runs (k a) f1 b f2 C -> runs (io_bind m k) f b f2 C.
Proof.
  intros [Hq Hm] [Hkq Hk]. split; [by rewrite (io_bind_ok _ _ _ _ _ Hq)|]. intros fl Hfl.
  unfold io_bind. destruct (Hm fl Hfl) as [[Hcr HC]|(fl' & Hsuf & ->)].
  { left. by destruct (m (mkWorld f fl)) as [[x|e|] w]. }
  destruct (Hk fl' (no_fail_suffix _ _ Hsuf Hfl)) as [[Hcr HC]|(fl2 & Hsuf2 & E)]; [by left|].
  right. exists fl2. split; [by etrans|done].
Qed.

Lemma runs_try {A} (m : io A) f a f1 C : runs m f a f1 C -> runs (try m) f (inl a) f1 C.
Proof.
  intros [Hq Hm]. split; [by apply (try_run _ _ (Ok a))|]. intros fl Hfl.
  unfold try. destruct (Hm fl Hfl) as [[Hcr HC]|(fl' & Hsuf & ->)].
  { left. by destruct (m (mkWorld f fl)) as [[x|e|] w]. }
  right. by exists fl'.
Qed.

(** A program that does not change the directory. *)
Lemma runs_reading {A} (m : io A) f a (C : fsys -> Prop) : read_only m ->
  m (mkWorld f []) = (Ok a, mkWorld f []) -> C f -> runs m f a f C.
Proof.
  intros Hr Hq HC. apply runs_from; [apply Hr|done|]. intros wd ->. by rewrite read_only_fs.
Qed.

Lemma runs_crash_point f (C : fsys -> Prop) : C f -> runs crash_point f tt f C.
Proof.
  intros HC. apply runs_from; [apply steady_crash_point|done|].
  intros [f' fl] ->. unfold crash_point. cbn in *. by destruct fl as [|[] ?].
Qed.

(** What holds at every end of the run. *)
Lemma runs_end {A} (m : io A) f a f1 (C : fsys -> Prop) fl : runs m f a f1 C -> no_fail fl -> C f1 ->
  C (fs (snd (m (mkWorld f fl)))).
Proof. intros [_ Hm] Hfl H1. by destruct (Hm fl Hfl) as [[_ HC]|(fl' & _ & ->)]. Qed.
