(* ===== verification/GoStr.v ===== *)
(** Decimal numbers in file names: [fmt.Sprintf("%0wd")], [strconv.ParseUint],
    [strings.TrimSpace], [strings.HasPrefix]/[TrimPrefix] and the SSTable file-name
    pattern, on Rocq strings. *)

From Stdlib Require Import ZArith Lia Ascii.
From S2P Require Import Prelude Word.

Module GoStr.

Local Open Scope string_scope.
Local Open Scope Z_scope.

Definition digit_char (d : Z) : ascii := ascii_of_N (Z.to_N (48 + d)).

Definition char_digit (a : ascii) : option Z :=
  let n := Z.of_N (N_of_ascii a) in
  if (48 <=? n) && (n <=? 57) then Some (n - 48) else None.

(** The [k] low decimal digits, most significant first. *)
Fixpoint low_digits (k : nat) (n : Z) : string :=
  match k with
  | O => ""
  | S k' => String.append (low_digits k' (n / 10)) (String (digit_char (n mod 10)) "")
  end.

(** The number of decimal digits; 20 are enough for 64 bits. *)
Fixpoint digit_count (fuel : nat) (n : Z) : nat :=
  match fuel with
  | O => 1%nat
  | S fuel' => if n <? 10 then 1%nat else S (digit_count fuel' (n / 10))
  end.

(** [fmt.Sprintf("%0wd", n)] *)
Definition format_padded (w : nat) (n : Z) : string :=
  low_digits (w `max` digit_count 20 n)%nat n.

(** [strconv.ParseUint(s, 10, 64)] *)
Fixpoint parse_digits (s : string) (acc : Z) : option Z :=
  match s with
  | "" => Some acc
  | String a s' => match char_digit a with Some d => parse_digits s' (acc * 10 + d) | None => None end
  end.

Definition ParseUint (s : string) : option Z :=
  match s with
  | "" => None
  | _ => match parse_digits s 0 with
         | Some n => if n <? 2 ^ 64 then Some n else None
         | None => None
         end
  end.

(** [strings.TrimPrefix] when the prefix is there. *)
Fixpoint strip_prefix (pre s : string) : option string :=
  match pre, s with
  | "", _ => Some s
  | String a pre', String b s' => if decide (a = b) then strip_prefix pre' s' else None
  | _, "" => None
  end.

(** ASCII white space. *)
Definition is_space (a : ascii) : bool :=
  let n := N_of_ascii a in (n =? 32)%N || ((9 <=? n)%N && (n <=? 13)%N).

Fixpoint trim_left (s : string) : string :=
  match s with
  | "" => ""
  | String a s' => if is_space a then trim_left s' else s
  end.

Fixpoint trim_right (s : string) : string :=
  match s with
  | "" => ""
  | String a s' =>
      match trim_right s' with
      | "" => if is_space a then "" else String a ""
      | r => String a r
      end
  end.

Definition TrimSpace (s : string) : string := trim_right (trim_left s).

(** * Round trips *)

Lemma char_digit_char d : 0 <= d <= 9 -> char_digit (digit_char d) = Some d.
Proof.
  intros H. unfold char_digit, digit_char.
  rewrite N_ascii_embedding by lia.
  replace (Z.of_N (Z.to_N (48 + d))) with (48 + d) by lia.
  replace (48 <=? 48 + d) with true by lia. replace (48 + d <=? 57) with true by lia.
  simpl. f_equal. lia.
Qed.

Lemma parse_digits_app s1 s2 acc :
  parse_digits (String.append s1 s2) acc =
  match parse_digits s1 acc with Some n => parse_digits s2 n | None => None end.
Proof.
  revert acc. induction s1 as [|a s1 IH]; intros acc; [done|]. simpl.
  by destruct (char_digit a).
Qed.

Lemma parse_low_digits k n acc :
  parse_digits (low_digits k n) acc = Some (acc * 10 ^ Z.of_nat k + n mod 10 ^ Z.of_nat k).
Proof.
  revert n acc. induction k as [|k IH]; intros n acc.
  - simpl. rewrite Z.mod_1_r. f_equal. lia.
  - simpl low_digits. rewrite parse_digits_app, IH. simpl parse_digits.
    pose proof (Z.mod_pos_bound n 10 eq_refl).
    rewrite char_digit_char by lia.
    f_equal. rewrite Nat2Z.inj_succ, Z.pow_succ_r by lia.
    rewrite (Z.rem_mul_r n 10) by lia. lia.
Qed.

Lemma low_digits_length k n : String.length (low_digits k n) = k.
Proof.
  revert n. induction k as [|k IH]; intros n; [done|]. simpl.
  rewrite string_app_length, IH. simpl. lia.
Qed.

Lemma digit_count_spec fuel n :
  0 <= n < 10 ^ Z.of_nat (S fuel) ->
  n < 10 ^ Z.of_nat (digit_count fuel n) /\ (1 <= digit_count fuel n)%nat.
Proof.
  revert n. induction fuel as [|fuel IH]; intros n Hn.
  - simpl in *. lia.
  - cbn [digit_count]. destruct (n <? 10) eqn:E; [change (10 ^ Z.of_nat 1) with 10; lia|].
    rewrite Nat2Z.inj_succ, Z.pow_succ_r in Hn by lia.
    destruct (IH (n / 10)) as [H1 H2].
    { split; [apply Z.div_pos; lia|apply Z.div_lt_upper_bound; lia]. }
    split; [|lia]. rewrite Nat2Z.inj_succ, Z.pow_succ_r by lia.
    pose proof (Z.mod_pos_bound n 10 eq_refl). pose proof (Z.div_mod n 10). lia.
Qed.

Lemma digit_count_upper fuel n k :
  0 <= n < 10 ^ Z.of_nat (S k) -> (digit_count fuel n <= S k)%nat.
Proof.
  revert n k. induction fuel as [|fuel IH]; intros n k Hn; [simpl; lia|].
  cbn [digit_count]. destruct (n <? 10) eqn:E; [lia|]. destruct k as [|k]; [simpl in Hn; lia|].
  apply le_n_S, IH. rewrite Nat2Z.inj_succ, Z.pow_succ_r in Hn by lia.
  split; [apply Z.div_pos; lia|apply Z.div_lt_upper_bound; lia].
Qed.

Lemma is_u64_digits n : is_u64 n -> 0 <= n < 10 ^ Z.of_nat 21.
Proof. unfold is_u64. change (10 ^ Z.of_nat 21) with 1000000000000000000000. lia. Qed.

Lemma parse_format w n : is_u64 n -> parse_digits (format_padded w n) 0 = Some n.
Proof.
  intros Hn. unfold format_padded. rewrite parse_low_digits. f_equal.
  destruct (digit_count_spec 20 n (is_u64_digits n Hn)) as [H _].
  rewrite Z.mod_small; [lia|]. split; [unfold is_u64 in Hn; lia|].
  eapply Z.lt_le_trans; [exact H|]. apply Z.pow_le_mono_r; lia.
Qed.

Lemma format_nonempty w n : is_u64 n -> format_padded w n <> "".
Proof.
  intros Hn H. apply (f_equal String.length) in H. unfold format_padded in H.
  rewrite low_digits_length in H. cbn [String.length] in H.
  destruct (digit_count_spec 20 n (is_u64_digits n Hn)) as [_ H1].
  pose proof (Nat.le_max_r w (digit_count 20 n)). lia.
Qed.

Lemma ParseUint_format w n : is_u64 n -> ParseUint (format_padded w n) = Some n.
Proof.
  intros Hn. unfold ParseUint. pose proof (format_nonempty w n Hn) as Hne.
  pose proof (parse_format w n Hn) as Hp.
  destruct (format_padded w n) as [|a s]; [done|]. rewrite Hp.
  unfold is_u64 in Hn. by replace (n <? 2 ^ 64) with true by lia.
Qed.

(** A number fills the field exactly while it is below [10^w]. *)
Lemma format_length w n : is_u64 n ->
  String.length (format_padded (S w) n) = S w <-> n < 10 ^ Z.of_nat (S w).
Proof.
  intros Hn. unfold format_padded. rewrite low_digits_length. split.
  - intros H. destruct (digit_count_spec 20 n (is_u64_digits n Hn)) as [H1 _].
    eapply Z.lt_le_trans; [exact H1|]. apply Z.pow_le_mono_r; lia.
  - intros H. pose proof (digit_count_upper 20 n w (conj (proj1 Hn) H)). lia.
Qed.

Lemma strip_prefix_app pre s : strip_prefix pre (String.append pre s) = Some s.
Proof.
  induction pre as [|a pre IH]; [by destruct s|]. simpl. by rewrite decide_True.
Qed.

(** No white space inside. *)
Fixpoint no_space (s : string) : bool :=
  match s with "" => true | String a s' => negb (is_space a) && no_space s' end.

Lemma trim_right_line s : no_space s = true ->
  trim_right (String.append s (String "010" "")) = s.
Proof.
  induction s as [|a s IH]; [done|]. simpl. intros [Ha Hs]%andb_true_iff.
  rewrite IH by done. destruct s; [|done]. by destruct (is_space a).
Qed.

Lemma trim_left_nonspace s t : no_space s = true -> s <> "" ->
  trim_left (String.append s t) = String.append s t.
Proof.
  destruct s as [|a s]; [done|]. simpl. intros [Ha _]%andb_true_iff _. by destruct (is_space a).
Qed.

(** A name written with a newline behind it is read back unchanged. *)
Lemma TrimSpace_line s : no_space s = true -> s <> "" ->
  TrimSpace (String.append s (String "010" "")) = s.
Proof.
  intros H1 H2. unfold TrimSpace. rewrite trim_left_nonspace by done. by apply trim_right_line.
Qed.

Lemma no_space_app s t : no_space (String.append s t) = no_space s && no_space t.
Proof. induction s as [|a s IH]; [done|]. simpl. by rewrite IH, andb_assoc. Qed.

Lemma no_space_digits k n : no_space (low_digits k n) = true.
Proof.
  revert n. induction k as [|k IH]; intros n; [done|]. simpl.
  rewrite no_space_app, IH. simpl. rewrite andb_true_r. apply negb_true_iff.
  unfold is_space, digit_char. pose proof (Z.mod_pos_bound n 10 eq_refl).
  rewrite N_ascii_embedding by lia.
  assert (48 <= Z.to_N (48 + n mod 10))%N by lia.
  rewrite (proj2 (N.eqb_neq _ 32)), (proj2 (N.leb_gt _ 13)) by lia. by rewrite andb_false_r.
Qed.

(** * File names of the directory *)

(** [sst_%08d.sst] *)
Definition sstFilePath (id : Z) : string :=
  String.append "sst_" (String.append (format_padded 8 id) ".sst").

Fixpoint take_digits (k : nat) (s : string) : option (string * string) :=
  match k with
  | O => Some ("", s)
  | S k' =>
      match s with
      | "" => None
      | String a s' =>
          match char_digit a with
          | None => None
          | Some _ =>
              match take_digits k' s' with
              | Some (d, rest) => Some (String a d, rest)
              | None => None
              end
          end
      end
  end.

(** The sub-match of [^sst_(\d{8})\.sst$]. *)
Definition sstFilePattern (name : string) : option string :=
  match strip_prefix "sst_" name with
  | None => None
  | Some s =>
      match take_digits 8 s with
      | Some (d, rest) => if decide (rest = ".sst") then Some d else None
      | None => None
      end
  end.

Fixpoint all_digits (s : string) : bool :=
  match s with
  | "" => true
  | String a s' => match char_digit a with Some _ => all_digits s' | None => false end
  end.

Lemma all_digits_app s t : all_digits (String.append s t) = all_digits s && all_digits t.
Proof. induction s as [|a s IH]; [done|]. simpl. by destruct (char_digit a). Qed.

Lemma all_digits_low k n : all_digits (low_digits k n) = true.
Proof.
  revert n. induction k as [|k IH]; intros n; [done|]. simpl.
  pose proof (Z.mod_pos_bound n 10 eq_refl).
  rewrite all_digits_app, IH. simpl. by rewrite char_digit_char by lia.
Qed.

Lemma take_digits_app k s t : all_digits s = true -> String.length s = k ->
  take_digits k (String.append s t) = Some (s, t).
Proof.
  revert k. induction s as [|a s IH]; intros k Hd Hl; simpl in *; subst k; [done|].
  simpl. destruct (char_digit a); [|done]. by rewrite IH.
Qed.

Lemma take_digits_len k s d rest : take_digits k s = Some (d, rest) ->
  s = String.append d rest /\ String.length d = k.
Proof.
  revert s d. induction k as [|k IH]; intros s d H; simpl in H.
  - by simplify_eq.
  - destruct s as [|a s]; [done|]. destruct (char_digit a); [|done].
    destruct (take_digits k s) as [[d' r']|] eqn:E; [|done]. simplify_eq.
    destruct (IH s d' E) as [-> <-]. done.
Qed.

(** The name of an SSTable matches the pattern exactly when its id has at most
    eight digits. *)
Lemma sstFilePattern_path id : is_u64 id ->
  sstFilePattern (sstFilePath id) =
    if decide (id < 10 ^ 8) then Some (format_padded 8 id) else None.
Proof.
  intros Hid. unfold sstFilePattern, sstFilePath. rewrite strip_prefix_app.
  pose proof (format_length 7 id Hid) as Hlen. change (10 ^ Z.of_nat 8) with (10 ^ 8) in Hlen.
  case_decide as Hlt.
  - rewrite take_digits_app.
    + by rewrite decide_True.
    + apply all_digits_low.
    + by apply Hlen.
  - destruct (take_digits 8 _) as [[d rest]|] eqn:E; [|done].
    apply take_digits_len in E as [E1 E2]. case_decide as Hr; [|done]. subst rest.
    apply (f_equal String.length) in E1. rewrite !string_app_length, E2 in E1.
    destruct Hlt. apply Hlen. simpl in E1. lia.
Qed.

Lemma append_cancel_r (s1 s2 t : string) : String.append s1 t = String.append s2 t -> s1 = s2.
Proof.
  assert (Hlen : forall a b, String.length (String.append a b) = (String.length a + String.length b)%nat).
  { induction a as [|c a IH]; intros b; simpl; [done|]. by rewrite IH. }
  revert s2. induction s1 as [|c s1 IH]; intros [|c' s2] H; simpl in H.
  - done.
  - apply (f_equal String.length) in H. rewrite !Hlen in H. cbn [String.length] in H. lia.
  - apply (f_equal String.length) in H. rewrite !Hlen in H. cbn [String.length] in H. lia.
  - injection H as -> H. by rewrite (IH s2 H).
Qed.

Lemma append_assoc (a b c : string) : String.append a (String.append b c) = String.append (String.append a b) c.
Proof. induction a as [|x a IH]; [done|]. exact (f_equal (String x) IH). Qed.

Lemma append_last a b c d :
  String.append a (String c "") = String.append b (String d "") -> c = d.
Proof.
  intros H. apply (f_equal String.list_ascii_of_string) in H.
  assert (Happ : forall s t, String.list_ascii_of_string (String.append s t) =
    (String.list_ascii_of_string s ++ String.list_ascii_of_string t)%list).
  { induction s as [|x s IH]; intros t; [done|]. exact (f_equal (cons x) (IH t)). }
  rewrite !Happ in H. cbn [String.list_ascii_of_string] in H. by apply app_inj_tail in H as [_ H].
Qed.

(** Different tables have different names. *)
Lemma sstFilePath_inj a b : is_u64 a -> is_u64 b -> sstFilePath a = sstFilePath b -> a = b.
Proof.
  intros Ha Hb H. unfold sstFilePath in H. injection H as H. apply (append_cancel_r (format_padded 8 a) (format_padded 8 b) ".sst") in H.
  apply (f_equal (fun s => parse_digits s 0)) in H. rewrite !parse_format in H by done. by injection H.
Qed.

Lemma parse_digits_nonneg s : forall acc n, 0 <= acc -> parse_digits s acc = Some n -> 0 <= n.
Proof.
  induction s as [|c s IH]; intros acc n Ha H; simpl in H; [by injection H as <-|].
  destruct (char_digit c) as [d|] eqn:Ed; [|done]. apply (IH (acc * 10 + d)); [|done].
  unfold char_digit in Ed. repeat case_match; simplify_eq. lia.
Qed.

Lemma ParseUint_u64 s n : ParseUint s = Some n -> is_u64 n.
Proof.
  unfold ParseUint. destruct s as [|c s]; [done|]. destruct (parse_digits (String c s) 0) as [m|] eqn:E; [|done].
  destruct (Z.ltb_spec m (2 ^ 64)); [|done]. intros [= <-].
  apply parse_digits_nonneg in E; [|lia]. unfold is_u64. lia.
Qed.

End GoStr.
