(* ===== verification/Memtable.v ===== *)
(** The memtable (internal/memtable): a skip list with real forward pointers.

    The Go heap of nodes is the list [nodes]; a pointer is an index into it and
    index 0 is the sentinel [head].  [n_next] is the node's slice of forward
    pointers, so a node's height is the length of that slice.  The outcomes of
    [rng.Float64() < p] are the stream [rng], an input of the model.

    [wf] is the structural invariant (every level is the sub-sequence of the
    bottom level formed by the tall enough nodes, keys strictly ascending, length and
    size exact); the main theorems show that the operations keep it and refine a
    sorted association list. *)

From Stdlib Require Import ZArith Lia.
From S2P Require Import Prelude.

Module Mem.

Definition maxHeight : nat := 20.

Record node := Node {
  n_key : bytes;
  n_value : bytes;
  n_tombstone : bool;
  n_next : list (option nat)
}.

Record SkipList := mkSkipList {
  nodes : list node;
  height : nat;
  sl_length : Z;
  sl_size : Z;
  rng : list bool
}.

Definition head : nat := 0.

Definition NewSkipList (coins : list bool) : SkipList :=
  mkSkipList [Node [] [] false (replicate maxHeight None)] 1 0 0 coins.

(** [for sl.rng.Float64() < p && h < maxHeight { h++ }] *)
Fixpoint randomHeight_loop (coins : list bool) (h : nat) : nat * list bool :=
  match coins with
  | [] => (h, [])
  | c :: rest => if c && (h <? maxHeight)%nat then randomHeight_loop rest (S h) else (h, rest)
  end.

Definition randomHeight (coins : list bool) : nat * list bool := randomHeight_loop coins 1.

(** [less] and [equal], the loops over the common prefix. *)
Fixpoint less (a b : bytes) : bool :=
  match a, b with
  | x :: a', y :: b' =>
      if negb (byte_Z x =? byte_Z y) then byte_Z x <? byte_Z y else less a' b'
  | _, _ => zlen a <? zlen b
  end.

Fixpoint equal_loop (a b : bytes) : bool :=
  match a, b with
  | x :: a', y :: b' => if negb (byte_Z x =? byte_Z y) then false else equal_loop a' b'
  | _, _ => true
  end.

Definition equal (a b : bytes) : bool :=
  if negb (zlen a =? zlen b) then false else equal_loop a b.

(** [x.next[i]]; the invariant shows that the index is always in range. *)
Definition next_at (ns : list node) (x i : nat) : option nat :=
  match ns !! x with
  | Some nd => match n_next nd !! i with Some p => p | None => None end
  | None => None
  end.

(** [x.next[i] = p] *)
Definition set_next (ns : list node) (x i : nat) (p : option nat) : list node :=
  alter (fun nd => Node (n_key nd) (n_value nd) (n_tombstone nd) (<[i := p]> (n_next nd))) x ns.

Definition key_of (ns : list node) (x : nat) : bytes :=
  match ns !! x with Some nd => n_key nd | None => [] end.

(** [for x.next[i] != nil && less(x.next[i].key, key) { x = x.next[i] }] *)
Fixpoint walk (fuel : nat) (ns : list node) (i : nat) (key : bytes) (x : nat) : nat :=
  match fuel with
  | O => x
  | S fuel' =>
      match next_at ns x i with
      | Some y => if less (key_of ns y) key then walk fuel' ns i key y else x
      | None => x
      end
  end.

(** [for i := sl.height - 1; i >= 0; i--] with the recording of [update[i]]. *)
Fixpoint descend (ns : list node) (key : bytes) (i x : nat) (update : list (option nat))
  : nat * list (option nat) :=
  match i with
  | O => (x, update)
  | S i' =>
      let x' := walk (length ns) ns i' key x in
      descend ns key i' x' (<[i' := Some x']> update)
  end.

(** The same descent in [Get] and [Seek], which keep no [update]. *)
Fixpoint search (ns : list node) (key : bytes) (i x : nat) : nat :=
  match i with
  | O => x
  | S i' => search ns key i' (walk (length ns) ns i' key x)
  end.

(** [x = x.next[0]; x != nil && equal(x.key, key)] *)
Definition found_at (ns : list node) (x : nat) (key : bytes) : option (nat * node) :=
  match next_at ns x 0 with
  | Some y =>
      match ns !! y with
      | Some nd => if equal (n_key nd) key then Some (y, nd) else None
      | None => None
      end
  | None => None
  end.

(** [for i := sl.height; i < height; i++ { update[i] = sl.head }] *)
Fixpoint raise (update : list (option nat)) (i cnt : nat) : list (option nat) :=
  match cnt with
  | O => update
  | S cnt' => raise (<[i := Some head]> update) (S i) cnt'
  end.

(** [for i := 0; i < height; i++ { newNode.next[i] = update[i].next[i];
    update[i].next[i] = newNode }] *)
Fixpoint splice (ns : list node) (update : list (option nat)) (new i cnt : nat) : list node :=
  match cnt with
  | O => ns
  | S cnt' =>
      match update !! i with
      | Some (Some u) =>
          let ns1 := set_next ns new i (next_at ns u i) in
          let ns2 := set_next ns1 u i (Some new) in
          splice ns2 update new (S i) cnt'
      | _ => ns
      end
  end.

(** The insertion of a fresh node, common to [Put] and [Delete]. *)
Definition insert_node (sl : SkipList) (update : list (option nat)) (key value : bytes)
    (tomb : bool) (bytes_added : Z) : SkipList :=
  let '(h, rng') := randomHeight (rng sl) in
  let update' := if (height sl <? h)%nat then raise update (height sl) (h - height sl) else update in
  let height' := if (height sl <? h)%nat then h else height sl in
  let new := length (nodes sl) in
  let ns := nodes sl ++ [Node key value tomb (replicate h None)] in
  mkSkipList (splice ns update' new 0 h) height' (sl_length sl + 1) (sl_size sl + bytes_added) rng'.

Definition Put (sl : SkipList) (key value : bytes) : SkipList :=
  let '(x, update) := descend (nodes sl) key (height sl) head (replicate maxHeight None) in
  match found_at (nodes sl) x key with
  | Some (y, nd) =>
      let oldSize := zlen (n_key nd) + zlen (n_value nd) + 8 in
      mkSkipList (<[y := Node key value false (n_next nd)]> (nodes sl)) (height sl) (sl_length sl)
        (sl_size sl - oldSize + (zlen key + zlen value + 8)) (rng sl)
  | None => insert_node sl update key value false (zlen key + zlen value + 8)
  end.

Definition Delete (sl : SkipList) (key : bytes) : SkipList :=
  let '(x, update) := descend (nodes sl) key (height sl) head (replicate maxHeight None) in
  match found_at (nodes sl) x key with
  | Some (y, nd) =>
      if negb (n_tombstone nd)
      then mkSkipList (<[y := Node (n_key nd) [] true (n_next nd)]> (nodes sl)) (height sl)
             (sl_length sl) (sl_size sl - zlen (n_value nd)) (rng sl)
      else sl
  | None => insert_node sl update key [] true (zlen key + 8)
  end.

(** [Get] returns (value, found, isTombstone). *)
Definition Get (sl : SkipList) (key : bytes) : bytes * bool * bool :=
  let x := search (nodes sl) key (height sl) head in
  match found_at (nodes sl) x key with
  | Some (_, nd) => if n_tombstone nd then ([], true, true) else (n_value nd, true, false)
  | None => ([], false, false)
  end.

Definition Size (sl : SkipList) : Z := sl_size sl.
Definition Len (sl : SkipList) : Z := sl_length sl.

(** A [SnapshotEntry]: the value is copied only for a live node. *)
Definition SnapshotEntry (nd : node) : entry :=
  Entry (n_key nd) (if n_tombstone nd then [] else n_value nd) (n_tombstone nd).

(** [for x := sl.head.next[0]; x != nil; x = x.next[0]] *)
Fixpoint snapshot_loop (fuel : nat) (ns : list node) (x : option nat) : list entry :=
  match fuel, x with
  | S fuel', Some y =>
      match ns !! y with
      | Some nd => SnapshotEntry nd :: snapshot_loop fuel' ns (next_at ns y 0)
      | None => []
      end
  | _, _ => []
  end.

Definition Snapshot (sl : SkipList) : list entry :=
  snapshot_loop (length (nodes sl)) (nodes sl) (next_at (nodes sl) head 0).

(** ** [SkipListIterator] *)

Record SkipListIterator := mkIter { it_sl : option SkipList; it_node : option nat }.

Definition Iterator (sl : SkipList) : SkipListIterator :=
  mkIter (Some sl) (next_at (nodes sl) head 0).

Definition it_valid (it : SkipListIterator) : bool :=
  match it_node it with Some _ => true | None => false end.

Definition it_nodes (it : SkipListIterator) : list node :=
  match it_sl it with Some sl => nodes sl | None => [] end.

Definition it_next (it : SkipListIterator) : SkipListIterator :=
  match it_node it with
  | Some y => mkIter (it_sl it) (next_at (it_nodes it) y 0)
  | None => it
  end.

Definition it_seek (it : SkipListIterator) (key : bytes) : SkipListIterator :=
  match it_sl it with
  | None => mkIter None None
  | Some sl =>
      if zlen key =? 0 then mkIter (Some sl) (next_at (nodes sl) head 0)
      else mkIter (Some sl) (next_at (nodes sl) (search (nodes sl) key (height sl) head) 0)
  end.

Definition it_current (it : SkipListIterator) : option node :=
  match it_node it with Some y => it_nodes it !! y | None => None end.

Definition it_key (it : SkipListIterator) : bytes :=
  match it_current it with Some nd => n_key nd | None => [] end.

Definition it_value (it : SkipListIterator) : bytes :=
  match it_current it with
  | Some nd => if n_tombstone nd then [] else n_value nd
  | None => []
  end.

Definition it_is_tombstone (it : SkipListIterator) : bool :=
  match it_current it with Some nd => n_tombstone nd | None => false end.

(** [Close] releases the iterator's hold on the list. *)
Definition it_close (it : SkipListIterator) : SkipListIterator := mkIter None (it_node it).

(** The entries a fresh client reads with [Valid]/[Next] from here on. *)
Fixpoint it_drain (fuel : nat) (it : SkipListIterator) : list entry :=
  match fuel with
  | O => []
  | S fuel' =>
      if it_valid it
      then Entry (it_key it) (it_value it) (it_is_tombstone it) :: it_drain fuel' (it_next it)
      else []
  end.

(** * The reference: a sorted association list *)

Fixpoint put_entry (e : entry) (l : list entry) : list entry :=
  match l with
  | [] => [e]
  | x :: l' =>
      if bytes_ltb (Key e) (Key x) then e :: l
      else if bytes_eqb (Key e) (Key x) then e :: l'
      else x :: put_entry e l'
  end.

Definition entry_bytes (e : entry) : Z := zlen (Key e) + zlen (Value e) + 8.

(** * The invariant *)

Definition node_height (ns : list node) (x : nat) : nat :=
  match ns !! x with Some nd => length (n_next nd) | None => 0%nat end.

Fixpoint chain (ns : list node) (i x : nat) (l : list nat) : Prop :=
  match l with
  | [] => next_at ns x i = None
  | y :: l' => next_at ns x i = Some y /\ chain ns i y l'
  end.

(** The nodes of a list that reach level [i]. *)
Definition level (ns : list node) (i : nat) (l : list nat) : list nat :=
  filter (fun x => i < node_height ns x)%nat l.

Definition node_entry (ns : list node) (x : nat) : entry :=
  match ns !! x with Some nd => SnapshotEntry nd | None => Entry [] [] false end.

Definition node_bytes (ns : list node) (x : nat) : Z :=
  match ns !! x with Some nd => zlen (n_key nd) + zlen (n_value nd) + 8 | None => 0 end.

(** A deleted node keeps no value. *)
Definition tomb_ok (ns : list node) (x : nat) : Prop :=
  match ns !! x with Some nd => n_tombstone nd = true -> n_value nd = [] | None => True end.

Definition sum_Z (l : list Z) : Z := foldr Z.add 0 l.

Record wf_ids (sl : SkipList) (ids : list nat) : Prop := {
  wf_head : node_height (nodes sl) head = maxHeight;
  wf_nodup : NoDup (head :: ids);
  wf_tall : Forall (fun x => 1 <= node_height (nodes sl) x <= height sl)%nat ids;
  wf_sorted : StronglySorted blt (key_of (nodes sl) <$> ids);
  wf_height : (1 <= height sl <= maxHeight)%nat;
  wf_chain : forall i, (i < maxHeight)%nat -> chain (nodes sl) i head (level (nodes sl) i ids);
  wf_tomb : Forall (tomb_ok (nodes sl)) ids;
  wf_length : sl_length sl = zlen ids;
  wf_size : sl_size sl = sum_Z (node_bytes (nodes sl) <$> ids)
}.

Definition wf (sl : SkipList) : Prop := exists ids, wf_ids sl ids.

(** * Comparison loops *)

Lemma less_compare a b : less a b = bytes_ltb a b.
Proof.
  unfold bytes_ltb. revert b.
  induction a as [|x a IH]; intros [|y b]; simpl; try done.
  destruct (Z.compare_spec (byte_Z x) (byte_Z y)) as [E|E|E].
  - rewrite E, Z.eqb_refl. simpl. apply IH.
  - replace (byte_Z x =? byte_Z y) with false by lia. simpl. lia.
  - replace (byte_Z x =? byte_Z y) with false by lia. simpl. lia.
Qed.

Lemma equal_loop_compare a b : length a = length b -> equal_loop a b = bytes_eqb a b.
Proof.
  unfold bytes_eqb. revert b.
  induction a as [|x a IH]; intros [|y b] Hl; simpl in *; try done.
  destruct (Z.compare_spec (byte_Z x) (byte_Z y)) as [E|E|E].
  - rewrite E, Z.eqb_refl. simpl. apply IH. lia.
  - by replace (byte_Z x =? byte_Z y) with false by lia.
  - by replace (byte_Z x =? byte_Z y) with false by lia.
Qed.

Lemma equal_compare a b : equal a b = bytes_eqb a b.
Proof.
  unfold equal, zlen. destruct (Z.of_nat (length a) =? Z.of_nat (length b)) eqn:E; simpl.
  - apply equal_loop_compare. lia.
  - symmetry. apply bytes_eqb_false. intros ->. lia.
Qed.

(** * Pointer updates *)

Lemma set_next_height ns x i p y : node_height (set_next ns x i p) y = node_height ns y.
Proof.
  unfold node_height, set_next. rewrite list_lookup_alter.
  case_decide; [subst|done]. destruct (ns !! y); simpl; [by rewrite length_insert|done].
Qed.

(** What a node holds besides its pointers. *)
Definition payload (ns : list node) (x : nat) : option (bytes * bytes * bool) :=
  (fun nd => (n_key nd, n_value nd, n_tombstone nd)) <$> ns !! x.

Lemma payload_obs ns ns' x y : payload ns' y = payload ns x ->
  key_of ns' y = key_of ns x /\ node_entry ns' y = node_entry ns x /\
  node_bytes ns' y = node_bytes ns x /\ (tomb_ok ns' y <-> tomb_ok ns x).
Proof.
  unfold payload, key_of, node_entry, node_bytes, tomb_ok, SnapshotEntry.
  destruct (ns' !! y) as [[]|], (ns !! x) as [[]|]; simpl; naive_solver.
Qed.

Lemma set_next_payload ns x i p y : payload (set_next ns x i p) y = payload ns y.
Proof.
  unfold payload, set_next. rewrite list_lookup_alter.
  case_decide; [subst|done]. by destruct (ns !! y).
Qed.

Lemma set_next_length ns x i p : length (set_next ns x i p) = length ns.
Proof. unfold set_next. apply length_alter. Qed.

Lemma next_at_set_next ns x i p y j :
  (i < node_height ns x)%nat ->
  next_at (set_next ns x i p) y j = if decide (x = y /\ i = j) then p else next_at ns y j.
Proof.
  unfold node_height, next_at, set_next. intros Hi. rewrite list_lookup_alter.
  destruct (decide (y = x)) as [->|Hne].
  - rewrite decide_True by done. destruct (ns !! x) as [nd|] eqn:E; [|lia]. simpl.
    rewrite list_lookup_insert. repeat case_decide; naive_solver lia.
  - rewrite decide_False by done. rewrite decide_False by naive_solver. done.
Qed.

(** * Chains *)

Fixpoint lastd (x : nat) (l : list nat) : nat :=
  match l with [] => x | y :: l' => lastd y l' end.

Lemma lastd_app x l1 l2 : lastd x (l1 ++ l2) = lastd (lastd x l1) l2.
Proof. revert x. induction l1; simpl; auto. Qed.

Lemma lastd_elem x l : lastd x l = x \/ lastd x l ∈ l.
Proof.
  revert x. induction l as [|y l IH]; intros x; [by left|]. simpl. right.
  destruct (IH y) as [->|H]; set_solver.
Qed.

Lemma lastd_filter_split (P : nat -> Prop) `{!forall x, Decision (P x)} x l :
  exists l0 l1, l = l0 ++ l1 /\ lastd x l0 = lastd x (filter P l).
Proof.
  induction l as [|a l IH] using rev_ind; [by exists [], []|].
  destruct IH as (l0 & l1 & -> & E). rewrite filter_app, filter_cons, filter_nil.
  case_decide as HP.
  - exists ((l0 ++ l1) ++ [a]), []. rewrite app_nil_r. split; [done|].
    by rewrite !lastd_app.
  - exists l0, (l1 ++ [a]). rewrite app_nil_r. by rewrite <- app_assoc.
Qed.

Lemma chain_ext ns ns' i x l :
  (forall y, y ∈ x :: l -> next_at ns' y i = next_at ns y i) ->
  chain ns i x l -> chain ns' i x l.
Proof.
  revert x. induction l as [|y l IH]; simpl; intros x Hext.
  - intros H. rewrite Hext; [done|set_solver].
  - intros [H1 H2]. split; [rewrite Hext; [done|set_solver]|]. apply IH; set_solver.
Qed.

Lemma chain_app ns i x l1 l2 : chain ns i x (l1 ++ l2) -> chain ns i (lastd x l1) l2.
Proof.
  revert x. induction l1 as [|y l1 IH]; simpl; intros x; [done|]. intros [_ H]. by apply IH.
Qed.

(** Splicing [new] after the last node of [l1] on one level. *)
Lemma chain_splice ns ns' i x l1 l2 new :
  chain ns i x (l1 ++ l2) ->
  NoDup (x :: l1 ++ l2) -> new ∉ x :: l1 ++ l2 ->
  next_at ns' (lastd x l1) i = Some new ->
  next_at ns' new i = next_at ns (lastd x l1) i ->
  (forall y, y ∈ x :: l1 ++ l2 -> y <> lastd x l1 -> next_at ns' y i = next_at ns y i) ->
  chain ns' i x (l1 ++ new :: l2).
Proof.
  revert x. induction l1 as [|y l1 IH]; simpl; intros x Hc Hnd Hnew H1 H2 H3.
  - split; [done|]. destruct l2 as [|z l2]; simpl in *; [by rewrite H2|].
    destruct Hc as [Hx Hc]. split; [by rewrite H2|].
    eapply chain_ext; [|exact Hc]. intros y Hy. apply H3; [set_solver|].
    apply NoDup_cons in Hnd as [Hnd _]. intros ->. apply Hnd. set_solver.
  - destruct Hc as [Hx Hc]. apply NoDup_cons in Hnd as [Hnx Hnd]. split.
    + rewrite H3; [done|set_solver|]. intros E.
      destruct (lastd_elem y l1) as [E'|E']; apply Hnx; rewrite E; [rewrite E'|]; set_solver.
    + apply IH; try done; [set_solver|]. intros z Hz. apply H3. set_solver.
Qed.

(** * Descent *)

Lemma walk_spec fuel ns i key x l1 l2 :
  chain ns i x (l1 ++ l2) ->
  Forall (fun y => blt (key_of ns y) key) l1 ->
  (forall y, hd_error l2 = Some y -> ~ blt (key_of ns y) key) ->
  (length l1 <= fuel)%nat ->
  walk fuel ns i key x = lastd x l1.
Proof.
  revert x l1. induction fuel as [|fuel IH]; intros x l1 Hc Hlt Hge Hf.
  - destruct l1; simpl in *; [done|lia].
  - destruct l1 as [|y l1]; simpl in *.
    + destruct l2 as [|z l2]; simpl in *; [by rewrite Hc|].
      destruct Hc as [-> _]. rewrite less_compare.
      destruct (bytes_ltb _ _) eqn:E; [|done].
      apply bytes_ltb_spec in E. by destruct (Hge z).
    + destruct Hc as [-> Hc]. apply Forall_cons in Hlt as [Hy Hlt].
      rewrite less_compare. rewrite (proj2 (bytes_ltb_spec _ _) Hy).
      apply IH; try done. lia.
Qed.

Lemma level_app ns i l1 l2 : level ns i (l1 ++ l2) = level ns i l1 ++ level ns i l2.
Proof. apply filter_app. Qed.

Lemma level_S ns i l : level ns (S i) (level ns i l) = level ns (S i) l.
Proof.
  unfold level. rewrite list_filter_filter. apply list_filter_iff. intros x. simpl. lia.
Qed.

Lemma level_length ns i l : (length (level ns i l) <= length l)%nat.
Proof. unfold level. apply length_filter. Qed.

(** The bottom level as the nodes below a key and the nodes from it on. *)
Record cut (ns : list node) (key : bytes) (h : nat) (A B : list nat) : Prop := {
  cut_chain : forall i, (i < h)%nat -> chain ns i head (level ns i (A ++ B));
  cut_lt : Forall (fun y => blt (key_of ns y) key) A;
  cut_ge : Forall (fun y => ~ blt (key_of ns y) key) B;
  cut_short : (length A <= length ns)%nat
}.

Definition pred_at (ns : list node) (A : list nat) (i : nat) : nat := lastd head (level ns i A).

Lemma Forall_level ns i (P : nat -> Prop) l : Forall P l -> Forall P (level ns i l).
Proof.
  rewrite !Forall_forall. unfold level. intros H x Hx.
  apply list_elem_of_filter in Hx as [_ Hx]. by apply H.
Qed.

Lemma walk_level ns key h A B i x :
  cut ns key h A B -> (i < h)%nat ->
  x = head \/ x = pred_at ns A (S i) ->
  walk (length ns) ns i key x = pred_at ns A i.
Proof.
  intros [Hc Hlt Hge Hs] Hi Hx. specialize (Hc i Hi). rewrite level_app in Hc.
  assert (exists l0 l1, level ns i A = l0 ++ l1 /\ lastd head l0 = x) as (l0 & l1 & E & El).
  { destruct Hx as [->| ->]; [by exists [], (level ns i A)|].
    unfold pred_at. rewrite <- level_S. apply lastd_filter_split. }
  unfold pred_at. rewrite E in *. rewrite lastd_app, El.
  rewrite <- app_assoc in Hc. apply chain_app in Hc. rewrite El in Hc.
  assert (Hlt' := Forall_level ns i _ _ Hlt). rewrite E in Hlt'.
  apply Forall_app in Hlt' as [_ Hlt'].
  eapply walk_spec; [exact Hc|exact Hlt'| |].
  - intros y Hy. apply (Forall_level ns i) in Hge.
    destruct (level ns i B); [done|]. simplify_eq/=. by apply Forall_cons in Hge as [? _].
  - pose proof (level_length ns i A) as Hl. rewrite E, length_app in Hl. lia.
Qed.

Lemma search_pred ns key h A B i x :
  cut ns key h A B -> (i <= h)%nat ->
  x = head \/ x = pred_at ns A i ->
  (i = 0%nat -> x = pred_at ns A 0) ->
  search ns key i x = pred_at ns A 0.
Proof.
  intros Hcut. revert x. induction i as [|i IH]; intros x Hi Hx H0; [by apply H0|].
  simpl. rewrite (walk_level _ _ _ _ _ _ _ Hcut) by (done || lia).
  apply IH; [lia|by right|by intros ->].
Qed.

Lemma descend_search ns key i x update :
  fst (descend ns key i x update) = search ns key i x.
Proof. revert x update. induction i as [|i IH]; intros; simpl; [done|]. apply IH. Qed.

Lemma descend_length ns key i x update :
  length (snd (descend ns key i x update)) = length update.
Proof.
  revert x update. induction i as [|i IH]; intros; simpl; [done|]. by rewrite IH, length_insert.
Qed.

Lemma descend_update ns key h A B i x update j :
  cut ns key h A B -> (i <= h)%nat -> (h <= length update)%nat ->
  x = head \/ x = pred_at ns A i ->
  snd (descend ns key i x update) !! j =
    if decide (j < i)%nat then Some (Some (pred_at ns A j)) else update !! j.
Proof.
  intros Hcut. revert x update. induction i as [|i IH]; intros x update Hi Hl Hx; simpl; [done|].
  rewrite (walk_level _ _ _ _ _ _ _ Hcut) by (done || lia).
  rewrite IH; [|lia|by rewrite length_insert|by right].
  destruct (decide (j < i)%nat); [by rewrite decide_True by lia|].
  destruct (decide (j = i)) as [->|].
  - rewrite list_lookup_insert_eq by lia. by rewrite decide_True by lia.
  - rewrite list_lookup_insert_ne by lia. by rewrite decide_False by lia.
Qed.

(** * From the invariant to a cut *)

Lemma sorted_split (f : nat -> bytes) key l :
  StronglySorted blt (f <$> l) ->
  exists A B, l = A ++ B /\ Forall (fun y => blt (f y) key) A /\ Forall (fun y => ~ blt (f y) key) B.
Proof.
  induction l as [|x l IH]; simpl; intros Hs.
  - by exists [], [].
  - inversion Hs as [|? ? Hs' Hf]; subst. destruct (decide (blt (f x) key)) as [Hx|Hx].
    + destruct (IH Hs') as (A & B & -> & HA & HB). exists (x :: A), B. by repeat constructor.
    + exists [], (x :: l). split; [done|]. split; [constructor|]. constructor; [done|].
      rewrite Forall_fmap in Hf. eapply Forall_impl; [exact Hf|]. simpl. intros y Hxy Hy.
      apply Hx. by eapply blt_trans.
Qed.

Lemma node_height_lookup ns x : (0 < node_height ns x)%nat -> exists nd, ns !! x = Some nd.
Proof. unfold node_height. destruct (ns !! x); [eauto|lia]. Qed.

Lemma node_height_lt ns x : (0 < node_height ns x)%nat -> (x < length ns)%nat.
Proof. intros [nd H]%node_height_lookup. by eapply lookup_lt_Some. Qed.

Lemma nodup_bound n (l : list nat) : NoDup l -> Forall (fun x => x < n)%nat l -> (length l <= n)%nat.
Proof.
  intros Hn Hf. rewrite <- (length_seq n 0). apply submseteq_length, NoDup_submseteq; [done|].
  intros x Hx. rewrite Forall_forall in Hf. apply elem_of_seq. specialize (Hf x Hx). lia.
Qed.

Section with_wf.
Context (sl : SkipList) (ids : list nat) (Hwf : wf_ids sl ids).

Lemma wf_valid x : x ∈ head :: ids -> (x < length (nodes sl))%nat.
Proof.
  intros Hx. apply node_height_lt. apply elem_of_cons in Hx as [->|Hx].
  - rewrite (wf_head _ _ Hwf). unfold maxHeight. lia.
  - pose proof (wf_tall _ _ Hwf) as H. rewrite Forall_forall in H. specialize (H x Hx). lia.
Qed.

Lemma wf_ids_length : (length ids < length (nodes sl))%nat.
Proof.
  change (length (head :: ids) <= length (nodes sl))%nat. apply nodup_bound.
  - apply (wf_nodup _ _ Hwf).
  - apply Forall_forall. apply wf_valid.
Qed.

Lemma wf_level_0 l : Forall (fun x => 1 <= node_height (nodes sl) x)%nat l -> level (nodes sl) 0 l = l.
Proof.
  induction 1 as [|x l H1 H2 IH]; [done|]. unfold level in *. rewrite filter_cons_True by lia.
  by rewrite IH.
Qed.

Lemma wf_tall_1 : Forall (fun x => 1 <= node_height (nodes sl) x)%nat ids.
Proof. eapply Forall_impl; [apply (wf_tall _ _ Hwf)|]. simpl. lia. Qed.

Lemma wf_chain_0 : chain (nodes sl) 0 head ids.
Proof.
  pose proof (wf_chain _ _ Hwf 0%nat) as H. rewrite wf_level_0 in H by apply wf_tall_1.
  apply H. unfold maxHeight. lia.
Qed.

Lemma wf_cut key : exists A B, ids = A ++ B /\ cut (nodes sl) key maxHeight A B.
Proof.
  destruct (sorted_split _ key ids (wf_sorted _ _ Hwf)) as (A & B & E & HA & HB).
  exists A, B. split; [done|]. split; [|done|done|].
  - intros i Hi. rewrite <- E. by apply (wf_chain _ _ Hwf).
  - pose proof wf_ids_length as H. rewrite E, length_app in H. lia.
Qed.

Lemma level_above i l : Forall (fun x => node_height (nodes sl) x <= height sl)%nat l ->
  (height sl <= i)%nat -> level (nodes sl) i l = [].
Proof.
  intros H Hi. induction H as [|x l Hx Hl IH]; [done|]. unfold level in *.
  rewrite filter_cons_False by lia. done.
Qed.

Lemma wf_tall_A A B : ids = A ++ B -> Forall (fun x => node_height (nodes sl) x <= height sl)%nat A.
Proof.
  intros E. pose proof (wf_tall _ _ Hwf) as H. rewrite E in H. apply Forall_app in H as [H _].
  eapply Forall_impl; [exact H|]. simpl. lia.
Qed.

(** The descent ends at the last node below the key. *)
Lemma wf_search key A B :
  ids = A ++ B -> cut (nodes sl) key maxHeight A B ->
  search (nodes sl) key (height sl) head = lastd head A.
Proof.
  intros E Hcut. pose proof (wf_height _ _ Hwf) as Hh.
  rewrite (search_pred _ _ _ _ _ _ _ Hcut) by (done || lia || by left).
  unfold pred_at. rewrite wf_level_0; [done|].
  pose proof wf_tall_1 as H. rewrite E in H. by apply Forall_app in H as [H _].
Qed.

Lemma wf_next_pred A B : ids = A ++ B -> next_at (nodes sl) (lastd head A) 0 = hd_error B.
Proof.
  intros E. pose proof wf_chain_0 as H. rewrite E in H. apply chain_app in H.
  destruct B; simpl in *; [done|]. by destruct H.
Qed.

Lemma wf_found key A B :
  ids = A ++ B -> cut (nodes sl) key maxHeight A B ->
  found_at (nodes sl) (lastd head A) key =
    match B with
    | y :: _ => if bytes_eqb (key_of (nodes sl) y) key
                then (fun nd => (y, nd)) <$> nodes sl !! y else None
    | [] => None
    end.
Proof.
  intros E Hcut. unfold found_at. rewrite (wf_next_pred A B E).
  destruct B as [|y B]; simpl; [done|].
  unfold key_of. destruct (nodes sl !! y) eqn:Ey; simpl; [|by destruct (bytes_eqb _ _)].
  rewrite equal_compare. by destruct (bytes_eqb _ _).
Qed.

(** The descent of [Put] and [Delete] finds the same place and every predecessor. *)
Lemma wf_descend key A B :
  ids = A ++ B -> cut (nodes sl) key maxHeight A B ->
  exists update,
    descend (nodes sl) key (height sl) head (replicate maxHeight None) = (lastd head A, update) /\
    length update = maxHeight /\
    forall i, (i < height sl)%nat -> update !! i = Some (Some (pred_at (nodes sl) A i)).
Proof.
  intros E Hcut. pose proof (wf_height _ _ Hwf) as Hh.
  pose proof (descend_search (nodes sl) key (height sl) head (replicate maxHeight None)) as H1.
  rewrite (wf_search key A B E Hcut) in H1.
  pose proof (fun j => descend_update (nodes sl) key maxHeight A B (height sl) head
                (replicate maxHeight None) j Hcut (proj2 Hh)) as H2.
  rewrite length_replicate in H2.
  destruct (descend _ _ _ _ _) as [x update] eqn:D. cbn [fst snd] in *. subst x.
  exists update. split; [done|]. split.
  - pose proof (descend_length (nodes sl) key (height sl) head (replicate maxHeight None)) as H3.
    rewrite D in H3. exact H3.
  - intros i Hi. rewrite H2 by (done || by left). by rewrite decide_True.
Qed.

Lemma snapshot_loop_chain fuel x l :
  chain (nodes sl) 0 x l -> (length l <= fuel)%nat -> Forall (fun y => y < length (nodes sl))%nat l ->
  snapshot_loop fuel (nodes sl) (next_at (nodes sl) x 0) = node_entry (nodes sl) <$> l.
Proof.
  revert x fuel. induction l as [|y l IH]; simpl; intros x fuel Hc Hf Hv.
  - rewrite Hc. by destruct fuel.
  - destruct Hc as [-> Hc]. destruct fuel as [|fuel]; [lia|]. simpl.
    apply Forall_cons in Hv as [Hy Hv]. unfold node_entry at 1.
    destruct (nodes sl !! y) eqn:Ey; [|by apply lookup_ge_None in Ey; lia].
    f_equal. apply IH; [done|lia|done].
Qed.

Lemma wf_snapshot : Snapshot sl = node_entry (nodes sl) <$> ids.
Proof.
  unfold Snapshot. apply snapshot_loop_chain.
  - apply wf_chain_0.
  - pose proof wf_ids_length. lia.
  - apply Forall_forall. intros x Hx. apply wf_valid. set_solver.
Qed.

End with_wf.

Lemma key_node_entry ns x : Key (node_entry ns x) = key_of ns x.
Proof. unfold node_entry, key_of. by destruct (ns !! x). Qed.

Lemma keys_of_entries ns (l : list nat) : Key <$> (node_entry ns <$> l) = key_of ns <$> l.
Proof.
  rewrite <- list_fmap_compose. apply list_fmap_ext. intros i x _. simpl. apply key_node_entry.
Qed.

(** * The reference list *)

Lemma put_entry_below e l1 l2 :
  Forall (fun x => blt (Key x) (Key e)) l1 -> put_entry e (l1 ++ l2) = l1 ++ put_entry e l2.
Proof.
  induction 1 as [|x l1 Hx Hl IH]; [done|]. simpl. bytes_cases.
  - by apply blt_asym in Hx.
  - rewrite Heqb0 in Hx. by apply blt_irrefl in Hx.
  - by rewrite IH.
Qed.

Lemma put_entry_layer e l : layer_of (put_entry e l) = <[Key e := cell e]> (layer_of l).
Proof.
  induction l as [|x l IH]; [done|]. simpl. bytes_cases; rewrite !layer_of_cons; [done| |].
  - rewrite Heqb0. by rewrite insert_insert_eq.
  - rewrite IH. by rewrite insert_insert_ne.
Qed.

(** * Pointwise effect of the splice loop *)

Lemma splice_frame ns update new i cnt y :
  node_height (splice ns update new i cnt) y = node_height ns y /\
  payload (splice ns update new i cnt) y = payload ns y.
Proof.
  revert ns i. induction cnt as [|cnt IH]; intros ns i; simpl; [done|].
  destruct (update !! i) as [[u|]|]; [|done|done].
  destruct (IH (set_next (set_next ns new i (next_at ns u i)) u i (Some new)) (S i)) as (-> & ->).
  by rewrite !set_next_height, !set_next_payload.
Qed.

Lemma splice_next ns update new u i cnt y j :
  (forall k, (i <= k < i + cnt)%nat -> update !! k = Some (Some (u k)) /\ u k <> new /\
     (k < node_height ns (u k))%nat /\ (k < node_height ns new)%nat) ->
  next_at (splice ns update new i cnt) y j =
    if decide (i <= j < i + cnt)%nat
    then if decide (y = u j) then Some new
         else if decide (y = new) then next_at ns (u j) j else next_at ns y j
    else next_at ns y j.
Proof.
  revert ns i. induction cnt as [|cnt IH]; intros ns i Hu; simpl; [by rewrite decide_False by lia|].
  destruct (Hu i) as (-> & Hne & H1 & H2); [lia|].
  rewrite IH.
  2:{ intros k Hk. rewrite !set_next_height. apply Hu. lia. }
  assert (Hs : forall z k, next_at (set_next (set_next ns new i (next_at ns (u i) i)) (u i) i
      (Some new)) z k = if decide (u i = z /\ i = k) then Some new
      else if decide (new = z /\ i = k) then next_at ns (u i) i else next_at ns z k).
  { intros z k. by rewrite !next_at_set_next by (rewrite ?set_next_height; done). }
  rewrite !Hs. destruct (decide (j = i)) as [->|Hji].
  - rewrite (decide_False (P := (S i <= i < S i + cnt)%nat)) by lia.
    rewrite (decide_True (P := (i <= i < i + S cnt)%nat)) by lia.
    destruct (decide (y = u i)) as [->|]; [by rewrite decide_True|].
    rewrite decide_False by naive_solver.
    destruct (decide (y = new)) as [->|]; [by rewrite decide_True|by rewrite decide_False by naive_solver].
  - rewrite !(decide_False (P := _ /\ i = j)) by naive_solver.
    destruct (decide (i <= j < i + S cnt)%nat).
    + by rewrite decide_True by lia.
    + by rewrite decide_False by lia.
Qed.

(** * Inserting a fresh node *)

Lemma randomHeight_loop_range coins h :
  (1 <= h <= maxHeight)%nat -> (h <= fst (randomHeight_loop coins h) <= maxHeight)%nat.
Proof.
  revert h. induction coins as [|c coins IH]; intros h Hh; simpl; [lia|].
  destruct (c && (h <? maxHeight)%nat) eqn:E; simpl; [|lia].
  apply andb_true_iff in E as [_ E%Nat.ltb_lt]. specialize (IH (S h)). lia.
Qed.

Lemma randomHeight_range coins : (1 <= fst (randomHeight coins) <= maxHeight)%nat.
Proof. apply randomHeight_loop_range. unfold maxHeight. lia. Qed.

Lemma raise_length update i cnt : length (raise update i cnt) = length update.
Proof. revert update i. induction cnt; intros; simpl; [done|]. by rewrite IHcnt, length_insert. Qed.

Lemma raise_lookup update i cnt j :
  (i + cnt <= length update)%nat ->
  raise update i cnt !! j = if decide (i <= j < i + cnt)%nat then Some (Some head) else update !! j.
Proof.
  revert update i. induction cnt as [|cnt IH]; intros update i Hl; simpl;
    [by rewrite decide_False by lia|].
  rewrite IH by (rewrite length_insert; lia).
  destruct (decide (j = i)) as [->|].
  - rewrite list_lookup_insert_eq by lia. by repeat case_decide; try lia.
  - rewrite list_lookup_insert_ne by lia. by repeat case_decide; try lia.
Qed.

Lemma sum_Z_app l1 l2 : sum_Z (l1 ++ l2) = sum_Z l1 + sum_Z l2.
Proof. unfold sum_Z. induction l1; simpl; lia. Qed.

Lemma lookup_snoc_old (ns : list node) nd x :
  (x < length ns)%nat -> (ns ++ [nd]) !! x = ns !! x.
Proof. intros H. by rewrite lookup_app_l. Qed.

(** The observations of an old node do not see an allocation. *)
Lemma alloc_frame (ns : list node) nd x : (x < length ns)%nat ->
  (forall i, next_at (ns ++ [nd]) x i = next_at ns x i) /\
  node_height (ns ++ [nd]) x = node_height ns x /\ payload (ns ++ [nd]) x = payload ns x.
Proof.
  intros H. unfold next_at, node_height, payload. by rewrite lookup_snoc_old.
Qed.

Section insert.
Context (sl : SkipList) (ids A B : list nat) (key value : bytes) (tomb : bool).
Context (Hwf : wf_ids sl ids) (E : ids = A ++ B) (Hcut : cut (nodes sl) key maxHeight A B).
Context (update : list (option nat)) (Hul : length update = maxHeight).
Context (Hup : forall i, (i < height sl)%nat ->
                 update !! i = Some (Some (pred_at (nodes sl) A i))).
Context (Hfresh : Forall (fun y => key_of (nodes sl) y <> key) B).
Context (Htomb : tomb = true -> value = []).

Local Abbreviation ns := (nodes sl).
Local Abbreviation new := (length (nodes sl)).
Local Abbreviation added := (zlen key + zlen value + 8).
Local Abbreviation h := (fst (randomHeight (rng sl))).
Local Abbreviation sl' := (insert_node sl update key value tomb added).

Let update' := if (height sl <? h)%nat then raise update (height sl) (h - height sl) else update.
Let ns0 := ns ++ [Node key value tomb (replicate h None)].

Lemma insert_nodes : nodes sl' = splice ns0 update' new 0 h.
Proof.
  unfold insert_node, ns0, update'. by destruct (randomHeight (rng sl)) as [h' r'] eqn:R.
Qed.

Lemma insert_height : height sl' = (height sl `max` h)%nat.
Proof.
  clear Hul. unfold insert_node. destruct (randomHeight (rng sl)) as [h' r'] eqn:R. simpl.
  destruct (height sl <? h')%nat eqn:F; [apply Nat.ltb_lt in F|apply Nat.ltb_ge in F]; lia.
Qed.

Lemma insert_update i : (i < h)%nat -> update' !! i = Some (Some (pred_at ns A i)).
Proof.
  intros Hi. pose proof (randomHeight_range (rng sl)) as Hr.
  pose proof (wf_height _ _ Hwf) as Hh.
  assert (Habove : (height sl <= i)%nat -> pred_at ns A i = head).
  { intros Hge. unfold pred_at. rewrite level_above; [done| |done].
    by eapply (wf_tall_A sl ids). }
  unfold update'. destruct (height sl <? h)%nat eqn:F.
  - apply Nat.ltb_lt in F. rewrite raise_lookup by lia. case_decide.
    + by rewrite Habove by lia.
    + apply Hup. lia.
  - apply Nat.ltb_ge in F. apply Hup. lia.
Qed.

Lemma in_A x : x ∈ A -> x ∈ head :: ids.
Proof. rewrite E. intros H. right. apply elem_of_app. by left. Qed.

Lemma in_B x : x ∈ B -> x ∈ head :: ids.
Proof. rewrite E. intros H. right. apply elem_of_app. by right. Qed.

Lemma in_new x : x ∈ head :: ids -> x ∈ new :: head :: ids.
Proof. by right. Qed.

Lemma pred_at_cases i : pred_at ns A i = head \/ pred_at ns A i ∈ level ns i A.
Proof. apply lastd_elem. Qed.

Lemma pred_at_valid i : (i < maxHeight)%nat ->
  pred_at ns A i ∈ head :: ids /\ (i < node_height ns (pred_at ns A i))%nat.
Proof.
  intros Hi. destruct (pred_at_cases i) as [->|H].
  - split; [by left|]. by rewrite (wf_head _ _ Hwf).
  - apply list_elem_of_filter in H as [H1 H2]. split; [by apply in_A|done].
Qed.

Lemma old_not_new x : x ∈ head :: ids -> x <> new.
Proof. intros H. pose proof (wf_valid sl ids Hwf x H). lia. Qed.

Lemma insert_next y j : y ∈ new :: head :: ids ->
  next_at (nodes sl') y j =
    if decide (j < h)%nat
    then if decide (y = pred_at ns A j) then Some new
         else if decide (y = new) then next_at ns (pred_at ns A j) j else next_at ns y j
    else if decide (y = new) then None else next_at ns y j.
Proof.
  intros Hy. rewrite insert_nodes. pose proof (randomHeight_range (rng sl)) as Hr.
  assert (Hnew : node_height ns0 new = h).
  { unfold node_height, ns0. rewrite lookup_app_r, Nat.sub_diag by lia. simpl.
    apply length_replicate. }
  rewrite (splice_next _ _ _ (pred_at ns A)).
  2:{ intros k Hk. destruct (pred_at_valid k) as [H1 H2]; [lia|].
      repeat split; [apply insert_update; lia|by apply old_not_new| |lia].
      unfold ns0. destruct (alloc_frame ns (Node key value tomb (replicate h None))
        (pred_at ns A k)) as (_ & -> & _); [by eapply wf_valid|done]. }
  assert (Hold : forall x i, x ∈ head :: ids -> next_at ns0 x i = next_at ns x i).
  { intros x i Hx. unfold ns0.
    destruct (alloc_frame ns (Node key value tomb (replicate h None)) x) as (H & _);
      [by eapply wf_valid|]. apply H. }
  destruct (decide (j < h)%nat) as [Hj|Hj].
  - rewrite decide_True by lia. destruct (pred_at_valid j) as [H1 _]; [lia|].
    apply elem_of_cons in Hy. repeat case_decide; subst; try done; [by apply Hold|].
    apply Hold. naive_solver.
  - rewrite decide_False by lia. apply elem_of_cons in Hy.
    case_decide; [subst|apply Hold; naive_solver].
    unfold next_at, ns0. rewrite lookup_app_r, Nat.sub_diag by lia. simpl.
    destruct (_ !! j) as [o|] eqn:F; [|done]. apply lookup_replicate in F. by destruct F.
Qed.

Lemma insert_frame x : x ∈ head :: ids ->
  node_height (nodes sl') x = node_height ns x /\ key_of (nodes sl') x = key_of ns x /\
  node_entry (nodes sl') x = node_entry ns x /\ node_bytes (nodes sl') x = node_bytes ns x /\
  (tomb_ok (nodes sl') x <-> tomb_ok ns x).
Proof.
  intros Hx. rewrite insert_nodes. destruct (splice_frame ns0 update' new 0 h x) as (-> & H).
  destruct (alloc_frame ns (Node key value tomb (replicate h None)) x)
    as (_ & H1 & H2); [by eapply wf_valid|]. split; [done|].
  apply payload_obs. by rewrite H.
Qed.

Lemma insert_new :
  node_height (nodes sl') new = h /\ key_of (nodes sl') new = key /\
  node_entry (nodes sl') new = Entry key (if tomb then [] else value) tomb /\
  node_bytes (nodes sl') new = added /\ tomb_ok (nodes sl') new.
Proof.
  rewrite insert_nodes. destruct (splice_frame ns0 update' new 0 h new) as (-> & H).
  apply payload_obs in H as (-> & -> & -> & ->).
  unfold ns0, node_height, key_of, node_entry, node_bytes, tomb_ok, SnapshotEntry.
  rewrite lookup_app_r, Nat.sub_diag by lia. simpl. by rewrite length_replicate.
Qed.

Lemma level_frame i l : (forall x, x ∈ l -> x ∈ head :: ids) ->
  level (nodes sl') i l = level ns i l.
Proof.
  intros Hl. unfold level. induction l as [|x l IH]; [done|].
  rewrite !filter_cons. destruct (insert_frame x) as (-> & _); [apply Hl; by left|].
  rewrite IH; [done|]. intros y Hy. apply Hl. by right.
Qed.

Lemma insert_chain i : (i < maxHeight)%nat ->
  chain (nodes sl') i head (level (nodes sl') i (A ++ new :: B)).
Proof.
  intros Hi. pose proof (wf_chain _ _ Hwf i Hi) as Hc. rewrite E, level_app in Hc.
  rewrite level_app. change (new :: B) with ([new] ++ B). rewrite level_app.
  rewrite (level_frame i A), (level_frame i B) by (apply in_A || apply in_B).
  destruct insert_new as (Hh & _). unfold level at 2. rewrite filter_cons, filter_nil, Hh.
  assert (Hsub : forall y, y ∈ head :: level ns i A ++ level ns i B -> y ∈ head :: ids).
  { intros y Hy. rewrite E. unfold level in Hy. rewrite <- filter_app in Hy.
    apply elem_of_cons in Hy as [->|Hy]; [by left|].
    apply list_elem_of_filter in Hy as [_ Hy]. by right. }
  case_decide as Hlt.
  - eapply (chain_splice ns); [exact Hc| | | | |].
    + pose proof (wf_nodup _ _ Hwf) as Hn. apply NoDup_cons in Hn as [Hn1 Hn2].
      apply NoDup_cons. split.
      * intros H. apply Hn1. rewrite E. unfold level in H. rewrite <- filter_app in H.
        by apply list_elem_of_filter in H as [_ H].
      * unfold level. rewrite <- filter_app, <- E. by apply NoDup_filter.
    + intros H%Hsub. by apply old_not_new in H.
    + fold (pred_at ns A i). rewrite insert_next.
      * by rewrite decide_True, decide_True.
      * apply in_new. by destruct (pred_at_valid i Hi).
    + fold (pred_at ns A i). rewrite insert_next by by left.
      rewrite decide_True by done. rewrite decide_False, decide_True; [done|done|].
      destruct (pred_at_valid i Hi) as [H _]. intros F. by apply old_not_new in H.
    + intros y Hy1%Hsub Hy2. rewrite insert_next by by apply in_new.
      rewrite decide_True by done. rewrite !decide_False; [done| |done]. by apply old_not_new.
  - simpl. eapply chain_ext; [|exact Hc]. intros y Hy%Hsub.
    rewrite insert_next by by apply in_new. rewrite decide_False by done.
    rewrite decide_False; [done|]. by apply old_not_new.
Qed.

Lemma map_frame {T} (f g : nat -> T) (l : list nat) :
  (forall x, x ∈ head :: ids -> f x = g x) -> (forall x, x ∈ l -> x ∈ head :: ids) ->
  f <$> l = g <$> l.
Proof.
  intros Hfg Hl. apply list_fmap_ext. intros i x Hx. apply Hfg, Hl.
  by eapply list_elem_of_lookup_2.
Qed.

Lemma fresh_above : Forall (fun y => blt key (key_of ns y)) B.
Proof.
  rewrite Forall_forall in *. intros y Hy. pose proof (cut_ge _ _ _ _ _ Hcut) as Hge.
  rewrite Forall_forall in Hge. specialize (Hge y Hy). specialize (Hfresh y Hy).
  destruct (blt_trichotomy key (key_of ns y)) as [H|[H|H]]; [done| |done]. by symmetry in H.
Qed.

Lemma insert_keys_sorted : StronglySorted blt (key_of (nodes sl') <$> A ++ new :: B).
Proof.
  pose proof (wf_sorted _ _ Hwf) as Hs. rewrite E, fmap_app in Hs.
  rewrite fmap_app, fmap_cons. destruct insert_new as (_ & -> & _).
  rewrite (map_frame _ (key_of ns) A), (map_frame _ (key_of ns) B)
    by (apply in_A || apply in_B || by intros ? ?%insert_frame; tauto).
  apply StronglySorted_app in Hs as (H1 & H2 & H3). apply StronglySorted_app.
  pose proof (cut_lt _ _ _ _ _ Hcut) as Hlt. pose proof fresh_above as Hgt.
  split; [|split; [done|]].
  - intros k1 k2 Hk1 [->|Hk2]%elem_of_cons; [|by apply H1].
    apply list_elem_of_fmap in Hk1 as (x & -> & Hx). rewrite Forall_forall in Hlt. by apply Hlt.
  - constructor; [done|]. by rewrite Forall_fmap.
Qed.

Lemma insert_entries :
  node_entry (nodes sl') <$> A ++ new :: B =
  put_entry (Entry key (if tomb then [] else value) tomb) (node_entry ns <$> ids).
Proof.
  rewrite E, !fmap_app, fmap_cons. destruct insert_new as (_ & _ & -> & _).
  rewrite (map_frame _ (node_entry ns) A), (map_frame _ (node_entry ns) B)
    by (apply in_A || apply in_B || by intros ? ?%insert_frame; tauto).
  rewrite put_entry_below.
  - f_equal. pose proof fresh_above as Hgt. destruct B as [|y B']; [done|]. simpl.
    apply Forall_cons in Hgt as [Hy _]. rewrite key_node_entry.
    by rewrite (proj2 (bytes_ltb_spec _ _) Hy).
  - rewrite Forall_fmap. eapply Forall_impl; [apply (cut_lt _ _ _ _ _ Hcut)|].
    intros x Hx. simpl. by rewrite key_node_entry.
Qed.

(** A property of nodes that old nodes keep and the new one has. *)
Lemma insert_Forall (P Q : nat -> Prop) :
  Forall P ids -> (forall x, x ∈ ids -> P x -> Q x) -> Q new -> Forall Q (A ++ new :: B).
Proof.
  rewrite !Forall_forall. intros HP HPQ Hnew x Hx.
  destruct (decide (x ∈ ids)) as [Hin|Hout]; [by apply HPQ, HP|].
  rewrite E in Hout. apply elem_of_app in Hx as [Hx|[->|Hx]%elem_of_cons]; [|done|].
  - destruct Hout. apply elem_of_app. by left.
  - destruct Hout. apply elem_of_app. by right.
Qed.

Lemma insert_nodup : NoDup (head :: A ++ new :: B).
Proof.
  pose proof (wf_nodup _ _ Hwf) as Hn. rewrite <- (Permutation_middle A B new), <- E.
  assert (Hne : new ∉ head :: ids) by (intros H; by apply old_not_new in H).
  apply NoDup_cons in Hn as [Hn1 Hn2].
  apply NoDup_cons. split; [|apply NoDup_cons; split; [|done]].
  - intros [H1|H1]%elem_of_cons; [|done]. apply Hne. rewrite <- H1. by left.
  - intros H1. apply Hne. by right.
Qed.

Lemma insert_size : sl_size sl' = sum_Z (node_bytes (nodes sl') <$> A ++ new :: B).
Proof.
  pose proof (wf_size _ _ Hwf) as Hsz. rewrite E, fmap_app, sum_Z_app in Hsz.
  destruct insert_new as (_ & _ & _ & Hnb & _).
  rewrite fmap_app, fmap_cons, sum_Z_app, Hnb.
  rewrite (map_frame (node_bytes (nodes sl')) (node_bytes ns) A),
    (map_frame (node_bytes (nodes sl')) (node_bytes ns) B)
    by (apply in_A || apply in_B || by intros ? ?%insert_frame; tauto).
  unfold insert_node. destruct (randomHeight (rng sl)). simpl. lia.
Qed.

Lemma insert_wf : wf_ids sl' (A ++ new :: B).
Proof.
  pose proof (randomHeight_range (rng sl)) as Hr. pose proof (wf_height _ _ Hwf) as Hh.
  destruct insert_new as (Hnh & _ & _ & _ & Hnt).
  split.
  - destruct (insert_frame head) as (-> & _); [by left|]. by apply (wf_head _ _ Hwf).
  - apply insert_nodup.
  - rewrite insert_height. eapply insert_Forall; [apply (wf_tall _ _ Hwf)| |rewrite Hnh; lia].
    intros x Hx H. simpl in *. destruct (insert_frame x) as (-> & _); [by right|lia].
  - apply insert_keys_sorted.
  - rewrite insert_height. lia.
  - apply insert_chain.
  - eapply insert_Forall; [apply (wf_tomb _ _ Hwf)| |done].
    intros x Hx H. by apply insert_frame; [right|].
  - pose proof (wf_length _ _ Hwf) as Hl. rewrite E in Hl. unfold zlen in *.
    unfold insert_node. destruct (randomHeight (rng sl)). simpl.
    rewrite length_app in *. simpl. lia.
  - apply insert_size.
Qed.

End insert.

(** * Updating a node in place *)

Section update.
Context (sl : SkipList) (ids A B : list nat) (y : nat) (nd : node) (value : bytes) (tomb : bool).
Context (Hwf : wf_ids sl ids) (E : ids = A ++ y :: B) (Hnd : nodes sl !! y = Some nd).
Context (Htomb : tomb = true -> value = []).

Local Abbreviation ns := (nodes sl).
Let ns' := <[y := Node (n_key nd) value tomb (n_next nd)]> (nodes sl).

Lemma update_frame x :
  (forall i, next_at ns' x i = next_at ns x i) /\ node_height ns' x = node_height ns x /\
  key_of ns' x = key_of ns x.
Proof.
  assert (y < length ns)%nat by by eapply lookup_lt_Some.
  unfold next_at, node_height, key_of, ns'. destruct (decide (x = y)) as [->|].
  - by rewrite list_lookup_insert_eq, Hnd.
  - by rewrite list_lookup_insert_ne.
Qed.

Lemma update_other x : x <> y ->
  node_entry ns' x = node_entry ns x /\ node_bytes ns' x = node_bytes ns x /\
  (tomb_ok ns' x <-> tomb_ok ns x).
Proof.
  intros Hx. unfold node_entry, node_bytes, tomb_ok, ns'. by rewrite list_lookup_insert_ne.
Qed.

Lemma update_here :
  node_entry ns' y = Entry (n_key nd) (if tomb then [] else value) tomb /\
  node_bytes ns' y = zlen (n_key nd) + zlen value + 8 /\ tomb_ok ns' y.
Proof.
  assert (y < length ns)%nat by by eapply lookup_lt_Some.
  unfold node_entry, node_bytes, tomb_ok, SnapshotEntry, ns'. by rewrite list_lookup_insert_eq.
Qed.

Lemma update_parts : y ∉ A /\ y ∉ B.
Proof.
  pose proof (wf_nodup _ _ Hwf) as Hn. rewrite E in Hn. apply NoDup_cons in Hn as [_ Hn].
  rewrite <- (Permutation_middle A B y) in Hn. apply NoDup_cons in Hn as [Hn _].
  split; intros H; apply Hn; apply elem_of_app; [by left|by right].
Qed.

Lemma map_update {T} (f g : nat -> T) (l : list nat) :
  (forall x, x <> y -> f x = g x) -> y ∉ l -> f <$> l = g <$> l.
Proof.
  intros Hfg Hl. apply list_fmap_ext. intros i x Hx. apply Hfg. intros ->.
  apply Hl. by eapply list_elem_of_lookup_2.
Qed.

Lemma update_level i l : level ns' i l = level ns i l.
Proof.
  unfold level. apply list_filter_iff. intros x. by destruct (update_frame x) as (_ & -> & _).
Qed.

Lemma update_wf len sz r :
  len = sl_length sl -> sz = sl_size sl - node_bytes ns y + (zlen (n_key nd) + zlen value + 8) ->
  wf_ids (mkSkipList ns' (height sl) len sz r) ids.
Proof.
  intros -> ->. destruct update_parts as [HA HB]. destruct update_here as (_ & Hb & Ht).
  split; simpl.
  - destruct (update_frame head) as (_ & -> & _). apply (wf_head _ _ Hwf).
  - apply (wf_nodup _ _ Hwf).
  - eapply Forall_impl; [apply (wf_tall _ _ Hwf)|]. intros x Hx. simpl in *.
    destruct (update_frame x) as (_ & -> & _). lia.
  - rewrite (list_fmap_ext _ (key_of ns)); [apply (wf_sorted _ _ Hwf)|].
    intros i x _. apply update_frame.
  - apply (wf_height _ _ Hwf).
  - intros i Hi. rewrite update_level. eapply chain_ext; [|by apply (wf_chain _ _ Hwf)].
    intros x _. apply update_frame.
  - apply Forall_forall. intros x Hx. destruct (decide (x = y)) as [->|Hne]; [done|].
    apply update_other; [done|]. pose proof (wf_tomb _ _ Hwf) as H.
    rewrite Forall_forall in H. by apply H.
  - apply (wf_length _ _ Hwf).
  - rewrite (wf_size _ _ Hwf), E, !fmap_app, !fmap_cons, !sum_Z_app.
    rewrite (map_update (node_bytes ns') (node_bytes ns) A),
      (map_update (node_bytes ns') (node_bytes ns) B)
      by (done || intros; by apply update_other).
    simpl. rewrite Hb. unfold node_bytes. lia.
Qed.

Lemma update_entries :
  Forall (fun x => blt (key_of ns x) (n_key nd)) A ->
  node_entry ns' <$> ids =
  put_entry (Entry (n_key nd) (if tomb then [] else value) tomb) (node_entry ns <$> ids).
Proof.
  intros HA. destruct update_parts as [HyA HyB]. destruct update_here as (He & _).
  rewrite E, !fmap_app, !fmap_cons, He.
  rewrite (map_update (node_entry ns') (node_entry ns) A),
    (map_update (node_entry ns') (node_entry ns) B)
    by (done || intros; by apply update_other).
  rewrite put_entry_below.
  - f_equal. simpl. rewrite key_node_entry. unfold key_of. rewrite Hnd.
    rewrite (proj2 (bytes_ltb_false _ _) (blt_irrefl _)).
    by rewrite (proj2 (bytes_eqb_spec _ _) eq_refl).
  - rewrite Forall_fmap. eapply Forall_impl; [exact HA|]. intros x Hx. simpl.
    by rewrite key_node_entry.
Qed.

End update.

(** * Refinement of the sorted association list *)

(** Where a key goes: either the node that holds it, or the gap for a new one. *)
Inductive place (sl : SkipList) (ids : list nat) (key : bytes) : Prop :=
| Place_hit A B y nd
    (Hids : ids = A ++ y :: B) (Hcut : cut (nodes sl) key maxHeight A (y :: B))
    (Hnode : nodes sl !! y = Some nd) (Hkey : n_key nd = key)
    (Hfound : found_at (nodes sl) (lastd head A) key = Some (y, nd))
| Place_gap A B
    (Hids : ids = A ++ B) (Hcut : cut (nodes sl) key maxHeight A B)
    (Hfresh : Forall (fun y => key_of (nodes sl) y <> key) B)
    (Hfound : found_at (nodes sl) (lastd head A) key = None).

Lemma wf_place sl ids key : wf_ids sl ids -> place sl ids key.
Proof.
  intros Hwf. destruct (wf_cut sl ids Hwf key) as (A & B & E & Hcut).
  pose proof (wf_found sl ids Hwf key A B E Hcut) as Hf.
  destruct B as [|y B]; [by eapply Place_gap; [exact E|exact Hcut|constructor|exact Hf]|].
  assert (Hy : (y < length (nodes sl))%nat)
    by (apply (wf_valid sl ids Hwf); rewrite E; right; apply elem_of_app; right; by left).
  apply lookup_lt_is_Some in Hy as [nd Hnd]. rewrite Hnd in Hf.
  destruct (bytes_eqb _ _) eqn:Eq; bytes_cases.
  - eapply Place_hit; [exact E|exact Hcut|exact Hnd| |exact Hf].
    unfold key_of in Eq. by rewrite Hnd in Eq.
  - eapply Place_gap; [exact E|exact Hcut| |exact Hf]. constructor; [done|].
    pose proof (wf_sorted _ _ Hwf) as Hs. rewrite E, fmap_app in Hs.
    apply StronglySorted_app_1_r in Hs. rewrite fmap_cons in Hs. inversion Hs as [|? ? _ Hf']; subst.
    rewrite Forall_fmap in Hf'. eapply Forall_impl; [exact Hf'|]. simpl.
    intros z Hz Hzk. pose proof (cut_ge _ _ _ _ _ Hcut) as Hge.
    apply Forall_cons in Hge as [Hge _]. apply Hge. by rewrite <- Hzk.
Qed.

Theorem NewSkipList_wf coins : wf (NewSkipList coins) /\ Snapshot (NewSkipList coins) = [].
Proof.
  split; [|done]. exists []. split; try done; try (repeat constructor; done || (unfold maxHeight; simpl; lia)).
  - repeat constructor. by intros ?%elem_of_nil.
  - intros i Hi. unfold level. cbn [filter list_filter chain]. unfold next_at, NewSkipList.
    cbn [nodes lookup list_lookup n_next head]. by rewrite lookup_replicate_2.
Qed.

Lemma Put_spec sl ids key value : wf_ids sl ids ->
  exists ids', wf_ids (Put sl key value) ids' /\
    node_entry (nodes (Put sl key value)) <$> ids' =
    put_entry (Entry key value false) (node_entry (nodes sl) <$> ids).
Proof.
  intros Hwf. unfold Put. destruct (wf_place sl ids key Hwf).
  - destruct (wf_descend sl ids Hwf key A (y :: B) Hids Hcut) as (u & -> & _). rewrite Hfound.
    exists ids. subst key. split.
    + apply (update_wf sl ids A B y nd value false Hwf Hids Hnode); [done|done|].
      unfold node_bytes. rewrite Hnode. lia.
    + apply (update_entries sl ids A B y nd value false Hwf Hids Hnode); [done|].
      apply (cut_lt _ _ _ _ _ Hcut).
  - destruct (wf_descend sl ids Hwf key A B Hids Hcut) as (u & -> & Hul & Hup). rewrite Hfound.
    exists (A ++ length (nodes sl) :: B). split.
    + by apply (insert_wf sl ids A B key value false).
    + by apply (insert_entries sl ids A B key value false).
Qed.

Lemma Delete_spec sl ids key : wf_ids sl ids ->
  exists ids', wf_ids (Delete sl key) ids' /\
    node_entry (nodes (Delete sl key)) <$> ids' =
    put_entry (Entry key [] true) (node_entry (nodes sl) <$> ids).
Proof.
  intros Hwf. unfold Delete. destruct (wf_place sl ids key Hwf).
  - destruct (wf_descend sl ids Hwf key A (y :: B) Hids Hcut) as (u & -> & _). rewrite Hfound.
    exists ids. subst key. destruct (n_tombstone nd) eqn:Ht; simpl; split.
    + exact Hwf.
    + assert (Hns : <[y := Node (n_key nd) [] true (n_next nd)]> (nodes sl) = nodes sl).
      { apply list_insert_id. rewrite Hnode. destruct nd. simpl in *. subst.
        pose proof (wf_tomb _ _ Hwf) as Hw. rewrite Forall_forall in Hw.
        specialize (Hw y). unfold tomb_ok in Hw. rewrite Hnode in Hw. simpl in Hw.
        rewrite Hw; [done| |done]. apply elem_of_app. right. by left. }
      rewrite <- Hns at 1.
      apply (update_entries sl ids A B y nd [] true Hwf Hids Hnode); [done|].
      apply (cut_lt _ _ _ _ _ Hcut).
    + apply (update_wf sl ids A B y nd [] true Hwf Hids Hnode); [done|done|].
      unfold node_bytes. rewrite Hnode. change (zlen (@nil byte)) with 0. lia.
    + apply (update_entries sl ids A B y nd [] true Hwf Hids Hnode); [done|].
      apply (cut_lt _ _ _ _ _ Hcut).
  - destruct (wf_descend sl ids Hwf key A B Hids Hcut) as (u & -> & Hul & Hup). rewrite Hfound.
    exists (A ++ length (nodes sl) :: B).
    replace (zlen key + 8) with (zlen key + zlen (@nil byte) + 8)
      by (change (zlen (@nil byte)) with 0; lia).
    split.
    + by apply (insert_wf sl ids A B key [] true).
    + by apply (insert_entries sl ids A B key [] true).
Qed.

(** [Put] keeps the structure well formed and changes the sorted contents exactly
    as an insertion into the reference list does. *)
Theorem Put_refines sl key value :
  wf sl -> wf (Put sl key value) /\
           Snapshot (Put sl key value) = put_entry (Entry key value false) (Snapshot sl).
Proof.
  intros [ids Hwf]. destruct (Put_spec sl ids key value Hwf) as (ids' & Hwf' & He).
  split; [by exists ids'|].
  by rewrite (wf_snapshot _ _ Hwf'), (wf_snapshot _ _ Hwf).
Qed.

Theorem Delete_refines sl key :
  wf sl -> wf (Delete sl key) /\
           Snapshot (Delete sl key) = put_entry (Entry key [] true) (Snapshot sl).
Proof.
  intros [ids Hwf]. destruct (Delete_spec sl ids key Hwf) as (ids' & Hwf' & He).
  split; [by exists ids'|].
  by rewrite (wf_snapshot _ _ Hwf'), (wf_snapshot _ _ Hwf).
Qed.

Lemma Snapshot_sorted sl : wf sl -> keys_sorted (Snapshot sl).
Proof.
  intros [ids Hwf]. rewrite (wf_snapshot _ _ Hwf). unfold keys_sorted.
  rewrite keys_of_entries. apply (wf_sorted _ _ Hwf).
Qed.

(** The layer the memtable stands for. *)
Definition contents (sl : SkipList) : layer := layer_of (Snapshot sl).

Lemma Put_contents sl key value : wf sl ->
  contents (Put sl key value) = <[key := Some value]> (contents sl).
Proof.
  intros Hwf. unfold contents. destruct (Put_refines sl key value Hwf) as [_ ->].
  by rewrite put_entry_layer.
Qed.

Lemma Delete_contents sl key : wf sl ->
  contents (Delete sl key) = <[key := None]> (contents sl).
Proof.
  intros Hwf. unfold contents. destruct (Delete_refines sl key Hwf) as [_ ->].
  by rewrite put_entry_layer.
Qed.

Theorem Get_contents sl key : wf sl ->
  Get sl key = match contents sl !! key with
               | Some (Some v) => (v, true, false)
               | Some None => ([], true, true)
               | None => ([], false, false)
               end.
Proof.
  intros [ids Hwf]. unfold Get, contents. rewrite (wf_snapshot _ _ Hwf).
  assert (Hs : keys_sorted (node_entry (nodes sl) <$> ids))
    by (unfold keys_sorted; rewrite keys_of_entries; apply (wf_sorted _ _ Hwf)).
  destruct (wf_place sl ids key Hwf).
  - rewrite (wf_search sl ids Hwf key A (y :: B) Hids Hcut), Hfound.
    assert (He : node_entry (nodes sl) y ∈ node_entry (nodes sl) <$> ids).
    { apply list_elem_of_fmap_2. rewrite Hids. apply elem_of_app. right. by left. }
    apply (layer_of_lookup_sorted _ _ Hs) in He. rewrite key_node_entry in He.
    unfold key_of in He. rewrite Hnode, Hkey in He. rewrite He. unfold cell, node_entry, SnapshotEntry. rewrite Hnode. simpl.
    by destruct (n_tombstone nd).
  - rewrite (wf_search sl ids Hwf key A B Hids Hcut), Hfound.
    replace (layer_of _ !! key) with (@None (option bytes)); [done|]. symmetry.
    apply layer_of_lookup_None. rewrite keys_of_entries.
    intros (x & -> & Hx)%list_elem_of_fmap. rewrite Hids in Hx.
    apply elem_of_app in Hx as [Hx|Hx].
    + pose proof (cut_lt _ _ _ _ _ Hcut) as H. rewrite Forall_forall in H.
      by apply (blt_irrefl (key_of (nodes sl) x)), H.
    + rewrite Forall_forall in Hfresh. by apply (Hfresh x).
Qed.

(** The approximate size is in fact the exact sum over the entries, and never
    negative; the length counts tombstones too. *)
Lemma size_of sl : wf sl ->
  Size sl = sum_Z (entry_bytes <$> Snapshot sl) /\ Len sl = zlen (Snapshot sl).
Proof.
  intros [ids Hwf]. unfold Size, Len. rewrite (wf_snapshot _ _ Hwf), (wf_size _ _ Hwf),
    (wf_length _ _ Hwf). split; [|by unfold zlen; rewrite length_fmap].
  rewrite <- list_fmap_compose. f_equal. apply list_fmap_ext. intros i x Hx.
  apply list_elem_of_lookup_2 in Hx. pose proof (wf_tomb _ _ Hwf) as Ht.
  rewrite Forall_forall in Ht. specialize (Ht x Hx). simpl.
  pose proof (wf_valid _ _ Hwf x ltac:(by right)) as [nd Hnd]%lookup_lt_is_Some.
  unfold tomb_ok, node_bytes, node_entry, entry_bytes, SnapshotEntry in *. rewrite Hnd in *.
  destruct (n_tombstone nd); simpl; [|done]. by rewrite Ht.
Qed.

(** ** The iterator *)

Lemma it_drain_chain sl fuel x l :
  chain (nodes sl) 0 x l -> (length l <= fuel)%nat -> Forall (fun y => y < length (nodes sl))%nat l ->
  it_drain fuel (mkIter (Some sl) (next_at (nodes sl) x 0)) = node_entry (nodes sl) <$> l.
Proof.
  revert x fuel. induction l as [|y l IH]; simpl; intros x fuel Hc Hf Hv.
  - rewrite Hc. by destruct fuel.
  - destruct Hc as [-> Hc]. destruct fuel as [|fuel]; [lia|]. simpl.
    apply Forall_cons in Hv as [Hy Hv]. unfold it_next. simpl. rewrite IH by (done || lia).
    f_equal. apply lookup_lt_is_Some in Hy as [nd Hnd].
    unfold it_key, it_value, it_is_tombstone, it_current, it_nodes, node_entry, SnapshotEntry. simpl.
    by rewrite Hnd.
Qed.

Lemma filter_cut {T} (P : T -> Prop) `{!forall x, Decision (P x)} A B :
  Forall (fun x => ~ P x) A -> Forall P B -> filter P (A ++ B) = B.
Proof.
  intros HA HB. rewrite filter_app. replace (filter P A) with (@nil T).
  - simpl. induction HB as [|x B Hx HB IH]; [done|]. by rewrite filter_cons_True, IH.
  - induction HA as [|x A Hx HA IH]; [done|]. by rewrite filter_cons_False.
Qed.

Lemma snapshot_length sl : wf sl -> (length (Snapshot sl) < S (length (nodes sl)))%nat.
Proof.
  intros [ids Hwf]. rewrite (wf_snapshot _ _ Hwf), length_fmap. pose proof (wf_ids_length _ _ Hwf). lia.
Qed.

(** Any client that asks often enough reads the whole list. *)
Lemma drain_snapshot sl fuel : wf sl -> (length (nodes sl) <= fuel)%nat ->
  it_drain fuel (Iterator sl) = Snapshot sl.
Proof.
  intros [ids Hwf] Hf. rewrite (wf_snapshot _ _ Hwf). pose proof (wf_ids_length _ _ Hwf) as Hl.
  apply it_drain_chain; [apply (wf_chain_0 _ _ Hwf)|lia|].
  apply Forall_forall. intros x Hx. apply (wf_valid _ _ Hwf). by right.
Qed.

(** Draining the iterator gives the snapshot; after [Seek] it gives the entries
    from the key on. *)
Theorem iterator_drains sl key : wf sl ->
  it_drain (length (nodes sl)) (Iterator sl) = Snapshot sl /\
  it_drain (length (nodes sl)) (it_seek (Iterator sl) key) =
    filter (fun e => ~ blt (Key e) key) (Snapshot sl).
Proof.
  intros [ids Hwf]. rewrite (wf_snapshot _ _ Hwf).
  assert (Hv : Forall (fun y => y < length (nodes sl))%nat ids).
  { apply Forall_forall. intros x Hx. apply (wf_valid _ _ Hwf). by right. }
  pose proof (wf_ids_length _ _ Hwf) as Hl. pose proof (wf_chain_0 _ _ Hwf) as Hc.
  assert (Hall : it_drain (length (nodes sl)) (Iterator sl) = node_entry (nodes sl) <$> ids)
    by (apply it_drain_chain; [done|lia|done]).
  split; [done|]. unfold it_seek. simpl.
  destruct (zlen key =? 0) eqn:Hz.
  - rewrite (zlen_nil_inv key) by lia. fold (Iterator sl). rewrite Hall.
    clear. induction ids as [|x ids IH]; [done|]. rewrite fmap_cons.
    rewrite filter_cons_True by apply not_blt_nil. by f_equal.
  - destruct (wf_cut _ _ Hwf key) as (A & B & E & Hcut).
    rewrite (wf_search _ _ Hwf key A B E Hcut).
    rewrite E in Hc, Hv, Hl. apply chain_app in Hc. apply Forall_app in Hv as [_ Hv].
    rewrite length_app in Hl. rewrite it_drain_chain with (l := B) by (done || lia).
    rewrite E, fmap_app, filter_cut; [done| |]; rewrite Forall_fmap.
    + eapply Forall_impl; [apply (cut_lt _ _ _ _ _ Hcut)|]. intros x Hx H.
      apply H. simpl. by rewrite key_node_entry.
    + eapply Forall_impl; [apply (cut_ge _ _ _ _ _ Hcut)|]. intros x Hx. simpl.
      by rewrite key_node_entry.
Qed.

(** * Any history *)

(** One write of the database: a put or a delete. *)
Definition apply_op (sl : SkipList) (e : entry) : SkipList :=
  if Tombstone e then Delete sl (Key e) else Put sl (Key e) (Value e).

Definition op_entry (e : entry) : entry := Entry (Key e) (if Tombstone e then [] else Value e) (Tombstone e).

Lemma apply_op_refines sl e : wf sl ->
  wf (apply_op sl e) /\ Snapshot (apply_op sl e) = put_entry (op_entry e) (Snapshot sl).
Proof.
  intros Hwf. unfold apply_op, op_entry. destruct (Tombstone e); [by apply Delete_refines|by apply Put_refines].
Qed.

Lemma history_refines ops : forall sl, wf sl ->
  wf (fold_left apply_op ops sl) /\
  Snapshot (fold_left apply_op ops sl) = fold_left (fun l e => put_entry (op_entry e) l) ops (Snapshot sl).
Proof.
  induction ops as [|e ops IH]; intros sl Hwf; [done|]. destruct (apply_op_refines sl e Hwf) as [H1 H2].
  cbn [fold_left]. destruct (IH _ H1) as [H3 H4]. split; [done|]. by rewrite H4, H2.
Qed.

Lemma history_layer ops : forall l,
  layer_of (fold_left (fun l e => put_entry (op_entry e) l) ops l) = log_layer ops ∪ layer_of l.
Proof.
  induction ops as [|e ops IH] using rev_ind; intros l; [symmetry; apply (map_empty_union (M := gmap bytes))|].
  rewrite fold_left_app. cbn [fold_left]. rewrite put_entry_layer, IH, log_layer_snoc.
  rewrite insert_union_l. f_equal. by destruct e as [k v []].
Qed.

(** C27: The skip list refines a sorted association list: after any sequence of puts
    and deletes, whatever heights the random source drew, every level is a sorted
    chain (the invariant), the bottom level reads as the reference list, and [Get]
    answers with the last operation on the key. *)
Theorem skiplist_refines_sorted_map coins ops key :
  let sl := fold_left apply_op ops (NewSkipList coins) in
  wf sl /\ keys_sorted (Snapshot sl) /\
  Snapshot sl = fold_left (fun l e => put_entry (op_entry e) l) ops [] /\
  Get sl key = match log_layer ops !! key with
               | Some (Some v) => (v, true, false)
               | Some None => ([], true, true)
               | None => ([], false, false)
               end.
Proof.
  destruct (NewSkipList_wf coins) as [H0 E0]. destruct (history_refines ops _ H0) as [H1 H2].
  intros sl. split; [done|]. split; [by apply Snapshot_sorted|]. rewrite E0 in H2. split; [done|].
  unfold sl. rewrite Get_contents by done. unfold contents. rewrite H2, history_layer.
  change (layer_of []) with (∅ : layer). by rewrite (map_union_empty (M := gmap bytes)).
Qed.

(** The size counter that decides when to flush is exact: after any history it
    is the sum over the live entries of key, value and 8 bytes, tombstones included,
    and [Len] counts them; an overwrite neither leaks nor loses bytes. *)
Theorem memtable_size_exact coins ops :
  let sl := fold_left apply_op ops (NewSkipList coins) in
  Size sl = sum_Z (entry_bytes <$> Snapshot sl) /\ Len sl = zlen (Snapshot sl) /\ 0 <= Size sl.
Proof.
  intros sl. destruct (NewSkipList_wf coins) as [H0 _]. destruct (history_refines ops _ H0) as [H1 _].
  destruct (size_of _ H1) as [E1 E2]. fold sl in E1, E2. split; [done|]. split; [done|]. rewrite E1.
  clear. induction (Snapshot sl) as [|e l IH]; [done|].
  change (0 <= zlen (Key e) + zlen (Value e) + 8 + sum_Z (entry_bytes <$> l)).
  pose proof (zlen_nonneg (Key e)). pose proof (zlen_nonneg (Value e)). lia.
Qed.

Lemma iterator_drains_witness :
  it_drain 3 (it_seek (Iterator (Put (Put (NewSkipList [true]) [x61] [x31]) [x62] [])) [x61; x00]) =
    [Entry [x62] [] false].
Proof.
  destruct (iterator_drains (Put (Put (NewSkipList [true]) [x61] [x31]) [x62] []) [x61; x00]) as [_ H].
  - apply Put_refines, Put_refines, NewSkipList_wf.
  - etransitivity; [exact H|]. vm_compute. reflexivity.
Defined.

End Mem.
