(* ===== verification/Wal.v ===== *)
(** The write-ahead log (internal/wal).

    A record is an [entry] on the wire: length-prefixed key and value, a tombstone
    byte and a CRC-32 of everything before it.  [ReplayFromWithRecovery] parses the
    file and folds a callback over the records; [TruncateBefore] replaces the
    file by its tail.  A [WAL] is the path, the append limits and whether the
    handle is usable ([wal_file]; it is not after a failed reopening). *)

From Stdlib Require Import ZArith Lia.
From S2P Require Import Prelude Word Fs.

Module Wal.

(** * Limits (limits.go) *)

Record ReplayLimits := mkLimits {
  MaxFileSize : Z;
  MaxKeySize : Z;
  MaxValueSize : Z;
  MaxRecordSize : Z
}.

Definition DefaultMaxWALFileSize : Z := Z.shiftl 64 20.
Definition DefaultMaxKeySize : Z := Z.shiftl 1 20.
Definition DefaultMaxValueSize : Z := Z.shiftl 16 20.
Definition DefaultMaxRecordSize : Z := Z.shiftl 17 20.
Definition recordHeaderSize : Z := 4 + 4 + 1 + 4.

Definition DefaultReplayLimits : ReplayLimits :=
  mkLimits DefaultMaxWALFileSize DefaultMaxKeySize DefaultMaxValueSize DefaultMaxRecordSize.

Definition WithDefaults (l : ReplayLimits) : ReplayLimits :=
  let d := DefaultReplayLimits in
  mkLimits (if MaxFileSize l <=? 0 then MaxFileSize d else MaxFileSize l)
           (if MaxKeySize l =? 0 then MaxKeySize d else MaxKeySize l)
           (if MaxValueSize l =? 0 then MaxValueSize d else MaxValueSize l)
           (if MaxRecordSize l =? 0 then MaxRecordSize d else MaxRecordSize l).

Definition validateRecord (l : ReplayLimits) (keyLen valueLen : Z) : option error :=
  if MaxKeySize l <? keyLen then Some ErrKeyTooLarge
  else if MaxValueSize l <? valueLen then Some ErrValueTooLarge
  else
    let recSize := u64 (recordHeaderSize + keyLen + valueLen) in
    if MaxRecordSize l <? recSize then Some ErrRecordTooLarge else None.

(** * Records (wal.go) *)

Definition tomb_byte (b : bool) : byte := if b then x01 else x00.

(** The checksummed part of a record. *)
Definition record_body (keyLen : Z) (key : bytes) (valueLen : Z) (value : bytes) (tomb : byte) : bytes :=
  put_u32 keyLen ++ key ++ put_u32 valueLen ++ value ++ [tomb].

Definition encodeRecord (rec : entry) (limits : ReplayLimits) : res bytes :=
  let keyLen := zlen (Key rec) in
  let valueLen := zlen (Value rec) in
  match validateRecord limits (u32 keyLen) (u32 valueLen) with
  | Some e => Err e
  | None =>
      let buf := record_body (u32 keyLen) (Key rec) (u32 valueLen) (Value rec)
                   (tomb_byte (Tombstone rec)) in
      Ok (buf ++ put_u32 (crc32_ieee buf))
  end.

(** [io.ReadFull] of [n] bytes from what is left of the file. *)
Definition read_full (n : Z) (f : bytes) : res (bytes * bytes) :=
  if n <=? 0 then Ok ([], f)
  else if zlen f =? 0 then Err io_EOF
  else if zlen f <? n then Err io_ErrUnexpectedEOF
  else Ok (take (Z.to_nat n) f, drop (Z.to_nat n) f).

Definition mapRecordEOF (e : error) : error :=
  match e with
  | io_EOF | io_ErrUnexpectedEOF => io_ErrUnexpectedEOF
  | _ => e
  end.

Definition map_err {A} (g : error -> error) (r : res A) : res A :=
  match r with Err e => Err (g e) | _ => r end.

(** One record from the unread part [f] of the file: the record, the number of
    bytes it took, and the unread part after it. *)
Definition readOneRecord (limits : ReplayLimits) (f : bytes) : res (entry * Z * bytes) :=
  let? (kl, f1) := read_full 4 f in
  let keyLen := be_get kl in
  if MaxKeySize limits <? keyLen then Err ErrKeyTooLarge else
  let? (key, f2) := map_err mapRecordEOF (read_full keyLen f1) in
  let? (vl, f3) := map_err mapRecordEOF (read_full 4 f2) in
  let valueLen := be_get vl in
  if MaxValueSize limits <? valueLen then Err ErrValueTooLarge else
  match validateRecord limits keyLen valueLen with
  | Some e => Err e
  | None =>
      let? (value, f4) := map_err mapRecordEOF (read_full valueLen f3) in
      let? (tb, f5) := map_err mapRecordEOF (read_full 1 f4) in
      let? (cs, f6) := map_err mapRecordEOF (read_full 4 f5) in
      let tombByte := hd x00 tb in
      let buf := record_body keyLen key valueLen value tombByte in
      if crc32_ieee buf =? be_get cs
      then Ok (Entry key value (byte_Z tombByte =? 1), zlen f - zlen f6, f6)
      else Err io_ErrUnexpectedEOF
  end.

(** How the replay loop ends. *)
Inductive replay_end :=
| AtEOF
| Torn
| Failed (e : error)
| OutOfFuel.

Section Replay.
Context {S : Type} (fn : S -> entry -> S * option error).

(** The loop of [ReplayFromWithRecovery]: [pos] is the file position, which is
    also [validEnd] at the head of the loop. *)
Fixpoint replay_loop (fuel : nat) (limits : ReplayLimits) (f : bytes) (pos : Z) (s : S)
  : S * Z * replay_end :=
  match fuel with
  | O => (s, pos, OutOfFuel)
  | Datatypes.S fuel' =>
      match readOneRecord limits f with
      | Err io_EOF => (s, pos, AtEOF)
      | Err io_ErrUnexpectedEOF => (s, pos, Torn)
      | Err e => (s, pos, Failed e)
      | Crashed => (s, pos, OutOfFuel)
      | Ok (rec, n, rest) =>
          let validEnd := pos + n in
          match fn s rec with
          | (s', Some e) => (s', validEnd, Failed e)
          | (s', None) => replay_loop fuel' limits rest validEnd s'
          end
      end
  end.

(** Returns the state the callback built, [validEnd], and the error if any. *)
Definition ReplayFromWithRecovery (path : string) (limits0 : ReplayLimits) (startOffset0 : Z) (s : S)
  : io (S * Z * option error) :=
  let limits := WithDefaults limits0 in
  let! opened := try (fs_open path) in
  match opened with
  | inr os_ErrNotExist => io_ret (s, 0, None)
  | inr e => io_ret (s, 0, Some e)
  | inl _ =>
      let! sized := try (fs_size path) in
      match sized with
      | inr e => io_ret (s, 0, Some e)
      | inl size =>
          if MaxFileSize limits <? size then io_ret (s, 0, Some ErrWALTooLarge) else
          let startOffset := if size <? startOffset0 then size else startOffset0 in
          if startOffset <? 0 then io_ret (s, 0, Some (os_error 22)) else
          let! data := try (fs_read path) in
          match data with
          | inr e => io_ret (s, startOffset, Some e)
          | inl data =>
              let f := drop (Z.to_nat startOffset) data in
              match replay_loop (Datatypes.S (length f)) limits f startOffset s with
              | (s', validEnd, AtEOF) => io_ret (s', validEnd, None)
              | (s', validEnd, Torn) =>
                  let! t := try (fs_truncate path validEnd) in
                  match t with
                  | inr e => io_ret (s', validEnd, Some e)
                  | inl _ => io_ret (s', validEnd, None)
                  end
              | (s', validEnd, Failed e) => io_ret (s', validEnd, Some e)
              | (s', validEnd, OutOfFuel) => io_ret (s', validEnd, Some (os_error 0))
              end
          end
      end
  end.

Definition ReplayWithLimits (path : string) (limits : ReplayLimits) (s : S) : io (S * option error) :=
  let! (s', _, e) := ReplayFromWithRecovery path limits 0 s in io_ret (s', e).

Definition Replay (path : string) (s : S) : io (S * option error) :=
  ReplayWithLimits path DefaultReplayLimits s.

End Replay.

(** * The open log *)

Record WAL := mkWAL { wal_path : string; wal_file : bool; wal_limits : ReplayLimits }.

Definition OpenWithLimits (path : string) (limits : ReplayLimits) : io WAL :=
  fs_open_create path ;;!
  io_ret (mkWAL path true (WithDefaults limits)).

Definition Open (path : string) : io WAL := OpenWithLimits path DefaultReplayLimits.

(** A call on the handle; on a handle that is gone it fails. *)
Definition on_file {A} (w : WAL) (m : io A) : io A :=
  if wal_file w then m else io_err os_ErrClosed.

Definition appendRecordLocked (w : WAL) (rec : entry) : io unit :=
  let! buf := io_res (encodeRecord rec (wal_limits w)) in
  on_file w (fs_write (wal_path w) buf).

Definition Append (w : WAL) (rec : entry) : io unit := appendRecordLocked w rec.

Fixpoint append_all (w : WAL) (records : list entry) : io unit :=
  match records with
  | [] => io_ret tt
  | rec :: records' => appendRecordLocked w rec ;;! append_all w records'
  end.

Definition AppendBatch (w : WAL) (records : list entry) : io unit :=
  match records with
  | [] => io_ret tt
  | _ => append_all w records ;;! on_file w (fs_sync (wal_path w))
  end.

Definition Sync (w : WAL) : io unit := on_file w (fs_sync (wal_path w)).

Definition Size (w : WAL) : io Z := on_file w (fs_size (wal_path w)).

(** The write position of an append handle is the end of the file. *)
Definition Offset (w : WAL) : io Z :=
  let! n := on_file w (fs_size (wal_path w)) in io_ret (u64 n).

Definition Close (w : WAL) : io WAL :=
  on_file w (fs_close (wal_path w)) ;;!
  io_ret (mkWAL (wal_path w) false (wal_limits w)).

(** ** Truncation *)

Definition chunkSize : Z := 64 * 1024.

(** [for off := truncateAt; off < size; { ... off += readN }] over the bytes of
    the log. *)
Fixpoint copy_loop (fuel : nat) (data : bytes) (size off : Z) (tmp : string) : io unit :=
  if off <? size then
    match fuel with
    | O => io_err ErrTruncateIncomplete
    | S fuel' =>
        let n := if size - off <? chunkSize then size - off else chunkSize in
        let chunk := slice data off (off + n) in
        if zlen chunk =? 0 then io_err ErrTruncateIncomplete
        else fs_write tmp chunk ;;! copy_loop fuel' data size (off + zlen chunk) tmp
    end
  else io_ret tt.

Definition copyWalTailLocked (w : WAL) (truncateAt size : Z) (tmpPath : string) : io unit :=
  fs_open_trunc tmpPath ;;!
  let! data := fs_read (wal_path w) in
  copy_loop (Z.to_nat (size - truncateAt)) data size truncateAt tmpPath ;;!
  fs_sync tmpPath.

(** The handle after the call and the error of the call. *)
Definition reopenAppend (w : WAL) : io (WAL * option error) :=
  let! r := try (fs_open_create (wal_path w)) in
  match r with
  | inr e => io_ret (w, Some e)
  | inl _ => io_ret (mkWAL (wal_path w) true (wal_limits w), None)
  end.

Definition reopenAppendAfterTruncateErr (w : WAL) (cause : error) : io (WAL * option error) :=
  let! (w', e) := reopenAppend w in
  match e with
  | Some err => io_ret (w', Some (joined cause err))
  | None => io_ret (w', Some cause)
  end.

Definition closed_wal (w : WAL) : WAL := mkWAL (wal_path w) false (wal_limits w).

Definition reopenEmptyLocked (w : WAL) : io (WAL * option error) :=
  let! c := try (fs_close (wal_path w)) in
  match c with
  | inr e => io_ret (closed_wal w, Some e)
  | inl _ =>
      let! t := try (fs_truncate (wal_path w) 0) in
      match t with
      | inr e => io_ret (closed_wal w, Some e)
      | inl _ =>
          let! o := try (fs_open_create (wal_path w)) in
          match o with
          | inr e => io_ret (closed_wal w, Some e)
          | inl _ => io_ret (mkWAL (wal_path w) true (wal_limits w), None)
          end
      end
  end.

Definition tmp_path (w : WAL) : string := String.append (wal_path w) ".truncate.tmp".

Definition TruncateBefore (w : WAL) (truncateAt : Z) : io (WAL * option error) :=
  if truncateAt <=? 0 then io_ret (w, None) else
  let! synced := try (on_file w (fs_sync (wal_path w))) in
  match synced with
  | inr e => io_ret (w, Some e)
  | inl _ =>
  let! sized := try (fs_size (wal_path w)) in
  match sized with
  | inr e => io_ret (w, Some e)
  | inl size =>
  if size <=? truncateAt then reopenEmptyLocked w else
  let! copied := try (copyWalTailLocked w truncateAt size (tmp_path w)) in
  match copied with
  | inr e => ignore (fs_remove (tmp_path w)) ;;! io_ret (w, Some e)
  | inl _ =>
  let! closed := try (fs_close (wal_path w)) in
  match closed with
  | inr e => ignore (fs_remove (tmp_path w)) ;;! reopenAppendAfterTruncateErr (closed_wal w) e
  | inl _ =>
  let w0 := closed_wal w in
  let! renamed := try (fs_rename (tmp_path w) (wal_path w)) in
  match renamed with
  | inr e =>
      ignore (fs_remove (tmp_path w)) ;;!
      let! (w1, reopenErr) := reopenAppend w0 in
      match reopenErr with
      | Some e' => io_ret (w1, Some (joined e e'))
      | None => io_ret (w1, Some e)
      end
  | inl _ => reopenAppend w0
  end end end end end.

Definition Truncate (w : WAL) : io (WAL * option error) := TruncateBefore w (Z.shiftl 1 62).

(** * Reading back what was written *)

(** The bytes of a record on the wire. *)
Definition wire (r : entry) : bytes :=
  let buf := record_body (zlen (Key r)) (Key r) (zlen (Value r)) (Value r)
               (tomb_byte (Tombstone r)) in
  buf ++ put_u32 (crc32_ieee buf).

(** A record within the limits whose lengths fit their 32-bit fields. *)
Definition admissible (limits : ReplayLimits) (r : entry) : Prop :=
  is_u32 (zlen (Key r)) /\ is_u32 (zlen (Value r)) /\
  validateRecord limits (zlen (Key r)) (zlen (Value r)) = None.

#[export] Instance admissible_dec limits r : Decision (admissible limits r).
Proof. unfold admissible, is_u32. apply _. Defined.

Lemma encodeRecord_wire limits r : admissible limits r -> encodeRecord r limits = Ok (wire r).
Proof.
  intros (Hk & Hv & H). unfold encodeRecord, wire. by rewrite !u32_id, H.
Qed.

Lemma zlen_wire r : zlen (wire r) = recordHeaderSize + zlen (Key r) + zlen (Value r).
Proof.
  unfold wire, record_body, recordHeaderSize. autorewrite with zlen.
  change (zlen [tomb_byte (Tombstone r)]) with 1. lia.
Qed.

Lemma read_full_app n (a b : bytes) : zlen a = n -> read_full n (a ++ b) = Ok (a, b).
Proof.
  intros Hn. unfold read_full. rewrite zlen_app. pose proof (zlen_nonneg a).
  pose proof (zlen_nonneg b).
  destruct (n <=? 0) eqn:E1; [by rewrite (zlen_nil_inv a) by lia|].
  destruct (zlen a + zlen b =? 0) eqn:E2; [lia|].
  destruct (zlen a + zlen b <? n) eqn:E3; [lia|].
  unfold zlen in Hn. rewrite take_app_length', drop_app_length' by lia. done.
Qed.

Lemma read_full_short n (p : bytes) :
  zlen p < n -> map_err mapRecordEOF (read_full n p) = Err io_ErrUnexpectedEOF.
Proof.
  intros H. pose proof (zlen_nonneg p). unfold read_full.
  destruct (n <=? 0) eqn:E1; [lia|].
  destruct (zlen p =? 0); [done|]. by destruct (zlen p <? n) eqn:E3; [|lia].
Qed.

Lemma read_full_inv n f a rest : read_full n f = Ok (a, rest) ->
  f = a ++ rest /\ zlen a = Z.max n 0 /\ forall rest', read_full n (a ++ rest') = Ok (a, rest').
Proof.
  unfold read_full at 1. intros H. destruct (n <=? 0) eqn:E1.
  - simplify_eq. split; [done|]. split; [unfold zlen; simpl; lia|].
    intros rest'. unfold read_full. by rewrite E1.
  - destruct (zlen f =? 0); [done|]. destruct (zlen f <? n) eqn:E3; [done|]. simplify_eq.
    assert (Hl : zlen (take (Z.to_nat n) f) = n) by (unfold zlen in *; rewrite length_take; lia).
    split; [by rewrite take_drop|]. split; [lia|].
    intros rest'. by apply read_full_app.
Qed.

Lemma byte_Z_tomb b : (byte_Z (tomb_byte b) =? 1) = b.
Proof. by destruct b. Qed.

Lemma validateRecord_limits limits kl vl : validateRecord limits kl vl = None ->
  (MaxKeySize limits <? kl) = false /\ (MaxValueSize limits <? vl) = false.
Proof. unfold validateRecord. destruct (_ <? kl); [done|]. by destruct (_ <? vl). Qed.

(** One record, whatever follows it. *)
Theorem readOneRecord_wire limits r rest :
  admissible limits r -> readOneRecord limits (wire r ++ rest) = Ok (r, zlen (wire r), rest).
Proof.
  intros (Hk & Hv & H). pose proof (zlen_wire r) as Hw.
  unfold readOneRecord, wire, record_body. cbv zeta.
  rewrite <- !app_assoc.
  rewrite (read_full_app 4) by apply zlen_put_u32. cbn [res_bind map_err].
  pose proof (be_get_put_u32 _ Hk) as E1. pose proof (be_get_put_u32 _ Hv) as E2.
  destruct (validateRecord_limits _ _ _ H) as [L1 L2]. rewrite E1, L1.
  rewrite read_full_app by done. cbn [res_bind map_err].
  rewrite read_full_app by apply zlen_put_u32. cbn [res_bind map_err].
  rewrite E2, L2, H.
  rewrite read_full_app by done. cbn [res_bind map_err].
  rewrite (read_full_app 1 [_]) by done. cbn [res_bind map_err].
  rewrite read_full_app by apply zlen_put_u32. cbn [res_bind map_err].
  rewrite be_get_put_u32 by auto. cbn [hd]. rewrite Z.eqb_refl, byte_Z_tomb.
  f_equal. f_equal. f_equal; [by destruct r|].
  rewrite app_assoc, zlen_app. autorewrite with zlen.
  change (zlen [tomb_byte (Tombstone r)]) with 1. unfold recordHeaderSize in Hw. lia.
Qed.

(** A non-empty proper prefix of a record is a torn record: the parser reports
    [io.ErrUnexpectedEOF]. *)
Lemma read_stage n (a b : bytes) (m : nat) : zlen a = n ->
  (map_err mapRecordEOF (read_full n (take m (a ++ b))) = Err io_ErrUnexpectedEOF) \/
  (length a <= m)%nat /\
  map_err mapRecordEOF (read_full n (take m (a ++ b))) = Ok (a, take (m - length a) b).
Proof.
  intros Hn. destruct (decide (m < length a)%nat) as [Hm|Hm].
  - left. apply read_full_short. unfold zlen in *. rewrite length_take, length_app. lia.
  - right. split; [lia|]. rewrite take_app_ge by lia. by rewrite read_full_app.
Qed.

Lemma map_err_id {A} (r : res A) x : map_err mapRecordEOF r = Ok x -> r = Ok x.
Proof. by destruct r. Qed.

Lemma readOneRecord_torn limits r m :
  admissible limits r -> (0 < m < length (wire r))%nat ->
  readOneRecord limits (take m (wire r)) = Err io_ErrUnexpectedEOF.
Proof.
  intros (Hk & Hv & H) [Hm0 Hm].
  pose proof (be_get_put_u32 _ Hk) as E1. pose proof (be_get_put_u32 _ Hv) as E2.
  destruct (validateRecord_limits _ _ _ H) as [L1 L2].
  assert (Hw : wire r = put_u32 (zlen (Key r)) ++ Key r ++ put_u32 (zlen (Value r)) ++ Value r ++
    [tomb_byte (Tombstone r)] ++ put_u32 (crc32_ieee (record_body (zlen (Key r)) (Key r)
      (zlen (Value r)) (Value r) (tomb_byte (Tombstone r)))) ++ [])
    by (unfold wire, record_body; by rewrite app_nil_r, <- !app_assoc).
  rewrite Hw in *. clear Hw. set (cs := put_u32 (crc32_ieee _)) in *.
  assert (Hcs : zlen cs = 4) by apply zlen_put_u32.
  unfold readOneRecord. cbv zeta.
  destruct (read_stage 4 (put_u32 (zlen (Key r))) (Key r ++ put_u32 (zlen (Value r)) ++ Value r ++
    [tomb_byte (Tombstone r)] ++ cs ++ []) m (zlen_put_u32 _)) as [S|[M1 S]].
  { assert (Hne : zlen (take m (put_u32 (zlen (Key r)) ++ Key r ++ put_u32 (zlen (Value r)) ++
      Value r ++ [tomb_byte (Tombstone r)] ++ cs ++ [])) <> 0).
    { intros Hz. apply Z.eq_le_incl, zlen_nil_inv, (f_equal length) in Hz.
      rewrite length_take in Hz. simpl length in Hz at 2. lia. }
    unfold read_full in *. simpl (4 <=? 0) in *. rewrite (proj2 (Z.eqb_neq _ _) Hne) in *.
    destruct (_ <? 4); [done|]. done. }
  apply map_err_id in S. rewrite S. cbn [res_bind map_err]. rewrite E1, L1.
  destruct (read_stage (zlen (Key r)) (Key r) (put_u32 (zlen (Value r)) ++ Value r ++
    [tomb_byte (Tombstone r)] ++ cs ++ []) (m - length (put_u32 (zlen (Key r)))) eq_refl)
    as [-> |[M2 ->]]; [done|]. cbn [res_bind map_err].
  edestruct (read_stage 4 (put_u32 (zlen (Value r))) (Value r ++ [tomb_byte (Tombstone r)] ++ cs ++ []))
    as [-> |[M3 ->]]; [apply zlen_put_u32|done|]. cbn [res_bind map_err]. rewrite E2, L2, H.
  edestruct (read_stage (zlen (Value r)) (Value r) ([tomb_byte (Tombstone r)] ++ cs ++ []))
    as [-> |[M4 ->]]; [done|done|]. cbn [res_bind map_err].
  edestruct (read_stage 1 [tomb_byte (Tombstone r)] (cs ++ [])) as [-> |[M5 ->]]; [done|done|].
  cbn [res_bind map_err].
  edestruct (read_stage 4 cs []) as [-> |[M6 _]]; [done|done|].
  exfalso. rewrite !length_app in Hm. simpl in *. lia.
Qed.

(** * The replay loop *)

Fixpoint wires (rs : list entry) : bytes :=
  match rs with [] => [] | r :: rs' => wire r ++ wires rs' end.

Lemma wires_app rs1 rs2 : wires (rs1 ++ rs2) = wires rs1 ++ wires rs2.
Proof. induction rs1 as [|r rs1 IH]; [done|]. simpl. by rewrite IH, app_assoc. Qed.

Lemma wire_length r : (13 <= length (wire r))%nat.
Proof.
  pose proof (zlen_wire r). pose proof (zlen_nonneg (Key r)). pose proof (zlen_nonneg (Value r)).
  unfold recordHeaderSize in *. unfold zlen at 1 in H. lia.
Qed.

(** A record the parser accepts is determined by its own bytes. *)
Lemma readOneRecord_inv limits f rec n rest :
  readOneRecord limits f = Ok (rec, n, rest) ->
  exists a, f = a ++ rest /\ n = zlen a /\ 13 <= n /\
    forall rest', readOneRecord limits (a ++ rest') = Ok (rec, n, rest').
Proof.
  unfold readOneRecord at 1. cbv zeta. intros H.
  destruct (read_full 4 f) as [[kl f1]|?|] eqn:R1; cbn [res_bind map_err] in H; try done.
  destruct (_ <? be_get kl) eqn:L1; [done|].
  destruct (read_full (be_get kl) f1) as [[key f2]|?|] eqn:R2; cbn [res_bind map_err] in H; try done.
  destruct (read_full 4 f2) as [[vl f3]|?|] eqn:R3; cbn [res_bind map_err] in H; try done.
  destruct (_ <? be_get vl) eqn:L2; [done|]. destruct (validateRecord _ _ _) eqn:V; [done|].
  destruct (read_full (be_get vl) f3) as [[value f4]|?|] eqn:R4; cbn [res_bind map_err] in H; try done.
  destruct (read_full 1 f4) as [[tb f5]|?|] eqn:R5; cbn [res_bind map_err] in H; try done.
  destruct (read_full 4 f5) as [[cs f6]|?|] eqn:R6; cbn [res_bind map_err] in H; try done.
  destruct (_ =? be_get cs) eqn:C; [|done]. simplify_eq.
  apply read_full_inv in R1 as (-> & N1 & R1), R2 as (-> & N2 & R2), R3 as (-> & N3 & R3),
    R4 as (-> & N4 & R4), R5 as (-> & N5 & R5), R6 as (-> & N6 & R6).
  pose proof (be_get_range kl). pose proof (be_get_range vl).
  exists (kl ++ key ++ vl ++ value ++ tb ++ cs).
  assert (Hn : zlen (kl ++ key ++ vl ++ value ++ tb ++ cs ++ rest) - zlen rest =
               zlen (kl ++ key ++ vl ++ value ++ tb ++ cs)) by (rewrite !zlen_app; lia).
  split; [by rewrite <- !app_assoc|]. split; [exact Hn|]. split.
  { rewrite Hn, !zlen_app. lia. }
  intros rest'. unfold readOneRecord. cbv zeta. rewrite <- !app_assoc.
  rewrite R1. cbn [res_bind map_err]. rewrite L1, R2. cbn [res_bind map_err].
  rewrite R3. cbn [res_bind map_err]. rewrite L2, V, R4. cbn [res_bind map_err].
  rewrite R5. cbn [res_bind map_err]. rewrite R6. cbn [res_bind map_err]. rewrite C.
  f_equal. f_equal. f_equal. rewrite Hn, !zlen_app. lia.
Qed.

Lemma read_full_not_crashed n f : read_full n f <> Crashed.
Proof. unfold read_full. by repeat case_match. Qed.

Lemma readOneRecord_not_crashed limits f : readOneRecord limits f <> Crashed.
Proof.
  unfold readOneRecord. cbv zeta. intros H.
  repeat match type of H with
  | (if ?b then _ else _) = _ => destruct b; [try done|try done]
  | context [read_full ?n ?f] =>
      pose proof (read_full_not_crashed n f);
      destruct (read_full n f) as [[? ?]|?|]; cbn [res_bind map_err] in H; try done
  | match ?x with _ => _ end = _ => destruct x; try done
  end.
Qed.

Lemma readOneRecord_nil limits : readOneRecord limits [] = Err io_EOF.
Proof. done. Qed.

#[local] Opaque wire readOneRecord.

Section replay_facts.
Context {S : Type} (g : S -> entry -> S).

(** The callback of the database never fails. *)
Definition total_fn : S -> entry -> S * option error := fun s r => (g s r, None).

Lemma replay_loop_wires limits recs fuel tail pos s :
  Forall (admissible limits) recs -> (length recs <= fuel)%nat ->
  replay_loop total_fn fuel limits (wires recs ++ tail) pos s =
  replay_loop total_fn (fuel - length recs) limits tail (pos + zlen (wires recs)) (fold_left g recs s).
Proof.
  intros Ha. revert fuel pos s. induction Ha as [|r recs Hr Ha IH]; intros fuel pos s Hf; simpl.
  - rewrite Nat.sub_0_r. f_equal. unfold zlen. simpl. lia.
  - destruct fuel as [|fuel]; simpl in *; [lia|].
    rewrite <- app_assoc, readOneRecord_wire by done. simpl.
    rewrite IH by lia. f_equal. rewrite zlen_app. lia.
Qed.

Lemma wires_length recs : (length recs <= length (wires recs))%nat.
Proof.
  induction recs as [|r recs IH]; simpl; [lia|]. rewrite length_app.
  pose proof (wire_length r). lia.
Qed.

(** What a crash in the middle of a write may leave behind the complete records. *)
Definition torn_tail (limits : ReplayLimits) (tail : bytes) : Prop :=
  tail = [] \/ exists r m, admissible limits r /\ (m < length (wire r))%nat /\ tail = take m (wire r).

(** A log that ends in the middle of a record. *)
Lemma replay_loop_torn limits recs tail s pos fuel :
  Forall (admissible limits) recs -> torn_tail limits tail ->
  (length (wires recs ++ tail) < fuel)%nat ->
  replay_loop total_fn fuel limits (wires recs ++ tail) pos s =
  (fold_left g recs s, pos + zlen (wires recs), if decide (tail = []) then AtEOF else Torn).
Proof.
  intros Ha Ht Hf. rewrite length_app in Hf. pose proof (wires_length recs).
  rewrite replay_loop_wires by (done || lia).
  destruct (fuel - length recs)%nat as [|fuel'] eqn:E; [lia|]. simpl.
  case_decide as Hd; [by subst; rewrite readOneRecord_nil|].
  destruct Ht as [Ht|(r & m & Hr & Hm & ->)]; [done|].
  destruct (decide (m = 0)%nat) as [->|]; [done|].
  by rewrite readOneRecord_torn by (done || lia).
Qed.

(** Enough fuel is one more than the bytes left; the position stays in the file. *)
Lemma replay_loop_total fuel limits f pos s :
  (length f < fuel)%nat ->
  exists s' v e, replay_loop total_fn fuel limits f pos s = (s', v, e) /\
    e <> OutOfFuel /\ pos <= v <= pos + zlen f.
Proof.
  revert f pos s. induction fuel as [|fuel IH]; intros f pos s Hf; [lia|]. simpl.
  pose proof (zlen_nonneg f).
  destruct (readOneRecord limits f) as [[[rec n] rest]|e|] eqn:R.
  - apply readOneRecord_inv in R as (a & -> & -> & Hn & _). rewrite length_app in Hf.
    destruct (IH rest (pos + zlen a) (g s rec)) as (s' & v & e & -> & He & Hv).
    { unfold zlen in Hn. lia. }
    exists s', v, e. split; [done|]. split; [done|]. rewrite zlen_app. lia.
  - destruct e; eexists _, _, _; (split; [done|]); (split; [done|lia]).
  - by apply readOneRecord_not_crashed in R.
Qed.

(** Cutting the file at the end of the last good record changes nothing for a
    later replay, which then ends at a clean end of file. *)
Lemma replay_loop_again fuel fuel' limits f pos s s' v e :
  replay_loop total_fn fuel limits f pos s = (s', v, e) -> e = AtEOF \/ e = Torn ->
  (length f < fuel)%nat -> (length (take (Z.to_nat (v - pos)) f) < fuel')%nat ->
  replay_loop total_fn fuel' limits (take (Z.to_nat (v - pos)) f) pos s = (s', v, AtEOF).
Proof.
  revert fuel' f pos s. induction fuel as [|fuel IH]; intros fuel' f pos s H He Hf Hf'; [lia|].
  destruct fuel' as [|fuel']; [lia|]. simpl in H.
  destruct (readOneRecord limits f) as [[[rec n] rest]|err|] eqn:R.
  - apply readOneRecord_inv in R as (a & -> & -> & Hn & R). simpl in H.
    rewrite length_app in Hf.
    assert (Ha : (13 <= length a)%nat) by (unfold zlen in Hn; lia).
    destruct (replay_loop_total fuel limits rest (pos + zlen a) (g s rec)) as (? & ? & ? & E & _ & Hv);
      [lia|]. rewrite H in E. simplify_eq.
    assert (Hz : Z.to_nat (x0 - pos) = (length a + Z.to_nat (x0 - (pos + zlen a)))%nat)
      by (unfold zlen in *; lia).
    rewrite Hz, take_app_add, length_app in Hf'. rewrite Hz, take_app_add. simpl. rewrite R. simpl.
    eapply IH; [exact H|done|lia|lia].
  - assert (Hz : s' = s /\ v = pos) by (destruct err; naive_solver).
    destruct Hz as [-> ->]. rewrite Z.sub_diag. done.
  - by apply readOneRecord_not_crashed in R.
Qed.

(** * Recovery of a file *)

(** Without faults, replay is the loop on the bytes from the offset on, and the
    file is cut at the last good record when the tail is torn. *)
Lemma replay_run path limits start s f c d :
  f !! path = Some (File c d) -> zlen c <= MaxFileSize (WithDefaults limits) ->
  0 <= start <= zlen c ->
  let suffix := drop (Z.to_nat start) c in
  ReplayFromWithRecovery total_fn path limits start s (mkWorld f []) =
  match replay_loop total_fn (Datatypes.S (length suffix)) (WithDefaults limits) suffix start s with
  | (s', v, Torn) =>
      (Ok (s', v, None), mkWorld (<[path := File (resize v c) (take (Z.to_nat v) d)]> f) [])
  | (s', v, AtEOF) => (Ok (s', v, None), mkWorld f [])
  | (s', v, Failed e) => (Ok (s', v, Some e), mkWorld f [])
  | (s', v, OutOfFuel) => (Ok (s', v, Some (os_error 0)), mkWorld f [])
  end.
Proof.
  intros Hf Hs Ho suffix. unfold ReplayFromWithRecovery, io_bind, try, fs_open, fs_size, fs_read.
  io_cbn. rewrite ?Hf. io_cbn. rewrite ?Hf. io_cbn.
  replace (MaxFileSize (WithDefaults limits) <? zlen c) with false by lia.
  replace (zlen c <? start) with false by lia. replace (start <? 0) with false by lia.
  io_cbn. rewrite ?Hf. io_cbn. fold suffix.
  destruct (replay_loop _ _ _ _ _ _) as [[s' v] e].
  destruct e; try done. unfold fs_truncate. io_cbn. rewrite Hf. io_cbn.
  by rewrite (alter_as_insert _ _ _ _ Hf).
Qed.

Lemma replay_missing path limits start s f : f !! path = None ->
  ReplayFromWithRecovery total_fn path limits start s (mkWorld f []) = (Ok (s, 0, None), mkWorld f []).
Proof.
  intros Hf. unfold ReplayFromWithRecovery, io_bind, try, fs_open. io_cbn. by rewrite Hf.
Qed.

(** A log of complete records, cut anywhere behind them, replays to exactly those
    records from the offset on; the torn bytes are removed from the file. *)
Theorem replay_recovers path limits pre recs tail s f :
  bytes_at f path = Some (wires pre ++ wires recs ++ tail) ->
  Forall (admissible (WithDefaults limits)) recs -> torn_tail (WithDefaults limits) tail ->
  zlen (wires pre ++ wires recs ++ tail) <= MaxFileSize (WithDefaults limits) ->
  exists f',
    ReplayFromWithRecovery total_fn path limits (zlen (wires pre)) s (mkWorld f []) =
      (Ok (fold_left g recs s, zlen (wires (pre ++ recs)), None), mkWorld f' []) /\
    bytes_at f' path = Some (wires (pre ++ recs)) /\
    (forall q, q <> path -> f' !! q = f !! q) /\
    (forall c, f !! path = Some (File c c) -> exists c', f' !! path = Some (File c' c')).
Proof.
  intros [d Hf]%bytes_at_Some Ha Ht Hs.
  assert (Hpre : 0 <= zlen (wires pre) <= zlen (wires pre ++ wires recs ++ tail)).
  { rewrite zlen_app. pose proof (zlen_nonneg (wires pre)).
    pose proof (zlen_nonneg (wires recs ++ tail)). lia. }
  rewrite (replay_run _ _ _ _ _ _ _ Hf Hs Hpre).
  rewrite drop_app_length' by (unfold zlen; lia).
  rewrite replay_loop_torn by (done || lia). rewrite wires_app, zlen_app.
  case_decide as Hd.
  - subst tail. exists f. split; [done|]. split; [|split; [done|intros c Hc; by exists c]].
    apply bytes_at_Some. exists d. rewrite Hf. by rewrite app_nil_r.
  - assert (Hres : resize (zlen (wires pre) + zlen (wires recs)) (wires pre ++ wires recs ++ tail) =
      take (Z.to_nat (zlen (wires pre) + zlen (wires recs))) (wires pre ++ wires recs ++ tail)).
    { rewrite !zlen_app in *. apply resize_take. rewrite !zlen_app. pose proof (zlen_nonneg (wires recs)).
      pose proof (zlen_nonneg tail). lia. }
    eexists. split; [done|]. split; [|split; [intros q Hq; by rewrite lookup_insert_ne|]].
    + rewrite bytes_at_insert_eq. simpl. f_equal. rewrite Hres, app_assoc.
      apply take_app_length'. unfold zlen. rewrite length_app. lia.
    + intros c Hc. rewrite Hf in Hc. injection Hc as <- ->. eexists. rewrite lookup_insert_eq.
      by rewrite Hres.
Qed.

(** Recovery is idempotent: whatever the file held, a replay that succeeds
    leaves a file from which a second replay, as after a crash right behind the
    first, rebuilds the same state and changes nothing. *)
Theorem replay_idempotent path limits start s f s1 v1 f1 :
  (0 <= start)%Z ->
  ReplayFromWithRecovery total_fn path limits start s (mkWorld f []) =
    (Ok (s1, v1, None), mkWorld f1 []) ->
  ReplayFromWithRecovery total_fn path limits start s (mkWorld f1 []) =
    (Ok (s1, v1, None), mkWorld f1 []).
Proof.
  intros Hstart H. destruct (f !! path) as [[c d]|] eqn:Hf.
  2:{ rewrite (replay_missing _ _ _ _ _ Hf) in H. simplify_eq. by apply replay_missing. }
  destruct (decide (zlen c <= MaxFileSize (WithDefaults limits))) as [Hs|Hs].
  2:{ unfold ReplayFromWithRecovery, io_bind, try, fs_open, fs_size in *. rewrite !prim_quiet in *.
      io_cbn_in H. rewrite ?Hf in H. io_cbn_in H. rewrite ?Hf in H. io_cbn_in H.
      by replace (_ <? zlen c) with true in H by lia. }
  destruct (decide (start <= zlen c)) as [Ho|Ho].
  - rewrite (replay_run _ _ _ _ _ _ _ Hf Hs (conj Hstart Ho)) in H.
    destruct (replay_loop _ _ _ _ _ _) as [[s' v] e] eqn:L.
    destruct (replay_loop_total (Datatypes.S (length (drop (Z.to_nat start) c)))
      (WithDefaults limits) (drop (Z.to_nat start) c) start s) as (? & ? & ? & L' & _ & Hv); [lia|].
    rewrite L in L'. simplify_eq. rename x0 into v, x1 into e.
    assert (Hd : zlen (drop (Z.to_nat start) c) = zlen c - start)
      by (unfold zlen in *; rewrite length_drop; lia).
    destruct e; simplify_eq.
    + rewrite (replay_run _ _ _ _ _ _ _ Hf Hs (conj Hstart Ho)), L. done.
    + assert (Hrs : resize v1 c = take (Z.to_nat v1) c) by (apply resize_take; lia).
      assert (Hzl : zlen (resize v1 c) = v1)
        by (rewrite Hrs; unfold zlen in *; rewrite length_take; lia).
      rewrite (replay_run _ _ _ _ _ (resize v1 c) (take (Z.to_nat v1) d));
        [|by rewrite lookup_insert_eq|lia|lia].
      assert (Hdt : drop (Z.to_nat start) (resize v1 c) =
                    take (Z.to_nat (v1 - start)) (drop (Z.to_nat start) c)).
      { rewrite Hrs, skipn_firstn_comm. f_equal. lia. }
      rewrite Hdt. erewrite replay_loop_again; [done|exact L|by right|lia|lia].
  - assert (Heq : forall f0, f0 !! path = Some (File c d) ->
      ReplayFromWithRecovery total_fn path limits start s (mkWorld f0 []) =
      ReplayFromWithRecovery total_fn path limits (zlen c) s (mkWorld f0 [])).
    { intros f0 Hf0. unfold ReplayFromWithRecovery, io_bind, try, fs_open, fs_size.
      io_cbn. rewrite ?Hf0. io_cbn. rewrite ?Hf0. io_cbn.
      replace (zlen c <? start) with true by lia. by rewrite Z.ltb_irrefl. }
    rewrite (Heq f Hf) in H. pose proof (zlen_nonneg c).
    rewrite (replay_run _ _ _ _ _ _ _ Hf Hs) in H by lia.
    rewrite drop_ge in H by (unfold zlen; lia). simpl in H. rewrite readOneRecord_nil in H.
    simplify_eq. rewrite (Heq _ Hf), (replay_run _ _ _ _ _ _ _ Hf Hs) by lia.
    rewrite drop_ge by (unfold zlen; lia). simpl. by rewrite readOneRecord_nil.
Qed.

End replay_facts.

(** * Appending *)

(** Lengths that fit their 32-bit fields. *)
Definition fits (r : entry) : Prop := is_u32 (zlen (Key r)) /\ is_u32 (zlen (Value r)).

Lemma encodeRecord_cases limits r : fits r ->
  (encodeRecord r limits = Ok (wire r) /\ admissible limits r) \/
  (exists e, encodeRecord r limits = Err e) /\ ~ admissible limits r.
Proof.
  intros [Hk Hv]. destruct (decide (admissible limits r)) as [Ha|Ha].
  - left. split; [by apply encodeRecord_wire|done].
  - right. split; [|done]. unfold encodeRecord. rewrite !u32_id by done.
    destruct (validateRecord _ _ _) eqn:E; [eauto|]. by destruct Ha.
Qed.

Lemma append_all_triple w recs c d :
  Forall fits recs ->
  triple (fun f => f !! wal_path w = Some (File c d)) (append_all w recs)
    (fun r f => exists k, f !! wal_path w = Some (File (c ++ take k (wires recs)) d) /\
       (r = Ok tt -> (length (wires recs) <= k)%nat /\ Forall (admissible (wal_limits w)) recs /\
                     (recs <> [] -> wal_file w = true))).
Proof.
  intros Hfit. revert c. induction Hfit as [|rec recs Hr Hrs IH]; intros c; simpl.
  { apply triple_ret. intros f Hf. exists 0%nat. simpl. rewrite app_nil_r.
    split; [done|]. intros _. split; [lia|]. by split; [constructor|]. }
  unfold appendRecordLocked.
  destruct (encodeRecord_cases (wal_limits w) rec Hr) as [[-> Ha]|[[e ->] _]].
  2:{ intros wd Hf. simpl. exists 0%nat. simpl. by rewrite app_nil_r. }
  eapply triple_bind with (R := fun _ f => f !! wal_path w = Some (File (c ++ wire rec) d) /\
                                          wal_file w = true).
  - intros wd Hf. unfold io_bind, io_res, on_file.
    destruct (wal_file w) eqn:Hw.
    2:{ simpl. exists 0%nat. simpl. by rewrite app_nil_r. }
    pose proof (fs_write_triple (wal_path w) (wire rec) c d wd Hf) as T.
    destruct (fs_write (wal_path w) (wire rec) wd) as [[[]|err|] wd']; simpl in *.
    + done.
    + destruct T as (k & Hk & ->). exists k. by rewrite take_app_le.
    + destruct T as (k & Hk & ->). exists k. by rewrite take_app_le.
  - intros [] wd [Hf Hw]. specialize (IH (c ++ wire rec) wd Hf).
    destruct (append_all w recs wd) as [r wd']. simpl in *.
    destruct IH as (k & Hk & Hok). exists (length (wire rec) + k)%nat.
    rewrite take_app_add, app_assoc. split; [done|].
    intros Hr1. destruct (Hok Hr1) as (H1 & H2 & H3). rewrite length_app.
    split; [lia|]. split; [by constructor|done].
Qed.

(** Whatever happens during the call, the log grows by a prefix of the batch's
    bytes and nothing synced before is lost; success means the whole batch is in
    the file and synced. *)
Lemma AppendBatch_triple w recs c d :
  Forall fits recs -> recs <> [] ->
  triple (fun f => f !! wal_path w = Some (File c d)) (AppendBatch w recs)
    (fun r f => match r with
      | Ok _ => f !! wal_path w = Some (File (c ++ wires recs) (c ++ wires recs)) /\
                Forall (admissible (wal_limits w)) recs
      | _ => exists k, f !! wal_path w = Some (File (c ++ take k (wires recs)) d)
      end).
Proof.
  intros Hfit Hne. unfold AppendBatch. destruct recs as [|r0 recs0] eqn:Er; [done|].
  rewrite <- Er in *. clear Er.
  eapply triple_bind with (R := fun _ f => f !! wal_path w = Some (File (c ++ wires recs) d) /\
    Forall (admissible (wal_limits w)) recs /\ wal_file w = true).
  - eapply triple_conseq; [by apply append_all_triple with (c := c) (d := d)|done|].
    intros [[]|e|] f (k & Hf & Hok); [|by exists k|by exists k].
    destruct (Hok eq_refl) as (Hk & Ha & Hw). rewrite take_ge in Hf by done.
    split; [done|]. split; [done|by apply Hw].
  - intros [] wd (Hf & Ha & Hw). unfold on_file. rewrite Hw.
    pose proof (fs_sync_triple _ _ _ wd Hf) as T.
    destruct (fs_sync (wal_path w) wd) as [[[]|err|] wd']; simpl in *;
      [done| |]; exists (length (wires recs)); by rewrite take_ge.
Qed.

Lemma prefix_wires limits recs p :
  Forall (admissible limits) recs -> p `prefix_of` wires recs ->
  exists recs1 recs2 tail, recs = recs1 ++ recs2 /\ p = wires recs1 ++ tail /\ torn_tail limits tail.
Proof.
  intros Ha. revert p. induction Ha as [|r recs Hr Ha IH]; simpl; intros p [k Hp].
  - exists [], [], []. destruct p; [|done].
    split; [done|]. split; [done|by left].
  - destruct (decide (length p < length (wire r))%nat) as [Hl|Hl].
    + exists [], (r :: recs), p. split; [done|]. split; [done|]. right.
      exists r, (length p). split; [done|]. split; [done|].
      rewrite <- (take_app_length p k) at 1. rewrite <- Hp. by rewrite take_app_le by lia.
    + assert (Hp' : p = wire r ++ drop (length (wire r)) p).
      { rewrite <- (take_drop (length (wire r)) p) at 1. f_equal.
        rewrite <- (take_app_le p k) by lia. rewrite <- Hp. apply take_app_length. }
      rewrite Hp' in Hp. rewrite <- app_assoc in Hp. apply app_inv_head in Hp.
      destruct (IH (drop (length (wire r)) p)) as (r1 & r2 & tail & -> & E & Ht).
      { by exists k. }
      exists (r :: r1), r2, tail. split; [done|]. split; [|done].
      rewrite Hp', E. simpl. by rewrite app_assoc.
Qed.

(** What the file holds after the batch, under any schedule. *)
Lemma AppendBatch_file w recs c wd :
  fs wd !! wal_path w = Some (File c c) -> Forall fits recs ->
  exists p d, fs (snd (AppendBatch w recs wd)) !! wal_path w = Some (File (c ++ p) (c ++ d)) /\
    p `prefix_of` wires recs /\
    (fst (AppendBatch w recs wd) = Ok tt -> d = wires recs).
Proof.
  intros Hf Hfit. destruct (decide (recs = [])) as [->|Hne].
  { exists [], []. simpl. rewrite app_nil_r. split; [done|]. split; [by exists []|done]. }
  pose proof (AppendBatch_triple w recs c c Hfit Hne wd Hf) as T.
  destruct (AppendBatch w recs wd) as [[[]|e|] wd'] eqn:E; simpl in *.
  - destruct T as [T _]. by exists (wires recs), (wires recs).
  - destruct T as [k T]. exists (take k (wires recs)), []. rewrite app_nil_r.
    split; [done|]. split; [apply prefix_take|done].
  - destruct T as [k T]. exists (take k (wires recs)), []. rewrite app_nil_r.
    split; [done|]. split; [apply prefix_take|done].
Qed.

(** ... and after a loss of power. *)
Lemma AppendBatch_power_loss w limits recs c wd f' :
  fs wd !! wal_path w = Some (File c c) -> Forall (admissible limits) recs ->
  power_loss (fs (snd (AppendBatch w recs wd))) f' ->
  exists got rest tail, recs = got ++ rest /\
    (fst (AppendBatch w recs wd) = Ok tt -> rest = []) /\
    bytes_at f' (wal_path w) = Some (c ++ wires got ++ tail) /\ torn_tail limits tail /\
    (wires got ++ tail) `prefix_of` wires recs.
Proof.
  intros Hf Ha Hpl.
  assert (Hfit : Forall fits recs)
    by (eapply Forall_impl; [exact Ha|]; intros x (? & ? & _); by split).
  destruct (AppendBatch_file w recs c wd Hf Hfit) as (p & d & Hf1 & Hp & Hok).
  specialize (Hpl (wal_path w)). rewrite Hf1 in Hpl.
  destruct (f' !! wal_path w) as [[c2 d2]|] eqn:Hf2; [|done]. destruct Hpl as ([x Hp1] & Hp2 & _).
  simpl in *. subst c2. rewrite <- app_assoc in *. apply prefix_app_inv in Hp2.
  assert (Hpre : (d ++ x) `prefix_of` wires recs) by (by etrans).
  unfold bytes_at. rewrite Hf2. simpl.
  destruct (fst (AppendBatch w recs wd)) as [[]|e|] eqn:E.
  - specialize (Hok eq_refl). subst d.
    assert (x = []) as ->.
    { destruct Hpre as [y Hy]. apply (f_equal length) in Hy. rewrite !length_app in Hy.
      destruct x; [done|simpl in *; lia]. }
    exists recs, [], []. rewrite !app_nil_r. repeat split; try done. by left.
  - destruct (prefix_wires _ _ _ Ha Hpre) as (r1 & r2 & tail & Er & Ep & Ht).
    exists r1, r2, tail. by rewrite Ep in *.
  - destruct (prefix_wires _ _ _ Ha Hpre) as (r1 & r2 & tail & Er & Ep & Ht).
    exists r1, r2, tail. by rewrite Ep in *.
Qed.

(** The durability contract of a batch.  Start from a synced log of complete
    records, append a batch under any schedule of errors and crashes, then lose
    power: recovery finds every old record, in order, followed by a prefix of the
    batch; and the whole batch if the call had returned nil. *)
Theorem AppendBatch_durable {S} (g : S -> entry -> S) (s : S) w limits old recs wd f' :
  fs wd !! wal_path w = Some (File (wires old) (wires old)) ->
  Forall (admissible (WithDefaults limits)) (old ++ recs) ->
  zlen (wires (old ++ recs)) <= MaxFileSize (WithDefaults limits) ->
  power_loss (fs (snd (AppendBatch w recs wd))) f' ->
  exists got rest f'', recs = got ++ rest /\
    (fst (AppendBatch w recs wd) = Ok tt -> rest = []) /\
    ReplayFromWithRecovery (total_fn g) (wal_path w) limits 0 s (mkWorld f' []) =
      (Ok (fold_left g (old ++ got) s, zlen (wires (old ++ got)), None), mkWorld f'' []).
Proof.
  intros Hf Ha Hs Hpl. apply Forall_app in Ha as [Ha1 Ha2].
  destruct (AppendBatch_power_loss w _ recs _ wd f' Hf Ha2 Hpl) as (got & rest & tail & -> & Hok & Hb & Ht & Hp).
  apply Forall_app in Ha2 as [Ha2 _].
  destruct (replay_recovers g (wal_path w) limits [] (old ++ got) tail s f') as (f'' & Hr & _).
  - simpl. by rewrite wires_app, <- app_assoc.
  - by apply Forall_app.
  - done.
  - etrans; [|exact Hs]. apply prefix_length in Hp. rewrite (wires_app old), (wires_app old).
    simpl. rewrite <- app_assoc, !zlen_app. unfold zlen in *. rewrite length_app in Hp. lia.
  - exists got, rest, f''. done.
Qed.

(** * Truncation *)

Lemma tmp_path_ne w : tmp_path w <> wal_path w.
Proof.
  unfold tmp_path. intros H. apply (f_equal String.length) in H.
  rewrite string_app_length in H. simpl in H. lia.
Qed.

Section truncate.
Context (w : WAL) (c : bytes) (truncateAt : Z).
Context (Hat : 0 < truncateAt) (Hfile : wal_file w = true).
(** [before]: what is known of the file before, and stays true of it when it is synced. *)
Context (before : option file -> Prop).
Context (Hbytes : forall o, before o -> content <$> o = Some c).
Context (Hsynced : forall d, before (Some (File c d)) -> before (Some (File c c))).

Local Abbreviation path := (wal_path w).
Local Abbreviation tmp := (tmp_path w).

(** The log still holds everything. *)
Definition log_old (f : fsys) : Prop := about path before f.
(** The log holds the tail, synced. *)
Definition log_new (f : fsys) : Prop :=
  f !! path = Some (File (drop (Z.to_nat truncateAt) c) (drop (Z.to_nat truncateAt) c)).

Definition trunc_post (r : res (WAL * option error)) (f : fsys) : Prop :=
  (log_old f \/ log_new f) /\
  forall w', r = Ok (w', None) -> log_new f /\ w' = w.

Lemma log_old_bytes f : log_old f -> bytes_at f path = Some c.
Proof. apply Hbytes. Qed.

Lemma slice_app_step (data : bytes) off n size :
  0 <= off -> 0 <= n -> off + n <= size -> size <= zlen data ->
  slice data off (off + n) ++ slice data (off + n) size = slice data off size.
Proof.
  intros H1 H2 H3 H4. unfold slice, zlen in *.
  replace (Z.to_nat (off + n)) with (Z.to_nat off + Z.to_nat n)%nat by lia.
  rewrite <- drop_drop. replace (off + n - off) with n by lia.
  replace (Z.to_nat (size - off)) with (Z.to_nat n + Z.to_nat (size - (off + n)))%nat by lia.
  by rewrite take_take_drop.
Qed.

Lemma zlen_slice (data : bytes) a b : 0 <= a <= b -> b <= zlen data -> zlen (slice data a b) = b - a.
Proof.
  intros H1 H2. unfold slice, zlen in *. rewrite length_take, length_drop. lia.
Qed.

Lemma copy_loop_triple fuel off t dt (I : fsys -> Prop) :
  0 <= off <= zlen c -> (Z.to_nat (zlen c - off) <= fuel)%nat ->
  (forall bs, preserves I (fs_write tmp bs)) ->
  triple (fun f => f !! tmp = Some (File t dt) /\ I f) (copy_loop fuel c (zlen c) off tmp)
    (fun r f => I f /\ (r = Ok tt -> f !! tmp = Some (File (t ++ slice c off (zlen c)) dt))).
Proof.
  intros Hoff Hf HI. revert off t Hoff Hf. induction fuel as [|fuel IH]; intros off t Hoff Hf; simpl.
  - replace (off <? zlen c) with false by lia. apply triple_ret. intros f [Ht Hi]. split; [done|].
    intros _. rewrite Ht. unfold slice. replace (Z.to_nat (zlen c - off)) with 0%nat by lia.
    by rewrite take_0, app_nil_r.
  - destruct (off <? zlen c) eqn:E.
    2:{ apply triple_ret. intros f [Ht Hi]. split; [done|].
        intros _. rewrite Ht. unfold slice. replace (Z.to_nat (zlen c - off)) with 0%nat by lia.
        by rewrite take_0, app_nil_r. }
    set (n := if zlen c - off <? chunkSize then zlen c - off else chunkSize).
    assert (Hn : 0 < n <= zlen c - off).
    { unfold n, chunkSize. destruct (zlen c - off <? 64 * 1024) eqn:E2; lia. }
    rewrite zlen_slice by lia. replace (off + n - off) with n by lia.
    destruct (n =? 0) eqn:E3; [lia|].
    eapply triple_bind with (R := fun _ f => f !! tmp = Some (File (t ++ slice c off (off + n)) dt) /\ I f).
    + eapply triple_conseq; [apply triple_and; [apply (fs_write_triple _ _ t dt)|apply HI]|done|].
      intros [[]|e|] f [H1 H2]; [done|by split|by split].
    + intros []. eapply triple_conseq; [apply (IH (off + n) (t ++ slice c off (off + n))); lia|done|].
      intros r f [H1 H2]. split; [done|]. intros Hr. rewrite (H2 Hr), <- app_assoc.
      by rewrite slice_app_step by lia.
Qed.

Lemma log_old_other p m : p <> path -> preserves (about path m) (fs_open_trunc p) /\
  (forall bs, preserves (about path m) (fs_write p bs)) /\ preserves (about path m) (fs_sync p) /\
  preserves (about path m) (fs_remove p).
Proof. intros H. repeat split; intros; auto with iopres. Qed.

Lemma copyWalTail_triple : truncateAt <= zlen c ->
  triple log_old (copyWalTailLocked w truncateAt (zlen c) tmp)
    (fun r f => log_old f /\ (r = Ok tt ->
       f !! tmp = Some (File (drop (Z.to_nat truncateAt) c) (drop (Z.to_nat truncateAt) c)))).
Proof.
  intros Hle. pose proof (tmp_path_ne w) as Hne.
  destruct (log_old_other tmp before Hne) as (P1 & P2 & P3 & _).
  change log_old with (about path before).
  unfold copyWalTailLocked.
  eapply triple_bind with (R := fun _ f => f !! tmp = Some (File [] []) /\
                                           about path before f).
  { intros wd Hf. pose proof (P1 wd Hf) as H1.
    destruct (fs_open_trunc tmp wd) as [[[]|e|] wd'] eqn:Er; simpl in *; [|by split|by split].
    split; [|done]. unfold fs_open_trunc, prim in Er.
    destruct (faults wd) as [|[] ?]; simplify_eq/=; by rewrite lookup_insert_eq. }
  intros []. eapply triple_bind with (R := fun data f => data = c /\ f !! tmp = Some (File [] []) /\
                                           about path before f).
  { eapply triple_conseq; [apply (fs_read_triple path c (fun f => f !! tmp = Some (File [] []) /\
        about path before f))| |]; [by intros f [_ H]; apply log_old_bytes|done|].
    intros [bs|e|] f [[H1 H2] H3]; [|by split|by split]. split; [by apply H3|done]. }
  intros data. eapply triple_bind with (R := fun _ f => f !! tmp =
      Some (File (drop (Z.to_nat truncateAt) c) []) /\ about path before f).
  { intros wd (-> & Hf).
    pose proof (copy_loop_triple (Z.to_nat (zlen c - truncateAt)) truncateAt [] [] _
      ltac:(lia) ltac:(lia) P2 wd Hf) as T.
    destruct (copy_loop _ _ _ _ _ wd) as [[[]|e|] wd'] eqn:Er; simpl in *;
      [|by destruct T|by destruct T].
    destruct T as [T1 T2]. split; [|done]. rewrite (T2 eq_refl). do 2 f_equal.
    unfold slice. rewrite take_ge; [done|]. rewrite length_drop. unfold zlen. lia. }
  intros []. eapply triple_conseq; [apply triple_and; [apply (fs_sync_triple _ (drop (Z.to_nat truncateAt) c) [])|exact P3]|done|].
  intros [[]|e|] f [H1 H2]; split; done.
Qed.

Lemma reopenAppend_triple w0 (P : fsys -> Prop) :
  wal_path w0 = path -> wal_limits w0 = wal_limits w ->
  (forall f, P f -> is_Some (f !! path)) ->
  triple P (reopenAppend w0) (fun r f => P f /\ forall w', r = Ok (w', None) -> w' = w).
Proof.
  intros Hp Hl Hsome. unfold reopenAppend. eapply triple_bind with (R := fun _ => P).
  - apply triple_try, triple_prim.
    + intros f HP. rewrite Hp. destruct (Hsome f HP) as [fl Hfl]. rewrite Hfl. done.
    + intros f n e HP. by split.
  - intros [[]|e]; apply triple_ret; intros f HP; (split; [done|]); intros w' Hw; simplify_eq.
    rewrite Hp, Hl. destruct w. simpl in *. by subst.
Qed.

Lemma reopenEmpty_triple : zlen c <= truncateAt -> triple log_old (reopenEmptyLocked w) trunc_post.
Proof.
  intros Hle. unfold reopenEmptyLocked.
  assert (Hd : drop (Z.to_nat truncateAt) c = []) by (apply drop_ge; unfold zlen in *; lia).
  eapply triple_bind with (R := fun _ => log_old).
  { apply triple_try. eapply triple_conseq; [apply (preserves_close path log_old)|done|].
    intros [] f H; try done. split; [by left|done]. }
  intros [_|e]. 2:{ apply triple_ret. intros f H. split; [by left|done]. }
  eapply triple_bind with (R := fun r f => match r with inl _ => log_new f | inr _ => log_old f end).
  { apply triple_try, triple_prim; unfold no_effect.
    - intros f H. apply log_old_bytes, bytes_at_Some in H as [d H]. rewrite H. simpl.
      unfold log_new. rewrite lookup_alter_eq, H, Hd. done.
    - intros f n e H. split; [done|]. split; [by left|done]. }
  intros [_|e]. 2:{ apply triple_ret. intros f H. split; [by left|done]. }
  eapply triple_bind with (R := fun _ => log_new).
  { apply triple_try, triple_prim; unfold no_effect.
    - intros f H. by rewrite H.
    - intros f n e H. split; [done|]. split; [by right|done]. }
  intros [_|e]; apply triple_ret; intros f H; (split; [by right|]); intros w' Hw; simplify_eq.
  split; [done|]. destruct w. simpl in *. by subst.
Qed.

Lemma old_remove_tmp : preserves log_old (fs_remove tmp).
Proof.
  change log_old with (about path before).
  apply about_remove, tmp_path_ne.
Qed.

Lemma old_done (w0 : WAL) e : triple log_old (io_ret (w0, Some e)) trunc_post.
Proof. apply triple_ret. intros f H. split; [by left|done]. Qed.

(** The steps behind the copy: close, rename over the log, reopen. *)
Lemma install_triple :
  triple (fun f => log_old f /\
            f !! tmp = Some (File (drop (Z.to_nat truncateAt) c) (drop (Z.to_nat truncateAt) c)))
    (let! renamed := try (fs_rename tmp path) in
     match renamed with
     | inr e =>
         ignore (fs_remove tmp) ;;!
         let! (w1, reopenErr) := reopenAppend (closed_wal w) in
         match reopenErr with
         | Some e' => io_ret (w1, Some (joined e e'))
         | None => io_ret (w1, Some e)
         end
     | inl _ => reopenAppend (closed_wal w)
     end) trunc_post.
Proof.
  eapply triple_bind with (R := fun r f => match r with inl _ => log_new f | inr _ => log_old f end).
  { apply triple_try, triple_prim; unfold no_effect.
    - intros f [H1 H2]. rewrite H2. simpl. unfold log_new. by rewrite lookup_insert_eq.
    - intros f n e [H1 H2]. split; [done|]. split; [by left|done]. }
  intros [_|e].
  - eapply triple_conseq; [apply (reopenAppend_triple (closed_wal w) log_new)|done|]; try done.
    intros r f [H1 H2]. split; [by right|]. intros w' Hr. split; [done|by apply H2].
  - eapply triple_bind with (R := fun _ => log_old).
    { apply triple_ignore. eapply triple_conseq; [apply old_remove_tmp|done|].
      intros [] f H; try done. split; [by left|done]. }
    intros _. eapply triple_bind with (R := fun _ => log_old).
    { eapply triple_conseq; [apply (reopenAppend_triple (closed_wal w) log_old)|done|]; try done.
      { intros f H. apply log_old_bytes, bytes_at_Some in H as [d H]. by eexists. }
      intros [] f [H1 H2]; try done; (split; [by left|done]). }
    intros [w1 [e'|]]; apply old_done.
Qed.

Lemma TruncateBefore_triple : triple log_old (TruncateBefore w truncateAt) trunc_post.
Proof.
  unfold TruncateBefore. replace (truncateAt <=? 0) with false by lia.
  unfold on_file. rewrite Hfile.
  eapply triple_bind with (R := fun _ => log_old).
  { apply triple_try, triple_prim; unfold no_effect.
    - intros f Hold. pose proof Hold as H. apply log_old_bytes, bytes_at_Some in H as [d H]. rewrite H. simpl.
      unfold log_old, about in *. rewrite lookup_alter_eq, H. rewrite H in Hold. by apply (Hsynced d).
    - intros f n e H. split; [done|]. split; [by left|done]. }
  intros [_|e]; [|apply old_done].
  eapply triple_bind with (R := fun r f => log_old f /\ forall n, r = inl n -> n = zlen c).
  { apply triple_try. eapply triple_conseq; [apply (fs_size_triple path c log_old)|done|]; [apply log_old_bytes|].
    intros [] f [H1 H2]; [split; [done|naive_solver]|done|split; [by left|done]]. }
  intros [size|e]; [|intros wd [H _]; by apply (old_done w e wd)].
  intros wd [Hold Hsz]. rewrite (Hsz _ eq_refl). clear size Hsz. revert wd Hold.
  destruct (zlen c <=? truncateAt) eqn:E; [apply reopenEmpty_triple; lia|].
  eapply triple_bind with (R := fun r f => log_old f /\ (r = inl tt ->
    f !! tmp = Some (File (drop (Z.to_nat truncateAt) c) (drop (Z.to_nat truncateAt) c)))).
  { apply triple_try. eapply triple_conseq; [apply copyWalTail_triple; lia|done|].
    intros [[]|e|] f [H1 H2]; [split; [done|by intros; apply H2]|done|split; [by left|done]]. }
  intros [[]|e].
  2:{ eapply triple_bind with (R := fun _ => log_old); [|intros _; apply old_done].
      apply triple_ignore. eapply triple_conseq; [apply old_remove_tmp|by intros f [? _]|].
      intros [] f H; try done. split; [by left|done]. }
  eapply triple_bind with (R := fun _ f => log_old f /\
    f !! tmp = Some (File (drop (Z.to_nat truncateAt) c) (drop (Z.to_nat truncateAt) c))).
  { apply triple_try. eapply triple_conseq; [apply preserves_close| |].
    - intros f [H1 H2]. exact (conj H1 (H2 eq_refl)).
    - intros [] f [H1 H2]; try done. split; [by left|done]. }
  intros [_|e]; [apply install_triple|].
  eapply triple_bind with (R := fun _ => log_old).
  { apply triple_ignore. eapply triple_conseq; [apply old_remove_tmp|by intros f [? _]|].
    intros [] f H; try done. split; [by left|done]. }
  intros _. unfold reopenAppendAfterTruncateErr.
  eapply triple_bind with (R := fun _ => log_old).
  { eapply triple_conseq; [apply (reopenAppend_triple (closed_wal w) log_old)|done|]; try done.
    { intros f H. apply log_old_bytes, bytes_at_Some in H as [d H]. by eexists. }
    intros [] f [H1 H2]; try done; (split; [by left|done]). }
  intros [w1 [e'|]]; apply old_done.
Qed.

End truncate.

(** Truncation touches the log and its temporary file only. *)
Lemma copy_loop_other fuel : forall data size off tmp q Q, tmp <> q ->
  preserves (about q Q) (copy_loop fuel data size off tmp).
Proof. induction fuel as [|fuel IH]; intros; cbn [copy_loop]; io_pres. Qed.

Lemma TruncateBefore_touches w n : touches (fun q => q = wal_path w \/ q = tmp_path w) (TruncateBefore w n).
Proof.
  intros q Q Hq. assert (wal_path w <> q /\ tmp_path w <> q) as [H1 H2] by (split; intros E; apply Hq; subst; tauto).
  unfold TruncateBefore, reopenEmptyLocked, copyWalTailLocked, reopenAppendAfterTruncateErr, reopenAppend, on_file.
  pose proof copy_loop_other. io_pres.
Qed.

Lemma copy_loop_steady fuel : forall data size off tmp, steady (copy_loop fuel data size off tmp).
Proof. induction fuel as [|fuel IH]; intros; cbn [copy_loop]; io_steady. Qed.

Lemma TruncateBefore_steady w n : steady (TruncateBefore w n).
Proof.
  pose proof copy_loop_steady.
  unfold TruncateBefore, reopenEmptyLocked, copyWalTailLocked, reopenAppendAfterTruncateErr, reopenAppend, on_file.
  io_steady.
Qed.

(** C17: Truncation is atomic.  Under every schedule of errors and crashes the log is
    afterwards either untouched or exactly its tail, and it is the tail, synced,
    when the call reports success. *)
Theorem TruncateBefore_atomic w c truncateAt wd :
  0 < truncateAt -> wal_file w = true -> bytes_at (fs wd) (wal_path w) = Some c ->
  let '(r, wd') := TruncateBefore w truncateAt wd in
  (bytes_at (fs wd') (wal_path w) = Some c \/
   bytes_at (fs wd') (wal_path w) = Some (drop (Z.to_nat truncateAt) c)) /\
  (forall w', r = Ok (w', None) -> w' = w /\
     fs wd' !! wal_path w = Some (File (drop (Z.to_nat truncateAt) c) (drop (Z.to_nat truncateAt) c))).
Proof.
  intros Hat Hfile Hold. pose proof (TruncateBefore_triple w c truncateAt Hat Hfile (fun o => content <$> o = Some c)
    (fun _ H => H) (fun _ H => H) wd Hold) as T.
  destruct (TruncateBefore w truncateAt wd) as [r wd']. simpl in T. destruct T as [T1 T2]. split.
  - destruct T1 as [T1|T1]; [by left|right]. unfold bytes_at. by rewrite T1.
  - intros w' Hr. by destruct (T2 w' Hr).
Qed.

(** ** Truncation without faults *)

Lemma copy_loop_quiet c fuel : forall tmp off t dt f, f !! tmp = Some (File t dt) ->
  0 <= off <= zlen c -> (Z.to_nat (zlen c - off) <= fuel)%nat ->
  exists f', copy_loop fuel c (zlen c) off tmp (mkWorld f []) = (Ok tt, mkWorld f' []) /\
    f' !! tmp = Some (File (t ++ slice c off (zlen c)) dt) /\ (forall q, q <> tmp -> f' !! q = f !! q).
Proof.
  induction fuel as [|fuel IH]; intros tmp off t dt f Hf Hoff Hfuel; cbn [copy_loop].
  - destruct (Z.ltb_spec off (zlen c)); [lia|]. exists f. split; [done|].
    replace off with (zlen c) by lia. unfold slice. rewrite Z.sub_diag. cbn. by rewrite take_0, app_nil_r.
  - destruct (Z.ltb_spec off (zlen c)) as [Hlt|Hge].
    2:{ exists f. split; [done|]. replace off with (zlen c) by lia. unfold slice. rewrite Z.sub_diag. cbn.
        by rewrite take_0, app_nil_r. }
    set (n := if zlen c - off <? chunkSize then zlen c - off else chunkSize).
    assert (Hn : 0 < n /\ off + n <= zlen c).
    { unfold n, chunkSize. destruct (Z.ltb_spec (zlen c - off) (64 * 1024)); lia. }
    assert (Hz : zlen (slice c off (off + n)) = n) by (rewrite zlen_slice by lia; lia).
    rewrite Hz. destruct (Z.eqb_spec n 0); [lia|].
    rewrite (io_bind_ok _ _ _ _ _ (fs_write_quiet _ _ _ _ Hf (slice c off (off + n)))).
    destruct (IH tmp (off + n) (t ++ slice c off (off + n)) dt
      (<[tmp := File (t ++ slice c off (off + n)) dt]> f)) as (f' & Hr & Hf' & Hq);
      [by rewrite lookup_insert_eq|lia|lia|].
    exists f'. split; [done|]. rewrite <- app_assoc, slice_app_step in Hf' by lia. split; [done|].
    intros q Hne. rewrite Hq by done. by rewrite lookup_insert_ne.
Qed.

(** Without faults the log loses exactly the first [truncateAt] bytes. *)
Lemma TruncateBefore_quiet w c truncateAt f : wal_file w = true -> f !! wal_path w = Some (File c c) ->
  truncateAt <= zlen c ->
  exists f', TruncateBefore w truncateAt (mkWorld f []) = (Ok (w, None), mkWorld f' []) /\
    f' !! wal_path w = Some (File (drop (Z.to_nat truncateAt) c) (drop (Z.to_nat truncateAt) c)) /\
    (forall q, q <> wal_path w -> q <> tmp_path w -> f' !! q = f !! q).
Proof.
  intros Hw Hf Hle. pose proof (tmp_path_ne w) as Hne. unfold TruncateBefore.
  assert (Hsame : mkWAL (wal_path w) true (wal_limits w) = w) by (destruct w; cbn in *; by subst).
  destruct (Z.leb_spec truncateAt 0) as [H0|H0].
  { exists f. replace (Z.to_nat truncateAt) with 0%nat by lia. by rewrite drop_0. }
  unfold on_file. rewrite Hw, (bind_try_ok _ _ _ _ _ (fs_sync_quiet _ _ _ _ Hf)).
  rewrite insert_id by done. rewrite (bind_try_ok _ _ _ _ _ (fs_size_quiet _ _ _ _ Hf)).
  destruct (Z.leb_spec (zlen c) truncateAt) as [Hs|Hs].
  - assert (Hd : drop (Z.to_nat truncateAt) c = []) by (apply drop_ge; unfold zlen in *; lia). rewrite Hd.
    exists (<[wal_path w := File [] []]> f). split.
    + unfold reopenEmptyLocked, fs_truncate, fs_open_create, io_bind, try. rewrite fs_close_quiet. io_cbn.
      rewrite Hf. io_cbn. rewrite (alter_as_insert _ _ _ _ Hf). io_cbn. rewrite lookup_insert_eq. io_cbn.
      by rewrite Hsame.
    + split; [by rewrite lookup_insert_eq|]. intros q H1 _. by rewrite lookup_insert_ne.
  - set (tail := drop (Z.to_nat truncateAt) c).
    destruct (copy_loop_quiet c (Z.to_nat (zlen c - truncateAt)) (tmp_path w) truncateAt [] []
      (<[tmp_path w := File [] []]> f)) as (f1 & Hc & Hf1 & Hq1); [by rewrite lookup_insert_eq|lia|done|].
    assert (Hsl : slice c truncateAt (zlen c) = tail).
    { unfold slice, tail. apply take_ge. rewrite length_drop. unfold zlen in *. lia. }
    rewrite Hsl in Hf1. cbn [app] in Hf1.
    assert (Hcopy : copyWalTailLocked w truncateAt (zlen c) (tmp_path w) (mkWorld f []) =
      (Ok tt, mkWorld (<[tmp_path w := File tail tail]> f1) [])).
    { unfold copyWalTailLocked. rewrite (io_bind_ok _ _ _ _ _ (fs_open_trunc_quiet f _)).
      rewrite (io_bind_ok _ _ _ _ _ (fs_read_quiet (<[tmp_path w := File [] []]> f) (wal_path w) c c
        ltac:(by rewrite lookup_insert_ne))).
      rewrite (io_bind_ok _ _ _ _ _ Hc). by apply fs_sync_quiet with (d := []). }
    rewrite (bind_try_ok _ _ _ _ _ Hcopy). rewrite (bind_try_ok _ _ _ _ _ (fs_close_quiet _ _)).
    rewrite (bind_try_ok _ _ _ _ _ (fs_rename_quiet _ (tmp_path w) tail tail (lookup_insert_eq _ _ _) (wal_path w))).
    eexists. split.
    + unfold reopenAppend, fs_open_create, io_bind, try. io_cbn. cbn [wal_path closed_wal].
      rewrite lookup_insert_eq. io_cbn. cbn [wal_limits closed_wal]. by rewrite Hsame.
    + split; [by rewrite lookup_insert_eq|]. intros q H1 H2.
      rewrite lookup_insert_ne, lookup_delete_ne, lookup_insert_ne, Hq1, lookup_insert_ne by congruence. done.
Qed.

(** The log can outgrow what replay accepts: appending never looks at
    [MaxFileSize], while replay refuses a larger file whatever it holds. *)
Theorem replay_refuses_large {S} (fn : S -> entry -> S * option error) path limits start s f c :
  bytes_at f path = Some c -> MaxFileSize (WithDefaults limits) < zlen c ->
  ReplayFromWithRecovery fn path limits start s (mkWorld f []) =
    (Ok (s, 0, Some ErrWALTooLarge), mkWorld f []).
Proof.
  intros [d Hf]%bytes_at_Some Hs. unfold ReplayFromWithRecovery, fs_open, fs_size. io_cbn.
  unfold io_bind, try. io_cbn. rewrite Hf. io_cbn. rewrite ?Hf. io_cbn.
  by replace (_ <? zlen c) with true by lia.
Qed.

(** ** One record *)

(** C18: The wire format of a log record is a round trip with a torn-write
    detector: decoding the encoding of an admissible record gives it back with its
    length and the rest of the input, and decoding any proper non-empty prefix
    reports an unexpected end, never a wrong record. *)
Theorem record_roundtrip_or_torn limits r rest m : admissible limits r ->
  encodeRecord r limits = Ok (wire r) /\
  readOneRecord limits (wire r ++ rest) = Ok (r, zlen (wire r), rest) /\
  ((0 < m < length (wire r))%nat -> readOneRecord limits (take m (wire r)) = Err io_ErrUnexpectedEOF).
Proof.
  intros H. split; [by apply encodeRecord_wire|]. split; [by apply readOneRecord_wire|].
  by apply readOneRecord_torn.
Qed.

Definition demo_rec : entry := Entry [x6b] [x76; x77] false.
Definition demo_rec2 : entry := Entry [x6c] [] true.
Definition demo_limits : ReplayLimits := mkLimits 0 0 0 0.

Lemma record_roundtrip_or_torn_witness :
  readOneRecord DefaultReplayLimits (wire demo_rec ++ [x01]) = Ok (demo_rec, zlen (wire demo_rec), [x01]).
Proof. apply (record_roundtrip_or_torn DefaultReplayLimits demo_rec [x01] 0). vm_compute. intuition congruence. Defined.

(** A log of one synced record. *)
Definition demo_wal : WAL := mkWAL "w" true DefaultReplayLimits.
Definition demo_fs : fsys := {[ "w"%string := File (wires [demo_rec]) (wires [demo_rec]) ]}.
Definition demo_torn : fsys :=
  {[ "w"%string := File (wires [demo_rec] ++ take 9 (wire demo_rec2)) (wires [demo_rec]) ]}.

Lemma AppendBatch_durable_witness : exists got rest f'', [demo_rec2] = got ++ rest /\ rest = [] /\
  ReplayFromWithRecovery (total_fn (fun l r => l ++ [r])) "w" demo_limits 0 []
    (mkWorld (fs (snd (AppendBatch demo_wal [demo_rec2] (mkWorld demo_fs [])))) []) =
    (Ok ([demo_rec] ++ got, zlen (wires ([demo_rec] ++ got)), None), mkWorld f'' []).
Proof.
  destruct (AppendBatch_durable (fun l r => l ++ [r]) [] demo_wal demo_limits [demo_rec] [demo_rec2]
    (mkWorld demo_fs []) (fs (snd (AppendBatch demo_wal [demo_rec2] (mkWorld demo_fs [])))))
    as (got & rest & f'' & H1 & H2 & H3).
  - vm_compute. reflexivity.
  - by_decide.
  - vm_compute. congruence.
  - apply power_loss_self. by_decide.
  - exists got, rest, f''. split; [exact H1|]. assert (rest = []) as -> by (apply H2; vm_compute; reflexivity).
    split; [reflexivity|]. rewrite app_nil_r in H1. subst got. exact H3.
Defined.

Lemma replay_idempotent_witness : exists f1,
  ReplayFromWithRecovery (total_fn (fun l r => l ++ [r])) "w" demo_limits 0 [] (mkWorld demo_torn []) =
    (Ok ([demo_rec], zlen (wire demo_rec), None), mkWorld f1 []) /\
  ReplayFromWithRecovery (total_fn (fun l r => l ++ [r])) "w" demo_limits 0 [] (mkWorld f1 []) =
    (Ok ([demo_rec], zlen (wire demo_rec), None), mkWorld f1 []).
Proof.
  eexists. split; [vm_compute; reflexivity|].
  apply (replay_idempotent (fun l r => l ++ [r]) "w"%string demo_limits 0 [] demo_torn);
    [vm_compute; congruence|vm_compute; reflexivity].
Defined.

Lemma TruncateBefore_atomic_witness :
  let '(r, wd') := TruncateBefore demo_wal 3 (mkWorld demo_fs [NoFault; NoFault; Fail (os_error 28) 1]) in
  bytes_at (fs wd') "w" = Some (wires [demo_rec]) \/
  bytes_at (fs wd') "w" = Some (drop 3 (wires [demo_rec])).
Proof.
  pose proof (TruncateBefore_atomic demo_wal (wires [demo_rec]) 3
    (mkWorld demo_fs [NoFault; NoFault; Fail (os_error 28) 1]) eq_refl eq_refl eq_refl) as H.
  destruct (TruncateBefore demo_wal 3 _) as [r wd']. apply H.
Defined.

Lemma replay_refuses_large_witness :
  ReplayFromWithRecovery (total_fn (fun l r => l ++ [r])) "w" (mkLimits 8 0 0 0) 0 [] (mkWorld demo_fs []) =
    (Ok ([], 0, Some ErrWALTooLarge), mkWorld demo_fs []).
Proof.
  apply (replay_refuses_large (total_fn (fun l r => l ++ [r])) "w"%string (mkLimits 8 0 0 0) 0 [] demo_fs
    (wires [demo_rec])); vm_compute; reflexivity.
Defined.

(** One flipped bit in the first of two synced records. *)
Definition demo_flipped : fsys :=
  let c := wires [demo_rec; demo_rec2] in
  {[ "w"%string := File (<[4%nat := x6a]> c) (<[4%nat := x6a]> c) ]}.

(** Replay cannot tell damage from a torn write: a flipped bit in a record that
    others follow ends the replay without an error, and the valid, synced records
    behind it are cut off the file. *)
Theorem replay_drops_behind_damage :
  ReplayFromWithRecovery (total_fn (fun l r => l ++ [r])) "w" demo_limits 0 [] (mkWorld demo_flipped []) =
    (Ok ([], 0, None), mkWorld {[ "w"%string := File [] [] ]} []) /\
  readOneRecord DefaultReplayLimits (drop (length (wire demo_rec)) (wires [demo_rec; demo_rec2])) =
    Ok (demo_rec2, zlen (wire demo_rec2), []).
Proof. split; vm_compute; reflexivity. Qed.

End Wal.
