(* ===== verification/Manifest.v ===== *)
(** The manifest (internal/manifest): an append-only log of edits to the set of
    live SSTable ids, named by the file CURRENT.

    [Log] is the in-memory side: the name of the manifest file, whether the
    handle is usable, the live set and the number of records.  Paths are names in
    the database directory.  A Go panic, like any other end of the process, is
    the outcome [Crashed]. *)

From Stdlib Require Import ZArith Lia Ascii.
From S2P Require Import Prelude Word Fs GoStr Wal.

Module Manifest.

(** * Record format (format.go) *)

Definition tagNewFile : byte := x01.
Definition tagDeleteFile : byte := x02.
Definition tagSetFileSet : byte := x03.

Definition encodeRecord (payload : bytes) : bytes :=
  let checksum := crc32_ieee payload in
  let recordLen := u32 (zlen payload + 4) in
  put_u32 recordLen ++ put_u32 checksum ++ payload.

Definition new_file_payload (sstID : Z) : bytes := tagNewFile :: put_u64 sstID.

Definition encodeNewFile (sstID : Z) : bytes := encodeRecord (new_file_payload sstID).

Definition set_file_payload (ids : list Z) : bytes :=
  tagSetFileSet :: put_u32 (u32 (zlen ids)) ++ concat (put_u64 <$> ids).

Definition encodeSetFileSet (ids : list Z) : bytes := encodeRecord (set_file_payload ids).

(** [total] is computed in 32 bits; a slice expression whose bounds cross ends
    the process. *)
Definition decodeRecord (data : bytes) : res bytes :=
  if zlen data <? 8 then Err io_ErrUnexpectedEOF else
  let recordLen := get_u32 data in
  if recordLen <? 4 then Err io_ErrUnexpectedEOF else
  let total := u32 (4 + recordLen) in
  if zlen data <? total then Err io_ErrUnexpectedEOF else
  let checksum := get_u32 (drop 4 data) in
  if total <? 8 then Crashed else
  let payload := slice data 8 total in
  if negb (crc32_ieee payload =? checksum) then Err io_ErrUnexpectedEOF else Ok payload.

(** [for i := uint32(0); i < count; i++ { id := payload[5+i*8 : 5+(i+1)*8] }] *)
Fixpoint read_ids (count : nat) (data : bytes) : list Z :=
  match count with
  | O => []
  | S count' => get_u64 data :: read_ids count' (drop 8 data)
  end.

Definition applyEdit (liveSet : gset Z) (payload : bytes) : res (gset Z) :=
  match payload with
  | [] => Err io_ErrUnexpectedEOF
  | tag :: rest =>
      if decide (tag = tagNewFile) then
        if zlen payload <? 9 then Err io_ErrUnexpectedEOF
        else Ok ({[get_u64 rest]} ∪ liveSet)
      else if decide (tag = tagDeleteFile) then
        if zlen payload <? 9 then Err io_ErrUnexpectedEOF
        else Ok (liveSet ∖ {[get_u64 rest]})
      else if decide (tag = tagSetFileSet) then
        if zlen payload <? 5 then Err io_ErrUnexpectedEOF else
        let count := get_u32 rest in
        let need := 5 + count * 8 in
        if zlen payload <? need then Err io_ErrUnexpectedEOF
        else Ok (list_to_set (read_ids (Z.to_nat count) (drop 4 rest)))
      else Err io_ErrUnexpectedEOF
  end.

(** * The log (manifest.go) *)

Definition currentFileName : string := "CURRENT".
Definition manifestPrefix : string := "MANIFEST-".
Definition initialManifest : string := "MANIFEST-000001".
Definition compactRecordThreshold : Z := 64.
Definition compactSizeThreshold : Z := Z.shiftl 64 10.

Record Log := mkLog {
  path : string;
  file : bool;
  liveSet : gset Z;
  recordCount : Z
}.

Definition on_file {A} (l : Log) (m : io A) : io A :=
  if file l then m else io_err os_ErrClosed.

Definition readCurrentManifest : io string :=
  let! r := try (fs_read currentFileName) in
  match r with
  | inr os_ErrNotExist => io_ret ""%string
  | inr e => io_err e
  | inl data => io_ret (GoStr.TrimSpace (String.string_of_list_byte data))
  end.

(** [if err := m; err != nil { f.Close(); os.Remove(p); return err }] *)
Definition or_remove {A} (m : io A) (p : string) : io A :=
  let! r := try m in
  match r with
  | inr e => ignore (fs_remove p) ;;! io_err e
  | inl a => io_ret a
  end.

Definition current_tmp : string := "CURRENT.tmp".

Definition line (s : string) : bytes :=
  String.list_byte_of_string (String.append s (String "010"%char ""%string)).

Definition writeCurrent (manifestFile : string) : io unit :=
  fs_open_trunc current_tmp ;;!
  or_remove (fs_write current_tmp (line manifestFile)) current_tmp ;;!
  or_remove (fs_sync current_tmp) current_tmp ;;!
  or_remove (fs_close current_tmp) current_tmp ;;!
  fs_rename current_tmp currentFileName.

(** [truncateTo]; the new handle replaces the old one. *)
Definition truncateTo (l : Log) (validEnd : Z) : io unit :=
  fs_sync (path l) ;;!
  let! size := fs_size (path l) in
  if size <=? validEnd then io_ret tt else
  fs_close (path l) ;;!
  fs_truncate (path l) validEnd ;;!
  fs_open_create (path l).

Definition salvageManifestTail (l : Log) (validEnd : Z) (cause : error) : io unit :=
  match cause with
  | io_EOF | io_ErrUnexpectedEOF => truncateTo l validEnd
  | _ => io_err cause
  end.

(** How the replay loop ends: at the end of the file, at a bad tail with its
    cause, or with an error that is returned. *)
Inductive replay_end :=
| AtEOF
| BadTail (cause : error)
| Failed (e : error)
| Panicked
| OutOfFuel.

Fixpoint replay_loop (fuel : nat) (f : bytes) (validEnd : Z) (live : gset Z) (count : Z)
  : gset Z * Z * Z * replay_end :=
  match fuel with
  | O => (live, count, validEnd, OutOfFuel)
  | S fuel' =>
      match Wal.read_full 4 f with
      | Err io_EOF => (live, count, validEnd, AtEOF)
      | Err e => (live, count, validEnd, BadTail e)
      | Crashed => (live, count, validEnd, Panicked)
      | Ok (header, f1) =>
          let recordLen := be_get header in
          if recordLen <? 4 then (live, count, validEnd, BadTail io_ErrUnexpectedEOF) else
          match Wal.read_full recordLen f1 with
          | Err e => (live, count, validEnd, BadTail e)
          | Crashed => (live, count, validEnd, Panicked)
          | Ok (rest, f2) =>
              let record := header ++ rest in
              match decodeRecord record with
              | Err e => (live, count, validEnd, BadTail e)
              | Crashed => (live, count, validEnd, Panicked)
              | Ok payload =>
                  match applyEdit live payload with
                  | Err e => (live, count, validEnd, Failed e)
                  | Crashed => (live, count, validEnd, Panicked)
                  | Ok live' => replay_loop fuel' f2 (validEnd + zlen record) live' (count + 1)
                  end
              end
          end
      end
  end.

Definition replay (l : Log) : io Log :=
  let! data := fs_read (path l) in
  match replay_loop (S (length data)) data 0 (liveSet l) (recordCount l) with
  | (live, count, validEnd, AtEOF) =>
      let l' := mkLog (path l) (file l) live count in
      if validEnd <? zlen data then truncateTo l' validEnd ;;! io_ret l' else io_ret l'
  | (live, count, validEnd, BadTail cause) =>
      let l' := mkLog (path l) (file l) live count in
      salvageManifestTail l' validEnd cause ;;! io_ret l'
  | (_, _, _, Failed e) => io_err e
  | (_, _, _, Panicked) => io_res Crashed
  | (_, _, _, OutOfFuel) => io_err (os_error 0)
  end.

(** [os.MkdirAll] of the directory that exists. *)
Definition mkdir : io unit := prim no_effect (fun f => (Ok tt, f)).

Definition Open : io Log :=
  mkdir ;;!
  let! current := readCurrentManifest in
  let! manifestFile :=
    (if decide (current = ""%string)
     then writeCurrent initialManifest ;;! io_ret initialManifest
     else io_ret current) in
  fs_open_create manifestFile ;;!
  let l := mkLog manifestFile true ∅ 0 in
  let! r := try (replay l) in
  match r with
  | inr e => ignore (fs_close manifestFile) ;;! io_err e
  | inl l' => io_ret l'
  end.

Definition sort_ids (ids : list Z) : list Z := merge_sort Z.le ids.

Definition LiveIDs (l : Log) : list Z := sort_ids (elements (liveSet l)).

Definition Contains (l : Log) (id : Z) : bool := bool_decide (id ∈ liveSet l).

(** [append(record, apply)]: the log after the call and the error of the call. *)
Definition append (l : Log) (record : bytes) (apply : gset Z -> gset Z) : io (Log * option error) :=
  let! r := try (on_file l (fs_write (path l) record ;;! fs_sync (path l))) in
  match r with
  | inr e => io_ret (l, Some e)
  | inl _ => io_ret (mkLog (path l) (file l) (apply (liveSet l)) (recordCount l + 1), None)
  end.

Definition AppendNewFile (l : Log) (sstID : Z) : io (Log * option error) :=
  append l (encodeNewFile sstID) (fun live => {[sstID]} ∪ live).

Definition AppendSetFileSet (l : Log) (ids : list Z) : io (Log * option error) :=
  let sorted := sort_ids ids in
  append l (encodeSetFileSet sorted) (fun _ => list_to_set sorted).

Definition BootstrapIfEmpty (l : Log) (ids : list Z) : io (Log * option error) :=
  let empty := bool_decide (liveSet l = ∅) in
  if negb empty || (zlen ids =? 0) then io_ret (l, None) else AppendSetFileSet l ids.

Definition compactionNeededLocked (l : Log) : io bool :=
  if compactRecordThreshold <=? recordCount l then io_ret true else
  let! r := try (on_file l (fs_size (path l))) in
  match r with
  | inr _ => io_ret false
  | inl size => io_ret (compactSizeThreshold <=? size)
  end.

Definition liveIDsLocked (l : Log) : list Z := sort_ids (elements (liveSet l)).

Definition nextManifestName (current : string) : string :=
  match GoStr.strip_prefix manifestPrefix current with
  | None => initialManifest
  | Some numStr =>
      match GoStr.ParseUint numStr with
      | None => initialManifest
      | Some n => if n =? 0 then initialManifest
                  else String.append manifestPrefix (GoStr.format_padded 6 (u64 (n + 1)))
      end
  end.

(** [rotateSnapshotLocked]: the log after the call and the error of the call. *)
Definition rotateSnapshotLocked (l : Log) : io (Log * option error) :=
  let oldPath := path l in
  let ids := liveIDsLocked l in
  let newPath := nextManifestName oldPath in
  let record := encodeSetFileSet ids in
  let! written := try (
    fs_open_trunc newPath ;;!
    or_remove (fs_write newPath record) newPath ;;!
    or_remove (fs_sync newPath) newPath ;;!
    or_remove (fs_close newPath) newPath ;;!
    or_remove (writeCurrent newPath) newPath) in
  match written with
  | inr e => io_ret (l, Some e)
  | inl _ =>
      (if file l then ignore (fs_close oldPath) else io_ret tt) ;;!
      let! opened := try (fs_open newPath) in
      match opened with
      | inr e => io_ret (mkLog oldPath false (liveSet l) (recordCount l), Some e)
      | inl _ =>
          let l' := mkLog newPath true (liveSet l) 1 in
          (if decide (oldPath = newPath) then io_ret tt else ignore (fs_remove oldPath)) ;;!
          io_ret (l', None)
      end
  end.

Definition MaybeCompact (l : Log) : io (Log * option error) :=
  let! needed := compactionNeededLocked l in
  if needed then rotateSnapshotLocked l else io_ret (l, None).

Definition Close (l : Log) : io (Log * option error) :=
  if file l then
    let! r := try (fs_close (path l)) in
    let l' := mkLog (path l) false (liveSet l) (recordCount l) in
    match r with inr e => io_ret (l', Some e) | inl _ => io_ret (l', None) end
  else io_ret (l, None).

(** [ReplayFile]: the strict reader used by tests. *)
Fixpoint replay_file_loop (fuel : nat) (data : bytes) (live : gset Z) : res (gset Z) :=
  match fuel with
  | O => Err (os_error 0)
  | S fuel' =>
      if zlen data =? 0 then Ok live
      else if zlen data <? 4 then Err io_ErrUnexpectedEOF else
      let total := u32 (4 + get_u32 data) in
      if zlen data <? total then Err io_ErrUnexpectedEOF else
      let? payload := decodeRecord (take (Z.to_nat total) data) in
      let? live' := applyEdit live payload in
      replay_file_loop fuel' (drop (Z.to_nat total) data) live'
  end.

Definition ReplayFile (p : string) : io (list Z) :=
  let! data := fs_read p in
  let! live := io_res (replay_file_loop (S (length data)) data ∅) in
  io_ret (sort_ids (elements live)).

(** * Edits and what replay makes of them *)

(** The edits the log writes. *)
Inductive edit := NewFile (id : Z) | SetFileSet (ids : list Z).

Definition edit_payload (e : edit) : bytes :=
  match e with NewFile id => new_file_payload id | SetFileSet ids => set_file_payload ids end.

Definition edit_record (e : edit) : bytes := encodeRecord (edit_payload e).

Definition edit_live (live : gset Z) (e : edit) : gset Z :=
  match e with NewFile id => {[id]} ∪ live | SetFileSet ids => list_to_set ids end.

Definition edit_ok (e : edit) : Prop :=
  match e with
  | NewFile id => is_u64 id
  | SetFileSet ids => Forall is_u64 ids /\ zlen ids < 2 ^ 28
  end.

#[export] Instance edit_ok_dec e : Decision (edit_ok e).
Proof. destruct e; unfold edit_ok, is_u64; apply _. Defined.

Definition records (es : list edit) : bytes := concat (edit_record <$> es).

Definition live_of (es : list edit) : gset Z := fold_left edit_live es ∅.

Lemma records_app es1 es2 : records (es1 ++ es2) = records es1 ++ records es2.
Proof. unfold records. by rewrite fmap_app, concat_app. Qed.

Lemma live_of_snoc es e : live_of (es ++ [e]) = edit_live (live_of es) e.
Proof. unfold live_of. by rewrite fold_left_app. Qed.

Lemma zlen_concat_u64 ids : zlen (concat (put_u64 <$> ids)) = 8 * zlen ids.
Proof.
  induction ids as [|id ids IH]; [done|]. rewrite fmap_cons. cbn [concat].
  rewrite zlen_app, zlen_put_u64, IH. unfold zlen. simpl length. lia.
Qed.

Lemma edit_payload_bounds e : edit_ok e -> 1 <= zlen (edit_payload e) /\ zlen (edit_payload e) + 8 < 2 ^ 32.
Proof.
  destruct e as [id|ids]; simpl edit_payload; unfold edit_ok, new_file_payload, set_file_payload.
  - intros _. rewrite zlen_cons, zlen_put_u64. lia.
  - intros [_ H]. rewrite zlen_cons, zlen_app, zlen_put_u32, zlen_concat_u64.
    pose proof (zlen_nonneg ids). lia.
Qed.

Lemma read_ids_concat ids rest : Forall is_u64 ids ->
  read_ids (length ids) (concat (put_u64 <$> ids) ++ rest) = ids.
Proof.
  induction 1 as [|id ids Hid _ IH]; [done|]. rewrite fmap_cons. cbn [concat length read_ids].
  rewrite <- app_assoc, get_put_u64 by done. f_equal.
  rewrite drop_app_length' by by rewrite length_put_u64. done.
Qed.

Lemma applyEdit_edit live e : edit_ok e -> applyEdit live (edit_payload e) = Ok (edit_live live e).
Proof.
  intros He. pose proof (edit_payload_bounds e He) as [_ Hb].
  destruct e as [id|ids]; cbn [edit_payload edit_ok edit_live] in *.
  - unfold new_file_payload, applyEdit. rewrite decide_True by done.
    rewrite zlen_cons, zlen_put_u64. change (1 + 8 <? 9) with false. cbn match. rewrite <- (app_nil_r (put_u64 id)), get_put_u64 by done. done.
  - destruct He as [Hids Hn]. unfold set_file_payload in *. unfold applyEdit.
    rewrite decide_False, decide_False, decide_True by done.
    rewrite zlen_cons, zlen_app, zlen_put_u32, zlen_concat_u64 in *.
    pose proof (zlen_nonneg ids).
    assert (Hc : is_u32 (u32 (zlen ids))) by auto.
    rewrite get_put_u32, u32_id by (try done; unfold is_u32; lia).
    destruct (_ <? 5) eqn:E1; [lia|].
    destruct (_ <? 5 + zlen ids * 8) eqn:E2; [lia|].
    rewrite drop_app_length' by by rewrite length_put_u32.
    unfold zlen. rewrite Nat2Z.id, <- (app_nil_r (concat _)), read_ids_concat by done. done.
Qed.

Lemma zlen_encodeRecord p : zlen (encodeRecord p) = 8 + zlen p.
Proof. unfold encodeRecord. autorewrite with zlen. lia. Qed.

(** What was encoded is decoded, whatever the length up to the 32-bit limit. *)
Lemma decode_encodeRecord p : zlen p + 8 < 2 ^ 32 -> decodeRecord (encodeRecord p) = Ok p.
Proof.
  intros Hb. pose proof (zlen_nonneg p). unfold decodeRecord. rewrite zlen_encodeRecord.
  destruct (8 + zlen p <? 8) eqn:E1; [lia|].
  assert (Hg : get_u32 (encodeRecord p) = zlen p + 4).
  { unfold encodeRecord. rewrite get_put_u32 by auto. apply u32_id. unfold is_u32. lia. }
  rewrite Hg. destruct (zlen p + 4 <? 4) eqn:E2; [lia|].
  rewrite u32_id by (unfold is_u32; lia).
  destruct (8 + zlen p <? 4 + (zlen p + 4)) eqn:E3; [lia|].
  destruct (4 + (zlen p + 4) <? 8) eqn:E4; [lia|].
  assert (Hs : slice (encodeRecord p) 8 (4 + (zlen p + 4)) = p).
  { unfold encodeRecord. rewrite <- (app_nil_r p) at 3. rewrite app_assoc.
    apply slice_app_mid; autorewrite with zlen; lia. }
  rewrite Hs. unfold encodeRecord. rewrite drop_app_length' by by rewrite length_put_u32.
  rewrite get_put_u32 by auto. by rewrite Z.eqb_refl.
Qed.

Lemma edit_record_split e : edit_ok e ->
  exists h r, edit_record e = h ++ r /\ zlen h = 4 /\ be_get h = zlen r /\ 4 < zlen r.
Proof.
  intros He. pose proof (edit_payload_bounds e He) as [H1 H2].
  unfold edit_record, encodeRecord. set (p := edit_payload e) in *.
  exists (put_u32 (u32 (zlen p + 4))), (put_u32 (crc32_ieee p) ++ p).
  split; [done|]. rewrite be_get_put_u32 by auto. autorewrite with zlen.
  rewrite u32_id by (unfold is_u32; lia). lia.
Qed.

(** One record at the head of the file. *)
Lemma replay_loop_record fuel e rest validEnd live count : edit_ok e ->
  replay_loop (S fuel) (edit_record e ++ rest) validEnd live count =
  replay_loop fuel rest (validEnd + zlen (edit_record e)) (edit_live live e) (count + 1).
Proof.
  intros He. destruct (edit_record_split e He) as (h & r & E & Hh & Hr & Hlt).
  cbn [replay_loop]. rewrite E, <- app_assoc, Wal.read_full_app by done.
  rewrite Hr. destruct (zlen r <? 4) eqn:E1; [lia|].
  rewrite Wal.read_full_app by done. rewrite <- E.
  pose proof (edit_payload_bounds e He) as [H1 H2].
  unfold edit_record at 1. rewrite decode_encodeRecord by done. by rewrite applyEdit_edit.
Qed.

Lemma replay_loop_records fuel es rest validEnd live count : Forall edit_ok es ->
  replay_loop (length es + fuel) (records es ++ rest) validEnd live count =
  replay_loop fuel rest (validEnd + zlen (records es)) (fold_left edit_live es live)
    (count + zlen es).
Proof.
  intros He. revert validEnd live count. induction He as [|e es He _ IH]; intros.
  - unfold zlen. simpl. by rewrite !Z.add_0_r.
  - cbn [length Nat.add fold_left]. change (records (e :: es)) with (edit_record e ++ records es).
    rewrite <- app_assoc, replay_loop_record, IH by done. rewrite zlen_app, zlen_cons. f_equal; lia.
Qed.

(** What a write that did not finish leaves behind the last record. *)
Definition torn (tail : bytes) : Prop :=
  exists e k, edit_ok e /\ tail = take k (edit_record e) /\ (k < length (edit_record e))%nat.

Lemma replay_torn_end fuel tail validEnd live count : torn tail ->
  exists e, replay_loop (S fuel) tail validEnd live count = (live, count, validEnd, e) /\
    (e = AtEOF /\ tail = [] \/ e = BadTail io_EOF \/ e = BadTail io_ErrUnexpectedEOF).
Proof.
  intros (e & k & He & -> & Hk). destruct (edit_record_split e He) as (h & r & E & Hh & Hr & Hlt).
  rewrite E in Hk |- *. rewrite length_app in Hk. cbn [replay_loop].
  assert (Hh' : length h = 4%nat) by (unfold zlen in Hh; lia).
  destruct (decide (k < 4)%nat) as [Hk4|Hk4].
  - rewrite take_app_le by lia. unfold Wal.read_full at 1. cbn [Z.leb Z.compare].
    destruct (zlen (take k h) =? 0) eqn:E0.
    + eexists; split; [done|left]. split; [done|]. apply zlen_nil_inv. lia.
    + assert (zlen (take k h) < 4) by (unfold zlen; rewrite length_take; lia).
      destruct (_ <? 4) eqn:E1; [|lia]. eexists; split; [done|]. auto.
  - rewrite take_app_ge by lia. rewrite Wal.read_full_app by done. rewrite Hr.
    destruct (zlen r <? 4) eqn:E1; [lia|].
    assert (Hs : zlen (take (k - length h) r) < zlen r) by (unfold zlen; rewrite length_take; lia).
    unfold Wal.read_full. destruct (zlen r <=? 0) eqn:E2; [lia|].
    destruct (_ =? 0); [eexists; split; [done|auto]|].
    destruct (_ <? zlen r) eqn:E3; [|lia]. eexists; split; [done|auto].
Qed.

Lemma records_length es : Forall edit_ok es -> (length es <= length (records es))%nat.
Proof.
  induction 1 as [|e es He _ IH]; [done|]. change (records (e :: es)) with (edit_record e ++ records es).
  rewrite length_app. unfold edit_record. pose proof (zlen_encodeRecord (edit_payload e)) as H.
  pose proof (zlen_nonneg (edit_payload e)). unfold zlen in *. simpl length. lia.
Qed.

(** The whole file: complete records and at most one torn one. *)
Lemma replay_loop_file es tail : Forall edit_ok es -> torn tail ->
  exists e, replay_loop (S (length (records es ++ tail))) (records es ++ tail) 0 ∅ 0 =
      (live_of es, zlen es, zlen (records es), e) /\
    (e = AtEOF /\ tail = [] \/ e = BadTail io_EOF \/ e = BadTail io_ErrUnexpectedEOF).
Proof.
  intros He Ht. pose proof (records_length es He).
  replace (S (length (records es ++ tail)))
    with (length es + S (length (records es ++ tail) - length es))%nat by (rewrite length_app; lia).
  rewrite replay_loop_records by done. apply replay_torn_end. done.
Qed.

Lemma torn_nil : torn [].
Proof. exists (NewFile 0), 0%nat. split; [done|]. split; [done|]. vm_compute. lia. Qed.

(** * Reopening *)

(** A manifest name that CURRENT can hold. *)
Definition name_ok (name : string) : Prop :=
  GoStr.no_space name = true /\ name <> ""%string /\
  name <> currentFileName /\ name <> current_tmp.

(** CURRENT names [name], which holds the records of [es] and then [tail]. *)
Definition stored (f : fsys) (name : string) (es : list edit) (tail : bytes) : Prop :=
  bytes_at f currentFileName = Some (line name) /\ bytes_at f name = Some (records es ++ tail).

Lemma current_round_trip name : GoStr.no_space name = true -> name <> ""%string ->
  GoStr.TrimSpace (String.string_of_list_byte (line name)) = name.
Proof.
  intros H1 H2. unfold line. rewrite String.string_of_list_byte_of_string.
  by apply GoStr.TrimSpace_line.
Qed.

Lemma truncateTo_quiet l f c d n : f !! path l = Some (File c d) -> 0 <= n <= zlen c ->
  truncateTo l n (mkWorld f []) =
    (Ok tt, mkWorld (<[path l := File (take (Z.to_nat n) c) (take (Z.to_nat n) c)]> f) []).
Proof.
  intros Hf Hn. unfold truncateTo, fs_sync, fs_size, fs_close, fs_truncate, fs_open_create, io_bind.
  io_cbn. rewrite Hf. io_cbn. rewrite (alter_as_insert _ _ _ _ Hf). io_cbn.
  rewrite lookup_insert_eq. io_cbn. destruct (zlen c <=? n) eqn:E.
  - rewrite take_ge by (unfold zlen in *; lia). done.
  - io_cbn. rewrite lookup_insert_eq. io_cbn.
    erewrite alter_as_insert by apply lookup_insert_eq. io_cbn. rewrite lookup_insert_eq. io_cbn.
    by rewrite insert_insert_eq, resize_take by lia.
Qed.

(** What is durable of the file after the replay: all of it, if all of it was. *)
Lemma replay_quiet name f d es tail : Forall edit_ok es -> torn tail ->
  f !! name = Some (File (records es ++ tail) d) ->
  exists d', replay (mkLog name true ∅ 0) (mkWorld f []) =
    (Ok (mkLog name true (live_of es) (zlen es)), mkWorld (<[name := File (records es) d']> f) []) /\
    (d = records es ++ tail -> d' = records es).
Proof.
  intros He Ht Hf. destruct (replay_loop_file es tail He Ht) as (e & Hl & Hcase).
  unfold replay, fs_read. unfold io_bind at 1. io_cbn. cbn [path liveSet recordCount file]. rewrite Hf. io_cbn.
  rewrite Hl. pose proof (zlen_nonneg tail). pose proof (zlen_nonneg (records es)).
  pose proof (truncateTo_quiet (mkLog name true (live_of es) (zlen es)) f _ d (zlen (records es)) Hf
    ltac:(rewrite zlen_app; lia)) as Ht'.
  replace (take (Z.to_nat (zlen (records es))) (records es ++ tail)) with (records es) in Ht'.
  2:{ unfold zlen. by rewrite Nat2Z.id, take_app_length. }
  destruct Hcase as [[-> ->]|[->| ->]].
  - rewrite app_nil_r in *. rewrite Z.ltb_irrefl. exists d. unfold io_ret. rewrite insert_id by done. done.
  - unfold salvageManifestTail, io_bind. rewrite Ht'. by exists (records es).
  - unfold salvageManifestTail, io_bind. rewrite Ht'. by exists (records es).
Qed.

(** Reopening reads back exactly the edits whose records are complete, and touches
    no other file. *)
Lemma Open_at f name es tail d : name_ok name -> Forall edit_ok es -> torn tail ->
  bytes_at f currentFileName = Some (line name) -> f !! name = Some (File (records es ++ tail) d) ->
  exists d', Open (mkWorld f []) = (Ok (mkLog name true (live_of es) (zlen es)),
      mkWorld (<[name := File (records es) d']> f) []) /\ (d = records es ++ tail -> d' = records es).
Proof.
  intros (Hn1 & Hn2 & Hn3 & _) He Ht [dc Hc]%bytes_at_Some Hf.
  destruct (replay_quiet name f d es tail He Ht Hf) as (d' & Hr & Hd). exists d'. split; [|done].
  unfold Open, mkdir, readCurrentManifest, fs_read, fs_open_create. unfold io_bind at 1 2 3, try at 1.
  io_cbn. rewrite Hc. io_cbn. rewrite current_round_trip by done.
  rewrite decide_False by done. unfold io_bind at 1 2 3, try. io_cbn. rewrite Hf. io_cbn.
  by rewrite Hr.
Qed.

Lemma Open_stored f name es tail : name_ok name -> Forall edit_ok es -> torn tail ->
  stored f name es tail ->
  exists f', Open (mkWorld f []) = (Ok (mkLog name true (live_of es) (zlen es)), mkWorld f' []) /\
    stored f' name es [].
Proof.
  intros Hn He Ht [Hc [d Hf]%bytes_at_Some]. pose proof Hn as (_ & _ & Hn3 & _).
  destruct (Open_at f name es tail d Hn He Ht Hc Hf) as (d' & Ho & _).
  exists (<[name := File (records es) d']> f). split; [done|].
  split; [by rewrite bytes_at_insert_ne by done|]. by rewrite bytes_at_insert_eq, app_nil_r.
Qed.

(** * Appending *)

(** The log [l] is what the directory holds, all of it synced. *)
Definition good (f : fsys) (name : string) (es : list edit) : Prop :=
  f !! currentFileName = Some (File (line name) (line name)) /\
  f !! name = Some (File (records es) (records es)).

Lemma good_stored f name es : good f name es -> stored f name es [].
Proof.
  intros [H1 H2]. unfold stored, bytes_at. rewrite H1, H2, app_nil_r. done.
Qed.

(** The record is being written: some of it may be there, all of it is synced
    when the call succeeds. *)
Lemma append_triple l apply es e : path l <> currentFileName -> file l = true ->
  triple (fun f => good f (path l) es) (append l (edit_record e) apply)
    (fun r f => f !! currentFileName = Some (File (line (path l)) (line (path l))) /\
       (exists k, f !! path l = Some (File (records es ++ take k (edit_record e)) (records es)) \/
                  good f (path l) (es ++ [e])) /\
       (forall l', r = Ok (l', None) -> good f (path l) (es ++ [e]) /\
          l' = mkLog (path l) true (apply (liveSet l)) (recordCount l + 1))).
Proof.
  intros Hne Hfile. unfold append, on_file. rewrite Hfile.
  set (C := about currentFileName (fun o => o = Some (File (line (path l)) (line (path l))))).
  assert (Hrec : records (es ++ [e]) = records es ++ edit_record e).
  { rewrite records_app. f_equal. unfold records. simpl. by rewrite app_nil_r. }
  assert (HW : preserves C (fs_write (path l) (edit_record e))) by by apply about_write.
  assert (HS : preserves C (fs_sync (path l))) by by apply about_sync_other.
  eapply triple_bind with (R := fun r f => C f /\ match r with
     | inl _ => good f (path l) (es ++ [e])
     | inr _ => exists k, f !! path l = Some (File (records es ++ take k (edit_record e)) (records es))
     end).
  - apply triple_try. eapply triple_bind with (R := fun _ f =>
      f !! path l = Some (File (records es ++ edit_record e) (records es)) /\ C f).
    + eapply triple_conseq.
      * apply triple_and; [apply (fs_write_triple (path l) (edit_record e) (records es) (records es))|exact HW].
      * intros f [H1 H2]. split; [exact H2|exact H1].
      * intros [[]|er|] f [H1 H2]; [done| |].
        -- split; [done|]. destruct H1 as (k & _ & H1). by exists k.
        -- destruct H1 as (k & _ & H1). split; [done|]. split; [exists k; by left|done].
    + intros []. eapply triple_conseq.
      * apply triple_and; [apply (fs_sync_triple (path l) (records es ++ edit_record e) (records es))|exact HS].
      * done.
      * intros [[]|er|] f [H1 H2].
        -- split; [done|]. split; [exact H2|]. by rewrite Hrec.
        -- split; [done|]. exists (length (edit_record e)). by rewrite firstn_all.
        -- split; [done|]. split; [|done]. exists (length (edit_record e)). left. by rewrite firstn_all.
  - intros [[]|er]; apply triple_ret.
    + intros f [H1 H2]. split; [done|]. split; [exists 0%nat; by right|].
      intros l' Hl'. simplify_eq. done.
    + intros f [H1 [k H2]]. split; [done|]. split; [exists k; by left|done].
Qed.

Lemma power_loss_same f f' p bs : power_loss f f' -> f !! p = Some (File bs bs) -> bytes_at f' p = Some bs.
Proof.
  intros Hpl Hp. specialize (Hpl p). rewrite Hp in Hpl. unfold bytes_at.
  destruct (f' !! p) as [fl|]; [|done]. destruct Hpl as (H1 & H2 & _). simpl in *.
  f_equal. apply (anti_symm prefix); done.
Qed.

Lemma power_loss_between f f' p a b : power_loss f f' -> f !! p = Some (File (a ++ b) a) ->
  exists k, bytes_at f' p = Some (a ++ take k b).
Proof.
  intros Hpl Hp. specialize (Hpl p). rewrite Hp in Hpl. unfold bytes_at.
  destruct (f' !! p) as [fl|]; [|done]. destruct Hpl as (H1 & H2 & _). simpl in *.
  destruct H1 as [t Ht]. rewrite Ht in *. apply prefix_app_inv in H2. exists (length t).
  f_equal. f_equal. destruct H2 as [u ->]. by rewrite take_app_length.
Qed.

Lemma torn_take e k : edit_ok e -> (k < length (edit_record e))%nat -> torn (take k (edit_record e)).
Proof. intros H1 H2. by exists e, k. Qed.

(** The log around one append: some of the record may be there. *)
Definition appending (l : Log) (es : list edit) (e : edit) (f : fsys) : Prop :=
  f !! currentFileName = Some (File (line (path l)) (line (path l))) /\
  exists k, f !! path l = Some (File (records es ++ take k (edit_record e)) (records es)) \/
            good f (path l) (es ++ [e]).

Lemma records_snoc es e : records (es ++ [e]) = records es ++ edit_record e.
Proof. rewrite records_app. f_equal. unfold records. simpl. by rewrite app_nil_r. Qed.

(** What a loss of power leaves of it is the log with or without the record. *)
Lemma appending_stored l es e f f' : edit_ok e -> appending l es e f -> power_loss f f' ->
  exists es' tail, torn tail /\ stored f' (path l) es' tail /\
    (es' = es \/ es' = es ++ [e]) /\ (good f (path l) (es ++ [e]) -> es' = es ++ [e]).
Proof.
  intros He [Hc (k & Hk)] Hpl. pose proof (power_loss_same _ _ _ _ Hpl Hc) as Hcur.
  assert (Hnew : bytes_at f' (path l) = Some (records (es ++ [e])) -> exists es' tail, torn tail /\
    stored f' (path l) es' tail /\ (es' = es \/ es' = es ++ [e]) /\ (good f (path l) (es ++ [e]) -> es' = es ++ [e])).
  { intros Hb. exists (es ++ [e]), []. split; [apply torn_nil|]. split; [by split; [|rewrite app_nil_r]|]. auto. }
  destruct (decide (f !! path l = Some (File (records (es ++ [e])) (records (es ++ [e]))))) as [Hg|Hg].
  { apply Hnew. by apply (power_loss_same _ _ _ _ Hpl). }
  destruct Hk as [Hk|[_ Hk]]; [|done].
  destruct (power_loss_between _ _ _ _ _ Hpl Hk) as (j & Hb). rewrite take_take in Hb.
  destruct (decide ((j `min` k) < length (edit_record e))%nat) as [Hlt|Hge].
  - exists es, (take (j `min` k) (edit_record e)). split; [by apply torn_take|]. split; [done|].
    split; [by left|]. by intros [_ ?].
  - apply Hnew. by rewrite Hb, take_ge, records_snoc by lia.
Qed.

(** C19: A fault, crash or loss of power around one append to an intact manifest ([good]:
    the file holds exactly the records of the edits, all synced, and CURRENT names it, so
    that no earlier append has failed): reopening gives the set before or the set after
    it, and the set after it if the call had succeeded. *)
Lemma append_recovers l apply es e wd f' :
  name_ok (path l) -> file l = true -> Forall edit_ok es -> edit_ok e ->
  good (fs wd) (path l) es ->
  power_loss (fs (snd (append l (edit_record e) apply wd))) f' ->
  exists f'' es', Open (mkWorld f' []) = (Ok (mkLog (path l) true (live_of es') (zlen es')), mkWorld f'' []) /\
    (es' = es \/ es' = es ++ [e]) /\
    (forall l', fst (append l (edit_record e) apply wd) = Ok (l', None) -> es' = es ++ [e]).
Proof.
  intros Hn Hfile Hes He Hg Hpl. assert (Hne : path l <> currentFileName) by apply Hn.
  pose proof (append_triple l apply es e Hne Hfile wd Hg) as (T1 & T2 & T3).
  destruct (appending_stored l es e _ f' He (conj T1 T2) Hpl) as (es' & tail & Ht & Hst & Hcase & Hdone).
  destruct (Open_stored f' (path l) es' tail) as (f'' & Ho & _); try done.
  { destruct Hcase as [->| ->]; [done|]. apply Forall_app. split; [done|by constructor]. }
  exists f'', es'. split; [done|]. split; [done|]. intros l' Hr. apply Hdone. by apply (T3 l').
Qed.

(** * Rotation *)

Lemma prefixed_name_ok s : GoStr.no_space s = true -> name_ok (String.append manifestPrefix s).
Proof.
  intros H. unfold name_ok. rewrite GoStr.no_space_app, H. done.
Qed.

Lemma nextManifestName_ok current : name_ok (nextManifestName current).
Proof.
  unfold nextManifestName. assert (name_ok initialManifest) by done.
  destruct (GoStr.strip_prefix _ _); [|done]. destruct (GoStr.ParseUint _) as [n|]; [|done].
  destruct (n =? 0); [done|]. apply prefixed_name_ok. apply GoStr.no_space_digits.
Qed.

(** Rotation never writes over the manifest it replaces. *)
Lemma nextManifestName_prefix current : exists s, nextManifestName current = String.append manifestPrefix s.
Proof.
  unfold nextManifestName. destruct (GoStr.strip_prefix manifestPrefix current) as [s|]; [|by exists "000001"%string].
  destruct (GoStr.ParseUint s) as [n|]; [|by exists "000001"%string].
  destruct (n =? 0); [by exists "000001"%string|by eexists].
Qed.

Lemma nextManifestName_ne current : nextManifestName current <> current.
Proof.
  unfold nextManifestName. intros H.
  destruct (GoStr.strip_prefix manifestPrefix current) as [s|] eqn:E1; [|by subst].
  destruct (GoStr.ParseUint s) as [n|] eqn:E2.
  - destruct (n =? 0) eqn:E3; [subst; vm_compute in E1; simplify_eq; vm_compute in E2; simplify_eq; lia|].
    rewrite <- H, GoStr.strip_prefix_app in E1. simplify_eq.
    rewrite GoStr.ParseUint_format in E2 by auto. simplify_eq.
    unfold u64 in E2. assert (0 <= n < 2 ^ 64).
    { rewrite <- E2. apply Z.mod_pos_bound. lia. }
    destruct (decide (n + 1 = 2 ^ 64)) as [Heq|Hneq].
    + rewrite Heq, Z_mod_same_full in E2. lia.
    + rewrite Z.mod_small in E2 by lia. lia.
  - subst. vm_compute in E1. by simplify_eq.
Qed.

Lemma preserves_or_remove {A} I (m : io A) p :
  preserves I m -> preserves I (fs_remove p) -> preserves I (or_remove m p).
Proof.
  intros H1 H2. unfold or_remove. apply preserves_bind; [by apply preserves_try|].
  intros [a|e]; [apply preserves_ret|]. apply preserves_bind; [by apply preserves_ignore|].
  intros. apply preserves_err.
Qed.

#[export] Hint Resolve preserves_or_remove : iopres.

(** Only CURRENT and its temporary file are touched. *)
Lemma writeCurrent_other name q Q : q <> currentFileName -> q <> current_tmp ->
  preserves (about q Q) (writeCurrent name).
Proof.
  intros H1 H2. unfold writeCurrent.
  assert (preserves (about q Q) (fs_remove current_tmp)) by by apply about_remove.
  repeat (apply preserves_bind; [|intros []]); try apply preserves_or_remove; auto with iopres.
Qed.

Lemma or_remove_triple {A} (m : io A) p (P : fsys -> Prop) (R : A -> fsys -> Prop) (I : fsys -> Prop) :
  triple P m (fun r f => match r with Ok a => R a f | _ => I f end) ->
  preserves I (fs_remove p) ->
  triple P (or_remove m p) (fun r f => match r with Ok a => R a f | _ => I f end).
Proof.
  intros Hm Hr. unfold or_remove.
  eapply triple_bind with (R := fun r f => match r with inl a => R a f | inr _ => I f end).
  - apply triple_try. eapply triple_conseq; [exact Hm|done|]. by intros [] f.
  - intros [a|e]; [by apply triple_ret|].
    eapply triple_bind with (R := fun _ => I).
    + apply triple_ignore. eapply triple_conseq; [exact Hr|done|]. by intros [] f.
    + intros _. by apply triple_err.
Qed.

Lemma fs_open_trunc_triple p (I : fsys -> Prop) : preserves I (fs_open_trunc p) ->
  triple I (fs_open_trunc p)
    (fun r f => match r with Ok _ => f !! p = Some (File [] []) /\ I f | _ => I f end).
Proof.
  intros HI wd Hf. pose proof (HI wd Hf) as H1. unfold fs_open_trunc, prim in *.
  destruct (faults wd) as [|[] ?]; simpl in *; rewrite ?lookup_insert_eq; done.
Qed.

(** [open; write; sync; close] of a new file and what follows: the file is synced
    when [k] starts, and every other file is as it was. *)
Lemma write_new_file_triple {A} p bs (I : fsys -> Prop) (k : io A) (Q : res A -> fsys -> Prop) :
  preserves I (fs_open_trunc p) -> preserves I (fs_write p bs) -> preserves I (fs_sync p) ->
  preserves I (fs_remove p) ->
  (forall r f, I f -> (forall a, r <> Ok a) -> Q r f) ->
  triple (fun f => f !! p = Some (File bs bs) /\ I f) k Q ->
  triple I (fs_open_trunc p ;;! or_remove (fs_write p bs) p ;;! or_remove (fs_sync p) p ;;!
            or_remove (fs_close p) p ;;! k) Q.
Proof.
  intros H1 H2 H3 H4 HQ Hk.
  assert (Hstep : forall (m : io unit) (P R : fsys -> Prop) (k' : io A),
    triple P m (fun r f => match r with Ok _ => R f | _ => I f end) ->
    triple R k' Q -> triple P (m ;;! k') Q).
  { intros m P R k' Hm Hk'. eapply triple_bind with (R := fun _ => R); [|done].
    eapply triple_conseq; [exact Hm|done|]. intros [] f H; try done; by apply HQ. }
  eapply Hstep; [apply (fs_open_trunc_triple p I H1)|].
  eapply Hstep with (R := fun f => f !! p = Some (File bs []) /\ I f).
  { apply (or_remove_triple (fs_write p bs) p _ (fun _ f => f !! p = Some (File bs []) /\ I f) I); [|done].
    eapply triple_conseq; [apply triple_and; [apply (fs_write_triple p bs [] [])|exact H2]|done|].
    by intros [[]|e|] f [Ha Hb]. }
  eapply Hstep with (R := fun f => f !! p = Some (File bs bs) /\ I f).
  { apply (or_remove_triple (fs_sync p) p _ (fun _ f => f !! p = Some (File bs bs) /\ I f) I); [|done].
    eapply triple_conseq; [apply triple_and; [apply (fs_sync_triple p bs [])|exact H3]|done|].
    by intros [[]|e|] f [Ha Hb]. }
  eapply Hstep; [|exact Hk].
  apply (or_remove_triple (fs_close p) p _ (fun _ f => f !! p = Some (File bs bs) /\ I f) I); [|done].
  eapply triple_conseq; [apply (preserves_close p (fun f => f !! p = Some (File bs bs) /\ I f))|done|].
  by intros [] f [Ha Hb].
Qed.

Lemma good_about f name es : good f name es <->
  about currentFileName (fun o => o = Some (File (line name) (line name))) f /\
  about name (fun o => o = Some (File (records es) (records es))) f.
Proof. done. Qed.

(** A call that touches neither CURRENT nor the manifest. *)
Lemma preserves_good {A} name es (m : io A) :
  (forall q Q, q = currentFileName \/ q = name -> preserves (about q Q) m) ->
  preserves (fun f => good f name es) m.
Proof.
  intros H wd [H1 H2]. split.
  - by apply (H currentFileName (fun o => o = Some (File (line name) (line name))) ltac:(auto) wd).
  - by apply (H name (fun o => o = Some (File (records es) (records es))) ltac:(auto) wd).
Qed.

(** CURRENT is replaced in one step. *)
Lemma writeCurrent_triple (old new : string) es bs : name_ok old -> name_ok new ->
  triple (fun f => good f old es /\ f !! new = Some (File bs bs)) (writeCurrent new)
    (fun r f => f !! new = Some (File bs bs) /\
       match r with
       | Ok _ => f !! currentFileName = Some (File (line new) (line new))
       | _ => good f old es
       end).
Proof.
  intros (_ & _ & Ho1 & Ho2) (_ & _ & Hn1 & Hn2). unfold writeCurrent.
  set (I := fun f => good f old es /\ f !! new = Some (File bs bs)).
  assert (HI : forall A (m : io A), (forall q Q, q <> current_tmp -> preserves (about q Q) m) -> preserves I m).
  { intros A m Hm wd [Hg Hn]. split.
    - apply (preserves_good old es m); [|done]. intros q Q [-> | ->]; by apply Hm.
    - by apply (Hm new (fun o => o = Some (File bs bs)) Hn2 wd). }
  apply write_new_file_triple; try (apply HI; intros; auto with iopres; fail).
  - intros [] f [H1 H2] Hr; [by destruct (Hr a)|done|done].
  - apply triple_prim; unfold no_effect; [|intros f n e (_ & H1 & H2); done].
    intros f (Ht & H1 & H2). rewrite Ht. simpl. split; [|by rewrite lookup_insert_eq].
    by rewrite lookup_insert_ne, lookup_delete_ne.
Qed.

(** ** The rotation of a log that is in step with its file *)

Lemma live_snapshot (live : gset Z) :
  live_of [SetFileSet (sort_ids (elements live))] = live.
Proof.
  unfold live_of. simpl. unfold sort_ids. apply set_eq. intros x.
  rewrite elem_of_list_to_set. rewrite merge_sort_Permutation. apply elem_of_elements.
Qed.

Definition snapshot_edit (l : Log) : edit := SetFileSet (liveIDsLocked l).

Section rotate.
Context (l : Log) (es : list edit).
Context (Hname : name_ok (path l)) (Hfile : file l = true).

Local Abbreviation new := (nextManifestName (path l)).

(** The directory names the old manifest, or the new one with the snapshot. *)
Definition rotated (f : fsys) : Prop := good f new [snapshot_edit l].

Definition rotate_post (r : res (Log * option error)) (f : fsys) : Prop :=
  (good f (path l) es \/ rotated f) /\
  forall l' e, r = Ok (l', e) -> liveSet l' = liveSet l /\
    match e with
    | None => good f (path l') es /\ l' = l \/ rotated f /\ l' = mkLog new true (liveSet l) 1
    | Some _ => path l' = path l /\ (file l' = true -> good f (path l) es)
    end.

Lemma new_file_good {A} (m : io A) : (forall q Q, q <> new -> preserves (about q Q) m) ->
  preserves (fun f => good f (path l) es) m.
Proof.
  intros Hm. apply preserves_good. intros q Q [-> | ->]; apply Hm.
  - pose proof (nextManifestName_ok (path l)) as (_ & _ & H & _). congruence.
  - pose proof (nextManifestName_ne (path l)). congruence.
Qed.

Lemma snapshot_record : records [snapshot_edit l] = encodeSetFileSet (liveIDsLocked l).
Proof. unfold records. simpl. by rewrite app_nil_r. Qed.

Lemma rotate_write_triple :
  triple (fun f => good f (path l) es)
    (try (fs_open_trunc new ;;!
          or_remove (fs_write new (encodeSetFileSet (liveIDsLocked l))) new ;;!
          or_remove (fs_sync new) new ;;!
          or_remove (fs_close new) new ;;!
          or_remove (writeCurrent new) new))
    (fun r f => match r with
       | Ok (inl _) => rotated f
       | Ok (inr _) => good f (path l) es
       | _ => good f (path l) es \/ rotated f
       end).
Proof.
  pose proof (nextManifestName_ok (path l)) as Hok.
  apply triple_try. eapply triple_conseq with (P := fun f => good f (path l) es) (Q := fun r f => match r with
      | Ok _ => rotated f | _ => good f (path l) es end); [|done|intros [] f; auto].
  apply write_new_file_triple; try (apply new_file_good; intros; auto with iopres; fail).
  - intros [] f H Hr; [by destruct (Hr a)|done|done].
  - apply (or_remove_triple (writeCurrent new) new _ (fun _ f => rotated f) (fun f => good f (path l) es)).
    2:{ apply new_file_good. intros. auto with iopres. }
    eapply triple_conseq; [apply (writeCurrent_triple (path l) new es
      (encodeSetFileSet (liveIDsLocked l)) Hname Hok)| by intros f [H1 H2] |].
    intros [[]|e|] f [H1 H2]; try done. split; [done|]. by rewrite snapshot_record.
Qed.

Lemma rotated_remove : preserves rotated (fs_remove (path l)).
Proof.
  apply preserves_good. intros q Q [-> | ->]; apply about_remove; [apply Hname|].
  pose proof (nextManifestName_ne (path l)). congruence.
Qed.

Lemma rotateSnapshotLocked_triple :
  triple (fun f => good f (path l) es) (rotateSnapshotLocked l) rotate_post.
Proof.
  unfold rotateSnapshotLocked. rewrite Hfile.
  eapply triple_bind with (R := fun r f => match r with inl _ => rotated f | inr _ => good f (path l) es end).
  { eapply triple_conseq; [apply rotate_write_triple|done|].
    intros [[u|e]|e|] f H; [done|done| |]; (split; [|done]); tauto. }
  intros [_|e].
  2:{ apply triple_ret. intros f H. split; [by left|]. intros l' e' Hr. simplify_eq. done. }
  eapply triple_bind with (R := fun _ => rotated).
  { apply triple_ignore. eapply triple_conseq; [apply (preserves_close (path l) rotated)|done|].
    intros [] f H; try done. split; [by right|done]. }
  intros _. eapply triple_bind with (R := fun _ => rotated).
  { apply triple_try. eapply triple_conseq; [apply (preserves_open new rotated)|done|].
    intros [] f H; try done. split; [by right|done]. }
  intros [_|e].
  2:{ apply triple_ret. intros f H. split; [by right|]. intros l' e' Hr. by simplify_eq. }
  rewrite decide_False by (pose proof (nextManifestName_ne (path l)); congruence).
  eapply triple_bind with (R := fun _ => rotated).
  { apply triple_ignore. eapply triple_conseq; [apply rotated_remove|done|].
    intros [] f H; try done. split; [by right|done]. }
  intros _. apply triple_ret. intros f H. split; [by right|]. intros l' e' Hr. simplify_eq. auto.
Qed.

Lemma MaybeCompact_triple :
  triple (fun f => good f (path l) es) (MaybeCompact l) rotate_post.
Proof.
  unfold MaybeCompact, compactionNeededLocked, on_file. rewrite Hfile.
  set (I := fun f => good f (path l) es).
  eapply triple_bind with (R := fun _ => I).
  - destruct (_ <=? recordCount l); [by apply triple_ret|].
    eapply triple_bind with (R := fun _ => I).
    + apply triple_try. eapply triple_conseq; [apply (preserves_size (path l) I)|done|].
      intros [] f H; try done. split; [by left|done].
    + intros [n|e]; by apply triple_ret.
  - intros [|]; [apply rotateSnapshotLocked_triple|]. apply triple_ret. intros f H.
    split; [by left|]. intros l' e Hr. simplify_eq. auto.
Qed.

(** C20: After any error, crash or loss of power during the compaction of the
    manifest, reopening finds the live set unchanged. *)
Lemma MaybeCompact_recovers wd f' : Forall edit_ok (snapshot_edit l :: es) -> live_of es = liveSet l ->
  good (fs wd) (path l) es ->
  power_loss (fs (snd (MaybeCompact l wd))) f' ->
  exists name n f'', Open (mkWorld f' []) = (Ok (mkLog name true (liveSet l) n), mkWorld f'' []).
Proof.
  intros Hok Hl Hg Hpl. apply Forall_cons in Hok as [Hs He].
  destruct (MaybeCompact_triple wd Hg) as [T _].
  assert (Hopen : forall name es', name_ok name -> Forall edit_ok es' ->
    good (fs (snd (MaybeCompact l wd))) name es' -> live_of es' = liveSet l ->
    exists n f'', Open (mkWorld f' []) = (Ok (mkLog name true (liveSet l) n), mkWorld f'' [])).
  { intros name es' Hn He' [H1 H2] Hl'.
    destruct (Open_stored f' name es' []) as (f'' & Ho & _); try done.
    - apply torn_nil.
    - split; [by apply (power_loss_same _ _ _ _ Hpl)|]. rewrite app_nil_r.
      by apply (power_loss_same _ _ _ _ Hpl).
    - rewrite Hl' in Ho. by eexists _, _. }
  destruct T as [T|T].
  - exists (path l). by apply (Hopen (path l) es).
  - exists new. apply (Hopen new [snapshot_edit l]); [apply nextManifestName_ok|by constructor|done|].
    apply live_snapshot.
Qed.

End rotate.

(** * Runs without faults *)

(** Writing a file under a temporary name and renaming it. *)
Lemma write_renamed_quiet f p b bs :
  (fs_open_trunc p ;;! or_remove (fs_write p bs) p ;;! or_remove (fs_sync p) p ;;!
   or_remove (fs_close p) p ;;! fs_rename p b) (mkWorld f []) =
  (Ok tt, mkWorld (<[b := File bs bs]> (delete p f)) []).
Proof.
  rewrite (io_bind_ok _ _ _ _ _ (fs_open_trunc_quiet f p)).
  unfold or_remove, io_bind, try. rewrite (fs_write_quiet _ _ [] []) by apply lookup_insert_eq. io_cbn.
  rewrite (fs_sync_quiet _ _ bs []) by apply lookup_insert_eq. io_cbn. rewrite fs_close_quiet. io_cbn.
  rewrite (fs_rename_quiet _ _ bs bs) by apply lookup_insert_eq. by rewrite !delete_insert_eq.
Qed.

Lemma append_quiet l f es e apply : file l = true -> good f (path l) es -> path l <> currentFileName ->
  exists f', append l (edit_record e) apply (mkWorld f []) =
      (Ok (mkLog (path l) true (apply (liveSet l)) (recordCount l + 1), None), mkWorld f' []) /\
    good f' (path l) (es ++ [e]) /\ (forall q, q <> path l -> f' !! q = f !! q).
Proof.
  intros Hf [Hc Hr] Hne. exists (<[path l := File (records (es ++ [e])) (records (es ++ [e]))]> f). split.
  - unfold append, on_file. rewrite Hf. unfold io_bind, try.
    rewrite (fs_write_quiet _ _ _ _ Hr). rewrite (fs_sync_quiet _ _ (records es ++ edit_record e) (records es))
      by apply lookup_insert_eq. rewrite insert_insert_eq. unfold io_ret.
    rewrite records_app. unfold records at 3 4. cbn. by rewrite app_nil_r.
  - split; [split; [by rewrite lookup_insert_ne|by rewrite lookup_insert_eq]|].
    intros q Hq. by rewrite lookup_insert_ne.
Qed.

Lemma rotate_quiet l f es : name_ok (path l) -> file l = true -> good f (path l) es ->
  exists f', rotateSnapshotLocked l (mkWorld f []) =
      (Ok (mkLog (nextManifestName (path l)) true (liveSet l) 1, None), mkWorld f' []) /\
    good f' (nextManifestName (path l)) [snapshot_edit l] /\
    (forall q, q <> path l -> q <> nextManifestName (path l) -> q <> currentFileName -> q <> current_tmp ->
       f' !! q = f !! q).
Proof.
  intros (_ & _ & Ho1 & Ho2) Hf [Hc Hr]. set (new := nextManifestName (path l)).
  pose proof (nextManifestName_ok (path l)) as (_ & _ & Hn1 & Hn2).
  pose proof (nextManifestName_ne (path l)) as Hne. fold new in Hn1, Hn2, Hne.
  set (rec := encodeSetFileSet (liveIDsLocked l)).
  set (g := <[currentFileName := File (line new) (line new)]> (delete current_tmp (<[new := File rec rec]> f))).
  assert (Hnew : g !! new = Some (File rec rec)).
  { unfold g. rewrite lookup_insert_ne, lookup_delete_ne by congruence. by rewrite lookup_insert_eq. }
  assert (Hold : g !! path l = Some (File (records es) (records es))).
  { unfold g. rewrite lookup_insert_ne, lookup_delete_ne, lookup_insert_ne by congruence. done. }
  exists (delete (path l) g). split; [|split; [split|]].
  - unfold rotateSnapshotLocked. fold new rec.
    erewrite bind_try_ok.
    2:{ rewrite (io_bind_ok _ _ _ _ _ (fs_open_trunc_quiet f new)).
        unfold or_remove, io_bind, try. rewrite (fs_write_quiet _ _ [] []) by apply lookup_insert_eq. io_cbn.
        rewrite (fs_sync_quiet _ _ rec []) by apply lookup_insert_eq. io_cbn. rewrite fs_close_quiet. io_cbn.
        rewrite !insert_insert_eq. change (writeCurrent new) with
          (fs_open_trunc current_tmp ;;! or_remove (fs_write current_tmp (line new)) current_tmp ;;!
           or_remove (fs_sync current_tmp) current_tmp ;;! or_remove (fs_close current_tmp) current_tmp ;;!
           fs_rename current_tmp currentFileName).
        rewrite (write_renamed_quiet (<[new := File rec rec]> f)). fold g. reflexivity. }
    rewrite Hf. unfold ignore, io_bind, try. rewrite fs_close_quiet. io_cbn.
    rewrite (fs_open_quiet g new rec rec Hnew). io_cbn. rewrite decide_False by congruence.
    by rewrite (fs_remove_quiet g (path l) _ _ Hold).
  - rewrite lookup_delete_ne by done. unfold g. by rewrite lookup_insert_eq.
  - rewrite lookup_delete_ne by done. rewrite Hnew. by rewrite snapshot_record.
  - intros q H1 H2 H3 H4. rewrite lookup_delete_ne by done. unfold g.
    by rewrite lookup_insert_ne, lookup_delete_ne, lookup_insert_ne by done.
Qed.

(** The manifest after a compaction that may have been due: the same live set, in
    the old file or in the next one. *)
Lemma MaybeCompact_quiet l f es : name_ok (path l) -> file l = true -> good f (path l) es ->
  exists l' es' f', MaybeCompact l (mkWorld f []) = (Ok (l', None), mkWorld f' []) /\
    liveSet l' = liveSet l /\ file l' = true /\ good f' (path l') es' /\
    (l' = l /\ es' = es \/ path l' = nextManifestName (path l) /\ es' = [snapshot_edit l]) /\
    (forall q, q <> path l -> q <> nextManifestName (path l) -> q <> currentFileName -> q <> current_tmp ->
       f' !! q = f !! q).
Proof.
  intros Hn Hf Hg. unfold MaybeCompact.
  assert (Hneed : exists b, compactionNeededLocked l (mkWorld f []) = (Ok b, mkWorld f [])).
  { unfold compactionNeededLocked, on_file. destruct (_ <=? _); [by eexists|]. rewrite Hf.
    destruct Hg as [_ Hr]. rewrite (bind_try_ok _ _ _ _ _ (fs_size_quiet _ _ _ _ Hr)). by eexists. }
  destruct Hneed as [[|] Hneed]; rewrite (io_bind_ok _ _ _ _ _ Hneed).
  - destruct (rotate_quiet l f es Hn Hf Hg) as (f' & Hr & Hg' & Hq).
    exists (mkLog (nextManifestName (path l)) true (liveSet l) 1), [snapshot_edit l], f'.
    repeat (split; [done|]). split; [by right|done].
  - exists l, es, f. repeat (split; [done|]). split; [by left|done].
Qed.

(** * Two errors the log does not recover from *)

Definition demo_dir : fsys :=
  {[ currentFileName := File (line initialManifest) (line initialManifest);
     initialManifest := File [] [] ]}.
Definition demo_log : Log := mkLog initialManifest true ∅ 0.

(** [AppendNewFile(1)] then [AppendNewFile(2)], the calls failing as scheduled. *)
Definition demo_run (fl : list fault) : (option error * option error) * res (list Z) :=
  match AppendNewFile demo_log 1 (mkWorld demo_dir fl) with
  | (Ok (l1, e1), w1) =>
      match AppendNewFile l1 2 w1 with
      | (Ok (_, e2), w2) =>
          ((e1, e2), match Open (mkWorld (fs w2) []) with
                     | (Ok l, _) => Ok (LiveIDs l) | (Err e, _) => Err e | (Crashed, _) => Crashed end)
      | _ => ((None, None), Crashed)
      end
  | _ => ((None, None), Crashed)
  end.

(** A short write leaves its bytes in the file: the next append is acknowledged
    and synced behind them, and reopening drops it with the torn record. *)
Theorem append_after_short_write_lost :
  demo_run [Fail (os_error 28) 3] = ((Some (os_error 28), None), Ok []).
Proof. vm_compute. reflexivity. Qed.

(** A write whose sync fails is reported as failed, so the caller deletes its
    table, but the record stays in the file and is live after reopening. *)
Theorem append_sync_failure_stays_live :
  demo_run [NoFault; Fail (os_error 5) 0; Fail (os_error 5) 0] =
    ((Some (os_error 5), Some (os_error 5)), Ok [1]).
Proof. vm_compute. reflexivity. Qed.

(** ** Instances *)

Definition demo_after : World := snd (append demo_log (edit_record (NewFile 1)) (fun live => {[1]} ∪ live) (mkWorld demo_dir [])).

Lemma append_recovers_witness : exists f'' es',
  Open (mkWorld (fs demo_after) []) = (Ok (mkLog initialManifest true (live_of es') (zlen es')), mkWorld f'' []) /\
  es' = [NewFile 1].
Proof.
  destruct (append_recovers demo_log (fun live => {[1]} ∪ live) [] (NewFile 1) (mkWorld demo_dir []) (fs demo_after))
    as (f'' & es' & H1 & _ & H3).
  - by_decide.
  - reflexivity.
  - constructor.
  - split; vm_compute; congruence.
  - split; vm_compute; reflexivity.
  - apply power_loss_self. by_decide.
  - exists f'', es'. split; [exact H1|]. eapply H3. vm_compute. reflexivity.
Defined.

(** A log that has reached the threshold of 64 records. *)
Definition demo_full : Log := mkLog initialManifest true {[7]} 64.
Definition demo_full_dir : fsys :=
  {[ currentFileName := File (line initialManifest) (line initialManifest);
     initialManifest := File (records [NewFile 7]) (records [NewFile 7]) ]}.

Lemma MaybeCompact_recovers_witness : exists name n f'',
  Open (mkWorld (fs (snd (MaybeCompact demo_full (mkWorld demo_full_dir [NoFault; NoFault; NoFault; NoFault; Crash 0])))) []) =
    (Ok (mkLog name true {[7]} n), mkWorld f'' []).
Proof.
  apply (MaybeCompact_recovers demo_full [NewFile 7]
    ltac:(by_decide) eq_refl (mkWorld demo_full_dir [NoFault; NoFault; NoFault; NoFault; Crash 0])).
  - by_decide.
  - by_decide.
  - split; vm_compute; reflexivity.
  - apply power_loss_self. by_decide.
Defined.

(** * What the log's operations touch, and that only a crash disturbs them *)

Lemma append_touches l record apply : touches (fun q => q = path l) (append l record apply).
Proof. intros q Q Hq. assert (path l <> q) by congruence. unfold append, on_file. io_pres. Qed.

Lemma MaybeCompact_touches l :
  touches (fun q => q = path l \/ q = nextManifestName (path l) \/ q = currentFileName \/ q = current_tmp)
    (MaybeCompact l).
Proof.
  intros q Q Hq. assert (path l <> q /\ nextManifestName (path l) <> q /\ q <> currentFileName /\ q <> current_tmp)
    as (H1 & H2 & H3 & H4) by (repeat split; intros E; apply Hq; subst; tauto).
  pose proof (writeCurrent_other (nextManifestName (path l)) q Q H3 H4).
  unfold MaybeCompact, compactionNeededLocked, rotateSnapshotLocked, on_file. io_pres.
Qed.

Lemma or_remove_steady {A} (m : io A) p : steady m -> steady (or_remove m p).
Proof. intros Hm. unfold or_remove. io_steady. Qed.
#[local] Hint Resolve or_remove_steady : iosteady.

Lemma append_steady l record apply : steady (append l record apply).
Proof. unfold append, on_file. io_steady. Qed.

Lemma MaybeCompact_steady l : steady (MaybeCompact l).
Proof.
  unfold MaybeCompact, compactionNeededLocked, rotateSnapshotLocked, writeCurrent, on_file, or_remove. io_steady.
Qed.

Lemma append_runs l f es e apply : file l = true -> good f (path l) es -> path l <> currentFileName ->
  exists f', runs (append l (edit_record e) apply) f
      (mkLog (path l) true (apply (liveSet l)) (recordCount l + 1), None) f'
      (fun f1 => appending l es e f1 /\ forall q, q <> path l -> f1 !! q = f !! q) /\
    good f' (path l) (es ++ [e]) /\ (forall q, q <> path l -> f' !! q = f !! q).
Proof.
  intros Hf Hg Hne. destruct (append_quiet l f es e apply Hf Hg Hne) as (f' & Hrun & Hg' & Hq).
  exists f'. split; [|done].
  apply runs_from; [apply append_steady|exact Hrun|].
  intros wd ->. destruct (append_triple l apply es e Hne Hf wd Hg) as (T1 & T2 & _). split; [done|].
  intros q Hne'. by apply (touches_frame _ _ _ _ (append_touches l (edit_record e) apply)).
Qed.

(** The manifest in use is the old one, or the new one with the snapshot. *)
Definition compacted_to (l : Log) (es : list edit) (name : string) (es' : list edit) : Prop :=
  name = path l /\ es' = es \/ name = nextManifestName (path l) /\ es' = [snapshot_edit l].

Definition compact_side (name q : string) : Prop :=
  q = name \/ q = nextManifestName name \/ q = currentFileName \/ q = current_tmp.

Lemma MaybeCompact_runs l f es : name_ok (path l) -> file l = true -> good f (path l) es ->
  exists l' es' f', runs (MaybeCompact l) f (l', None) f'
      (fun f1 => (exists name es', compacted_to l es name es' /\ good f1 name es') /\
                 forall q, ~ compact_side (path l) q -> f1 !! q = f !! q) /\
    liveSet l' = liveSet l /\ file l' = true /\ good f' (path l') es' /\ compacted_to l es (path l') es' /\
    (forall q, ~ compact_side (path l) q -> f' !! q = f !! q).
Proof.
  intros Hn Hf Hg. destruct (MaybeCompact_quiet l f es Hn Hf Hg) as (l' & es' & f' & Hrun & Hl & Hf' & Hg' & Hcase & Hq).
  assert (Hfr : forall wd q, ~ compact_side (path l) q -> fs (snd (MaybeCompact l wd)) !! q = fs wd !! q).
  { intros wd q Hq'. by apply (touches_frame _ _ _ _ (MaybeCompact_touches l)). }
  exists l', es', f'. split.
  - apply runs_from; [apply MaybeCompact_steady|exact Hrun|].
    intros wd ->. destruct (MaybeCompact_triple l es Hn Hf wd Hg) as [[T|T] _]; (split; [|by apply Hfr]).
    + exists (path l), es. split; [by left|done].
    + exists (nextManifestName (path l)), [snapshot_edit l]. split; [by right|done].
  - repeat (split; [done|]). split.
    + destruct Hcase as [[-> ->]|[-> ->]]; [by left|by right].
    + intros q Hq'. unfold compact_side in Hq'. apply Hq; intros ->; tauto.
Qed.

End Manifest.
