(* ===== verification/Bloom.v ===== *)
(** The Bloom filter (internal/bloom).

    A filter is its bit array with the numbers of hash functions and of bits.
    [New] sizes the array in floating point; the two rounded results, [m0] bits
    and [k0] hash functions, are arguments of the definition and nothing is
    assumed of them beyond being unsigned 64-bit values. *)

From Stdlib Require Import ZArith Lia.
From S2P Require Import Prelude Word.

Module Bloom.

(** * The filter (bloom.go) *)

Record Filter := mkFilter { bits : bytes; k : Z; n : Z; m : Z }.

(** [m = (m + 7) & ^uint(7)] *)
Definition align8 (m : Z) : Z := Z.ldiff (u64 (m + 7)) 7.

Definition New (m0 k0 : Z) : Filter :=
  let k := if k0 <? 1 then 1 else k0 in
  let k := if 30 <? k then 30 else k in
  let m := align8 m0 in
  mkFilter (replicate (Z.to_nat (m / 8)) x00) k 0 m.

(** [idx := (h1 + uint64(i)*h2) % uint64(f.m)] *)
Definition probe (sum : Z) (m i : Z) : Z :=
  let h1 := sum in
  let h2 := Z.shiftr sum 32 in
  u64 (h1 + u64 (i * h2)) mod m.

(** [f.bits[idx/8] |= 1 << (idx % 8)] *)
Definition set_bit (bs : bytes) (idx : Z) : bytes :=
  alter (fun b => byte_of_Z (Z.lor (byte_Z b) (Z.shiftl 1 (idx mod 8)))) (Z.to_nat (idx / 8)) bs.

(** [f.bits[idx/8]&(1<<(idx%8)) != 0] *)
Definition test_bit (bs : bytes) (idx : Z) : bool :=
  match bs !! Z.to_nat (idx / 8) with
  | Some b => negb (Z.land (byte_Z b) (Z.shiftl 1 (idx mod 8)) =? 0)
  | None => false
  end.

(** [for i := uint(0); i < f.k; i++] from [i] on, [cnt] rounds. *)
Fixpoint add_loop (cnt : nat) (i sum m : Z) (bs : bytes) : bytes :=
  match cnt with
  | O => bs
  | S cnt' => add_loop cnt' (i + 1) sum m (set_bit bs (probe sum m i))
  end.

Definition Add (f : Filter) (key : bytes) : Filter :=
  if m f =? 0 then f else
  let sum := fnv64a key in
  mkFilter (add_loop (Z.to_nat (k f)) 0 sum (m f) (bits f)) (k f) (u64 (n f + 1)) (m f).

Fixpoint check_loop (cnt : nat) (i sum m : Z) (bs : bytes) : bool :=
  match cnt with
  | O => true
  | S cnt' => if test_bit bs (probe sum m i) then check_loop cnt' (i + 1) sum m bs else false
  end.

Definition MayContain (f : Filter) (key : bytes) : bool :=
  if m f =? 0 then true else
  check_loop (Z.to_nat (k f)) 0 (fnv64a key) (m f) (bits f).

Definition Encode (f : Filter) : bytes :=
  put_u32 (u32 (k f)) ++ put_u32 (u32 (m f)) ++ bits f.

Definition Decode (data : bytes) : option Filter :=
  if zlen data <? 8 then None else
  let k := get_u32 data in
  let m := get_u32 (drop 4 data) in
  if (m =? 0) || (k =? 0) then None else
  let bs := drop 8 data in
  let expectedLen := (m + 7) / 8 in
  if zlen bs <? expectedLen then None
  else Some (mkFilter (take (Z.to_nat expectedLen) bs) k 0 m).

(** * Invariant: every probe falls inside the array *)

Definition wf (f : Filter) : Prop :=
  0 <= m f /\ zlen (bits f) = (m f + 7) / 8 /\ 1 <= k f.

Lemma align8_spec m0 : exists q, align8 m0 = 8 * q /\ 0 <= q.
Proof.
  unfold align8. change 7 with (Z.ones 3) at 2. rewrite Z.ldiff_ones_r by lia.
  pose proof (u64_range (m0 + 7)) as [H _].
  exists (u64 (m0 + 7) / 8). rewrite Z.shiftl_mul_pow2, Z.shiftr_div_pow2 by lia.
  change (2 ^ 3) with 8. split; [lia|apply Z.div_pos; lia].
Qed.

Lemma New_wf m0 k0 : wf (New m0 k0) /\ k (New m0 k0) <= 30.
Proof.
  destruct (align8_spec m0) as (q & Hq & Hq0). unfold New, wf. cbn [m bits k].
  rewrite Hq. replace (8 * q / 8) with q by (rewrite Z.mul_comm, Z.div_mul; lia).
  replace ((8 * q + 7) / 8) with q.
  2:{ rewrite Z.mul_comm, Z.div_add_l by lia. by rewrite Z.add_0_r. }
  unfold zlen. rewrite length_replicate.
  destruct (k0 <? 1) eqn:E1; [change (30 <? 1) with false; lia|].
  destruct (30 <? k0) eqn:E2; lia.
Qed.

Lemma probe_range sum m i : 0 < m -> 0 <= probe sum m i < m.
Proof. intros H. unfold probe. by apply Z.mod_pos_bound. Qed.

Lemma probe_in_bounds (bs : bytes) sum m i : 0 < m -> zlen bs = (m + 7) / 8 ->
  0 <= probe sum m i / 8 < zlen bs.
Proof.
  intros Hm Hl. pose proof (probe_range sum m i Hm). rewrite Hl. split.
  - apply Z.div_pos; lia.
  - apply Z.div_lt_upper_bound; [lia|].
    pose proof (Z.div_mod (m + 7) 8). pose proof (Z.mod_pos_bound (m + 7) 8). lia.
Qed.

Lemma set_bit_length bs idx : length (set_bit bs idx) = length bs.
Proof. apply length_alter. Qed.

Lemma add_loop_length cnt i sum m bs : length (add_loop cnt i sum m bs) = length bs.
Proof.
  revert i bs. induction cnt as [|cnt IH]; intros i bs; [done|]. simpl. by rewrite IH, set_bit_length.
Qed.

Lemma land_single a j : 0 <= j -> negb (Z.land a (Z.shiftl 1 j) =? 0) = Z.testbit a j.
Proof.
  intros Hj. rewrite Z.shiftl_1_l. destruct (Z.testbit a j) eqn:E.
  - destruct (Z.eqb_spec (Z.land a (2 ^ j)) 0) as [H|]; [|done].
    apply (f_equal (fun z => Z.testbit z j)) in H.
    rewrite Z.land_spec, Z.pow2_bits_true, E, Z.bits_0 in H by done. done.
  - apply negb_false_iff, Z.eqb_eq. apply Z.bits_inj'. intros i Hi.
    rewrite Z.land_spec, Z.bits_0, Z.pow2_bits_eqb by done.
    destruct (Z.eqb_spec j i); [subst; by rewrite E|apply andb_false_r].
Qed.

Lemma byte_lor_testbit b j i : 0 <= j < 8 -> 0 <= i < 8 ->
  Z.testbit (byte_Z (byte_of_Z (Z.lor (byte_Z b) (Z.shiftl 1 j)))) i =
  (j =? i) || Z.testbit (byte_Z b) i.
Proof.
  intros Hj Hi. rewrite byte_Z_of_Z. change 256 with (2 ^ 8).
  rewrite Z.mod_pow2_bits_low by lia.
  rewrite Z.lor_spec, Z.shiftl_1_l, Z.pow2_bits_eqb by lia. apply orb_comm.
Qed.

(** Setting one bit sets it and keeps the others. *)
Lemma test_set_bit bs i j : 0 <= i / 8 < zlen bs -> 0 <= i -> 0 <= j ->
  test_bit (set_bit bs i) j = (i =? j) || test_bit bs j.
Proof.
  intros Hi Hi0 Hj0. unfold test_bit, set_bit.
  pose proof (Z.mod_pos_bound i 8 eq_refl). pose proof (Z.mod_pos_bound j 8 eq_refl).
  pose proof (Z.div_mod i 8). pose proof (Z.div_mod j 8). pose proof (Z.div_pos j 8).
  destruct (decide (i / 8 = j / 8)) as [E|E].
  - rewrite E, list_lookup_alter_eq.
    destruct (bs !! Z.to_nat (j / 8)) as [b|] eqn:Eb.
    + simpl. rewrite !land_single by lia. rewrite byte_lor_testbit by lia. f_equal.
      destruct (Z.eqb_spec (i mod 8) (j mod 8)), (Z.eqb_spec i j); lia.
    + apply lookup_ge_None in Eb. unfold zlen in *. lia.
  - rewrite list_lookup_alter_ne by lia.
    replace (i =? j) with false; [done|]. symmetry. apply Z.eqb_neq. congruence.
Qed.

Section loops.
Context (sum mm : Z) (Hm : 0 < mm).

Lemma add_loop_keeps cnt i bs idx : zlen bs = (mm + 7) / 8 -> 0 <= idx ->
  test_bit bs idx = true -> test_bit (add_loop cnt i sum mm bs) idx = true.
Proof.
  revert i bs. induction cnt as [|cnt IH]; intros i bs Hl Hi Ht; [done|]. simpl.
  apply IH; [by unfold zlen; rewrite set_bit_length| done |].
  rewrite test_set_bit; [by rewrite Ht, orb_true_r|by apply probe_in_bounds| |done].
  apply probe_range; lia.
Qed.

Lemma add_loop_sets cnt i bs j : zlen bs = (mm + 7) / 8 -> i <= j < i + Z.of_nat cnt ->
  test_bit (add_loop cnt i sum mm bs) (probe sum mm j) = true.
Proof.
  revert i bs. induction cnt as [|cnt IH]; intros i bs Hl Hj; [lia|]. simpl.
  assert (Hl' : zlen (set_bit bs (probe sum mm i)) = (mm + 7) / 8)
    by by unfold zlen; rewrite set_bit_length.
  destruct (decide (i = j)) as [->|Hne]; [|apply IH; [done|lia]].
  pose proof (probe_range sum mm j Hm).
  apply add_loop_keeps; [done|lia|]. rewrite test_set_bit; [by rewrite Z.eqb_refl| |lia|lia].
  by apply probe_in_bounds.
Qed.

Lemma check_loop_all cnt i bs :
  check_loop cnt i sum mm bs = true <->
  forall j, i <= j < i + Z.of_nat cnt -> test_bit bs (probe sum mm j) = true.
Proof.
  revert i. induction cnt as [|cnt IH]; intros i; simpl; [split; [intros _ j; lia|done]|].
  destruct (test_bit bs (probe sum mm i)) eqn:E.
  - rewrite IH. split; intros H j Hj.
    + destruct (decide (j = i)) as [->|]; [done|]. apply H. lia.
    + apply H. lia.
  - split; [done|]. intros H. rewrite (H i) in E by lia. done.
Qed.

End loops.

Lemma Add_wf f key : wf f -> wf (Add f key).
Proof.
  intros (H1 & H2 & H3). unfold Add. destruct (m f =? 0); [done|].
  unfold wf. cbn [m bits k]. unfold zlen. by rewrite add_loop_length.
Qed.

Lemma Add_mono f key key' : wf f -> MayContain f key' = true -> MayContain (Add f key) key' = true.
Proof.
  intros (H1 & H2 & H3). unfold Add, MayContain. destruct (m f =? 0) eqn:E; [by rewrite E|].
  cbn [m bits k]. rewrite E. intros H. rewrite check_loop_all in *. intros j Hj.
  pose proof (probe_range (fnv64a key') (m f) j).
  apply add_loop_keeps; [lia|done|lia|by apply H].
Qed.

Lemma Add_contains f key : wf f -> MayContain (Add f key) key = true.
Proof.
  intros (H1 & H2 & H3). unfold Add, MayContain. destruct (m f =? 0) eqn:E; [by rewrite E|].
  cbn [m bits k]. rewrite E. apply check_loop_all. intros j Hj. apply add_loop_sets; [lia|done|lia].
Qed.

Definition add_all (f : Filter) (keys : list bytes) : Filter := fold_left Add keys f.

Lemma add_all_wf f keys : wf f -> wf (add_all f keys).
Proof.
  revert f. induction keys as [|key keys IH]; intros f H; [done|]. simpl. by apply IH, Add_wf.
Qed.

Lemma add_all_mono f keys key : wf f -> MayContain f key = true -> MayContain (add_all f keys) key = true.
Proof.
  revert f. induction keys as [|key' keys IH]; intros f Hw H; [done|]. simpl.
  apply IH; [by apply Add_wf|by apply Add_mono].
Qed.

(** No key that was added is ever denied. *)
Lemma add_all_contains f keys key : wf f -> key ∈ keys -> MayContain (add_all f keys) key = true.
Proof.
  intros Hw Hin. revert f Hw. induction Hin as [?|? ? ? _ IH]; intros f Hw; simpl.
  - apply add_all_mono; [by apply Add_wf|by apply Add_contains].
  - by apply IH, Add_wf.
Qed.

Lemma Add_params f key : k (Add f key) = k f /\ m (Add f key) = m f.
Proof. unfold Add. by destruct (m f =? 0). Qed.

Lemma add_all_params f keys : k (add_all f keys) = k f /\ m (add_all f keys) = m f.
Proof.
  revert f. induction keys as [|key keys IH]; intros f; [done|]. simpl.
  destruct (IH (Add f key)) as [-> ->]. apply Add_params.
Qed.

(** * Encoding *)

Lemma Decode_Encode f rest : wf f -> 0 < m f < 2 ^ 32 -> k f < 2 ^ 32 ->
  Decode (Encode f ++ rest) = Some (mkFilter (bits f) (k f) 0 (m f)).
Proof.
  intros (H1 & H2 & H3) Hm Hk. unfold Decode, Encode. rewrite <- !app_assoc.
  autorewrite with zlen. pose proof (zlen_nonneg (bits f)). pose proof (zlen_nonneg rest).
  destruct (_ <? 8) eqn:E1; [lia|]. clear E1.
  rewrite get_put_u32 by auto. rewrite drop_app_length' by by rewrite length_put_u32.
  rewrite get_put_u32 by auto. rewrite !u32_id by (unfold is_u32; lia).
  destruct (m f =? 0) eqn:E2; [lia|]. destruct (k f =? 0) eqn:E3; [lia|]. cbn [orb].
  replace (drop 8 (put_u32 (k f) ++ put_u32 (m f) ++ bits f ++ rest)) with (bits f ++ rest).
  2:{ rewrite app_assoc. rewrite drop_app_length'; [done|]. by rewrite length_app, !length_put_u32. }
  rewrite zlen_app. destruct (_ <? (m f + 7) / 8) eqn:E4; [lia|].
  rewrite <- H2. unfold zlen. by rewrite Nat2Z.id, take_app_length.
Qed.

Lemma MayContain_bits f f' key : bits f' = bits f -> k f' = k f -> m f' = m f ->
  MayContain f' key = MayContain f key.
Proof. unfold MayContain. intros -> -> ->. done. Qed.

(** What is decoded never makes a later probe run past its array. *)
Lemma Decode_wf data f : Decode data = Some f -> wf f /\ 0 < m f.
Proof.
  unfold Decode. destruct (_ <? 8); [done|].
  set (mm := get_u32 (drop 4 data)). set (kk := get_u32 data).
  assert (Hm : is_u32 mm) by apply get_u32_range. assert (Hk : is_u32 kk) by apply get_u32_range.
  destruct (mm =? 0) eqn:E1; [done|]. destruct (kk =? 0) eqn:E2; [done|]. cbn [orb].
  destruct (_ <? (mm + 7) / 8) eqn:E3; [done|]. intros [= <-]. unfold wf. cbn [m bits k].
  unfold is_u32 in *. pose proof (Z.div_pos (mm + 7) 8).
  unfold zlen in *. rewrite length_take. lia.
Qed.

Lemma align8_range m0 : 1 <= m0 < 2 ^ 30 -> 8 <= align8 m0 < 2 ^ 31.
Proof.
  intros H. unfold align8. rewrite u64_id by (unfold is_u64; lia).
  change 7 with (Z.ones 3) at 2. change 7 with (Z.ones 3) at 3.
  rewrite Z.ldiff_ones_r by lia. rewrite Z.shiftl_mul_pow2, Z.shiftr_div_pow2 by lia. change (2 ^ 3) with 8.
  pose proof (Z.div_mod (m0 + 7) 8). pose proof (Z.mod_pos_bound (m0 + 7) 8). lia.
Qed.

(** C28: The filter has no false negatives across the disk: whatever keys were added,
    in whatever order, decoding the encoded filter (with any bytes behind it) gives a
    filter that answers true for each of them; so [Get] never skips a table that
    holds the key. *)
Theorem bloom_no_false_negatives m0 k0 keys key rest : 1 <= m0 < 2 ^ 30 -> key ∈ keys ->
  exists f, Decode (Encode (add_all (New m0 k0) keys) ++ rest) = Some f /\ MayContain f key = true.
Proof.
  intros Hm Hk. destruct (New_wf m0 k0) as [Hwf Hk30]. destruct (add_all_params (New m0 k0) keys) as [Ek Em].
  pose proof (align8_range m0 Hm) as Ha. change (align8 m0) with (m (New m0 k0)) in Ha.
  eexists. split; [apply Decode_Encode; [by apply add_all_wf|rewrite Em; lia|rewrite Ek; lia]|].
  rewrite (MayContain_bits (add_all (New m0 k0) keys)) by done. by apply add_all_contains.
Qed.

Lemma bloom_no_false_negatives_witness :
  exists f, Decode (Encode (add_all (New 20 7) [[x61]; [x62]]) ++ [x00]) = Some f /\ MayContain f [x62] = true.
Proof. apply (bloom_no_false_negatives 20 7 [[x61]; [x62]] [x62] [x00]); [lia|by_decide]. Defined.

End Bloom.
