(* ===== verification/SstFormat.v ===== *)
(** The SSTable file format (internal/sstable: block.go, index.go, footer.go and
    [decodeIndex] of reader.go): data blocks, the block index and the footer, with
    the iterator over one block. *)

From Stdlib Require Import ZArith Lia.
From S2P Require Import Prelude Word.

Module SstFormat.

(** * Blocks (block.go) *)

Definition MaxUint32 : Z := 2 ^ 32 - 1.

Definition tomb_byte (b : bool) : byte := if b then x01 else x00.

(** A [Block] is its data. *)
Definition NewBlock : bytes := [].

Definition Append (b : bytes) (key value : bytes) (tombstone : bool) : res bytes :=
  if (MaxUint32 <? zlen key) || (MaxUint32 <? zlen value) then Err sst_ErrKeyTooLarge else
  let keyLen := u32 (zlen key) in
  let valLen := u32 (zlen value) in
  let buf := put_u32 keyLen ++ key ++ put_u32 valLen ++ value ++ [tomb_byte tombstone] in
  Ok (b ++ buf).

Definition block_Size (b : bytes) : Z := zlen b.

Record BlockIterator := mkBlockIterator {
  bi_data : bytes;
  bi_pos : Z;
  bi_key : bytes;
  bi_val : bytes;
  bi_tombstone : bool
}.

Definition NewBlockIterator (data : bytes) : BlockIterator := mkBlockIterator data 0 [] [] false.

(** [Next]: whether there is an entry, and the iterator after the call; the early
    returns leave the fields assigned so far. *)
Definition bi_Next (it : BlockIterator) : bool * BlockIterator :=
  let data := bi_data it in
  let len := zlen data in
  let pos := bi_pos it in
  if len <? pos + 4 then (false, it) else
  let keyLen := get_u32 (drop (Z.to_nat pos) data) in
  let pos := pos + 4 in
  if len <? pos + keyLen
  then (false, mkBlockIterator data pos (bi_key it) (bi_val it) (bi_tombstone it)) else
  let key := slice data pos (pos + keyLen) in
  let pos := pos + keyLen in
  if len <? pos + 4
  then (false, mkBlockIterator data pos key (bi_val it) (bi_tombstone it)) else
  let valLen := get_u32 (drop (Z.to_nat pos) data) in
  let pos := pos + 4 in
  if len <? pos + valLen
  then (false, mkBlockIterator data pos key (bi_val it) (bi_tombstone it)) else
  let val := slice data pos (pos + valLen) in
  let pos := pos + valLen in
  if len <=? pos
  then (false, mkBlockIterator data pos key val (bi_tombstone it)) else
  let tombByte := nth (Z.to_nat pos) data x00 in
  (true, mkBlockIterator data (pos + 1) key val (byte_Z tombByte =? 1)).

Definition bi_Key (it : BlockIterator) : bytes := bi_key it.
Definition bi_Value (it : BlockIterator) : bytes := bi_val it.
Definition bi_IsTombstone (it : BlockIterator) : bool := bi_tombstone it.

(** [for it.Next() { if bytes.Compare(it.key, key) >= 0 { return true } }] *)
Fixpoint bi_seek_loop (fuel : nat) (it : BlockIterator) (key : bytes) : bool * BlockIterator :=
  match fuel with
  | O => (false, it)
  | S fuel' =>
      match bi_Next it with
      | (true, it') =>
          if negb (bytes_ltb (bi_key it') key) then (true, it') else bi_seek_loop fuel' it' key
      | (false, it') => (false, mkBlockIterator (bi_data it') (bi_pos it') [] [] (bi_tombstone it'))
      end
  end.

Definition bi_Seek (it : BlockIterator) (key : bytes) : bool * BlockIterator :=
  bi_seek_loop (S (length (bi_data it))) (mkBlockIterator (bi_data it) 0 [] [] false) key.

(** * The index (index.go, decodeIndex) *)

Record IndexEntry := mkIndexEntry { LastKey : bytes; Offset : Z; Length : Z }.

Definition index_Add (idx : list IndexEntry) (e : IndexEntry) : list IndexEntry := idx ++ [e].

Definition index_entry_bytes (e : IndexEntry) : bytes :=
  put_u32 (u32 (zlen (LastKey e))) ++ LastKey e ++ put_u64 (Offset e) ++ put_u64 (Length e).

Definition index_Encode (idx : list IndexEntry) : bytes := concat (index_entry_bytes <$> idx).

(** The loop of [decodeIndex] on what is left of the data; each round consumes
    at least 20 bytes. *)
Fixpoint decodeIndex_loop (fuel : nat) (data : bytes) (entries : list IndexEntry)
  : res (list IndexEntry) :=
  if zlen data =? 0 then Ok entries else
  match fuel with
  | O => Err sst_ErrCorruptIndex
  | S fuel' =>
      if zlen data <? 4 then Err sst_ErrCorruptIndex else
      let keyLen := get_u32 data in
      let data1 := drop 4 data in
      if zlen data1 <? keyLen then Err sst_ErrCorruptIndex else
      let lastKey := take (Z.to_nat keyLen) data1 in
      let data2 := drop (Z.to_nat keyLen) data1 in
      if zlen data2 <? 16 then Err sst_ErrCorruptIndex else
      let offset := get_u64 data2 in
      let length := get_u64 (drop 8 data2) in
      decodeIndex_loop fuel' (drop 16 data2) (entries ++ [mkIndexEntry lastKey offset length])
  end.

Definition decodeIndex (data : bytes) : res (list IndexEntry) :=
  decodeIndex_loop (length data) data [].

(** * The footer (footer.go) *)

Definition footerSize : Z := 48.
Definition magicNumber : Z := 0x88e241b3.
Definition currentVersion : Z := 2.

Record Footer := mkFooter {
  IndexOffset : Z; IndexLength : Z; BloomOffset : Z; BloomLength : Z; Version : Z; Magic : Z
}.

Definition footer_Encode (f : Footer) : bytes :=
  put_u64 (IndexOffset f) ++ put_u64 (IndexLength f) ++ put_u64 (BloomOffset f) ++
  put_u64 (BloomLength f) ++ put_u32 (Version f) ++ put_u32 (Magic f) ++ replicate 8 x00.

Definition footer_Decode (data : bytes) : res Footer :=
  if zlen data <? footerSize then Err sst_ErrCorruptFooter else
  Ok (mkFooter (get_u64 data) (get_u64 (drop 8 data)) (get_u64 (drop 16 data))
               (get_u64 (drop 24 data)) (get_u32 (drop 32 data)) (get_u32 (drop 36 data))).

(** Seeking before the start of the file is an error of the call (EINVAL). *)
Definition ReadFooter (file : bytes) : res Footer :=
  if zlen file <? footerSize then Err (os_error 22) else
  let buf := drop (length file - 48) file in
  let? footer := footer_Decode buf in
  if negb (Magic footer =? magicNumber) then Err sst_ErrBadMagic
  else if negb (Version footer =? currentVersion) then Err sst_ErrUnsupportedVersion
  else Ok footer.

(** * Blocks are read back *)

(** The bytes of one entry, and of a list of entries. *)
Definition entry_wire (e : entry) : bytes :=
  put_u32 (zlen (Key e)) ++ Key e ++ put_u32 (zlen (Value e)) ++ Value e ++ [tomb_byte (Tombstone e)].

Definition block_of (es : list entry) : bytes := concat (entry_wire <$> es).

(** The lengths fit their 32-bit fields. *)
Definition fits (e : entry) : Prop := is_u32 (zlen (Key e)) /\ is_u32 (zlen (Value e)).

Lemma block_of_app es1 es2 : block_of (es1 ++ es2) = block_of es1 ++ block_of es2.
Proof. unfold block_of. by rewrite fmap_app, concat_app. Qed.

Lemma block_of_cons e es : block_of (e :: es) = entry_wire e ++ block_of es.
Proof. done. Qed.

Lemma block_of_one e : block_of [e] = entry_wire e.
Proof. exact (app_nil_r (entry_wire e)). Qed.

Lemma zlen_entry_wire e : zlen (entry_wire e) = 4 + zlen (Key e) + 4 + zlen (Value e) + 1.
Proof. unfold entry_wire. autorewrite with zlen. rewrite zlen_cons. change (zlen (@nil byte)) with 0. lia. Qed.

Lemma Append_wire b e : fits e -> Append b (Key e) (Value e) (Tombstone e) = Ok (b ++ entry_wire e).
Proof.
  intros [H1 H2]. unfold Append, MaxUint32, is_u32 in *.
  destruct (_ <? zlen (Key e)) eqn:E1; [lia|]. destruct (_ <? zlen (Value e)) eqn:E2; [lia|].
  cbn [orb]. rewrite !u32_id by done. done.
Qed.

Lemma tomb_flag_roundtrip b : (byte_Z (tomb_byte b) =? 1) = b.
Proof. by destruct b. Qed.

(** The iterator stands behind [pre] with the entries [es] ahead of it. *)
Definition ahead (it : BlockIterator) (pre : bytes) (es : list entry) : Prop :=
  bi_data it = pre ++ block_of es /\ bi_pos it = zlen pre.

Lemma bi_Next_cons it pre e es : fits e -> ahead it pre (e :: es) ->
  exists it', bi_Next it = (true, it') /\ ahead it' (pre ++ entry_wire e) es /\
    bi_key it' = Key e /\ bi_val it' = Value e /\ bi_tombstone it' = Tombstone e.
Proof.
  intros [Hk Hv] [Hd Hp]. unfold bi_Next. rewrite Hd, Hp, block_of_cons.
  pose proof (zlen_nonneg pre). pose proof (zlen_nonneg (Key e)). pose proof (zlen_nonneg (Value e)).
  pose proof (zlen_nonneg (block_of es)).
  assert (Hlen : zlen (pre ++ entry_wire e ++ block_of es) =
    zlen pre + (4 + zlen (Key e) + 4 + zlen (Value e) + 1) + zlen (block_of es)).
  { rewrite !zlen_app, zlen_entry_wire. lia. }
  rewrite Hlen. clear Hlen. set (R := block_of es) in *.
  unfold entry_wire. rewrite <- !app_assoc.
  destruct (_ <? zlen pre + 4) eqn:E1; [lia|clear E1].
  rewrite (drop_zlen pre) by done. rewrite get_put_u32 by done.
  destruct (_ <? zlen pre + 4 + zlen (Key e)) eqn:E2; [lia|clear E2].
  destruct (_ <? zlen pre + 4 + zlen (Key e) + 4) eqn:E3; [lia|clear E3].
  set (data := pre ++ put_u32 (zlen (Key e)) ++ Key e ++ put_u32 (zlen (Value e)) ++
    Value e ++ [tomb_byte (Tombstone e)] ++ R).
  assert (D2 : data = (pre ++ put_u32 (zlen (Key e)) ++ Key e) ++ put_u32 (zlen (Value e)) ++
    Value e ++ [tomb_byte (Tombstone e)] ++ R) by (unfold data; by rewrite <- !app_assoc).
  assert (Hvl : get_u32 (drop (Z.to_nat (zlen pre + 4 + zlen (Key e))) data) = zlen (Value e)).
  { rewrite D2, drop_zlen by (autorewrite with zlen; lia). by rewrite get_put_u32. }
  rewrite Hvl. clear Hvl.
  destruct (_ <? zlen pre + 4 + zlen (Key e) + 4 + zlen (Value e)) eqn:E4; [lia|clear E4].
  destruct (_ <=? _) eqn:E5; [lia|clear E5].
  eexists. split; [done|]. split; [|split; [|split]]; cbn [bi_data bi_pos bi_key bi_val bi_tombstone].
  - split; cbn [bi_data bi_pos].
    + unfold data. by rewrite <- !app_assoc.
    + autorewrite with zlen.
      change (zlen [tomb_byte (Tombstone e)]) with 1. lia.
  - unfold data. rewrite app_assoc. apply slice_app_mid; autorewrite with zlen; lia.
  - rewrite D2, app_assoc. apply slice_app_mid; autorewrite with zlen; lia.
  - assert (Hn : nth (Z.to_nat (zlen pre + 4 + zlen (Key e) + 4 + zlen (Value e))) data x00 =
      tomb_byte (Tombstone e)).
    { assert (D3 : data = (pre ++ put_u32 (zlen (Key e)) ++ Key e ++ put_u32 (zlen (Value e)) ++ Value e)
        ++ [tomb_byte (Tombstone e)] ++ R) by (unfold data; by rewrite <- !app_assoc).
      rewrite D3. apply nth_middle_at. autorewrite with zlen. lia. }
    rewrite Hn. apply tomb_flag_roundtrip.
Qed.

Lemma bi_Next_nil it pre : ahead it pre [] -> bi_Next it = (false, it).
Proof.
  intros [Hd Hp]. unfold bi_Next. rewrite Hd, Hp. unfold block_of. cbn [fmap list_fmap concat].
  rewrite app_nil_r. by replace (zlen pre <? zlen pre + 4) with true by lia.
Qed.

Lemma ahead_start es : ahead (NewBlockIterator (block_of es)) [] es.
Proof. done. Qed.

Lemma block_of_length es : (length es <= length (block_of es))%nat.
Proof.
  induction es as [|e es IH]; [done|]. rewrite block_of_cons, length_app.
  pose proof (zlen_entry_wire e) as H. pose proof (zlen_nonneg (Key e)).
  pose proof (zlen_nonneg (Value e)). unfold zlen in *. simpl length. lia.
Qed.

(** The entry an iterator stands on. *)
Definition bi_entry (it : BlockIterator) : entry := Entry (bi_key it) (bi_val it) (bi_tombstone it).

Lemma bi_seek_loop_spec fuel it pre es key : Forall fits es -> ahead it pre es ->
  (length es < fuel)%nat ->
  match skip_below key es with
  | [] => exists it', bi_seek_loop fuel it key = (false, it')
  | e :: es' => exists it' pre', bi_seek_loop fuel it key = (true, it') /\
                  ahead it' pre' es' /\ bi_entry it' = e
  end.
Proof.
  intros Hf. revert it pre fuel. induction Hf as [|e es He _ IH]; intros it pre fuel Ha Hl;
    (destruct fuel as [|fuel]; [simpl in Hl; lia|]); cbn [bi_seek_loop skip_below].
  - rewrite (bi_Next_nil it pre Ha). by eexists.
  - destruct (bi_Next_cons it pre e es He Ha) as (it' & -> & Ha' & Hk & Hv & Ht).
    rewrite Hk. destruct (bytes_ltb (Key e) key); cbn [negb].
    + apply (IH it' (pre ++ entry_wire e)); [done|simpl in Hl; lia].
    + exists it', (pre ++ entry_wire e). split; [done|]. split; [done|].
      unfold bi_entry. rewrite Hk, Hv, Ht. by destruct e.
Qed.

Lemma bi_Seek_spec it es key : Forall fits es -> bi_data it = block_of es ->
  match skip_below key es with
  | [] => exists it', bi_Seek it key = (false, it')
  | e :: es' => exists it' pre', bi_Seek it key = (true, it') /\
                  ahead it' pre' es' /\ bi_entry it' = e
  end.
Proof.
  intros Hf Hd. unfold bi_Seek. rewrite Hd. apply bi_seek_loop_spec with (pre := []); [done|done|].
  pose proof (block_of_length es). lia.
Qed.

(** * The index is read back *)

Definition index_ok (e : IndexEntry) : Prop :=
  is_u32 (zlen (LastKey e)) /\ is_u64 (Offset e) /\ is_u64 (Length e).

Lemma zlen_index_entry e : zlen (index_entry_bytes e) = 20 + zlen (LastKey e).
Proof. unfold index_entry_bytes. autorewrite with zlen. lia. Qed.

Lemma decodeIndex_loop_cons fuel e rest acc : index_ok e ->
  decodeIndex_loop (S fuel) (index_entry_bytes e ++ rest) acc =
  decodeIndex_loop fuel rest (acc ++ [e]).
Proof.
  intros (Hk & Ho & Hl). cbn [decodeIndex_loop]. rewrite zlen_app, zlen_index_entry.
  pose proof (zlen_nonneg (LastKey e)). pose proof (zlen_nonneg rest).
  destruct (_ =? 0) eqn:E0; [lia|]. destruct (_ <? 4) eqn:E1; [lia|]. clear E0 E1.
  unfold index_entry_bytes. rewrite u32_id by done. rewrite <- !app_assoc.
  rewrite get_put_u32 by done. rewrite drop_app_length' by by rewrite length_put_u32.
  rewrite (drop_zlen (LastKey e)), (take_zlen (LastKey e)) by done.
  autorewrite with zlen. destruct (_ <? zlen (LastKey e)) eqn:E2; [lia|].
  destruct (_ <? 16) eqn:E3; [lia|]. clear E2 E3. rewrite get_put_u64 by done.
  rewrite (drop_app_length' _ _ 8) by by rewrite length_put_u64. rewrite get_put_u64 by done.
  rewrite (app_assoc (put_u64 (Offset e))).
  rewrite drop_app_length' by by rewrite length_app, !length_put_u64. by destruct e.
Qed.

Lemma decodeIndex_loop_all idx fuel acc : Forall index_ok idx -> (length idx <= fuel)%nat ->
  decodeIndex_loop fuel (index_Encode idx) acc = Ok (acc ++ idx).
Proof.
  intros H. revert fuel acc. induction H as [|e idx He _ IH]; intros fuel acc Hl.
  - destruct fuel; simpl; by rewrite app_nil_r.
  - destruct fuel as [|fuel]; [simpl in Hl; lia|].
    change (index_Encode (e :: idx)) with (index_entry_bytes e ++ index_Encode idx).
    rewrite decodeIndex_loop_cons, IH by (try done; simpl in Hl; lia). by rewrite <- app_assoc.
Qed.

Lemma index_Encode_length idx : (length idx <= length (index_Encode idx))%nat.
Proof.
  induction idx as [|e idx IH]; [done|].
  change (index_Encode (e :: idx)) with (index_entry_bytes e ++ index_Encode idx).
  rewrite length_app. pose proof (zlen_index_entry e) as H. pose proof (zlen_nonneg (LastKey e)).
  unfold zlen in *. simpl length. lia.
Qed.

Lemma decodeIndex_Encode idx : Forall index_ok idx -> decodeIndex (index_Encode idx) = Ok idx.
Proof.
  intros H. unfold decodeIndex. rewrite decodeIndex_loop_all; [done|done|apply index_Encode_length].
Qed.

(** * The footer is read back *)

Definition footer_ok (f : Footer) : Prop :=
  is_u64 (IndexOffset f) /\ is_u64 (IndexLength f) /\ is_u64 (BloomOffset f) /\
  is_u64 (BloomLength f) /\ is_u32 (Version f) /\ is_u32 (Magic f).

Lemma length_footer f : length (footer_Encode f) = 48%nat.
Proof. unfold footer_Encode. autorewrite with zlen. by rewrite length_replicate. Qed.

Lemma footer_Decode_Encode f : footer_ok f -> footer_Decode (footer_Encode f) = Ok f.
Proof.
  intros (H1 & H2 & H3 & H4 & H5 & H6). unfold footer_Decode.
  replace (zlen (footer_Encode f) <? footerSize) with false by (unfold zlen; by rewrite length_footer).
  unfold footer_Encode.
  assert (D : forall (a b : bytes) (n m : nat), length a = m -> drop (m + n) (a ++ b) = drop n b).
  { intros a b n' m' <-. rewrite <- drop_drop. by rewrite drop_app_length. }
  rewrite !(D _ _ 8 8)%nat, !(D _ _ 16 8)%nat, !(D _ _ 24 8)%nat, !(D _ _ 28 8)%nat,
    !(D _ _ 0 8)%nat, ?(D _ _ 8 8)%nat, ?(D _ _ 16 8)%nat, ?(D _ _ 20 8)%nat, ?(D _ _ 0 8)%nat,
    ?(D _ _ 8 8)%nat, ?(D _ _ 12 8)%nat, ?(D _ _ 0 8)%nat, ?(D _ _ 4 8)%nat, ?(D _ _ 0 4)%nat
    by apply length_put_u64 || apply length_put_u32.
  rewrite !drop_0, !get_put_u64, !get_put_u32 by done. by destruct f.
Qed.

End SstFormat.
