(* ===== verification/SstWriter.v ===== *)
(** Writing an SSTable (internal/sstable/writer.go).

    A [Writer] collects entries in ascending order into blocks of about
    [blockSize] bytes and writes the file under a temporary name; [Close] adds
    the index, the Bloom filter and the footer, syncs, and renames.  The sizes
    that [bloom.New] computes in floating point for the false-positive rate 0.01
    come from [BloomSizing]. *)

From Stdlib Require Import ZArith Lia.
From S2P Require Import Prelude Word Fs Bloom SstFormat.

(** [m = -n ln(0.01) / (ln 2)^2], about 9.6 bits per entry, and
    [k = ceil(m / n * ln 2)], for [n] expected entries. *)
Class BloomSizing := {
  bloom_m : Z -> Z;
  bloom_k : Z -> Z;
  bloom_m_range : forall n, 1 <= n < 2 ^ 26 -> 1 <= bloom_m n < 2 ^ 30
}.

Module SstWriter.
Import SstFormat.

Record Writer := mkWriter {
  w_file : bool;
  tmpPath : string;
  finalPath : string;
  blockSize : Z;
  current : bytes;
  index : list IndexEntry;
  bloom : Bloom.Filter;
  lastKey : bytes;
  offset : Z
}.

Definition set_current (w : Writer) (c : bytes) : Writer :=
  mkWriter (w_file w) (tmpPath w) (finalPath w) (blockSize w) c (index w) (bloom w) (lastKey w) (offset w).
Definition set_offset (w : Writer) (o : Z) : Writer :=
  mkWriter (w_file w) (tmpPath w) (finalPath w) (blockSize w) (current w) (index w) (bloom w) (lastKey w) o.
Definition set_file (w : Writer) (f : bool) (tmp : string) : Writer :=
  mkWriter f tmp (finalPath w) (blockSize w) (current w) (index w) (bloom w) (lastKey w) (offset w).

Definition tmp_of (path : string) : string := String.append path ".tmp".

Definition NewWriter `{BloomSizing} (path : string) (blockSize expectedEntries : Z) : io Writer :=
  if blockSize <=? 0 then io_err sst_ErrInvalidBlockSize else
  let expectedEntries := if expectedEntries <? 1 then 1 else expectedEntries in
  let tmpPath := tmp_of path in
  fs_open_trunc tmpPath ;;!
  io_ret (mkWriter true tmpPath path blockSize NewBlock []
            (Bloom.New (bloom_m expectedEntries) (bloom_k expectedEntries)) [] 0).

(** Calls on a file handle that is gone fail. *)
Definition on_file {A} (w : Writer) (m : io A) : io A :=
  if w_file w then m else io_err (os_error 22).

Definition cleanup (w : Writer) : io Writer :=
  (if w_file w then ignore (fs_close (tmpPath w)) else io_ret tt) ;;!
  (if decide (tmpPath w = ""%string) then io_ret tt else ignore (fs_remove (tmpPath w))) ;;!
  io_ret (set_file w false ""%string).

(** Each operation returns the writer after the call and the error of the call. *)
Definition flushBlock (w : Writer) : io (Writer * option error) :=
  if block_Size (current w) =? 0 then io_ret (w, None) else
  let blockData := current w in
  let! r := try (on_file w (fs_write (tmpPath w) blockData)) in
  match r with
  | inr e => io_ret (w, Some e)
  | inl _ =>
      let n := zlen blockData in
      io_ret (mkWriter (w_file w) (tmpPath w) (finalPath w) (blockSize w) []
                (index_Add (index w) (mkIndexEntry (lastKey w) (offset w) (u64 n)))
                (bloom w) (lastKey w) (u64 (offset w + n)), None)
  end.

Definition Add (w : Writer) (key value : bytes) (tombstone : bool) : io (Writer * option error) :=
  if negb (bool_decide (lastKey w = [])) && bytes_leb key (lastKey w)
  then io_ret (w, Some sst_ErrKeyOutOfOrder) else
  let entrySize := 4 + zlen key + 4 + zlen value + 1 in
  let! (w1, e1) :=
    (if (blockSize w <? block_Size (current w) + entrySize) && (0 <? block_Size (current w))
     then flushBlock w else io_ret (w, None)) in
  match e1 with
  | Some e => io_ret (w1, Some e)
  | None =>
      match Append (current w1) key value tombstone with
      | Err e => io_ret (w1, Some e)
      | Crashed => io_res Crashed
      | Ok c =>
          io_ret (mkWriter (w_file w1) (tmpPath w1) (finalPath w1) (blockSize w1) c
                    (index w1) (Bloom.Add (bloom w1) key) key (offset w1), None)
      end
  end.

(** [if err := m; err != nil { w.cleanup(); return err }] *)
Definition or_cleanup (w : Writer) (m : io unit) (k : io (Writer * option error))
  : io (Writer * option error) :=
  let! r := try m in
  match r with
  | inr e => let! w' := cleanup w in io_ret (w', Some e)
  | inl _ => k
  end.

(** The end of [Close]: index, Bloom filter, footer, sync, rename. *)
Definition finish (w : Writer) : io (Writer * option error) :=
  let indexData := index_Encode (index w) in
  let indexOffset := offset w in
  or_cleanup w (on_file w (fs_write (tmpPath w) indexData)) (
  let w := set_offset w (u64 (offset w + zlen indexData)) in
  let bloomData := Bloom.Encode (bloom w) in
  let bloomOffset := offset w in
  or_cleanup w (on_file w (fs_write (tmpPath w) bloomData)) (
  let w := set_offset w (u64 (offset w + zlen bloomData)) in
  let footer := mkFooter indexOffset (u64 (zlen indexData)) bloomOffset (u64 (zlen bloomData))
                  currentVersion magicNumber in
  or_cleanup w (on_file w (fs_write (tmpPath w) (footer_Encode footer))) (
  or_cleanup w (on_file w (fs_sync (tmpPath w))) (
  or_cleanup w (on_file w (fs_close (tmpPath w))) (
  let! r := try (fs_rename (tmpPath w) (finalPath w)) in
  match r with
  | inr e => ignore (fs_remove (tmpPath w)) ;;! io_ret (set_file w false ""%string, Some e)
  | inl _ => io_ret (set_file w false ""%string, None)
  end))))).

Definition Close (w : Writer) : io (Writer * option error) :=
  let! (w1, e1) :=
    (if 0 <? block_Size (current w) then flushBlock w else io_ret (w, None)) in
  match e1 with
  | Some e => let! w2 := cleanup w1 in io_ret (w2, Some e)
  | None => finish w1
  end.

(** Adding a list of entries, stopping at the first error. *)
Fixpoint add_entries (w : Writer) (es : list entry) : io (Writer * option error) :=
  match es with
  | [] => io_ret (w, None)
  | e :: es' =>
      let! (w', err) := Add w (Key e) (Value e) (Tombstone e) in
      match err with
      | Some er => io_ret (w', Some er)
      | None => add_entries w' es'
      end
  end.

(** * The image of a table *)

Definition last_key (g : list entry) : bytes := default [] (Key <$> last g).

Fixpoint index_of (off : Z) (groups : list (list entry)) : list IndexEntry :=
  match groups with
  | [] => []
  | g :: gs => mkIndexEntry (last_key g) (u64 off) (u64 (zlen (block_of g)))
                 :: index_of (off + zlen (block_of g)) gs
  end.

Definition data_of (groups : list (list entry)) : bytes := concat (block_of <$> groups).

(** The file of a table whose blocks hold [groups]. *)
Definition image (bl : Bloom.Filter) (groups : list (list entry)) : bytes :=
  let data := data_of groups in
  let idx := index_Encode (index_of 0 groups) in
  let bloomData := Bloom.Encode bl in
  data ++ idx ++ bloomData ++
  footer_Encode (mkFooter (u64 (zlen data)) (u64 (zlen idx)) (u64 (zlen data + zlen idx))
                   (u64 (zlen bloomData)) currentVersion magicNumber).

(** The blocks of a table: none is empty. *)
Definition blocks (groups : list (list entry)) : Prop := Forall (fun g => g <> []) groups.

(** * What the writer has done so far *)

Section writing.
Context (path : string) (bs : Z) (b0 : Bloom.Filter).
Local Abbreviation tmp := (tmp_of path).

(** The entries [es] were added: [groups] are in the file, [cur] is pending. *)
Record writing (w : Writer) (f : fsys) (es cur : list entry) (groups : list (list entry)) : Prop := {
  wr_file : w_file w = true;
  wr_tmp : tmpPath w = tmp;
  wr_final : finalPath w = path;
  wr_size : blockSize w = bs;
  wr_split : es = concat groups ++ cur;
  wr_blocks : blocks groups;
  wr_cur : cur = [] -> es = [];
  wr_current : current w = block_of cur;
  wr_disk : f !! tmp = Some (File (data_of groups) []);
  wr_index : index w = index_of 0 groups;
  wr_offset : offset w = u64 (zlen (data_of groups));
  wr_last : lastKey w = last_key es;
  wr_bloom : bloom w = Bloom.add_all b0 (Key <$> es)
}.

Lemma last_key_app g1 g2 : g2 <> [] -> last_key (g1 ++ g2) = last_key g2.
Proof.
  intros H. unfold last_key. destruct g2 as [|e g2] using rev_ind; [done|].
  by rewrite app_assoc, !last_snoc.
Qed.

Lemma index_of_snoc off groups g :
  index_of off (groups ++ [g]) = index_of off groups ++
    [mkIndexEntry (last_key g) (u64 (off + zlen (data_of groups))) (u64 (zlen (block_of g)))].
Proof.
  revert off. induction groups as [|g' groups IH]; intros off; simpl.
  - unfold data_of, zlen. simpl. by rewrite Z.add_0_r.
  - rewrite IH. change (data_of (g' :: groups)) with (block_of g' ++ data_of groups).
    by rewrite zlen_app, Z.add_assoc.
Qed.

Lemma data_of_snoc groups g : data_of (groups ++ [g]) = data_of groups ++ block_of g.
Proof.
  unfold data_of. rewrite fmap_app, concat_app. f_equal. exact (app_nil_r _).
Qed.

Lemma u64_add a b : u64 (u64 a + b) = u64 (a + b).
Proof. unfold u64. by rewrite Z.add_mod_idemp_l by lia. Qed.

Lemma block_of_nil_inv g : block_of g = [] -> g = [].
Proof.
  intros H. pose proof (block_of_length g) as L. rewrite H in L. destruct g; [done|simpl in L; lia].
Qed.

(** Writing the pending block. *)
Lemma flushBlock_triple w es cur groups : cur <> [] ->
  triple (fun f => writing w f es cur groups) (flushBlock w)
    (fun r f => forall w', r = Ok (w', None) ->
       w_file w' = true /\ tmpPath w' = tmp /\ finalPath w' = path /\ blockSize w' = bs /\
       current w' = [] /\ f !! tmp = Some (File (data_of (groups ++ [cur])) []) /\
       index w' = index_of 0 (groups ++ [cur]) /\ offset w' = u64 (zlen (data_of (groups ++ [cur]))) /\
       lastKey w' = last_key es /\ bloom w' = Bloom.add_all b0 (Key <$> es)).
Proof.
  intros Hne wd Hw. destruct Hw.
  unfold flushBlock, block_Size, on_file. rewrite wr_current0, wr_tmp0, wr_file0.
  destruct (_ =? 0) eqn:E.
  { apply Z.eqb_eq in E. destruct Hne. apply block_of_nil_inv, zlen_nil_inv. lia. }
  pose proof (fs_write_triple tmp (block_of cur) (data_of groups) [] wd wr_disk0) as T.
  unfold io_bind, try. destruct (fs_write tmp (block_of cur) wd) as [[[]|e|] wd'];
    simpl in T |- *; try done; intros w' Hw'; simplify_eq.
  cbn [w_file tmpPath finalPath blockSize current index offset lastKey bloom].
  rewrite data_of_snoc, index_of_snoc, wr_index0, wr_offset0, wr_last0, zlen_app, u64_add.
  rewrite last_key_app by done. done.
Qed.

Lemma in_order es e : keys_sorted (es ++ [e]) ->
  negb (bool_decide (last_key es = [])) && bytes_leb (Key e) (last_key es) = false.
Proof.
  intros [H _]%keys_sorted_app. destruct es as [|x es _] using rev_ind; [done|].
  unfold last_key. rewrite last_snoc. simpl. apply andb_false_iff. right.
  apply not_true_iff_false. rewrite bytes_leb_spec. intros Hn. apply Hn, H.
  - apply elem_of_app. right. by apply list_elem_of_singleton.
  - by apply list_elem_of_singleton.
Qed.

(** The writer with one more entry in its block. *)
Lemma writing_append w f es cur groups e : fits e ->
  w_file w = true -> tmpPath w = tmp -> finalPath w = path -> blockSize w = bs ->
  es = concat groups ++ cur -> blocks groups -> current w = block_of cur ->
  f !! tmp = Some (File (data_of groups) []) -> index w = index_of 0 groups ->
  offset w = u64 (zlen (data_of groups)) -> bloom w = Bloom.add_all b0 (Key <$> es) ->
  writing (mkWriter (w_file w) (tmpPath w) (finalPath w) (blockSize w) (block_of cur ++ entry_wire e)
             (index w) (Bloom.Add (bloom w) (Key e)) (Key e) (offset w)) f (es ++ [e]) (cur ++ [e]) groups.
Proof.
  intros Hf H1 H2 H3 H4 H5 H6 H7 H8 H9 H10 H11. split; try done; cbn.
  - by rewrite H5, app_assoc.
  - intros H. by destruct cur.
  - by rewrite block_of_app, block_of_one.
  - unfold last_key. by rewrite last_snoc.
  - rewrite fmap_app, H11. unfold Bloom.add_all. by rewrite fold_left_app.
Qed.

Lemma Add_triple w es cur groups e : fits e -> keys_sorted (es ++ [e]) ->
  triple (fun f => writing w f es cur groups) (Add w (Key e) (Value e) (Tombstone e))
    (fun r f => forall w', r = Ok (w', None) ->
       exists cur' groups', writing w' f (es ++ [e]) cur' groups').
Proof.
  intros Hf Hs wd Hw. pose proof Hw as []. unfold Add. rewrite wr_last0, in_order by done.
  destruct (_ && (0 <? block_Size (current w))) eqn:E.
  - assert (Hne : cur <> []).
    { intros ->. rewrite wr_current0 in E. by rewrite andb_false_r in E. }
    pose proof (flushBlock_triple w es cur groups Hne wd Hw) as T. unfold io_bind.
    destruct (flushBlock w wd) as [[[w1 [e1|]]|e1|] wd']; simpl in T |- *; try done.
    destruct (T w1 eq_refl) as (T1 & T2 & T3 & T4 & T5 & T6 & T7 & T8 & T9 & T10).
    rewrite T5, Append_wire by done. intros w' Hw'. simpl in Hw'. simplify_eq.
    exists ([] ++ [e]), (groups ++ [cur]).
    apply (writing_append w1 (fs wd') (concat groups ++ cur) [] (groups ++ [cur]) e); try done.
    + by rewrite concat_app, app_nil_r; cbn [concat]; rewrite app_nil_r.
    + apply Forall_app. split; [done|by constructor].
  - unfold io_bind, io_ret. rewrite wr_current0, Append_wire by done.
    intros w' Hw'. simpl in Hw'. simplify_eq. exists (cur ++ [e]), groups. by apply writing_append.
Qed.

Lemma Add_quiet w f es cur groups e : fits e -> keys_sorted (es ++ [e]) ->
  writing w f es cur groups ->
  exists w' f', Add w (Key e) (Value e) (Tombstone e) (mkWorld f []) = (Ok (w', None), mkWorld f' []).
Proof.
  intros Hf Hs []. unfold Add. rewrite wr_last0, in_order by done.
  unfold flushBlock, on_file, block_Size. rewrite wr_current0, wr_file0, wr_tmp0.
  destruct (_ && _) eqn:E; [|unfold io_bind, io_ret; rewrite wr_current0, Append_wire by done; by eexists _, _].
  destruct (_ =? 0) eqn:E2; [lia|].
  unfold fs_write, io_bind, try. io_cbn. rewrite wr_disk0. io_cbn. cbn [current].
  change (@nil byte) with (block_of []). rewrite Append_wire by done. by eexists _, _.
Qed.

Lemma keys_sorted_prefix es1 es2 : keys_sorted (es1 ++ es2) -> keys_sorted es1.
Proof. intros (_ & H & _)%keys_sorted_app. done. Qed.

Lemma add_entries_triple more : forall w es cur groups,
  Forall fits more -> keys_sorted (es ++ more) ->
  triple (fun f => writing w f es cur groups) (add_entries w more)
    (fun r f => forall w', r = Ok (w', None) ->
       exists cur' groups', writing w' f (es ++ more) cur' groups').
Proof.
  induction more as [|e more IH]; intros w es cur groups Hf Hs wd Hw; simpl.
  - intros w' Hr. simplify_eq. rewrite app_nil_r. by exists cur, groups.
  - apply Forall_cons in Hf as [Hfe Hf]. rewrite cons_middle, app_assoc in Hs.
    pose proof (Add_triple w es cur groups e Hfe (keys_sorted_prefix _ _ Hs) wd Hw) as T.
    unfold io_bind. destruct (Add w _ _ _ wd) as [[[w1 [e1|]]|e1|] wd']; simpl in T |- *; try done.
    destruct (T w1 eq_refl) as (cur' & groups' & Hw').
    rewrite cons_middle, app_assoc. by apply (IH w1 (es ++ [e]) cur' groups').
Qed.

Lemma add_entries_quiet more : forall w es cur groups f,
  Forall fits more -> keys_sorted (es ++ more) -> writing w f es cur groups ->
  exists w' f', add_entries w more (mkWorld f []) = (Ok (w', None), mkWorld f' []).
Proof.
  induction more as [|e more IH]; intros w es cur groups f Hf Hs Hw; simpl; [by eexists _, _|].
  apply Forall_cons in Hf as [Hfe Hf]. rewrite cons_middle, app_assoc in Hs.
  pose proof (keys_sorted_prefix _ _ Hs) as Hs1.
  destruct (Add_quiet w f es cur groups e Hfe Hs1 Hw) as (w1 & f1 & E).
  pose proof (Add_triple w es cur groups e Hfe Hs1 (mkWorld f []) Hw w1) as T. rewrite E in T.
  destruct (T eq_refl) as (cur' & groups' & Hw'). unfold io_bind. rewrite E.
  by apply (IH w1 (es ++ [e]) cur' groups' f1).
Qed.

(** ** Closing *)

Lemma tmp_ne : tmp <> path.
Proof.
  unfold tmp_of. intros H. apply (f_equal String.length) in H.
  rewrite string_app_length in H. simpl in H. lia.
Qed.

(** The final name still has what [Q] says of it. *)
Definition close_post (Q : option file -> Prop) (es : list entry) (r : res (Writer * option error))
    (f : fsys) : Prop :=
  (exists w' groups, r = Ok (w', None) /\ concat groups = es /\ blocks groups /\
     f !! path = Some (File (image (Bloom.add_all b0 (Key <$> es)) groups)
                            (image (Bloom.add_all b0 (Key <$> es)) groups))) \/
  ((forall w', r <> Ok (w', None)) /\ about path Q f).

Lemma cleanup_preserves w Q : tmpPath w = tmp -> preserves (about path Q) (cleanup w).
Proof.
  intros Ht. unfold cleanup. pose proof tmp_ne. rewrite Ht. io_pres.
Qed.

Lemma cleanup_triple w Q e es : tmpPath w = tmp ->
  triple (about path Q) (let! w' := cleanup w in io_ret (w', Some e)) (close_post Q es).
Proof.
  intros Ht. eapply triple_conseq with (Q := fun r f => about path Q f /\ forall w', r <> Ok (w', None));
    [|done|intros r f [H1 H2]; by right].
  eapply triple_bind with (R := fun _ => about path Q).
  - eapply triple_conseq; [apply (cleanup_preserves w Q Ht)|done|by intros [] f].
  - intros w'. apply triple_ret. intros f H. done.
Qed.

Lemma or_cleanup_triple w Q es (m : io unit) k (P R : fsys -> Prop) : tmpPath w = tmp ->
  triple P m (fun r f => match r with Ok _ => R f | _ => about path Q f end) ->
  triple R k (close_post Q es) ->
  triple P (or_cleanup w m k) (close_post Q es).
Proof.
  intros Ht Hm Hk. unfold or_cleanup.
  eapply triple_bind with (R := fun r f => match r with inl _ => R f | inr _ => about path Q f end).
  - apply triple_try. eapply triple_conseq; [exact Hm|done|].
    intros [] f H; try done. by right.
  - intros [[]|e]; [exact Hk|]. by apply cleanup_triple.
Qed.

Lemma write_step w Q es c bs' k : tmpPath w = tmp -> w_file w = true ->
  triple (fun f => f !! tmp = Some (File (c ++ bs') []) /\ about path Q f) k (close_post Q es) ->
  triple (fun f => f !! tmp = Some (File c []) /\ about path Q f)
    (or_cleanup w (on_file w (fs_write (tmpPath w) bs')) k) (close_post Q es).
Proof.
  intros Ht Hf Hk. eapply or_cleanup_triple; [done| |exact Hk].
  unfold on_file. rewrite Hf, Ht. eapply triple_conseq.
  - apply triple_and; [apply (fs_write_triple tmp bs' c [])|apply (about_write tmp path bs' Q), tmp_ne].
  - done.
  - by intros [[]|e|] f [H1 H2].
Qed.

Lemma finish_triple w es groups Q : w_file w = true -> tmpPath w = tmp -> finalPath w = path ->
  es = concat groups -> blocks groups -> index w = index_of 0 groups ->
  offset w = u64 (zlen (data_of groups)) -> bloom w = Bloom.add_all b0 (Key <$> es) ->
  triple (fun f => f !! tmp = Some (File (data_of groups) []) /\ about path Q f) (finish w)
    (close_post Q es).
Proof.
  intros H1 H2 H3 H4 H5 H6 H7 H8. unfold finish. rewrite H6, H7.
  apply write_step; [done|done|]. apply write_step; [done|done|]. apply write_step; [done|done|].
  cbn [set_offset offset bloom]. rewrite !u64_add, H8.
  set (img := ((data_of groups ++ _) ++ _) ++ _).
  assert (Himg : img = image (Bloom.add_all b0 (Key <$> es)) groups).
  { unfold img, image. by rewrite <- !app_assoc. }
  eapply or_cleanup_triple with (R := fun f => f !! tmp = Some (File img img) /\ about path Q f); [done| |].
  { unfold on_file. cbn [w_file tmpPath set_offset]. rewrite H1, H2. eapply triple_conseq.
    - apply triple_and; [apply (fs_sync_triple tmp img [])|apply (about_sync_other tmp path Q), tmp_ne].
    - done.
    - by intros [[]|e|] f [Ha Hb]. }
  eapply or_cleanup_triple with (R := fun f => f !! tmp = Some (File img img) /\ about path Q f); [done| |].
  { unfold on_file. cbn [w_file tmpPath set_offset]. rewrite H1. eapply triple_conseq.
    - apply (preserves_close (tmpPath w) (fun f => f !! tmp = Some (File img img) /\ about path Q f)).
    - done.
    - by intros [] f [Ha Hb]. }
  cbn [tmpPath finalPath set_offset]. rewrite H2, H3.
  eapply triple_bind with (R := fun r f => match r with
      | inl _ => f !! path = Some (File img img) | inr _ => about path Q f end).
  { apply triple_try, triple_prim; unfold no_effect.
    - intros f [Ha Hb]. rewrite Ha. simpl. by rewrite lookup_insert_eq.
    - intros f n e [Ha Hb]. split; [done|]. by right. }
  intros [[]|e].
  - apply triple_ret. intros f Hp. left. rewrite Himg in Hp. by eexists _, groups.
  - eapply triple_bind with (R := fun _ => about path Q).
    + apply triple_ignore. eapply triple_conseq; [apply (about_remove tmp path Q), tmp_ne|done|].
      intros [] f H; try done. by right.
    + intros _. apply triple_ret. intros f H. by right.
Qed.

(** [Close] either leaves the complete, synced table under its final name, or
    leaves that name as it was. *)
Lemma Close_triple w es cur groups Q :
  triple (fun f => writing w f es cur groups /\ about path Q f) (Close w) (close_post Q es).
Proof.
  intros wd [Hw HQ]. pose proof Hw as []. unfold Close, block_Size.
  destruct (0 <? zlen (current w)) eqn:E.
  - assert (Hne : cur <> []) by (intros ->; by rewrite wr_current0 in E).
    pose proof (flushBlock_triple w es cur groups Hne wd Hw) as T.
    assert (HF : preserves (about path Q) (flushBlock w)).
    { unfold flushBlock, on_file. rewrite wr_file0, wr_tmp0. pose proof tmp_ne. io_pres. }
    assert (HP : forall w1 e, fst (flushBlock w wd) = Ok (w1, e) -> tmpPath w1 = tmp).
    { unfold flushBlock, io_bind, try. intros w1 e. destruct (_ =? 0); simpl; [naive_solver|].
      destruct (on_file _ _ wd) as [[]]; naive_solver. }
    specialize (HF wd HQ). destruct (flushBlock w wd) as [r wd'] eqn:Er.
    rewrite (io_bind_run _ _ _ _ _ Er).
    destruct r as [[w1 [e1|]]|e1|]; simpl in T, HF, HP |- *.
    + apply (cleanup_triple w1 Q e1 es (HP _ _ eq_refl) wd' HF).
    + destruct (T w1 eq_refl) as (T1 & T2 & T3 & T4 & T5 & T6 & T7 & T8 & T9 & T10).
      apply (finish_triple w1 es (groups ++ [cur]) Q); try done.
      * rewrite concat_app, wr_split0. cbn [concat]. by rewrite app_nil_r.
      * apply Forall_app. split; [done|by constructor].
    + by right.
    + by right.
  - assert (cur = []) as ->.
    { apply block_of_nil_inv. rewrite <- wr_current0. apply zlen_nil_inv. lia. }
    apply (finish_triple w es groups Q); try done. by rewrite wr_split0, app_nil_r.
Qed.

Lemma or_cleanup_quiet w (m : io unit) k f wd : m (mkWorld f []) = (Ok tt, wd) ->
  or_cleanup w m k (mkWorld f []) = k wd.
Proof.
  intros H. unfold or_cleanup. by erewrite bind_try_ok by exact H.
Qed.

Lemma finish_quiet w f c : w_file w = true -> tmpPath w = tmp -> finalPath w = path ->
  f !! tmp = Some (File c []) ->
  exists w' f', finish w (mkWorld f []) = (Ok (w', None), mkWorld f' []).
Proof.
  intros H1 H2 H3 Hf. unfold finish, on_file. cbn [w_file tmpPath finalPath set_offset]. rewrite H1, H2, H3.
  erewrite or_cleanup_quiet by by eapply fs_write_quiet.
  erewrite or_cleanup_quiet by by eapply fs_write_quiet, lookup_insert_eq.
  erewrite or_cleanup_quiet by by eapply fs_write_quiet, lookup_insert_eq.
  erewrite or_cleanup_quiet by by eapply fs_sync_quiet, lookup_insert_eq.
  erewrite or_cleanup_quiet by apply fs_close_quiet.
  erewrite bind_try_ok by by eapply fs_rename_quiet, lookup_insert_eq.
  by eexists _, _.
Qed.

Lemma Close_quiet w f es cur groups : writing w f es cur groups ->
  exists w' f', Close w (mkWorld f []) = (Ok (w', None), mkWorld f' []).
Proof.
  intros []. unfold Close, flushBlock, on_file, block_Size. rewrite wr_file0, wr_tmp0.
  destruct (0 <? zlen (current w)) eqn:E.
  - destruct (zlen (current w) =? 0) eqn:E2; [lia|].
    erewrite io_bind_ok by by erewrite bind_try_ok by by eapply fs_write_quiet.
    cbn beta iota. eapply finish_quiet; try done. apply lookup_insert_eq.
  - erewrite io_bind_ok by done. cbn beta iota. eapply finish_quiet; done.
Qed.

(** Only the temporary and the final name are touched. *)
Lemma flushBlock_other w q Q : tmpPath w <> q -> preserves (about q Q) (flushBlock w).
Proof. intros H. unfold flushBlock, on_file. io_pres. Qed.

End writing.

(** ** Every operation keeps its paths and leaves other files alone *)

Definition same_paths (w : Writer) (r : res (Writer * option error)) : Prop :=
  forall w' e, r = Ok (w', e) -> finalPath w' = finalPath w /\ tmpPath w' = tmpPath w.

Lemma Add_frame w k v t q Q : tmpPath w <> q ->
  triple (about q Q) (Add w k v t) (fun r f => about q Q f /\ same_paths w r).
Proof.
  intros Hq wd HQ. unfold Add. destruct (negb _ && _); [split; [done|]; intros w' e Hr; simpl in Hr; naive_solver|].
  set (pre := if _ && (0 <? _) then flushBlock w else io_ret (w, None)).
  assert (Hpre : about q Q (fs (snd (pre wd))) /\ same_paths w (fst (pre wd))).
  { unfold pre. destruct (_ && _).
    - split; [by apply flushBlock_other|]. unfold flushBlock, same_paths. intros w' e.
      destruct (_ =? 0); [simpl; naive_solver|]. unfold io_bind, try.
      destruct (on_file _ _ wd) as [[]]; simpl; naive_solver.
    - split; [done|]. intros w' e Hr. simpl in Hr. naive_solver. }
  destruct (pre wd) as [r wd'] eqn:Er. rewrite (io_bind_run _ _ _ _ _ Er). simpl in Hpre.
  destruct Hpre as [H1 H2]. destruct r as [[w1 [e1|]]|e1|]; simpl; try (split; [done|]; done).
  destruct (H2 w1 None eq_refl) as [H3 H4].
  destruct (Append (current w1) k v t) as [c|e|]; simpl; (split; [done|]).
  - intros w' e Hr. simplify_eq/=. auto.
  - intros w' e' Hr. simplify_eq/=. auto.
  - done.
Qed.

Lemma add_entries_frame es : forall w q Q, tmpPath w <> q ->
  triple (about q Q) (add_entries w es) (fun r f => about q Q f /\ same_paths w r).
Proof.
  induction es as [|e es IH]; intros w q Q Hq wd HQ; simpl.
  - split; [done|]. intros w' e Hr. naive_solver.
  - pose proof (Add_frame w (Key e) (Value e) (Tombstone e) q Q Hq wd HQ) as [H1 H2].
    destruct (Add _ _ _ _ wd) as [r wd'] eqn:Er. rewrite (io_bind_run _ _ _ _ _ Er). simpl in *.
    destruct r as [[w1 [e1|]]|e1|]; simpl; try (by split).
    destruct (H2 w1 None eq_refl) as [H3 H4].
    assert (Hq1 : tmpPath w1 <> q) by congruence.
    destruct (IH w1 q Q Hq1 wd' H1) as [H5 H6]. split; [done|].
    intros w' e' Hr. destruct (H6 w' e' Hr) as [H7 H8]. split; congruence.
Qed.

Lemma or_cleanup_other w m k q Q : tmpPath w <> q -> preserves (about q Q) m ->
  preserves (about q Q) k -> preserves (about q Q) (or_cleanup w m k).
Proof.
  intros H1 H2 H3. unfold or_cleanup, cleanup. io_pres; done.
Qed.

Lemma Close_other w q Q : tmpPath w <> q -> finalPath w <> q ->
  preserves (about q Q) (Close w).
Proof.
  intros Hq Hp wd HQ. unfold Close.
  set (pre := if 0 <? _ then flushBlock w else io_ret (w, None)).
  assert (Hpre : about q Q (fs (snd (pre wd))) /\
    forall w' e, fst (pre wd) = Ok (w', e) -> tmpPath w' = tmpPath w /\ finalPath w' = finalPath w).
  { unfold pre. destruct (0 <? _).
    - split; [by apply flushBlock_other|]. unfold flushBlock. intros w' e.
      destruct (_ =? 0); [simpl; naive_solver|]. unfold io_bind, try.
      destruct (on_file _ _ wd) as [[]]; simpl; naive_solver.
    - split; [done|]. intros w' e Hr. simpl in Hr. naive_solver. }
  destruct (pre wd) as [r wd'] eqn:Er. rewrite (io_bind_run _ _ _ _ _ Er). simpl in Hpre.
  destruct Hpre as [H1 H2]. destruct r as [[w1 [e1|]]|e1|]; simpl; try done;
    destruct (H2 w1 _ eq_refl) as [H3 H4]; rewrite <- H3 in Hq; rewrite <- H4 in Hp.
  - unfold cleanup. assert (P : preserves (about q Q) (let! w2 := cleanup w1 in io_ret (w2, Some e1))).
    { unfold cleanup. io_pres. }
    by apply P.
  - assert (P : preserves (about q Q) (finish w1)).
    { unfold finish, on_file. cbn [w_file tmpPath finalPath set_offset].
      repeat apply or_cleanup_other; try done; io_pres. }
    by apply P.
Qed.

Lemma NewWriter_steady `{BloomSizing} path bsz n : steady (NewWriter path bsz n).
Proof. unfold NewWriter. io_steady. Qed.

Lemma Add_steady w k v t : steady (Add w k v t).
Proof. unfold Add, flushBlock, on_file. io_steady. Qed.

Lemma Close_steady w : steady (Close w).
Proof. unfold Close, finish, or_cleanup, cleanup, flushBlock, on_file. io_steady. Qed.

End SstWriter.
