(* ===== verification/SstReader.v ===== *)
(** Reading an SSTable (internal/sstable: reader.go, iterator.go).

    A [Reader] holds the decoded index and Bloom filter of an open table and the
    reference counts that decide when its file is closed and removed.  Blocks are
    read from the file; the block cache in front of them is the subject of
    BlockCache.v, which shows that it does not change what is read.  [fileID] is
    the value the global counter [nextReaderFileID] handed out. *)

From Stdlib Require Import ZArith Lia.
From S2P Require Import Prelude Word Fs Bloom SstFormat SstWriter Wal.

Module SstReader.
Import SstFormat.

(** Go's [make([]byte, n)] panics beyond the address space. *)
Definition maxAlloc : Z := 2 ^ 48.
Definition make_slice (n : Z) : res unit := if maxAlloc <? n then Crashed else Ok tt.

(** [f.ReadAt(buf, off)] with [len(buf) = n], on the bytes of the file. *)
Definition read_at (data : bytes) (off n : Z) : res bytes :=
  if off <? 0 then Err (os_error 22)
  else if zlen data <? off + n then Err io_EOF
  else Ok (slice data off (off + n)).

Record Reader := mkReader {
  r_file : bool;
  r_path : string;
  r_footer : Footer;
  r_index : list IndexEntry;
  r_bloom : option Bloom.Filter;
  r_fileID : Z;
  r_refs : Z;
  r_closePending : bool;
  r_discardPending : bool;
  r_fileClosed : bool
}.

(** ** OpenReader *)

Definition check_footer (footer : Footer) (dataEnd : Z) : res unit :=
  if (int64 (IndexOffset footer) <? 0) ||
     (dataEnd <? int64 (u64 (IndexOffset footer + IndexLength footer)))
  then Err sst_ErrCorruptIndex else
  if 0 <? BloomLength footer then
    if (int64 (BloomOffset footer) <? 0) ||
       (dataEnd <? int64 (u64 (BloomOffset footer + BloomLength footer)))
    then Err sst_ErrCorruptBloom
    else if BloomOffset footer <? u64 (IndexOffset footer + IndexLength footer)
    then Err sst_ErrCorruptBloom else Ok tt
  else Ok tt.

Definition decode_bloom (footer : Footer) (data : bytes) : res (option Bloom.Filter) :=
  if 0 <? BloomLength footer then
    let? _ := make_slice (BloomLength footer) in
    let? bloomData := read_at data (int64 (BloomOffset footer)) (BloomLength footer) in
    match Bloom.Decode bloomData with
    | None => Err sst_ErrCorruptBloom
    | Some bf => Ok (Some bf)
    end
  else Ok None.

(** [f.Seek(off)] then [io.ReadFull] of [n] bytes. *)
Definition seek_read (data : bytes) (off n : Z) : res bytes :=
  let? (bs, _) := Wal.read_full n (drop (Z.to_nat off) data) in Ok bs.

Definition open_body (path : string) (fileID : Z) : io Reader :=
  let! data0 := fs_read path in
  let! footer := io_res (ReadFooter data0) in
  let! fileSize := fs_size path in
  let dataEnd := fileSize - footerSize in
  io_res (check_footer footer dataEnd) ;;!
  io_res (make_slice (IndexLength footer)) ;;!
  let! data1 := fs_read path in
  let! indexData := io_res (seek_read data1 (int64 (IndexOffset footer)) (IndexLength footer)) in
  let! index := io_res (decodeIndex indexData) in
  let! data2 := fs_read path in
  let! bf := io_res (decode_bloom footer data2) in
  io_ret (mkReader true path footer index bf fileID 0 false false false).

Definition OpenReader (path : string) (fileID : Z) : io Reader :=
  fs_open path ;;!
  let! r := try (open_body path fileID) in
  match r with
  | inr e => ignore (fs_close path) ;;! io_err e
  | inl rd => io_ret rd
  end.

(** ** Reading *)

Definition readBlock (r : Reader) (offset length : Z) : io bytes :=
  if negb (r_file r) || r_fileClosed r then io_err os_ErrClosed else
  io_res (make_slice length) ;;!
  let! data := fs_read (r_path r) in
  io_res (read_at data (int64 offset) length).

Definition MayContain (r : Reader) (key : bytes) : bool :=
  match r_bloom r with None => true | Some b => Bloom.MayContain b key end.

(** [sort.Search(n, f)]: binary search on [[i, j)]. *)
Fixpoint search_loop (fuel : nat) (f : nat -> bool) (i j : nat) : nat :=
  match fuel with
  | O => i
  | S fuel' =>
      if (i <? j)%nat then
        let h := ((i + j) / 2)%nat in
        if negb (f h) then search_loop fuel' f (h + 1) j else search_loop fuel' f i h
      else i
  end.

Definition sort_Search (n : nat) (f : nat -> bool) : nat := search_loop n f 0 n.

(** [bytes.Compare(key, r.index[i].LastKey) <= 0] *)
Definition index_reaches (idx : list IndexEntry) (key : bytes) (i : nat) : bool :=
  match idx !! i with Some e => bytes_leb key (LastKey e) | None => true end.

Fixpoint get_loop (fuel : nat) (it : BlockIterator) (key : bytes) : bytes * bool * bool :=
  match fuel with
  | O => ([], false, false)
  | S fuel' =>
      match bi_Next it with
      | (false, _) => ([], false, false)
      | (true, it') =>
          match bytes_compare key (bi_Key it') with
          | Eq => (bi_Value it', true, bi_IsTombstone it')
          | Lt => ([], false, false)
          | Gt => get_loop fuel' it' key
          end
      end
  end.

(** [Get]: value, found, tombstone. *)
Definition Get (r : Reader) (key : bytes) : io (bytes * bool * bool) :=
  if negb (MayContain r key) then io_ret ([], false, false) else
  let idx := sort_Search (length (r_index r)) (index_reaches (r_index r) key) in
  match r_index r !! idx with
  | None => io_ret ([], false, false)
  | Some entry =>
      let! blockData := readBlock r (Offset entry) (Length entry) in
      io_ret (get_loop (S (length blockData)) (NewBlockIterator blockData) key)
  end.

(** ** Reference counts *)

Definition set_refs (r : Reader) (n : Z) : Reader :=
  mkReader (r_file r) (r_path r) (r_footer r) (r_index r) (r_bloom r) (r_fileID r) n
    (r_closePending r) (r_discardPending r) (r_fileClosed r).
Definition set_pending (r : Reader) (c d : bool) : Reader :=
  mkReader (r_file r) (r_path r) (r_footer r) (r_index r) (r_bloom r) (r_fileID r) (r_refs r)
    c d (r_fileClosed r).
Definition set_closed (r : Reader) : Reader :=
  mkReader false (r_path r) (r_footer r) (r_index r) (r_bloom r) (r_fileID r) (r_refs r)
    (r_closePending r) (r_discardPending r) true.

(** [closeFile]: the reader after the call and the error of closing the handle. *)
Definition closeFile (r : Reader) : io (Reader * option error) :=
  if r_fileClosed r || negb (r_file r) then io_ret (r, None) else
  let! c := try (fs_close (r_path r)) in
  let r' := set_closed r in
  (if r_discardPending r && negb (bool_decide (r_path r = ""%string))
   then ignore (fs_remove (r_path r)) else io_ret tt) ;;!
  io_ret (r', match c with inr e => Some e | inl _ => None end).

Definition Ref (r : Reader) : Reader := set_refs r (r_refs r + 1).

Definition Unref (r : Reader) : io Reader :=
  let r' := set_refs r (r_refs r - 1) in
  if (r_refs r' =? 0) && r_closePending r'
  then let! (r'', _) := closeFile r' in io_ret r''
  else io_ret r'.

Definition Close (r : Reader) : io (Reader * option error) :=
  let r' := set_pending r true (r_discardPending r) in
  if r_refs r' =? 0 then closeFile r' else io_ret (r', None).

Definition Discard (r : Reader) : io (Reader * option error) :=
  let r' := set_pending r true true in
  if r_refs r' =? 0 then closeFile r' else io_ret (r', None).

Definition Path (r : Reader) : string := r_path r.

(** ** The table iterator (iterator.go) *)

Record Iterator := mkIterator {
  it_reader : Reader;
  it_blockIdx : Z;
  it_blockIt : option BlockIterator;
  it_key : bytes;
  it_value : bytes;
  it_tombstone : bool;
  it_valid : bool;
  it_err : option error
}.

Definition set_valid (it : Iterator) (v : bool) : Iterator :=
  mkIterator (it_reader it) (it_blockIdx it) (it_blockIt it) (it_key it) (it_value it)
    (it_tombstone it) v (it_err it).
Definition set_err (it : Iterator) (e : option error) : Iterator :=
  mkIterator (it_reader it) (it_blockIdx it) (it_blockIt it) (it_key it) (it_value it)
    (it_tombstone it) (it_valid it) e.
Definition set_block (it : Iterator) (i : Z) (b : option BlockIterator) : Iterator :=
  mkIterator (it_reader it) i b (it_key it) (it_value it)
    (it_tombstone it) (it_valid it) (it_err it).
(** The iterator standing on the current entry of [b] in block [i]. *)
Definition at_entry (it : Iterator) (i : Z) (b : BlockIterator) : Iterator :=
  mkIterator (it_reader it) i (Some b) (bi_Key b) (bi_Value b) (bi_IsTombstone b) true (it_err it).

(** [advance]: one round per block that has nothing more to give. *)
Fixpoint advance (fuel : nat) (it : Iterator) : io Iterator :=
  match fuel with
  | O => io_ret it
  | S fuel' =>
      let next_block (it : Iterator) : io Iterator :=
        let blockIdx := it_blockIdx it + 1 in
        let it := set_block it blockIdx (it_blockIt it) in
        match r_index (it_reader it) !! Z.to_nat blockIdx with
        | None => io_ret (set_valid it false)
        | Some entry =>
            let! b := try (readBlock (it_reader it) (Offset entry) (Length entry)) in
            match b with
            | inr e => io_ret (set_valid (set_err it (Some e)) false)
            | inl blockData =>
                advance fuel' (set_block it blockIdx (Some (NewBlockIterator blockData)))
            end
        end in
      match it_blockIt it with
      | None => next_block it
      | Some b =>
          match bi_Next b with
          | (true, b') => io_ret (at_entry it (it_blockIdx it) b')
          | (false, b') => next_block (set_block it (it_blockIdx it) (Some b'))
          end
      end
  end.

(** Each round after the first moves to the next block of the index. *)
Definition advance_fuel (r : Reader) : nat := S (S (length (r_index r))).

Definition NewIterator (r : Reader) : io Iterator :=
  advance (advance_fuel r) (mkIterator r (-1) None [] [] false false None).

Definition it_Next (it : Iterator) : io Iterator :=
  if it_valid it then advance (advance_fuel (it_reader it)) it else io_ret it.

(** [for bi := idx; bi < len(index); bi++], on the entries from [bi] on. *)
Fixpoint seek_loop (entries : list IndexEntry) (bi : nat) (it : Iterator) (key : bytes)
  : io (Iterator * option error) :=
  match entries with
  | [] => io_ret (set_valid it false, None)
  | entry :: entries' =>
      let! b := try (readBlock (it_reader it) (Offset entry) (Length entry)) in
      match b with
      | inr e => io_ret (set_valid (set_err it (Some e)) false, Some e)
      | inl blockData =>
          match bi_Seek (NewBlockIterator blockData) key with
          | (true, blockIt) => io_ret (at_entry it (Z.of_nat bi) blockIt, None)
          | (false, _) => seek_loop entries' (S bi) it key
          end
      end
  end.

(** [Seek]: the iterator after the call and the error of the call. *)
Definition it_Seek (it0 : Iterator) (key : bytes) : io (Iterator * option error) :=
  let it := set_err it0 None in
  let index := r_index (it_reader it) in
  match index with
  | [] => io_ret (set_valid it false, None)
  | _ =>
      match key with
      | [] =>
          let! it' := advance (advance_fuel (it_reader it)) (set_block it (-1) None) in
          io_ret (it', it_err it')
      | _ =>
          let idx := sort_Search (length index) (index_reaches index key) in
          if (length index <=? idx)%nat then io_ret (set_valid it false, None)
          else seek_loop (drop idx index) idx it key
      end
  end.

Definition it_Close (it : Iterator) : Iterator := set_valid it false.

(** [EntryCount]; every step forward consumes bytes of a block. *)
Fixpoint count_loop (fuel : nat) (it : Iterator) (n : Z) : io Z :=
  match fuel with
  | O => io_ret n
  | S fuel' =>
      if it_valid it then
        let! it' := it_Next it in
        match it_err it' with
        | Some e => io_err e
        | None => count_loop fuel' it' (n + 1)
        end
      else io_ret n
  end.

Definition total_length (r : Reader) : nat :=
  Z.to_nat (foldr Z.add 0 (Length <$> r_index r)).

Definition EntryCount (r : Reader) : io Z :=
  let! it := NewIterator r in
  count_loop (S (total_length r)) it 0.

(** * Binary search *)

Lemma search_loop_spec f n fuel i j : (i <= j <= n)%nat -> (j - i <= fuel)%nat ->
  (forall a b, (a <= b)%nat -> f a = true -> f b = true) ->
  (forall a, (a < i)%nat -> f a = false) -> (forall a, (j <= a < n)%nat -> f a = true) ->
  let r := search_loop fuel f i j in
  (r <= n)%nat /\ (forall a, (a < r)%nat -> f a = false) /\ (forall a, (r <= a < n)%nat -> f a = true).
Proof.
  intros Hij Hfuel Hmono. revert i j Hij Hfuel. induction fuel as [|fuel IH]; intros i j Hij Hfuel Hlo Hhi;
    cbn [search_loop].
  - split; [lia|]. split; [done|]. intros a Ha. apply Hhi. lia.
  - destruct (i <? j)%nat eqn:E.
    + apply Nat.ltb_lt in E. pose proof (Nat.div_lt_upper_bound (i + j) 2 j ltac:(lia) ltac:(lia)).
      pose proof (Nat.div_le_lower_bound (i + j) 2 i ltac:(lia) ltac:(lia)).
      set (h := ((i + j) / 2)%nat) in *. destruct (f h) eqn:Eh; cbn [negb].
      * apply IH; [lia|lia|done|]. intros a Ha. apply (Hmono h); [lia|done].
      * apply IH; [lia|lia| |intros a Ha; apply Hhi; lia]. intros a Ha.
        destruct (f a) eqn:Ea; [|done]. rewrite (Hmono a h) in Eh; [done|lia|done].
    + apply Nat.ltb_ge in E. split; [lia|]. split; [done|]. intros a Ha. apply Hhi. lia.
Qed.

(** The least index at which a monotone predicate holds, or [n]. *)
Lemma sort_Search_spec n f :
  (forall a b, (a <= b)%nat -> f a = true -> f b = true) ->
  let r := sort_Search n f in
  (r <= n)%nat /\ (forall a, (a < r)%nat -> f a = false) /\ (forall a, (r <= a < n)%nat -> f a = true).
Proof. intros Hm. apply search_loop_spec; try done; lia. Qed.

(** * Tables *)

Import SstWriter.

(** [r] is an open reader of a file whose blocks hold [groups]. *)
Record table (f : fsys) (r : Reader) (groups : list (list entry)) : Prop := {
  t_open : r_file r = true;
  t_not_closed : r_fileClosed r = false;
  t_index : r_index r = index_of 0 groups;
  t_blocks : blocks groups;
  t_sorted : keys_sorted (concat groups);
  t_fits : Forall fits (concat groups);
  t_data : exists rest, bytes_at f (r_path r) = Some (data_of groups ++ rest);
  t_size : zlen (data_of groups) < 2 ^ 48;
  t_bloom : match r_bloom r with
            | None => True
            | Some b => forall e, e ∈ concat groups -> Bloom.MayContain b (Key e) = true
            end
}.

Lemma data_of_app g1 g2 : data_of (g1 ++ g2) = data_of g1 ++ data_of g2.
Proof. unfold data_of. by rewrite fmap_app, concat_app. Qed.

Lemma index_of_lookup groups i off : index_of off groups !! i =
  (fun g => mkIndexEntry (last_key g) (u64 (off + zlen (data_of (take i groups))))
              (u64 (zlen (block_of g)))) <$> groups !! i.
Proof.
  revert i off. induction groups as [|g groups IH]; intros [|i] off; try done.
  - cbn. by rewrite Z.add_0_r.
  - cbn [index_of lookup list_lookup take]. rewrite IH.
    change (data_of (g :: take i groups)) with (block_of g ++ data_of (take i groups)).
    destruct (groups !! i); [|done]. cbn. by rewrite zlen_app, Z.add_assoc.
Qed.

Lemma index_of_length groups off : length (index_of off groups) = length groups.
Proof. revert off. induction groups as [|g groups IH]; intros off; [done|]. simpl. by rewrite IH. Qed.

Section table.
Context (w : World) (r : Reader) (groups : list (list entry)) (Ht : table (fs w) r groups).

Lemma table_split i g : groups !! i = Some g ->
  data_of groups = data_of (take i groups) ++ block_of g ++ data_of (drop (S i) groups).
Proof.
  intros Hi. rewrite <- (take_drop_middle groups i g Hi) at 1.
  rewrite data_of_app. done.
Qed.

(** Reading block [i] gives the bytes of its entries. *)
Lemma readBlock_reads i g e : groups !! i = Some g -> r_index r !! i = Some e ->
  reads (readBlock r (Offset e) (Length e)) w (fun bs => bs = block_of g).
Proof.
  intros Hi He. destruct Ht. destruct t_data0 as [rest Hd].
  rewrite t_index0, index_of_lookup, Hi in He. simpl in He. simplify_eq. cbn [Offset Length].
  pose proof (table_split i g Hi) as Hs.
  pose proof (zlen_nonneg (data_of (take i groups))). pose proof (zlen_nonneg (block_of g)).
  pose proof (zlen_nonneg (data_of (drop (S i) groups))). pose proof (zlen_nonneg rest).
  assert (Hz : zlen (data_of groups) = zlen (data_of (take i groups)) + zlen (block_of g) +
    zlen (data_of (drop (S i) groups))) by (rewrite Hs, !zlen_app; lia).
  rewrite Z.add_0_l, !u64_id by (unfold is_u64; lia).
  unfold readBlock. rewrite t_open0, t_not_closed0. cbn [negb orb].
  unfold make_slice, maxAlloc. destruct (2 ^ 48 <? _) eqn:E; [lia|].
  eapply reads_bind; [by apply (reads_res tt _ (fun _ => True))|]. intros [] w1 _ Hw1 _.
  eapply reads_bind; [apply reads_read; rewrite Hw1; exact Hd|]. intros bs w2 -> Hw2 _.
  rewrite int64_id by lia. unfold read_at. destruct (_ <? 0) eqn:E1; [lia|].
  rewrite zlen_app. destruct (_ <? _ + zlen (block_of g)) eqn:E2; [lia|].
  apply reads_res. rewrite Hs, <- !app_assoc. by apply slice_app_mid.
Qed.

End table.

Lemma elem_of_concat_take {A} (groups : list (list A)) i j g x :
  groups !! i = Some g -> (i < j)%nat -> x ∈ g -> x ∈ concat (take j groups).
Proof.
  intros Hi Hj Hx. apply list_elem_of_In, in_concat. exists g.
  split; apply list_elem_of_In; [|done]. apply list_elem_of_lookup. exists i. by rewrite lookup_take_lt.
Qed.

Lemma elem_of_concat_drop {A} (groups : list (list A)) i j g x :
  groups !! i = Some g -> (j <= i)%nat -> x ∈ g -> x ∈ concat (drop j groups).
Proof.
  intros Hi Hj Hx. apply list_elem_of_In, in_concat. exists g.
  split; apply list_elem_of_In; [|done]. apply list_elem_of_lookup. exists (i - j)%nat.
  rewrite lookup_drop. by replace (j + (i - j))%nat with i by lia.
Qed.

Lemma concat_take_drop {A} (groups : list (list A)) j :
  concat groups = concat (take j groups) ++ concat (drop j groups).
Proof. by rewrite <- concat_app, take_drop. Qed.

Section sorted_groups.
Context (groups : list (list entry)) (Hb : blocks groups) (Hs : keys_sorted (concat groups)).

Lemma groups_lt a b ga gb x y : groups !! a = Some ga -> groups !! b = Some gb -> (a < b)%nat ->
  x ∈ ga -> y ∈ gb -> blt (Key x) (Key y).
Proof.
  intros Ha Hgb Hab Hx Hy. rewrite (concat_take_drop groups b) in Hs.
  apply keys_sorted_app in Hs as (H & _). apply H.
  - by apply (elem_of_concat_take groups a b ga).
  - by apply (elem_of_concat_drop groups b b gb).
Qed.

Lemma group_sorted i g : groups !! i = Some g -> keys_sorted g.
Proof.
  intros Hi. rewrite (concat_take_drop groups i) in Hs. apply keys_sorted_app in Hs as (_ & _ & H).
  rewrite (drop_S _ _ _ Hi) in H. cbn [concat] in H. by apply keys_sorted_app in H as (_ & H & _).
Qed.

Lemma last_key_elem g : g <> [] -> exists e, e ∈ g /\ Key e = last_key g.
Proof.
  destruct g as [|e g _] using rev_ind; [done|]. intros _. exists e.
  unfold last_key. rewrite last_snoc. split; [|done]. apply elem_of_app. right.
  by apply list_elem_of_singleton.
Qed.

Lemma last_key_max g x : keys_sorted g -> x ∈ g -> ~ blt (last_key g) (Key x).
Proof.
  destruct g as [|e g _] using rev_ind; [by intros _ ?%not_elem_of_nil|].
  intros (H & _)%keys_sorted_app Hx. unfold last_key. rewrite last_snoc. simpl.
  apply elem_of_app in Hx as [Hx| ->%list_elem_of_singleton]; [|apply blt_irrefl].
  apply blt_asym, H; [done|]. by apply list_elem_of_singleton.
Qed.

Lemma block_nonempty i g : groups !! i = Some g -> g <> [].
Proof. intros Hi. by apply (Forall_lookup_1 _ _ _ _ Hb Hi). Qed.

Lemma index_reaches_spec key i g : groups !! i = Some g ->
  index_reaches (index_of 0 groups) key i = bytes_leb key (last_key g).
Proof. intros Hi. unfold index_reaches. by rewrite index_of_lookup, Hi. Qed.

Lemma index_reaches_mono key a b : (a <= b)%nat ->
  index_reaches (index_of 0 groups) key a = true -> index_reaches (index_of 0 groups) key b = true.
Proof.
  intros Hab Ha. destruct (decide (a = b)) as [->|Hne]; [done|].
  destruct (groups !! b) as [gb|] eqn:Eb.
  2:{ unfold index_reaches. by rewrite index_of_lookup, Eb. }
  destruct (lookup_lt_is_Some_2 groups a) as [ga Ea].
  { apply lookup_lt_Some in Eb. lia. }
  rewrite (index_reaches_spec _ _ _ Ea), bytes_leb_spec in Ha.
  rewrite (index_reaches_spec _ _ _ Eb), bytes_leb_spec. intros Hlt. apply Ha.
  destruct (last_key_elem ga (block_nonempty a ga Ea)) as (x & Hx & Kx).
  destruct (last_key_elem gb (block_nonempty b gb Eb)) as (y & Hy & Ky).
  rewrite <- Kx. eapply blt_trans; [|exact Hlt]. rewrite <- Ky.
  apply (groups_lt a b ga gb); try done. lia.
Qed.

(** The block the search picks: everything before it is below [key]. *)
Lemma search_split key :
  let idx := sort_Search (length groups) (index_reaches (index_of 0 groups) key) in
  (idx <= length groups)%nat /\
  Forall (fun e => blt (Key e) key) (concat (take idx groups)) /\
  (forall g, groups !! idx = Some g -> ~ blt (last_key g) key).
Proof.
  intros idx. destruct (sort_Search_spec (length groups) (index_reaches (index_of 0 groups) key)
    (index_reaches_mono key)) as (H1 & H2 & H3). fold idx in H1, H2, H3.
  split; [done|]. split.
  - apply Forall_forall. intros e He. apply list_elem_of_In, in_concat in He as (g & Hg & He).
    apply list_elem_of_In in He. apply list_elem_of_In, list_elem_of_lookup in Hg as (i & Hi).
    apply lookup_take_Some in Hi as [Hi Hlt]. specialize (H2 i Hlt).
    rewrite (index_reaches_spec _ _ _ Hi) in H2.
    assert (Hl : blt (last_key g) key).
    { destruct (decide (blt (last_key g) key)); [done|].
      rewrite (proj2 (bytes_leb_spec _ _)) in H2; done. }
    eapply nlt_blt_trans; [|exact Hl]. apply last_key_max; [|done]. by apply (group_sorted i).
  - intros g Hg. specialize (H3 idx). rewrite (index_reaches_spec _ _ _ Hg), bytes_leb_spec in H3.
    apply H3. apply lookup_lt_Some in Hg. lia.
Qed.

End sorted_groups.

(** * Point lookups *)

Definition found (o : option entry) : bytes * bool * bool :=
  match o with Some e => (Value e, true, Tombstone e) | None => ([], false, false) end.

Lemma get_loop_spec key g : forall fuel it pre, Forall fits g -> keys_sorted g -> ahead it pre g ->
  (length g < fuel)%nat -> get_loop fuel it key = found (find_entry key g).
Proof.
  induction g as [|e g IH]; intros fuel it pre Hf Hs Ha Hl;
    (destruct fuel as [|fuel]; [simpl in Hl; lia|]); cbn [get_loop find_entry].
  - by rewrite (bi_Next_nil it pre Ha).
  - apply Forall_cons in Hf as [He Hf]. apply keys_sorted_cons in Hs as [Hs Hlt].
    destruct (bi_Next_cons it pre e g He Ha) as (it' & -> & Ha' & Hk & Hv & Ht).
    unfold bi_Key, bi_Value, bi_IsTombstone. rewrite Hk, Hv, Ht.
    destruct (bytes_compare key (Key e)) eqn:E.
    + apply bytes_compare_eq in E as ->. by rewrite (proj2 (bytes_eqb_spec _ _) eq_refl).
    + assert (Hne : Key e <> key) by (intros <-; by apply blt_irrefl in E).
      rewrite (proj2 (bytes_eqb_false _ _) Hne), find_entry_None; [done|].
      eapply Forall_impl; [exact Hlt|]. intros x Hx Hxk. apply (blt_irrefl key).
      rewrite <- Hxk at 2. eapply blt_trans; [exact E|exact Hx].
    + apply bytes_compare_gt in E.
      rewrite (proj2 (bytes_eqb_false _ _) (blt_ne _ _ E)). simpl in Hl. eapply IH; [done|done|done|lia].
Qed.

Lemma Forall_group (P : entry -> Prop) groups i g :
  Forall P (concat groups) -> groups !! i = Some g -> Forall P g.
Proof.
  intros H Hi. rewrite (concat_take_drop groups i) in H. apply Forall_app in H as [_ H].
  rewrite (drop_S _ _ _ Hi) in H. cbn [concat] in H. by apply Forall_app in H as [H _].
Qed.

(** [Get] finds exactly the entry of the key in the table. *)
Lemma Get_reads w r groups key : table (fs w) r groups ->
  reads (Get r key) w (fun x => x = found (find_entry key (concat groups))).
Proof.
  intros Ht. pose proof Ht as []. unfold Get, MayContain.
  destruct (negb _) eqn:Eb.
  { apply reads_ret. destruct (find_entry key (concat groups)) as [e|] eqn:Ef; [|done].
    apply find_entry_Some in Ef as [He <-]. apply negb_true_iff in Eb.
    destruct (r_bloom r) as [b|]; [|done]. by rewrite t_bloom0 in Eb. }
  rewrite t_index0, index_of_length.
  destruct (search_split groups t_blocks0 t_sorted0 key) as (H1 & H2 & H3).
  set (idx := sort_Search _ _) in *.
  assert (Hfind : find_entry key (concat groups) = find_entry key (concat (drop idx groups))).
  { rewrite (concat_take_drop groups idx), find_entry_app, (find_entry_None key (concat (take idx groups))); [done|].
    eapply Forall_impl; [exact H2|]. intros e He Hk. by apply (blt_ne _ _ He). }
  rewrite Hfind, index_of_lookup. destruct (groups !! idx) as [g|] eqn:Eg.
  2:{ simpl. apply reads_ret. apply lookup_ge_None in Eg. by rewrite drop_ge. }
  rewrite <- (option_fmap_id (Some g)). cbn [fmap option_fmap option_map id].
  eapply reads_bind; [eapply (readBlock_reads w r groups Ht idx g); [done|]|].
  { rewrite t_index0, index_of_lookup, Eg. done. }
  intros bs w1 -> _ _. apply reads_ret.
  rewrite (get_loop_spec key g) with (pre := []); [|by apply (Forall_group _ groups idx)| |done|].
  - f_equal. rewrite (drop_S _ _ _ Eg). cbn [concat]. rewrite find_entry_app.
    destruct (find_entry key g) eqn:Ef; [done|]. rewrite find_entry_None; [done|].
    apply Forall_forall. intros e He Hk. apply (H3 g eq_refl). rewrite <- Hk.
    destruct (last_key_elem g (block_nonempty groups t_blocks0 idx g Eg)) as (x & Hx & <-).
    rewrite (concat_take_drop groups idx) in t_sorted0.
    apply keys_sorted_app in t_sorted0 as (_ & _ & Hs). rewrite (drop_S _ _ _ Eg) in Hs.
    cbn [concat] in Hs. apply keys_sorted_app in Hs as (Hs & _). by apply Hs.
  - by apply (group_sorted groups t_sorted0 idx).
  - pose proof (block_of_length g). lia.
Qed.

(** * Iteration *)

Section iterate.
Context (r : Reader) (groups : list (list entry)).

(** What is still ahead of an iterator: the rest of its block and the blocks
    behind it. *)
Definition cursor (it : Iterator) (es : list entry) : Prop :=
  it_reader it = r /\ it_err it = None /\ -1 <= it_blockIdx it /\
  let rest := concat (drop (Z.to_nat (it_blockIdx it + 1)) groups) in
  match it_blockIt it with
  | None => es = rest
  | Some b => exists pre g, ahead b pre g /\ Forall fits g /\ es = g ++ rest
  end.

(** The iterator stands on the first of [es], or is exhausted. *)
Definition it_rep (it : Iterator) (es : list entry) : Prop :=
  it_reader it = r /\ it_err it = None /\
  match es with
  | [] => it_valid it = false
  | e :: es' => it_valid it = true /\ Entry (it_key it) (it_value it) (it_tombstone it) = e /\
                cursor it es'
  end.

(** Or an error ended it. *)
Definition it_failed (it : Iterator) : Prop :=
  it_reader it = r /\ it_valid it = false /\ it_err it <> None.

(** The rounds [advance] may still need. *)
Definition rounds (it : Iterator) : nat :=
  S (length groups - Z.to_nat (it_blockIdx it + 1)).

Lemma advance_reads fuel : forall w it es, table (fs w) r groups -> cursor it es ->
  (rounds it < fuel)%nat ->
  reads (advance fuel it) w
    (fun it' => it_rep it' es \/ (faults w <> [] /\ it_failed it')).
Proof.
  induction fuel as [|fuel IH]; intros w it es Ht (Hr & He & Hi & Hc) Hfuel; [lia|].
  assert (Hnext : forall b, concat (drop (Z.to_nat (it_blockIdx it + 1)) groups) = es ->
    reads (let blockIdx := it_blockIdx (set_block it (it_blockIdx it) b) + 1 in
        let it := set_block (set_block it (it_blockIdx it) b) blockIdx
                    (it_blockIt (set_block it (it_blockIdx it) b)) in
        match r_index (it_reader it) !! Z.to_nat blockIdx with
        | None => io_ret (set_valid it false)
        | Some entry =>
            let! b := try (readBlock (it_reader it) (Offset entry) (Length entry)) in
            match b with
            | inr e => io_ret (set_valid (set_err it (Some e)) false)
            | inl blockData =>
                advance fuel (set_block it blockIdx (Some (NewBlockIterator blockData)))
            end
        end) w (fun it' => it_rep it' es \/ (faults w <> [] /\ it_failed it'))).
  { intros b Hes. cbn [it_blockIdx set_block it_blockIt it_reader]. rewrite Hr.
    pose proof Ht as []. rewrite t_index0, index_of_lookup.
    destruct (groups !! Z.to_nat (it_blockIdx it + 1)) as [g|] eqn:Eg.
    2:{ simpl. apply reads_ret. left. apply lookup_ge_None in Eg. rewrite drop_ge in Hes by lia.
        subst es. by split. }
    rewrite <- (option_fmap_id (Some g)). cbn [fmap option_fmap option_map id].
    eapply reads_bind; [apply reads_try; eapply (readBlock_reads w r groups Ht _ g); [exact Eg|]|].
    { rewrite t_index0, index_of_lookup, Eg. done. }
    intros [bs|e] w1 Hb Hw1 Hq.
    - subst bs. eapply reads_weaken; [eapply IH with (es := es)|].
      + by rewrite Hw1.
      + split; [done|]. split; [done|]. cbn [it_blockIdx set_block it_blockIt]. split; [lia|].
        exists [], g. split; [apply ahead_start|]. split; [by eapply Forall_group|].
        rewrite <- Hes, (drop_S _ _ _ Eg). cbn [concat]. do 3 f_equal. lia.
      + unfold rounds in *. cbn [it_blockIdx set_block]. apply lookup_lt_Some in Eg. lia.
      + intros it' [H|[Hf H]]; [by left|right]. split; [|done]. intros Hw. by apply Hf, Hq.
    - apply reads_ret. right. split; [done|]. by split. }
  cbn [advance]. destruct (it_blockIt it) as [b|] eqn:Eb.
  - destruct Hc as (pre & g & Ha & Hf & ->). destruct g as [|e g].
    + rewrite (bi_Next_nil b pre Ha). by apply (Hnext (Some b)).
    + apply Forall_cons in Hf as [Hfe Hf].
      destruct (bi_Next_cons b pre e g Hfe Ha) as (b' & -> & Ha' & Hk & Hv & Htb).
      apply reads_ret. left. split; [done|]. split; [done|]. cbn. split; [done|].
      unfold bi_Key, bi_Value, bi_IsTombstone. rewrite Hk, Hv, Htb. split; [by destruct e|].
      split; [done|]. split; [done|]. split; [done|]. cbn [it_blockIt at_entry it_blockIdx].
      by exists (pre ++ entry_wire e), g.
  - specialize (Hnext None). destruct it. cbn in Eb. subst. cbn in *. by apply Hnext.
Qed.

(** A fresh iterator stands on the first entry of the table. *)
Lemma NewIterator_reads w : table (fs w) r groups ->
  reads (NewIterator r) w
    (fun it => it_rep it (concat groups) \/ (faults w <> [] /\ it_failed it)).
Proof.
  intros Ht. apply advance_reads; [done| |].
  - split; [done|]. split; [done|]. cbn. split; [lia|]. done.
  - unfold rounds, advance_fuel. cbn. rewrite (t_index _ _ _ Ht), index_of_length. lia.
Qed.

(** [Next] moves to the following entry. *)
Lemma it_Next_reads w it e es : table (fs w) r groups -> it_rep it (e :: es) ->
  reads (it_Next it) w (fun it' => it_rep it' es \/ (faults w <> [] /\ it_failed it')).
Proof.
  intros Ht (Hr & He & Hv & _ & Hc). unfold it_Next. rewrite Hv. apply advance_reads; [done|done|].
  unfold rounds, advance_fuel. rewrite Hr, (t_index _ _ _ Ht), index_of_length. lia.
Qed.

Lemma it_Next_done it : it_rep it [] -> forall w, it_Next it w = (Ok it, w).
Proof. intros (_ & _ & Hv) w. unfold it_Next. by rewrite Hv. Qed.

(** [Seek] stands on the first entry that is not below [key]. *)
Lemma it_Seek_reads w it key : table (fs w) r groups -> it_reader it = r ->
  reads (it_Seek it key) w (fun '(it', e) =>
    (e = None /\ it_rep it' (skip_below key (concat groups))) \/
    (faults w <> [] /\ it_failed it' /\ e <> None)).
Proof.
  intros Ht Hr. pose proof Ht as []. unfold it_Seek. cbn [it_reader set_err]. rewrite Hr.
  destruct (r_index r) as [|e0 idx0] eqn:Ei.
  { apply reads_ret. left. destruct groups; [|done]. by repeat split. }
  rewrite <- Ei in t_index0 |- *. destruct key as [|k0 key0] eqn:Ek.
  { eapply reads_bind; [apply (advance_reads _ w _ (concat groups) Ht)|].
    - split; [done|]. split; [done|]. cbn. split; [lia|done].
    - unfold rounds, advance_fuel. cbn. rewrite t_index0, index_of_length. lia.
    - intros it' w1 [Hrep|[Hf H]] _ _; apply reads_ret.
      + left. destruct Hrep as (H1 & H2 & H3). rewrite skip_below_nil. by repeat split.
      + right. by destruct H as (H1 & H2 & H3). }
  rewrite <- Ek. clear Ek k0 key0. rewrite t_index0, index_of_length.
  destruct (search_split groups t_blocks0 t_sorted0 key) as (H1 & H2 & H3).
  set (idx := sort_Search _ _) in *.
  rewrite (concat_take_drop groups idx), skip_below_app by done.
  destruct (length groups <=? idx)%nat eqn:El.
  { apply reads_ret. left. apply Nat.leb_le in El. rewrite drop_ge by lia. by repeat split. }
  apply Nat.leb_gt in El. destruct (lookup_lt_is_Some_2 groups idx El) as [g Eg].
  assert (Hie : index_of 0 groups !! idx = Some (mkIndexEntry (last_key g)
      (u64 (0 + zlen (data_of (take idx groups)))) (u64 (zlen (block_of g)))))
    by by rewrite index_of_lookup, Eg.
  rewrite (drop_S _ _ _ Hie), (drop_S _ _ _ Eg). cbn [seek_loop concat it_reader set_err]. rewrite Hr.
  eapply reads_bind; [apply reads_try; eapply (readBlock_reads w r groups Ht idx g _ Eg); by rewrite t_index0|].
  intros [bs|e] w1 Hb Hw1 Hq; [subst bs|by apply reads_ret; right].
  assert (Hf : Forall fits g) by by eapply Forall_group.
  pose proof (bi_Seek_spec (NewBlockIterator (block_of g)) g key Hf eq_refl) as Hseek.
  assert (Hne : skip_below key g <> []).
  { destruct (last_key_elem g (block_nonempty groups t_blocks0 idx g Eg)) as (x & Hx & Kx).
    apply (skip_below_elem key g x Hx). rewrite Kx. by apply H3. }
  rewrite skip_below_app_r by done. destruct (skip_below_suffix key g) as (g1 & Eg1 & _).
  destruct (skip_below key g) as [|e g2]; [done|].
  destruct Hseek as (b & pre & -> & Ha & Hent). apply reads_ret. left. split; [done|].
  split; [done|]. split; [done|]. cbn. split; [done|]. split; [done|].
  split; [done|]. split; [done|]. cbn [it_blockIt at_entry it_blockIdx]. split; [lia|].
  exists pre, g2. split; [done|]. split.
  - rewrite Eg1 in Hf. apply Forall_app in Hf as [_ Hf]. by apply Forall_cons in Hf as [_ Hf].
  - do 3 f_equal. lia.
Qed.

(** [EntryCount] counts the entries, or reports an error that a fault caused. *)
Lemma count_loop_reads (F : Prop) fuel : forall w it es n, table (fs w) r groups -> it_rep it es ->
  (faults w <> [] -> F) -> (length es < fuel)%nat ->
  reads_in F (count_loop fuel it n) w (fun m => m = n + zlen es).
Proof.
  induction fuel as [|fuel IH]; intros w it es n Ht Hrep HF Hl; [lia|]. cbn [count_loop].
  destruct es as [|e es].
  - destruct Hrep as (_ & _ & ->). apply reads_reads_in, reads_ret; [done|]. unfold zlen. simpl. lia.
  - pose proof Hrep as (Hr & He & Hv & _). rewrite Hv.
    eapply reads_in_bind; [eapply reads_reads_in, (it_Next_reads w it e es); done|].
    intros it' w1 [Hrep'|[Hf (Hr' & Hv' & He')]] Hw1 Hq.
    + pose proof Hrep' as (_ & -> & _). replace (n + zlen (e :: es)) with (n + 1 + zlen es)
        by (rewrite zlen_cons; lia).
      apply (IH w1 it' es (n + 1)); [by rewrite Hw1|done| |simpl in Hl; lia].
      intros H. apply HF. intros Hw. by apply H, Hq.
    + destruct (it_err it') as [er|]; [|done]. apply reads_in_err. auto.
Qed.

Lemma total_length_enough : r_index r = index_of 0 groups -> zlen (data_of groups) < 2 ^ 48 ->
  (length (concat groups) <= total_length r)%nat.
Proof.
  intros Hi Hsz. unfold total_length. rewrite Hi. clear Hi.
  assert (H : forall gs off, zlen (data_of gs) < 2 ^ 48 ->
    foldr Z.add 0 (Length <$> index_of off gs) = zlen (data_of gs)).
  { induction gs as [|g gs IH]; intros off Hg; [done|].
    change (data_of (g :: gs)) with (block_of g ++ data_of gs) in *. rewrite zlen_app in *.
    pose proof (zlen_nonneg (block_of g)). pose proof (zlen_nonneg (data_of gs)).
    cbn [index_of fmap list_fmap foldr Length]. rewrite u64_id by (unfold is_u64; lia).
    f_equal. apply IH. lia. }
  rewrite H by done. clear. induction groups as [|g gs IH]; [done|].
  change (data_of (g :: gs)) with (block_of g ++ data_of gs). cbn [concat].
  pose proof (block_of_length g). unfold zlen in *. rewrite !length_app. lia.
Qed.

Lemma EntryCount_quiet f : table f r groups ->
  EntryCount r (mkWorld f []) = (Ok (zlen (concat groups)), mkWorld f []).
Proof.
  intros Ht. destruct (reads_quiet _ f _ (NewIterator_reads (mkWorld f []) Ht)) as (it & E & [Hrep|[H _]]);
    [|done].
  unfold EntryCount. rewrite (io_bind_ok _ _ _ _ _ E).
  assert (R : reads (count_loop (S (total_length r)) it 0) (mkWorld f [])
    (fun m => m = 0 + zlen (concat groups))).
  { apply reads_in_reads, count_loop_reads; try done.
    pose proof (total_length_enough (t_index _ _ _ Ht) (t_size _ _ _ Ht)). lia. }
  destruct (reads_quiet _ f _ R) as (m & -> & ->). done.
Qed.

End iterate.

(** * Opening what the writer wrote *)

(** The reader of a fresh table. *)
Definition fresh (path : string) (r : Reader) : Prop :=
  r_path r = path /\ r_refs r = 0 /\ r_closePending r = false /\ r_discardPending r = false.

Section open.
Context (b0 : Bloom.Filter) (groups : list (list entry)).
Context (Hb : blocks groups) (Hs : keys_sorted (concat groups)) (Hf : Forall fits (concat groups)).
Context (Hwf : Bloom.wf b0) (Hm : 0 < Bloom.m b0 < 2 ^ 32) (Hk : Bloom.k b0 < 2 ^ 32).

Local Abbreviation bl := (Bloom.add_all b0 (Key <$> concat groups)).
Local Abbreviation data := (data_of groups).
Local Abbreviation idx := (index_Encode (index_of 0 groups)).
Local Abbreviation bloomData := (Bloom.Encode bl).

Context (Hsize : zlen (image bl groups) < 2 ^ 48).

Definition the_footer : Footer :=
  mkFooter (zlen data) (zlen idx) (zlen data + zlen idx) (zlen bloomData) currentVersion magicNumber.

Lemma image_sizes :
  zlen (image bl groups) = zlen data + zlen idx + zlen bloomData + 48 /\
  0 <= zlen data /\ 0 <= zlen idx /\ 8 <= zlen bloomData /\
  zlen data + zlen idx + zlen bloomData + 48 < 2 ^ 48.
Proof.
  assert (E : zlen (image bl groups) = zlen data + zlen idx + zlen bloomData + 48).
  { unfold image. rewrite !zlen_app. unfold zlen at 4. rewrite length_footer. lia. }
  rewrite <- E. split; [done|]. split; [auto|]. split; [auto|]. split; [|done].
  unfold Bloom.Encode. autorewrite with zlen. pose proof (zlen_nonneg (Bloom.bits bl)). lia.
Qed.

Lemma image_eq : image bl groups = data ++ idx ++ bloomData ++ footer_Encode the_footer.
Proof.
  destruct image_sizes as (_ & H1 & H2 & H3 & H4). unfold image, the_footer.
  rewrite !u64_id by (unfold is_u64; lia). done.
Qed.

Lemma ReadFooter_image : ReadFooter (image bl groups) = Ok the_footer.
Proof.
  destruct image_sizes as (E & H1 & H2 & H3 & H4).
  unfold ReadFooter, footerSize. rewrite E. destruct (_ <? 48) eqn:E0; [lia|].
  assert (Hd : drop (length (image bl groups) - 48) (image bl groups) = footer_Encode the_footer).
  { rewrite image_eq, !app_assoc. rewrite length_app, length_footer.
    rewrite Nat.add_sub. by rewrite drop_app_length. }
  rewrite Hd, footer_Decode_Encode; [done|].
  unfold footer_ok, the_footer, is_u64, is_u32, currentVersion, magicNumber. cbn. lia.
Qed.

Lemma index_of_ok off gs : Forall (fun g => g <> []) gs -> Forall fits (concat gs) ->
  Forall index_ok (index_of off gs).
Proof.
  revert off. induction gs as [|g gs IH]; intros off H1 H2; [constructor|].
  apply Forall_cons in H1 as [Hg H1]. cbn [concat] in H2. apply Forall_app in H2 as [Hfg H2].
  constructor; [|by apply IH]. unfold index_ok. cbn. split; [|auto].
  destruct (last_key_elem g Hg) as (e & He & <-). rewrite Forall_forall in Hfg. by apply Hfg.
Qed.

Lemma check_footer_ok : check_footer the_footer (zlen (image bl groups) - footerSize) = Ok tt.
Proof.
  destruct image_sizes as (E & H1 & H2 & H3 & H4). rewrite E. unfold check_footer, footerSize, the_footer.
  cbn [IndexOffset IndexLength BloomOffset BloomLength].
  rewrite !u64_id, !int64_id by (unfold is_u64; lia).
  destruct (zlen data <? 0) eqn:E1; [lia|]. destruct (_ <? zlen data + zlen idx) eqn:E2; [lia|]. cbn [orb].
  destruct (0 <? zlen bloomData) eqn:E3; [|lia].
  destruct (zlen data + zlen idx <? 0) eqn:E4; [lia|]. cbn [orb].
  destruct (_ <? zlen data + zlen idx + zlen bloomData) eqn:E5; [lia|].
  by rewrite Z.ltb_irrefl.
Qed.

Lemma decode_bloom_ok : decode_bloom the_footer (image bl groups) =
  Ok (Some (Bloom.mkFilter (Bloom.bits bl) (Bloom.k bl) 0 (Bloom.m bl))).
Proof.
  destruct image_sizes as (E & H1 & H2 & H3 & H4). unfold decode_bloom, the_footer.
  cbn [BloomLength BloomOffset]. destruct (0 <? zlen bloomData) eqn:E1; [|lia].
  unfold make_slice, maxAlloc. destruct (2 ^ 48 <? zlen bloomData) eqn:E2; [lia|]. cbn [res_bind].
  rewrite int64_id by lia. unfold read_at. rewrite E. destruct (_ <? 0) eqn:E3; [lia|].
  destruct (_ <? _ + zlen bloomData) eqn:E4; [lia|]. cbn [res_bind].
  assert (Hsl : slice (image bl groups) (zlen data + zlen idx) (zlen data + zlen idx + zlen bloomData)
    = bloomData).
  { rewrite image_eq, app_assoc. apply slice_app_mid; rewrite zlen_app; lia. }
  rewrite Hsl. rewrite <- (app_nil_r bloomData).
  destruct (Bloom.add_all_params b0 (Key <$> concat groups)) as [Ek Em].
  rewrite Bloom.Decode_Encode; [done|by apply Bloom.add_all_wf|by rewrite Em|by rewrite Ek].
Qed.

Lemma seek_index : seek_read (image bl groups) (zlen data) (zlen idx) = Ok idx.
Proof.
  unfold seek_read. rewrite image_eq. rewrite drop_zlen by done. by rewrite Wal.read_full_app.
Qed.

(** A table that was written is opened. *)
Lemma OpenReader_reads w path fileID : bytes_at (fs w) path = Some (image bl groups) ->
  reads (OpenReader path fileID) w (fun r => table (fs w) r groups /\ fresh path r).
Proof.
  intros Hp. destruct image_sizes as (E & H1 & H2 & H3 & H4). apply reads_in_reads.
  unfold OpenReader. eapply reads_in_bind; [by eapply reads_reads_in, reads_open|].
  intros [] w0 _ Hw0 Hq0. rewrite <- Hw0 in Hp |- *.
  eapply reads_in_bind with (P := fun x => match x with
      | inl r => table (fs w0) r groups /\ fresh path r | inr _ => faults w <> [] end).
  - eapply reads_reads_in with (F := faults w <> []); [intros H0 H; by apply H0, Hq0|].
    eapply reads_weaken; [eapply reads_try with (P := fun r => table (fs w0) r groups /\ fresh path r)|].
    2:{ intros [r|e] H; [done|]. intros Hw. by apply H, Hq0. }
    unfold open_body.
    eapply reads_bind; [by apply reads_read|]. intros bs w1 -> Hw1 _.
    rewrite ReadFooter_image. eapply reads_bind; [by apply (reads_res the_footer _ (fun x => x = the_footer))|].
    intros ft w2 -> Hw2 _. eapply reads_bind; [apply reads_size; rewrite Hw2, Hw1; exact Hp|].
    intros n w3 -> Hw3 _. rewrite check_footer_ok.
    eapply reads_bind; [by apply (reads_res tt _ (fun x => True))|]. intros [] w4 _ Hw4 _.
    unfold make_slice, maxAlloc. cbn [the_footer IndexLength IndexOffset].
    destruct (_ <? zlen idx) eqn:E1; [lia|].
    eapply reads_bind; [by apply (reads_res tt _ (fun x => True))|]. intros [] w5 _ Hw5 _.
    eapply reads_bind; [apply reads_read; rewrite Hw5, Hw4, Hw3, Hw2, Hw1; exact Hp|].
    intros bs w6 -> Hw6 _. rewrite int64_id, seek_index by lia.
    eapply reads_bind; [by apply (reads_res idx _ (fun x => x = idx))|]. intros bs w7 -> Hw7 _.
    rewrite decodeIndex_Encode by by apply index_of_ok.
    eapply reads_bind; [by apply (reads_res (index_of 0 groups) _ (fun x => x = index_of 0 groups))|].
    intros ix w8 -> Hw8 _.
    eapply reads_bind; [apply reads_read; rewrite Hw8, Hw7, Hw6, Hw5, Hw4, Hw3, Hw2, Hw1; exact Hp|].
    intros bs w9 -> Hw9 _. rewrite decode_bloom_ok.
    eapply reads_bind; [eapply (reads_res _ _ (fun x => x = Some (Bloom.mkFilter (Bloom.bits bl)
      (Bloom.k bl) 0 (Bloom.m bl)))); done|].
    intros bf w10 -> Hw10 _. apply reads_ret. split; [|done].
    split; try done; cbn.
    + exists (idx ++ bloomData ++ footer_Encode the_footer). by rewrite Hp, image_eq.
    + lia.
    + intros e He. rewrite (Bloom.MayContain_bits bl) by done.
      apply Bloom.add_all_contains; [done|]. by apply list_elem_of_fmap_2.
  - intros [r|e] w1 H Hw1 Hq1.
    + apply reads_reads_in, reads_ret; [|exact H]. intros Hx Hy. by apply Hx, Hq1, Hq0.
    + eapply reads_in_bind with (P := fun _ => True); [|intros; by apply reads_in_err].
      apply reads_reads_in; [done|]. unfold ignore, fs_close. unfold reads, prim, no_effect.
      by destruct (faults w1) as [|[] ?].
Qed.

End open.

(** * Reading leaves the directory alone *)

Lemma readBlock_read_only r off n : read_only (readBlock r off n).
Proof. unfold readBlock. io_read_only. Qed.
#[local] Hint Resolve readBlock_read_only : iosteady iopres.

Lemma advance_read_only fuel : forall it, read_only (advance fuel it).
Proof. induction fuel as [|fuel IH]; intros it; cbn [advance]; io_read_only. Qed.
#[local] Hint Resolve advance_read_only : iosteady iopres.

Lemma NewIterator_read_only r : read_only (NewIterator r).
Proof. apply advance_read_only. Qed.

Lemma it_Next_read_only it : read_only (it_Next it).
Proof. unfold it_Next. io_read_only. Qed.
#[local] Hint Resolve NewIterator_read_only it_Next_read_only : iosteady iopres.

Lemma count_loop_read_only fuel : forall it n, read_only (count_loop fuel it n).
Proof. induction fuel as [|fuel IH]; intros it n; cbn [count_loop]; io_read_only. Qed.
#[local] Hint Resolve count_loop_read_only : iosteady iopres.

Lemma EntryCount_read_only r : read_only (EntryCount r).
Proof. unfold EntryCount. io_read_only. Qed.

Lemma OpenReader_read_only path fileID : read_only (OpenReader path fileID).
Proof. unfold OpenReader, open_body. io_read_only. Qed.

Lemma closeFile_steady r : steady (closeFile r).
Proof. unfold closeFile. io_steady. Qed.

Lemma closeFile_touches r : touches (fun q => q = r_path r) (closeFile r).
Proof. intros q Q Hq. assert (r_path r <> q) by congruence. unfold closeFile. io_pres. Qed.

End SstReader.
