(* ===== verification/SstRefs.v ===== *)
(** The life of an open table (the reference counts of internal/sstable/reader.go)
    as a state machine: [Get] and [Scan] take and drop references, a compaction
    discards and [Close] closes, in any order and under any schedule of faults.  The
    reader itself checks nothing; what its users keep to is [op_allowed], and
    [late_ref_unprotected] shows what happens otherwise. *)

From Stdlib Require Import ZArith Lia.
From S2P Require Import Prelude Word Fs SstFormat SstReader.

Module SstRefs.
Import SstReader.

(** * Reference counts as a state machine *)

(** The four operations on a reader. *)
Inductive reader_op := ORef | OUnref | OClose | ODiscard.

Definition reader_run (op : reader_op) (r : Reader) : io Reader :=
  match op with
  | ORef => io_ret (Ref r)
  | OUnref => Unref r
  | OClose => let! (r', _) := Close r in io_ret r'
  | ODiscard => let! (r', _) := Discard r in io_ret r'
  end.

(** Any of them, at any time. *)
Inductive reader_step (op : reader_op) : Reader * World -> Reader * World -> Prop :=
| reader_step_op r w r' w' : reader_run op r w = (Ok r', w') -> reader_step op (r, w) (r', w').

(** How the database uses a reader.  [Get] and [Scan] take their references under the lock
    while the reader is in the published list, that is before anybody asks to close it; a
    reference may also be taken behind another one that is still held.  Only a reference
    that is held is dropped. *)
Definition op_allowed (op : reader_op) (r : Reader) : Prop :=
  match op with ORef => r_closePending r = false \/ 0 < r_refs r | OUnref => 0 < r_refs r | _ => True end.

Definition protocol_step (s s' : Reader * World) : Prop := exists op, op_allowed op s.1 /\ reader_step op s s'.

(** Opened as [r0] in the directory [f0]. *)
Record reader_inv (r0 : Reader) (f0 : fsys) (s : Reader * World) : Prop := {
  ri_path : r_path s.1 = r_path r0;
  ri_refs : 0 <= r_refs s.1;
  ri_file : r_file s.1 = negb (r_fileClosed s.1);
  ri_closed : r_fileClosed s.1 = true <-> r_closePending s.1 = true /\ r_refs s.1 = 0;
  ri_disk : r_fileClosed s.1 = false \/ r_discardPending s.1 = false ->
            fs s.2 !! r_path r0 = f0 !! r_path r0;
  ri_discard : r_discardPending s.1 = true -> r_closePending s.1 = true
}.

(** Closing the handle, whatever the calls answer. *)
Lemma closeFile_spec r w r' e w' : r_fileClosed r = false -> r_file r = true ->
  closeFile r w = (Ok (r', e), w') ->
  r' = set_closed r /\ (r_discardPending r = false -> fs w' = fs w).
Proof.
  intros Hc Hf. unfold closeFile. rewrite Hc, Hf. cbn [orb negb]. unfold io_bind, try.
  assert (Hfs : fs (snd (fs_close (r_path r) w)) = fs w)
    by (unfold fs_close, prim, no_effect; by destruct (faults w) as [|[]]).
  destruct (fs_close (r_path r) w) as [[u|e1|] w1]; cbn [snd] in Hfs; [| |done].
  all: destruct (r_discardPending r && _) eqn:Eb; [|unfold io_ret; intros Hrun; simplify_eq/=; done].
  all: unfold ignore; destruct (fs_remove (r_path r) w1) as [[u'|e2|] w2]; unfold io_ret; intros Hrun; simplify_eq/=.
  all: split; [done|]; intros Hn; by rewrite Hn in Eb.
Qed.

Lemma reader_inv_step r0 f0 s s' : reader_inv r0 f0 s -> protocol_step s s' -> reader_inv r0 f0 s'.
Proof.
  intros Hi (op & Hal & Hs). destruct Hs as [r w r' w' Hrun]. destruct Hi as [Hp Hr Hf Hc Hd Hx]. cbn [fst snd] in *.
  assert (Hclose : forall r1 r2 e w2, r_path r1 = r_path r0 -> r_refs r1 = 0 -> r_closePending r1 = true ->
    r_fileClosed r1 = r_fileClosed r -> r_file r1 = r_file r ->
    (r_fileClosed r = true -> r_discardPending r1 = false -> fs w !! r_path r0 = f0 !! r_path r0) ->
    closeFile r1 w = (Ok (r2, e), w2) -> reader_inv r0 f0 (r2, w2)).
  { intros r1 r2 e w2 P1 P2 P3 P4 P5 P6 Hcl. destruct (r_fileClosed r) eqn:Ec.
    - unfold closeFile in Hcl. rewrite P4 in Hcl. cbn [orb] in Hcl. unfold io_ret in Hcl. simplify_eq.
      split; cbn [fst snd]; rewrite ?P3, ?P4, ?P5; try done; [lia|naive_solver].
    - destruct (closeFile_spec r1 w r2 e w2) as [-> Hfs]; [done|by rewrite P5, Hf|done|].
      split; cbn; try done; [lia|].
      intros [?|Hnd]; [done|]. rewrite (Hfs Hnd). apply Hd. by left. }
  destruct op; cbn [reader_run op_allowed] in *.
  - unfold io_ret in Hrun. simplify_eq. split; cbn; try done; [lia|].
    rewrite Hc. destruct Hal as [Hal|Hal]; [rewrite Hal; naive_solver|]. split; intros [? ?]; lia.
  - unfold Unref in Hrun. cbn [r_refs r_closePending set_refs] in Hrun.
    assert (Hopen : r_fileClosed r = false) by (destruct (r_fileClosed r); [destruct Hc as [Hc _]; destruct (Hc eq_refl); lia|done]).
    destruct (Z.eqb_spec (r_refs r - 1) 0) as [E0|E0]; cbn [andb] in Hrun.
    + destruct (r_closePending r) eqn:Ep.
      * unfold io_bind in Hrun. destruct (closeFile _ w) as [[[r2 e]|?|] w2] eqn:Ecl; try done.
        unfold io_ret in Hrun. simplify_eq.
        apply (Hclose (set_refs r (r_refs r - 1)) r' e w'); try done. by rewrite Hopen.
      * unfold io_ret in Hrun. simplify_eq. split; cbn; rewrite ?Ep; try done; [lia|]. rewrite Hopen. naive_solver.
    + unfold io_ret in Hrun. simplify_eq. split; cbn; try done; [lia|]. rewrite Hopen. split; [done|]. intros [_ ?]. lia.
  - unfold Close in Hrun. cbn [r_refs set_pending] in Hrun. unfold io_bind in Hrun.
    destruct (Z.eqb_spec (r_refs r) 0) as [E0|E0].
    + destruct (closeFile _ w) as [[[r2 e]|?|] w2] eqn:Ecl; try done. unfold io_ret in Hrun. simplify_eq.
      apply (Hclose (set_pending r true (r_discardPending r)) r' e w'); try done. cbn. auto.
    + unfold io_ret in Hrun. simplify_eq. split; cbn; try done. split; [|naive_solver].
      intros Hcl. destruct Hc as [Hc _]. by destruct (Hc Hcl).
  - unfold Discard in Hrun. cbn [r_refs set_pending] in Hrun. unfold io_bind in Hrun.
    destruct (Z.eqb_spec (r_refs r) 0) as [E0|E0].
    + destruct (closeFile _ w) as [[[r2 e]|?|] w2] eqn:Ecl; try done. unfold io_ret in Hrun. simplify_eq.
      apply (Hclose (set_pending r true true) r' e w'); try done.
    + unfold io_ret in Hrun. simplify_eq. split; cbn; try done.
      * split; [|naive_solver]. intros Hcl. destruct Hc as [Hc _]. by destruct (Hc Hcl).
      * intros [Hcl|?]; [|done]. apply Hd. by left.
Qed.

(** C29: While a reader holds a reference the table stays readable: in every state
    reachable by references taken and dropped, closes and discards, under any faults, as
    long as a reference is only taken before a close or discard was asked for or while
    another one is held, and only references that are held are dropped,
    the file handle is open as long as a reference is held or nobody asked to close;
    it is closed once a close was asked for and the last reference is gone; and the
    file on disk is untouched until then, and for good unless it was discarded. *)
Theorem refs_protect_table r0 w0 r w :
  r_file r0 = true -> r_fileClosed r0 = false -> r_refs r0 = 0 -> r_closePending r0 = false ->
  r_discardPending r0 = false -> rtc protocol_step (r0, w0) (r, w) ->
  0 <= r_refs r /\ r_file r = negb (r_fileClosed r) /\
  (r_fileClosed r = true <-> r_closePending r = true /\ r_refs r = 0) /\
  (r_fileClosed r = false \/ r_discardPending r = false -> fs w !! r_path r0 = fs w0 !! r_path r0).
Proof.
  intros H1 H2 H3 H4 H5 Hrtc.
  assert (H0 : reader_inv r0 (fs w0) (r0, w0)).
  { split; cbn; try done; [lia|by rewrite H1, H2|rewrite H2, H4; naive_solver|by rewrite H5]. }
  assert (Hinv : reader_inv r0 (fs w0) (r, w)).
  { revert H0. generalize (fs w0) as f0. intros f0. remember (r, w) as s eqn:Es. clear Es.
    induction Hrtc as [s|s1 s2 s3 Hstep _ IH]; [done|]. intros Hi. apply IH. by eapply reader_inv_step. }
  destruct Hinv. by cbn in *.
Qed.

(** A reader that is discarded while a scan still holds it. *)
Definition demo_reader : Reader := mkReader true "t" (SstFormat.mkFooter 0 0 0 0 0 0) [] None 1 0 false false false.
Definition demo_world : World := mkWorld {[ "t"%string := File [x01] [x01] ]} [].

Lemma refs_protect_table_witness :
  exists r w, rtc protocol_step (demo_reader, demo_world) (r, w) /\ r_discardPending r = true /\
    r_file r = true /\ fs w !! "t"%string = Some (File [x01] [x01]).
Proof.
  set (r1 := set_refs demo_reader 1). set (r2 := set_pending r1 true true).
  assert (Hrun : rtc protocol_step (demo_reader, demo_world) (r2, demo_world)).
  { eapply rtc_l; [exists ORef; split; [by left | by apply reader_step_op]|].
    eapply rtc_l; [exists ODiscard; split; [done | by apply reader_step_op]|]. apply rtc_refl. }
  exists r2, demo_world. split; [exact Hrun|]. split; [reflexivity|].
  destruct (refs_protect_table demo_reader demo_world r2 demo_world eq_refl eq_refl eq_refl eq_refl eq_refl Hrun)
    as (_ & _ & _ & H). split; [reflexivity|]. apply H. by left.
Defined.

(** Outside the protocol a reference protects nothing: taken after the close, it is held on
    a file that is closed. *)
Theorem late_ref_unprotected : exists s r w, reader_step OClose (demo_reader, demo_world) s /\ reader_step ORef s (r, w) /\
  0 < r_refs r /\ r_fileClosed r = true /\ r_file r = false.
Proof.
  eexists (_, _), _, _. split; [apply reader_step_op; reflexivity|]. split; [apply reader_step_op; reflexivity|]. done.
Qed.

End SstRefs.
