(* ===== verification/BlockCache.v ===== *)
(** The block cache (internal/sstable: cache.go, and the way [readBlock] of reader.go
    goes through it).

    The least-recently-used cache itself is the package hashicorp/golang-lru and is
    not part of the repository: [Lru] is the interface the code relies on, with the
    documented behaviour as its laws, on the list of its entries, the one used least
    recently first.  [list_lru] is an instance. *)

From Stdlib Require Import ZArith Lia.
From S2P Require Import Prelude Word Fs SstFormat SstWriter SstReader.

Definition cache_key : Type := Z * Z.

(** [lru.Cache[blockCacheKey, []byte]] *)
Class Lru := {
  lru : Type;
  lru_New : Z -> option lru;
  lru_Get : lru -> cache_key -> lru * option bytes;
  lru_Add : lru -> cache_key -> bytes -> lru;
  lru_RemoveOldest : lru -> lru * option (cache_key * bytes);
  lru_entries : lru -> list (cache_key * bytes);
  lru_cap : lru -> Z;

  (** "New creates an LRU of the given size", which must be positive. *)
  lru_New_spec : forall n, match lru_New n with
    | Some c => 0 < n /\ lru_entries c = [] /\ lru_cap c = n
    | None => n <= 0
    end;
  (** "Get looks up a key's value from the cache." *)
  lru_Get_result : forall c k,
    snd (lru_Get c k) = snd <$> find (fun x => bool_decide (x.1 = k)) (lru_entries c);
  lru_Get_entries : forall c k, lru_entries (fst (lru_Get c k)) ≡ₚ lru_entries c /\ lru_cap (fst (lru_Get c k)) = lru_cap c;
  (** "Add adds a value to the cache", replacing one of the same key; the oldest
      entry goes when there are more than the size allows. *)
  lru_Add_entries : forall c k v,
    lru_cap (lru_Add c k v) = lru_cap c /\
    let others := filter (fun x => x.1 <> k) (lru_entries c) in
    lru_entries (lru_Add c k v) =
      (if decide (k ∈ (lru_entries c).*1) then others ++ [(k, v)]
       else if decide (lru_cap c < zlen (lru_entries c) + 1) then tl (others ++ [(k, v)])
       else others ++ [(k, v)]);
  (** "RemoveOldest removes the oldest item from the cache." *)
  lru_Remove_spec : forall c,
    lru_cap (fst (lru_RemoveOldest c)) = lru_cap c /\
    snd (lru_RemoveOldest c) = head (lru_entries c) /\
    lru_entries (fst (lru_RemoveOldest c)) = tl (lru_entries c)
}.

Module BlockCache.
Import SstFormat.

Definition DefaultBlockCacheBytes : Z := Z.shiftl 32 20.

Definition makeBlockCacheKey (fileID offset : Z) : cache_key := (fileID, offset).

Section cache.
Context `{Lru}.

(** A pointer to a cache is nil or not; the cache's own pointer to the LRU is nil
    when [lru.New] failed, its error being ignored. *)
Record BlockCache := mkCache { inner : option lru; bytes_ : Z; max : Z }.

Definition NewBlockCache (maxBytes : Z) : BlockCache :=
  let maxBytes := if maxBytes <=? 0 then DefaultBlockCacheBytes else maxBytes in
  mkCache (lru_New (Z.quot maxBytes 256)) 0 maxBytes.

(** The cache of a database ([Open] of db.go): a negative size disables it. *)
Definition cache_of_options (blockCacheSize : Z) : option BlockCache :=
  if blockCacheSize <? 0 then None else Some (NewBlockCache blockCacheSize).

(** A method of the nil LRU panics. *)
Definition get (c : option BlockCache) (key : cache_key) : res (option BlockCache * option bytes) :=
  match c with
  | None => Ok (None, None)
  | Some b =>
      match inner b with
      | None => Crashed
      | Some l => let '(l', v) := lru_Get l key in Ok (Some (mkCache (Some l') (bytes_ b) (max b)), v)
      end
  end.

(** [for c.bytes > c.max { ... RemoveOldest ... }], at most [fuel] rounds. *)
Fixpoint evict (fuel : nat) (l : lru) (n maxBytes : Z) : lru * Z :=
  match fuel with
  | O => (l, n)
  | S fuel' =>
      if maxBytes <? n then
        match lru_RemoveOldest l with
        | (l', None) => (l', n)
        | (l', Some (_, v)) => evict fuel' l' (n - zlen v) maxBytes
        end
      else (l, n)
  end.

Definition add (c : option BlockCache) (key : cache_key) (block : bytes) : res (option BlockCache) :=
  match c with
  | None => Ok None
  | Some b =>
      match inner b with
      | None => Crashed
      | Some l =>
          let '(l1, existing) := lru_Get l key in
          let n := match existing with Some v => bytes_ b - zlen v | None => bytes_ b end in
          let l2 := lru_Add l1 key block in
          let '(l3, n') := evict (S (length (lru_entries l2))) l2 (n + zlen block) (max b) in
          Ok (Some (mkCache (Some l3) n' (max b)))
      end
  end.

(** [readBlock] with the cache in front of the file. *)
Definition readBlock (c : option BlockCache) (r : SstReader.Reader) (offset length : Z)
  : io (option BlockCache * (bytes + error)) :=
  let key := makeBlockCacheKey (SstReader.r_fileID r) offset in
  let! (c, hit) := io_res (get c key) in
  match hit with
  | Some data => io_ret (c, inl data)
  | None =>
      let! got := try (SstReader.readBlock r offset length) in
      match got with
      | inr e => io_ret (c, inr e)
      | inl blockData => let! c := io_res (add c key blockData) in io_ret (c, inl blockData)
      end
  end.

(** * What the cache guarantees *)

Definition sizes (l : list (cache_key * bytes)) : Z := foldr (fun x n => zlen x.2 + n) 0 l.

(** The bytes held are at most those counted and at most the maximum. *)
Record cache_inv (b : BlockCache) (l : lru) : Prop := {
  ci_inner : inner b = Some l;
  ci_keys : NoDup (lru_entries l).*1;
  ci_counted : sizes (lru_entries l) <= bytes_ b;
  ci_bounded : sizes (lru_entries l) <= max b
}.

(** The counter says what is held. *)
Definition exact (b : BlockCache) (l : lru) : Prop := bytes_ b = sizes (lru_entries l).

Lemma sizes_app a b : sizes (a ++ b) = sizes a + sizes b.
Proof. induction a as [|x a IH]; [done|]. cbn. fold (sizes a) (sizes (a ++ b)). lia. Qed.

Lemma sizes_nonneg l : 0 <= sizes l.
Proof. induction l as [|x l IH]; cbn; [lia|]. fold (sizes l). pose proof (zlen_nonneg x.2). lia. Qed.

Lemma sizes_perm a b : a ≡ₚ b -> sizes a = sizes b.
Proof.
  induction 1 as [|x a b _ IH|x y a|a b c _ IH1 _ IH2]; [done| | |congruence].
  - cbn. fold (sizes a) (sizes b). lia.
  - cbn. fold (sizes a). lia.
Qed.

Lemma sizes_tl l : sizes (tl l) <= sizes l.
Proof. destruct l as [|x l]; [done|]. cbn. fold (sizes l). pose proof (zlen_nonneg x.2). lia. Qed.

Lemma NoDup_fst_tl (l : list (cache_key * bytes)) : NoDup l.*1 -> NoDup (tl l).*1.
Proof. destruct l as [|x l]; [done|]. rewrite fmap_cons, NoDup_cons. tauto. Qed.

(** What the loop leaves: a suffix that the counter allows, or nothing. *)
Lemma evict_spec fuel : forall l n m, (length (lru_entries l) < fuel)%nat -> NoDup (lru_entries l).*1 ->
  sizes (lru_entries l) <= n ->
  let '(l', n') := evict fuel l n m in
  lru_entries l' `suffix_of` lru_entries l /\ n' - sizes (lru_entries l') = n - sizes (lru_entries l) /\
  (n' <= m \/ lru_entries l' = []).
Proof.
  induction fuel as [|fuel IH]; intros l n m Hf Hnd Hn; [lia|]. cbn [evict].
  destruct (Z.ltb_spec m n); [|by repeat split; [|left]].
  destruct (lru_Remove_spec l) as (_ & Hv & He). destruct (lru_RemoveOldest l) as [l' v]. cbn [fst snd] in *.
  destruct (lru_entries l) as [|[k0 v0] es] eqn:El; cbn in Hv, He; subst v.
  - rewrite He. split; [done|]. split; [done|by right].
  - cbn in Hn, Hf. fold (sizes es) in Hn. specialize (IH l' (n - zlen v0) m). rewrite He in IH.
    destruct (evict fuel l' (n - zlen v0) m) as [l'' n''].
    destruct IH as (H1 & H2 & H3); [lia|by apply (NoDup_fst_tl ((k0, v0) :: es))|lia|].
    split; [by apply suffix_cons_r|]. split; [|done]. cbn. fold (sizes es). lia.
Qed.

(** Looking a key up finds its entry. *)
Lemma find_key l k v : NoDup l.*1 -> find (fun x : cache_key * bytes => bool_decide (x.1 = k)) l = Some v ->
  l ≡ₚ (k, v.2) :: filter (fun x => x.1 <> k) l.
Proof.
  induction l as [|[k0 v0] l IH]; [done|]. rewrite fmap_cons, NoDup_cons. intros [Hk Hnd]. cbn [find fst].
  case_bool_decide as E.
  - intros [= <-]. subst k. rewrite filter_cons_False by (cbn; tauto). cbn. f_equiv.
    assert (Hall : Forall (fun x : cache_key * bytes => x.1 <> k0) l).
    { apply Forall_forall. intros x Hx <-. apply Hk. apply list_elem_of_fmap. by exists x. }
    clear -Hall. induction Hall as [|x l Hx _ IH]; [done|]. rewrite filter_cons_True by done. by rewrite <- IH.
  - intros Hf. rewrite filter_cons_True by done. rewrite (IH Hnd Hf) at 1. apply Permutation_swap.
Qed.

Lemma find_none l k : find (fun x : cache_key * bytes => bool_decide (x.1 = k)) l = None ->
  k ∉ l.*1 /\ filter (fun x => x.1 <> k) l = l.
Proof.
  induction l as [|[k0 v0] l IH]; cbn [find fst]; [by intros _; split; [apply not_elem_of_nil|]|].
  case_bool_decide as E; [done|]. intros [H1 H2]%IH. split.
  - rewrite fmap_cons, elem_of_cons. naive_solver.
  - rewrite filter_cons_True by done. by rewrite H2.
Qed.

(** [add] before the eviction loop: the key is held once, and the bytes counted but
    not held are what they were, or more if the LRU dropped an entry by itself. *)
Lemma add_entries_spec b l key block : cache_inv b l ->
  let '(l1, existing) := lru_Get l key in
  let n := match existing with Some v => bytes_ b - zlen v | None => bytes_ b end + zlen block in
  let l2 := lru_Add l1 key block in
  NoDup (lru_entries l2).*1 /\ (forall x, x ∈ lru_entries l2 -> x = (key, block) \/ x ∈ lru_entries l /\ x.1 <> key) /\
  bytes_ b - sizes (lru_entries l) <= n - sizes (lru_entries l2) /\
  (is_Some existing \/ zlen (lru_entries l) < lru_cap l ->
   bytes_ b - sizes (lru_entries l) = n - sizes (lru_entries l2)).
Proof.
  intros [_ Hnd _ _]. pose proof (lru_Get_result l key) as Hres. destruct (lru_Get_entries l key) as [Hperm Hcap].
  destruct (lru_Get l key) as [l1 existing]. cbn [fst snd] in *. cbn zeta.
  destruct (lru_Add_entries l1 key block) as [_ He]. cbn zeta in He. rewrite Hcap in He.
  set (o1 := filter (fun x => x.1 <> key) (lru_entries l1)) in *.
  set (o := filter (fun x => x.1 <> key) (lru_entries l)).
  assert (Ho : o1 ≡ₚ o) by (unfold o1, o; by rewrite Hperm).
  assert (Hndo : NoDup (o1 ++ [(key, block)]).*1).
  { rewrite fmap_app. cbn. apply NoDup_app. split; [|split; [|apply NoDup_singleton]].
    - rewrite Ho. eapply sublist_NoDup; [exact Hnd|]. apply fmap_sublist, sublist_filter.
    - intros x Hx ->%list_elem_of_singleton. apply list_elem_of_fmap in Hx as (y & Ey & Hy).
      unfold o1 in Hy. apply list_elem_of_filter in Hy as [Hy _]. congruence. }
  assert (Hin : forall x, x ∈ o1 ++ [(key, block)] -> x = (key, block) \/ x ∈ lru_entries l /\ x.1 <> key).
  { intros x [Hx| ->%list_elem_of_singleton]%elem_of_app; [|by left]. right. rewrite Ho in Hx.
    unfold o in Hx. apply list_elem_of_filter in Hx. tauto. }
  assert (Hs1 : sizes (o1 ++ [(key, block)]) = sizes o + zlen block) by (rewrite sizes_app, (sizes_perm _ _ Ho); cbn; lia).
  assert (Hlen : zlen (lru_entries l1) = zlen (lru_entries l)) by (unfold zlen; by rewrite Hperm).
  destruct (find _ (lru_entries l)) as [v|] eqn:Ef; cbn in Hres; subst existing.
  - assert (Hso : sizes (lru_entries l) = zlen v.2 + sizes o) by (by rewrite (sizes_perm _ _ (find_key _ _ _ Hnd Ef))).
    rewrite decide_True in He by (rewrite Hperm, (find_key _ _ _ Hnd Ef); cbn; constructor). rewrite He.
    repeat (split; [done|]). split; [lia|intros _; lia].
  - destruct (find_none _ _ Ef) as [Hk Hfl]. fold o in Hfl. rewrite decide_False in He by (by rewrite Hperm).
    rewrite Hlen in He. case_decide as Hroom; rewrite He.
    + split; [by apply NoDup_fst_tl|]. split.
      { intros x Hx. apply Hin. destruct (o1 ++ [(key, block)]); [done|]. by constructor. }
      pose proof (sizes_tl (o1 ++ [(key, block)])). split; [rewrite <- Hfl; lia|]. intros [[? [=]]|Hlt]; lia.
    + repeat (split; [done|]). rewrite <- Hfl. split; [lia|intros _; lia].
Qed.

(** [add] succeeds on a working cache and keeps its invariant: the entries are old
    ones and the new block. *)
Lemma add_spec b l key block : cache_inv b l -> exists b' l', add (Some b) key block = Ok (Some b') /\
  cache_inv b' l' /\ max b' = max b /\
  (forall x, x ∈ lru_entries l' -> x = (key, block) \/ x ∈ lru_entries l /\ x.1 <> key) /\
  (exact b l -> key ∈ (lru_entries l).*1 \/ zlen (lru_entries l) < lru_cap l -> exact b' l').
Proof.
  intros Hinv. pose proof (add_entries_spec b l key block Hinv) as Hadd. pose proof Hinv as [Hl Hnd Hc Hb].
  unfold add. rewrite Hl. pose proof (lru_Get_result l key) as Hres.
  destruct (lru_Get l key) as [l1 existing]. cbn [fst snd] in Hres. cbn zeta in Hadd.
  destruct Hadd as (Hnd2 & Hin2 & Hle & Heq). set (l2 := lru_Add l1 key block) in *.
  set (n := match existing with Some v => bytes_ b - zlen v | None => bytes_ b end + zlen block) in *.
  pose proof (evict_spec (S (length (lru_entries l2))) l2 n (max b) ltac:(lia) Hnd2 ltac:(lia)) as Hev.
  destruct (evict _ l2 n (max b)) as [l3 n']. destruct Hev as ([pre Hsuf] & Hslack & Hend).
  exists (mkCache (Some l3) n' (max b)), l3. split; [done|]. split; [|split; [done|split]].
  - split; [done| |cbn; lia|].
    + rewrite Hsuf, fmap_app in Hnd2. by apply NoDup_app in Hnd2 as (_ & _ & ?).
    + cbn. destruct Hend as [Hend|Hend]; [lia|]. rewrite Hend. cbn. pose proof (sizes_nonneg (lru_entries l)). lia.
  - intros x Hx. apply Hin2. rewrite Hsuf. apply elem_of_app. by right.
  - unfold exact. cbn. intros Hex Hroom. enough (Hsome : is_Some existing \/ zlen (lru_entries l) < lru_cap l) by (specialize (Heq Hsome); lia).
    destruct Hroom as [Hk|Hr]; [left|by right]. rewrite Hres.
    destruct (find _ (lru_entries l)) eqn:Ef; [by eexists|]. by apply find_none in Ef as [? _].
Qed.

(** * Reading through the cache *)

Lemma block_of_pos g : g <> [] -> 0 < zlen (block_of g).
Proof.
  destruct g as [|e g]; [done|]. intros _. rewrite block_of_cons, zlen_app. pose proof (zlen_nonneg (block_of g)).
  unfold entry_wire. rewrite !zlen_app. pose proof (zlen_nonneg (Key e)). pose proof (zlen_nonneg (Value e)).
  pose proof (zlen_nonneg (put_u32 (zlen (Key e)))). pose proof (zlen_nonneg (put_u32 (zlen (Value e)))).
  change (zlen [tomb_byte (Tombstone e)]) with 1. lia.
Qed.

Lemma data_of_take_lt groups i j g : SstWriter.blocks groups -> groups !! i = Some g -> (i < j)%nat ->
  zlen (SstWriter.data_of (take i groups)) < zlen (SstWriter.data_of (take j groups)).
Proof.
  intros Hb Hi Hij. replace (take i groups) with (take i (take j groups)) by (rewrite take_take; f_equal; lia).
  assert (Hij' : take j groups !! i = Some g) by (by rewrite lookup_take_lt).
  rewrite (SstReader.table_split (take j groups) i g Hij'), !zlen_app.
  pose proof (zlen_nonneg (SstWriter.data_of (drop (S i) (take j groups)))).
  assert (Hg : g <> []) by (by eapply (Forall_lookup_1 _ _ _ _ Hb)). pose proof (block_of_pos g Hg). lia.
Qed.

(** Two blocks of a table start at different offsets. *)
Lemma offsets_inj f r groups i j gi gj ei ej : SstReader.table f r groups ->
  groups !! i = Some gi -> groups !! j = Some gj ->
  SstReader.r_index r !! i = Some ei -> SstReader.r_index r !! j = Some ej ->
  Offset ei = Offset ej -> i = j.
Proof.
  intros [] Hi Hj He1 He2. rewrite t_index, SstReader.index_of_lookup in He1, He2. rewrite Hi in He1. rewrite Hj in He2. cbn in He1, He2.
  simplify_eq. cbn [Offset]. assert (Hle : forall k, zlen (SstWriter.data_of (take k groups)) <= zlen (SstWriter.data_of groups)).
  { intros k. rewrite <- (take_drop k groups) at 2. rewrite SstReader.data_of_app, zlen_app.
    pose proof (zlen_nonneg (SstWriter.data_of (drop k groups))). lia. }
  pose proof (Hle i). pose proof (Hle j). pose proof (zlen_nonneg (SstWriter.data_of (take i groups))).
  pose proof (zlen_nonneg (SstWriter.data_of (take j groups))). rewrite !u64_id by (unfold is_u64; lia). intros E.
  destruct (Nat.lt_trichotomy i j) as [Hlt|[->|Hlt]]; [|done|].
  - pose proof (data_of_take_lt groups i j gi t_blocks Hi Hlt). lia.
  - pose proof (data_of_take_lt groups j i gj t_blocks Hj Hlt). lia.
Qed.

(** What is cached under a block of the reader is that block. *)
Definition coherent (l : lru) (r : SstReader.Reader) (groups : list (list entry)) : Prop :=
  forall i g e v, groups !! i = Some g -> SstReader.r_index r !! i = Some e ->
    (makeBlockCacheKey (SstReader.r_fileID r) (Offset e), v) ∈ lru_entries l -> v = block_of g.

Definition cache_ok (c : option BlockCache) (rs : list (SstReader.Reader * list (list entry))) : Prop :=
  match c with
  | None => True
  | Some b => exists l, cache_inv b l /\ Forall (fun x => coherent l x.1 x.2) rs
  end.

Lemma get_ok c rs key : cache_ok c rs -> exists c' hit, get c key = Ok (c', hit) /\ cache_ok c' rs /\
  match c, hit with
  | Some b, Some v => exists l, inner b = Some l /\ (key, v) ∈ lru_entries l
  | None, Some _ => False
  | _, None => True
  end.
Proof.
  destruct c as [b|]; [|by eexists _, _]. intros (l & [Hl Hnd Hc Hb] & Hco). unfold get. rewrite Hl.
  pose proof (lru_Get_result l key) as Hres. destruct (lru_Get_entries l key) as [Hperm _].
  destruct (lru_Get l key) as [l' v]. cbn [fst snd] in *. eexists _, v. split; [done|]. split.
  - exists l'. split.
    + split; cbn; [done|by rewrite Hperm|by rewrite (sizes_perm _ _ Hperm)..].
    + eapply Forall_impl; [exact Hco|]. intros x Hx i g e w Hg He Hin. rewrite Hperm in Hin. by eapply Hx.
  - destruct v as [v|]; [|done]. exists l. split; [done|].
    destruct (find _ (lru_entries l)) as [x|] eqn:Ef; [|done]. cbn in Hres. injection Hres as ->.
    rewrite (find_key _ _ _ Hnd Ef). constructor.
Qed.

(** A block just read goes into the cache. *)
Lemma add_ok f c rs r groups i g e : cache_ok c rs -> (r, groups) ∈ rs ->
  (forall x y, x ∈ rs -> y ∈ rs -> SstReader.r_fileID x.1 = SstReader.r_fileID y.1 -> x = y) ->
  SstReader.table f r groups -> groups !! i = Some g -> SstReader.r_index r !! i = Some e ->
  exists c', add c (makeBlockCacheKey (SstReader.r_fileID r) (Offset e)) (block_of g) = Ok c' /\ cache_ok c' rs.
Proof.
  intros Hc Hr Hinj Ht Hi He. destruct c as [b|]; [|by exists None]. destruct Hc as (l & Hinv & Hco).
  destruct (add_spec b l (makeBlockCacheKey (SstReader.r_fileID r) (Offset e)) (block_of g) Hinv)
    as (b' & l' & Hadd & Hinv' & _ & Hin & _).
  exists (Some b'). split; [done|]. exists l'. split; [done|]. apply Forall_forall. intros x Hx j gj ej v Hgj Hej Hv.
  apply Hin in Hv as [Hv|[Hv _]].
  - injection Hv as Hid Hoff ->. assert (x = (r, groups)) as -> by (by apply Hinj). cbn [fst snd] in *.
    assert (i = j) as -> by (eapply (offsets_inj f r groups i j); done). congruence.
  - rewrite Forall_forall in Hco. by eapply (Hco x Hx).
Qed.

(** The readers that share a cache have ids of their own ([nextReaderFileID] never
    hands out one twice). *)
Definition distinct_ids (rs : list (SstReader.Reader * list (list entry))) : Prop :=
  forall x y, x ∈ rs -> y ∈ rs -> SstReader.r_fileID x.1 = SstReader.r_fileID y.1 -> x = y.

(** C25: The cache does not change what is read: for an open table, whatever the schedule
    of faults, [readBlock] returns the bytes of the block or, if there was a fault, an
    error; it leaves the directory alone and the cache coherent for every reader that
    shares it. *)
Theorem cached_read_refines w c rs r groups i g e : cache_ok c rs -> (r, groups) ∈ rs -> distinct_ids rs ->
  SstReader.table (fs w) r groups -> groups !! i = Some g -> SstReader.r_index r !! i = Some e ->
  reads (readBlock c r (Offset e) (Length e)) w
    (fun x => cache_ok x.1 rs /\ match x.2 with inl v => v = block_of g | inr _ => faults w <> [] end).
Proof.
  intros Hc Hr Hinj Ht Hi He. unfold readBlock.
  destruct (get_ok c rs (makeBlockCacheKey (SstReader.r_fileID r) (Offset e)) Hc) as (c' & hit & Hget & Hc' & Hhit).
  rewrite Hget. apply (reads_bind _ _ _ (fun x => x = (c', hit))); [by apply reads_res|]. intros ? w1 -> Hw1 Hf1. destruct hit as [v|].
  - apply reads_ret. cbn [fst snd]. split; [done|]. destruct c as [b|]; [|done]. destruct Hhit as (l & Hl & Hin).
    destruct Hc as (l0 & [Hl0 _ _ _] & Hco). rewrite Hl in Hl0. injection Hl0 as <-.
    rewrite Forall_forall in Hco. by eapply (Hco (r, groups)).
  - assert (Ht1 : SstReader.table (fs w1) r groups) by (by rewrite Hw1).
    eapply reads_bind; [apply reads_try, (SstReader.readBlock_reads w1 r groups Ht1 i g e Hi He)|].
    intros [v|er] w2 Hv Hw2 Hf2; [|apply reads_ret; split; [done|]; cbn; intros E; by apply Hv, Hf1].
    subst v. destruct (add_ok (fs w) c' rs r groups i g e Hc' Hr Hinj Ht Hi He) as (c2 & Hadd & Hc2).
    rewrite Hadd. apply (reads_bind _ _ _ (fun x => x = c2)); [by apply reads_res|]. intros ? w3 -> _ _. by apply reads_ret.
Qed.

(** C26: Adding a block never fails on a working cache, and the bytes held never exceed
    the maximum, however large the block; the counter is exact as long as the LRU has
    room for the key. *)
Theorem cache_bounded b l key block : cache_inv b l -> exists b' l', add (Some b) key block = Ok (Some b') /\
  cache_inv b' l' /\ sizes (lru_entries l') <= max b /\
  (exact b l -> key ∈ (lru_entries l).*1 \/ zlen (lru_entries l) < lru_cap l -> exact b' l').
Proof.
  intros Hinv. destruct (add_spec b l key block Hinv) as (b' & l' & H1 & H2 & H3 & _ & H4).
  exists b', l'. split; [done|]. split; [done|]. split; [|done]. rewrite <- H3. apply H2.
Qed.

(** A cache of the default size or of at least 256 bytes works from the start. *)
Lemma NewBlockCache_inv n : n <= 0 \/ 256 <= n -> exists l, cache_inv (NewBlockCache n) l /\ lru_entries l = [].
Proof.
  intros Hn. unfold NewBlockCache. set (m := if n <=? 0 then _ else n).
  assert (Hm : 256 <= m) by (unfold m, DefaultBlockCacheBytes; destruct (Z.leb_spec n 0); [vm_compute; discriminate|lia]).
  pose proof (lru_New_spec (Z.quot m 256)) as Hnew. assert (1 <= Z.quot m 256) by (apply Z.quot_le_lower_bound; lia).
  destruct (lru_New (Z.quot m 256)) as [l|]; [|lia]. destruct Hnew as (_ & Hl & _). exists l. split; [|done].
  split; cbn; rewrite ?Hl; cbn; [done|constructor|lia|lia].
Qed.

(** A cache size between 1 and 255 bytes makes the first read of a block end the
    process: the LRU refuses the size 0 and its error is ignored. *)
Theorem small_cache_panics n r offset length w : 0 < n < 256 ->
  readBlock (cache_of_options n) r offset length w = (Crashed, w).
Proof.
  intros Hn. unfold cache_of_options, NewBlockCache. destruct (Z.ltb_spec n 0); [lia|]. destruct (Z.leb_spec n 0); [lia|].
  pose proof (lru_New_spec (Z.quot n 256)) as Hnew. rewrite Z.quot_small in * by lia.
  destruct (lru_New 0) as [l|] eqn:E; [lia|]. done.
Qed.

End cache.

(** * An instance of the interface *)

Definition list_get (c : list (cache_key * bytes) * Z) (k : cache_key) : (list (cache_key * bytes) * Z) * option bytes :=
  match find (fun x => bool_decide (x.1 = k)) c.1 with
  | Some x => ((filter (fun y => y.1 <> k) c.1 ++ filter (fun y => y.1 = k) c.1, c.2), Some x.2)
  | None => (c, None)
  end.

Definition list_add (c : list (cache_key * bytes) * Z) (k : cache_key) (v : bytes) : list (cache_key * bytes) * Z :=
  let others := filter (fun x => x.1 <> k) c.1 in
  (if decide (k ∈ c.1.*1) then others ++ [(k, v)]
   else if decide (c.2 < zlen c.1 + 1) then tl (others ++ [(k, v)])
   else others ++ [(k, v)], c.2).

#[export] Program Instance list_lru : Lru := {|
  lru := list (cache_key * bytes) * Z;
  lru_New n := if 0 <? n then Some ([], n) else None;
  lru_Get := list_get;
  lru_Add := list_add;
  lru_RemoveOldest c := ((tl c.1, c.2), head c.1);
  lru_entries := fst;
  lru_cap := snd
|}.
Next Obligation. intros n. cbn. destruct (Z.ltb_spec 0 n); cbn; lia || done. Qed.
Next Obligation. intros c k. unfold list_get. by destruct (find _ c.1). Qed.
Next Obligation.
  intros [l n] k. unfold list_get. cbn. destruct (find _ l); [|done]. cbn. split; [|done].
  induction l as [|x l IH]; [done|]. destruct (decide (x.1 = k)) as [E|E].
  - rewrite (filter_cons_False _ x) by tauto. rewrite (filter_cons_True _ x) by done.
    by rewrite <- Permutation_middle, IH.
  - rewrite (filter_cons_True _ x) by done. rewrite (filter_cons_False _ x) by tauto. cbn. by rewrite IH.
Qed.
Next Obligation. done. Qed.
Next Obligation. done. Qed.

(** ** Instances of the theorems *)

Definition demo_key : cache_key := makeBlockCacheKey 1 0.

Definition empty_lru : @lru list_lru := ([], 1).

Lemma cache_bounded_witness : exists b' l',
  add (Some (NewBlockCache 256)) demo_key (replicate 300 x41) = Ok (Some b') /\
  cache_inv b' l' /\ sizes (lru_entries l') <= max (NewBlockCache 256) /\
  (exact (NewBlockCache 256) empty_lru -> demo_key ∈ (lru_entries empty_lru).*1 \/ zlen (lru_entries empty_lru) < lru_cap empty_lru ->
   exact b' l').
Proof.
  apply (cache_bounded (NewBlockCache 256) empty_lru demo_key (replicate 300 x41)).
  split; [reflexivity|constructor|discriminate|discriminate].
Defined.

Definition some_reader : SstReader.Reader :=
  SstReader.mkReader true "sst" (mkFooter 0 0 0 0 0 0) [] None 1 0 false false false.

Lemma small_cache_panics_witness : 0 < 100 < 256 /\
  readBlock (cache_of_options 100) some_reader 0 4 (mkWorld ∅ []) = (Crashed, mkWorld ∅ []).
Proof. split; [lia|]. apply (small_cache_panics 100 some_reader 0 4 (mkWorld ∅ [])). lia. Defined.

(** Two blocks of one byte in a cache of one entry: the LRU drops the first by itself
    and the counter keeps its byte, although one byte is held. *)
Theorem cache_count_drifts : exists b l,
  (let? c := add (Some (NewBlockCache 256)) (makeBlockCacheKey 1 0) [x41] in
   add c (makeBlockCacheKey 1 1) [x42]) = Ok (Some b) /\
  inner b = Some l /\ sizes (lru_entries l) = 1 /\ bytes_ b = 2.
Proof. eexists _, _. split; [vm_compute; reflexivity|]. by vm_compute. Qed.

End BlockCache.
