(* ===== verification/MergeIter.v ===== *)
(** Merging sorted sources (internal/iterator).

    [Iterator] is the interface of iterator.go as a type class.  [bound] is not
    part of the interface: it is an upper bound on the entries a source can still
    give, used as fuel for the loops, which therefore always reach their end.
    [IteratorSpec] says what a source promises to the merge, for file systems
    that satisfy [G]; the merge is proved against it. *)

From Stdlib Require Import ZArith Lia.
From S2P Require Import Prelude Fs.

(** * The interface (iterator.go) *)

Class Iterator (I : Type) := {
  iValid : I -> bool;
  iNext : I -> io (I * option error);
  iKey : I -> bytes;
  iValue : I -> bytes;
  iIsTombstone : I -> bool;
  iSeek : I -> bytes -> io (I * option error);
  iClose : I -> I * option error;
  bound : I -> nat
}.

(** What a source promises while the directory satisfies [G]: [rep it es] says
    that [es] is what it will still give, [full it all] that it runs over [all]. *)
Class IteratorSpec (I : Type) `{Iterator I} (G : fsys -> Prop) := {
  rep : I -> list entry -> Prop;
  full : I -> list entry -> Prop;
  rep_bound : forall it es, rep it es -> (length es <= bound it)%nat;
  rep_nil : forall it, rep it [] -> iValid it = false;
  rep_cons : forall it e es, rep it (e :: es) ->
    iValid it = true /\ Entry (iKey it) (iValue it) (iIsTombstone it) = e;
  rep_next : forall w it e es, G (fs w) -> rep it (e :: es) ->
    reads (iNext it) w (fun p => (p.2 = None /\ rep p.1 es) \/ (faults w <> [] /\ p.2 <> None));
  full_seek : forall w it all key, G (fs w) -> full it all ->
    reads (iSeek it key) w (fun p => (p.2 = None /\ rep p.1 (skip_below key all)) \/
                                     (faults w <> [] /\ p.2 <> None))
}.

Module Merge.

(** * The merge (merge_core.go) *)

Section merge.
Context {I : Type} `{Iterator I}.

Record source := mkSource { src_it : I; priority : Z }.

(** [minKey == nil] and the empty key are the same slice. *)
Definition minKeyAcrossSources (srcs : list source) : bytes :=
  fold_left (fun minKey s =>
    if iValid (src_it s) then
      let k := iKey (src_it s) in
      if bool_decide (minKey = []) || bytes_ltb k minKey then k else minKey
    else minKey) srcs [].

(** A source that takes part in this round. *)
Definition at_key (minKey : bytes) (s : source) : bool :=
  iValid (src_it s) && bytes_eqb (iKey (src_it s)) minKey.

Definition pick_winner (minKey : bytes) (srcs : list source) : Z * entry :=
  fold_left (fun '(bestPri, winner) s =>
    if at_key minKey s && (bestPri <? priority s)
    then (priority s, Entry (iKey (src_it s)) (iValue (src_it s)) (iIsTombstone (src_it s)))
    else (bestPri, winner)) srcs (-1, Entry [] [] false).

(** [for _, it := range toAdvance { if err := it.Next(); err != nil { ... } }];
    the sources are shared, so those already advanced stay advanced. *)
Fixpoint advance_all (minKey : bytes) (srcs : list source) : io (list source * option error) :=
  match srcs with
  | [] => io_ret ([], None)
  | s :: srcs' =>
      if at_key minKey s then
        let! (it', err) := iNext (src_it s) in
        match err with
        | Some e => io_ret (mkSource it' (priority s) :: srcs', Some e)
        | None =>
            let! (rest, e) := advance_all minKey srcs' in
            io_ret (mkSource it' (priority s) :: rest, e)
        end
      else
        let! (rest, e) := advance_all minKey srcs' in io_ret (s :: rest, e)
  end.

(** The results of [mergeStep]: an error, no entry ([ok = false]), or an entry. *)
Inductive step_result :=
| StepErr (e : error)
| StepEnd
| StepEntry (e : entry).

Fixpoint merge_step (fuel : nat) (srcs : list source) (omitTombstones : bool)
  : io (list source * step_result) :=
  match fuel with
  | O => io_ret (srcs, StepEnd)
  | S fuel' =>
      let minKey := minKeyAcrossSources srcs in
      match minKey with
      | [] => io_ret (srcs, StepEnd)
      | _ =>
          let '(_, winner) := pick_winner minKey srcs in
          let! (srcs', err) := advance_all minKey srcs in
          match err with
          | Some e => io_ret (srcs', StepErr e)
          | None =>
              if Tombstone winner && omitTombstones
              then merge_step fuel' srcs' omitTombstones
              else io_ret (srcs', StepEntry winner)
          end
      end
  end.

Definition src_bound (srcs : list source) : nat := sum_list_with (fun s => bound (src_it s)) srcs.

(** Every round takes an entry from some source. *)
Definition mergeStep (srcs : list source) (omitTombstones : bool) : io (list source * step_result) :=
  merge_step (S (src_bound srcs)) srcs omitTombstones.

Definition make_sources (sources : list I) (priorities : list Z) : list source :=
  zip_with mkSource sources priorities.

Section for_each.
Context {S : Type} (fn : S -> bytes -> bytes -> bool -> io (S * option error)).

Fixpoint forEach_loop (fuel : nat) (srcs : list source) (omitTombstones : bool) (st : S)
  : io (S * option error) :=
  match fuel with
  | O => io_ret (st, None)
  | Datatypes.S fuel' =>
      let! (srcs', r) := mergeStep srcs omitTombstones in
      match r with
      | StepErr e => io_ret (st, Some e)
      | StepEnd => io_ret (st, None)
      | StepEntry w =>
          let! (st', err) := fn st (Key w) (Value w) (Tombstone w) in
          match err with
          | Some e => io_ret (st', Some e)
          | None => forEach_loop fuel' srcs' omitTombstones st'
          end
      end
  end.

(** [st] is the state of the callback: the state after the call and its error. *)
Definition ForEachMerged (sources : list I) (priorities : list Z) (omitTombstones : bool) (st : S)
  : io (S * option error) :=
  if negb (length sources =? length priorities)%nat then io_ret (st, Some ErrPriorityMismatch) else
  let srcs := make_sources sources priorities in
  forEach_loop (Datatypes.S (src_bound srcs)) srcs omitTombstones st.

(** The callback on a list of entries. *)
Fixpoint for_each (es : list entry) (st : S) : io (S * option error) :=
  match es with
  | [] => io_ret (st, None)
  | e :: es' =>
      let! (st', err) := fn st (Key e) (Value e) (Tombstone e) in
      match err with
      | Some er => io_ret (st', Some er)
      | None => for_each es' st'
      end
  end.

End for_each.

(** * The merge iterator (merge.go) *)

Record MergeIterator := mkMerge {
  m_sources : list source;
  m_key : bytes;
  m_value : bytes;
  m_valid : bool;
  m_err : option error
}.

Definition NewMergeIterator (sources : list I) (priorities : list Z) : res MergeIterator :=
  if negb (length sources =? length priorities)%nat then Err ErrPriorityMismatch
  else Ok (mkMerge (make_sources sources priorities) [] [] false None).

Definition m_advance (m : MergeIterator) : io (MergeIterator * option error) :=
  let! (srcs, r) := mergeStep (m_sources m) true in
  match r with
  | StepErr e => io_ret (mkMerge srcs (m_key m) (m_value m) false (Some e), Some e)
  | StepEnd => io_ret (mkMerge srcs [] [] false (m_err m), m_err m)
  | StepEntry w => io_ret (mkMerge srcs (Key w) (Value w) true (m_err m), None)
  end.

(** [for _, s := range m.sources { s.it.Seek(key) }] *)
Fixpoint seek_all (key : bytes) (srcs : list source) : io (list source * option error) :=
  match srcs with
  | [] => io_ret ([], None)
  | s :: srcs' =>
      let! (it', err) := iSeek (src_it s) key in
      match err with
      | Some e => io_ret (mkSource it' (priority s) :: srcs', Some e)
      | None =>
          let! (rest, e) := seek_all key srcs' in
          io_ret (mkSource it' (priority s) :: rest, e)
      end
  end.

Definition m_Seek (m : MergeIterator) (key : bytes) : io (MergeIterator * option error) :=
  let! (srcs, err) := seek_all key (m_sources m) in
  match err with
  | Some e => io_ret (mkMerge srcs (m_key m) (m_value m) false (Some e), Some e)
  | None => m_advance (mkMerge srcs (m_key m) (m_value m) (m_valid m) None)
  end.

Definition m_Valid (m : MergeIterator) : bool :=
  m_valid m && match m_err m with None => true | Some _ => false end.
Definition m_Key (m : MergeIterator) : bytes := m_key m.
Definition m_Value (m : MergeIterator) : bytes := m_value m.
Definition m_IsTombstone (m : MergeIterator) : bool := false.
Definition m_Err (m : MergeIterator) : option error := m_err m.

Definition m_Next (m : MergeIterator) : io (MergeIterator * option error) :=
  match m_err m with
  | Some e => io_ret (m, Some e)
  | None => m_advance m
  end.

Definition m_Close (m : MergeIterator) : MergeIterator * option error :=
  let closed := (fun s => (mkSource (fst (iClose (src_it s))) (priority s), snd (iClose (src_it s))))
                  <$> m_sources m in
  let first := fold_left (fun first p => match first with None => snd p | Some _ => first end) closed None in
  (mkMerge (fst <$> closed) (m_key m) (m_value m) false (m_err m), first).

End merge.

Arguments source I : clear implicits.
Arguments MergeIterator I : clear implicits.

(** * A reference merge of lists *)

(** The entry of [k] in the source of highest priority. *)
Definition better (k : bytes) (acc : Z * option entry) (s : list entry * Z) : Z * option entry :=
  match find_entry k s.1 with
  | Some e => if acc.1 <? s.2 then (s.2, Some e) else acc
  | None => acc
  end.

Definition best (k : bytes) (srcs : list (list entry * Z)) : option entry :=
  (fold_left (better k) srcs (-1, None)).2.

(** The least key of the sources. *)
Definition min_head (acc : option bytes) (s : list entry * Z) : option bytes :=
  match s.1 with
  | [] => acc
  | e :: _ => match acc with
              | None => Some (Key e)
              | Some k => if bytes_ltb (Key e) k then Some (Key e) else Some k
              end
  end.

Definition min_key (srcs : list (list entry * Z)) : option bytes := fold_left min_head srcs None.

(** Take the entry of [k] off every source that starts with it. *)
Definition pop (k : bytes) (s : list entry * Z) : list entry * Z :=
  match s.1 with
  | e :: l => if bytes_eqb (Key e) k then (l, s.2) else s
  | [] => s
  end.

Fixpoint merge_ref (fuel : nat) (srcs : list (list entry * Z)) : list entry :=
  match fuel with
  | O => []
  | S fuel' =>
      match min_key srcs with
      | None => []
      | Some k =>
          match best k srcs with
          | None => []
          | Some e => e :: merge_ref fuel' (pop k <$> srcs)
          end
      end
  end.

Definition total (srcs : list (list entry * Z)) : nat := sum_list_with (fun s => length s.1) srcs.

Definition merged (srcs : list (list entry * Z)) : list entry := merge_ref (S (total srcs)) srcs.

(** Sources the merge is meant for: sorted, with priorities of zero or more. *)
Definition src_ok (s : list entry * Z) : Prop := keys_sorted s.1 /\ 0 <= s.2.

Lemma min_fold srcs : forall acc, let r := fold_left min_head srcs acc in
  (r = None <-> acc = None /\ Forall (fun s => s.1 = []) srcs) /\
  forall k, r = Some k ->
    (acc = Some k \/ exists s e l, s ∈ srcs /\ s.1 = e :: l /\ Key e = k) /\
    (forall k0, acc = Some k0 -> ~ blt k0 k) /\
    (forall s e l, s ∈ srcs -> s.1 = e :: l -> ~ blt (Key e) k).
Proof.
  induction srcs as [|s srcs IH]; intros acc; simpl.
  - split; [naive_solver|]. intros k ->. split; [by left|]. split.
    + intros k0 [= ->]. apply blt_irrefl.
    + intros s e l Hs. by apply not_elem_of_nil in Hs.
  - destruct (IH (min_head acc s)) as [IH1 IH2]. split.
    + rewrite IH1, Forall_cons. unfold min_head. destruct (s.1) as [|e l]; [tauto|].
      split; [|naive_solver]. intros [Hn _]. destruct acc; [|done]. by destruct (bytes_ltb _ _).
    + intros k Hk. destruct (IH2 k Hk) as (H1 & H2 & H3). unfold min_head in *.
      destruct (s.1) as [|e l] eqn:Es.
      * split; [|split; [done|]].
        -- destruct H1 as [H1|(s' & e' & l' & Hs & H1)]; [by left|right].
           exists s', e', l'. split; [by constructor|done].
        -- intros s' e' l' [->|Hs]%elem_of_cons He; [by rewrite Es in He|by apply (H3 s' e' l')].
      * assert (Hhd : exists k1, (match acc with None => Some (Key e)
            | Some k0 => if bytes_ltb (Key e) k0 then Some (Key e) else Some k0 end) = Some k1 /\
            (k1 = Key e \/ acc = Some k1) /\ ~ blt (Key e) k1 /\ (forall k0, acc = Some k0 -> ~ blt k0 k1)).
        { destruct acc as [k0|].
          - destruct (bytes_ltb (Key e) k0) eqn:E.
            + exists (Key e). split; [done|]. split; [by left|]. split; [apply blt_irrefl|].
              intros k1 [= <-]. apply blt_asym. by apply bytes_ltb_spec.
            + exists k0. apply bytes_ltb_false in E. split; [done|]. split; [by right|]. split; [done|].
              intros k1 [= <-]. apply blt_irrefl.
          - exists (Key e). split; [done|]. split; [by left|]. split; [apply blt_irrefl|done]. }
        destruct Hhd as (k1 & Hk1 & Hor & Hge & Hacc). rewrite Hk1 in H1, H2.
        specialize (H2 k1 eq_refl).
        assert (Hle : forall x, ~ blt x k1 -> ~ blt x k).
        { intros x Hx Hxk. apply H2. by eapply nlt_blt_trans. }
        split; [|split].
        -- destruct H1 as [[= ->]|(s' & e' & l' & Hs & H1)].
           ++ destruct Hor as [->|Hor]; [right|by left]. exists s, e, l. split; [by constructor|done].
           ++ right. exists s', e', l'. split; [by constructor|done].
        -- intros k0 Hk0. by apply Hle, Hacc.
        -- intros s' e' l' [->|Hs]%elem_of_cons He.
           ++ rewrite Es in He. simplify_eq. by apply Hle.
           ++ by apply (H3 s' e' l').
Qed.

Lemma min_key_None srcs : min_key srcs = None <-> Forall (fun s => s.1 = []) srcs.
Proof. destruct (min_fold srcs None) as [H _]. unfold min_key. rewrite H. tauto. Qed.

Lemma min_key_Some srcs k : min_key srcs = Some k ->
  (exists s e l, s ∈ srcs /\ s.1 = e :: l /\ Key e = k) /\
  (forall s e l, s ∈ srcs -> s.1 = e :: l -> ~ blt (Key e) k).
Proof.
  intros Hk. destruct (min_fold srcs None) as [_ H]. destruct (H k Hk) as ([H1|H1] & _ & H3); done.
Qed.

(** The choice looks at nothing but what each source says of [k]. *)
Lemma best_ext k srcs1 srcs2 :
  Forall2 (fun s1 s2 => find_entry k s1.1 = find_entry k s2.1 /\ s1.2 = s2.2) srcs1 srcs2 ->
  best k srcs1 = best k srcs2.
Proof.
  unfold best. intros HF. f_equal. generalize (-1, @None entry).
  induction HF as [|s1 s2 srcs1 srcs2 [H1 H2] _ IH]; intros acc; [done|]. simpl.
  rewrite IH. unfold better. by rewrite H1, H2.
Qed.

Lemma best_fold k srcs : forall acc, -1 <= acc.1 -> Forall (fun s => 0 <= s.2) srcs ->
  (forall e, acc.2 = Some e -> Key e = k) -> (acc.2 = None -> acc.1 = -1) ->
  let r := (fold_left (better k) srcs acc).2 in
  (forall e, r = Some e -> Key e = k /\ (acc.2 = Some e \/ exists s, s ∈ srcs /\ find_entry k s.1 = Some e)) /\
  (r = None <-> acc.2 = None /\ Forall (fun s => find_entry k s.1 = None) srcs).
Proof.
  induction srcs as [|s srcs IH]; intros acc Ha Hp Hk Hn; simpl.
  - split; [naive_solver|]. split; [naive_solver|]. tauto.
  - apply Forall_cons in Hp as [Hp0 Hp]. unfold better at 2 4.
    destruct (find_entry k s.1) as [e0|] eqn:Ef.
    + destruct (acc.1 <? s.2) eqn:E.
      * destruct (IH (s.2, Some e0)) as [I1 I2]; simpl; try done; [lia| |].
        { intros e [= <-]. by apply find_entry_Some in Ef as [_ ?]. }
        split.
        -- intros e He. destruct (I1 e He) as [K [K'|(s' & Hs & K')]]; (split; [done|]); right.
           ++ simplify_eq/=. exists s. split; [by constructor|done].
           ++ exists s'. split; [by constructor|done].
        -- rewrite I2. simpl. rewrite Forall_cons, Ef. naive_solver.
      * destruct (IH acc) as [I1 I2]; try done. split.
        -- intros e He. destruct (I1 e He) as [K [K'|(s' & Hs & K')]]; (split; [done|]); [by left|right].
           exists s'. split; [by constructor|done].
        -- rewrite I2, Forall_cons, Ef. split; [|naive_solver]. intros [Hacc _].
           specialize (Hn Hacc). lia.
    + destruct (IH acc) as [I1 I2]; try done. split.
      * intros e He. destruct (I1 e He) as [K [K'|(s' & Hs & K')]]; (split; [done|]); [by left|right].
        exists s'. split; [by constructor|done].
      * rewrite I2, Forall_cons, Ef. naive_solver.
Qed.

Lemma best_Some k srcs e : Forall (fun s => 0 <= s.2) srcs -> best k srcs = Some e ->
  Key e = k /\ exists s, s ∈ srcs /\ find_entry k s.1 = Some e.
Proof.
  intros Hp He. destruct (best_fold k srcs (-1, None)) as [H _]; simpl; try done; try lia.
  destruct (H e He) as [H1 [H2|H2]]; done.
Qed.

Lemma best_None k srcs : Forall (fun s => 0 <= s.2) srcs ->
  best k srcs = None <-> Forall (fun s => find_entry k s.1 = None) srcs.
Proof.
  intros Hp. destruct (best_fold k srcs (-1, None)) as [_ H]; simpl; try done; try lia.
  unfold best. rewrite H. simpl. tauto.
Qed.

(** ** Taking the least key off *)

Lemma pop_ok k s : src_ok s -> src_ok (pop k s).
Proof.
  intros [Hs Hp]. unfold pop. destruct (s.1) as [|e l] eqn:Es; [by split; rewrite ?Es|].
  destruct (bytes_eqb (Key e) k); [|by split; rewrite ?Es].
  split; [|done]. by apply keys_sorted_cons in Hs as [Hs _].
Qed.

Lemma pop_other k s k' : k' <> k -> find_entry k' (pop k s).1 = find_entry k' s.1.
Proof.
  intros Hne. unfold pop. destruct (s.1) as [|e l] eqn:Es; [by rewrite Es|].
  destruct (bytes_eqb (Key e) k) eqn:E; [|by rewrite Es]. apply bytes_eqb_spec in E. simpl.
  rewrite (proj2 (bytes_eqb_false _ _)); [done|congruence].
Qed.

Section pop.
Context (k : bytes) (s : list entry * Z).
Context (Hok : src_ok s) (Hmin : forall e l, s.1 = e :: l -> ~ blt (Key e) k).

Lemma pop_above : Forall (fun e => blt k (Key e)) (pop k s).1.
Proof.
  destruct Hok as [Hs _]. unfold pop. destruct (s.1) as [|e l] eqn:Es; [by rewrite Es|].
  apply keys_sorted_cons in Hs as [Hs Hlt]. destruct (bytes_eqb (Key e) k) eqn:E.
  - apply bytes_eqb_spec in E. by rewrite <- E.
  - rewrite Es. apply bytes_eqb_false in E. specialize (Hmin e l eq_refl).
    assert (blt k (Key e)) by (destruct (blt_trichotomy k (Key e)) as [?|[?|?]]; congruence).
    constructor; [done|]. eapply Forall_impl; [exact Hlt|]. intros x Hx. by eapply blt_trans.
Qed.

Lemma pop_same : find_entry k (pop k s).1 = None.
Proof.
  apply find_entry_None. eapply Forall_impl; [exact pop_above|].
  intros e He <-. by apply blt_irrefl in He.
Qed.

End pop.

Lemma pop_length k s : (length (pop k s).1 <= length s.1)%nat.
Proof.
  unfold pop. destruct (s.1) as [|e l] eqn:Es; [by rewrite Es|]. destruct (bytes_eqb (Key e) k); simpl; [lia|].
  by rewrite Es.
Qed.

Lemma total_pop k srcs s e l : s ∈ srcs -> s.1 = e :: l -> Key e = k ->
  (total (pop k <$> srcs) < total srcs)%nat.
Proof.
  intros Hs Es Hk. unfold total. induction srcs as [|s' srcs IH]; [by apply not_elem_of_nil in Hs|].
  apply elem_of_cons in Hs as [<-|Hs].
  - csimpl. unfold pop at 1. rewrite Es, (proj2 (bytes_eqb_spec _ _) Hk). csimpl.
    enough (sum_list_with (fun s => length s.1) (pop k <$> srcs)
      <= sum_list_with (fun s => length s.1) srcs)%nat by lia.
    clear. induction srcs as [|s' srcs IH]; [done|]. csimpl. pose proof (pop_length k s'). lia.
  - csimpl. pose proof (pop_length k s'). specialize (IH Hs). lia.
Qed.

Lemma ok_priorities srcs : Forall src_ok srcs -> Forall (fun s => 0 <= s.2) srcs.
Proof. intros Hok. eapply Forall_impl; [exact Hok|]. by intros s []. Qed.

(** The reference merge is sorted and holds, for every key, the entry of the
    source of highest priority that has it. *)
Lemma merge_ref_spec fuel : forall srcs, Forall src_ok srcs -> (total srcs < fuel)%nat ->
  keys_sorted (merge_ref fuel srcs) /\ forall k, find_entry k (merge_ref fuel srcs) = best k srcs.
Proof.
  induction fuel as [|fuel IH]; intros srcs Hok Hfuel; [lia|]. cbn [merge_ref].
  pose proof (ok_priorities srcs Hok) as Hpri.
  destruct (min_key srcs) as [k|] eqn:Ek.
  2:{ split; [apply keys_sorted_nil|]. intros k. apply min_key_None in Ek. symmetry. apply best_None; [done|].
      eapply Forall_impl; [exact Ek|]. intros s Hs. simpl. by rewrite Hs. }
  apply min_key_Some in Ek as [(s0 & e0 & l0 & Hs0 & Es0 & Hk0) Hmin].
  destruct (best k srcs) as [e|] eqn:Eb.
  2:{ apply best_None in Eb; [|done]. rewrite Forall_forall in Eb. specialize (Eb s0 Hs0).
      rewrite Es0 in Eb. simpl in Eb. by rewrite (proj2 (bytes_eqb_spec _ _) Hk0) in Eb. }
  assert (Hok' : Forall src_ok (pop k <$> srcs)).
  { apply Forall_fmap. eapply Forall_impl; [exact Hok|]. intros s Hs. exact (pop_ok k s Hs). }
  destruct (IH (pop k <$> srcs) Hok') as [I1 I2].
  { pose proof (total_pop k srcs s0 e0 l0 Hs0 Es0 Hk0). lia. }
  apply best_Some in Eb as Hb; [|done]. destruct Hb as [Hke _].
  assert (Habove : forall s, s ∈ srcs -> Forall (fun e => blt k (Key e)) (pop k s).1).
  { intros s Hs. apply pop_above; [|by intros; eapply Hmin].
    rewrite Forall_forall in Hok. by apply Hok. }
  split.
  - apply keys_sorted_cons. split; [done|]. apply Forall_forall. intros x Hx. rewrite Hke.
    assert (Hfx : find_entry (Key x) (merge_ref fuel (pop k <$> srcs)) <> None).
    { intros Hn. apply (layer_of_lookup_None (merge_ref fuel (pop k <$> srcs)) (Key x)).
      - rewrite find_entry_layer, Hn. done.
      - by apply list_elem_of_fmap_2. }
    rewrite I2 in Hfx. destruct (best (Key x) (pop k <$> srcs)) as [y|] eqn:Ey; [|done].
    apply best_Some in Ey as [Hy (s & Hs & Hf)]; [|by apply ok_priorities].
    apply list_elem_of_fmap in Hs as (s' & -> & Hs'). apply find_entry_Some in Hf as [Hin <-].
    specialize (Habove s' Hs'). rewrite Forall_forall in Habove. by apply Habove.
  - intros k'. cbn [find_entry]. destruct (bytes_eqb (Key e) k') eqn:E.
    + apply bytes_eqb_spec in E. rewrite <- E, Hke. done.
    + rewrite I2. apply bytes_eqb_false in E. apply best_ext. clear -E Hke.
      induction srcs as [|s srcs IHs]; [constructor|]. constructor; [|done].
      split; [apply pop_other; congruence|]. unfold pop. destruct (s.1); [done|]. by destruct (bytes_eqb _ _).
Qed.

Lemma merged_spec srcs : Forall src_ok srcs ->
  keys_sorted (merged srcs) /\ forall k, find_entry k (merged srcs) = best k srcs.
Proof. intros Hok. apply merge_ref_spec; [done|lia]. Qed.

(** More fuel changes nothing. *)
Lemma merge_ref_fuel fuel : forall srcs fuel', Forall src_ok srcs -> (total srcs < fuel)%nat ->
  (total srcs < fuel')%nat -> merge_ref fuel srcs = merge_ref fuel' srcs.
Proof.
  induction fuel as [|fuel IH]; intros srcs [|fuel'] Hok H1 H2; try lia. cbn [merge_ref].
  destruct (min_key srcs) as [k|] eqn:Ek; [|done]. destruct (best k srcs) as [e|]; [|done].
  apply min_key_Some in Ek as [(s0 & e0 & l0 & Hs0 & Es0 & Hk0) Hmin].
  pose proof (total_pop k srcs s0 e0 l0 Hs0 Es0 Hk0). f_equal. apply IH; [|lia|lia].
  apply Forall_fmap. eapply Forall_impl; [exact Hok|]. intros s Hs. exact (pop_ok k s Hs).
Qed.

(** * The code merges like the reference *)

(** The entries the caller sees. *)
Definition visible (omit : bool) (l : list entry) : list entry :=
  List.filter (fun e => negb (Tombstone e && omit)) l.

(** No source has the empty key, which the code takes for "no key". *)
Definition keys_nonempty (s : list entry * Z) : Prop := Forall (fun e => Key e <> []) s.1.

Section refine.
Context {I : Type} `{Iterator I} (G : fsys -> Prop) `{!IteratorSpec I G}.

Definition src_rep (s : source I) (l : list entry * Z) : Prop :=
  rep (src_it s) l.1 /\ priority s = l.2.

Definition srcs_rep (srcs : list (source I)) (ls : list (list entry * Z)) : Prop :=
  Forall2 src_rep srcs ls /\ Forall src_ok ls /\ Forall keys_nonempty ls.

Lemma minKey_ref srcs ls : Forall2 src_rep srcs ls -> Forall keys_nonempty ls ->
  minKeyAcrossSources srcs = default [] (min_key ls).
Proof.
  intros HF Hne. unfold minKeyAcrossSources, min_key.
  assert (Hgen : forall acc o, acc = default [] o -> (forall k, o = Some k -> k <> []) ->
    fold_left (fun minKey s => if iValid (src_it s) then
      let k := iKey (src_it s) in if bool_decide (minKey = []) || bytes_ltb k minKey then k else minKey
      else minKey) srcs acc = default [] (fold_left min_head ls o)); [|by apply Hgen].
  induction HF as [|s l srcs ls [Hrep _] _ IH]; intros acc o Hacc Ho; [done|].
  apply Forall_cons in Hne as [Hl Hne]. simpl. unfold min_head at 2. unfold keys_nonempty in Hl.
  destruct (l.1) as [|e es].
  - rewrite (rep_nil _ Hrep). by apply IH.
  - apply Forall_cons in Hl as [He _]. destruct (rep_cons _ _ _ Hrep) as [-> <-]. cbn [Key].
    simpl in He. apply IH; [done| |].
    + subst acc. destruct o as [k|]; simpl; [|done].
      rewrite bool_decide_false by by apply Ho. simpl. by destruct (bytes_ltb _ _).
    + intros k. destruct o as [k0|]; [|naive_solver].
      destruct (bytes_ltb _ _); intros [= <-]; [done|by apply Ho].
Qed.

(** A source takes part in the round for the least key iff it has that key. *)
Lemma at_key_ref k s l : src_rep s l -> src_ok l -> (forall e es, l.1 = e :: es -> ~ blt (Key e) k) ->
  match find_entry k l.1 with
  | Some e => at_key k s = true /\ Entry (iKey (src_it s)) (iValue (src_it s)) (iIsTombstone (src_it s)) = e /\
              exists es, l.1 = e :: es
  | None => at_key k s = false /\ pop k l = l
  end.
Proof.
  intros [Hrep _] [Hs _] Hmin. unfold at_key, pop. destruct (l.1) as [|e es] eqn:El; simpl.
  - by rewrite (rep_nil _ Hrep).
  - destruct (rep_cons _ _ _ Hrep) as [Hv He].
    assert (Hk : iKey (src_it s) = Key e) by by rewrite <- He.
    replace (iValid (src_it s) && bytes_eqb (iKey (src_it s)) k) with (bytes_eqb (Key e) k)
      by by rewrite Hv, Hk.
    destruct (bytes_eqb (Key e) k) eqn:E; [by eauto|].
    assert (find_entry k es = None) as ->; [|done].
    apply bytes_eqb_false in E. apply keys_sorted_cons in Hs as [_ Hlt].
    specialize (Hmin e es eq_refl). assert (blt k (Key e)).
    { destruct (blt_trichotomy k (Key e)) as [?|[?|?]]; congruence. }
    apply find_entry_None. eapply Forall_impl; [exact Hlt|]. intros x Hx Hxk.
    apply (blt_irrefl k). rewrite <- Hxk at 2. eapply blt_trans; [done|exact Hx].
Qed.

Lemma pick_winner_ref k srcs ls : Forall2 src_rep srcs ls -> Forall src_ok ls ->
  (forall l e es, l ∈ ls -> l.1 = e :: es -> ~ blt (Key e) k) ->
  (pick_winner k srcs).2 = default (Entry [] [] false) (best k ls).
Proof.
  intros HF Hok Hmin. unfold pick_winner, best.
  assert (Hgen : forall acc acc', acc.1 = acc'.1 -> acc.2 = default (Entry [] [] false) acc'.2 ->
    (fold_left (fun '(bestPri, winner) s => if at_key k s && (bestPri <? priority s)
      then (priority s, Entry (iKey (src_it s)) (iValue (src_it s)) (iIsTombstone (src_it s)))
      else (bestPri, winner)) srcs acc).2 = default (Entry [] [] false) (fold_left (better k) ls acc').2);
    [|by apply Hgen].
  induction HF as [|s l srcs ls Hr _ IH]; intros [b w] [b' w'] Hb Hw; simpl in Hb, Hw; subst b'; [done|].
  apply Forall_cons in Hok as [Hl Hok]. simpl.
  pose proof (at_key_ref k s l Hr Hl) as Hat. specialize (Hat ltac:(intros; eapply Hmin; [constructor|done])).
  unfold better at 2. destruct Hr as [_ Hp]. rewrite Hp.
  destruct (find_entry k l.1) as [e|].
  - destruct Hat as (-> & He & _). simpl. destruct (b <? l.2).
    + apply IH; [done| |done|done]. intros. eapply Hmin; [by constructor|done].
    + apply IH; [done| |done|done]. intros. eapply Hmin; [by constructor|done].
  - destruct Hat as (-> & _). simpl. apply IH; [done| |done|done].
    intros. eapply Hmin; [by constructor|done].
Qed.

Lemma advance_all_quiet k f srcs ls : G f -> Forall2 src_rep srcs ls -> Forall src_ok ls ->
  (forall l e es, l ∈ ls -> l.1 = e :: es -> ~ blt (Key e) k) ->
  exists srcs', advance_all k srcs (mkWorld f []) = (Ok (srcs', None), mkWorld f []) /\
    Forall2 src_rep srcs' (pop k <$> ls).
Proof.
  intros HG HF Hok Hmin. induction HF as [|s l srcs ls Hr _ IH]; [by exists []|].
  apply Forall_cons in Hok as [Hl Hok]. cbn [advance_all].
  pose proof (at_key_ref k s l Hr Hl) as Hat. specialize (Hat ltac:(intros; eapply Hmin; [constructor|done])).
  destruct IH as (rest & IHe & IHr); [done|intros; eapply Hmin; [by constructor|done]|].
  destruct (find_entry k l.1) as [e|] eqn:Ef.
  - destruct Hat as (-> & He & es & El). destruct Hr as [Hrep Hp]. rewrite El in Hrep.
    destruct (reads_quiet _ f _ (rep_next (mkWorld f []) (src_it s) e es HG Hrep))
      as ([it' err] & Hn & [[Herr Hrep']|[? _]]); [|done].
    simpl in Herr, Hrep'. subst err. rewrite (io_bind_ok _ _ _ _ _ Hn), (io_bind_ok _ _ _ _ _ IHe).
    eexists. split; [done|]. csimpl. constructor; [|done]. unfold pop. rewrite El.
    apply find_entry_Some in Ef as [_ Ek]. by rewrite (proj2 (bytes_eqb_spec _ _) Ek).
  - destruct Hat as [-> Hpop]. rewrite (io_bind_ok _ _ _ _ _ IHe).
    eexists. split; [done|]. csimpl. rewrite Hpop. by constructor.
Qed.

Lemma pop_nonempty k l : keys_nonempty l -> keys_nonempty (pop k l).
Proof.
  unfold keys_nonempty, pop. destruct (l.1) as [|e es] eqn:El; [by rewrite El|].
  destruct (bytes_eqb (Key e) k); [|by rewrite El]. by intros [_ ?]%Forall_cons.
Qed.

(** One round of the reference merge. *)
Lemma merged_unfold ls : Forall src_ok ls ->
  merged ls = match min_key ls with
              | None => []
              | Some k => default (Entry [] [] false) (best k ls) :: merged (pop k <$> ls)
              end.
Proof.
  intros Hok. unfold merged at 1. cbn [merge_ref]. destruct (min_key ls) as [k|] eqn:Ek; [|done].
  apply min_key_Some in Ek as [(s0 & e0 & l0 & Hs0 & Es0 & Hk0) Hmin].
  destruct (best k ls) as [e|] eqn:Eb.
  - simpl. f_equal. apply merge_ref_fuel; [|by eapply total_pop|lia].
    apply Forall_fmap. eapply Forall_impl; [exact Hok|]. intros s Hs. exact (pop_ok k s Hs).
  - apply best_None in Eb; [|by apply ok_priorities]. rewrite Forall_forall in Eb. specialize (Eb s0 Hs0).
    rewrite Es0 in Eb. simpl in Eb. by rewrite (proj2 (bytes_eqb_spec _ _) Hk0) in Eb.
Qed.

Lemma srcs_rep_bound srcs ls : Forall2 src_rep srcs ls -> (total ls <= src_bound srcs)%nat.
Proof.
  unfold total, src_bound. induction 1 as [|s l srcs ls [Hrep _] _ IH]; [done|]. csimpl.
  apply rep_bound in Hrep. lia.
Qed.

(** [mergeStep] delivers the next visible entry of the reference merge. *)
Lemma merge_step_quiet fuel omit f : forall srcs ls, G f -> srcs_rep srcs ls -> (total ls < fuel)%nat ->
  exists srcs' ls' r, merge_step fuel srcs omit (mkWorld f []) = (Ok (srcs', r), mkWorld f []) /\
    srcs_rep srcs' ls' /\
    match visible omit (merged ls) with
    | [] => r = StepEnd
    | e :: es => r = StepEntry e /\ visible omit (merged ls') = es /\ (total ls' < total ls)%nat
    end.
Proof.
  induction fuel as [|fuel IH]; intros srcs ls HG (HF & Hok & Hne) Hfuel; [lia|]. cbn [merge_step].
  rewrite (minKey_ref srcs ls HF Hne), (merged_unfold ls Hok). destruct (min_key ls) as [k|] eqn:Ek.
  2:{ exists srcs, ls, StepEnd. done. }
  apply min_key_Some in Ek as [(s0 & e0 & l0 & Hs0 & Es0 & Hk0) Hmin].
  assert (Hk : k <> []).
  { rewrite Forall_forall in Hne. specialize (Hne s0 Hs0). unfold keys_nonempty in Hne. rewrite Es0 in Hne.
    apply Forall_cons in Hne as [He _]. by rewrite <- Hk0. }
  change (default [] (Some k)) with k. destruct k as [|b k]; [done|]. cbv iota.
  pose proof (pick_winner_ref (b :: k) srcs ls HF Hok Hmin) as Hw.
  destruct (pick_winner (b :: k) srcs) as [bp winner]. simpl in Hw. rewrite <- Hw. cbv beta iota.
  destruct (advance_all_quiet (b :: k) f srcs ls HG HF Hok Hmin) as (srcs' & Ha & HF').
  rewrite (io_bind_ok _ _ _ _ _ Ha).
  pose proof (total_pop (b :: k) ls s0 e0 l0 Hs0 Es0 Hk0) as Htot.
  assert (Hrep' : srcs_rep srcs' (pop (b :: k) <$> ls)).
  { split; [done|]. split; apply Forall_fmap.
    - eapply Forall_impl; [exact Hok|exact (pop_ok (b :: k))].
    - eapply Forall_impl; [exact Hne|exact (pop_nonempty (b :: k))]. }
  unfold visible at 1. cbn [List.filter]. destruct (Tombstone winner && omit) eqn:Et; cbn [negb].
  - destruct (IH srcs' (pop (b :: k) <$> ls) HG Hrep' ltac:(lia)) as (srcs2 & ls2 & r & Hm & Hr2 & Hcase).
    exists srcs2, ls2, r. split; [done|]. split; [done|].
    unfold visible in Hcase. destruct (List.filter _ _); [done|]. destruct Hcase as (H1 & H2 & H3).
    split; [done|]. split; [done|lia].
  - exists srcs', (pop (b :: k) <$> ls), (StepEntry winner). auto.
Qed.

Lemma mergeStep_quiet omit f srcs ls : G f -> srcs_rep srcs ls ->
  exists srcs' ls' r, mergeStep srcs omit (mkWorld f []) = (Ok (srcs', r), mkWorld f []) /\
    srcs_rep srcs' ls' /\
    match visible omit (merged ls) with
    | [] => r = StepEnd
    | e :: es => r = StepEntry e /\ visible omit (merged ls') = es /\ (total ls' < total ls)%nat
    end.
Proof.
  intros HG Hr. apply merge_step_quiet; [done|done|]. destruct Hr as [HF _].
  pose proof (srcs_rep_bound srcs ls HF). lia.
Qed.

(** ** ForEachMerged *)

Section for_each.
Context {S : Type} (fn : S -> bytes -> bytes -> bool -> io (S * option error)).
Context (Inv : S -> Prop).
Context (fn_ok : forall st k v t f, Inv st -> G f ->
  faults (snd (fn st k v t (mkWorld f []))) = [] /\ G (fs (snd (fn st k v t (mkWorld f [])))) /\
  forall st', fst (fn st k v t (mkWorld f [])) = Ok (st', None) -> Inv st').

Lemma forEach_loop_quiet fuel omit : forall srcs ls st f, Inv st -> G f -> srcs_rep srcs ls ->
  (total ls < fuel)%nat ->
  forEach_loop fn fuel srcs omit st (mkWorld f []) = for_each fn (visible omit (merged ls)) st (mkWorld f []).
Proof.
  induction fuel as [|fuel IH]; intros srcs ls st f HI HG Hr Hfuel; [lia|]. cbn [forEach_loop].
  destruct (mergeStep_quiet omit f srcs ls HG Hr) as (srcs' & ls' & r & Hm & Hr' & Hcase).
  rewrite (io_bind_ok _ _ _ _ _ Hm). destruct (visible omit (merged ls)) as [|e es]; [by subst r|].
  destruct Hcase as (-> & Hes & Htot). cbn [for_each].
  destruct (fn_ok st (Key e) (Value e) (Tombstone e) f HI HG) as (Hq & HG' & HI').
  destruct (fn st (Key e) (Value e) (Tombstone e) (mkWorld f [])) as [res [f' fl]] eqn:Efn.
  simpl in Hq, HG', HI'. subst fl. rewrite !(io_bind_run _ _ _ _ _ Efn).
  destruct res as [[st' [err|]]|e'|]; [done| |done|done].
  rewrite <- Hes. apply IH; [by apply HI'|done|done|lia].
Qed.

(** The callback sees the visible entries of the reference merge, in order. *)
Lemma ForEachMerged_quiet sources ls omit st f : Inv st -> G f ->
  Forall2 (fun it l => rep it l.1) sources ls -> Forall src_ok ls -> Forall keys_nonempty ls ->
  ForEachMerged fn sources (snd <$> ls) omit st (mkWorld f []) =
    for_each fn (visible omit (merged ls)) st (mkWorld f []).
Proof.
  intros HI HG HF Hok Hne. unfold ForEachMerged.
  rewrite length_fmap, (Forall2_length _ _ _ HF), Nat.eqb_refl. cbn [negb].
  assert (Hr : Forall2 src_rep (make_sources sources (snd <$> ls)) ls).
  { clear -HF. induction HF as [|it l its ls Hl _ IH]; [constructor|]. csimpl. by constructor. }
  apply forEach_loop_quiet; [done|done|by split|]. pose proof (srcs_rep_bound _ _ Hr). lia.
Qed.

End for_each.

(** ** The merge iterator *)

(** [m] stands on the first of [es], or is exhausted. *)
Definition m_rep (m : MergeIterator I) (es : list entry) : Prop :=
  exists ls, srcs_rep (m_sources m) ls /\ m_err m = None /\
  match es with
  | [] => m_valid m = false
  | e :: es' => m_valid m = true /\ m_key m = Key e /\ m_value m = Value e /\
                visible true (merged ls) = es'
  end.

Lemma m_advance_quiet m ls f : G f -> srcs_rep (m_sources m) ls -> m_err m = None ->
  exists m', m_advance m (mkWorld f []) = (Ok (m', None), mkWorld f []) /\
    m_rep m' (visible true (merged ls)).
Proof.
  intros HG Hr He. unfold m_advance.
  destruct (mergeStep_quiet true f (m_sources m) ls HG Hr) as (srcs' & ls' & r & Hm & Hr' & Hcase).
  rewrite (io_bind_ok _ _ _ _ _ Hm). destruct (visible true (merged ls)) as [|e es].
  - subst r. rewrite He. eexists. split; [done|]. by exists ls'.
  - destruct Hcase as (-> & Hes & _). rewrite He. eexists. split; [done|]. by exists ls'.
Qed.

Lemma m_Next_quiet m e es f : G f -> m_rep m (e :: es) ->
  exists m', m_Next m (mkWorld f []) = (Ok (m', None), mkWorld f []) /\ m_rep m' es.
Proof.
  intros HG (ls & Hr & He & _ & _ & _ & <-). unfold m_Next. rewrite He. by apply m_advance_quiet.
Qed.

Lemma seek_all_quiet key f srcs alls : G f ->
  Forall2 (fun s l => full (src_it s) l.1 /\ priority s = l.2) srcs alls ->
  exists srcs', seek_all key srcs (mkWorld f []) = (Ok (srcs', None), mkWorld f []) /\
    Forall2 src_rep srcs' ((fun l => (skip_below key l.1, l.2)) <$> alls).
Proof.
  intros HG HF. induction HF as [|s l srcs alls [Hfull Hp] _ (rest & IHe & IHr)]; [by exists []|].
  cbn [seek_all]. destruct (reads_quiet _ f _ (full_seek (mkWorld f []) (src_it s) l.1 key HG Hfull))
    as ([it' err] & Hn & [[Herr Hrep]|[? _]]); [|done].
  simpl in Herr, Hrep. subst err. rewrite (io_bind_ok _ _ _ _ _ Hn), (io_bind_ok _ _ _ _ _ IHe).
  eexists. split; [done|]. csimpl. by constructor.
Qed.

Lemma src_ok_skip key l : src_ok l -> src_ok (skip_below key l.1, l.2).
Proof. intros [H1 H2]. split; [by apply skip_below_sorted|done]. Qed.

Lemma keys_nonempty_skip key l : keys_nonempty l -> keys_nonempty (skip_below key l.1, l.2).
Proof.
  unfold keys_nonempty. intros Hl. destruct (skip_below_suffix key l.1) as (l1 & E & _).
  rewrite E in Hl. by apply Forall_app in Hl as [_ Hl].
Qed.

(** After [Seek(key)] the iterator runs over the live entries of the merge from
    [key] on. *)
Lemma m_Seek_quiet m key f alls : G f ->
  Forall2 (fun s l => full (src_it s) l.1 /\ priority s = l.2) (m_sources m) alls ->
  Forall src_ok alls -> Forall keys_nonempty alls ->
  exists m', m_Seek m key (mkWorld f []) = (Ok (m', None), mkWorld f []) /\
    m_rep m' (visible true (merged ((fun l => (skip_below key l.1, l.2)) <$> alls))).
Proof.
  intros HG HF Hok Hne. unfold m_Seek.
  destruct (seek_all_quiet key f _ _ HG HF) as (srcs' & Hs & Hr).
  rewrite (io_bind_ok _ _ _ _ _ Hs). apply m_advance_quiet; [done| |done].
  split; [done|]. split; apply Forall_fmap.
  - eapply Forall_impl; [exact Hok|exact (src_ok_skip key)].
  - eapply Forall_impl; [exact Hne|exact (keys_nonempty_skip key)].
Qed.

End refine.

(** * The merge reads its sources and calls its callback, nothing else *)

Section effects.
Context {I : Type} `{Iterator I} (Hnext : forall it : I, read_only (iNext it)).

Lemma advance_all_read_only minKey : forall srcs : list (source I), read_only (advance_all minKey srcs).
Proof. induction srcs as [|s srcs IH]; cbn [advance_all]; io_read_only. Qed.

Lemma merge_step_read_only omit fuel : forall srcs : list (source I), read_only (merge_step fuel srcs omit).
Proof. pose proof advance_all_read_only. induction fuel as [|fuel IH]; intros srcs; cbn [merge_step]; io_read_only. Qed.

Context {S : Type} (fn : S -> bytes -> bytes -> bool -> io (S * option error)).

Lemma ForEachMerged_steady (sources : list I) pris omit st : (forall st k v t, steady (fn st k v t)) ->
  steady (ForEachMerged fn sources pris omit st).
Proof.
  intros Hfn. pose proof merge_step_read_only.
  assert (Hloop : forall fuel st srcs, steady (forEach_loop fn fuel srcs omit st)).
  { induction fuel as [|fuel IH]; intros st' srcs; cbn [forEach_loop]; unfold mergeStep; io_steady. }
  unfold ForEachMerged. io_steady.
Qed.

(** [J] holds of the directory and [Inv] of the callback's state throughout. *)
Lemma ForEachMerged_keeps (J : fsys -> Prop) (Inv : S -> Prop) (sources : list I) pris omit st :
  (forall st k v t, Inv st -> triple J (fn st k v t) (fun r f => J f /\ forall st' e, r = Ok (st', e) -> Inv st')) ->
  Inv st ->
  triple J (ForEachMerged fn sources pris omit st) (fun r f => J f /\ forall st' e, r = Ok (st', e) -> Inv st').
Proof.
  intros Hfn Hst. unfold ForEachMerged. destruct (negb _).
  { apply triple_ret. intros f HJ. split; [done|]. by intros st' e [= <- <-]. }
  set (srcs := make_sources sources pris). cbv zeta. generalize (Datatypes.S (src_bound srcs)) as fuel. clearbody srcs.
  intros fuel. revert st Hst srcs. induction fuel as [|fuel IH]; intros st Hst srcs; cbn [forEach_loop].
  { apply triple_ret. intros f HJ. split; [done|]. by intros st' e [= <- <-]. }
  eapply triple_bind with (R := fun _ => J).
  { eapply triple_conseq; [apply (read_only_preserves _ J), merge_step_read_only|done|]. by intros [] f HJ. }
  intros [srcs' [e| |w]].
  1,2: apply triple_ret; intros f HJ; (split; [done|]); by intros st' e' [= <- <-].
  eapply triple_bind with (R := fun x f => J f /\ Inv x.1).
  { eapply triple_conseq; [by apply Hfn|done|]. intros [[st' e]|e|] f [HJ Hi]; [|by split..]. split; [done|by apply (Hi st' e)]. }
  intros [st' [e|]]; apply triple_pull; cbn [fst]; intros Hi.
  - apply triple_ret. intros f HJ. split; [done|]. by intros st2 e2 [= <- <-].
  - by apply IH.
Qed.

End effects.

End Merge.
