(* ===== verification/SstMerge.v ===== *)
(** Tables as sources of a merge (internal/sstable/merge_adapter.go and the
    [MergeReaders] functions of iterator.go).

    The table iterator is made an instance of the merge's interface, and merging
    readers into a writer is shown to write the reference merge of their entries. *)

From Stdlib Require Import ZArith Lia.
From S2P Require Import Prelude Word Fs Bloom SstFormat SstWriter SstReader MergeIter.

Module SstMerge.
Import SstReader.

(** * [iterAdapter] (and [sstableIter] of the scan): [Next] reports the error *)

Definition adapter_Next (it : SstReader.Iterator) : io (SstReader.Iterator * option error) :=
  let! it' := it_Next it in io_ret (it', it_err it').

#[export] Instance table_iterator : MergeIter.Iterator SstReader.Iterator := {
  iValid := it_valid;
  iNext := adapter_Next;
  iKey := it_key;
  iValue := it_value;
  iIsTombstone := it_tombstone;
  iSeek := it_Seek;
  iClose := fun it => (it_Close it, None);
  bound := fun it => total_length (it_reader it)
}.

(** * Merging readers into a writer *)

Fixpoint open_iterators (readers : list Reader) : io (list SstReader.Iterator) :=
  match readers with
  | [] => io_ret []
  | r :: rs =>
      let! it := NewIterator r in
      let! its := open_iterators rs in
      io_ret (it :: its)
  end.

Definition index_priorities (n : nat) : list Z := Z.of_nat <$> seq 0 n.

(** The writer after the merge and the error of the merge. *)
Definition mergeReaders (readers : list Reader) (w : SstWriter.Writer) (keepTombstones : bool)
  : io (SstWriter.Writer * option error) :=
  match readers with
  | [] => io_ret (w, None)
  | _ =>
      let! adapters := open_iterators readers in
      Merge.ForEachMerged SstWriter.Add adapters (index_priorities (length readers))
        (negb keepTombstones) w
  end.

Definition MergeReaders (readers : list Reader) (w : SstWriter.Writer) :=
  mergeReaders readers w false.

Definition MergeReadersKeepTombstones (readers : list Reader) (w : SstWriter.Writer) :=
  mergeReaders readers w true.

(** * The table iterator keeps the promise *)

Section spec.
Context (G : fsys -> Prop).

(** [r] reads the table [groups] in every directory of [G]. *)
Definition always_table (r : Reader) (groups : list (list entry)) : Prop :=
  (forall f, G f -> table f r groups) /\
  r_index r = SstWriter.index_of 0 groups /\ zlen (SstWriter.data_of groups) < 2 ^ 48.

Definition table_rep (it : SstReader.Iterator) (es : list entry) : Prop :=
  exists r groups, always_table r groups /\ it_rep r groups it es /\
    (length es <= length (concat groups))%nat.

Definition table_full (it : SstReader.Iterator) (all : list entry) : Prop :=
  exists groups, always_table (it_reader it) groups /\ all = concat groups.

#[export] Program Instance table_iterator_spec : MergeIter.IteratorSpec SstReader.Iterator G := {
  rep := table_rep;
  full := table_full
}.
Next Obligation.
  intros it es (r & groups & (_ & Hi & Hs) & (Hr & _) & Hl). simpl. rewrite Hr.
  etrans; [exact Hl|]. by apply total_length_enough.
Qed.
Next Obligation. by intros it (r & groups & _ & (_ & _ & Hv) & _). Qed.
Next Obligation. by intros it e es (r & groups & _ & (_ & _ & Hv & He & _) & _). Qed.
Next Obligation.
  intros w it e es HG (r & groups & Ht & Hrep & Hl). simpl. unfold adapter_Next.
  apply reads_in_reads. eapply reads_in_bind.
  - eapply reads_reads_in; [done|]. apply (it_Next_reads r groups w it e es); [by apply Ht|done].
  - intros it' w' [Hrep'|[Hf (Hr & Hv & He)]] Hw Hq; (apply reads_reads_in; [|apply reads_ret]).
    + intros H1 H2. by apply H1, Hq.
    + left. simpl. split; [by destruct Hrep' as (_ & ? & _)|]. exists r, groups.
      split; [done|]. split; [done|]. simpl in Hl. lia.
    + intros H1 H2. by apply H1, Hq.
    + by right.
Qed.
Next Obligation.
  intros w it all key HG (groups & Ht & ->). simpl.
  eapply reads_weaken; [by apply (it_Seek_reads (it_reader it) groups w it key); [apply Ht|]|].
  intros [it' e] [[-> Hrep]|(Hf & _ & He)]; simpl; [left|by right].
  split; [done|]. exists (it_reader it), groups. split; [done|]. split; [done|].
  destruct (skip_below_suffix key (concat groups)) as (l1 & E & _). rewrite E at 2. rewrite length_app. lia.
Qed.

(** A fresh iterator in a directory of [G]. *)
Lemma NewIterator_rep f r groups : G f -> always_table r groups ->
  exists it, NewIterator r (mkWorld f []) = (Ok it, mkWorld f []) /\
    table_rep it (concat groups) /\ table_full it (concat groups).
Proof.
  intros HG Ht. pose proof Ht as (Ht1 & Ht2 & Ht3).
  destruct (reads_quiet _ f _ (NewIterator_reads r groups (mkWorld f []) (Ht1 f HG)))
    as (it & E & [Hrep|[H _]]); [|done].
  exists it. split; [done|]. split; [by exists r, groups|]. exists groups.
  destruct Hrep as (-> & _). done.
Qed.

Lemma open_iterators_rep f readers groupss : G f -> Forall2 always_table readers groupss ->
  exists its, open_iterators readers (mkWorld f []) = (Ok its, mkWorld f []) /\
    Forall2 (fun it groups => table_rep it (concat groups)) its groupss.
Proof.
  intros HG. induction 1 as [|r groups readers groupss Hr _ (its & IHe & IHr)]; [by exists []|].
  cbn [open_iterators]. destruct (NewIterator_rep f r groups HG Hr) as (it & E & Hrep & _).
  rewrite (io_bind_ok _ _ _ _ _ E), (io_bind_ok _ _ _ _ _ IHe). eexists. split; [done|]. by constructor.
Qed.

End spec.

(** * What is written *)

(** The entry of [k] in the last list that has one: newer tables come later. *)
Fixpoint find_newest (k : bytes) (ls : list (list entry)) : option entry :=
  match ls with
  | [] => None
  | l :: ls' => match find_newest k ls' with Some e => Some e | None => find_entry k l end
  end.

Definition sources_of (ls : list (list entry)) : list (list entry * Z) :=
  zip ls (index_priorities (length ls)).

Lemma best_newest k ls : Merge.best k (sources_of ls) = find_newest k ls.
Proof.
  unfold Merge.best, sources_of, index_priorities.
  assert (Hgen : forall i b o, b < Z.of_nat i ->
    (fold_left (Merge.better k) (zip ls (Z.of_nat <$> seq i (length ls))) (b, o)).2 =
    match find_newest k ls with Some e => Some e | None => o end).
  { induction ls as [|l ls IH]; intros i b o Hb; [done|].
    cbn [length seq]. rewrite fmap_cons. cbn [zip zip_with fold_left]. unfold Merge.better at 2.
    cbn [fst snd find_newest].
    destruct (find_entry k l) as [e|].
    - replace (b <? Z.of_nat i) with true by lia. rewrite IH by lia. by destruct (find_newest k ls).
    - rewrite IH by lia. by destruct (find_newest k ls). }
  rewrite (Hgen 0%nat) by lia. by destruct (find_newest k ls).
Qed.

Lemma sources_of_snd ls : snd <$> sources_of ls = index_priorities (length ls).
Proof.
  unfold sources_of. apply snd_zip. unfold index_priorities. rewrite length_fmap, length_seq. lia.
Qed.

Lemma sources_of_Forall (P : list entry -> Prop) ls : Forall P ls ->
  Forall (fun s => P s.1 /\ 0 <= s.2) (sources_of ls).
Proof.
  intros HP. unfold sources_of, index_priorities. generalize 0%nat as i.
  induction HP as [|l ls Hl _ IH]; intros i; [constructor|].
  cbn [length seq]. rewrite fmap_cons. constructor; [simpl; split; [done|lia]|apply IH].
Qed.

Lemma for_each_Add es : forall w wd, Merge.for_each SstWriter.Add es w wd = SstWriter.add_entries w es wd.
Proof.
  induction es as [|e es IH]; intros w wd; [done|]. cbn [Merge.for_each SstWriter.add_entries].
  unfold io_bind. destruct (SstWriter.Add w _ _ _ wd) as [[[w' [er|]]|er|] wd']; done || apply IH.
Qed.

Lemma table_same f f' r groups : table f r groups ->
  bytes_at f' (r_path r) = bytes_at f (r_path r) -> table f' r groups.
Proof. intros [] E. split; try done. by rewrite E. Qed.

(** Merging readers writes the reference merge of their entries, in which the
    later reader wins. *)
Lemma mergeReaders_quiet f readers groupss w keep : readers <> [] ->
  Forall2 (table f) readers groupss ->
  Forall (fun r => SstWriter.tmpPath w <> r_path r) readers ->
  Forall (fun groups => Forall (fun e => Key e <> []) (concat groups)) groupss ->
  mergeReaders readers w keep (mkWorld f []) =
  SstWriter.add_entries w
    (Merge.visible (negb keep) (Merge.merged (sources_of (@concat entry <$> groupss)))) (mkWorld f []).
Proof.
  intros Hne HF Hp Hkeys.
  set (G := fun f' => Forall (fun r => bytes_at f' (r_path r) = bytes_at f (r_path r)) readers).
  assert (HG : G f) by by apply Forall_forall.
  assert (Halways : Forall2 (always_table G) readers groupss).
  { apply Forall2_same_length_lookup. split; [by eapply Forall2_length|].
    intros i r groups Hr Hgr. pose proof (Forall2_lookup_lr _ _ _ _ _ _ HF Hr Hgr) as Ht.
    split; [|split; [apply (t_index _ _ _ Ht)|apply (t_size _ _ _ Ht)]].
    intros f' Hf'. eapply table_same; [exact Ht|]. by apply (Forall_lookup_1 _ _ _ _ Hf' Hr). }
  assert (mergeReaders readers w keep =
    (let! adapters := open_iterators readers in
     Merge.ForEachMerged SstWriter.Add adapters (index_priorities (length readers)) (negb keep) w)) as ->
    by (clear -Hne; by destruct readers).
  destruct (open_iterators_rep G f readers groupss HG Halways) as (its & E & Hits).
  rewrite (io_bind_ok _ _ _ _ _ E). pose proof (Forall2_length _ _ _ HF) as Hlen.
  replace (index_priorities (length readers)) with (snd <$> sources_of (@concat entry <$> groupss))
    by by rewrite sources_of_snd, length_fmap, Hlen.
  rewrite (Merge.ForEachMerged_quiet G SstWriter.Add (fun w' => SstWriter.tmpPath w' = SstWriter.tmpPath w));
    try done.
  - apply for_each_Add.
  - intros w' k v t f' Hw' Hf'. split; [by apply steady_quiet; [apply SstWriter.Add_steady|]|]. split.
    + apply Forall_forall. intros r Hr. rewrite Forall_forall in Hp. specialize (Hp r Hr).
      rewrite <- Hw' in Hp. unfold G in Hf'. rewrite Forall_forall in Hf'. specialize (Hf' r Hr).
      by apply (SstWriter.Add_frame w' k v t (r_path r) (fun o => content <$> o = bytes_at f (r_path r)) Hp
        (mkWorld f' []) Hf').
    + intros st' Hst. assert (exists r1, r1 ∈ readers) as [r1 Hr1].
      { clear -Hne. destruct readers as [|r1 rs]; [done|]. exists r1. constructor. }
      rewrite Forall_forall in Hp. specialize (Hp r1 Hr1). rewrite <- Hw' in Hp.
      destruct (SstWriter.Add_frame w' k v t (r_path r1) (fun _ => True) Hp (mkWorld f' []) Logic.I)
        as [_ Hsame].
      destruct (Hsame st' None Hst) as [_ Htmp]. by rewrite Htmp.
  - clear -Hits. revert Hits. unfold sources_of, index_priorities. rewrite length_fmap.
    generalize 0%nat as i. intros i Hits. revert i.
    induction Hits as [|it g its gs Hg _ IH]; intros i; [constructor|].
    cbn [length seq]. rewrite !fmap_cons. cbn [zip zip_with]. constructor; [done|apply IH].
  - eapply Forall_impl; [apply (sources_of_Forall keys_sorted)|by intros s Hs].
    apply Forall_fmap, Forall_forall. intros g Hg. apply list_elem_of_lookup in Hg as [i Hi].
    destruct (Forall2_lookup_r _ _ _ _ _ HF Hi) as (r & _ & Ht). apply (t_sorted _ _ _ Ht).
  - eapply Forall_impl; [apply (sources_of_Forall (Forall (fun e => Key e <> [])))|by intros s [Hs _]].
    by apply Forall_fmap.
Qed.

Lemma sources_ok ls : Forall keys_sorted ls -> Forall Merge.src_ok (sources_of ls).
Proof. intros H. eapply Forall_impl; [by apply (sources_of_Forall keys_sorted)|by intros s Hs]. Qed.

(** The layers of the tables, the later one in front. *)
Fixpoint layers (ls : list (list entry)) : layer :=
  match ls with [] => ∅ | l :: ls' => layers ls' ∪ layer_of l end.

Lemma find_newest_layers k ls : cell <$> find_newest k ls = layers ls !! k.
Proof.
  induction ls as [|l ls IH]; [done|]. cbn [find_newest layers].
  rewrite lookup_union, <- IH, find_entry_layer. destruct (find_newest k ls) as [e|]; simpl.
  - by destruct (find_entry k l).
  - by destruct (find_entry k l).
Qed.

(** The layer of a merge is the union of the layers. *)
Lemma merged_layer ls : Forall keys_sorted ls -> layer_of (Merge.merged (sources_of ls)) = layers ls.
Proof.
  intros Hs. apply map_eq. intros k. rewrite find_entry_layer, <- find_newest_layers, <- best_newest.
  destruct (Merge.merged_spec (sources_of ls) (sources_ok ls Hs)) as [_ H]. by rewrite H.
Qed.

Lemma find_newest_elem k ls e : find_newest k ls = Some e -> exists l, l ∈ ls /\ e ∈ l.
Proof.
  induction ls as [|l ls IH]; [done|]. cbn [find_newest]. destruct (find_newest k ls) as [e'|].
  - intros [= ->]. destruct IH as (l' & H1 & H2); [done|]. exists l'. split; [by constructor|done].
  - intros H%find_entry_Some. exists l. split; [constructor|tauto].
Qed.

(** Every merged entry is an entry of some table. *)
Lemma merged_elem ls e : Forall keys_sorted ls -> e ∈ Merge.merged (sources_of ls) ->
  exists l, l ∈ ls /\ e ∈ l.
Proof.
  intros Hs He. destruct (Merge.merged_spec (sources_of ls) (sources_ok ls Hs)) as [H1 H2].
  apply (find_newest_elem (Key e)). rewrite <- best_newest, <- H2.
  by apply find_entry_sorted.
Qed.

(** * The merge writes to the writer's file only *)

Lemma adapter_Next_read_only it : read_only (adapter_Next it).
Proof. pose proof it_Next_read_only. unfold adapter_Next. io_read_only. Qed.

Lemma open_iterators_read_only readers : read_only (open_iterators readers).
Proof. pose proof NewIterator_read_only. induction readers as [|r rs IH]; cbn [open_iterators]; io_read_only. Qed.

Lemma mergeReaders_steady readers w keep : steady (mergeReaders readers w keep).
Proof.
  unfold mergeReaders. destruct readers as [|r rs]; [io_steady|].
  apply steady_bind; [apply open_iterators_read_only|intros its].
  apply Merge.ForEachMerged_steady; [apply adapter_Next_read_only|apply SstWriter.Add_steady].
Qed.

Lemma mergeReaders_frame readers w keep q Q : SstWriter.tmpPath w <> q ->
  triple (about q Q) (mergeReaders readers w keep) (fun r f => about q Q f /\ SstWriter.same_paths w r).
Proof.
  intros Hq. assert (Hret : triple (about q Q) (io_ret (w, None))
    (fun (r : res (SstWriter.Writer * option error)) f => about q Q f /\ SstWriter.same_paths w r)).
  { apply triple_ret. intros f HQ. split; [done|]. by intros w' e [= <- <-]. }
  unfold mergeReaders. destruct readers as [|r rs]; [done|].
  eapply triple_bind with (R := fun _ => about q Q).
  { eapply triple_conseq; [apply (read_only_preserves _ (about q Q)), open_iterators_read_only|done|]. by intros [] f HQ. }
  intros its. set (Inv := fun w' => SstWriter.finalPath w' = SstWriter.finalPath w /\ SstWriter.tmpPath w' = SstWriter.tmpPath w).
  apply (Merge.ForEachMerged_keeps (H := table_iterator) adapter_Next_read_only SstWriter.Add (about q Q) Inv); [|done].
  intros w' k v t [H1 H2]. eapply triple_conseq; [apply SstWriter.Add_frame with (q := q) (Q := Q); congruence|done|].
  intros x f [HQ Hs]. split; [done|]. intros w2 e Hx. destruct (Hs w2 e Hx). split; congruence.
Qed.

End SstMerge.
