(* ===== verification/SstTable.v ===== *)
(** A table file as a whole: the bytes a writer that was given sorted entries leaves
    behind, their size, and the run of the writer without faults. *)

From Stdlib Require Import ZArith Lia.
From S2P Require Import Prelude Word Fs Memtable Bloom SstFormat SstWriter SstReader MergeIter SstMerge.

Module SstTable.
Import SstFormat SstWriter.

(** The bytes of a complete table file. *)
Record sst_image (groups : list (list entry)) (bs : bytes) : Prop := {
  si_blocks : blocks groups;
  si_sorted : keys_sorted (concat groups);
  si_fits : Forall fits (concat groups);
  si_bytes : exists b0, Bloom.wf b0 /\ 0 < Bloom.m b0 < 2 ^ 32 /\ Bloom.k b0 < 2 ^ 32 /\
    bs = image (Bloom.add_all b0 (Key <$> concat groups)) groups;
  si_size : zlen bs < 2 ^ 48
}.

(** * The size of a table file *)

(** The bytes the memtable counts for the entries. *)
Definition weight (es : list entry) : Z := Mem.sum_Z (Mem.entry_bytes <$> es).

Lemma weight_app a b : weight (a ++ b) = weight a + weight b.
Proof. unfold weight. by rewrite fmap_app, Mem.sum_Z_app. Qed.

Lemma weight_cons e es : weight (e :: es) = zlen (Key e) + zlen (Value e) + 8 + weight es.
Proof. done. Qed.

Lemma weight_nonneg es : 0 <= weight es.
Proof.
  induction es as [|e es IH]; [done|]. rewrite weight_cons.
  pose proof (zlen_nonneg (Key e)). pose proof (zlen_nonneg (Value e)). lia.
Qed.

Lemma block_weight g : zlen (block_of g) <= 2 * weight g.
Proof.
  induction g as [|e g IH]; [done|]. rewrite block_of_cons, zlen_app, weight_cons, zlen_entry_wire. pose proof (zlen_nonneg (Key e)). pose proof (zlen_nonneg (Value e)). lia.
Qed.

Lemma last_key_weight g : g <> [] -> zlen (last_key g) + 8 <= weight g.
Proof.
  destruct g as [|e g _] using rev_ind; [done|]. intros _. unfold last_key. rewrite last_snoc. cbn [fmap option_fmap option_map default].
  rewrite weight_app, weight_cons. pose proof (weight_nonneg g). change (weight []) with 0. change (id (Key e)) with (Key e).
  pose proof (zlen_nonneg (Value e)). lia.
Qed.

Lemma data_weight groups : zlen (data_of groups) <= 2 * weight (concat groups).
Proof.
  unfold data_of. induction groups as [|g groups IH]; [done|]. csimpl. rewrite zlen_app, weight_app.
  pose proof (block_weight g). lia.
Qed.

Lemma index_weight groups : blocks groups -> forall off,
  zlen (index_Encode (index_of off groups)) <= 3 * weight (concat groups).
Proof.
  unfold index_Encode. induction 1 as [|g groups Hg _ IH]; intros off; [done|]. cbn [index_of].
  rewrite fmap_cons. cbn [concat]. rewrite zlen_app, weight_app, zlen_index_entry. cbn [LastKey].
  specialize (IH (off + zlen (block_of g))). pose proof (last_key_weight g Hg). pose proof (zlen_nonneg (last_key g)). lia.
Qed.

Section table.
Context `{BloomSizing}.

(** The filter that [NewWriter] makes for [n] entries. *)
Definition new_filter (n : Z) : Bloom.Filter := Bloom.New (bloom_m n) (bloom_k n).

Lemma new_filter_ok n : 1 <= n < 2 ^ 26 ->
  Bloom.wf (new_filter n) /\ 0 < Bloom.m (new_filter n) < 2 ^ 31 /\ Bloom.k (new_filter n) < 2 ^ 32.
Proof.
  intros Hn. destruct (Bloom.New_wf (bloom_m n) (bloom_k n)) as [Hwf Hk].
  pose proof (Bloom.align8_range _ (bloom_m_range n Hn)). split; [done|].
  unfold new_filter in *. split; [cbn [Bloom.m Bloom.New]; lia|lia].
Qed.

Lemma bloom_size f keys : Bloom.wf f -> 0 < Bloom.m f < 2 ^ 31 ->
  zlen (Bloom.Encode (Bloom.add_all f keys)) <= 2 ^ 29.
Proof.
  intros Hwf Hm. pose proof (Bloom.add_all_wf f keys Hwf) as (_ & Hb & _).
  destruct (Bloom.add_all_params f keys) as [_ Em]. unfold Bloom.Encode. rewrite !zlen_app, Hb, Em.
  pose proof (Z.div_mod (Bloom.m f + 7) 8).
  pose proof (Z.mod_pos_bound (Bloom.m f + 7) 8).
  assert (zlen (put_u32 (u32 (Bloom.k (Bloom.add_all f keys)))) = 4) as -> by apply zlen_put_u32.
  assert (zlen (put_u32 (u32 (Bloom.m f))) = 4) as -> by apply zlen_put_u32. lia.
Qed.

(** Tables of less than a terabyte are within every bound of the reader. *)
Lemma image_size f groups : blocks groups -> Bloom.wf f -> 0 < Bloom.m f < 2 ^ 31 ->
  weight (concat groups) < 2 ^ 40 ->
  zlen (image (Bloom.add_all f (Key <$> concat groups)) groups) < 2 ^ 48.
Proof.
  intros Hb Hwf Hm Hw. unfold image. rewrite !zlen_app.
  pose proof (data_weight groups). pose proof (index_weight groups Hb 0).
  pose proof (bloom_size f (Key <$> concat groups) Hwf Hm).
  unfold zlen at 4. rewrite length_footer. lia.
Qed.

(** * Writing a table *)

Lemma NewWriter_quiet path bsz n f : 0 < bsz -> 1 <= n ->
  exists w f', NewWriter path bsz n (mkWorld f []) = (Ok w, mkWorld f' []) /\
    writing path bsz (new_filter n) w f' [] [] [] /\
    (forall q, q <> tmp_of path -> f' !! q = f !! q).
Proof.
  intros Hb Hn. unfold NewWriter. destruct (Z.leb_spec bsz 0); [lia|]. destruct (Z.ltb_spec n 1); [lia|].
  eexists _, _. rewrite (io_bind_ok _ _ _ _ _ (fs_open_trunc_quiet f (tmp_of path))). split; [reflexivity|]. split.
  - split; try done; [constructor|]. by rewrite lookup_insert_eq.
  - intros q Hq. by rewrite lookup_insert_ne.
Qed.

(** Adding sorted entries to a fresh writer and closing it gives the table. *)
Lemma write_table_quiet path bsz n es f : 0 < bsz -> 1 <= n < 2 ^ 26 -> Forall fits es -> keys_sorted es -> weight es < 2 ^ 40 ->
  exists w f1 w1 f2 w2 f3 groups bs,
    NewWriter path bsz n (mkWorld f []) = (Ok w, mkWorld f1 []) /\
    add_entries w es (mkWorld f1 []) = (Ok (w1, None), mkWorld f2 []) /\
    Close w1 (mkWorld f2 []) = (Ok (w2, None), mkWorld f3 []) /\
    concat groups = es /\ f3 !! path = Some (File bs bs) /\ sst_image groups bs /\
    (forall q, q <> path -> q <> tmp_of path -> f3 !! q = f !! q).
Proof.
  intros Hbsz Hn Hfits Hsort Hw. destruct (NewWriter_quiet path bsz n f Hbsz ltac:(lia)) as (w & f1 & Hnew & Hwr & Hq1).
  destruct (new_filter_ok n Hn) as (Hbwf & Hbm & Hbk).
  destruct (add_entries_quiet path bsz (new_filter n) es w [] [] [] f1 Hfits Hsort Hwr) as (w1 & f2 & Hadd).
  destruct (add_entries_triple path bsz (new_filter n) es w [] [] [] Hfits Hsort (mkWorld f1 []) Hwr w1)
    as (cur & groups0 & Hwr1); [by rewrite Hadd|]. rewrite Hadd in Hwr1. cbn [snd fs] in Hwr1.
  destruct (Close_quiet path bsz (new_filter n) w1 f2 es cur groups0 Hwr1) as (w2 & f3 & Hcl).
  destruct (Close_triple path bsz (new_filter n) w1 es cur groups0 (fun _ => True) (mkWorld f2 [])
    (conj Hwr1 I)) as [(w' & groups & Hok & Hcat & Hbl & Hfile)|[Hno _]]; rewrite Hcl in *; [|by destruct (Hno w2)].
  cbn [snd fs fst] in *. eexists w, f1, w1, f2, w2, f3, groups, _. split; [done|]. split; [done|]. split; [done|].
  split; [done|]. split; [exact Hfile|]. split.
  - split; try by rewrite ?Hcat.
    + exists (new_filter n). split; [done|]. split; [lia|]. split; [done|]. by rewrite Hcat.
    + rewrite <- Hcat in Hw |- *. by apply image_size.
  - intros q Hp Ht. assert (Hq2 : f2 !! q = f1 !! q /\ same_paths w (Ok (w1, None))).
    { pose proof (add_entries_frame es w q (fun o => o = f1 !! q)
        ltac:(rewrite (wr_tmp _ _ _ _ _ _ _ _ Hwr); congruence) (mkWorld f1 []) eq_refl) as Hfr.
      by rewrite Hadd in Hfr. }
    destruct Hq2 as [Hq2 _].
    pose proof (Close_other w1 q (fun o => o = f2 !! q) ltac:(rewrite (wr_tmp _ _ _ _ _ _ _ _ Hwr1); congruence)
      ltac:(rewrite (wr_final _ _ _ _ _ _ _ _ Hwr1); congruence) (mkWorld f2 []) eq_refl) as Hfr.
    rewrite Hcl in Hfr. unfold about in Hfr. cbn [snd fs] in Hfr. rewrite Hfr, Hq2. by apply Hq1.
Qed.

(** The same under any schedule of faults, as far as the writer got. *)
Lemma NewWriter_any path bsz n wd w wd1 : 0 < bsz -> 1 <= n -> NewWriter path bsz n wd = (Ok w, wd1) ->
  writing path bsz (new_filter n) w (fs wd1) [] [] [] /\
  (forall q, q <> tmp_of path -> fs wd1 !! q = fs wd !! q).
Proof.
  intros Hb Hn. unfold NewWriter. destruct (Z.leb_spec bsz 0); [lia|]. destruct (Z.ltb_spec n 1); [lia|].
  unfold io_bind. pose proof (about_open_trunc (tmp_of path)) as Hother.
  assert (Hrun : forall wd', fs_open_trunc (tmp_of path) wd = (Ok tt, wd') ->
    fs wd' !! tmp_of path = Some (File [] [])).
  { intros wd'. unfold fs_open_trunc, prim. destruct (faults wd) as [|[|e k|k] fl]; try done; intros [= <-];
      cbn; by rewrite lookup_insert_eq. }
  destruct (fs_open_trunc (tmp_of path) wd) as [[[]|e|] wd'] eqn:Er; try done. intros [= <- <-].
  split; [split; try done; [constructor|by apply Hrun]|].
  intros q Hq. specialize (Hother q (fun o => o = fs wd !! q) ltac:(congruence) wd eq_refl). by rewrite Er in Hother.
Qed.

(** Whatever happens while a table is written, [Close] returns nil only with the
    complete and durable table under its name, and otherwise the name is as it was. *)
Lemma write_table_any path bsz n es wd w wd1 w1 wd2 : 0 < bsz -> 1 <= n -> Forall fits es -> keys_sorted es ->
  NewWriter path bsz n wd = (Ok w, wd1) -> add_entries w es wd1 = (Ok (w1, None), wd2) ->
  (exists w' groups, fst (Close w1 wd2) = Ok (w', None) /\ concat groups = es /\ blocks groups /\
     let bs := image (Bloom.add_all (new_filter n) (Key <$> es)) groups in
     fs (snd (Close w1 wd2)) !! path = Some (File bs bs)) \/
  ((forall w', fst (Close w1 wd2) <> Ok (w', None)) /\ fs (snd (Close w1 wd2)) !! path = fs wd !! path).
Proof.
  intros Hb Hn Hf Hs Hnew Hadd. destruct (NewWriter_any path bsz n wd w wd1 Hb Hn Hnew) as [Hwr Hq1].
  destruct (add_entries_triple path bsz (new_filter n) es w [] [] [] Hf Hs wd1 Hwr w1)
    as (cur & groups0 & Hwr1); [by rewrite Hadd|]. rewrite Hadd in Hwr1. cbn [snd] in Hwr1.
  assert (Hne : tmp_of path <> path) by (apply tmp_ne).
  pose proof (add_entries_frame es w path (fun o => o = fs wd !! path)
    ltac:(rewrite (wr_tmp _ _ _ _ _ _ _ _ Hwr); congruence) wd1 ltac:(by apply Hq1)) as Hfr.
  rewrite Hadd in Hfr. destruct Hfr as [Hfr _].
  exact (Close_triple path bsz (new_filter n) w1 es cur groups0 (fun o => o = fs wd !! path) wd2 (conj Hwr1 Hfr)).
Qed.

End table.

End SstTable.
