(* ===== verification/DbState.v ===== *)
(** The database handle (internal/db: db.go, batch.go, bg_errors.go,
    batch_persist.go, errors.go) and the operations on its in-memory parts.

    SSTable readers are shared objects: [sstables], the published snapshot
    [sstablesSnap], [allReaders] and the readers a [Get] or a [Scan] holds are lists of
    pointers into [heap].  A buffered channel of wake-up tokens is the number of
    tokens in it.  [seeds] are the random sources of the skip lists still to be
    made and [nextFileID] is the counter [nextReaderFileID]. *)

From Stdlib Require Import ZArith Lia.
From S2P Require Import Prelude Word Fs GoStr Memtable Wal Manifest SstReader.

Module Db.

(** * State (db.go) *)

Record Config := mkConfig {
  memtableSize : Z;
  compactThreshold : Z;
  walLimits : Wal.ReplayLimits;
  syncWrites : bool;
  blockWritesOnFlushError : bool
}.

Record flushQueueEntry := mkQueueEntry { mem : Mem.SkipList; walCutoff : Z; retries : Z }.

Record DB := mkDB {
  cfg : Config;
  active : Mem.SkipList;
  pendingFlush : list flushQueueEntry;
  sstables : list nat;
  sstablesSnap : list nat;
  allReaders : list nat;
  heap : gmap nat SstReader.Reader;
  wal : option Wal.WAL;
  manifest : option Manifest.Log;
  closed : bool;
  nextSSTID : Z;
  bgErrs : gmap string error;
  pendingBatch : list entry;
  batchSizeBytes : Z;
  inflight : Z;
  flushCh : nat;
  compactCh : nat;
  seeds : list (list bool);
  nextFileID : Z
}.

Definition set_active (x : Mem.SkipList) (d : DB) : DB :=
  mkDB (cfg d) x (pendingFlush d) (sstables d) (sstablesSnap d) (allReaders d) (heap d) (wal d) (manifest d) (closed d) (nextSSTID d) (bgErrs d) (pendingBatch d) (batchSizeBytes d) (inflight d) (flushCh d) (compactCh d) (seeds d) (nextFileID d).
Definition set_pendingFlush (x : list flushQueueEntry) (d : DB) : DB :=
  mkDB (cfg d) (active d) x (sstables d) (sstablesSnap d) (allReaders d) (heap d) (wal d) (manifest d) (closed d) (nextSSTID d) (bgErrs d) (pendingBatch d) (batchSizeBytes d) (inflight d) (flushCh d) (compactCh d) (seeds d) (nextFileID d).
Definition set_sstables (x : list nat) (d : DB) : DB :=
  mkDB (cfg d) (active d) (pendingFlush d) x (sstablesSnap d) (allReaders d) (heap d) (wal d) (manifest d) (closed d) (nextSSTID d) (bgErrs d) (pendingBatch d) (batchSizeBytes d) (inflight d) (flushCh d) (compactCh d) (seeds d) (nextFileID d).
Definition set_sstablesSnap (x : list nat) (d : DB) : DB :=
  mkDB (cfg d) (active d) (pendingFlush d) (sstables d) x (allReaders d) (heap d) (wal d) (manifest d) (closed d) (nextSSTID d) (bgErrs d) (pendingBatch d) (batchSizeBytes d) (inflight d) (flushCh d) (compactCh d) (seeds d) (nextFileID d).
Definition set_allReaders (x : list nat) (d : DB) : DB :=
  mkDB (cfg d) (active d) (pendingFlush d) (sstables d) (sstablesSnap d) x (heap d) (wal d) (manifest d) (closed d) (nextSSTID d) (bgErrs d) (pendingBatch d) (batchSizeBytes d) (inflight d) (flushCh d) (compactCh d) (seeds d) (nextFileID d).
Definition set_heap (x : gmap nat SstReader.Reader) (d : DB) : DB :=
  mkDB (cfg d) (active d) (pendingFlush d) (sstables d) (sstablesSnap d) (allReaders d) x (wal d) (manifest d) (closed d) (nextSSTID d) (bgErrs d) (pendingBatch d) (batchSizeBytes d) (inflight d) (flushCh d) (compactCh d) (seeds d) (nextFileID d).
Definition set_wal (x : option Wal.WAL) (d : DB) : DB :=
  mkDB (cfg d) (active d) (pendingFlush d) (sstables d) (sstablesSnap d) (allReaders d) (heap d) x (manifest d) (closed d) (nextSSTID d) (bgErrs d) (pendingBatch d) (batchSizeBytes d) (inflight d) (flushCh d) (compactCh d) (seeds d) (nextFileID d).
Definition set_manifest (x : option Manifest.Log) (d : DB) : DB :=
  mkDB (cfg d) (active d) (pendingFlush d) (sstables d) (sstablesSnap d) (allReaders d) (heap d) (wal d) x (closed d) (nextSSTID d) (bgErrs d) (pendingBatch d) (batchSizeBytes d) (inflight d) (flushCh d) (compactCh d) (seeds d) (nextFileID d).
Definition set_closed (x : bool) (d : DB) : DB :=
  mkDB (cfg d) (active d) (pendingFlush d) (sstables d) (sstablesSnap d) (allReaders d) (heap d) (wal d) (manifest d) x (nextSSTID d) (bgErrs d) (pendingBatch d) (batchSizeBytes d) (inflight d) (flushCh d) (compactCh d) (seeds d) (nextFileID d).
Definition set_nextSSTID (x : Z) (d : DB) : DB :=
  mkDB (cfg d) (active d) (pendingFlush d) (sstables d) (sstablesSnap d) (allReaders d) (heap d) (wal d) (manifest d) (closed d) x (bgErrs d) (pendingBatch d) (batchSizeBytes d) (inflight d) (flushCh d) (compactCh d) (seeds d) (nextFileID d).
Definition set_bgErrs (x : gmap string error) (d : DB) : DB :=
  mkDB (cfg d) (active d) (pendingFlush d) (sstables d) (sstablesSnap d) (allReaders d) (heap d) (wal d) (manifest d) (closed d) (nextSSTID d) x (pendingBatch d) (batchSizeBytes d) (inflight d) (flushCh d) (compactCh d) (seeds d) (nextFileID d).
Definition set_pendingBatch (x : list entry) (d : DB) : DB :=
  mkDB (cfg d) (active d) (pendingFlush d) (sstables d) (sstablesSnap d) (allReaders d) (heap d) (wal d) (manifest d) (closed d) (nextSSTID d) (bgErrs d) x (batchSizeBytes d) (inflight d) (flushCh d) (compactCh d) (seeds d) (nextFileID d).
Definition set_batchSizeBytes (x : Z) (d : DB) : DB :=
  mkDB (cfg d) (active d) (pendingFlush d) (sstables d) (sstablesSnap d) (allReaders d) (heap d) (wal d) (manifest d) (closed d) (nextSSTID d) (bgErrs d) (pendingBatch d) x (inflight d) (flushCh d) (compactCh d) (seeds d) (nextFileID d).
Definition set_inflight (x : Z) (d : DB) : DB :=
  mkDB (cfg d) (active d) (pendingFlush d) (sstables d) (sstablesSnap d) (allReaders d) (heap d) (wal d) (manifest d) (closed d) (nextSSTID d) (bgErrs d) (pendingBatch d) (batchSizeBytes d) x (flushCh d) (compactCh d) (seeds d) (nextFileID d).
Definition set_flushCh (x : nat) (d : DB) : DB :=
  mkDB (cfg d) (active d) (pendingFlush d) (sstables d) (sstablesSnap d) (allReaders d) (heap d) (wal d) (manifest d) (closed d) (nextSSTID d) (bgErrs d) (pendingBatch d) (batchSizeBytes d) (inflight d) x (compactCh d) (seeds d) (nextFileID d).
Definition set_compactCh (x : nat) (d : DB) : DB :=
  mkDB (cfg d) (active d) (pendingFlush d) (sstables d) (sstablesSnap d) (allReaders d) (heap d) (wal d) (manifest d) (closed d) (nextSSTID d) (bgErrs d) (pendingBatch d) (batchSizeBytes d) (inflight d) (flushCh d) x (seeds d) (nextFileID d).
Definition set_seeds (x : list (list bool)) (d : DB) : DB :=
  mkDB (cfg d) (active d) (pendingFlush d) (sstables d) (sstablesSnap d) (allReaders d) (heap d) (wal d) (manifest d) (closed d) (nextSSTID d) (bgErrs d) (pendingBatch d) (batchSizeBytes d) (inflight d) (flushCh d) (compactCh d) x (nextFileID d).
Definition set_nextFileID (x : Z) (d : DB) : DB :=
  mkDB (cfg d) (active d) (pendingFlush d) (sstables d) (sstablesSnap d) (allReaders d) (heap d) (wal d) (manifest d) (closed d) (nextSSTID d) (bgErrs d) (pendingBatch d) (batchSizeBytes d) (inflight d) (flushCh d) (compactCh d) (seeds d) x.

Definition defaultMemtableSize : Z := Z.shiftl 4 20.
Definition defaultBlockSize : Z := 4096.

(** A new, empty memtable with the next random source. *)
Definition new_memtable (d : DB) : Mem.SkipList * DB :=
  (Mem.NewSkipList (hd [] (seeds d)), set_seeds (tl (seeds d)) d).

(** * Readers *)

Definition publishSSTables (d : DB) : DB := set_sstablesSnap (sstables d) d.

Definition snapshotSSTables (d : DB) : list nat := sstablesSnap d.

Definition trackReader (p : nat) (d : DB) : DB := set_allReaders (allReaders d ++ [p]) d.

(** A new object. *)
Definition alloc_reader (r : SstReader.Reader) (d : DB) : nat * DB :=
  let p := fresh (dom (heap d)) in (p, set_heap (<[p := r]> (heap d)) d).

(** Run a method of the reader that [p] points to. *)
Definition on_reader {A} (p : nat) (m : SstReader.Reader -> io (SstReader.Reader * A)) (dflt : A) (d : DB)
  : io (DB * A) :=
  match heap d !! p with
  | None => io_ret (d, dflt)
  | Some r => let! (r', a) := m r in io_ret (set_heap (<[p := r']> (heap d)) d, a)
  end.

Definition close_reader (p : nat) (d : DB) : io (DB * option error) := on_reader p SstReader.Close None d.
Definition discard_reader (p : nat) (d : DB) : io (DB * option error) := on_reader p SstReader.Discard None d.
Definition unref_reader (p : nat) (d : DB) : io DB :=
  let! (d', _) := on_reader p (fun r => let! r' := SstReader.Unref r in io_ret (r', tt)) tt d in io_ret d'.
Definition ref_reader (p : nat) (d : DB) : DB :=
  match heap d !! p with
  | None => d
  | Some r => set_heap (<[p := SstReader.Ref r]> (heap d)) d
  end.

Definition ref_all (ps : list nat) (d : DB) : DB := fold_left (fun d p => ref_reader p d) ps d.

Fixpoint unref_all (ps : list nat) (d : DB) : io DB :=
  match ps with [] => io_ret d | p :: ps' => let! d' := unref_reader p d in unref_all ps' d' end.

Fixpoint close_all (ps : list nat) (d : DB) : io DB :=
  match ps with [] => io_ret d | p :: ps' => let! (d', _) := close_reader p d in close_all ps' d' end.

Definition closeLoadedReaders (d : DB) : io DB :=
  let! d' := close_all (sstables d) d in io_ret (set_sstables [] d').

Definition discardAllReaders (d : DB) : io DB :=
  let! d' := close_all (allReaders d) d in io_ret (set_allReaders [] d').

(** * Background errors (bg_errors.go) *)

Definition setBackgroundErr (op : string) (e : option error) (d : DB) : DB :=
  match e with None => d | Some err => set_bgErrs (<[op := err]> (bgErrs d)) d end.

Definition clearBackgroundErrOp (op : string) (d : DB) : DB := set_bgErrs (delete op (bgErrs d)) d.

(** [errors.Join(joined, err)] *)
Definition join_err (j : option error) (e : error) : option error :=
  match j with None => Some e | Some e0 => Some (joined e0 e) end.

Definition string_le (a b : string) : Prop := String.leb a b = true.
#[export] Instance string_le_dec : RelDecision string_le.
Proof. intros a b. unfold string_le. apply _. Defined.

Definition bg_join (byOp : gmap string error) (only : option (list string)) : option error :=
  let ops := (map_to_list byOp).*1 in
  let ops := match only with None => ops | Some l => filter (fun op => op ∈ l) ops end in
  let ops := merge_sort string_le ops in
  fold_left (fun j op => match byOp !! op with
                         | Some e => join_err j (background op e)
                         | None => j
                         end) ops None.

Definition backgroundErr (d : DB) : option error := bg_join (bgErrs d) None.
Definition BackgroundError (d : DB) : option error := backgroundErr d.

Definition writeBlockingBackgroundErr (d : DB) : option error :=
  if negb (blockWritesOnFlushError (cfg d))
  then bg_join (bgErrs d) (Some ["wal"%string])
  else bg_join (bgErrs d) (Some ["wal"%string; "flush"%string]).

(** * The group-commit batch (batch.go) *)

Definition batchMaxRecords : Z := 64.
Definition batchMaxBytes : Z := 16 * 1024.

Definition recordWireSize (rec : entry) : Z := 4 + zlen (Key rec) + 4 + zlen (Value rec) + 1 + 4.

(** The copy of a record is the record. *)
Definition ownedRecord (rec : entry) : entry := Entry (Key rec) (Value rec) (Tombstone rec).

Definition apply_record (sl : Mem.SkipList) (rec : entry) : Mem.SkipList :=
  if Tombstone rec then Mem.Delete sl (Key rec) else Mem.Put sl (Key rec) (Value rec).

Definition applyRecordToMemtable (d : DB) (rec : entry) : DB :=
  set_active (apply_record (active d) rec) d.

Definition takePendingBatchLocked (d : DB) : list entry * DB :=
  match pendingBatch d with
  | [] => ([], d)
  | batch => (batch, set_batchSizeBytes 0 (set_pendingBatch [] d))
  end.

Definition restorePendingBatchLocked (d : DB) (batch : list entry) : DB :=
  let d1 := set_pendingBatch (batch ++ pendingBatch d) d in
  set_batchSizeBytes (fold_left (fun n rec => n + recordWireSize rec) batch (batchSizeBytes d1)) d1.

Inductive memLookupResult := memLookupMiss | memLookupHit | memLookupTombstone.

(** The loop [for i := len(batch) - 1; i >= 0; i--] on the reversed batch. *)
Fixpoint lookup_rev (rbatch : list entry) (key : bytes) : bytes * memLookupResult :=
  match rbatch with
  | [] => ([], memLookupMiss)
  | rec :: rbatch' =>
      if negb (bytes_eqb (Key rec) key) then lookup_rev rbatch' key
      else if Tombstone rec then ([], memLookupTombstone)
      else (Value rec, memLookupHit)
  end.

Definition lookupPendingBatch (batch : list entry) (key : bytes) : bytes * memLookupResult :=
  lookup_rev (rev batch) key.

(** [byKey[string(rec.Key)] = latest{rec, i}] for each record in turn. *)
Definition byKey (batch : list entry) : gmap bytes entry :=
  fold_left (fun m rec => <[Key rec := rec]> m) batch ∅.

Definition bytes_le (a b : bytes) : Prop := ~ blt b a.
#[export] Instance bytes_le_dec : RelDecision bytes_le.
Proof. intros a b. unfold bytes_le. apply _. Defined.

Definition snapshotPendingBatch (batch : list entry) : list entry :=
  match batch with
  | [] => []
  | _ =>
      let m := byKey batch in
      let keys := merge_sort bytes_le ((map_to_list m).*1) in
      omap (fun k => (fun rec => Entry (Key rec) (if Tombstone rec then [] else Value rec) (Tombstone rec))
                       <$> m !! k) keys
  end.

Definition lookupMemtable (mt : Mem.SkipList) (key : bytes) : bytes * memLookupResult :=
  let '(val, found, tombstone) := Mem.Get mt key in
  if negb found then ([], memLookupMiss)
  else if tombstone then ([], memLookupTombstone)
  else (val, memLookupHit).

(** * The persist barrier (batch_persist.go) *)

Definition barrier_begin (d : DB) : DB := set_inflight (inflight d + 1) d.
Definition barrier_end (d : DB) : DB := set_inflight (inflight d - 1) d.
(** [wait] returns only in a state where this holds. *)
Definition barrier_open (d : DB) : bool := negb (0 <? inflight d).

(** * What the parts hold *)

(** The result of a look-up as the layer's word on the key. *)
Definition looked_up (r : bytes * memLookupResult) : option (option bytes) :=
  match r with
  | (_, memLookupMiss) => None
  | (_, memLookupTombstone) => Some None
  | (v, memLookupHit) => Some (Some v)
  end.

Lemma lookup_rev_layer l key : looked_up (lookup_rev l key) = layer_of l !! key.
Proof.
  induction l as [|rec l IH]; [done|]. rewrite layer_of_cons. cbn [lookup_rev].
  destruct (bytes_eqb (Key rec) key) eqn:E; cbn [negb].
  - apply bytes_eqb_spec in E as <-. rewrite lookup_insert_eq. unfold cell.
    by destruct (Tombstone rec).
  - apply bytes_eqb_false in E. by rewrite lookup_insert_ne.
Qed.

(** The batch answers with its latest record of the key. *)
Lemma lookupPendingBatch_layer batch key :
  looked_up (lookupPendingBatch batch key) = log_layer batch !! key.
Proof. apply lookup_rev_layer. Qed.

Lemma lookupMemtable_layer mt key : Mem.wf mt ->
  looked_up (lookupMemtable mt key) = Mem.contents mt !! key.
Proof.
  intros Hwf. unfold lookupMemtable. rewrite Mem.Get_contents by done.
  by destruct (Mem.contents mt !! key) as [[v|]|].
Qed.

Lemma apply_record_contents sl rec : Mem.wf sl ->
  Mem.wf (apply_record sl rec) /\
  Mem.contents (apply_record sl rec) = <[Key rec := cell rec]> (Mem.contents sl).
Proof.
  intros Hwf. unfold apply_record, cell. destruct (Tombstone rec).
  - split; [by apply Mem.Delete_refines|by apply Mem.Delete_contents].
  - split; [by apply Mem.Put_refines|by apply Mem.Put_contents].
Qed.

(** Applying a log to a memtable puts the layer of the log in front of it. *)
Lemma apply_records_contents recs : forall sl, Mem.wf sl ->
  Mem.wf (fold_left apply_record recs sl) /\
  Mem.contents (fold_left apply_record recs sl) = log_layer recs ∪ Mem.contents sl.
Proof.
  induction recs as [|rec recs IH]; intros sl Hwf.
  - split; [done|]. unfold log_layer. simpl. symmetry. apply (map_empty_union (M := gmap bytes)).
  - destruct (apply_record_contents sl rec Hwf) as [H1 H2]. destruct (IH _ H1) as [H3 H4].
    split; [done|]. simpl. rewrite H4, H2. change (rec :: recs) with ([rec] ++ recs).
    rewrite log_layer_app, <- (map_union_assoc (M := gmap bytes)). f_equal.
    unfold log_layer. simpl. rewrite layer_of_cons. rewrite <- insert_union_l. f_equal.
    symmetry. apply (map_empty_union (M := gmap bytes)).
Qed.

(** ** The sorted snapshot of the batch *)

Lemma byKey_gen batch m : fold_left (fun m rec => <[Key rec := rec]> m) batch m =
  (list_to_map ((fun e => (Key e, e)) <$> rev batch) : gmap bytes entry) ∪ m.
Proof.
  revert m. induction batch as [|rec batch IH]; intros m; simpl.
  - symmetry. apply (map_empty_union (M := gmap bytes)).
  - rewrite IH. rewrite fmap_app, list_to_map_app, <- (map_union_assoc (M := gmap bytes)). f_equal.
    simpl. rewrite <- insert_union_l. f_equal. symmetry. apply (map_empty_union (M := gmap bytes)).
Qed.

Lemma byKey_lookup batch k : cell <$> byKey batch !! k = log_layer batch !! k /\
  forall e, byKey batch !! k = Some e -> Key e = k.
Proof.
  unfold byKey. rewrite byKey_gen, !(map_union_empty (M := gmap bytes)). unfold log_layer.
  induction (rev batch) as [|e l [IH1 IH2]]; [done|]. rewrite layer_of_cons. csimpl.
  destruct (decide (Key e = k)) as [<-|Hne].
  - rewrite !lookup_insert_eq. split; [done|]. intros e' [= ->]. done.
  - rewrite !lookup_insert_ne by done. done.
Qed.

#[export] Instance bytes_le_total : Total bytes_le.
Proof.
  intros a b. unfold bytes_le. destruct (decide (blt b a)) as [H|H]; [right|by left]. by apply blt_asym.
Qed.

#[export] Instance bytes_le_trans : Transitive bytes_le.
Proof.
  intros a b c. unfold bytes_le. intros H1 H2 H3. apply H1. by eapply nlt_blt_trans.
Qed.

Lemma le_sorted_lt keys : NoDup keys -> Sorted bytes_le keys -> StronglySorted blt keys.
Proof.
  intros Hnd Hs. apply Sorted_StronglySorted in Hs; [|exact bytes_le_trans].
  induction Hs as [|k keys Hs IH Hf]; [constructor|]. apply NoDup_cons in Hnd as [Hk Hnd].
  constructor; [by apply IH|]. apply Forall_forall. intros k' Hk'. rewrite Forall_forall in Hf.
  specialize (Hf k' Hk'). unfold bytes_le in Hf.
  destruct (blt_trichotomy k k') as [?|[->|?]]; [done|done|done].
Qed.

Definition snap_entry (rec : entry) : entry :=
  Entry (Key rec) (if Tombstone rec then [] else Value rec) (Tombstone rec).

(** The snapshot is sorted and says of every key what the batch says. *)
Lemma snapshotPendingBatch_spec batch :
  keys_sorted (snapshotPendingBatch batch) /\
  layer_of (snapshotPendingBatch batch) = log_layer batch.
Proof.
  assert (Hcase : batch = [] \/ batch <> []) by (destruct batch; [by left|by right]).
  destruct Hcase as [->|Hne]; [done|].
  assert (Hdef : snapshotPendingBatch batch = omap (fun k => snap_entry <$> byKey batch !! k)
    (merge_sort bytes_le ((map_to_list (byKey batch)).*1))) by (clear -Hne; by destruct batch).
  rewrite Hdef. set (m := byKey batch). set (keys := merge_sort bytes_le _).
  assert (Hin : forall k, k ∈ keys <-> is_Some (m !! k)).
  { intros k. unfold keys. rewrite merge_sort_Permutation, list_elem_of_fmap. split.
    - intros ([k' e] & -> & H). apply elem_of_map_to_list in H. by exists e.
    - intros [e He]. exists (k, e). by rewrite elem_of_map_to_list. }
  assert (Hkeys : Key <$> omap (fun k => snap_entry <$> m !! k) keys = keys).
  { assert (Hall : Forall (fun k => is_Some (m !! k)) keys) by (apply Forall_forall; intros k; by apply Hin).
    clear -Hall. induction Hall as [|k keys [e He] _ IH]; [done|]. csimpl. rewrite He. csimpl.
    rewrite IH. f_equal. by apply (byKey_lookup batch k). }
  assert (Hsorted : StronglySorted blt keys).
  { apply le_sorted_lt; unfold keys.
    - rewrite merge_sort_Permutation. apply NoDup_fst_map_to_list.
    - apply Sorted_merge_sort, _. }
  assert (Hks : keys_sorted (omap (fun k => snap_entry <$> m !! k) keys))
    by (unfold keys_sorted; by rewrite Hkeys).
  split; [done|]. apply map_eq. intros k. destruct (byKey_lookup batch k) as [<- Hk].
  destruct (byKey batch !! k) as [e|] eqn:Ee.
  - rewrite <- (Hk e eq_refl). change (Key e) with (Key (snap_entry e)).
    rewrite layer_of_lookup_sorted; [|done|].
    + unfold cell, snap_entry. simpl. by destruct (Tombstone e).
    + apply list_elem_of_omap. exists k. rewrite (Hin k). split; [by exists e|]. unfold m. by rewrite Ee.
  - simpl. apply layer_of_lookup_None. rewrite Hkeys, Hin. unfold m. rewrite Ee. by intros [? ?].
Qed.

(** ** Background errors *)

(** Writes are blocked exactly while a blocking operation has a recorded error. *)
Lemma bg_join_None byOp only :
  bg_join byOp only = None <->
  forall op e, byOp !! op = Some e -> match only with None => False | Some l => op ∉ l end.
Proof.
  unfold bg_join. set (ops := match only with None => _ | Some l => _ end).
  assert (Hops : forall op, op ∈ merge_sort string_le ops <->
    is_Some (byOp !! op) /\ match only with None => True | Some l => op ∈ l end).
  { intros op. rewrite merge_sort_Permutation. unfold ops.
    assert (Hb : op ∈ (map_to_list byOp).*1 <-> is_Some (byOp !! op)).
    { rewrite list_elem_of_fmap. split.
      - intros ([op' e] & -> & H). apply elem_of_map_to_list in H. by exists e.
      - intros [e He]. exists (op, e). by rewrite elem_of_map_to_list. }
    destruct only as [l|]; [rewrite list_elem_of_filter|]; rewrite Hb; tauto. }
  assert (Hfold : forall l j, Forall (fun op => is_Some (byOp !! op)) l ->
    fold_left (fun j op => match byOp !! op with
       | Some e => join_err j (background op e) | None => j end) l j = None <-> j = None /\ l = []).
  { induction l as [|op l IH]; intros j Hl; simpl; [naive_solver|].
    apply Forall_cons in Hl as [[e He] Hl]. rewrite IH, He by done. destruct j; naive_solver. }
  rewrite Hfold by (apply Forall_forall; intros op; rewrite Hops; tauto). split.
  - intros [_ Hnil] op e He. destruct only as [l|].
    + intros Hl. assert (Hin : op ∈ merge_sort string_le ops) by (apply Hops; eauto).
      rewrite Hnil in Hin. by apply not_elem_of_nil in Hin.
    + assert (Hin : op ∈ merge_sort string_le ops) by (apply Hops; eauto).
      rewrite Hnil in Hin. by apply not_elem_of_nil in Hin.
  - intros H. split; [done|]. destruct (merge_sort string_le ops) as [|op l] eqn:E; [done|].
    assert (Hin : op ∈ op :: l) by constructor. apply Hops in Hin as [[e He] Ho]. specialize (H op e He). by destruct only.
Qed.

End Db.
