(* ===== verification/DbFlush.v ===== *)
(** Flushing memtables to SSTables (internal/db: flush.go, wal_state.go,
    crashpoint.go and [maybeTriggerCompaction] of compaction.go).

    Every function takes the database handle and returns the one after the call
    together with the error of the call; the lock-free stretches between two
    critical sections run as one unit here. *)

From Stdlib Require Import ZArith Lia.
From S2P Require Import Prelude Word Fs GoStr Memtable Wal Manifest SstFormat SstWriter SstReader DbState.

Module DbFlush.
Import Db.

(** * The checkpoint file wal.flush (wal_state.go) *)

Definition walFlushStateName : string := "wal.flush".
Definition wal_flush_tmp : string := "wal.flush.tmp".
Definition walName : string := "wal.log".

Record walFlushState := mkFlushState { FreezeOffset : Z; SSTID : Z }.

Definition encode_flush_state (st : walFlushState) : bytes :=
  put_u64 (u64 (FreezeOffset st)) ++ put_u64 (SSTID st).

Definition writeWalFlushState (st : walFlushState) : io unit :=
  let buf := encode_flush_state st in
  fs_open_trunc wal_flush_tmp ;;!
  Manifest.or_remove (fs_write wal_flush_tmp buf) wal_flush_tmp ;;!
  Manifest.or_remove (fs_sync wal_flush_tmp) wal_flush_tmp ;;!
  Manifest.or_remove (fs_close wal_flush_tmp) wal_flush_tmp ;;!
  fs_rename wal_flush_tmp walFlushStateName.

(** [None] when there is no checkpoint. *)
Definition readWalFlushState : io (option walFlushState) :=
  let! r := try (fs_read walFlushStateName) in
  match r with
  | inr os_ErrNotExist => io_ret None
  | inr e => io_err e
  | inl data =>
      if zlen data <? 16
      then ignore (fs_remove walFlushStateName) ;;! io_err ErrCorruptWalFlushState
      else io_ret (Some (mkFlushState (int64 (get_u64 data)) (get_u64 (drop 8 data))))
  end.

Definition removeWalFlushState : io unit :=
  let! r := try (fs_remove walFlushStateName) in
  match r with
  | inr os_ErrNotExist => io_ret tt
  | inr e => io_err e
  | inl _ => io_ret tt
  end.

Definition walReplayStartOffset (m : Manifest.Log) : io Z :=
  let! st := readWalFlushState in
  match st with
  | None => io_ret 0
  | Some st =>
      if negb (Manifest.Contains m (SSTID st)) then io_ret 0
      else if FreezeOffset st <? 0 then io_ret 0
      else
        let! r := try (fs_size walName) in
        match r with
        | inr os_ErrNotExist => io_ret 0
        | inr e => io_err e
        | inl size => if size <? FreezeOffset st then io_ret 0 else io_ret (FreezeOffset st)
        end
  end.

(** * Wake-up tokens *)

Definition chan_cap : nat := 8.

(** [select { case ch <- struct{}{}: default: }] *)
Definition offer (n : nat) : nat := if (n <? chan_cap)%nat then S n else n.

Definition signalFlush (force : bool) (d : DB) : DB :=
  if negb force && closed d then d else set_flushCh (offer (flushCh d)) d.
Definition notifyFlush (d : DB) : DB := signalFlush false d.
Definition notifyFlushForce (d : DB) : DB := signalFlush true d.

Definition maybeTriggerCompaction (d : DB) : DB :=
  let threshold := compactThreshold (cfg d) in
  if closed d || (threshold <=? 0) || (zlen (sstables d) <? threshold) then d
  else set_compactCh (offer (compactCh d)) d.

(** * Freezing the active memtable *)

(** A call on the log; after [Close] the pointer is nil and the process ends. *)
Definition with_wal {A} (d : DB) (m : Wal.WAL -> io A) : io A :=
  match wal d with None => io_res Crashed | Some w => m w end.

Definition freeze (offset : Z) (d : DB) : DB :=
  let d1 := set_pendingFlush (pendingFlush d ++ [mkQueueEntry (active d) offset 0]) d in
  let '(mt, d2) := new_memtable d1 in set_active mt d2.

Definition maybeFlushLocked (d : DB) : io (DB * (bool * option error)) :=
  if Mem.Size (active d) <=? memtableSize (cfg d) then io_ret (d, (false, None)) else
  let! r := try (with_wal d Wal.Size) in
  match r with
  | inr e => io_ret (d, (false, Some e))
  | inl offset => io_ret (freeze offset d, (true, None))
  end.

Definition hasPendingFlush (d : DB) : bool :=
  match pendingFlush d with [] => false | _ => true end.

(** * Flushing one memtable *)

Section flush.
Context `{BloomSizing}.

(** [for it.Valid() { w.Add(...); it.Next() }]; the iterator visits each node of
    the bottom level once. *)
Fixpoint add_memtable (fuel : nat) (it : Mem.SkipListIterator) (w : SstWriter.Writer)
  : io (SstWriter.Writer * option error) :=
  match fuel with
  | O => io_ret (w, None)
  | S fuel' =>
      if Mem.it_valid it then
        let! (w', err) := SstWriter.Add w (Mem.it_key it) (Mem.it_value it) (Mem.it_is_tombstone it) in
        match err with
        | Some e => io_ret (w', Some e)
        | None => add_memtable fuel' (Mem.it_next it) w'
        end
      else io_ret (w, None)
  end.

Definition completeWalAfterFlush (cutoff sstID : Z) (d : DB) : io (DB * option error) :=
  let! r := try (writeWalFlushState (mkFlushState cutoff sstID)) in
  match r with
  | inr e => io_ret (d, Some e)
  | inl _ =>
      crash_point ;;!
      let! (w', e) := with_wal d (fun w => Wal.TruncateBefore w cutoff) in
      let d' := set_wal (Some w') d in
      match e with
      | Some err => io_ret (d', Some err)
      | None =>
          let! r := try removeWalFlushState in
          match r with inr e => io_ret (d', Some e) | inl _ => io_ret (d', None) end
      end
  end.

(** Build the table file; its failure removes what is there. *)
Definition write_sst (imm : Mem.SkipList) (path : string) : io (option error) :=
  let expectedEntries := if Mem.Len imm <? 1 then 1 else Mem.Len imm in
  let! r := try (SstWriter.NewWriter path defaultBlockSize expectedEntries) in
  match r with
  | inr e => io_ret (Some e)
  | inl w =>
      let! (w1, err) := add_memtable (S (length (Mem.nodes imm))) (Mem.Iterator imm) w in
      match err with
      | Some e => SstWriter.Close w1 ;;! ignore (fs_remove path) ;;! io_ret (Some e)
      | None =>
          let! (_, err) := SstWriter.Close w1 in
          match err with
          | Some e => ignore (fs_remove path) ;;! io_ret (Some e)
          | None => io_ret None
          end
      end
  end.

(** Everything behind the manifest commit. *)
Definition install_sst (id : Z) (r : SstReader.Reader) (cutoff : Z) (d : DB) : io DB :=
  crash_point ;;!
  let '(p, d) := alloc_reader r d in
  let d := publishSSTables (set_sstables (sstables d ++ [p]) d) in
  let d := trackReader p d in
  let! d :=
    (match manifest d with
     | None => io_res Crashed
     | Some m => let! (m', _) := Manifest.MaybeCompact m in io_ret (set_manifest (Some m') d)
     end) in
  let! (d, e) := completeWalAfterFlush cutoff id d in
  let! d :=
    (match e with
     | Some err => io_ret (setBackgroundErr "wal_cleanup" (Some err) d)
     | None => crash_point ;;! io_ret (clearBackgroundErrOp "wal_cleanup" d)
     end) in
  io_ret (maybeTriggerCompaction d).

Definition next_file_id (d : DB) : Z * DB := (nextFileID d + 1, set_nextFileID (nextFileID d + 1) d).

Definition flushImmutable (imm : Mem.SkipList) (cutoff : Z) (d : DB) : io (DB * option error) :=
  match manifest d with
  | None => io_ret (d, Some ErrManifestUnavailable)
  | Some _ =>
      let id := u64 (nextSSTID d + 1) in
      let d := set_nextSSTID id d in
      let path := GoStr.sstFilePath id in
      let! err := write_sst imm path in
      match err with
      | Some e => io_ret (d, Some e)
      | None =>
          crash_point ;;!
          let '(fileID, d) := next_file_id d in
          let! opened := try (SstReader.OpenReader path fileID) in
          match opened with
          | inr e => ignore (fs_remove path) ;;! io_ret (d, Some e)
          | inl r =>
              match manifest d with
              | None => io_res Crashed
              | Some m =>
                  let! (m', err) := Manifest.AppendNewFile m id in
                  let d := set_manifest (Some m') d in
                  match err with
                  | Some e =>
                      ignore (SstReader.Close r) ;;! ignore (fs_remove path) ;;! io_ret (d, Some e)
                  | None => let! d := install_sst id r cutoff d in io_ret (d, None)
                  end
              end
          end
      end
  end.

(** One round of [drainPendingFlush]: whether the loop goes on. *)
Definition drain_round (d : DB) : io (DB * bool) :=
  match pendingFlush d with
  | [] => io_ret (d, false)
  | e :: _ =>
      let! (d, err) := flushImmutable (mem e) (walCutoff e) d in
      match err with
      | Some er =>
          let d := setBackgroundErr "flush" (Some er) d in
          let e' := mkQueueEntry (mem e) (walCutoff e) (retries e + 1) in
          let d := match pendingFlush d with [] => d | _ :: q => set_pendingFlush (e' :: q) d end in
          io_ret (d, true)
      | None =>
          let d := set_pendingFlush (tl (pendingFlush d)) d in
          io_ret (clearBackgroundErrOp "flush" d, true)
      end
  end.

(** [drainPendingFlush], at most [fuel] rounds. *)
Fixpoint drainPendingFlush (fuel : nat) (d : DB) : io (DB * bool) :=
  match fuel with
  | O => io_ret (d, true)
  | S fuel' =>
      let! (d', more) := drain_round d in
      if more then drainPendingFlush fuel' d' else io_ret (d', false)
  end.

End flush.

End DbFlush.
