(* ===== verification/DbWrite.v ===== *)
(** Writes and the group-commit batch (internal/db: write.go, put.go, delete.go,
    sync.go and [flushPendingBatch] of batch.go).

    [flushPendingBatch] is cut at its critical sections into [batch_take],
    [batch_append] and [batch_finish]/[batch_fail]: writers and readers run between
    them. *)

From Stdlib Require Import ZArith Lia.
From S2P Require Import Prelude Word Fs GoStr Memtable Wal Manifest SstReader DbState DbFlush.

Module DbWrite.
Import Db DbFlush.

(** ** flushPendingBatch *)

(** The first critical section, and [batchPersist.begin]. *)
Definition batch_take (d : DB) : list entry * DB :=
  match pendingBatch d with
  | [] => ([], d)
  | _ => let '(batch, d') := takePendingBatchLocked d in (batch, barrier_begin d')
  end.

(** [db.wal.AppendBatch(batch)] without any lock of the database. *)
Definition batch_append (batch : list entry) (d : DB) : io (unit + error) :=
  try (with_wal d (fun w => Wal.AppendBatch w batch)).

(** The error path. *)
Definition batch_fail (batch : list entry) (e : error) (d : DB) : DB :=
  barrier_end (setBackgroundErr "wal" (Some e) (restorePendingBatchLocked d batch)).

(** The second critical section, the notification and [batchPersist.end].  The
    slice [batch[:0]] that replaces an empty queue is the empty queue. *)
Definition batch_finish (batch : list entry) (d : DB) : io (DB * option error) :=
  let d := fold_left applyRecordToMemtable batch d in
  let! (d, (shouldFlush, err)) := maybeFlushLocked d in
  match err with
  | Some e => io_ret (barrier_end d, Some e)
  | None => io_ret (barrier_end (if shouldFlush then notifyFlush d else d), None)
  end.

Definition flushPendingBatch (d : DB) : io (DB * option error) :=
  match batch_take d with
  | ([], d) => io_ret (d, None)
  | (batch, d) =>
      let! r := batch_append batch d in
      match r with
      | inr e => io_ret (batch_fail batch e d, Some e)
      | inl _ => batch_finish batch d
      end
  end.

(** The batch flusher runs [flushPendingBatch] and replies. *)
Definition awaitBatchPersist (d : DB) : io (DB * option error) := flushPendingBatch d.

(** ** writeRecord, Put, Delete *)

(** The critical section of [writeRecord]: the record is queued. *)
Definition enqueue (rec : entry) (d : DB) : DB :=
  let d := set_pendingBatch (pendingBatch d ++ [ownedRecord rec]) d in
  set_batchSizeBytes (batchSizeBytes d + recordWireSize rec) d.

Definition flush_now (d : DB) : bool :=
  syncWrites (cfg d) || (batchMaxRecords <=? zlen (pendingBatch d)) ||
  (batchMaxBytes <=? batchSizeBytes d) ||
  (memtableSize (cfg d) <? Mem.Size (active d) + batchSizeBytes d).

Definition writeRecord (rec : entry) (d : DB) : io (DB * option error) :=
  match writeBlockingBackgroundErr d with
  | Some e => io_ret (d, Some e)
  | None =>
      if closed d then io_ret (d, Some ErrClosed) else
      let d := enqueue rec d in
      if negb (flush_now d) then io_ret (d, None) else awaitBatchPersist d
  end.

Definition Put (key value : bytes) (d : DB) : io (DB * option error) :=
  writeRecord (Entry key value false) d.

Definition Delete (key : bytes) (d : DB) : io (DB * option error) :=
  writeRecord (Entry key [] true) d.

(** ** Sync *)

(** The loop of [Sync]: another round only if writers queued more meanwhile. *)
Fixpoint sync_loop (fuel : nat) (d : DB) : io (DB * option error) :=
  match fuel with
  | O => io_ret (d, Some (os_error 0))
  | S fuel' =>
      if closed d then io_ret (d, Some ErrClosed) else
      let! (d, err) := awaitBatchPersist d in
      match err with
      | Some e => io_ret (d, Some e)
      | None => match pendingBatch d with [] => io_ret (d, None) | _ => sync_loop fuel' d end
      end
  end.

Definition Sync (d : DB) : io (DB * option error) :=
  match writeBlockingBackgroundErr d with
  | Some e => io_ret (d, Some e)
  | None => sync_loop 1 d
  end.

(** * What a write does *)

(** The memory part of the contents: the batch in front of the memtables. *)
Definition queue_layer (q : list flushQueueEntry) : layer :=
  foldr (fun e acc => acc ∪ Mem.contents (mem e)) ∅ q.

Definition memory_layer (d : DB) : layer :=
  log_layer (pendingBatch d) ∪ (Mem.contents (active d) ∪ queue_layer (pendingFlush d)).

(** The memtables are well formed. *)
Definition mem_wf (d : DB) : Prop :=
  Mem.wf (active d) /\ Forall (fun e => Mem.wf (mem e)) (pendingFlush d).

Lemma queue_layer_snoc q e : queue_layer (q ++ [e]) = Mem.contents (mem e) ∪ queue_layer q.
Proof.
  induction q as [|x q IH]; simpl.
  - rewrite (map_empty_union (M := gmap bytes)). symmetry. apply (map_union_empty (M := gmap bytes)).
  - by rewrite IH, (map_union_assoc (M := gmap bytes)).
Qed.

(** Queuing a record puts it in front of everything. *)
Lemma enqueue_layer rec d : memory_layer (enqueue rec d) = <[Key rec := cell rec]> (memory_layer d).
Proof.
  unfold memory_layer, enqueue. cbn. rewrite log_layer_snoc.
  by rewrite <- insert_union_l; destruct rec.
Qed.

(** Freezing moves the active memtable to the end of the queue. *)
Lemma freeze_layer offset d : memory_layer (freeze offset d) = memory_layer d /\
  (mem_wf d -> mem_wf (freeze offset d)).
Proof.
  destruct (Mem.NewSkipList_wf (hd [] (seeds d))) as [Hwf Hsnap]. unfold memory_layer, mem_wf.
  change (active (freeze offset d)) with (Mem.NewSkipList (hd [] (seeds d))).
  change (pendingFlush (freeze offset d)) with (pendingFlush d ++ [mkQueueEntry (active d) offset 0]).
  change (pendingBatch (freeze offset d)) with (pendingBatch d).
  rewrite queue_layer_snoc. split.
  - f_equal. replace (Mem.contents (Mem.NewSkipList (hd [] (seeds d)))) with (∅ : layer);
      [apply (map_empty_union (M := gmap bytes))|]. unfold Mem.contents. by rewrite Hsnap.
  - intros [H1 H2]. split; [done|]. apply Forall_app. split; [done|by constructor].
Qed.

Lemma apply_batch_eq batch : forall d, fold_left applyRecordToMemtable batch d =
  set_active (fold_left apply_record batch (active d)) d.
Proof.
  induction batch as [|rec batch IH]; intros d; [by destruct d|]. cbn [fold_left].
  rewrite IH. by destruct d.
Qed.

(** What a group commit leaves alone. *)
Definition same_tables (d d' : DB) : Prop :=
  sstables d' = sstables d /\ sstablesSnap d' = sstablesSnap d /\ heap d' = heap d /\
  manifest d' = manifest d /\ closed d' = closed d /\ cfg d' = cfg d /\ wal d' = wal d.

(** The outcome of a commit: the memory layer is what it was, and a successful one
    has emptied the batch. *)
Definition commit_post (d : DB) (r : res (DB * option error)) : Prop :=
  match r with
  | Ok (d', e) => memory_layer d' = memory_layer d /\ (mem_wf d -> mem_wf d') /\ same_tables d d' /\
                  inflight d' = inflight d /\ (e = None -> pendingBatch d' = [])
  | Err _ => False
  | Crashed => True
  end.

Lemma io_bind_res {A B} (m : io A) (k : A -> io B) wd :
  fst (io_bind m k wd) = match fst (m wd) with
    | Ok a => fst (k a (snd (m wd))) | Err e => Err e | Crashed => Crashed end.
Proof. unfold io_bind. by destruct (m wd) as [[a|e|] wd']. Qed.

Lemma try_res {A} (m : io A) wd : forall e, fst (try m wd) <> Err e.
Proof. intros e. unfold try. by destruct (m wd) as [[a|e'|] wd']. Qed.

(** The batch applied to the active memtable says what the batch said in front of it. *)
Lemma apply_batch_layer d batch : mem_wf d -> pendingBatch d = [] ->
  let d' := fold_left applyRecordToMemtable batch d in
  memory_layer d' = log_layer batch ∪ memory_layer d /\ mem_wf d' /\ same_tables d d' /\
  pendingBatch d' = [] /\ inflight d' = inflight d.
Proof.
  intros [Ha Hq] Hp. cbn zeta. rewrite apply_batch_eq.
  destruct (apply_records_contents batch (active d) Ha) as [H1 H2].
  unfold memory_layer, mem_wf, same_tables. cbn. rewrite Hp, H2.
  split; [|done]. change (log_layer []) with (∅ : layer).
  by rewrite !(map_empty_union (M := gmap bytes)), (map_union_assoc (M := gmap bytes)).
Qed.

Lemma batch_finish_post d batch wd : mem_wf d -> pendingBatch d = [] ->
  match fst (batch_finish batch d wd) with
  | Ok (d', e) => memory_layer d' = log_layer batch ∪ memory_layer d /\ mem_wf d' /\ same_tables d d' /\
                  pendingBatch d' = [] /\ inflight d' = inflight d - 1
  | Err _ => False
  | Crashed => True
  end.
Proof.
  intros Hwf Hp. destruct (apply_batch_layer d batch Hwf Hp) as (H1 & H2 & H3 & H4 & H5).
  unfold batch_finish. set (d1 := fold_left _ batch d) in *. unfold maybeFlushLocked.
  destruct (Mem.Size (active d1) <=? memtableSize (cfg d1)).
  { cbn. unfold memory_layer in *. cbn. rewrite H5. done. }
  rewrite !io_bind_res. pose proof (try_res (with_wal d1 Wal.Size) wd) as Ht.
  destruct (try (with_wal d1 Wal.Size) wd) as [[[off|e]|e|] wd']; cbn [fst snd] in *; [| |by destruct (Ht e)|done].
  - destruct (freeze_layer off d1) as [F1 F2]. specialize (F2 H2).
    cbn [fst snd io_ret]. unfold notifyFlush, signalFlush. destruct (negb false && closed (freeze off d1)); cbn;
      unfold memory_layer, mem_wf, same_tables in *; cbn in *; rewrite <- H1, <- F1, H5; done.
  - cbn. unfold memory_layer in *. cbn. rewrite H5. done.
Qed.

(** Committing the batch changes neither what the memory says nor the tables,
    whatever the log does. *)
Lemma flushPendingBatch_post d wd : mem_wf d -> commit_post d (fst (flushPendingBatch d wd)).
Proof.
  intros Hwf. unfold flushPendingBatch, batch_take, takePendingBatchLocked.
  destruct (pendingBatch d) as [|rec batch] eqn:Ep; [by cbn; unfold same_tables|].
  set (b := rec :: batch). set (d1 := barrier_begin _). rewrite io_bind_res. unfold batch_append.
  pose proof (try_res (with_wal d1 (fun w => Wal.AppendBatch w b)) wd) as Ht.
  assert (Hm : memory_layer d = log_layer b ∪ memory_layer d1).
  { unfold memory_layer, d1. cbn. rewrite Ep. unfold b. f_equal. unfold log_layer. cbn.
    symmetry. apply (map_empty_union (M := gmap bytes)). }
  destruct (try _ wd) as [[[u|e]|e|] wd']; cbn [fst snd] in *; [| |by destruct (Ht e)|done].
  - pose proof (batch_finish_post d1 b wd' Hwf eq_refl) as H.
    destruct (fst (batch_finish b d1 wd')) as [[d' e]|e|]; [|done..].
    destruct H as (H1 & H2 & H3 & H4 & H5). cbn. rewrite H1, Hm. repeat split; try done; try apply H3; try apply H2.
    unfold d1 in H5. cbn in H5. lia.
  - cbn. unfold memory_layer, same_tables. cbn. rewrite Ep, app_nil_r. repeat split; try done; [apply H|apply H|lia].
Qed.

(** [writeRecord] either refuses and changes nothing, or makes the record the newest
    word on its key, also when the commit it waits for fails. *)
Lemma writeRecord_post rec d wd : mem_wf d ->
  match fst (writeRecord rec d wd) with
  | Ok (d', e) =>
      (d' = d /\ (e = Some ErrClosed /\ closed d = true \/ e = writeBlockingBackgroundErr d /\ e <> None)) \/
      (writeBlockingBackgroundErr d = None /\ closed d = false /\
       memory_layer d' = <[Key rec := cell rec]> (memory_layer d) /\ mem_wf d' /\ same_tables d d')
  | Err _ => False
  | Crashed => True
  end.
Proof.
  intros Hwf. unfold writeRecord. destruct (writeBlockingBackgroundErr d) as [e|] eqn:Eb; [by cbn; left; eauto|].
  destruct (closed d) eqn:Ec; [by cbn; left; eauto|].
  pose proof (enqueue_layer rec d) as He.
  destruct (negb (flush_now (enqueue rec d))).
  { cbn. right. by rewrite He. }
  pose proof (flushPendingBatch_post (enqueue rec d) wd Hwf) as H. unfold awaitBatchPersist.
  destruct (fst (flushPendingBatch (enqueue rec d) wd)) as [[d' e]|e|]; [|done..].
  destruct H as (H1 & H2 & H3 & _). right. rewrite H1, He. repeat split; try done; try by apply H2. all: apply H3.
Qed.

End DbWrite.
