(* ===== verification/DbRead.v ===== *)
(** Reads (internal/db: get.go, scan.go).

    [Get] asks the batch, the memtables and the tables, the newest first.  [Scan]
    merges snapshots of the memory layers with iterators of the tables; its sources
    are the sum of the two kinds of iterator. *)

From Stdlib Require Import ZArith Lia.
From S2P Require Import Prelude Word Fs GoStr Memtable Wal Manifest SstFormat SstWriter SstReader MergeIter.
From S2P Require Import SstMerge DbState DbFlush DbWrite.

Module DbRead.
Import Db SstMerge.

(** * Get (get.go) *)

(** [for i := len(readers) - 1; i >= 0; i--] on the reversed list; the result is
    value and found, a tombstone being found without a value. *)
Fixpoint lookup_readers_rev (rreaders : list SstReader.Reader) (key : bytes) : io (bytes * bool) :=
  match rreaders with
  | [] => io_ret ([], false)
  | r :: rs =>
      if negb (SstReader.MayContain r key) then lookup_readers_rev rs key else
      let! g := try (SstReader.Get r key) in
      match g with
      | inr os_ErrClosed => lookup_readers_rev rs key
      | inr e => io_err e
      | inl (val, hit, tomb) =>
          if hit then (if tomb then io_ret ([], true) else io_ret (val, true))
          else lookup_readers_rev rs key
      end
  end.

Definition lookupSSTReaders (readers : list SstReader.Reader) (key : bytes) : io (bytes * bool) :=
  lookup_readers_rev (rev readers) key.

(** The objects behind the pointers. *)
Definition deref (d : DB) (ps : list nat) : list SstReader.Reader := omap (fun p => heap d !! p) ps.

(** [for i := len(db.pendingFlush) - 1; i >= 0; i--] *)
Fixpoint lookup_queue_rev (rq : list flushQueueEntry) (key : bytes) : bytes * memLookupResult :=
  match rq with
  | [] => ([], memLookupMiss)
  | e :: rq' =>
      match lookupMemtable (mem e) key with
      | (_, memLookupMiss) => lookup_queue_rev rq' key
      | r => r
      end
  end.

(** The part of [Get] under the read lock: the answer of the memory layers. *)
Definition get_memory (d : DB) (key : bytes) : bytes * memLookupResult :=
  match lookupPendingBatch (pendingBatch d) key with
  | (_, memLookupMiss) =>
      match lookupMemtable (active d) key with
      | (_, memLookupMiss) => lookup_queue_rev (rev (pendingFlush d)) key
      | r => r
      end
  | r => r
  end.

(** The handle after the call, and the value or the error. *)
Definition Get (key : bytes) (d : DB) : io (DB * (bytes + error)) :=
  if closed d then io_ret (d, inr ErrClosed) else
  match get_memory d key with
  | (val, memLookupHit) => io_ret (d, inl val)
  | (_, memLookupTombstone) => io_ret (d, inr ErrNotFound)
  | (_, memLookupMiss) =>
      let readers := snapshotSSTables d in
      let d := ref_all readers d in
      let! r := try (lookupSSTReaders (deref d readers) key) in
      let! d := unref_all readers d in
      match r with
      | inr e => io_ret (d, inr e)
      | inl (val, found) =>
          if found then
            if bool_decide (val = []) then io_ret (d, inr ErrNotFound) else io_ret (d, inl val)
          else io_ret (d, inr ErrNotFound)
      end
  end.

(** * Scan (scan.go) *)

Definition scanPriorityPendingBatch : Z := 1000001.
Definition scanPriorityActive : Z := 1000000.
Definition scanPriorityImmutable : Z := 999999.

(** ** [snapshotMemIter] *)

Record snapshotMemIter := mkMemIter { s_entries : list entry; s_idx : nat }.

Definition newSnapshotMemIter (entries : list entry) : snapshotMemIter := mkMemIter entries 0.

Definition s_Valid (s : snapshotMemIter) : bool := (s_idx s <? length (s_entries s))%nat.
Definition s_Key (s : snapshotMemIter) : bytes :=
  match s_entries s !! s_idx s with Some e => Key e | None => [] end.
Definition s_Value (s : snapshotMemIter) : bytes :=
  match s_entries s !! s_idx s with Some e => if Tombstone e then [] else Value e | None => [] end.
Definition s_IsTombstone (s : snapshotMemIter) : bool :=
  match s_entries s !! s_idx s with Some e => Tombstone e | None => false end.
Definition s_Next (s : snapshotMemIter) : snapshotMemIter :=
  if (s_idx s <? length (s_entries s))%nat then mkMemIter (s_entries s) (S (s_idx s)) else s.

(** [for s.idx < len(s.entries) && bytes.Compare(...) < 0 { s.idx++ }] *)
Fixpoint s_seek_loop (entries : list entry) (key : bytes) (idx : nat) : nat :=
  match entries with
  | [] => idx
  | e :: entries' => if bytes_ltb (Key e) key then s_seek_loop entries' key (S idx) else idx
  end.
Definition s_Seek (s : snapshotMemIter) (key : bytes) : snapshotMemIter :=
  mkMemIter (s_entries s) (s_seek_loop (s_entries s) key 0).
Definition s_Close (s : snapshotMemIter) : snapshotMemIter := mkMemIter [] (s_idx s).

(** ** The sources of a scan *)

Inductive ScanSource :=
| MemSource (s : snapshotMemIter)
| SstSource (it : SstReader.Iterator).

#[export] Instance scan_source : MergeIter.Iterator ScanSource := {
  iValid := fun x => match x with MemSource s => s_Valid s | SstSource it => iValid it end;
  iNext := fun x => match x with
    | MemSource s => io_ret (MemSource (s_Next s), None)
    | SstSource it => let! (it', e) := iNext it in io_ret (SstSource it', e)
    end;
  iKey := fun x => match x with MemSource s => s_Key s | SstSource it => iKey it end;
  iValue := fun x => match x with MemSource s => s_Value s | SstSource it => iValue it end;
  iIsTombstone := fun x => match x with MemSource s => s_IsTombstone s | SstSource it => iIsTombstone it end;
  iSeek := fun x key => match x with
    | MemSource s => io_ret (MemSource (s_Seek s key), None)
    | SstSource it => let! (it', e) := iSeek it key in io_ret (SstSource it', e)
    end;
  iClose := fun x => match x with
    | MemSource s => (MemSource (s_Close s), None)
    | SstSource it => let '(it', e) := iClose it in (SstSource it', e)
    end;
  bound := fun x => match x with MemSource s => length (s_entries s) | SstSource it => bound it end
}.

(** ** ScanIterator *)

Record ScanIterator := mkScan {
  sc_merge : Merge.MergeIterator ScanSource;
  sc_end : bytes;
  sc_readers : list nat;
  sc_closed : bool
}.

Definition sc_Valid (it : ScanIterator) : bool :=
  if sc_closed it then false
  else if negb (Merge.m_Valid (sc_merge it)) then false
  else if zlen (sc_end it) =? 0 then true
  else bytes_ltb (Merge.m_Key (sc_merge it)) (sc_end it).

Definition sc_Key (it : ScanIterator) : bytes := Merge.m_Key (sc_merge it).
Definition sc_Value (it : ScanIterator) : bytes := Merge.m_Value (sc_merge it).
Definition sc_IsTombstone (it : ScanIterator) : bool := false.

Definition sc_Next (it : ScanIterator) : io (ScanIterator * option error) :=
  if sc_closed it then io_ret (it, Some ErrClosed) else
  let! (m, e) := Merge.m_Next (sc_merge it) in
  io_ret (mkScan m (sc_end it) (sc_readers it) (sc_closed it), e).

Definition sc_Seek (key : bytes) (it : ScanIterator) : io (ScanIterator * option error) :=
  if sc_closed it then io_ret (it, Some ErrClosed) else
  let! (m, e) := Merge.m_Seek (sc_merge it) key in
  io_ret (mkScan m (sc_end it) (sc_readers it) (sc_closed it), e).

Definition sc_Close (it : ScanIterator) (d : DB) : io (DB * (ScanIterator * option error)) :=
  if sc_closed it then io_ret (d, (it, None)) else
  let '(m, err) := Merge.m_Close (sc_merge it) in
  let! d := unref_all (sc_readers it) d in
  io_ret (d, (mkScan m (sc_end it) [] true, err)).

(** The memory sources with their priorities, in the order they are appended. *)
Definition queue_sources (q : list flushQueueEntry) : list (list entry * Z) :=
  imap (fun i e => (Mem.Snapshot (mem e), scanPriorityImmutable - Z.of_nat i)) (rev q).

Definition memory_sources (d : DB) : list (list entry * Z) :=
  (let snap := snapshotPendingBatch (pendingBatch d) in
   if 0 <? zlen snap then [(snap, scanPriorityPendingBatch)] else []) ++
  [(Mem.Snapshot (active d), scanPriorityActive)] ++
  queue_sources (pendingFlush d).

Definition Scan (start end_ : bytes) (d : DB) : io (DB * (ScanIterator + error)) :=
  if closed d then io_ret (d, inr ErrClosed) else
  let mems := memory_sources d in
  let readers := snapshotSSTables d in
  let d := ref_all readers d in
  let! its := SstMerge.open_iterators (deref d readers) in
  let sources := ((fun s => MemSource (newSnapshotMemIter s.1)) <$> mems) ++ (SstSource <$> its) in
  let priorities := (snd <$> mems) ++ SstMerge.index_priorities (length its) in
  match Merge.NewMergeIterator sources priorities with
  | Crashed => io_res Crashed
  | Err e => let! d := unref_all readers d in io_ret (d, inr e)
  | Ok merge =>
      let! (merge, err) := Merge.m_Seek merge start in
      match err with
      | Some e =>
          let '(_, _) := Merge.m_Close merge in
          let! d := unref_all readers d in io_ret (d, inr e)
      | None => io_ret (d, inl (mkScan merge end_ readers false))
      end
  end.

(** Walking a scan to its end: [for it.Valid() { ...; it.Next() }]. *)
Fixpoint scan_walk (fuel : nat) (it : ScanIterator) (acc : list (bytes * bytes))
  : io (list (bytes * bytes) * option error) :=
  match fuel with
  | O => io_ret (acc, None)
  | S fuel' =>
      if sc_Valid it then
        let acc := acc ++ [(sc_Key it, sc_Value it)] in
        let! (it', e) := sc_Next it in
        match e with Some er => io_ret (acc, Some er) | None => scan_walk fuel' it' acc end
      else io_ret (acc, None)
  end.

(** * What [Get] returns *)

(** A live, open reader. *)
Definition live (r : SstReader.Reader) : Prop := SstReader.r_closePending r = false.

(** The handle and the directory agree: memtables well formed, the published
    readers live, and reader [i] of them reads the table [tables !! i]. *)
Record readable (d : DB) (f : fsys) (tables : list (list (list entry))) : Prop := {
  rd_mem : DbWrite.mem_wf d;
  rd_snap : sstablesSnap d = sstables d;
  rd_tables : Forall2 (fun p groups => exists r, heap d !! p = Some r /\ live r /\ SstReader.table f r groups)
                (sstables d) tables
}.

(** The abstract contents of the database. *)
Definition disk_layer (tables : list (list (list entry))) : layer := layers (@concat entry <$> tables).

Definition contents (d : DB) (tables : list (list (list entry))) : layer :=
  DbWrite.memory_layer d ∪ disk_layer tables.

(** The order of the memory layers. *)
Lemma lookup_queue_layer q key : Forall (fun e => Mem.wf (mem e)) q ->
  looked_up (lookup_queue_rev (rev q) key) = DbWrite.queue_layer q !! key.
Proof.
  intros Hq. induction q as [|e q IH] using rev_ind; [done|].
  apply Forall_app in Hq as [Hq He]. apply Forall_cons in He as [He _].
  rewrite rev_app_distr, DbWrite.queue_layer_snoc. cbn [rev app lookup_queue_rev].
  rewrite lookup_union, <- (lookupMemtable_layer _ _ He), <- (IH Hq).
  destruct (lookupMemtable (mem e) key) as [v []]; cbn.
  - by destruct (looked_up _).
  - by destruct (looked_up _).
  - by destruct (looked_up _).
Qed.

Lemma get_memory_layer d key : DbWrite.mem_wf d ->
  looked_up (get_memory d key) = DbWrite.memory_layer d !! key.
Proof.
  intros [Ha Hq]. unfold get_memory, DbWrite.memory_layer.
  rewrite !lookup_union, <- lookupPendingBatch_layer, <- (lookupMemtable_layer _ _ Ha),
    <- (lookup_queue_layer _ _ Hq).
  destruct (lookupPendingBatch (pendingBatch d) key) as [v []]; cbn;
    [|by destruct (looked_up _), (looked_up _)..].
  destruct (lookupMemtable (active d) key) as [v' []]; cbn; by destruct (looked_up _).
Qed.

(** ** References are balanced *)

Lemma set_heap_eq d h : heap d = h -> set_heap h d = d.
Proof. intros <-. by destruct d. Qed.

Lemma ref_reader_heap p d : ref_reader p d = set_heap (alter SstReader.Ref p (heap d)) d.
Proof.
  unfold ref_reader. destruct (heap d !! p) as [r|] eqn:E.
  - f_equal. apply map_eq. intros q. rewrite lookup_insert, lookup_alter.
    case_decide; [subst|done]. by rewrite E.
  - symmetry. apply set_heap_eq. apply map_eq. intros q. rewrite lookup_alter.
    case_decide; [subst|done]. by rewrite E.
Qed.

Lemma ref_all_heap ps d : ref_all ps d = set_heap (fold_left (fun h p => alter SstReader.Ref p h) ps (heap d)) d.
Proof.
  revert d. induction ps as [|p ps IH]; intros d; simpl.
  - symmetry. by apply set_heap_eq.
  - rewrite IH, ref_reader_heap. by destruct d.
Qed.

Lemma ref_all_comm p ps (h : gmap nat SstReader.Reader) :
  fold_left (fun h p => alter SstReader.Ref p h) ps (alter SstReader.Ref p h) =
  alter SstReader.Ref p (fold_left (fun h p => alter SstReader.Ref p h) ps h).
Proof.
  revert h. induction ps as [|q ps IH]; intros h; [done|]. simpl. rewrite <- IH. f_equal.
  destruct (decide (p = q)) as [->|Hne]; [done|]. by rewrite alter_alter_ne.
Qed.

Lemma ref_all_lookup ps (h : gmap nat SstReader.Reader) p r :
  h !! p = Some r -> exists n, fold_left (fun h p => alter SstReader.Ref p h) ps h !! p =
    Some (SstReader.set_refs r n).
Proof.
  revert h r. induction ps as [|q ps IH]; intros h r Hp; simpl.
  - exists (SstReader.r_refs r). rewrite Hp. by destruct r.
  - destruct (decide (p = q)) as [->|Hne].
    + destruct (IH (alter SstReader.Ref q h) (SstReader.Ref r)) as [n Hn].
      { by rewrite lookup_alter_eq, Hp. }
      exists n. rewrite Hn. by destruct r.
    + apply (IH (alter SstReader.Ref q h) r). by rewrite lookup_alter_ne.
Qed.

Lemma unref_ref_quiet p d w r : heap d !! p = Some r -> live r ->
  unref_reader p (ref_reader p d) w = (Ok d, w).
Proof.
  intros Hp Hl. unfold unref_reader, on_reader, ref_reader. rewrite Hp. cbn [heap set_heap].
  rewrite lookup_insert_eq. unfold io_bind, SstReader.Unref. cbn. unfold live in Hl. rewrite Hl, andb_false_r.
  unfold io_ret. do 2 f_equal. rewrite insert_insert_eq.
  assert (Hr : SstReader.set_refs (SstReader.Ref r) (SstReader.r_refs r + 1 - 1) = r).
  { destruct r. unfold SstReader.set_refs. cbn. f_equal. lia. }
  cbn. rewrite Hr, (insert_id _ _ _ Hp). by destruct d.
Qed.

(** Taking and dropping the references gives the handle back. *)
Lemma unref_ref_all ps d w : Forall (fun p => exists r, heap d !! p = Some r /\ live r) ps ->
  unref_all ps (ref_all ps d) w = (Ok d, w).
Proof.
  intros Hps. induction ps as [|p ps IH]; [done|].
  apply Forall_cons in Hps as [(r & Hr & Hl) Hps]. cbn [unref_all].
  assert (E : ref_all (p :: ps) d = ref_reader p (ref_all ps d)).
  { rewrite ref_reader_heap, !ref_all_heap. cbn [fold_left heap set_heap]. rewrite ref_all_comm. by destruct d. }
  rewrite E. destruct (ref_all_lookup ps (heap d) p r Hr) as [n Hn].
  rewrite (io_bind_ok _ _ _ _ _ (unref_ref_quiet p (ref_all ps d) w (SstReader.set_refs r n)
    ltac:(rewrite ref_all_heap; exact Hn) Hl)).
  by apply IH.
Qed.

(** ** The tables *)

(** Value and found for the entry of a key, if there is one. *)
Definition sst_answer (o : option entry) : bytes * bool :=
  match o with
  | None => ([], false)
  | Some e => if Tombstone e then ([], true) else (Value e, true)
  end.

Lemma lookup_readers_quiet f key rs tables : Forall2 (SstReader.table f) rs tables ->
  lookupSSTReaders rs key (mkWorld f []) =
    (Ok (sst_answer (find_newest key (@concat entry <$> tables))), mkWorld f []).
Proof.
  intros HF. unfold lookupSSTReaders. revert tables HF.
  induction rs as [|r rs IH] using rev_ind; intros tables HF.
  { by apply Forall2_nil_inv_l in HF as ->. }
  apply Forall2_app_inv_l in HF as (ts & t' & HF & Ht & ->).
  apply Forall2_cons_inv_l in Ht as (t & t'' & Ht & Hnil & ->). apply Forall2_nil_inv_l in Hnil as ->.
  rewrite rev_app_distr. cbn [rev app lookup_readers_rev].
  assert (Hnew : find_newest key (@concat entry <$> (ts ++ [t])) =
    match find_entry key (concat t) with Some e => Some e
    | None => find_newest key (@concat entry <$> ts) end).
  { clear. induction ts as [|x ts IH]; csimpl; [by destruct (find_entry key (concat t))|].
    rewrite IH. by destruct (find_entry key (concat t)). }
  rewrite Hnew. destruct (SstReader.MayContain r key) eqn:Em; cbn [negb].
  - destruct (reads_quiet _ f _ (SstReader.Get_reads (mkWorld f []) r t key Ht)) as (x & Hg & ->).
    rewrite (bind_try_ok _ _ _ _ _ Hg). unfold SstReader.found.
    destruct (find_entry key (concat t)) as [e|]; [|by apply IH].
    cbn. by destruct (Tombstone e).
  - destruct (find_entry key (concat t)) as [e|] eqn:Ef; [|by apply IH].
    apply find_entry_Some in Ef as [He <-]. destruct Ht. unfold SstReader.MayContain in Em.
    destruct (SstReader.r_bloom r) as [b|]; [|done]. by rewrite t_bloom in Em.
Qed.

Lemma table_refs f r groups n : SstReader.table f r groups -> SstReader.table f (SstReader.set_refs r n) groups.
Proof. intros []. by split. Qed.

Lemma deref_ref_all d f ps tables :
  Forall2 (fun p groups => exists r, heap d !! p = Some r /\ live r /\ SstReader.table f r groups) ps tables ->
  forall qs, Forall2 (SstReader.table f) (deref (ref_all qs d) ps) tables.
Proof.
  intros HF qs. induction HF as [|p t ps tables (r & Hr & _ & Ht) _ IH]; [constructor|].
  unfold deref in *. csimpl. rewrite ref_all_heap in *. cbn [heap set_heap] in *.
  destruct (ref_all_lookup qs (heap d) p r Hr) as [n ->]. constructor; [by apply table_refs|done].
Qed.

(** What the caller of [Get] receives for the entry that wins.  The tables cannot
    tell an empty value from a deletion. *)
Definition get_answer (memory : option (option bytes)) (disk : option (option bytes)) : bytes + error :=
  match memory with
  | Some (Some v) => inl v
  | Some None => inr ErrNotFound
  | None => match disk with
            | Some (Some v) => if bool_decide (v = []) then inr ErrNotFound else inl v
            | _ => inr ErrNotFound
            end
  end.

Lemma Get_quiet d f tables key : readable d f tables -> closed d = false ->
  Get key d (mkWorld f []) =
    (Ok (d, get_answer (DbWrite.memory_layer d !! key) (disk_layer tables !! key)), mkWorld f []).
Proof.
  intros [Hm Hs HF] Hc. unfold Get. rewrite Hc. rewrite <- (get_memory_layer d key Hm).
  destruct (get_memory d key) as [v []]; cbn [looked_up get_answer]; try done.
  unfold snapshotSSTables. rewrite Hs.
  assert (Hlive : Forall (fun p => exists r, heap d !! p = Some r /\ live r) (sstables d)).
  { apply Forall_forall. intros p Hp. apply list_elem_of_lookup in Hp as [i Hi].
    destruct (Forall2_lookup_l _ _ _ _ _ HF Hi) as (t & _ & r & ? & ? & _). by exists r. }
  rewrite (bind_try_ok _ _ _ _ _ (lookup_readers_quiet f key _ tables
    (deref_ref_all d f (sstables d) tables HF (sstables d)))).
  rewrite (io_bind_ok _ _ _ _ _ (unref_ref_all (sstables d) d _ Hlive)).
  unfold disk_layer. rewrite <- find_newest_layers.
  destruct (find_newest key (@concat entry <$> tables)) as [e|]; [|done]. cbn. unfold cell.
  destruct (Tombstone e); cbn; [done|]. by destruct (bool_decide (Value e = [])).
Qed.

End DbRead.
