(* ===== verification/DbScan.v ===== *)
(** What a scan returns (internal/db/scan.go, over the definitions of DbRead.v). *)

From Stdlib Require Import ZArith Lia.
From S2P Require Import Prelude Word Fs GoStr Memtable Wal Manifest SstFormat SstWriter SstReader MergeIter.
From S2P Require Import SstMerge DbState DbFlush DbWrite DbRead.

Module DbScan.
Import Db SstMerge DbRead.

(** * The sources keep the promise of the merge *)

(** Tombstones carry no value. *)
Definition bare (e : entry) : Prop := Tombstone e = true -> Value e = [].

Section spec.
Context (G : fsys -> Prop).

Definition source_rep (x : ScanSource) (es : list entry) : Prop :=
  match x with
  | MemSource s => drop (s_idx s) (s_entries s) = es /\ Forall bare (s_entries s)
  | SstSource it => table_rep G it es
  end.

Definition source_full (x : ScanSource) (all : list entry) : Prop :=
  match x with
  | MemSource s => s_entries s = all /\ Forall bare all
  | SstSource it => table_full G it all
  end.

Lemma s_seek_loop_drop entries key i :
  exists j, s_seek_loop entries key i = (i + j)%nat /\ drop j entries = skip_below key entries.
Proof.
  revert i. induction entries as [|e es IH]; intros i; cbn [s_seek_loop skip_below].
  - exists 0%nat. split; [lia|done].
  - destruct (bytes_ltb (Key e) key).
    + destruct (IH (S i)) as (j & -> & Hd). exists (S j). split; [lia|done].
    + exists 0%nat. split; [lia|done].
Qed.

#[export] Program Instance scan_source_spec : MergeIter.IteratorSpec ScanSource G := {
  rep := source_rep;
  full := source_full
}.
Next Obligation.
  intros [s|it] es; simpl.
  - intros [<- _]. rewrite length_drop. lia.
  - apply (rep_bound (IteratorSpec := table_iterator_spec G)).
Qed.
Next Obligation.
  intros [s|it]; simpl.
  - intros [H _]. unfold s_Valid. apply Nat.ltb_ge.
    apply (f_equal length) in H. rewrite length_drop in H. simpl in H. lia.
  - apply (rep_nil (IteratorSpec := table_iterator_spec G)).
Qed.
Next Obligation.
  intros [s|it] e es; simpl.
  - intros [H Hb]. assert (Hl : s_entries s !! s_idx s = Some e).
    { rewrite <- (Nat.add_0_r (s_idx s)), <- lookup_drop, H. done. }
    unfold s_Valid, s_Key, s_Value, s_IsTombstone. rewrite Hl. split.
    + apply Nat.ltb_lt. by apply lookup_lt_Some in Hl.
    + pose proof (Forall_lookup_1 _ _ _ _ Hb Hl) as He. unfold bare in He.
      destruct e as [k v t]. cbn in *. destruct t; [|done]. by rewrite He.
  - apply (rep_cons (IteratorSpec := table_iterator_spec G)).
Qed.
Next Obligation.
  intros w [s|it] e es HG; simpl.
  - intros [H Hb]. apply reads_ret. left. simpl. split; [done|]. unfold s_Next.
    assert (Hl : (s_idx s < length (s_entries s))%nat).
    { apply (f_equal length) in H. rewrite length_drop in H. simpl in H. lia. }
    rewrite (proj2 (Nat.ltb_lt _ _) Hl). cbn. split; [|done].
    change (S (s_idx s)) with (1 + s_idx s)%nat. rewrite Nat.add_comm, <- drop_drop, H. done.
  - intros Hrep. apply reads_in_reads. eapply reads_in_bind.
    + eapply reads_reads_in; [exact (fun H => H)|].
      apply (rep_next (IteratorSpec := table_iterator_spec G) w it e es HG Hrep).
    + intros [it' er] w' Hcase _ Hq. apply reads_reads_in; [|apply reads_ret].
      * intros H1 H2. by apply H1, Hq.
      * destruct Hcase as [[H1 Hr]|[Hf He]]; simpl in *; [left; by subst|by right].
Qed.
Next Obligation.
  intros w [s|it] all key HG; simpl.
  - intros [<- Hb]. apply reads_ret. left. simpl. split; [done|].
    destruct (s_seek_loop_drop (s_entries s) key 0) as (j & -> & Hd). simpl. done.
  - intros Hfull. apply reads_in_reads. eapply reads_in_bind.
    + eapply reads_reads_in; [exact (fun H => H)|].
      apply (full_seek (IteratorSpec := table_iterator_spec G) w it all key HG Hfull).
    + intros [it' er] w' Hcase _ Hq. apply reads_reads_in; [|apply reads_ret].
      * intros H1 H2. by apply H1, Hq.
      * destruct Hcase as [[H1 Hr]|[Hf He]]; simpl in *; [left; by subst|by right].
Qed.

End spec.

(** * Priorities *)

(** Sources of lower priority do not change the choice. *)
Lemma better_stays k l acc : Forall (fun s => s.2 <= acc.1) l -> fold_left (Merge.better k) l acc = acc.
Proof.
  revert acc. induction l as [|s l IH]; intros acc Hl; [done|]. apply Forall_cons in Hl as [Hs Hl].
  simpl. assert (E : Merge.better k acc s = acc).
  { unfold Merge.better. destruct (find_entry k s.1); [|done].
    by replace (acc.1 <? s.2) with false by lia. }
  rewrite E. by apply IH.
Qed.

Lemma better_none k l acc : Forall (fun s => find_entry k s.1 = None) l -> fold_left (Merge.better k) l acc = acc.
Proof.
  revert acc. induction l as [|s l IH]; intros acc Hl; [done|]. apply Forall_cons in Hl as [Hs Hl].
  simpl. unfold Merge.better at 2. rewrite Hs. by apply IH.
Qed.

(** The first list that has the key. *)
Fixpoint find_first (k : bytes) (ls : list (list entry)) : option entry :=
  match ls with
  | [] => None
  | l :: ls' => match find_entry k l with Some e => Some e | None => find_first k ls' end
  end.

(** With falling priorities the first source that has the key is chosen. *)
Lemma best_falling k l : StronglySorted (fun s s' => s'.2 <= s.2) l -> Forall (fun s => 0 <= s.2) l ->
  fold_left (Merge.better k) l (-1, None) =
  match fold_right (fun s o => match find_entry k s.1 with Some e => Some (s.2, Some e) | None => o end) None l with
  | Some r => r | None => (-1, None)
  end.
Proof.
  induction 1 as [|s l Hs IH Hf]; intros Hp; [done|]. apply Forall_cons in Hp as [Hp0 Hp]. simpl.
  unfold Merge.better at 2. destruct (find_entry k s.1) as [e|]; [|by apply IH].
  simpl. replace (-1 <? s.2) with true by lia. by apply better_stays.
Qed.

Lemma fold_find_first k (l : list (list entry * Z)) :
  match fold_right (fun s o => match find_entry k s.1 with Some e => Some (s.2, Some e) | None => o end) None l with
  | Some r => r.2 = find_first k (fst <$> l) /\ is_Some r.2 /\ exists s, s ∈ l /\ r.1 = s.2
  | None => find_first k (fst <$> l) = None
  end.
Proof.
  induction l as [|s l IH]; [done|]. csimpl. destruct (find_entry k s.1) as [e|].
  - split; [done|]. split; [done|]. exists s. split; [constructor|done].
  - destruct (fold_right _ _ l) as [r|]; [|done]. destruct IH as (H1 & H2 & s' & Hs & H3).
    split; [done|]. split; [done|]. exists s'. split; [by constructor|done].
Qed.

(** Memory sources of falling priority in front of lower ones. *)
Lemma best_falling_app k hi lo : StronglySorted (fun s s' => s'.2 <= s.2) hi ->
  Forall (fun s => 0 <= s.2) hi -> (forall s s', s ∈ hi -> s' ∈ lo -> s'.2 <= s.2) ->
  Merge.best k (hi ++ lo) =
    match find_first k (fst <$> hi) with Some e => Some e | None => Merge.best k lo end.
Proof.
  intros Hs Hp Hlt. unfold Merge.best. rewrite fold_left_app, (best_falling k hi Hs Hp).
  pose proof (fold_find_first k hi) as H. destruct (fold_right _ _ hi) as [r|]; [|by rewrite H].
  destruct H as (H1 & [e H2] & s & Hin & H3). rewrite <- H1, H2.
  rewrite better_stays; [done|]. apply Forall_forall. intros s' Hs'. rewrite H3. by apply Hlt.
Qed.

(** * The sources of a scan *)

Definition scan_sources (d : DB) (tables : list (list (list entry))) : list (list entry * Z) :=
  memory_sources d ++ sources_of (@concat entry <$> tables).

(** So few layers that every memory layer has a higher priority than any table. *)
Definition few_layers (d : DB) : Prop := zlen (pendingFlush d) + zlen (sstables d) <= 999999.

Lemma find_first_layer k ls : cell <$> find_first k ls = foldr (fun l acc => layer_of l ∪ acc) ∅ ls !! k.
Proof.
  induction ls as [|l ls IH]; [done|]. simpl. rewrite lookup_union, <- IH, find_entry_layer.
  destruct (find_entry k l); simpl; [by destruct (find_first k ls)|]. by destruct (find_first k ls).
Qed.

Lemma queue_sources_layer q : foldr (fun l acc => layer_of l ∪ acc) ∅ (fst <$> queue_sources q) =
  DbWrite.queue_layer q.
Proof.
  unfold queue_sources. generalize scanPriorityImmutable as pri. intros pri.
  assert (E : fst <$> imap (fun i e => (Mem.Snapshot (mem e), pri - Z.of_nat i)) (rev q) =
    (fun e => Mem.Snapshot (mem e)) <$> rev q).
  { rewrite fmap_imap. rewrite <- imap_const. apply imap_ext. done. }
  rewrite E. clear E. induction q as [|e q IH] using rev_ind; [done|].
  rewrite rev_app_distr, DbWrite.queue_layer_snoc. csimpl. by rewrite IH.
Qed.

Lemma memory_sources_layer d k :
  cell <$> find_first k (fst <$> memory_sources d) = DbWrite.memory_layer d !! k.
Proof.
  rewrite find_first_layer. unfold memory_sources, DbWrite.memory_layer.
  destruct (snapshotPendingBatch_spec (pendingBatch d)) as [_ Hb].
  rewrite fmap_app, foldr_app, (fmap_app _ [_]), foldr_app.
  rewrite (queue_sources_layer (pendingFlush d)). csimpl. fold (Mem.contents (active d)). rewrite <- Hb.
  destruct (0 <? zlen (snapshotPendingBatch (pendingBatch d))) eqn:E; [done|].
  rewrite (zlen_nil_inv (snapshotPendingBatch (pendingBatch d))) by lia.
  change (layer_of []) with (∅ : layer). by rewrite (map_empty_union (M := gmap bytes)).
Qed.

Lemma queue_sources_priority q s : s ∈ queue_sources q ->
  scanPriorityImmutable - zlen q < s.2 <= scanPriorityImmutable.
Proof.
  unfold queue_sources. intros Hs. apply elem_of_lookup_imap in Hs as (i & e & -> & Hi).
  apply lookup_lt_Some in Hi. rewrite length_rev in Hi. unfold zlen. simpl. lia.
Qed.

Lemma queue_sources_falling q : StronglySorted (fun s s' => s'.2 <= s.2) (queue_sources q).
Proof.
  unfold queue_sources. generalize scanPriorityImmutable as pri. generalize (rev q) as l.
  induction l as [|e l IH]; intros pri; [constructor|]. rewrite imap_cons. constructor.
  - rewrite (imap_ext _ (fun i e => (Mem.Snapshot (mem e), pri - 1 - Z.of_nat i))); [apply IH|].
    intros i x _. simpl. f_equal. lia.
  - apply Forall_forall. intros s Hs. apply elem_of_lookup_imap in Hs as (i & x & -> & _). simpl. lia.
Qed.

Lemma memory_sources_falling d : StronglySorted (fun s s' => s'.2 <= s.2) (memory_sources d).
Proof.
  assert (H1 : StronglySorted (fun s s' => s'.2 <= s.2)
    ([(Mem.Snapshot (active d), scanPriorityActive)] ++ queue_sources (pendingFlush d))).
  { simpl. constructor; [apply queue_sources_falling|]. apply Forall_forall. intros s Hs.
    apply queue_sources_priority in Hs. unfold scanPriorityImmutable, scanPriorityActive in *. simpl. lia. }
  unfold memory_sources. destruct (0 <? _); [|done]. simpl in *. constructor; [done|].
  constructor; [unfold scanPriorityActive, scanPriorityPendingBatch; simpl; lia|].
  apply Forall_forall. intros s Hs. apply queue_sources_priority in Hs.
  unfold scanPriorityImmutable, scanPriorityPendingBatch in *. simpl. lia.
Qed.

Lemma memory_sources_high d s : s ∈ memory_sources d ->
  scanPriorityImmutable - zlen (pendingFlush d) < s.2.
Proof.
  pose proof (zlen_nonneg (pendingFlush d)).
  unfold memory_sources, scanPriorityImmutable, scanPriorityActive, scanPriorityPendingBatch.
  intros [Hs|[Hs|Hs]%elem_of_app]%elem_of_app.
  - destruct (0 <? _); [|by apply not_elem_of_nil in Hs]. apply list_elem_of_singleton in Hs as ->.
    simpl. lia.
  - apply list_elem_of_singleton in Hs as ->. simpl. lia.
  - apply queue_sources_priority in Hs. unfold scanPriorityImmutable in Hs. lia.
Qed.

Lemma table_priorities ls s : s ∈ sources_of ls -> 0 <= s.2 < zlen ls.
Proof.
  unfold sources_of, index_priorities. destruct s as [l p]. intros Hs. apply elem_of_zip_r in Hs.
  simpl.
  apply list_elem_of_fmap in Hs as (i & -> & Hi). apply elem_of_seq in Hi. unfold zlen. lia.
Qed.

(** The winner of the merge is what the contents of the database say. *)
Lemma scan_best d f tables k : readable d f tables -> few_layers d ->
  cell <$> Merge.best k (scan_sources d tables) = contents d tables !! k.
Proof.
  intros [_ _ HF] Hfew. unfold scan_sources, contents, disk_layer. unfold few_layers in Hfew.
  apply Forall2_length in HF. assert (Hl : zlen tables = zlen (sstables d)) by (unfold zlen; lia).
  rewrite best_falling_app.
  - rewrite lookup_union, <- memory_sources_layer, <- find_newest_layers, <- best_newest.
    destruct (find_first k (fst <$> memory_sources d)); simpl;
      by destruct (Merge.best k (sources_of (@concat entry <$> tables))).
  - apply memory_sources_falling.
  - apply Forall_forall. intros s Hs. apply memory_sources_high in Hs. unfold scanPriorityImmutable in *.
    pose proof (zlen_nonneg (sstables d)). lia.
  - intros s s' Hs Hs'. apply memory_sources_high in Hs. apply table_priorities in Hs'.
    unfold zlen in Hs' at 1. rewrite length_fmap in Hs'. unfold scanPriorityImmutable, zlen in *. lia.
Qed.

(** * The scan *)

Lemma SnapshotEntry_bare fuel ns x : Forall bare (Mem.snapshot_loop fuel ns x).
Proof.
  revert x. induction fuel as [|fuel IH]; intros [x|]; simpl; try constructor.
  destruct (ns !! x) as [nd|]; [|constructor]. constructor; [|apply IH].
  unfold bare, Mem.SnapshotEntry. simpl. by intros ->.
Qed.

Lemma snapshotPendingBatch_bare batch : Forall bare (snapshotPendingBatch batch).
Proof.
  unfold snapshotPendingBatch. destruct batch as [|r batch]; [constructor|].
  apply Forall_forall. intros e He. apply list_elem_of_omap in He as (k & _ & Hk).
  apply fmap_Some in Hk as (rec & _ & ->). unfold bare. simpl. by intros ->.
Qed.

Lemma memory_sources_ok d s : DbWrite.mem_wf d -> s ∈ memory_sources d ->
  Forall bare s.1 /\ keys_sorted s.1.
Proof.
  intros [Ha Hq] [Hs|[Hs|Hs]%elem_of_app]%elem_of_app.
  - cbv zeta in Hs. destruct (0 <? zlen (snapshotPendingBatch (pendingBatch d))); [|by apply not_elem_of_nil in Hs]. apply list_elem_of_singleton in Hs as ->.
    split; [apply snapshotPendingBatch_bare|apply snapshotPendingBatch_spec].
  - apply list_elem_of_singleton in Hs as ->.
    split; [apply SnapshotEntry_bare|by apply Mem.Snapshot_sorted].
  - apply elem_of_lookup_imap in Hs as (i & e & -> & Hi). split; [apply SnapshotEntry_bare|].
    simpl. apply Mem.Snapshot_sorted. rewrite Forall_forall in Hq. apply Hq.
    apply list_elem_of_lookup_2 in Hi. by apply list_elem_of_In, in_rev, list_elem_of_In in Hi.
Qed.

Lemma scan_sources_ok d f tables : readable d f tables -> few_layers d ->
  Forall Merge.src_ok (scan_sources d tables).
Proof.
  intros [Hm _ HF] Hfew. apply Forall_app. split.
  - apply Forall_forall. intros s Hs. split; [by apply (memory_sources_ok d)|].
    apply memory_sources_high in Hs. unfold few_layers, scanPriorityImmutable in *.
    pose proof (zlen_nonneg (sstables d)). lia.
  - apply sources_ok. apply Forall_fmap, Forall_forall. intros g Hg. apply list_elem_of_lookup in Hg as [i Hi].
    destruct (Forall2_lookup_r _ _ _ _ _ HF Hi) as (p & _ & r & _ & _ & Ht). apply (SstReader.t_sorted _ _ _ Ht).
Qed.

Lemma open_iterators_full f readers tables : Forall2 (SstReader.table f) readers tables ->
  exists its, open_iterators readers (mkWorld f []) = (Ok its, mkWorld f []) /\
    Forall2 (fun it groups => table_full (eq f) it (concat groups)) its tables.
Proof.
  induction 1 as [|r groups readers groupss Hr _ (its & IHe & IHr)]; [by exists []|].
  assert (Ha : always_table (eq f) r groups).
  { split; [by intros f' <-|]. split; [apply (SstReader.t_index _ _ _ Hr)|apply (SstReader.t_size _ _ _ Hr)]. }
  cbn [open_iterators]. destruct (NewIterator_rep (eq f) f r groups eq_refl Ha) as (it & E & _ & Hfull).
  rewrite (io_bind_ok _ _ _ _ _ E), (io_bind_ok _ _ _ _ _ IHe). eexists. split; [done|]. by constructor.
Qed.

(** The entries of a range, as the merge delivers them. *)
Definition scan_entries (start : bytes) (d : DB) (tables : list (list (list entry))) : list entry :=
  Merge.visible true (Merge.merged ((fun l => (skip_below start l.1, l.2)) <$> scan_sources d tables)).

Lemma Scan_quiet start end_ d f tables : readable d f tables -> few_layers d -> closed d = false ->
  Forall Merge.keys_nonempty (scan_sources d tables) ->
  exists it d', Scan start end_ d (mkWorld f []) = (Ok (d', inl it), mkWorld f []) /\
    Merge.m_rep (eq f) (sc_merge it) (scan_entries start d tables) /\
    sc_end it = end_ /\ sc_closed it = false /\ sc_readers it = sstables d /\
    d' = ref_all (sstables d) d.
Proof.
  intros Hrd Hfew Hc Hne. pose proof Hrd as [Hm Hs HF]. unfold Scan. rewrite Hc.
  unfold snapshotSSTables. rewrite Hs.
  destruct (open_iterators_full f _ tables (deref_ref_all d f _ tables HF (sstables d))) as (its & E & Hits).
  rewrite (io_bind_ok _ _ _ _ _ E).
  set (sources := _ ++ (SstSource <$> its)). set (priorities := (snd <$> memory_sources d) ++ _).
  assert (Hlen : length its = length tables) by by apply Forall2_length in Hits.
  assert (Hfull : Forall2 (fun s l => full (IteratorSpec := scan_source_spec (eq f)) (Merge.src_it s) l.1 /\
      Merge.priority s = l.2) (Merge.make_sources sources priorities) (scan_sources d tables)).
  { unfold Merge.make_sources, sources, priorities, scan_sources.
    rewrite zip_with_app by by rewrite !length_fmap. apply Forall2_app.
    - rewrite zip_with_fmap_l, zip_with_fmap_r, zip_with_diag. apply Forall2_fmap_l, Forall_Forall2_diag.
      apply Forall_forall. intros s Hs'. simpl. split; [|done]. split; [done|]. by apply (memory_sources_ok d).
    - unfold sources_of. rewrite length_fmap, <- Hlen. unfold index_priorities.
      generalize 0%nat as i. clear -Hits.
      induction Hits as [|it g its gs Hg _ IH]; intros i; [constructor|].
      cbn [length seq]. rewrite !fmap_cons. cbn [zip_with]. constructor; [done|apply IH]. }
  assert (Hlp : length sources = length priorities).
  { unfold sources, priorities, index_priorities. rewrite !length_app, !length_fmap, length_seq. done. }
  unfold Merge.NewMergeIterator. rewrite Hlp, Nat.eqb_refl. cbn [negb].
  destruct (Merge.m_Seek_quiet (eq f) (Merge.mkMerge (Merge.make_sources sources priorities) [] [] false None)
    start f (scan_sources d tables) eq_refl Hfull (scan_sources_ok d f tables Hrd Hfew) Hne) as (m & Hseek & Hrep).
  rewrite (io_bind_ok _ _ _ _ _ Hseek). eexists _, _. split; [done|]. done.
Qed.

(** The entries before the end of the range. *)
Fixpoint before (end_ : bytes) (es : list entry) : list entry :=
  match es with
  | [] => []
  | e :: es' => if (zlen end_ =? 0) || bytes_ltb (Key e) end_ then e :: before end_ es' else []
  end.

Definition pairs (es : list entry) : list (bytes * bytes) := (fun e => (Key e, Value e)) <$> es.

Lemma scan_walk_quiet f es : forall fuel it acc, Merge.m_rep (eq f) (sc_merge it) es ->
  sc_closed it = false -> (length es < fuel)%nat ->
  scan_walk fuel it acc (mkWorld f []) = (Ok (acc ++ pairs (before (sc_end it) es), None), mkWorld f []).
Proof.
  induction es as [|e es IH]; intros fuel it acc Hrep Hc Hl;
    (destruct fuel as [|fuel]; [simpl in Hl; lia|]); cbn [scan_walk before].
  - destruct Hrep as (ls & _ & _ & Hv). unfold sc_Valid, Merge.m_Valid. rewrite Hc, Hv. simpl.
    by rewrite app_nil_r.
  - pose proof Hrep as (ls & _ & He & Hv & Hk & Hval & _).
    assert (Hvalid : sc_Valid it = (zlen (sc_end it) =? 0) || bytes_ltb (Key e) (sc_end it)).
    { unfold sc_Valid, Merge.m_Valid, Merge.m_Key. rewrite Hc, Hv, He, Hk. simpl.
      by destruct (zlen (sc_end it) =? 0). }
    rewrite Hvalid. destruct (_ || _); [|by rewrite app_nil_r].
    destruct (Merge.m_Next_quiet (eq f) (sc_merge it) e es f eq_refl Hrep) as (m' & Hn & Hrep').
    erewrite io_bind_ok.
    2:{ unfold sc_Next. rewrite Hc. by rewrite (io_bind_ok _ _ _ _ _ Hn). }
    cbv beta iota. rewrite (IH fuel); [|exact Hrep'|done|simpl in Hl; lia].
    cbn [sc_end]. unfold pairs, sc_Key, sc_Value, Merge.m_Key, Merge.m_Value. rewrite Hk, Hval.
    by rewrite <- app_assoc.
Qed.

Lemma find_entry_skip k start l : keys_sorted l ->
  find_entry k (skip_below start l) = if decide (blt k start) then None else find_entry k l.
Proof.
  intros Hs. destruct (skip_below_suffix start l) as (l1 & E & Hl1).
  destruct (skip_below_sorted start l Hs) as [_ Hge]. case_decide as Hk.
  - apply find_entry_None. eapply Forall_impl; [exact Hge|]. intros e He <-. by apply He.
  - rewrite E at 2. rewrite find_entry_app, (find_entry_None k l1); [done|].
    eapply Forall_impl; [exact Hl1|]. intros e He <-. by apply Hk.
Qed.

Lemma best_skip k start ls : Forall Merge.src_ok ls ->
  Merge.best k ((fun l => (skip_below start l.1, l.2)) <$> ls) =
    if decide (blt k start) then None else Merge.best k ls.
Proof.
  intros Hok. case_decide as Hk.
  - apply Merge.best_None.
    + apply Forall_fmap. eapply Forall_impl; [exact Hok|]. by intros l [].
    + apply Forall_fmap. eapply Forall_impl; [exact Hok|]. intros l [Hs _]. simpl.
      rewrite find_entry_skip by done. by rewrite decide_True.
  - apply Merge.best_ext. clear -Hok Hk. induction Hok as [|l ls [Hs _] _ IH]; [constructor|].
    constructor; [|done]. simpl. rewrite find_entry_skip by done. by rewrite decide_False.
Qed.

Lemma scan_entries_spec start d f tables : readable d f tables -> few_layers d ->
  keys_sorted (scan_entries start d tables) /\
  forall k v, (exists e, e ∈ scan_entries start d tables /\ Key e = k /\ Value e = v) <->
    ~ blt k start /\ contents d tables !! k = Some (Some v).
Proof.
  intros Hrd Hfew. pose proof (scan_sources_ok d f tables Hrd Hfew) as Hok.
  set (ls := (fun l => (skip_below start l.1, l.2)) <$> scan_sources d tables).
  assert (Hok' : Forall Merge.src_ok ls).
  { apply Forall_fmap. eapply Forall_impl; [exact Hok|]. exact (Merge.src_ok_skip start). }
  destruct (Merge.merged_spec ls Hok') as [Hs Hfind]. split.
  - unfold scan_entries, Merge.visible. fold ls. clear -Hs.
    induction (Merge.merged ls) as [|e l IH]; [done|]. apply keys_sorted_cons in Hs as [Hs Hlt]. simpl.
    destruct (negb _); [|by apply IH]. apply keys_sorted_cons. split; [by apply IH|].
    apply Forall_forall. intros x Hx. rewrite Forall_forall in Hlt. apply Hlt.
    apply list_elem_of_In, List.filter_In in Hx as [Hx _]. by apply list_elem_of_In.
  - intros k v. rewrite <- (scan_best d f tables k Hrd Hfew).
    pose proof (best_skip k start _ Hok) as Hb. fold ls in Hb.
    unfold scan_entries, Merge.visible. fold ls. split.
    + intros (e & He & <- & <-). apply list_elem_of_In, List.filter_In in He as [He Ht].
      apply list_elem_of_In in He. apply (find_entry_sorted _ _ Hs) in He as Hfe.
      rewrite Hfind, Hb in Hfe. case_decide; [done|]. split; [done|]. rewrite Hfe. simpl. unfold cell.
      by destruct (Tombstone e).
    + intros [Hk He]. rewrite decide_False in Hb by done. rewrite <- Hb, <- Hfind in He.
      destruct (find_entry k (Merge.merged ls)) as [e|] eqn:Ef; [|done]. simpl in He.
      apply find_entry_Some in Ef as [Hin Hke]. unfold cell in He. destruct (Tombstone e) eqn:Et; [done|].
      simplify_eq. exists e. split; [|done]. apply list_elem_of_In, List.filter_In.
      split; [by apply list_elem_of_In|by rewrite Et].
Qed.

Lemma before_spec end_ es : keys_sorted es -> keys_sorted (before end_ es) /\
  forall e, e ∈ before end_ es <-> e ∈ es /\ (end_ = [] \/ blt (Key e) end_).
Proof.
  intros Hs. destruct (decide (end_ = [])) as [->|Hne].
  { assert (E : before [] es = es) by (clear; induction es as [|e es IH]; [done|]; simpl; by rewrite IH).
    rewrite E. split; [done|]. naive_solver. }
  assert (Hz : zlen end_ =? 0 = false).
  { apply Z.eqb_neq. intros H. apply Hne, zlen_nil_inv. lia. }
  induction es as [|e es IH]; simpl; [split; [done|]; intros e; split; [by intros ?%not_elem_of_nil|by intros [?%not_elem_of_nil _]]|].
  apply keys_sorted_cons in Hs as [Hs Hlt]. destruct (IH Hs) as [I1 I2]. rewrite Hz. simpl.
  destruct (bytes_ltb (Key e) end_) eqn:E.
  - apply bytes_ltb_spec in E. split.
    + apply keys_sorted_cons. split; [done|]. apply Forall_forall. intros x Hx. apply I2 in Hx as [Hx _].
      rewrite Forall_forall in Hlt. by apply Hlt.
    + intros x. rewrite !elem_of_cons, I2. naive_solver.
  - apply bytes_ltb_false in E. split; [done|]. intros x. split; [by intros ?%not_elem_of_nil|].
    intros [[->|Hx]%elem_of_cons [?|Hlx]]; try done. rewrite Forall_forall in Hlt. specialize (Hlt x Hx).
    destruct E. by eapply blt_trans.
Qed.

(** Walking a scan gives, in ascending order, exactly the live keys of the range
    with their values in the contents at the time of the scan. *)
Lemma scan_range start end_ d f tables : readable d f tables -> few_layers d -> closed d = false ->
  Forall Merge.keys_nonempty (scan_sources d tables) ->
  exists it d' out fuel, Scan start end_ d (mkWorld f []) = (Ok (d', inl it), mkWorld f []) /\
    scan_walk fuel it [] (mkWorld f []) = (Ok (out, None), mkWorld f []) /\
    (forall more, scan_walk (fuel + more) it [] (mkWorld f []) = (Ok (out, None), mkWorld f [])) /\
    StronglySorted blt (fst <$> out) /\
    forall k v, (k, v) ∈ out <->
      contents d tables !! k = Some (Some v) /\ ~ blt k start /\ (end_ = [] \/ blt k end_).
Proof.
  intros Hrd Hfew Hc Hne.
  destruct (Scan_quiet start end_ d f tables Hrd Hfew Hc Hne) as (it & d' & Hscan & Hrep & He & Hcl & _ & _).
  destruct (scan_entries_spec start d f tables Hrd Hfew) as [Hs Hspec].
  destruct (before_spec end_ _ Hs) as [Hs' Hb].
  set (es := scan_entries start d tables) in *.
  exists it, d', (pairs (before end_ es)), (S (length es)).
  split; [done|]. split; [|split; [|split]].
  - rewrite (scan_walk_quiet f es) by (done || lia). by rewrite He.
  - intros more. rewrite (scan_walk_quiet f es) by (done || lia). by rewrite He.
  - unfold pairs. rewrite <- list_fmap_compose. exact Hs'.
  - intros k v. unfold pairs. rewrite list_elem_of_fmap. split.
    + intros (e & [= -> ->] & Hin). apply Hb in Hin as [Hin Hend].
      destruct (proj1 (Hspec (Key e) (Value e)) (ex_intro _ e (conj Hin (conj eq_refl eq_refl)))) as [H1 H2].
      done.
    + intros (H1 & H2 & H3). destruct (proj2 (Hspec k v) (conj H2 H1)) as (e & Hin & <- & <-).
      exists e. split; [done|]. by apply Hb.
Qed.

End DbScan.
