(* ===== verification/DbCompact.v ===== *)
(** Compaction (internal/db: compaction.go, compactor.go and [ForceCompaction] of
    export.go).

    [doCompaction] is cut at its critical sections, so that flushes can be
    interleaved with it: [compact_begin], the merge, [compact_plan] (the new list and
    its ids are computed under the lock), the manifest append, and [compact_commit]
    (the list is stored under the lock, then the inputs are discarded). *)

From Stdlib Require Import ZArith Lia.
From S2P Require Import Prelude Word Fs GoStr Memtable Wal Manifest SstFormat SstWriter SstReader MergeIter.
From S2P Require Import SstMerge DbState DbFlush DbWrite DbRead.

Module DbCompact.
Import Db DbFlush.

Definition defaultCompactThreshold : Z := 4.
Definition defaultCompactPickCount : Z := 2.

Definition pickSSTablesForCompactionLocked (d : DB) : list nat :=
  if zlen (sstables d) <? compactThreshold (cfg d) then [] else
  let n := defaultCompactPickCount in
  let n := if zlen (sstables d) <? n then zlen (sstables d) else n in
  if n <? 2 then [] else take (Z.to_nat n) (sstables d).

Definition readersStillPresent (all subset : list nat) : bool :=
  forallb (fun want => existsb (Nat.eqb want) all) subset.

Definition sstIDFromPath (path : string) : res Z :=
  match GoStr.sstFilePattern path with
  | None => Err ErrInvalidSSTPath
  | Some digits => match GoStr.ParseUint digits with None => Err ErrInvalidSSTPath | Some id => Ok id end
  end.

Fixpoint liveIDsFromReaders (readers : list SstReader.Reader) : res (list Z) :=
  match readers with
  | [] => Ok []
  | r :: rs =>
      let? id := sstIDFromPath (SstReader.Path r) in
      let? ids := liveIDsFromReaders rs in
      Ok (id :: ids)
  end.

Section compact.
Context `{BloomSizing}.

Fixpoint sum_counts (readers : list SstReader.Reader) : io Z :=
  match readers with
  | [] => io_ret 0
  | r :: rs =>
      let! n := SstReader.EntryCount r in
      let! m := sum_counts rs in io_ret (u64 (n + m))
  end.

(** The file of the merged table; its failure removes what is there. *)
Definition write_merged (readers : list SstReader.Reader) (path : string) (expectedEntries : Z)
  : io (option error) :=
  let! r := try (SstWriter.NewWriter path defaultBlockSize expectedEntries) in
  match r with
  | inr e => io_ret (Some e)
  | inl w =>
      let! (w1, err) := SstMerge.MergeReadersKeepTombstones readers w in
      match err with
      | Some e => SstWriter.Close w1 ;;! ignore (fs_remove path) ;;! io_ret (Some e)
      | None =>
          let! (_, err) := SstWriter.Close w1 in
          match err with
          | Some e => ignore (fs_remove path) ;;! io_ret (Some e)
          | None => io_ret None
          end
      end
  end.

(** The handle after the call, and the merged reader or the error. *)
Definition mergeSSTables (readers : list SstReader.Reader) (d : DB)
  : io (DB * (option SstReader.Reader + error)) :=
  if zlen readers <? 2 then io_ret (d, inl None) else
  let! counted := try (sum_counts readers) in
  match counted with
  | inr e => io_ret (d, inr e)
  | inl n =>
      let expectedEntries := if n <? 1 then 1 else n in
      let id := u64 (nextSSTID d + 1) in
      let d := set_nextSSTID id d in
      let path := GoStr.sstFilePath id in
      let! err := write_merged readers path expectedEntries in
      match err with
      | Some e => io_ret (d, inr e)
      | None =>
          let '(fileID, d) := next_file_id d in
          let! opened := try (SstReader.OpenReader path fileID) in
          match opened with
          | inr e => ignore (fs_remove path) ;;! io_ret (d, inr e)
          | inl r => io_ret (d, inl (Some r))
          end
      end
  end.

(** ** The segments of [doCompaction] *)

(** The first critical section: nothing to do, an error, or the readers to merge
    and the ids that are live now. *)
Inductive begin_result :=
| NothingToDo
| BeginErr (e : error)
| BeginOk (compReaders : list nat) (oldLiveIDs : list Z).

Definition compact_begin (d : DB) : begin_result :=
  let toCompact := pickSSTablesForCompactionLocked d in
  if zlen toCompact <? 2 then NothingToDo else
  match liveIDsFromReaders (DbRead.deref d (sstables d)) with
  | Err e => BeginErr e
  | Crashed => NothingToDo
  | Ok oldLiveIDs =>
      if negb (readersStillPresent (sstables d) toCompact) then NothingToDo
      else BeginOk toCompact oldLiveIDs
  end.

(** The second critical section: the list without the inputs, with the new reader
    at its end, and its ids. *)
Definition plan_list (compReaders : list nat) (newReader : nat) (d : DB) : list nat :=
  filter (fun p => p ∉ compReaders) (sstables d) ++ [newReader].

(** [newReader.Close(); os.Remove(newReader.Path())] *)
Definition drop_new (newReader : nat) (d : DB) : io DB :=
  match heap d !! newReader with
  | None => io_ret d
  | Some r =>
      let! (d, _) := close_reader newReader d in
      ignore (fs_remove (SstReader.Path r)) ;;! io_ret d
  end.

Inductive plan_result :=
| PlanGone
| PlanErr (e : error)
| PlanOk (newList : list nat) (liveIDs : list Z).

Definition compact_plan (compReaders : list nat) (newReader : nat) (d : DB) : plan_result :=
  if negb (readersStillPresent (sstables d) compReaders) then PlanGone else
  let newList := plan_list compReaders newReader d in
  match liveIDsFromReaders (DbRead.deref d newList) with
  | Err e => PlanErr e
  | Crashed => PlanGone
  | Ok liveIDs => PlanOk newList liveIDs
  end.

(** [db.manifest.AppendSetFileSet(ids)] *)
Definition append_set (ids : list Z) (d : DB) : io (DB * option error) :=
  match manifest d with
  | None => io_res Crashed
  | Some m => let! (m', e) := Manifest.AppendSetFileSet m ids in io_ret (set_manifest (Some m') d, e)
  end.

Definition manifest_maybe_compact (d : DB) : io DB :=
  match manifest d with
  | None => io_res Crashed
  | Some m => let! (m', _) := Manifest.MaybeCompact m in io_ret (set_manifest (Some m') d)
  end.

Fixpoint discard_all (ps : list nat) (d : DB) : io DB :=
  match ps with [] => io_ret d | p :: ps' => let! (d', _) := discard_reader p d in discard_all ps' d' end.

(** The third critical section and what follows it. *)
Definition compact_commit (compReaders : list nat) (oldLiveIDs : list Z) (newReader : nat)
    (newList : list nat) (d : DB) : io (DB * option error) :=
  if negb (readersStillPresent (sstables d) compReaders) then
    let! (d, _) := append_set oldLiveIDs d in
    let! d := drop_new newReader d in
    io_ret (d, None)
  else
    let d := publishSSTables (set_sstables newList d) in
    crash_point ;;!
    let d := trackReader newReader d in
    let! d := manifest_maybe_compact d in
    let! d := discard_all compReaders d in
    crash_point ;;!
    io_ret (d, None).

Definition doCompaction (d : DB) : io (DB * option error) :=
  match compact_begin d with
  | NothingToDo => io_ret (d, None)
  | BeginErr e => io_ret (d, Some e)
  | BeginOk compReaders oldLiveIDs =>
      let! (d, merged) := mergeSSTables (DbRead.deref d compReaders) d in
      match merged with
      | inr e => io_ret (d, Some e)
      | inl None => io_res Crashed
      | inl (Some r) =>
          crash_point ;;!
          let '(newReader, d) := alloc_reader r d in
          match compact_plan compReaders newReader d with
          | PlanGone => let! d := drop_new newReader d in io_ret (d, None)
          | PlanErr e => let! d := drop_new newReader d in io_ret (d, Some e)
          | PlanOk newList liveIDs =>
              let! (d, err) := append_set liveIDs d in
              match err with
              | Some e => let! d := drop_new newReader d in io_ret (d, Some e)
              | None =>
                  crash_point ;;!
                  compact_commit compReaders oldLiveIDs newReader newList d
              end
          end
      end
  end.

(** One wake-up of the compactor, at most [fuel] rounds. *)
Fixpoint compactor_loop (fuel : nat) (d : DB) : io DB :=
  match fuel with
  | O => io_ret d
  | S fuel' =>
      let! (d, err) := doCompaction d in
      match err with
      | Some e => io_ret (setBackgroundErr "compaction" (Some e) d)
      | None =>
          let d := clearBackgroundErrOp "compaction" d in
          if compactThreshold (cfg d) <=? zlen (sstables d) then compactor_loop fuel' d else io_ret d
      end
  end.

Definition ForceCompaction (d : DB) : io (DB * option error) :=
  if closed d then io_ret (d, Some ErrClosed) else doCompaction d.

End compact.

End DbCompact.
