(* ===== verification/DbOpen.v ===== *)
(** Opening and closing (internal/db: [Open] and its helpers of db.go, close.go,
    sst_cleanup.go, dir_lock.go, dir_lock_unix.go, export.go). *)

From Stdlib Require Import ZArith Lia.
From S2P Require Import Prelude Word Fs GoStr Memtable Wal Manifest SstFormat SstWriter SstReader DbState.
From S2P Require Import DbFlush DbWrite DbCompact.

Module DbOpen.
Import Db DbFlush.

(** * The directory lock (dir_lock.go, dir_lock_unix.go) *)

Definition lockFileName : string := "LOCK".

(** [EWOULDBLOCK]/[EAGAIN] is 11; 32 is Windows' sharing violation. *)
Definition isDirLockContention (e : error) : bool :=
  match e with os_error c => (c =? 32) || (c =? 11) | _ => false end.

(** [flock] is the answer of the operating system to the lock request. *)
Definition lockFile (flock : option error) : option error :=
  match flock with
  | None => None
  | Some (os_error 11) => Some ErrDatabaseLocked
  | Some e => Some e
  end.

Definition acquireDirLock (flock : option error) : io unit :=
  let! r := try (fs_open_create lockFileName) in
  match r with
  | inr e => if isDirLockContention e then io_err ErrDatabaseLocked else io_err e
  | inl _ =>
      match lockFile flock with
      | None => io_ret tt
      | Some e => ignore (fs_close lockFileName) ;;! io_err e
      end
  end.

(** * Open (db.go) *)

Record Options := mkOptions {
  Dir : string;
  MemtableSize : Z;
  CompactionThreshold : Z;
  WALReplayLimits : Wal.ReplayLimits;
  SyncWrites : bool;
  BlockWritesOnFlushError : option bool
}.

Definition config_of (opts : Options) : Config :=
  mkConfig
    (if MemtableSize opts <=? 0 then defaultMemtableSize else MemtableSize opts)
    (if CompactionThreshold opts =? 0 then DbCompact.defaultCompactThreshold else CompactionThreshold opts)
    (Wal.WithDefaults (WALReplayLimits opts))
    (SyncWrites opts)
    (match BlockWritesOnFlushError opts with None => true | Some b => b end).

(** The handle before recovery. *)
Definition empty_db (opts : Options) (coins : list (list bool)) : DB :=
  mkDB (config_of opts) (Mem.NewSkipList (hd [] coins)) [] [] [] [] ∅ None None false 0 ∅ [] 0 0
    0 0 (tl coins) 0.

Fixpoint ids_of_names (names : list string) : list Z :=
  match names with
  | [] => []
  | name :: names' =>
      match GoStr.sstFilePattern name with
      | None => ids_of_names names'
      | Some digits =>
          match GoStr.ParseUint digits with
          | None => ids_of_names names'
          | Some id => id :: ids_of_names names'
          end
      end
  end.

Definition discoverSSTIDs : io (list Z) :=
  let! names := fs_list in io_ret (Manifest.sort_ids (ids_of_names names)).

Fixpoint load_ids (ids : list Z) (d : DB) : io (DB * option error) :=
  match ids with
  | [] => io_ret (d, None)
  | id :: ids' =>
      let '(fileID, d) := next_file_id d in
      let! opened := try (SstReader.OpenReader (GoStr.sstFilePath id) fileID) in
      match opened with
      | inr e => io_ret (d, Some e)
      | inl r =>
          let '(p, d) := alloc_reader r d in
          let d := trackReader p (set_sstables (sstables d ++ [p]) d) in
          let d := if nextSSTID d <? id then set_nextSSTID id d else d in
          load_ids ids' d
      end
  end.

Definition loadSSTables (m : Manifest.Log) (d : DB) : io (DB * option error) :=
  let! (d, e) := load_ids (Manifest.LiveIDs m) d in
  match e with
  | Some err => io_ret (d, Some err)
  | None => io_ret (publishSSTables d, None)
  end.

Definition quarantinePath (id : Z) : string := String.append "quarantine/" (GoStr.sstFilePath id).

Definition quarantineSSTPath (id : Z) : io unit :=
  Manifest.mkdir ;;! fs_rename (GoStr.sstFilePath id) (quarantinePath id).

Fixpoint quarantine_all (ids : list Z) (live : list Z) : io unit :=
  match ids with
  | [] => io_ret tt
  | id :: ids' =>
      (if decide (id ∈ live) then io_ret tt else ignore (quarantineSSTPath id)) ;;!
      quarantine_all ids' live
  end.

Definition removeOrphanSSTFiles (m : Manifest.Log) : io unit :=
  let! r := try discoverSSTIDs in
  match r with
  | inr _ => io_ret tt
  | inl existing => quarantine_all existing (Manifest.LiveIDs m)
  end.

(** [db.closeLoadedReaders(); db.manifest.Close(); return nil, err] *)
Definition abandon {A} (d : DB) (m : Manifest.Log) (e : error) : io A :=
  let! d := closeLoadedReaders d in
  ignore (Manifest.Close m) ;;! io_err e.

(** The callback of the replay. *)
Definition replay_fn (sl : Mem.SkipList) (rec : entry) : Mem.SkipList * option error :=
  (apply_record sl rec, None).

(** The replay of the log and the opening of it for appending. *)
Definition recover_wal (m : Manifest.Log) (d : DB) : io DB :=
  let! start := try (walReplayStartOffset m) in
  match start with
  | inr e => abandon d m e
  | inl replayStart =>
      let! (sl, _, err) :=
        Wal.ReplayFromWithRecovery replay_fn walName (walLimits (cfg d)) replayStart (active d) in
      match err with
      | Some e => abandon d m e
      | None =>
          let d := set_active sl d in
          let! opened := try (Wal.OpenWithLimits walName (walLimits (cfg d))) in
          match opened with
          | inr e => abandon d m e
          | inl w => io_ret (maybeTriggerCompaction (set_wal (Some w) d))
          end
      end
  end.

(** Behind the lock: manifest, tables, orphans, log. *)
Definition open_body (opts : Options) (coins : list (list bool)) : io DB :=
  let d := empty_db opts coins in
  let! m := Manifest.Open in
  let! found := try discoverSSTIDs in
  match found with
  | inr e => ignore (Manifest.Close m) ;;! io_err e
  | inl existing =>
      let! (m, err) := Manifest.BootstrapIfEmpty m existing in
      match err with
      | Some e => ignore (Manifest.Close m) ;;! io_err e
      | None =>
          let! (d, err) := loadSSTables m d in
          match err with
          | Some e => ignore (Manifest.Close m) ;;! io_err e
          | None =>
              removeOrphanSSTFiles m ;;!
              recover_wal m (set_manifest (Some m) d)
          end
      end
  end.

Definition Open (opts : Options) (flock : option error) (coins : list (list bool)) : io DB :=
  if decide (Dir opts = ""%string) then io_err ErrEmptyDir else
  Manifest.mkdir ;;!
  acquireDirLock flock ;;!
  open_body opts coins.

(** * Close (close.go) *)

Section close.
Context `{BloomSizing}.

(** The wait is the flusher running at most [fuel] rounds, after which it times out. *)
Definition waitForPendingFlushDrain (fuel : nat) (d : DB) : io (DB * option error) :=
  let! (d, _) := drainPendingFlush fuel d in
  io_ret (d, if hasPendingFlush d then
               Some (match BackgroundError d with
                     | Some bg => joined ErrCloseFlushTimeout bg
                     | None => ErrCloseFlushTimeout
                     end)
             else None).

(** The active memtable goes to the queue if there is anything in it. *)
Definition freeze_rest (d : DB) : io (DB * option error) :=
  if 0 <? Mem.Size (active d) then
    let! r := try (with_wal d Wal.Size) in
    match r with
    | inr e => io_ret (d, Some e)
    | inl offset => io_ret (freeze offset d, None)
    end
  else io_ret (d, None).

(** The loop that freezes what is left and waits for the flusher. *)
Fixpoint close_loop (rounds fuel : nat) (d : DB) : io (DB * option error) :=
  match rounds with
  | O => io_ret (d, Some ErrCloseFlushTimeout)
  | S rounds' =>
      if negb (hasPendingFlush d) && (Mem.Size (active d) <=? 0) then io_ret (d, None) else
      let! (d, err) := freeze_rest d in
      match err with
      | Some e => io_ret (d, Some e)
      | None =>
          let! (d, err) := waitForPendingFlushDrain fuel (notifyFlushForce d) in
          match err with
          | Some e => io_ret (d, Some e)
          | None => close_loop rounds' fuel d
          end
      end
  end.

Definition join_opt (a b : option error) : option error :=
  match a, b with
  | None, _ => b
  | _, None => a
  | Some x, Some y => Some (joined x y)
  end.

(** The channels are closed and the workers joined.  What is buffered in a closed
    channel is still received: the flusher ends when it has taken its last wake-up,
    unless the queue cannot be emptied, and the compactor when it has taken its. *)
Definition shutdownBackgroundWorkers (fuel : nat) (d : DB) : io (DB * option error) :=
  let! (d, err) :=
    (match flushCh d with
     | O => io_ret (d, None)
     | S _ =>
         let! (d, _) := drainPendingFlush fuel (set_flushCh 0 d) in
         io_ret (d, if hasPendingFlush d then Some ErrCloseWorkerTimeout else None)
     end) in
  let! d :=
    (match compactCh d with
     | O => io_ret d
     | S _ => DbCompact.compactor_loop fuel (set_compactCh 0 d)
     end) in
  io_ret (d, err).

Definition abortClose (fuel : nat) (err : option error) (d : DB) : io (DB * option error) :=
  let! (d, shutdownErr) := shutdownBackgroundWorkers fuel d in
  io_ret (d, join_opt (join_opt err shutdownErr) (Some ErrCloseIncomplete)).

(** The end of a clean shutdown, with no worker left. *)
Definition close_handles (d : DB) : io DB :=
  let d := set_sstablesSnap [] (set_sstables [] d) in
  let! d := discardAllReaders d in
  (match wal d with
   | None => io_ret tt
   | Some w => ignore (Wal.Sync w) ;;! ignore (Wal.Close w)
   end) ;;!
  let d := set_wal None d in
  (match manifest d with
   | None => io_ret tt
   | Some m => ignore (Manifest.Close m)
   end) ;;!
  io_ret (set_manifest None d).

(** The batch flusher runs once more when it is told to stop, then [Close] commits
    what is left itself.  When a worker does not stop, [abortClose] closes the channels
    a second time, which ends the process. *)
Definition Close (fuel : nat) (d : DB) : io (DB * option error) :=
  if closed d then io_ret (d, None) else
  let d := set_closed true d in
  let! (d, e1) := DbWrite.flushPendingBatch d in
  let! (d, e2) := DbWrite.flushPendingBatch d in
  let closeErr := join_opt e1 e2 in
  let! (d, e3) := close_loop fuel fuel d in
  match e3 with
  | Some e => abortClose fuel (join_opt closeErr (Some e)) d
  | None =>
      let! (d, e4) := shutdownBackgroundWorkers fuel d in
      match e4 with
      | Some _ => io_res Crashed
      | None => let! d := close_handles d in io_ret (d, closeErr)
      end
  end.

(** * ForceMemtableFlush (export.go) *)

Definition ForceMemtableFlush (fuel : nat) (d : DB) : io (DB * option error) :=
  let! (d, err) := DbWrite.flushPendingBatch d in
  match err with
  | Some e => io_ret (d, Some e)
  | None =>
      if closed d then io_ret (d, Some ErrClosed) else
      let! (d, err) := freeze_rest d in
      match err with
      | Some e => io_ret (d, Some e)
      | None => if hasPendingFlush d then waitForPendingFlushDrain fuel (notifyFlush d) else io_ret (d, None)
      end
  end.

End close.

End DbOpen.
