(* ===== verification/DbRecover.v ===== *)
(** Recovery: what [Open] rebuilds from a directory (db.go, sst_cleanup.go,
    wal_state.go, on top of the manifest, the tables and the log).

    [on_disk] says what a directory holds: the edits of the manifest, the tables that
    are live by them, and the part of the log behind the replay offset.  [Open_recovers]
    shows that [Open] then returns a handle with exactly these contents. *)

From Stdlib Require Import ZArith Lia.
From S2P Require Import Prelude Word Fs GoStr Memtable Wal Manifest Bloom SstFormat SstWriter SstReader.
From S2P Require Import MergeIter SstMerge SstTable DbState DbFlush DbWrite DbRead DbCompact DbOpen.

Module DbRecover.
Import Db DbFlush DbOpen DbRead SstFormat SstWriter SstTable.

(** * What a directory holds *)

Definition is_manifest (name : string) : Prop :=
  Manifest.name_ok name /\ exists s, name = String.append Manifest.manifestPrefix s.

Definition sst_file (f : fsys) (t : Z * list (list entry)) : Prop :=
  is_u64 t.1 /\ exists bs, bytes_at f (GoStr.sstFilePath t.1) = Some bs /\ sst_image t.2 bs.

(** The offset from which [Open] replays the log. *)
Definition start_of (f : fsys) (live : gset Z) : Z :=
  match bytes_at f walFlushStateName, bytes_at f walName with
  | Some data, Some c =>
      let off := int64 (get_u64 data) in
      if bool_decide (get_u64 (drop 8 data) ∈ live) && (0 <=? off) && (off <=? zlen c) then off else 0
  | _, _ => 0
  end.

(** [tables] in the order of their ids, oldest first; [recs] behind the offset. *)
Record on_disk (limits : Wal.ReplayLimits) (f : fsys) (name : string) (es : list Manifest.edit)
    (tables : list (Z * list (list entry))) (pre recs : list entry) : Prop := {
  od_name : is_manifest name;
  od_edits : Forall Manifest.edit_ok es;
  od_stored : exists tail, Manifest.torn tail /\ Manifest.stored f name es tail;
  od_ids : Manifest.sort_ids (elements (Manifest.live_of es)) = tables.*1;
  od_tables : Forall (sst_file f) tables;
  od_orphans : Manifest.live_of es = ∅ -> forall p, is_Some (f !! p) -> GoStr.sstFilePattern p = None;
  od_checkpoint : forall data, bytes_at f walFlushStateName = Some data -> 16 <= zlen data;
  od_start : start_of f (Manifest.live_of es) = zlen (Wal.wires pre);
  od_wal : match bytes_at f walName with
           | None => recs = []
           | Some c => exists tail, c = Wal.wires pre ++ Wal.wires recs ++ tail /\
                         Wal.torn_tail (Wal.WithDefaults limits) tail /\
                         zlen c <= Wal.MaxFileSize (Wal.WithDefaults limits)
           end;
  od_admissible : Forall (Wal.admissible (Wal.WithDefaults limits)) recs
}.

(** Everything written is durable, as after a loss of power. *)
Definition settled (f : fsys) : Prop := forall p fl, f !! p = Some fl -> durable fl = content fl.

Lemma settled_power_loss f f' : power_loss f f' -> settled f'.
Proof.
  intros H p fl Hp. specialize (H p). rewrite Hp in H. by destruct (f !! p); [destruct H as (_ & _ & ->)|].
Qed.

Lemma settled_insert f p c : settled f -> settled (<[p := File c c]> f).
Proof.
  intros H q fl. rewrite lookup_insert. case_decide; [by intros [= <-]|apply H].
Qed.

Lemma settled_file f p c : settled f -> bytes_at f p = Some c -> f !! p = Some (File c c).
Proof.
  intros H [d Hd]%bytes_at_Some. specialize (H _ _ Hd). simpl in H. by subst d.
Qed.

(** * The tables *)

Lemma sst_file_open f t fileID : sst_file f t ->
  exists r, SstReader.OpenReader (GoStr.sstFilePath t.1) fileID (mkWorld f []) = (Ok r, mkWorld f []) /\
    SstReader.table f r t.2 /\ SstReader.fresh (GoStr.sstFilePath t.1) r.
Proof.
  intros (_ & bs & Hbs & [Hb Hs Hf (b0 & Hwf & Hm & Hk & ->) Hz]).
  destruct (reads_quiet _ f _ (SstReader.OpenReader_reads b0 t.2 Hb Hs Hf Hwf Hm Hk Hz (mkWorld f [])
    (GoStr.sstFilePath t.1) fileID Hbs)) as (r & Hr & ?). by exists r.
Qed.

(** Pointer [p] is a live reader of table [t]. *)
Definition table_at (h : gmap nat SstReader.Reader) (f : fsys) (p : nat) (t : Z * list (list entry)) : Prop :=
  exists r, h !! p = Some r /\ live r /\ SstReader.table f r t.2 /\
    SstReader.Path r = GoStr.sstFilePath t.1 /\ SstReader.r_discardPending r = false.

Lemma table_at_mono h h' f p t : h ⊆ h' -> table_at h f p t -> table_at h' f p t.
Proof. intros Hs (r & Hr & ?). exists r. split; [by eapply lookup_weaken|done]. Qed.

(** Closing this reader removes no file: it is not marked for removal, or it is closed
    already or has no file, or someone still holds it. *)
Definition parked (r : SstReader.Reader) : Prop :=
  SstReader.r_discardPending r = false \/ SstReader.r_fileClosed r = true \/ SstReader.r_file r = false \/
  SstReader.r_refs r <> 0.

Definition parked_all (h : gmap nat SstReader.Reader) : Prop := map_Forall (fun _ => parked) h.

Lemma parked_insert h p r : parked_all h -> parked r -> parked_all (<[p := r]> h).
Proof. intros Hh Hr. by apply map_Forall_insert_2. Qed.

Lemma fresh_parked path r : SstReader.fresh path r -> parked r.
Proof. intros (_ & _ & _ & H). by left. Qed.

(** Loading opens the tables in order and sees their ids. *)
Lemma load_ids_quiet f tables : forall d, Forall (sst_file f) tables ->
  exists h l a k n, load_ids (tables.*1) d (mkWorld f []) =
      (Ok (set_nextFileID n (set_nextSSTID k (set_allReaders a (set_sstables (sstables d ++ l) (set_heap h d)))),
           None), mkWorld f []) /\
    heap d ⊆ h /\ Forall2 (table_at h f) l tables /\
    nextSSTID d <= k /\ Forall (fun t => t.1 <= k) tables /\ (parked_all (heap d) -> parked_all h) /\
    (k = nextSSTID d \/ k ∈ tables.*1).
Proof.
  induction tables as [|t tables IH]; intros d Ht.
  { exists (heap d), [], (allReaders d), (nextSSTID d), (nextFileID d). rewrite app_nil_r. destruct d; cbn. repeat (split; [done|]). by left. }
  apply Forall_cons in Ht as [Ht Hts]. csimpl. unfold next_file_id. cbn [fst snd].
  destruct (sst_file_open f t (nextFileID d + 1) Ht) as (r & Hr & Htab & Hfresh).
  rewrite (bind_try_ok _ _ _ _ _ Hr). unfold alloc_reader. cbn [fst snd].
  set (d0 := set_nextFileID _ d). set (p := fresh (dom (heap d0))).
  set (d1 := trackReader p (set_sstables (sstables (set_heap (<[p := r]> (heap d0)) d0) ++ [p])
    (set_heap (<[p := r]> (heap d0)) d0))).
  set (d2 := if nextSSTID d1 <? t.1 then set_nextSSTID t.1 d1 else d1).
  destruct (IH d2 Hts) as (h & l & a & k & n & Hrun & Hsub & HF & Hk & Hall & Hpark & Hmax).
  assert (Hp : heap d0 !! p = None) by (apply not_elem_of_dom; apply is_fresh).
  assert (Hheap : heap d2 = <[p := r]> (heap d)) by (unfold d2; by destruct (nextSSTID d1 <? t.1)).
  assert (Hsst : sstables d2 = sstables d ++ [p]) by (unfold d2; by destruct (nextSSTID d1 <? t.1)).
  assert (Hid : nextSSTID d <= nextSSTID d2 /\ t.1 <= nextSSTID d2).
  { unfold d2. destruct (Z.ltb_spec (nextSSTID d1) t.1) as [H|H]; cbn in *; lia. }
  exists h, (p :: l), a, k, n. split.
  { etransitivity; [exact Hrun|]. do 3 f_equal. rewrite Hsst, <- app_assoc. unfold d2, d1, d0. by destruct (nextSSTID _ <? t.1). }
  rewrite Hheap in Hsub. split.
  { etransitivity; [|exact Hsub]. by apply insert_subseteq. }
  split; [|split; [lia|split; [constructor; [lia|done]|split]]].
  2:{ intros H. apply Hpark. rewrite Hheap. by apply parked_insert; [|eapply fresh_parked]. }
  2:{ destruct Hmax as [-> |Hmax]; [|right; by right]. unfold d2. destruct (nextSSTID d1 <? t.1); [right; left|by left]. }
  constructor; [|done].
  destruct Hfresh as (H1 & _ & H3 & H4). exists r. split; [|by split].
  eapply lookup_weaken; [|exact Hsub]. apply lookup_insert_eq.
Qed.

(** * The replay offset *)

Lemma fs_read_missing f p : f !! p = None -> fs_read p (mkWorld f []) = (Err os_ErrNotExist, mkWorld f []).
Proof. intros H. unfold fs_read. rewrite prim_quiet. by rewrite H. Qed.

Lemma fs_size_missing f p : f !! p = None -> fs_size p (mkWorld f []) = (Err os_ErrNotExist, mkWorld f []).
Proof. intros H. unfold fs_size. rewrite prim_quiet. by rewrite H. Qed.

Lemma bind_try_err {A B} (m : io A) (k : A + error -> io B) w e w' : m w = (Err e, w') ->
  io_bind (try m) k w = k (inr e) w'.
Proof. intros H. unfold io_bind, try. by rewrite H. Qed.

Lemma bytes_at_None f p : bytes_at f p = None <-> f !! p = None.
Proof. unfold bytes_at. by rewrite fmap_None. Qed.

Lemma readWalFlushState_quiet f :
  (forall data, bytes_at f walFlushStateName = Some data -> 16 <= zlen data) ->
  readWalFlushState (mkWorld f []) = (Ok ((fun data => mkFlushState (int64 (get_u64 data)) (get_u64 (drop 8 data)))
    <$> bytes_at f walFlushStateName), mkWorld f []).
Proof.
  intros H. unfold readWalFlushState. destruct (bytes_at f walFlushStateName) as [data|] eqn:E.
  - specialize (H data eq_refl). apply bytes_at_Some in E as [dd E].
    rewrite (bind_try_ok _ _ _ _ _ (fs_read_quiet _ _ _ _ E)).
    destruct (Z.ltb_spec (zlen data) 16); [lia|]. done.
  - apply bytes_at_None in E. by rewrite (bind_try_err _ _ _ _ _ (fs_read_missing _ _ E)).
Qed.

Lemma walReplayStartOffset_quiet f m :
  (forall data, bytes_at f walFlushStateName = Some data -> 16 <= zlen data) ->
  walReplayStartOffset m (mkWorld f []) = (Ok (start_of f (Manifest.liveSet m)), mkWorld f []).
Proof.
  intros H. unfold walReplayStartOffset, start_of. rewrite (io_bind_ok _ _ _ _ _ (readWalFlushState_quiet f H)).
  destruct (bytes_at f walFlushStateName) as [data|]; [|done]. cbn [fmap option_fmap option_map FreezeOffset SSTID].
  unfold Manifest.Contains. destruct (bool_decide (get_u64 (drop 8 data) ∈ Manifest.liveSet m)); cbn [negb andb].
  2:{ by destruct (bytes_at f walName). }
  set (off := int64 (get_u64 data)).
  destruct (Z.ltb_spec off 0) as [Ho|Ho].
  { destruct (bytes_at f walName) as [c|]; [|done]. by destruct (Z.leb_spec 0 off); [lia|]. }
  destruct (bytes_at f walName) as [c|] eqn:Ec.
  - apply bytes_at_Some in Ec as [dc Ec]. rewrite (bind_try_ok _ _ _ _ _ (fs_size_quiet _ _ _ _ Ec)).
    destruct (Z.leb_spec 0 off); [|lia]. cbn [andb].
    destruct (Z.ltb_spec (zlen c) off), (Z.leb_spec off (zlen c)); try lia; done.
  - apply bytes_at_None in Ec. by rewrite (bind_try_err _ _ _ _ _ (fs_size_missing _ _ Ec)).
Qed.

(** * Orphans *)

(** No new file has the name of a table. *)
Definition grows (f f' : fsys) : Prop :=
  forall p, is_Some (f' !! p) -> is_Some (f !! p) \/ GoStr.sstFilePattern p = None.

Lemma grows_trans f1 f2 f3 : grows f1 f2 -> grows f2 f3 -> grows f1 f3.
Proof. intros H1 H2 p Hp. destruct (H2 p Hp) as [H|H]; [by apply H1|by right]. Qed.

Lemma grows_other f f' n : GoStr.sstFilePattern n = None -> (forall q, q <> n -> f' !! q = f !! q) -> grows f f'.
Proof.
  intros Hn H p Hp. destruct (decide (p = n)) as [->|Hne]; [by right|left]. by rewrite <- H.
Qed.

Lemma pattern_quarantine id : GoStr.sstFilePattern (quarantinePath id) = None.
Proof. reflexivity. Qed.

(** Files that are neither tables nor in quarantine. *)
Definition plain (q : string) : Prop := forall id, q <> GoStr.sstFilePath id /\ q <> quarantinePath id.

Lemma plain_manifest name : is_manifest name -> plain name.
Proof. intros [_ [s ->]] id. by split. Qed.

Definition kept (live : list Z) (q : string) : Prop :=
  plain q \/ exists id, id ∈ live /\ is_u64 id /\ q = GoStr.sstFilePath id.

Lemma kept_ne live id q : kept live q -> is_u64 id -> id ∉ live ->
  q <> GoStr.sstFilePath id /\ q <> quarantinePath id.
Proof.
  intros [Hp|(id' & Hl & Hu & ->)] Hid Hn; [apply Hp|]. split; [|done].
  intros H. apply GoStr.sstFilePath_inj in H; [congruence|done..].
Qed.

Lemma quarantine_one_quiet f id : exists f',
  ignore (quarantineSSTPath id) (mkWorld f []) = (Ok tt, mkWorld f' []) /\
  (forall q, q <> GoStr.sstFilePath id /\ q <> quarantinePath id -> f' !! q = f !! q) /\
  grows f f' /\ (settled f -> settled f').
Proof.
  unfold quarantineSSTPath, Manifest.mkdir, fs_rename, ignore, io_bind. io_cbn.
  destruct (f !! GoStr.sstFilePath id) as [[c dc]|] eqn:E; io_cbn; [|exists f; by repeat split; try left].
  eexists. split; [done|]. split; [|split].
  - intros q [H1 H2]. by rewrite lookup_insert_ne, lookup_delete_ne by done.
  - intros q. rewrite lookup_insert. case_decide as Hq; [subst q; by right|].
    rewrite lookup_delete. case_decide; [by intros [? ?]|by left].
  - intros Hs q fl. rewrite lookup_insert. case_decide.
    + intros [= <-]. by apply (Hs _ _ E).
    + rewrite lookup_delete. case_decide; [done|apply Hs].
Qed.

(** Moving the orphans away touches neither the live tables nor anything else. *)
Lemma quarantine_all_quiet live ids : forall f, Forall is_u64 ids ->
  exists f', quarantine_all ids live (mkWorld f []) = (Ok tt, mkWorld f' []) /\
    (forall q, kept live q -> f' !! q = f !! q) /\ grows f f' /\ (settled f -> settled f').
Proof.
  induction ids as [|id ids IH]; intros f Hu; [exists f; by repeat split; try left|].
  apply Forall_cons in Hu as [Hid Hids]. cbn [quarantine_all]. case_decide as Hl.
  - destruct (IH f Hids) as (f' & Hr & H). exists f'. split; [|done].
    by rewrite (io_bind_ok _ _ _ _ _ (eq_refl : io_ret tt (mkWorld f []) = (Ok tt, mkWorld f []))).
  - destruct (quarantine_one_quiet f id) as (f1 & Hq & H1 & H1g & H1s).
    destruct (IH f1 Hids) as (f' & Hr & H & Hg & Hs). exists f'.
    rewrite (io_bind_ok _ _ _ _ _ Hq). split; [done|]. split; [|split; [by eapply grows_trans|auto]].
    intros q Hk. rewrite H by done. apply H1. by apply (kept_ne live).
Qed.

Lemma ids_of_names_u64 names : Forall is_u64 (ids_of_names names).
Proof.
  induction names as [|n names IH]; [constructor|]. cbn [ids_of_names].
  destruct (GoStr.sstFilePattern n) as [s|]; [|done].
  destruct (GoStr.ParseUint s) as [id|] eqn:E; [|done]. constructor; [by eapply GoStr.ParseUint_u64|done].
Qed.

Lemma sort_ids_Forall (P : Z -> Prop) ids : Forall P ids -> Forall P (Manifest.sort_ids ids).
Proof. intros H. unfold Manifest.sort_ids. by rewrite merge_sort_Permutation. Qed.

Lemma removeOrphans_quiet f m : exists f',
  removeOrphanSSTFiles m (mkWorld f []) = (Ok tt, mkWorld f' []) /\
  (forall q, kept (Manifest.LiveIDs m) q -> f' !! q = f !! q) /\ grows f f' /\ (settled f -> settled f').
Proof.
  destruct (quarantine_all_quiet (Manifest.LiveIDs m)
    (Manifest.sort_ids (ids_of_names (fst <$> map_to_list f))) f) as (f' & H & ?).
  { apply sort_ids_Forall, ids_of_names_u64. }
  exists f'. split; [|done]. unfold removeOrphanSSTFiles. erewrite bind_try_ok; [exact H|].
  unfold discoverSSTIDs, fs_list, io_bind. by io_cbn.
Qed.

(** * The log *)

Lemma fs_open_create_quiet f p : exists f', fs_open_create p (mkWorld f []) = (Ok tt, mkWorld f' []) /\
  (forall q, q <> p -> f' !! q = f !! q) /\ bytes_at f' p = Some (default [] (bytes_at f p)) /\
  (settled f -> settled f').
Proof.
  unfold fs_open_create. rewrite prim_quiet. destruct (f !! p) as [fl|] eqn:E.
  - exists f. split; [done|]. split; [done|]. split; [|done]. unfold bytes_at. by rewrite E.
  - eexists. split; [done|]. split; [intros q Hq; by rewrite lookup_insert_ne|].
    rewrite bytes_at_insert_eq. split; [|apply settled_insert]. unfold bytes_at. by rewrite E.
Qed.

(** The handle of the log that [Open] makes. *)
Definition the_wal (limits : Wal.ReplayLimits) : Wal.WAL := Wal.mkWAL walName true (Wal.WithDefaults limits).

Definition recovered (recs : list entry) (d : DB) : DB :=
  maybeTriggerCompaction (set_wal (Some (the_wal (walLimits (cfg d))))
    (set_active (fold_left apply_record recs (active d)) d)).

Lemma wires_nil rs : zlen (Wal.wires rs) = 0 -> rs = [].
Proof.
  destruct rs as [|r rs]; [done|]. cbn [Wal.wires]. rewrite zlen_app, Wal.zlen_wire. unfold Wal.recordHeaderSize.
  pose proof (zlen_nonneg (Key r)). pose proof (zlen_nonneg (Value r)). pose proof (zlen_nonneg (Wal.wires rs)). lia.
Qed.

Lemma recover_wal_quiet f m d pre recs : let limits := walLimits (cfg d) in
  (forall data, bytes_at f walFlushStateName = Some data -> 16 <= zlen data) ->
  start_of f (Manifest.liveSet m) = zlen (Wal.wires pre) ->
  match bytes_at f walName with
  | None => recs = []
  | Some c => exists tail, c = Wal.wires pre ++ Wal.wires recs ++ tail /\
      Wal.torn_tail (Wal.WithDefaults limits) tail /\ zlen c <= Wal.MaxFileSize (Wal.WithDefaults limits)
  end ->
  Forall (Wal.admissible (Wal.WithDefaults limits)) recs ->
  exists f', recover_wal m d (mkWorld f []) = (Ok (recovered recs d), mkWorld f' []) /\
    bytes_at f' walName = Some (Wal.wires (pre ++ recs)) /\
    (forall q, q <> walName -> f' !! q = f !! q) /\ (settled f -> settled f').
Proof.
  intros limits Hck Hst Hw Ha. unfold recover_wal.
  rewrite (bind_try_ok _ _ _ _ _ (walReplayStartOffset_quiet f m Hck)), Hst.
  change replay_fn with (Wal.total_fn apply_record).
  assert (Hreplay : exists f1 v, Wal.ReplayFromWithRecovery (Wal.total_fn apply_record) walName limits
      (zlen (Wal.wires pre)) (active d) (mkWorld f []) =
      (Ok (fold_left apply_record recs (active d), v, None), mkWorld f1 []) /\
    default [] (bytes_at f1 walName) = Wal.wires (pre ++ recs) /\
    (forall q, q <> walName -> f1 !! q = f !! q) /\ (settled f -> settled f1)).
  { destruct (bytes_at f walName) as [c|] eqn:Ec.
    - destruct Hw as (tail & -> & Htail & Hsize).
      destruct (Wal.replay_recovers apply_record walName limits pre recs tail (active d) f Ec Ha Htail Hsize)
        as (f1 & Hr & Hb & Hq & Hs).
      exists f1, (zlen (Wal.wires (pre ++ recs))). split; [done|]. split; [by rewrite Hb|]. split; [done|].
      intros Hset q fl Hl. destruct (decide (q = walName)) as [->|Hne].
      + destruct (Hs _ (settled_file _ _ _ Hset Ec)) as (c' & Hc'). rewrite Hc' in Hl. by injection Hl as <-.
      + rewrite Hq in Hl by done. by apply (Hset q).
    - subst recs. apply bytes_at_None in Ec. exists f, 0. rewrite Wal.replay_missing by done. split; [done|].
      split; [|done]. rewrite app_nil_r. apply bytes_at_None in Ec. rewrite Ec.
      assert (Hp : zlen (Wal.wires pre) = 0).
      { rewrite <- Hst. unfold start_of. rewrite Ec. by destruct (bytes_at f walFlushStateName). }
      by rewrite (wires_nil _ Hp). }
  destruct Hreplay as (f1 & v & Hr & Hb & Hq & Hs). rewrite (io_bind_ok _ _ _ _ _ Hr).
  destruct (fs_open_create_quiet f1 walName) as (f2 & Ho & Hq2 & Hb2 & Hs2).
  exists f2. split.
  { erewrite bind_try_ok; [reflexivity|]. unfold Wal.OpenWithLimits. cbn [cfg set_active].
    by rewrite (io_bind_ok _ _ _ _ _ Ho). }
  split; [by rewrite Hb2, Hb|]. split; [|auto]. intros q Hne. by rewrite Hq2, Hq.
Qed.

(** * Open *)

(** What [Open] returns and leaves in the directory. *)
Record opened (opts : Options) (f : fsys) (name : string) (es : list Manifest.edit)
    (tables : list (Z * list (list entry))) (pre recs : list entry) (d : DB) (f' : fsys) : Prop := {
  op_cfg : cfg d = config_of opts;
  op_open : closed d = false;
  op_batch : pendingBatch d = [];
  op_queue : pendingFlush d = [];
  op_active : Mem.wf (active d) /\ Mem.contents (active d) = log_layer recs;
  op_snap : sstablesSnap d = sstables d;
  op_tables : Forall2 (table_at (heap d) f') (sstables d) tables;
  op_next : Forall (fun t => t.1 <= nextSSTID d) tables;
  op_next_id : nextSSTID d = 0 \/ nextSSTID d ∈ tables.*1;
  op_readers : parked_all (heap d);
  op_quiet : zlen tables < compactThreshold (cfg d) -> compactCh d = 0%nat;
  op_manifest : manifest d = Some (Manifest.mkLog name true (Manifest.live_of es) (zlen es));
  op_wal : wal d = Some (the_wal (walLimits (config_of opts)));
  op_errors : bgErrs d = ∅;
  op_log : bytes_at f' walName = Some (Wal.wires (pre ++ recs));
  op_records : bytes_at f' name = Some (Manifest.records es);
  op_frame : forall q, q <> lockFileName -> q <> name -> q <> walName -> kept (tables.*1) q -> f' !! q = f !! q;
  op_grows : grows f f';
  op_settled : settled f -> settled f'
}.

Lemma ids_of_names_nil names : Forall (fun p => GoStr.sstFilePattern p = None) names -> ids_of_names names = [].
Proof. induction 1 as [|n names Hn _ IH]; [done|]. cbn [ids_of_names]. by rewrite Hn. Qed.

(** No table is adopted unless the manifest is empty and there are table files. *)
Lemma Bootstrap_quiet f m :
  (Manifest.liveSet m = ∅ -> forall p, is_Some (f !! p) -> GoStr.sstFilePattern p = None) ->
  Manifest.BootstrapIfEmpty m (Manifest.sort_ids (ids_of_names (fst <$> map_to_list f))) (mkWorld f []) =
    (Ok (m, None), mkWorld f []).
Proof.
  intros H. unfold Manifest.BootstrapIfEmpty. case_bool_decide as He; [|done].
  rewrite ids_of_names_nil; [done|]. apply Forall_forall. intros p Hp.
  apply list_elem_of_fmap in Hp as ([p' fl] & -> & Hp). apply elem_of_map_to_list in Hp. by apply H.
Qed.

Lemma acquireDirLock_quiet f : exists f', acquireDirLock None (mkWorld f []) = (Ok tt, mkWorld f' []) /\
  (forall q, q <> lockFileName -> f' !! q = f !! q) /\ (settled f -> settled f').
Proof.
  destruct (fs_open_create_quiet f lockFileName) as (f' & Ho & Hq & _ & Hs). exists f'. split; [|done].
  unfold acquireDirLock. by rewrite (bind_try_ok _ _ _ _ _ Ho).
Qed.

Lemma sst_file_same f f' t : f' !! GoStr.sstFilePath t.1 = f !! GoStr.sstFilePath t.1 ->
  sst_file f t -> sst_file f' t.
Proof. intros E (Hu & bs & Hb & Hi). split; [done|]. exists bs. split; [|done]. unfold bytes_at. by rewrite E. Qed.

Lemma table_at_same h f f' p t : f' !! GoStr.sstFilePath t.1 = f !! GoStr.sstFilePath t.1 ->
  table_at h f p t -> table_at h f' p t.
Proof.
  intros E (r & Hr & Hl & Ht & Hp & Hd). exists r. split; [done|]. split; [done|]. split; [|done].
  eapply SstMerge.table_same; [done|]. unfold SstReader.Path in Hp. unfold bytes_at. by rewrite Hp, E.
Qed.

Lemma start_of_same f f' live : f' !! walFlushStateName = f !! walFlushStateName -> f' !! walName = f !! walName ->
  start_of f' live = start_of f live.
Proof. intros H1 H2. unfold start_of, bytes_at. by rewrite H1, H2. Qed.

Lemma loadSSTables_ok d d' m w w' : load_ids (Manifest.LiveIDs m) d w = (Ok (d', None), w') ->
  loadSSTables m d w = (Ok (publishSSTables d', None), w').
Proof. intros H. unfold loadSSTables. by rewrite (io_bind_ok _ _ _ _ _ H). Qed.

(** The handle behind the tables, before the log is replayed. *)
Lemma open_tables_quiet opts coins f name es tables pre recs d0 :
  on_disk (walLimits (config_of opts)) f name es tables pre recs ->
  let m := Manifest.mkLog name true (Manifest.live_of es) (zlen es) in
  (forall q, q <> lockFileName -> d0 !! q = f !! q) ->
  exists dn h l a k n d1,
    open_body opts coins (mkWorld d0 []) =
      recover_wal m (set_manifest (Some m) (publishSSTables (set_nextFileID n (set_nextSSTID k (set_allReaders a
        (set_sstables l (set_heap h (empty_db opts coins)))))))) (mkWorld d1 []) /\
    Forall2 (table_at h (<[name := File (Manifest.records es) dn]> d0)) l tables /\
    Forall (fun t => t.1 <= k) tables /\ parked_all h /\ (k = 0 \/ k ∈ tables.*1) /\
    (forall q, kept (tables.*1) q -> d1 !! q = <[name := File (Manifest.records es) dn]> d0 !! q) /\
    grows d0 d1 /\ (settled d0 -> settled d1).
Proof.
  intros [[Hn [s Hs]] He (tail & Htail & Hcur & [dn0 Hrec]%bytes_at_Some) Hids Htabs Horph Hck Hst Hwal Hadm] m H0.
  assert (Hlock : name <> lockFileName) by (by rewrite Hs).
  destruct (Manifest.Open_at d0 name es tail dn0 Hn He Htail) as (dn & Ho & Hdn).
  { unfold bytes_at. by rewrite H0. }
  { by rewrite H0. }
  set (f2 := <[name := File (Manifest.records es) dn]> d0) in *.
  assert (Hsst : forall t, f2 !! GoStr.sstFilePath t = f !! GoStr.sstFilePath t).
  { intros t. unfold f2. rewrite lookup_insert_ne by (by rewrite Hs). by apply H0. }
  assert (Htabs2 : Forall (sst_file f2) tables).
  { eapply Forall_impl; [exact Htabs|]. intros t. apply sst_file_same, Hsst. }
  destruct (load_ids_quiet f2 tables (empty_db opts coins) Htabs2) as (h & l & a & k & n & Hload & _ & HF & _ & Hk & Hpark & Hmax).
  destruct (removeOrphans_quiet f2 m) as (d1 & Hrm & Hkeep & Hgrow & Hset).
  exists dn, h, l, a, k, n, d1. split.
  { unfold open_body. rewrite (io_bind_ok _ _ _ _ _ Ho).
    rewrite (bind_try_ok discoverSSTIDs _ _ (Manifest.sort_ids (ids_of_names (fst <$> map_to_list f2))) (mkWorld f2 []))
      by (unfold discoverSSTIDs, fs_list, io_bind; by io_cbn).
    rewrite (io_bind_ok _ _ _ _ _ (Bootstrap_quiet f2 m
      ltac:(intros Hl p Hp; destruct (decide (p = lockFileName)) as [->|Hp1]; [vm_compute; reflexivity|];
            destruct (decide (p = name)) as [->|Hp2]; [by rewrite Hs|];
            apply (Horph Hl); unfold f2 in Hp; by rewrite lookup_insert_ne, H0 in Hp by done))).
    rewrite <- Hids in Hload.
    rewrite (io_bind_ok _ _ _ _ _ (loadSSTables_ok _ _ m _ _ Hload)).
    by rewrite (io_bind_ok _ _ _ _ _ Hrm). }
  split; [done|]. split; [done|]. split; [apply Hpark, map_Forall_empty|]. split; [done|]. unfold Manifest.LiveIDs in Hkeep. cbn [Manifest.liveSet m] in Hkeep.
  rewrite Hids in Hkeep. split; [done|]. split.
  { eapply grows_trans; [|exact Hgrow]. apply (grows_other _ _ name); [by rewrite Hs|].
    intros q Hq. unfold f2. by rewrite lookup_insert_ne. }
  intros Hs0. apply Hset. unfold f2.
  rewrite Hdn; [by apply settled_insert|]. rewrite <- H0 in Hrec by done. by apply (Hs0 _ _ Hrec).
Qed.

Lemma maybeTriggerCompaction_eq d : exists n, maybeTriggerCompaction d = set_compactCh n d /\
  (closed d = true \/ zlen (sstables d) < compactThreshold (cfg d) -> n = compactCh d).
Proof.
  unfold maybeTriggerCompaction. destruct (closed d || _ || _) eqn:E.
  { exists (compactCh d). split; [by destruct d|done]. }
  eexists. split; [done|]. apply orb_false_iff in E as [[E1 _]%orb_false_iff E3]. intros [H|H]; [congruence|lia].
Qed.

(** [Open] rebuilds what the directory holds. *)
Lemma Open_opened opts coins f name es tables pre recs : Dir opts <> ""%string ->
  on_disk (walLimits (config_of opts)) f name es tables pre recs ->
  exists d f', Open opts None coins (mkWorld f []) = (Ok d, mkWorld f' []) /\
    opened opts f name es tables pre recs d f'.
Proof.
  intros Hdir Hod. destruct (acquireDirLock_quiet f) as (f0 & Hlock & H0 & Hs0).
  destruct (open_tables_quiet opts coins f name es tables pre recs f0 Hod H0)
    as (dn & h & l & a & k & n & d1 & Hbody & HF & Hk & Hpark & Hmax & Hkeep & Hg1 & Hs1).
  pose proof Hod as [[Hn [s Hs]] He _ Hids Htabs Horph Hck Hst Hwal Hadm].
  set (m := Manifest.mkLog name true (Manifest.live_of es) (zlen es)) in *.
  set (d := set_manifest (Some m) _) in *.
  assert (Hplain : forall q, plain q -> q <> lockFileName -> q <> name -> d1 !! q = f !! q).
  { intros q Hq Hl Hnm. rewrite Hkeep by (by left). rewrite lookup_insert_ne by done. by apply H0. }
  assert (Hfl : d1 !! walFlushStateName = f !! walFlushStateName)
    by (apply Hplain; [by intros id; split|done|by rewrite Hs]).
  assert (Hwl : d1 !! walName = f !! walName) by (apply Hplain; [by intros id; split|done|by rewrite Hs]).
  destruct (recover_wal_quiet d1 m d pre recs) as (f' & Hrec & Hlog & Hq & Hs2).
  { unfold bytes_at. by rewrite Hfl. }
  { by rewrite (start_of_same f). }
  { unfold bytes_at. rewrite Hwl. exact Hwal. }
  { done. }
  exists (recovered recs d), f'. split.
  { unfold Open. rewrite decide_False by done.
    rewrite (io_bind_ok Manifest.mkdir _ (mkWorld f []) tt (mkWorld f [])) by reflexivity. rewrite (io_bind_ok _ _ _ _ _ Hlock), Hbody. exact Hrec. }
  unfold recovered. destruct (maybeTriggerCompaction_eq (set_wal (Some (the_wal (walLimits (cfg d))))
    (set_active (fold_left apply_record recs (active d)) d))) as [cc [-> Hcc]].
  destruct (Mem.NewSkipList_wf (hd [] coins)) as [Hmwf Hmsnap].
  destruct (apply_records_contents recs (Mem.NewSkipList (hd [] coins)) Hmwf) as [Hwf Hcont].
  assert (Hwn : walName <> name) by (by rewrite Hs).
  split; try done.
  - split; [exact Hwf|]. etransitivity; [exact Hcont|]. unfold Mem.contents. rewrite Hmsnap.
    apply (map_union_empty (M := gmap bytes)).
  - change (Forall2 (table_at h f') l tables). apply Forall2_same_length_lookup.
    pose proof HF as [Hlen HF']%Forall2_same_length_lookup. split; [done|]. intros i p t Hp Ht.
    apply (table_at_same _ (<[name := File (Manifest.records es) dn]> f0)); [|by apply (HF' i)].
    rewrite Hq by done. apply Hkeep. right. exists t.1.
    rewrite Forall_forall in Htabs. assert (Hin : t ∈ tables) by (apply list_elem_of_lookup; by exists i).
    split; [by apply list_elem_of_fmap; exists t|]. split; [by apply Htabs|done].
  - intros Hlt. etransitivity; [apply Hcc|done]. right. apply Forall2_length in HF.
    change (zlen l < compactThreshold (cfg d)). unfold zlen in *. cbn in Hlt. by rewrite HF.
  - unfold bytes_at. rewrite Hq by done. rewrite Hkeep.
    + by rewrite lookup_insert_eq.
    + left. apply plain_manifest. by split; [|exists s].
  - intros q Hl Hnm Hw Hkq. rewrite Hq by done. rewrite Hkeep by done. rewrite lookup_insert_ne by done. by apply H0.
  - apply (grows_trans f f0); [by apply (grows_other _ _ lockFileName)|].
    apply (grows_trans f0 d1); [done|by apply (grows_other _ _ walName)].
  - auto.
Qed.

End DbRecover.
