(* ===== verification/DbInv.v ===== *)
(** The invariant that ties a handle to its directory, and what it gives: [Open]
    establishes it, a commit that is cut short by a loss of power leaves a directory
    from which [Open] recovers every acknowledged write. *)

From Stdlib Require Import ZArith Lia.
From S2P Require Import Prelude Word Fs GoStr Memtable Wal Manifest Bloom SstFormat SstWriter SstReader.
From S2P Require Import MergeIter SstMerge SstTable DbState DbFlush DbWrite DbRead DbCompact DbOpen DbRecover.

Module DbInv.
Import Db DbFlush DbOpen DbRead DbRecover SstTable.

(** A table file all of which is durable. *)
Definition sst_durable (f : fsys) (t : Z * list (list entry)) : Prop :=
  is_u64 t.1 /\ exists bs, f !! GoStr.sstFilePath t.1 = Some (File bs bs) /\ sst_image t.2 bs.

(** The log is cut into the records of the queued memtables, oldest first, and the
    records of the active one; each cutoff is the end of its part. *)
Record segmented (d : DB) (logged : list entry) (segs : list (list entry)) (cur : list entry) : Prop := {
  sg_log : logged = concat segs ++ cur;
  sg_queue : Forall2 (fun e seg => Mem.contents (mem e) = log_layer seg) (pendingFlush d) segs;
  sg_cutoff : forall i e, pendingFlush d !! i = Some e ->
    walCutoff e = zlen (Wal.wires (concat (take (S i) segs)));
  sg_active : Mem.contents (active d) = log_layer cur
}.

Definition limits_of (d : DB) : Wal.ReplayLimits := Wal.WithDefaults (walLimits (cfg d)).

Definition manifest_inv (d : DB) (f : fsys) (es : list Manifest.edit) : Prop :=
  exists l, manifest d = Some l /\ is_manifest (Manifest.path l) /\ Manifest.file l = true /\
    Manifest.liveSet l = Manifest.live_of es /\ Manifest.good f (Manifest.path l) es.

Record db_inv (d : DB) (f : fsys) (es : list Manifest.edit) (tables : list (Z * list (list entry)))
    (logged : list entry) : Prop := {
  di_mem : DbWrite.mem_wf d;
  di_snap : sstablesSnap d = sstables d;
  di_tables : Forall2 (table_at (heap d) f) (sstables d) tables;
  di_files : Forall (sst_durable f) tables;
  di_manifest : manifest_inv d f es;
  di_edits : Forall Manifest.edit_ok es;
  di_ids : Manifest.sort_ids (elements (Manifest.live_of es)) = tables.*1;
  di_next : Forall (fun t => t.1 <= nextSSTID d) tables;
  di_wal : wal d = Some (the_wal (walLimits (cfg d)));
  di_log : f !! walName = Some (File (Wal.wires logged) (Wal.wires logged));
  di_admissible : Forall (Wal.admissible (limits_of d)) logged;
  di_checkpoint : f !! walFlushStateName = None;
  di_orphans : Manifest.live_of es = ∅ -> forall p, is_Some (f !! p) -> GoStr.sstFilePattern p = None;
  di_segments : exists segs cur, segmented d logged segs cur;
  di_readers : parked_all (heap d)
}.

(** * What the invariant says of the contents *)

Lemma queue_layer_segs q segs :
  Forall2 (fun e seg => Mem.contents (mem e) = log_layer seg) q segs ->
  DbWrite.queue_layer q = log_layer (concat segs).
Proof.
  induction 1 as [|e seg q segs He _ IH]; [done|]. cbn [DbWrite.queue_layer foldr concat].
  rewrite log_layer_app, <- He. by rewrite <- IH.
Qed.

Lemma db_inv_memory d f es tables logged : db_inv d f es tables logged ->
  DbWrite.memory_layer d = log_layer (logged ++ pendingBatch d).
Proof.
  intros [_ _ _ _ _ _ _ _ _ _ _ _ _ (segs & cur & [-> Hq _ Ha])]. unfold DbWrite.memory_layer.
  rewrite !log_layer_app, Ha. by rewrite (queue_layer_segs _ _ Hq).
Qed.

Lemma table_at_readable h f ps tables : Forall2 (table_at h f) ps tables ->
  Forall2 (fun p groups => exists r, h !! p = Some r /\ live r /\ SstReader.table f r groups) ps tables.*2.
Proof.
  intros HF. apply Forall2_fmap_r. eapply Forall2_impl; [exact HF|].
  intros p t (r & ? & ? & ? & _). by exists r.
Qed.

Lemma db_inv_readable d f es tables logged : db_inv d f es tables logged -> readable d f tables.*2.
Proof. intros []. split; [done|done|by apply table_at_readable]. Qed.

(** * Open establishes it *)

Lemma sst_file_durable f t : settled f -> sst_file f t -> sst_durable f t.
Proof.
  intros Hs (Hu & bs & Hb & Hi). split; [done|]. exists bs. split; [|done]. by apply settled_file.
Qed.

Lemma sst_durable_file f t : sst_durable f t -> sst_file f t.
Proof. intros (Hu & bs & Hb & Hi). split; [done|]. exists bs. split; [|done]. unfold bytes_at. by rewrite Hb. Qed.

Lemma plain_current : plain Manifest.currentFileName.
Proof. intros id. by split. Qed.

Lemma opened_inv opts f name es tables recs d f' : settled f -> f !! walFlushStateName = None ->
  on_disk (walLimits (config_of opts)) f name es tables [] recs ->
  opened opts f name es tables [] recs d f' ->
  db_inv d f' es tables recs.
Proof.
  intros Hset Hck [Hn He (tail & _ & Hcur & _) Hids Htabs Horph _ _ _ Hadm] []. pose proof (op_settled0 Hset) as Hset'.
  pose proof Hn as [_ [s Hs]].
  assert (Hkeep : forall t, t ∈ tables -> f' !! GoStr.sstFilePath t.1 = f !! GoStr.sstFilePath t.1).
  { intros t Ht. rewrite Forall_forall in Htabs. apply op_frame0; [done|by rewrite Hs|done|].
    right. exists t.1. split; [apply list_elem_of_fmap; by exists t|]. split; [by apply Htabs|done]. }
  split; try done.
  - split; [by apply op_active0|]. by rewrite op_queue0.
  - apply Forall_forall. intros t Ht. rewrite Forall_forall in Htabs. apply sst_file_durable; [done|].
    apply (sst_file_same f); [by apply Hkeep|by apply Htabs].
  - eexists. split; [exact op_manifest0|]. split; [done|]. split; [done|]. split; [done|].
    split; apply settled_file; try done. unfold bytes_at.
    rewrite op_frame0; [done|done| |done|left; apply plain_current]. by rewrite Hs.
  - by rewrite op_cfg0.
  - by apply settled_file.
  - unfold limits_of. by rewrite op_cfg0.
  - rewrite op_frame0; [done|done|by rewrite Hs|done|]. left. by intros id; split.
  - intros Hl p Hp. destruct (op_grows0 p Hp) as [H|H]; [by apply Horph|done].
  - exists [], recs. split; try done; [by rewrite op_queue0| |by apply op_active0].
    intros i e Hi. by rewrite op_queue0 in Hi.
Qed.

Lemma opened_contents opts f name es tables pre recs d f' : opened opts f name es tables pre recs d f' ->
  contents d tables.*2 = log_layer recs ∪ disk_layer tables.*2 /\ readable d f' tables.*2.
Proof.
  intros []. destruct op_active0 as [Hwf Hc]. split.
  { unfold contents, DbWrite.memory_layer. rewrite op_batch0, op_queue0, Hc. cbn [DbWrite.queue_layer foldr].
    change (log_layer []) with (∅ : layer).
    by rewrite (map_empty_union (M := gmap bytes)), (map_union_empty (M := gmap bytes)). }
  split; [|done|by apply table_at_readable]. split; [done|by rewrite op_queue0].
Qed.

(** * A commit and a loss of power *)

Lemma prim_no_effect_fs {A} (run : fsys -> res A * fsys) wd : (forall f, snd (run f) = f) ->
  fs (snd (prim no_effect run wd)) = fs wd.
Proof.
  intros H. unfold prim. destruct (faults wd) as [|[| |] fl]; try done;
    specialize (H (fs wd)); by destruct (run (fs wd)) as [r f].
Qed.

Lemma io_bind_fs {A B} (m : io A) (k : A -> io B) wd : (forall a wd', fs (snd (k a wd')) = fs wd') ->
  fs (snd (io_bind m k wd)) = fs (snd (m wd)).
Proof. intros H. unfold io_bind. by destruct (m wd) as [[a|e|] wd']; [apply H|..]. Qed.

Lemma try_fs {A} (m : io A) wd : fs (snd (try m wd)) = fs (snd (m wd)).
Proof. unfold try. by destruct (m wd) as [[a|e|] wd']. Qed.

Lemma Size_fs d wd : fs (snd (try (with_wal d Wal.Size) wd)) = fs wd.
Proof.
  rewrite try_fs. unfold with_wal. destruct (wal d) as [w|]; [|done]. unfold Wal.Size, Wal.on_file.
  destruct (Wal.wal_file w); [|done]. apply prim_no_effect_fs. intros f. by destruct (f !! _).
Qed.

Lemma batch_finish_fs batch d wd : fs (snd (DbWrite.batch_finish batch d wd)) = fs wd.
Proof.
  unfold DbWrite.batch_finish. rewrite io_bind_fs.
  - unfold maybeFlushLocked. destruct (Mem.Size _ <=? _); [done|]. rewrite io_bind_fs; [apply Size_fs|].
    by intros [off|e] wd'.
  - by intros [d' [b [e|]]] wd'.
Qed.

(** What a commit does to the directory is what [AppendBatch] does to it. *)
Lemma commit_fs d wd w : wal d = Some w ->
  fs (snd (DbWrite.flushPendingBatch d wd)) = fs (snd (Wal.AppendBatch w (pendingBatch d) wd)) /\
  forall d', fst (DbWrite.flushPendingBatch d wd) = Ok (d', None) ->
    fst (Wal.AppendBatch w (pendingBatch d) wd) = Ok tt.
Proof.
  intros Hw. unfold DbWrite.flushPendingBatch, DbWrite.batch_take, takePendingBatchLocked.
  destruct (pendingBatch d) as [|rec batch]; [done|].
  unfold DbWrite.batch_append, with_wal. cbn [wal barrier_begin set_inflight set_batchSizeBytes set_pendingBatch].
  rewrite Hw. set (b := rec :: batch). set (d1 := barrier_begin _).
  unfold io_bind, try. destruct (Wal.AppendBatch w b wd) as [[[]|e|] wd']; [|done..].
  split; [apply batch_finish_fs|done].
Qed.

Lemma AppendBatch_other w recs q Q : Wal.wal_path w <> q -> preserves (about q Q) (Wal.AppendBatch w recs).
Proof.
  intros Hq. unfold Wal.AppendBatch. destruct recs as [|r recs]; [apply preserves_ret|].
  assert (Hall : forall rs, preserves (about q Q) (Wal.append_all w rs)).
  { induction rs as [|x rs IH]; [apply preserves_ret|]. cbn [Wal.append_all]. apply preserves_bind; [|done].
    unfold Wal.appendRecordLocked. apply preserves_bind; [by intros wd|]. intros buf.
    unfold Wal.on_file. destruct (Wal.wal_file w); [by apply about_write|apply preserves_err]. }
  apply preserves_bind; [done|]. intros _. unfold Wal.on_file.
  destruct (Wal.wal_file w); [by apply about_sync_other|apply preserves_err].
Qed.

Lemma AppendBatch_frame w recs wd q : Wal.wal_path w <> q ->
  fs (snd (Wal.AppendBatch w recs wd)) !! q = fs wd !! q.
Proof. intros Hq. by apply (AppendBatch_other w recs q (fun o => o = fs wd !! q)). Qed.

Lemma power_loss_dom f f' p : power_loss f f' -> is_Some (f' !! p) -> is_Some (f !! p).
Proof. intros H [fl Hp]. specialize (H p). rewrite Hp in H. by destruct (f !! p). Qed.

Lemma power_loss_none f f' p : power_loss f f' -> f !! p = None -> f' !! p = None.
Proof. intros H Hp. specialize (H p). rewrite Hp in H. by destruct (f' !! p). Qed.

(** A directory that keeps the manifest and the tables of the handle, has no
    checkpoint, and whose log is [logged] with something torn behind it. *)
Lemma inv_on_disk d f es tables logged f1 f' recs tail : db_inv d f es tables logged ->
  (forall q, q <> walName -> f1 !! q = f !! q) -> power_loss f1 f' ->
  bytes_at f' walName = Some (Wal.wires recs ++ tail) -> Wal.torn_tail (limits_of d) tail ->
  zlen (Wal.wires recs ++ tail) <= Wal.MaxFileSize (limits_of d) ->
  Forall (Wal.admissible (limits_of d)) recs ->
  exists name, on_disk (walLimits (cfg d)) f' name es tables [] recs /\ settled f' /\
    f' !! walFlushStateName = None.
Proof.
  intros Hinv Hf1 Hpl Hwal Htail Hsize Hadm.
  destruct (di_manifest _ _ _ _ _ Hinv) as (l & _ & Hname & _ & _ & Hcur & Hrec).
  pose proof Hname as [_ [s Hs]].
  assert (Hck : f' !! walFlushStateName = None).
  { apply (power_loss_none f1); [done|]. rewrite Hf1 by done. by apply Hinv. }
  exists (Manifest.path l). split; [|split; [by eapply settled_power_loss|done]].
  split; try by apply Hinv.
  - done.
  - exists []. split; [apply Manifest.torn_nil|]. unfold Manifest.stored. rewrite app_nil_r.
    split; eapply Manifest.power_loss_same; try exact Hpl; rewrite Hf1; try done. by rewrite Hs.
  - eapply Forall_impl; [apply Hinv|]. intros t (Hu & bs & Hb & Hi). split; [done|]. exists bs. split; [|done].
    eapply Manifest.power_loss_same; [exact Hpl|]. by rewrite Hf1.
  - intros Hl p Hp. apply (power_loss_dom f1) in Hp; [|done].
    destruct (decide (p = walName)) as [->|Hne]; [done|]. rewrite Hf1 in Hp by done. by apply (di_orphans _ _ _ _ _ Hinv).
  - intros data. unfold bytes_at. by rewrite Hck.
  - unfold start_of, bytes_at. by rewrite Hck.
  - rewrite Hwal. exists tail. by split.
  - done.
Qed.

(** Wherever power is lost during a commit, the directory then holds the log and a
    prefix of the batch; all of the batch, if the commit had returned nil. *)
Lemma commit_power_loss d f es tables logged fl f' : db_inv d f es tables logged ->
  Forall (Wal.admissible (limits_of d)) (pendingBatch d) ->
  zlen (Wal.wires (logged ++ pendingBatch d)) <= Wal.MaxFileSize (limits_of d) ->
  power_loss (fs (snd (DbWrite.flushPendingBatch d (mkWorld f fl)))) f' ->
  exists name got rest, pendingBatch d = got ++ rest /\
    (forall d', fst (DbWrite.flushPendingBatch d (mkWorld f fl)) = Ok (d', None) -> rest = []) /\
    on_disk (walLimits (cfg d)) f' name es tables [] (logged ++ got) /\ settled f' /\
    f' !! walFlushStateName = None.
Proof.
  intros Hinv Ha Hsize Hpl. pose proof (di_wal _ _ _ _ _ Hinv) as Hw.
  destruct (commit_fs d (mkWorld f fl) _ Hw) as [Hfs Hok]. rewrite Hfs in Hpl.
  destruct (Wal.AppendBatch_power_loss (the_wal (walLimits (cfg d))) (limits_of d) (pendingBatch d)
    (Wal.wires logged) (mkWorld f fl) f' (di_log _ _ _ _ _ Hinv) Ha Hpl)
    as (got & rest & tail & Hsplit & Hdone & Hbytes & Htail & Hpre).
  rewrite app_assoc, <- Wal.wires_app in Hbytes.
  destruct (inv_on_disk d f es tables logged (fs (snd (Wal.AppendBatch (the_wal (walLimits (cfg d))) (pendingBatch d)
    (mkWorld f fl)))) f' (logged ++ got) tail Hinv) as (name & Hod & Hset & Hck); try done.
  - intros q Hq. by rewrite AppendBatch_frame.
  - rewrite !Wal.wires_app in *. rewrite <- app_assoc, zlen_app in *.
    destruct Hpre as [x Hx]. apply (f_equal zlen) in Hx. rewrite (zlen_app _ x) in Hx.
    pose proof (zlen_nonneg x). lia.
  - apply Forall_app. split; [by apply Hinv|]. rewrite Hsplit in Ha. by apply Forall_app in Ha as [Ha _].
  - exists name, got, rest. split; [done|]. split; [|done]. intros d' Hd. apply Hdone. by apply (Hok d').
Qed.

(** Queuing a record keeps the invariant: it is only in memory. *)
Lemma enqueue_inv rec d f es tables logged : db_inv d f es tables logged ->
  db_inv (DbWrite.enqueue rec d) f es tables logged.
Proof. intros []. split; try done. destruct di_segments0 as (segs & cur & []). by exists segs, cur. Qed.

Lemma settled_opened opts coins d f es tables logged recs name f' : Dir opts <> ""%string ->
  db_inv d f es tables logged -> walLimits (config_of opts) = walLimits (cfg d) ->
  on_disk (walLimits (cfg d)) f' name es tables [] recs -> settled f' -> f' !! walFlushStateName = None ->
  exists d2 f2, Open opts None coins (mkWorld f' []) = (Ok d2, mkWorld f2 []) /\
    db_inv d2 f2 es tables recs /\ pendingBatch d2 = [] /\ closed d2 = false /\
    contents d2 tables.*2 = log_layer recs ∪ disk_layer tables.*2.
Proof.
  intros Hdir Hinv Hlim Hod Hset Hck. rewrite <- Hlim in Hod.
  destruct (Open_opened opts coins f' name es tables [] recs Hdir Hod) as (d2 & f2 & Ho & Hop).
  pose proof (opened_inv _ _ _ _ _ _ _ _ Hset Hck Hod Hop) as Hinv2.
  exists d2, f2. split; [done|]. split; [done|]. split; [by apply Hop|]. split; [by apply Hop|].
  unfold contents. rewrite (db_inv_memory _ _ _ _ _ Hinv2), (op_batch _ _ _ _ _ _ _ _ _ Hop). by rewrite app_nil_r.
Qed.

Lemma contents_split d f es tables logged got : db_inv d f es tables logged ->
  log_layer (logged ++ got) ∪ disk_layer tables.*2 =
  log_layer got ∪ (log_layer logged ∪ disk_layer tables.*2).
Proof. intros _. by rewrite log_layer_app, (map_union_assoc (M := gmap bytes)). Qed.

Lemma db_inv_contents d f es tables logged : db_inv d f es tables logged ->
  contents d tables.*2 = log_layer (logged ++ pendingBatch d) ∪ disk_layer tables.*2.
Proof. intros H. unfold contents. by rewrite (db_inv_memory _ _ _ _ _ H). Qed.

(** * A commit without faults *)

Lemma append_all_quiet w recs : forall f c d, Wal.wal_file w = true ->
  Forall (Wal.admissible (Wal.wal_limits w)) recs -> f !! Wal.wal_path w = Some (File c d) ->
  exists f', Wal.append_all w recs (mkWorld f []) = (Ok tt, mkWorld f' []) /\
    f' !! Wal.wal_path w = Some (File (c ++ Wal.wires recs) d) /\
    (forall q, q <> Wal.wal_path w -> f' !! q = f !! q).
Proof.
  induction recs as [|r recs IH]; intros f c d Hw Ha Hf.
  { exists f. by rewrite app_nil_r. }
  apply Forall_cons in Ha as [Hr Ha]. cbn [Wal.append_all Wal.wires].
  destruct (IH (<[Wal.wal_path w := File (c ++ Wal.wire r) d]> f) (c ++ Wal.wire r) d Hw Ha) as (f' & Hrun & Hf' & Hq).
  { by rewrite lookup_insert_eq. }
  exists f'. split; [|split].
  - erewrite io_bind_ok; [exact Hrun|]. unfold Wal.appendRecordLocked.
    rewrite (io_bind_ok _ _ _ (Wal.wire r) (mkWorld f [])) by (by rewrite Wal.encodeRecord_wire).
    unfold Wal.on_file. rewrite Hw. by apply fs_write_quiet.
  - by rewrite Hf', <- app_assoc.
  - intros q Hne. rewrite Hq by done. by rewrite lookup_insert_ne.
Qed.

Lemma AppendBatch_quiet w recs f c : Wal.wal_file w = true ->
  Forall (Wal.admissible (Wal.wal_limits w)) recs -> f !! Wal.wal_path w = Some (File c c) ->
  exists f', Wal.AppendBatch w recs (mkWorld f []) = (Ok tt, mkWorld f' []) /\
    f' !! Wal.wal_path w = Some (File (c ++ Wal.wires recs) (c ++ Wal.wires recs)) /\
    (forall q, q <> Wal.wal_path w -> f' !! q = f !! q).
Proof.
  intros Hw Ha Hf. unfold Wal.AppendBatch. destruct recs as [|r recs].
  { exists f. by rewrite app_nil_r. }
  destruct (append_all_quiet w (r :: recs) f c c Hw Ha Hf) as (f' & Hrun & Hf' & Hq).
  eexists. rewrite (io_bind_ok _ _ _ _ _ Hrun). unfold Wal.on_file. rewrite Hw, (fs_sync_quiet _ _ _ _ Hf').
  split; [done|]. split; [by rewrite lookup_insert_eq|]. intros q Hne. by rewrite lookup_insert_ne, Hq.
Qed.

(** The invariant only looks at these parts of the handle and of the directory. *)
Lemma db_inv_log d f es tables logged d' f' logged' : db_inv d f es tables logged ->
  DbWrite.same_tables d d' -> nextSSTID d' = nextSSTID d -> DbWrite.mem_wf d' ->
  (forall q, q <> walName -> f' !! q = f !! q) ->
  f' !! walName = Some (File (Wal.wires logged') (Wal.wires logged')) ->
  Forall (Wal.admissible (limits_of d)) logged' ->
  (exists segs cur, segmented d' logged' segs cur) ->
  db_inv d' f' es tables logged'.
Proof.
  intros [] (E1 & E2 & E3 & E4 & E5 & E6 & E7) En Hwf Hq Hl Ha Hseg.
  unfold limits_of in *. split; try done; rewrite ?E1, ?E2, ?E3, ?E6, ?E7, ?En; try done.
  - apply Forall2_same_length_lookup. apply Forall2_same_length_lookup in di_tables0 as [Hlen HF].
    split; [done|]. intros i p t Hp Ht. apply (table_at_same _ f); [by apply Hq|by apply (HF i)].
  - eapply Forall_impl; [exact di_files0|]. intros t (Hu & bs & Hb & Hi). split; [done|]. exists bs.
    by rewrite Hq.
  - destruct di_manifest0 as (l & Hm & Hn & Hf & Hlive & Hg1 & Hg2). exists l. rewrite E4.
    split; [done|]. split; [done|]. split; [done|]. split; [done|]. pose proof Hn as [_ [s Hs]].
    split; rewrite Hq; try done. by rewrite Hs.
  - unfold limits_of. by rewrite E6.
  - by rewrite Hq.
  - intros Hlv p Hp. destruct (decide (p = walName)) as [->|Hne]; [done|]. rewrite Hq in Hp by done.
    by apply di_orphans0.
Qed.

(** Applying the batch extends the part of the active memtable. *)
Lemma segmented_apply d logged segs cur batch : DbWrite.mem_wf d -> segmented d logged segs cur ->
  segmented (fold_left applyRecordToMemtable batch d) (logged ++ batch) segs (cur ++ batch).
Proof.
  intros [Ha _] [Hl Hq Hc Hact]. rewrite DbWrite.apply_batch_eq.
  destruct (apply_records_contents batch (active d) Ha) as [_ Hcont]. split; cbn.
  - by rewrite Hl, app_assoc.
  - done.
  - done.
  - by rewrite Hcont, Hact, log_layer_app.
Qed.

(** Freezing at the end of the log cuts it there. *)
Lemma segmented_freeze d logged segs cur : segmented d logged segs cur ->
  segmented (freeze (zlen (Wal.wires logged)) d) logged (segs ++ [cur]) [].
Proof.
  intros [Hl Hq Hc Hact]. destruct (Mem.NewSkipList_wf (hd [] (seeds d))) as [_ Hsnap].
  pose proof (Forall2_length _ _ _ Hq) as Hlen. split.
  - by rewrite concat_app, app_nil_r; cbn; rewrite app_nil_r.
  - cbn. apply Forall2_app; [done|]. by repeat constructor.
  - cbn. intros i e Hi. apply lookup_app_Some in Hi as [Hi|[Hge Hi]].
    + rewrite take_app_le by (apply lookup_lt_Some in Hi; lia). by apply Hc.
    + apply list_lookup_singleton_Some in Hi as [Hi <-]. cbn. rewrite take_ge by (rewrite length_app; cbn; lia).
      rewrite concat_app. cbn. rewrite app_nil_r. by rewrite Hl.
  - change (Mem.contents (Mem.NewSkipList (hd [] (seeds d))) = log_layer []). unfold Mem.contents. by rewrite Hsnap.
Qed.

Lemma Size_quiet d f c w : wal d = Some w -> Wal.wal_file w = true -> bytes_at f (Wal.wal_path w) = Some c ->
  with_wal d Wal.Size (mkWorld f []) = (Ok (zlen c), mkWorld f []).
Proof.
  intros Hw Hf [dc Hc]%bytes_at_Some. unfold with_wal, Wal.Size, Wal.on_file. rewrite Hw, Hf. by eapply fs_size_quiet.
Qed.

(** A commit leaves the queue as it is, or freezes the active memtable. *)
Definition queue_step (d d' : DB) : Prop :=
  nextSSTID d' = nextSSTID d /\ compactCh d' = compactCh d /\
  (pendingFlush d' = pendingFlush d \/
   exists e, pendingFlush d' = pendingFlush d ++ [e] /\ Mem.Size (active d') = 0).

(** What a round of the writer, frozen or not, does to the cut of the log. *)
Lemma maybeFlush_quiet d f logged segs cur w : wal d = Some w -> Wal.wal_file w = true ->
  bytes_at f (Wal.wal_path w) = Some (Wal.wires logged) -> segmented d logged segs cur -> DbWrite.mem_wf d ->
  exists d' b segs' cur', maybeFlushLocked d (mkWorld f []) = (Ok (d', (b, None)), mkWorld f []) /\
    segmented d' logged segs' cur' /\ DbWrite.mem_wf d' /\ DbWrite.same_tables d d' /\
    queue_step d d' /\ pendingBatch d' = pendingBatch d /\
    DbWrite.memory_layer d' = DbWrite.memory_layer d.
Proof.
  intros Hw Hf Hb Hseg Hwf. unfold maybeFlushLocked. destruct (Mem.Size (active d) <=? memtableSize (cfg d)).
  { exists d, false, segs, cur. split; [done|]. split; [done|]. split; [done|]. split; [done|].
    split; [|done]. split; [done|]. split; [done|by left]. }
  rewrite (bind_try_ok _ _ _ _ _ (Size_quiet d f _ w Hw Hf Hb)).
  destruct (DbWrite.freeze_layer (zlen (Wal.wires logged)) d) as [Hlayer Hwf'].
  exists (freeze (zlen (Wal.wires logged)) d), true, (segs ++ [cur]), [].
  split; [done|]. split; [by apply segmented_freeze|]. split; [by apply Hwf'|]. split; [done|].
  split; [|done]. split; [done|]. split; [done|]. right. by eexists.
Qed.

Lemma notify_fields d b : exists n, (if (b : bool) then notifyFlush d else d) = set_flushCh n d.
Proof.
  destruct b; [|exists (flushCh d); by destruct d]. unfold notifyFlush, signalFlush.
  destruct (negb false && closed d); [exists (flushCh d); by destruct d|by eexists].
Qed.

(** A commit without faults succeeds, logs the batch and keeps the contents. *)
Lemma commit_inv d f es tables logged : db_inv d f es tables logged ->
  Forall (Wal.admissible (limits_of d)) (pendingBatch d) ->
  exists d' f', DbWrite.flushPendingBatch d (mkWorld f []) = (Ok (d', None), mkWorld f' []) /\
    db_inv d' f' es tables (logged ++ pendingBatch d) /\ pendingBatch d' = [] /\
    contents d' tables.*2 = contents d tables.*2 /\ cfg d' = cfg d /\ closed d' = closed d /\ queue_step d d'.
Proof.
  intros Hinv Ha. pose proof (di_wal _ _ _ _ _ Hinv) as Hw. pose proof (di_mem _ _ _ _ _ Hinv) as Hwf.
  destruct (di_segments _ _ _ _ _ Hinv) as (segs & cur & Hseg).
  assert (Hgoal : exists d' f' segs' cur', DbWrite.flushPendingBatch d (mkWorld f []) = (Ok (d', None), mkWorld f' []) /\
    segmented d' (logged ++ pendingBatch d) segs' cur' /\ DbWrite.mem_wf d' /\ DbWrite.same_tables d d' /\
    queue_step d d' /\ pendingBatch d' = [] /\ (forall q, q <> walName -> f' !! q = f !! q) /\
    f' !! walName = Some (File (Wal.wires (logged ++ pendingBatch d)) (Wal.wires (logged ++ pendingBatch d)))).
  { destruct (AppendBatch_quiet (the_wal (walLimits (cfg d))) (pendingBatch d) f (Wal.wires logged) eq_refl Ha
      (di_log _ _ _ _ _ Hinv)) as (f' & Happ & Hf' & Hq). rewrite <- Wal.wires_app in Hf'.
    unfold DbWrite.flushPendingBatch, DbWrite.batch_take, takePendingBatchLocked.
    destruct (pendingBatch d) as [|rec batch] eqn:Ep.
    { exists d, f, segs, cur. rewrite app_nil_r. do 4 (split; [done|]).
      split; [split; [done|]; split; [done|by left]|]. split; [done|]. split; [done|]. by apply Hinv. }
    set (b := rec :: batch) in *. set (d1 := barrier_begin _).
    rewrite (io_bind_ok _ _ _ (inl tt) (mkWorld f' [])).
    2:{ unfold DbWrite.batch_append. apply (try_run _ _ (Ok tt)). unfold with_wal. cbn [wal d1 barrier_begin
          set_inflight set_batchSizeBytes set_pendingBatch]. by rewrite Hw. }
    destruct (DbWrite.apply_batch_layer d1 b Hwf eq_refl) as (_ & Hwf2 & Hst & Hp2 & _).
    unfold DbWrite.batch_finish. set (d2 := fold_left applyRecordToMemtable b d1) in *.
    assert (Hseg2 : segmented d2 (logged ++ b) segs (cur ++ b)) by (apply segmented_apply; [done|by destruct Hseg]).
    destruct (maybeFlush_quiet d2 f' (logged ++ b) segs (cur ++ b) (the_wal (walLimits (cfg d))))
      as (d3 & fz & segs' & cur' & Hrun & Hseg3 & Hwf3 & Hst3 & Hn3 & Hp3 & _); try done.
    { destruct Hst as (_ & _ & _ & _ & _ & _ & E). rewrite E. exact Hw. }
    { unfold bytes_at. cbn [Wal.wal_path the_wal] in *. by rewrite Hf'. }
    rewrite (io_bind_ok _ _ _ _ _ Hrun). destruct (notify_fields d3 fz) as [n ->].
    eexists _, f', segs', cur'. split; [done|]. split; [by destruct Hseg3|].
    split; [done|]. split.
    { unfold DbWrite.same_tables in *. cbn in *. destruct_and!. repeat split; congruence. }
    split; [|by rewrite Hp2 in Hp3]. unfold d2 in Hn3. rewrite DbWrite.apply_batch_eq in Hn3. exact Hn3. }
  destruct Hgoal as (d' & f' & segs' & cur' & Hrun & Hseg' & Hwf' & Hst & Hn & Hp & Hq & Hlog).
  assert (Hinv' : db_inv d' f' es tables (logged ++ pendingBatch d)).
  { eapply db_inv_log; try done; [by apply Hn| |by exists segs', cur']. apply Forall_app. split; [by apply Hinv|done]. }
  exists d', f'. split; [done|]. split; [done|]. split; [done|]. split; [|by split; [apply Hst|split; [apply Hst|]]].
  rewrite (db_inv_contents _ _ _ _ _ Hinv'), (db_inv_contents _ _ _ _ _ Hinv), Hp. by rewrite app_nil_r.
Qed.

(** With [SyncWrites], an acknowledged write is in the log behind the batch. *)
Lemma write_commits rec d wd d' : syncWrites (cfg d) = true ->
  fst (DbWrite.writeRecord rec d wd) = Ok (d', None) ->
  DbWrite.writeRecord rec d wd = DbWrite.flushPendingBatch (DbWrite.enqueue rec d) wd.
Proof.
  intros Hs. unfold DbWrite.writeRecord. destruct (writeBlockingBackgroundErr d); [done|].
  destruct (closed d); [done|]. unfold DbWrite.flush_now.
  change (syncWrites (cfg (DbWrite.enqueue rec d))) with (syncWrites (cfg d)). by rewrite Hs.
Qed.

Lemma enqueue_batch rec d : pendingBatch (DbWrite.enqueue rec d) = pendingBatch d ++ [rec].
Proof. by destruct rec. Qed.

Lemma write_inv rec d f es tables logged d' f' : db_inv d f es tables logged -> syncWrites (cfg d) = true ->
  Forall (Wal.admissible (limits_of d)) (pendingBatch d ++ [rec]) ->
  DbWrite.writeRecord rec d (mkWorld f []) = (Ok (d', None), mkWorld f' []) ->
  db_inv d' f' es tables (logged ++ pendingBatch d ++ [rec]) /\ pendingBatch d' = [] /\
  cfg d' = cfg d /\ closed d' = closed d /\
  contents d' tables.*2 = contents (DbWrite.enqueue rec d) tables.*2.
Proof.
  intros Hinv Hs Ha Hrun. pose proof (write_commits rec d (mkWorld f []) d' Hs ltac:(by rewrite Hrun)) as E.
  destruct (commit_inv _ _ _ _ _ (enqueue_inv rec _ _ _ _ _ Hinv) ltac:(by rewrite enqueue_batch))
    as (d1 & f1 & Hrun1 & H1 & H2 & H3 & H4 & H5 & _). rewrite enqueue_batch in H1.
  rewrite E, Hrun1 in Hrun. injection Hrun as -> ->. done.
Qed.

End DbInv.
