(* ===== verification/DbFlushSpec.v ===== *)
(** What a flush does: the file it writes, and that a flush without faults moves the
    oldest memtable from the log to a table and leaves the contents alone. *)

From Stdlib Require Import ZArith Lia.
From S2P Require Import Prelude Word Fs GoStr Memtable Wal Manifest Bloom SstFormat SstWriter SstReader.
From S2P Require Import MergeIter SstMerge SstTable DbState DbFlush DbWrite DbRead DbCompact DbOpen DbRecover.
From S2P Require Import DbInv DbScan.

Module DbFlushSpec.
Import Db DbFlush DbOpen DbRead DbRecover DbInv DbScan SstFormat SstWriter SstMerge SstTable.

Section flush.
Context `{BloomSizing}.

(** * Writing the table *)

Lemma add_memtable_entries fuel : forall it w wd,
  (length (Mem.it_drain fuel it) < fuel)%nat ->
  add_memtable fuel it w wd = add_entries w (Mem.it_drain fuel it) wd.
Proof.
  induction fuel as [|fuel IH]; intros it w wd Hlen; [done|]. cbn [add_memtable Mem.it_drain] in *.
  destruct (Mem.it_valid it); [|done]. cbn [add_entries length] in *. unfold io_bind.
  destruct (Add w _ _ _ wd) as [[[w' [e|]]|e|] wd']; try done. apply IH. lia.
Qed.

Lemma write_sst_quiet imm path f : Mem.wf imm -> Forall fits (Mem.Snapshot imm) ->
  Mem.Len imm < 2 ^ 26 -> Mem.Size imm < 2 ^ 40 ->
  exists f' groups bs, write_sst imm path (mkWorld f []) = (Ok None, mkWorld f' []) /\
    concat groups = Mem.Snapshot imm /\ f' !! path = Some (File bs bs) /\ sst_image groups bs /\
    (forall q, q <> path -> q <> tmp_of path -> f' !! q = f !! q).
Proof.
  intros Hwf Hfits Hlen Hsize. destruct (Mem.size_of imm Hwf) as [Es El].
  set (n := if Mem.Len imm <? 1 then 1 else Mem.Len imm).
  assert (Hn : 1 <= n < 2 ^ 26) by (unfold n; destruct (Z.ltb_spec (Mem.Len imm) 1); lia).
  destruct (write_table_quiet path defaultBlockSize n (Mem.Snapshot imm) f eq_refl Hn Hfits (Mem.Snapshot_sorted imm Hwf))
    as (w & f1 & w1 & f2 & w2 & f3 & groups & bs & Hnew & Hadd & Hcl & Hcat & Hfile & Himg & Hq).
  { unfold weight. by rewrite <- Es. }
  exists f3, groups, bs. split; [|done]. unfold write_sst. fold n.
  rewrite (bind_try_ok _ _ _ _ _ Hnew).
  rewrite <- (Mem.drain_snapshot imm (S (length (Mem.nodes imm))) Hwf ltac:(lia)) in Hadd.
  rewrite (io_bind_ok _ _ _ (w1, None) (mkWorld f2 [])).
  2:{ rewrite add_memtable_entries; [exact Hadd|]. rewrite Mem.drain_snapshot by (done || lia).
      by apply Mem.snapshot_length. }
  by rewrite (io_bind_ok _ _ _ _ _ Hcl).
Qed.

(** ** What it touches, and that only a crash disturbs it *)

Lemma add_memtable_frame fuel : forall it w q Q, tmpPath w <> q ->
  triple (about q Q) (add_memtable fuel it w) (fun r f => about q Q f /\ same_paths w r).
Proof.
  induction fuel as [|fuel IH]; intros it w q Q Hq; cbn [add_memtable].
  { apply triple_ret. intros f HQ. split; [done|]. intros w' e [= <- <-]. done. }
  destruct (Mem.it_valid it).
  2:{ apply triple_ret. intros f HQ. split; [done|]. intros w' e [= <- <-]. done. }
  eapply triple_bind with (R := fun x f => about q Q f /\ finalPath x.1 = finalPath w /\ tmpPath x.1 = tmpPath w).
  { eapply triple_conseq; [by apply Add_frame|done|]. intros [[w' e]|e|] f [H1 H2]; [|by split..].
    split; [done|]. by apply (H2 w' e). }
  intros [w' [e|]] wd (HQ & H1 & H2); cbn [fst] in *.
  - split; [done|]. intros w2 e2 [= <- <-]. done.
  - destruct (IH (Mem.it_next it) w' q Q ltac:(congruence) wd HQ) as [H3 H4]. split; [done|].
    intros w2 e2 Hr. destruct (H4 w2 e2 Hr). split; congruence.
Qed.

Lemma NewWriter_frame path bsz n q Q : tmp_of path <> q ->
  triple (about q Q) (NewWriter path bsz n) (fun r f => about q Q f /\
    forall w, r = Ok w -> tmpPath w = tmp_of path /\ finalPath w = path).
Proof.
  intros Hq. unfold NewWriter. destruct (bsz <=? 0); [by apply triple_err|].
  eapply triple_bind with (R := fun _ => about q Q).
  - eapply triple_conseq; [by apply (about_open_trunc (tmp_of path) q Q)|done|]. by intros [] f HQ.
  - intros _. apply triple_ret. intros f HQ. split; [done|]. by intros w [= <-].
Qed.

Lemma write_sst_touches imm path : touches (fun q => q = path \/ q = tmp_of path) (write_sst imm path).
Proof.
  intros q Q Hq. assert (tmp_of path <> q /\ path <> q) as [H1 H2] by (split; intros E; apply Hq; subst; tauto).
  unfold write_sst. set (n := if _ <? 1 then _ else _).
  eapply triple_bind with (R := fun x f => about q Q f /\ match x with inl w => tmpPath w = tmp_of path /\ finalPath w = path | inr _ => True end).
  { apply triple_try. eapply triple_conseq; [by apply NewWriter_frame|done|].
    intros [w|e|] f [HQ Hw]; [|done..]. split; [done|]. by apply Hw. }
  intros [w|e]; [|by apply triple_pull; intros; apply preserves_ret]. apply triple_pull. intros [Hw1 Hw2].
  eapply triple_bind with (R := fun x f => about q Q f /\ tmpPath x.1 = tmp_of path /\ finalPath x.1 = path).
  { eapply triple_conseq; [apply add_memtable_frame with (q := q) (Q := Q); congruence|done|].
    intros [[w' e]|e|] f [HQ Hs]; [|done..]. destruct (Hs w' e eq_refl). split; [done|]. cbn. split; congruence. }
  intros [w1 e1]. apply triple_pull. cbn [fst]. intros [E1 E2].
  assert (Hcl : preserves (about q Q) (Close w1)) by (apply Close_other; congruence).
  change (preserves (about q Q) (match e1 with
      | Some e => Close w1 ;;! ignore (fs_remove path) ;;! io_ret (Some e)
      | None => let! (_, err) := Close w1 in
          match err with Some e => ignore (fs_remove path) ;;! io_ret (Some e) | None => io_ret None end
      end)). io_pres.
Qed.

Lemma add_memtable_steady fuel : forall it w, steady (add_memtable fuel it w).
Proof. pose proof Add_steady. induction fuel as [|fuel IH]; intros it w; cbn [add_memtable]; io_steady. Qed.

Lemma write_sst_steady imm path : steady (write_sst imm path).
Proof.
  pose proof NewWriter_steady. pose proof add_memtable_steady. pose proof Close_steady. unfold write_sst. io_steady.
Qed.

(** * Cutting the log *)

Definition wal_tmp : string := "wal.log.truncate.tmp".

(** The files the checkpoint and the truncation go through. *)
Definition wal_side (q : string) : Prop :=
  q = walName \/ q = wal_tmp \/ q = walFlushStateName \/ q = wal_flush_tmp.

Lemma set_wal_id d w : wal d = Some w -> set_wal (Some w) d = d.
Proof. intros H0. destruct d. cbn in *. by subst. Qed.

(** Where the log and the checkpoint are while the log is cut at [cutoff]: the
    checkpoint is whole or absent, the log is whole or its tail. *)
Definition cutting (c : bytes) (cutoff id : Z) (f : fsys) : Prop :=
  let buf := encode_flush_state (mkFlushState cutoff id) in
  let rest := drop (Z.to_nat cutoff) c in
  (f !! walName = Some (File c c) \/ f !! walName = Some (File rest rest)) /\
  (f !! walFlushStateName = None \/ f !! walFlushStateName = Some (File buf buf)).

Lemma writeWalFlushState_touches st :
  touches (fun q => q = walFlushStateName \/ q = wal_flush_tmp) (writeWalFlushState st).
Proof.
  intros q Q Hq. assert (walFlushStateName <> q /\ wal_flush_tmp <> q) as [H1 H2]
    by (split; intros E; apply Hq; subst; tauto).
  unfold writeWalFlushState, Manifest.or_remove. io_pres.
Qed.

Lemma writeWalFlushState_triple st :
  triple (fun f => f !! walFlushStateName = None) (writeWalFlushState st)
    (fun _ f => f !! walFlushStateName = None \/
       f !! walFlushStateName = Some (File (encode_flush_state st) (encode_flush_state st))).
Proof.
  unfold writeWalFlushState. set (buf := encode_flush_state st).
  change (triple (about walFlushStateName (fun o => o = None)) (fs_open_trunc wal_flush_tmp ;;!
    Manifest.or_remove (fs_write wal_flush_tmp buf) wal_flush_tmp ;;!
    Manifest.or_remove (fs_sync wal_flush_tmp) wal_flush_tmp ;;!
    Manifest.or_remove (fs_close wal_flush_tmp) wal_flush_tmp ;;!
    fs_rename wal_flush_tmp walFlushStateName)
    (fun _ f => f !! walFlushStateName = None \/ f !! walFlushStateName = Some (File buf buf))).
  apply Manifest.write_new_file_triple; try (io_pres; fail).
  - intros r f Hf _. by left.
  - apply triple_prim; unfold no_effect; [|intros f n e [_ H1]; by split; left].
    intros f [H1 _]. rewrite H1. right. apply lookup_insert_eq.
Qed.

Lemma writeWalFlushState_steady st : steady (writeWalFlushState st).
Proof. unfold writeWalFlushState, Manifest.or_remove. io_steady. Qed.

Lemma removeWalFlushState_steady : steady removeWalFlushState.
Proof. unfold removeWalFlushState. io_steady. Qed.

Lemma completeWal_runs d f c cutoff id limits : wal d = Some (the_wal limits) ->
  f !! walName = Some (File c c) -> cutoff <= zlen c -> f !! walFlushStateName = None ->
  exists f', runs (completeWalAfterFlush cutoff id d) f (d, None) f'
      (fun f1 => cutting c cutoff id f1 /\ forall q, ~ wal_side q -> f1 !! q = f !! q) /\
    f' !! walName = Some (File (drop (Z.to_nat cutoff) c) (drop (Z.to_nat cutoff) c)) /\
    f' !! walFlushStateName = None /\ (forall q, ~ wal_side q -> f' !! q = f !! q).
Proof.
  intros Hw Hf Hc Hck. unfold completeWalAfterFlush.
  set (buf := encode_flush_state (mkFlushState cutoff id)). set (rest := drop (Z.to_nat cutoff) c).
  set (C := fun f1 => cutting c cutoff id f1 /\ forall q, ~ wal_side q -> f1 !! q = f !! q).
  set (f1 := <[walFlushStateName := File buf buf]> (delete wal_flush_tmp f)).
  assert (Hf1 : f1 !! walName = Some (File c c)).
  { unfold f1. by rewrite lookup_insert_ne, lookup_delete_ne by done. }
  assert (Hck1 : f1 !! walFlushStateName = Some (File buf buf)) by apply lookup_insert_eq.
  assert (Hq1 : forall q, ~ wal_side q -> f1 !! q = f !! q).
  { intros q Hn. unfold wal_side in Hn. unfold f1.
    rewrite lookup_insert_ne, lookup_delete_ne by (intros <-; tauto). done. }
  assert (HC1 : C f1) by (split; [split; [by left|by right]|done]).
  destruct (Wal.TruncateBefore_quiet (the_wal limits) c cutoff f1 eq_refl Hf1 Hc) as (f2 & Ht & Hf2 & Hq).
  change (Wal.wal_path (the_wal limits)) with walName in *. change (Wal.tmp_path (the_wal limits)) with wal_tmp in *.
  assert (Hck2 : f2 !! walFlushStateName = Some (File buf buf)) by (by rewrite Hq).
  assert (Hq2 : forall q, ~ wal_side q -> f2 !! q = f !! q).
  { intros q Hn. rewrite Hq; [by apply Hq1|intros ->; apply Hn; by left|intros ->; apply Hn; by right; left]. }
  assert (HC2 : C f2) by (split; [split; [by right|by right]|done]).
  exists (delete walFlushStateName f2). split; [|split; [|split]].
  - eapply runs_bind; [apply runs_try, (runs_steady _ _ tt f1 (fun f' => (f' !! walFlushStateName = None /\
        f' !! walName = Some (File c c)) /\ forall q, ~ wal_side q -> f' !! q = f !! q)
        (fun _ f' => C f')); [apply writeWalFlushState_steady|apply Manifest.write_renamed_quiet| |done|done]|].
    { intros wd [[H1 H2] H3]. pose proof (writeWalFlushState_touches (mkFlushState cutoff id)) as Hto.
      split; [split|].
      - left. rewrite (touches_frame _ _ _ _ Hto); [done|]. by intros [?|?].
      - by apply (writeWalFlushState_triple (mkFlushState cutoff id) wd).
      - intros q Hn. rewrite (touches_frame _ _ _ _ Hto); [by apply H3|]. intros [-> | ->]; apply Hn; unfold wal_side; tauto. }
    cbv iota. eapply runs_bind; [by apply runs_crash_point|].
    eapply runs_bind with (a := (the_wal limits, None)) (f1 := f2).
    { unfold with_wal. rewrite Hw.
      destruct (Z.leb_spec cutoff 0) as [H0|H0].
      { unfold Wal.TruncateBefore in *. destruct (Z.leb_spec cutoff 0); [|lia]. injection Ht as <-. apply runs_ret. }
      eapply runs_steady with (P := fun f' => f' = f1) (Q := fun _ => C); [apply Wal.TruncateBefore_steady|done| |done|done].
      intros wd Hwd. pose proof (Wal.TruncateBefore_touches (the_wal limits) cutoff) as Hto.
      destruct (Wal.TruncateBefore_triple (the_wal limits) c cutoff H0 eq_refl (fun o => o = Some (File c c))
        ltac:(by intros o ->) ltac:(done) wd) as [T _].
      { unfold Wal.log_old, about. by rewrite Hwd. }
      split; [split|].
      - destruct T as [T|T]; [by left|by right].
      - right. rewrite (touches_frame _ _ _ _ Hto), Hwd; [done|]. by intros [?|?].
      - intros q Hn. rewrite (touches_frame _ _ _ _ Hto), Hwd; [by apply Hq1|].
        intros [-> | ->]; apply Hn; unfold wal_side; tauto. }
    cbv iota beta. rewrite set_wal_id by done.
    eapply runs_bind; [apply runs_try|apply runs_ret].
    unfold removeWalFlushState. eapply runs_bind; [apply runs_try|apply runs_ret].
    eapply runs_steady with (P := eq f2) (Q := fun r f' => r = Crashed -> f' = f2); auto with iosteady.
    + by eapply fs_remove_quiet.
    + apply triple_prim; unfold no_effect; [|by intros f' n e <-]. intros f' <-. by rewrite Hck2.
    + intros f' Hf'. by rewrite Hf'.
  - rewrite lookup_delete_ne by done. exact Hf2.
  - apply lookup_delete_eq.
  - intros q Hn. rewrite lookup_delete_ne; [by apply Hq2|]. intros <-. apply Hn. unfold wal_side. tauto.
Qed.

(** * The new set of tables *)

Lemma sort_ids_last (live : gset Z) id : (forall x, x ∈ live -> x < id) ->
  Manifest.sort_ids (elements ({[id]} ∪ live)) = Manifest.sort_ids (elements live) ++ [id].
Proof.
  intros Hlt. unfold Manifest.sort_ids.
  assert (Hperm : merge_sort Z.le (elements ({[id]} ∪ live)) ≡ₚ merge_sort Z.le (elements live) ++ [id]).
  { rewrite !merge_sort_Permutation. rewrite elements_union_singleton by (intros Hin; specialize (Hlt _ Hin); lia).
    by rewrite Permutation_cons_append. }
  apply (StronglySorted_unique Z.le); [apply StronglySorted_merge_sort; apply _| |done].
  apply StronglySorted_app. repeat split.
  - intros x1 x2 H1 ->%list_elem_of_singleton. rewrite merge_sort_Permutation, elem_of_elements in H1.
    specialize (Hlt _ H1). lia.
  - apply StronglySorted_merge_sort; apply _.
  - by repeat constructor.
Qed.

(** What the memtable holds came from the log. *)
Lemma layer_elem l k c : layer_of l !! k = Some c -> exists e, e ∈ l /\ Key e = k /\ cell e = c.
Proof.
  induction l as [|e l IH]; [done|]. rewrite layer_of_cons, lookup_insert. case_decide as E.
  - intros [= <-]. exists e. split; [constructor|]. by split.
  - intros (e' & He' & ?)%IH. exists e'. split; [by constructor|done].
Qed.

Lemma snapshot_fits limits sl seg : Mem.wf sl -> Mem.contents sl = log_layer seg ->
  Forall (Wal.admissible limits) seg -> Forall bare (Mem.Snapshot sl) -> Forall fits (Mem.Snapshot sl).
Proof.
  intros Hwf Hc Ha Hbare. apply Forall_forall. intros e He.
  assert (Hl : log_layer seg !! Key e = Some (cell e)).
  { rewrite <- Hc. unfold Mem.contents. by rewrite (layer_of_lookup_sorted _ _ (Mem.Snapshot_sorted sl Hwf) He). }
  apply layer_elem in Hl as (r & Hr & Hk & Hcell). rewrite list_elem_of_In, <- in_rev, <- list_elem_of_In in Hr.
  rewrite Forall_forall in Ha. destruct (Ha r Hr) as (Hu1 & Hu2 & _). unfold fits. rewrite <- Hk. split; [done|].
  rewrite Forall_forall in Hbare. specialize (Hbare e He). unfold cell in Hcell. unfold bare in Hbare.
  destruct (Tombstone r), (Tombstone e); simplify_eq; [by rewrite Hbare|congruence].
Qed.

(** * One flush *)

(** The files a flush of table [id] with manifest [name] goes through. *)
Definition install_side (name q : string) : Prop := Manifest.compact_side name q \/ wal_side q.
Definition flush_side (id : Z) (name : string) (q : string) : Prop :=
  q = GoStr.sstFilePath id \/ q = tmp_of (GoStr.sstFilePath id) \/ install_side name q.

Lemma last_char_sst a b : GoStr.sstFilePath a <> tmp_of (GoStr.sstFilePath b).
Proof.
  intros E. unfold GoStr.sstFilePath, tmp_of in E.
  assert (E' : String.append (String.append (String.append "sst_" (GoStr.format_padded 8 a)) ".ss") "t" =
               String.append (String.append (String.append (String.append "sst_" (GoStr.format_padded 8 b)) ".sst") ".tm") "p")
    by (rewrite <- !GoStr.append_assoc in E; repeat rewrite <- GoStr.append_assoc; exact E).
  by apply GoStr.append_last in E'.
Qed.

Lemma manifest_names name : is_manifest name -> exists s s',
  name = String.append Manifest.manifestPrefix s /\ Manifest.nextManifestName name = String.append Manifest.manifestPrefix s'.
Proof. intros [_ [s E]]. destruct (Manifest.nextManifestName_prefix name) as [s' E']. by exists s, s'. Qed.

(** The log and the tables are apart from the manifest, tables from the log. *)
Lemma sst_apart name id : is_manifest name -> ~ install_side name (GoStr.sstFilePath id).
Proof.
  intros Hn. destruct (manifest_names name Hn) as (s & s' & E & E').
  unfold install_side, Manifest.compact_side, wal_side. rewrite E', E. intros Hq. destruct_or!; done.
Qed.

Lemma tmp_apart name id : is_manifest name -> ~ install_side name (tmp_of (GoStr.sstFilePath id)).
Proof.
  intros Hn. destruct (manifest_names name Hn) as (s & s' & E & E').
  unfold install_side, Manifest.compact_side, wal_side. rewrite E', E. intros Hq. destruct_or!; done.
Qed.

Lemma wal_compact_side name q : is_manifest name -> wal_side q -> ~ Manifest.compact_side name q.
Proof.
  intros Hn Hw. destruct (manifest_names name Hn) as (s & s' & E & E').
  unfold Manifest.compact_side. rewrite E', E. unfold wal_side in Hw. intros Hq. destruct_or!; subst; done.
Qed.

Lemma sst_side id name t : is_manifest name -> is_u64 t -> is_u64 id -> t <> id ->
  ~ flush_side id name (GoStr.sstFilePath t).
Proof.
  intros Hn Ht Hid Hne [E|[E|E]].
  - apply GoStr.sstFilePath_inj in E; [congruence|done..].
  - by apply last_char_sst in E.
  - by apply (sst_apart name t).
Qed.

Lemma drop_wires seg cur : drop (Z.to_nat (zlen (Wal.wires seg))) (Wal.wires (seg ++ cur)) = Wal.wires cur.
Proof. rewrite Wal.wires_app. by apply drop_zlen. Qed.

(** A memtable that one table file can take. *)
Definition flushable (mt : Mem.SkipList) : Prop := Mem.Len mt < 2 ^ 26 /\ Mem.Size mt < 2 ^ 40.

(** The manifest in use during and after the installation, the log and its
    checkpoint while they are cut; every other file as it was. *)
Definition installing (f : fsys) (l : Manifest.Log) (es : list Manifest.edit) (c : bytes) (cutoff id : Z) (f1 : fsys) : Prop :=
  (exists name es', Manifest.compacted_to l es name es' /\ Manifest.good f1 name es') /\
  cutting c cutoff id f1 /\ forall q, ~ install_side (Manifest.path l) q -> f1 !! q = f !! q.

(** The handle after the installation of table [id]. *)
Definition installed (d : DB) (p : nat) (r : SstReader.Reader) (m : Manifest.Log) (n : nat) : DB :=
  set_compactCh n (clearBackgroundErrOp "wal_cleanup" (set_manifest (Some m) (trackReader p (publishSSTables
    (set_sstables (sstables d ++ [p]) (set_heap (<[p := r]> (heap d)) d)))))).

Lemma good_same f f' name es : Manifest.good f name es -> f' !! Manifest.currentFileName = f !! Manifest.currentFileName ->
  f' !! name = f !! name -> Manifest.good f' name es.
Proof. intros [H1 H2] E1 E2. split; congruence. Qed.

Lemma compacted_manifest l es name es' : is_manifest (Manifest.path l) -> Manifest.compacted_to l es name es' ->
  is_manifest name.
Proof.
  intros Hn [[-> _]|[-> _]]; [done|].
  split; [apply Manifest.nextManifestName_ok|apply Manifest.nextManifestName_prefix].
Qed.

Lemma manifest_not_wal name : is_manifest name -> ~ wal_side name /\ ~ wal_side Manifest.currentFileName.
Proof. intros [_ [s ->]]. unfold wal_side. split; intros Hq; destruct_or!; done. Qed.

Lemma install_runs d f l es c cutoff id r limits : manifest d = Some l -> is_manifest (Manifest.path l) ->
  Manifest.file l = true -> Manifest.good f (Manifest.path l) es -> wal d = Some (the_wal limits) ->
  f !! walName = Some (File c c) -> cutoff <= zlen c -> f !! walFlushStateName = None ->
  exists f' m es' p n, runs (install_sst id r cutoff d) f (installed d p r m n) f' (installing f l es c cutoff id) /\
    heap d !! p = None /\ (closed d = true -> n = compactCh d) /\ Manifest.liveSet m = Manifest.liveSet l /\ Manifest.file m = true /\
    Manifest.compacted_to l es (Manifest.path m) es' /\ Manifest.good f' (Manifest.path m) es' /\
    f' !! walName = Some (File (drop (Z.to_nat cutoff) c) (drop (Z.to_nat cutoff) c)) /\
    f' !! walFlushStateName = None /\ (forall q, ~ install_side (Manifest.path l) q -> f' !! q = f !! q).
Proof.
  intros Hm Hn Hf Hg Hw Hl Hc Hck. pose proof Hn as [Hnok _].
  destruct (Manifest.MaybeCompact_runs l f es Hnok Hf Hg) as (m & es' & f3 & Hmc & Hml & Hmf & Hgood3 & Hcase & Hq3).
  assert (Hmw : ~ wal_side (Manifest.path m) /\ ~ wal_side Manifest.currentFileName)
    by (eapply manifest_not_wal, compacted_manifest; [exact Hn|exact Hcase]).
  assert (Hw3 : forall q, wal_side q -> f3 !! q = f !! q) by (intros q Hq; by apply Hq3, wal_compact_side).
  set (p := fresh (dom (heap d))).
  set (d3 := set_manifest (Some m) (trackReader p (publishSSTables (set_sstables (sstables d ++ [p])
    (set_heap (<[p := r]> (heap d)) d))))).
  destruct (completeWal_runs d3 f3 c cutoff id limits) as (f4 & Hcw & Hw4 & Hck4 & Hq4); try done.
  { rewrite Hw3; [done|by left]. }
  { rewrite Hw3; [done|by right; right; left]. }
  destruct (maybeTriggerCompaction_eq (clearBackgroundErrOp "wal_cleanup" d3)) as (n & En & Hn3).
  assert (Hgood : forall f1, (forall q, ~ wal_side q -> f1 !! q = f3 !! q) -> Manifest.good f1 (Manifest.path m) es').
  { intros f1 Hq. destruct Hmw. apply (good_same f3); [done|by apply Hq..]. }
  assert (Hframe : forall f1 : fsys, (forall q, ~ wal_side q -> f1 !! q = f3 !! q) ->
    forall q, ~ install_side (Manifest.path l) q -> f1 !! q = f !! q).
  { intros f1 Hq q Hn'. unfold install_side in Hn'. rewrite Hq, Hq3; tauto. }
  exists f4, m, es', p, n. split.
  { unfold install_sst. eapply runs_bind; [apply runs_crash_point|].
    { split; [exists (Manifest.path l), es; by split; [left|]|]. split; [|done]. split; [by left|by left]. }
    unfold alloc_reader. cbv iota beta zeta. fold p.
    cbn [manifest trackReader set_allReaders publishSSTables set_sstablesSnap set_sstables set_heap]. rewrite Hm.
    eapply runs_bind with (a := d3).
    { eapply runs_bind; [eapply runs_weaken; [exact Hmc|]|apply runs_ret]. intros f1 [H1 H2].
      split; [done|]. split; [|intros q Hq; apply H2; unfold install_side in Hq; tauto].
      assert (Hww : forall q, wal_side q -> f1 !! q = f !! q) by (intros q Hq; by apply H2, wal_compact_side).
      split; left; rewrite Hww; try done; unfold wal_side; tauto. }
    eapply runs_bind.
    { eapply runs_weaken; [exact Hcw|]. intros f1 [H1 H2]. split; [|by split; [|apply Hframe]].
      exists (Manifest.path m), es'. split; [done|by apply Hgood]. }
    cbv iota beta. eapply runs_bind; [eapply runs_bind; [apply runs_crash_point|apply runs_ret]|].
    { split; [exists (Manifest.path m), es'; split; [done|by apply Hgood]|].
      split; [split; [by right|by left]|by apply Hframe]. }
    unfold installed. fold d3. rewrite <- En. apply runs_ret. }
  split; [apply not_elem_of_dom, is_fresh|]. split; [by intros E; apply Hn3; left|].
  repeat (split; [done|]). split; [by apply Hgood|].
  split; [done|]. split; [done|]. by apply Hframe.
Qed.

(** ** The whole flush *)

(** What a flush leaves in the handle. *)
Definition flushed (d : DB) (id fileID : Z) (p : nat) (r : SstReader.Reader) (m : Manifest.Log) (n : nat) : DB :=
  installed (set_nextFileID fileID (set_nextSSTID id d)) p r m n.

(** The directory on the way: the manifest still lists the old tables (its last
    record may be incomplete, and then the new table is in place), or the table is
    committed and the log is being cut. *)
Definition flushing (f : fsys) (l : Manifest.Log) (es : list Manifest.edit) (c : bytes) (cutoff id : Z)
    (bs : bytes) (f1 : fsys) : Prop :=
  (forall q, ~ flush_side id (Manifest.path l) q -> f1 !! q = f !! q) /\
  ((Manifest.good f1 (Manifest.path l) es \/
    Manifest.appending l es (Manifest.NewFile id) f1 /\ f1 !! GoStr.sstFilePath id = Some (File bs bs)) /\
   f1 !! walName = Some (File c c) /\ f1 !! walFlushStateName = None \/
   f1 !! GoStr.sstFilePath id = Some (File bs bs) /\
   (exists name es', Manifest.compacted_to (Manifest.mkLog (Manifest.path l) true ({[id]} ∪ Manifest.liveSet l)
        (Manifest.recordCount l + 1)) (es ++ [Manifest.NewFile id]) name es' /\ Manifest.good f1 name es') /\
   cutting c cutoff id f1).

(** The table file, its reader and the record in the manifest. *)
Lemma write_sst_runs imm path f : Mem.wf imm -> Forall fits (Mem.Snapshot imm) ->
  Mem.Len imm < 2 ^ 26 -> Mem.Size imm < 2 ^ 40 ->
  exists f' groups bs, runs (write_sst imm path) f None f'
      (fun f1 => forall q, ~ (q = path \/ q = tmp_of path) -> f1 !! q = f !! q) /\
    concat groups = Mem.Snapshot imm /\ f' !! path = Some (File bs bs) /\ sst_image groups bs /\
    (forall q, ~ (q = path \/ q = tmp_of path) -> f' !! q = f !! q).
Proof.
  intros Hwf Hfits Hlen Hsize.
  destruct (write_sst_quiet imm path f Hwf Hfits Hlen Hsize) as (f1 & groups & bs & Hrun & Hcat & Hfile & Himg & Hq).
  exists f1, groups, bs. split.
  - apply runs_from; [apply write_sst_steady|done|]. intros wd ->. intros q Hq'.
    by apply (touches_frame _ _ _ _ (write_sst_touches imm path)).
  - repeat (split; [done|]). intros q Hq'. apply Hq; intros ->; tauto.
Qed.

Lemma flushImmutable_runs d f es tables logged e seg cur : db_inv d f es tables logged ->
  logged = seg ++ cur -> Mem.wf (mem e) -> Mem.contents (mem e) = log_layer seg ->
  walCutoff e = zlen (Wal.wires seg) -> flushable (mem e) -> 0 <= nextSSTID d < 2 ^ 64 - 1 ->
  let id := nextSSTID d + 1 in
  exists l f' es' m groups bs r p n, manifest d = Some l /\
    runs (flushImmutable (mem e) (walCutoff e) d) f (flushed d id (nextFileID d + 1) p r m n, None) f'
      (flushing f l es (Wal.wires logged) (walCutoff e) id bs) /\
    concat groups = Mem.Snapshot (mem e) /\ f' !! GoStr.sstFilePath id = Some (File bs bs) /\ sst_image groups bs /\
    heap d !! p = None /\ (closed d = true -> n = compactCh d) /\ SstReader.table f' r groups /\ SstReader.fresh (GoStr.sstFilePath id) r /\
    Manifest.liveSet m = {[id]} ∪ Manifest.live_of es /\ Manifest.file m = true /\
    Manifest.compacted_to (Manifest.mkLog (Manifest.path l) true ({[id]} ∪ Manifest.liveSet l)
      (Manifest.recordCount l + 1)) (es ++ [Manifest.NewFile id]) (Manifest.path m) es' /\
    Manifest.good f' (Manifest.path m) es' /\
    f' !! walName = Some (File (Wal.wires cur) (Wal.wires cur)) /\ f' !! walFlushStateName = None /\
    (forall q, ~ flush_side id (Manifest.path l) q -> f' !! q = f !! q).
Proof.
  intros Hinv Hlog Hwf Hcont Hcut [Hlen Hsize] Hid id.
  destruct (di_manifest _ _ _ _ _ Hinv) as (l & Hm & Hname & Hfile & Hlive & Hgood). pose proof Hname as [Hnok _].
  set (path := GoStr.sstFilePath id). set (c := Wal.wires logged).
  assert (Hu : u64 (nextSSTID d + 1) = id) by (apply u64_id; unfold is_u64; lia).
  pose proof (di_admissible _ _ _ _ _ Hinv) as Hadm. rewrite Hlog in Hadm. apply Forall_app in Hadm as [Hadm _].
  destruct (write_sst_runs (mem e) path f Hwf (snapshot_fits _ _ _ Hwf Hcont Hadm (SnapshotEntry_bare _ _ _)) Hlen Hsize)
    as (f1 & groups & bs & Hwrite & Hcat & Hf1 & Himg & Hq1).
  assert (Hkeep : forall (g : fsys) q, (forall q, ~ (q = path \/ q = tmp_of path) -> g !! q = f !! q) ->
    install_side (Manifest.path l) q -> (g : fsys) !! q = f !! q).
  { intros g q Hg Hq. apply Hg. intros [-> | ->]; [by apply (sst_apart (Manifest.path l) id)|].
    by apply (tmp_apart (Manifest.path l) id). }
  assert (Hold : forall g, (forall q, ~ (q = path \/ q = tmp_of path) -> (g : fsys) !! q = f !! q) ->
    Manifest.good g (Manifest.path l) es /\ g !! walName = Some (File c c) /\ g !! walFlushStateName = None).
  { intros g Hg. split; [|split].
    - apply (good_same f); [done|..]; apply (Hkeep _ _ Hg); left; unfold Manifest.compact_side; tauto.
    - rewrite (Hkeep _ _ Hg); [by apply Hinv|]. right. by left.
    - rewrite (Hkeep _ _ Hg); [by apply Hinv|]. right. unfold wal_side. tauto. }
  assert (Hbefore : forall g, (forall q, ~ (q = path \/ q = tmp_of path) -> (g : fsys) !! q = f !! q) ->
    flushing f l es c (walCutoff e) id bs g).
  { intros g Hg. destruct (Hold g Hg) as (G1 & G2 & G3). split.
    - intros q Hq. apply Hg. intros Hp. apply Hq. unfold flush_side. fold path. tauto.
    - left. split; [by left|done]. }
  destruct (Hold f1 Hq1) as (Hgood1 & Hw1 & Hck1).
  destruct (sst_file_open f1 (id, groups) (nextFileID d + 1)) as (r & Hopen & Htab & Hfresh).
  { split; [unfold is_u64, id; cbn; lia|]. exists bs. split; [|done]. unfold bytes_at. cbn. fold path. by rewrite Hf1. }
  cbn [fst snd] in Hopen, Htab, Hfresh. fold path in Hopen, Hfresh.
  destruct (Manifest.append_runs l f1 es (Manifest.NewFile id) (fun live => {[id]} ∪ live) Hfile Hgood1)
    as (f2 & Happ & Hgood2 & Hq2); [by apply Hnok|].
  set (m1 := Manifest.mkLog (Manifest.path l) true ({[id]} ∪ Manifest.liveSet l) (Manifest.recordCount l + 1)) in *.
  set (d2 := set_manifest (Some m1) (set_nextFileID (nextFileID d + 1) (set_nextSSTID id d))).
  assert (Hside2 : forall q, q <> Manifest.path l -> f2 !! q = f1 !! q) by done.
  assert (Hwm : forall q, wal_side q -> q <> Manifest.path l).
  { intros q Hq ->. by destruct (manifest_not_wal _ Hname). }
  assert (Hpm : path <> Manifest.path l).
  { intros E. apply (sst_apart (Manifest.path l) id Hname). left. left. exact E. }
  destruct (install_runs d2 f2 m1 (es ++ [Manifest.NewFile id]) c (walCutoff e) id r (walLimits (cfg d)))
    as (f3 & m & es' & p & n & Hins & Hp & Hn & Hml & Hmf & Hcase & Hgood3 & Hw3 & Hck3 & Hq3); try done.
  { by apply Hinv. }
  { rewrite Hside2; [done|]. apply Hwm. by left. }
  { unfold c. rewrite Hlog, Hcut, Wal.wires_app, zlen_app. pose proof (zlen_nonneg (Wal.wires cur)). lia. }
  { rewrite Hside2; [done|]. apply Hwm. unfold wal_side. tauto. }
  change (Manifest.path m1) with (Manifest.path l) in Hq3.
  assert (Hside : forall g, (forall q, ~ install_side (Manifest.path l) q -> (g : fsys) !! q = f2 !! q) ->
    forall q, ~ flush_side id (Manifest.path l) q -> g !! q = f !! q).
  { intros g Hg q Hq. unfold flush_side in Hq. rewrite Hg, Hside2, Hq1; try tauto.
    intros ->. apply Hq. right. right. left. by left. }
  assert (Hsst : forall g, (forall q, ~ install_side (Manifest.path l) q -> (g : fsys) !! q = f2 !! q) ->
    g !! path = Some (File bs bs)).
  { intros g Hg. rewrite Hg, Hside2; [done..|]. by apply sst_apart. }
  exists l, f3, es', m, groups, bs, r, p, n. split; [done|]. split.
  { unfold flushImmutable. rewrite Hm, Hu. fold path.
    eapply runs_bind; [eapply runs_weaken; [exact Hwrite|exact Hbefore]|]. cbv iota beta.
    eapply runs_bind; [apply runs_crash_point, Hbefore, Hq1|]. unfold next_file_id. cbv iota beta zeta.
    cbn [nextFileID set_nextSSTID].
    eapply runs_bind; [apply runs_try, runs_reading; [apply SstReader.OpenReader_read_only|exact Hopen|apply Hbefore, Hq1]|].
    cbv iota beta. cbn [manifest set_nextSSTID set_nextFileID]. rewrite Hm.
    eapply runs_bind.
    { eapply runs_weaken; [exact Happ|]. intros g [Hg1 Hg2]. split.
      - intros q Hq. unfold flush_side in Hq. rewrite Hg2, Hq1; try tauto. intros ->. apply Hq. right. right. left. by left.
      - left. split; [right; split; [done|]; by rewrite Hg2|]. split; rewrite Hg2; try done; apply Hwm; unfold wal_side; tauto. }
    cbv iota beta. eapply runs_bind; [eapply runs_weaken; [exact Hins|]|apply runs_ret].
    intros g (G1 & G2 & G3). split; [by apply Hside|]. right. split; [by apply Hsst|done]. }
  split; [done|]. split; [by apply Hsst|]. split; [done|]. split; [done|]. split; [done|]. split.
  { eapply SstMerge.table_same; [exact Htab|]. destruct Hfresh as [-> _]. unfold bytes_at. by rewrite Hsst, Hf1. }
  split; [done|]. split; [rewrite Hml; cbn; by rewrite Hlive|]. split; [done|]. split; [done|]. split; [done|].
  split; [unfold c in Hw3; by rewrite Hlog, Hcut, drop_wires in Hw3|]. split; [done|]. by apply Hside.
Qed.

Lemma layers_snoc ls l : layers (ls ++ [l]) = layer_of l ∪ layers ls.
Proof.
  induction ls as [|x ls IH]; cbn [app layers].
  - by rewrite (map_empty_union (M := gmap bytes)), (map_union_empty (M := gmap bytes)).
  - by rewrite IH, (map_union_assoc (M := gmap bytes)).
Qed.

Lemma disk_layer_snoc ts g : disk_layer (ts ++ [g]) = layer_of (concat g) ∪ disk_layer ts.
Proof. unfold disk_layer. rewrite fmap_app. apply layers_snoc. Qed.

Lemma live_below (live : gset Z) ids k : Manifest.sort_ids (elements live) = ids -> Forall (fun x => x <= k) ids ->
  forall x, x ∈ live -> x < k + 1.
Proof.
  intros <- Hall x Hx. rewrite Forall_forall in Hall.
  assert (Hin : x ∈ Manifest.sort_ids (elements live))
    by (unfold Manifest.sort_ids; by rewrite merge_sort_Permutation, elem_of_elements).
  specialize (Hall x Hin). lia.
Qed.

(** ** What the committed manifest says *)

Lemma tables_apart d f es tables logged t : db_inv d f es tables logged -> t ∈ tables ->
  is_u64 t.1 /\ t.1 <> nextSSTID d + 1.
Proof.
  intros Hinv Ht. pose proof (di_files _ _ _ _ _ Hinv) as Hfs. rewrite Forall_forall in Hfs.
  pose proof (di_next _ _ _ _ _ Hinv) as Hnx. rewrite Forall_forall in Hnx. specialize (Hnx t Ht). cbn in Hnx.
  split; [by apply Hfs|lia].
Qed.

Lemma committed_manifest d f es tables logged l name es' : db_inv d f es tables logged -> manifest d = Some l ->
  0 <= nextSSTID d < 2 ^ 64 - 1 -> zlen tables < 2 ^ 28 - 1 ->
  let id := nextSSTID d + 1 in
  Manifest.compacted_to (Manifest.mkLog (Manifest.path l) true ({[id]} ∪ Manifest.liveSet l)
    (Manifest.recordCount l + 1)) (es ++ [Manifest.NewFile id]) name es' ->
  is_manifest name /\ Forall Manifest.edit_ok es' /\ Manifest.live_of es' = {[id]} ∪ Manifest.live_of es /\
  Manifest.sort_ids (elements (Manifest.live_of es')) = tables.*1 ++ [id].
Proof.
  intros Hinv Hm Hid Hcount id Hcase.
  destruct (di_manifest _ _ _ _ _ Hinv) as (l0 & Hl0 & Hname & _ & Hlive & _). rewrite Hm in Hl0. injection Hl0 as <-.
  pose proof (live_below _ _ _ (di_ids _ _ _ _ _ Hinv) ltac:(apply Forall_fmap, (di_next _ _ _ _ _ Hinv))) as Hbelow.
  pose proof (sort_ids_last (Manifest.live_of es) id Hbelow) as Hsorted. rewrite (di_ids _ _ _ _ _ Hinv) in Hsorted.
  assert (Hu : is_u64 id) by (unfold is_u64, id; lia).
  split; [by eapply compacted_manifest; [|exact Hcase]|].
  assert (Hlive' : Manifest.live_of es' = {[id]} ∪ Manifest.live_of es).
  { destruct Hcase as [[_ ->]|[_ ->]]; [apply Manifest.live_of_snoc|].
    unfold Manifest.snapshot_edit, Manifest.liveIDsLocked. rewrite Manifest.live_snapshot. cbn. by rewrite Hlive. }
  rewrite Hlive'. split; [|done]. destruct Hcase as [[_ ->]|[_ ->]].
  - apply Forall_app. split; [by apply Hinv|by apply Forall_singleton].
  - apply Forall_singleton. unfold Manifest.snapshot_edit, Manifest.liveIDsLocked. cbn [Manifest.liveSet].
    rewrite Hlive. split; rewrite Hsorted.
    + apply Forall_app. split; [|by apply Forall_singleton]. apply Forall_fmap, Forall_forall. intros t Ht.
      by apply (tables_apart _ _ _ _ _ _ Hinv Ht).
    + rewrite zlen_app. unfold zlen in *. rewrite length_fmap. cbn. lia.
Qed.

(** The tables of the handle are where they were. *)
Lemma flush_keeps_tables d f es tables logged l (f' : fsys) : db_inv d f es tables logged -> manifest d = Some l ->
  0 <= nextSSTID d < 2 ^ 64 - 1 ->
  (forall q, ~ flush_side (nextSSTID d + 1) (Manifest.path l) q -> f' !! q = f !! q) ->
  forall t, t ∈ tables -> f' !! GoStr.sstFilePath t.1 = f !! GoStr.sstFilePath t.1.
Proof.
  intros Hinv Hm Hid Hside t Ht. destruct (tables_apart _ _ _ _ _ _ Hinv Ht) as [H1 H2].
  destruct (di_manifest _ _ _ _ _ Hinv) as (l0 & Hl0 & Hname & _). rewrite Hm in Hl0. injection Hl0 as <-.
  apply Hside, sst_side; try done. unfold is_u64. lia.
Qed.

Lemma sst_durable_same (f f' : fsys) (tables : list (Z * list (list entry))) : (forall t, t ∈ tables -> f' !! GoStr.sstFilePath t.1 = f !! GoStr.sstFilePath t.1) ->
  Forall (sst_durable f) tables -> Forall (sst_durable f') tables.
Proof.
  intros Hkeep Hfs. apply Forall_forall. intros t Ht. rewrite Forall_forall in Hfs.
  destruct (Hfs t Ht) as (Hu & b & Hb & Hi). split; [done|]. exists b. by rewrite Hkeep.
Qed.

(** The queue has one memtable: its part of the log is the first. *)
Lemma single_segment d f es tables logged e : db_inv d f es tables logged -> pendingFlush d = [e] ->
  exists seg cur, logged = seg ++ cur /\ Mem.wf (mem e) /\ Mem.contents (mem e) = log_layer seg /\
    walCutoff e = zlen (Wal.wires seg) /\ Mem.contents (active d) = log_layer cur.
Proof.
  intros Hinv Hq. destruct (di_segments _ _ _ _ _ Hinv) as (segs & cur & [Hlog HF Hcut Hact]). rewrite Hq in HF.
  apply Forall2_cons_inv_l in HF as (seg & segs' & Hseg & HF & ->). apply Forall2_nil_inv_l in HF as ->.
  specialize (Hcut 0%nat e ltac:(by rewrite Hq)). cbn in Hcut, Hlog. rewrite app_nil_r in Hcut, Hlog.
  destruct (di_mem _ _ _ _ _ Hinv) as [_ Hwfq]. rewrite Hq in Hwfq. apply Forall_cons in Hwfq as [Hwf _].
  by exists seg, cur.
Qed.

Lemma flushed_layer (d : DB) tables id groups seg cur (mt : Mem.SkipList) : concat groups = Mem.Snapshot mt ->
  Mem.contents mt = log_layer seg ->
  log_layer cur ∪ disk_layer (tables ++ [(id, groups)]).*2 =
  log_layer (seg ++ cur) ∪ disk_layer (tables : list (Z * list (list entry))).*2.
Proof.
  intros Hcat Hseg. rewrite fmap_app, fmap_cons, fmap_nil. cbn [snd]. rewrite disk_layer_snoc, Hcat.
  change (layer_of (Mem.Snapshot mt)) with (Mem.contents mt). rewrite Hseg.
  by rewrite log_layer_app, <- (map_union_assoc (M := gmap bytes)).
Qed.

(** The handle and the directory after a flush. *)
Definition after_flush (d : DB) (id : Z) (p : nat) (r : SstReader.Reader) (m : Manifest.Log) (n : nat) : DB :=
  clearBackgroundErrOp "flush" (set_pendingFlush [] (flushed d id (nextFileID d + 1) p r m n)).

Lemma drain_flushed d e id p r m n f f' C : pendingFlush d = [e] ->
  runs (flushImmutable (mem e) (walCutoff e) d) f (flushed d id (nextFileID d + 1) p r m n, None) f' C ->
  runs (drain_round d) f (after_flush d id p r m n, true) f' C.
Proof.
  intros Hq Hrun. unfold drain_round. rewrite Hq. eapply runs_bind; [exact Hrun|]. cbv iota beta.
  replace (tl (pendingFlush (flushed d id (nextFileID d + 1) p r m n))) with (@nil flushQueueEntry)
    by (change (pendingFlush (flushed d id (nextFileID d + 1) p r m n)) with (pendingFlush d); by rewrite Hq).
  apply runs_ret.
Qed.

(** A flush of the only queued memtable.  The schedule may end the process. *)
Lemma flush_runs d f es tables logged e : db_inv d f es tables logged -> pendingFlush d = [e] ->
  flushable (mem e) -> 0 <= nextSSTID d < 2 ^ 64 - 1 -> zlen tables < 2 ^ 28 - 1 ->
  let id := nextSSTID d + 1 in
  exists l d' f' es' groups bs seg cur, manifest d = Some l /\ logged = seg ++ cur /\
    walCutoff e = zlen (Wal.wires seg) /\ Mem.contents (mem e) = log_layer seg /\
    concat groups = Mem.Snapshot (mem e) /\ sst_image groups bs /\
    runs (drain_round d) f (d', true) f' (flushing f l es (Wal.wires logged) (walCutoff e) id bs) /\
    db_inv d' f' es' (tables ++ [(id, groups)]) cur /\
    pendingFlush d' = [] /\ pendingBatch d' = pendingBatch d /\ closed d' = closed d /\ cfg d' = cfg d /\
    active d' = active d /\ nextSSTID d' = id /\ (closed d = true -> compactCh d' = compactCh d) /\
    contents d' (tables ++ [(id, groups)]).*2 = contents d tables.*2.
Proof.
  intros Hinv Hq Hflush Hid Hcount id.
  destruct (single_segment d f es tables logged e Hinv Hq) as (seg & cur & Hlog & Hwf & Hseg & Hcut & Hact).
  destruct (flushImmutable_runs d f es tables logged e seg cur Hinv Hlog Hwf Hseg Hcut Hflush Hid)
    as (l & f' & es' & m & groups & bs & r & p & n & Hl & Hrun & Hcat & Hfile & Himg & Hp & Hcc & Htab & Hfresh & Hmlive &
        Hmfile & Hcase & Hmgood & Hwal & Hck & Hside). fold id in Hrun, Hfile, Hfresh, Hmlive, Hcase, Hside.
  destruct (committed_manifest _ _ _ _ _ _ _ _ Hinv Hl Hid Hcount Hcase) as (Hname & Hok & Hlive' & Hids').
  fold id in Hlive', Hids'. pose proof (flush_keeps_tables _ _ _ _ _ _ _ Hinv Hl Hid Hside) as Hkeep.
  set (d' := after_flush d id p r m n).
  assert (Hinv' : db_inv d' f' es' (tables ++ [(id, groups)]) cur).
  { split.
    - split; [by apply Hinv|constructor].
    - done.
    - change (sstables d') with (sstables d ++ [p]). change (heap d') with (<[p := r]> (heap d)). apply Forall2_app.
      + pose proof (di_tables _ _ _ _ _ Hinv) as Hdt. apply Forall2_same_length_lookup in Hdt as [Hl1 HF].
        apply Forall2_same_length_lookup. split; [done|]. intros i q t Hi Ht.
        apply (table_at_mono (heap d)); [by apply insert_subseteq|].
        apply (table_at_same _ f); [|by apply (HF i)]. apply Hkeep. apply list_elem_of_lookup. by exists i.
      + repeat constructor. exists r. destruct Hfresh as (H1 & _ & H3 & H4).
        split; [by rewrite lookup_insert_eq|]. split; [done|]. split; [done|]. by split.
    - apply Forall_app. split; [apply (sst_durable_same f); [done|apply Hinv]|].
      apply Forall_singleton. split; [unfold is_u64, id; cbn; lia|]. by exists bs.
    - exists m. split; [done|]. rewrite Hlive'. by split; [|split; [|split]].
    - done.
    - by rewrite Hids', fmap_app.
    - apply Forall_app. split; [|apply Forall_singleton; change (id <= id); lia].
      eapply Forall_impl; [apply (di_next _ _ _ _ _ Hinv)|]. intros t Ht. change (t.1 <= id). cbn in Ht. unfold id. lia.
    - by apply Hinv.
    - done.
    - pose proof (di_admissible _ _ _ _ _ Hinv) as Ha. rewrite Hlog in Ha. by apply Forall_app in Ha as [_ Ha].
    - done.
    - rewrite Hlive'. intros E. exfalso. set_solver.
    - exists [], cur. by split.
    - apply parked_insert; [apply Hinv|by eapply fresh_parked]. }
  exists l, d', f', es', groups, bs, seg, cur. repeat (split; [done|]).
  split; [by apply (drain_flushed d e)|]. split; [done|]. repeat (split; [done|]).
  rewrite (db_inv_contents _ _ _ _ _ Hinv'), (db_inv_contents _ _ _ _ _ Hinv), !log_layer_app.
  change (pendingBatch d') with (pendingBatch d). rewrite <- !(map_union_assoc (M := gmap bytes)). f_equal.
  rewrite (flushed_layer d tables id groups seg cur (mem e) Hcat Hseg). by rewrite Hlog.
Qed.

Lemma flush_inv d f es tables logged e : db_inv d f es tables logged -> pendingFlush d = [e] ->
  flushable (mem e) -> 0 <= nextSSTID d < 2 ^ 64 - 1 -> zlen tables < 2 ^ 28 - 1 ->
  exists d' f' es' groups logged', drain_round d (mkWorld f []) = (Ok (d', true), mkWorld f' []) /\
    db_inv d' f' es' (tables ++ [(nextSSTID d + 1, groups)]) logged' /\
    pendingFlush d' = [] /\ pendingBatch d' = pendingBatch d /\ closed d' = closed d /\ cfg d' = cfg d /\
    contents d' (tables ++ [(nextSSTID d + 1, groups)]).*2 = contents d tables.*2.
Proof.
  intros Hinv Hq Hfl Hid Hc. destruct (flush_runs d f es tables logged e Hinv Hq Hfl Hid Hc)
    as (l & d' & f' & es' & groups & bs & seg & cur & _ & _ & _ & _ & _ & _ & [Hrun _] & H1 & H2 & H3 & H4 & H5 & _ & _ & _ & H6).
  by exists d', f', es', groups, cur.
Qed.

End flush.

End DbFlushSpec.
