(* ===== verification/DbCompactSpec.v ===== *)
(** What a compaction does: the table it writes is the merge of the two oldest, the
    later of them in front, and it takes its place behind all the others, as the
    newest table.  The contents are therefore kept when the merged keys do not occur
    in the other tables, and not in general. *)

From Stdlib Require Import ZArith Lia.
From S2P Require Import Prelude Word Fs GoStr Memtable Wal Manifest Bloom SstFormat SstWriter SstReader.
From S2P Require Import MergeIter SstMerge SstTable DbState DbFlush DbWrite DbRead DbCompact DbOpen DbRecover.
From S2P Require Import DbInv DbScan DbFlushSpec.

Module DbCompactSpec.
Import Db DbFlush DbCompact DbOpen DbRead DbRecover DbInv DbFlushSpec SstFormat SstWriter SstMerge SstTable.

(** * The merged entries *)

Definition merged_entries (g1 g2 : list (list entry)) : list entry :=
  Merge.merged (sources_of [concat g1; concat g2]).

Lemma weight_perm a b : a ≡ₚ b -> weight a = weight b.
Proof.
  induction 1 as [|x a b _ IH|x y a|a b c _ IH1 _ IH2]; [done|..|congruence]; rewrite ?weight_cons; lia.
Qed.

Lemma weight_submseteq a b : a ⊆+ b -> weight a <= weight b.
Proof.
  intros (c & Hc)%submseteq_Permutation. rewrite (weight_perm _ _ Hc), weight_app. pose proof (weight_nonneg c). lia.
Qed.

Lemma sorted_entries_NoDup es : keys_sorted es -> NoDup es.
Proof.
  unfold keys_sorted. induction es as [|e es IH]; intros Hs; [constructor|].
  rewrite fmap_cons in Hs. apply StronglySorted_inv in Hs as [Hs Hall]. constructor; [|by apply IH].
  intros Hin. rewrite Forall_fmap, Forall_forall in Hall. by apply (blt_irrefl (Key e)), (Hall e).
Qed.

Section merged.
Context (g1 g2 : list (list entry)) (Hs1 : keys_sorted (concat g1)) (Hs2 : keys_sorted (concat g2)).

Lemma two_sorted : Forall keys_sorted [concat g1; concat g2].
Proof. by repeat constructor. Qed.

Lemma merged_elem2 e : e ∈ merged_entries g1 g2 -> e ∈ concat g1 ++ concat g2.
Proof.
  intros (l & Hl & He)%(merged_elem _ _ two_sorted). apply elem_of_app.
  apply list_elem_of_In in Hl as [<-|[<-|[]]]; auto.
Qed.

Lemma merged_sorted : keys_sorted (merged_entries g1 g2).
Proof. by apply (Merge.merged_spec _ (sources_ok _ two_sorted)). Qed.

Lemma merged_weight : weight (merged_entries g1 g2) <= weight (concat g1) + weight (concat g2).
Proof.
  rewrite <- weight_app. apply weight_submseteq, NoDup_submseteq; [apply sorted_entries_NoDup, merged_sorted|].
  apply merged_elem2.
Qed.

Lemma merged_fits : Forall fits (concat g1) -> Forall fits (concat g2) -> Forall fits (merged_entries g1 g2).
Proof.
  intros H1 H2. apply Forall_forall. intros e He%merged_elem2.
  assert (H12 : Forall fits (concat g1 ++ concat g2)) by (by apply Forall_app).
  rewrite Forall_forall in H12. by apply H12.
Qed.

(** The later table in front. *)
Lemma merged_layer2 : layer_of (merged_entries g1 g2) = layer_of (concat g2) ∪ layer_of (concat g1).
Proof.
  unfold merged_entries. rewrite (merged_layer _ two_sorted). cbn [layers].
  by rewrite (map_empty_union (M := gmap bytes)).
Qed.

End merged.

(** * Ids and pointers *)

Lemma liveIDs_tables h f ps tables : Forall2 (table_at h f) ps tables ->
  Forall (fun t => 0 <= t.1 < 10 ^ 8) tables ->
  liveIDsFromReaders (omap (fun p => h !! p) ps) = Ok tables.*1.
Proof.
  induction 1 as [|p t ps tables (r & Hr & _ & _ & Hp & _) _ IH]; intros Hids; [done|].
  apply Forall_cons in Hids as [Hid Hids]. csimpl. rewrite Hr. cbn [liveIDsFromReaders].
  assert (Hid' : sstIDFromPath (SstReader.Path r) = Ok t.1).
  { unfold sstIDFromPath. rewrite Hp. rewrite GoStr.sstFilePattern_path by (unfold is_u64; lia).
    rewrite decide_True by lia. by rewrite GoStr.ParseUint_format by (unfold is_u64; lia). }
  rewrite Hid'. cbn [res_bind]. by rewrite (IH Hids).
Qed.

Lemma table_at_inj h f p t1 t2 : is_u64 t1.1 -> is_u64 t2.1 -> table_at h f p t1 -> table_at h f p t2 -> t1.1 = t2.1.
Proof.
  intros U1 U2 (r1 & H1 & _ & _ & P1 & _) (r2 & H2 & _ & _ & P2 & _). rewrite H1 in H2. injection H2 as <-.
  rewrite P1 in P2. by apply GoStr.sstFilePath_inj.
Qed.

Lemma pointers_NoDup h f ps tables : Forall2 (table_at h f) ps tables -> NoDup tables.*1 ->
  Forall (fun t => is_u64 t.1) tables -> NoDup ps.
Proof.
  intros HF Hnd Hu. apply NoDup_alt. intros i j p Hi Hj.
  destruct (Forall2_lookup_l _ _ _ _ _ HF Hi) as (t1 & Ht1 & A1).
  destruct (Forall2_lookup_l _ _ _ _ _ HF Hj) as (t2 & Ht2 & A2).
  assert (E : t1.1 = t2.1) by (eapply table_at_inj; try done; by eapply (Forall_lookup_1 _ _ _ _ Hu)).
  rewrite NoDup_alt in Hnd. apply (Hnd i j t1.1); rewrite list_lookup_fmap; [by rewrite Ht1|rewrite Ht2; cbn; by rewrite E].
Qed.

Lemma sort_ids_NoDup (live : gset Z) : NoDup (Manifest.sort_ids (elements live)).
Proof. unfold Manifest.sort_ids. rewrite merge_sort_Permutation. apply NoDup_elements. Qed.

(** * Writing the merged table *)

Section compact.
Context `{BloomSizing}.

Lemma sum_counts_quiet f r1 r2 g1 g2 : SstReader.table f r1 g1 -> SstReader.table f r2 g2 ->
  zlen (concat g1) + zlen (concat g2) < 2 ^ 26 ->
  sum_counts [r1; r2] (mkWorld f []) = (Ok (zlen (concat g1) + zlen (concat g2)), mkWorld f []).
Proof.
  intros H1 H2 Hn. cbn [sum_counts]. rewrite (io_bind_ok _ _ _ _ _ (SstReader.EntryCount_quiet r1 g1 f H1)).
  pose proof (zlen_nonneg (concat g1)). pose proof (zlen_nonneg (concat g2)).
  rewrite (io_bind_ok _ _ _ (zlen (concat g2)) (mkWorld f [])).
  - rewrite u64_id by (unfold is_u64; lia). done.
  - rewrite (io_bind_ok _ _ _ _ _ (SstReader.EntryCount_quiet r2 g2 f H2)). unfold io_bind, io_ret.
    rewrite Z.add_0_r, u64_id by (unfold is_u64; lia). done.
Qed.

(** Two tables that one table can take, with no empty key. *)
Definition mergeable (g1 g2 : list (list entry)) : Prop :=
  weight (concat g1) + weight (concat g2) < 2 ^ 40 /\ zlen (concat g1) + zlen (concat g2) < 2 ^ 26 /\
  Forall (fun e => Key e <> []) (concat g1) /\ Forall (fun e => Key e <> []) (concat g2).

Lemma mergeSSTables_quiet d f r1 r2 g1 g2 t1 t2 : SstReader.table f r1 g1 -> SstReader.table f r2 g2 ->
  SstReader.Path r1 = GoStr.sstFilePath t1 -> SstReader.Path r2 = GoStr.sstFilePath t2 ->
  mergeable g1 g2 -> 0 <= nextSSTID d < 2 ^ 64 - 1 ->
  let id := nextSSTID d + 1 in
  exists f' groups bs r, mergeSSTables [r1; r2] d (mkWorld f []) =
      (Ok (set_nextFileID (nextFileID d + 1) (set_nextSSTID id d), inl (Some r)), mkWorld f' []) /\
    concat groups = merged_entries g1 g2 /\ f' !! GoStr.sstFilePath id = Some (File bs bs) /\ sst_image groups bs /\
    SstReader.table f' r groups /\ SstReader.fresh (GoStr.sstFilePath id) r /\
    (forall q, q <> GoStr.sstFilePath id -> q <> tmp_of (GoStr.sstFilePath id) -> f' !! q = f !! q).
Proof.
  intros T1 T2 P1 P2 (Hw & Hc & K1 & K2) Hid id.
  assert (Hu : u64 (nextSSTID d + 1) = id) by (apply u64_id; unfold is_u64; lia).
  set (path := GoStr.sstFilePath id). pose proof (SstReader.t_sorted _ _ _ T1) as S1. pose proof (SstReader.t_sorted _ _ _ T2) as S2.
  set (n0 := zlen (concat g1) + zlen (concat g2)). set (n := if n0 <? 1 then 1 else n0).
  assert (Hn : 1 <= n < 2 ^ 26) by (unfold n, n0 in *; destruct (Z.ltb_spec (zlen (concat g1) + zlen (concat g2)) 1); lia).
  destruct (write_table_quiet path defaultBlockSize n (merged_entries g1 g2) f eq_refl Hn
    (merged_fits g1 g2 S1 S2 (SstReader.t_fits _ _ _ T1) (SstReader.t_fits _ _ _ T2)) (merged_sorted g1 g2 S1 S2))
    as (w & f1 & w1 & f2 & w2 & f3 & groups & bs & Hnew & Hadd & Hcl & Hcat & Hfile & Himg & Hq).
  { pose proof (merged_weight g1 g2 S1 S2). lia. }
  destruct (NewWriter_quiet path defaultBlockSize n f eq_refl ltac:(lia)) as (w' & f1' & Hnew' & Hwr & Hq1).
  rewrite Hnew in Hnew'. injection Hnew' as <- <-.
  assert (Hmerge : MergeReadersKeepTombstones [r1; r2] w (mkWorld f1 []) = (Ok (w1, None), mkWorld f2 [])).
  { assert (Hsame : forall t, f1 !! GoStr.sstFilePath t = f !! GoStr.sstFilePath t).
    { intros t. apply Hq1. apply last_char_sst. }
    unfold MergeReadersKeepTombstones.
    rewrite (mergeReaders_quiet f1 [r1; r2] [g1; g2] w true); [|done| | |by repeat constructor].
    - rewrite <- Hadd. cbn [negb]. f_equal. unfold merged_entries. cbn [fmap list_fmap].
      unfold Merge.visible. induction (Merge.merged _) as [|x l IH]; [done|]. cbn [List.filter].
      rewrite andb_false_r. cbn [negb]. by rewrite IH.
    - constructor; [|constructor; [|constructor]]; (eapply table_same; [done|]); unfold bytes_at;
        unfold SstReader.Path in *; [rewrite P1|rewrite P2]; by rewrite Hsame.
    - unfold SstReader.Path in *. repeat constructor; rewrite (wr_tmp _ _ _ _ _ _ _ _ Hwr); [rewrite P1|rewrite P2];
        intros E; symmetry in E; by apply last_char_sst in E. }
  destruct (sst_file_open f3 (id, groups) (nextFileID d + 1)) as (r & Hopen & Htab & Hfresh).
  { split; [unfold is_u64, id; cbn; lia|]. exists bs. split; [|done]. unfold bytes_at. cbn. fold path. by rewrite Hfile. }
  exists f3, groups, bs, r. split; [|done]. unfold mergeSSTables. change (zlen [r1; r2] <? 2) with false. cbv iota.
  rewrite (bind_try_ok _ _ _ _ _ (sum_counts_quiet f r1 r2 g1 g2 T1 T2 Hc)). cbv iota beta zeta. fold n0 n. rewrite Hu. fold path.
  rewrite (io_bind_ok _ _ _ None (mkWorld f3 [])).
  - unfold next_file_id. cbv iota beta zeta. cbn [nextFileID set_nextSSTID].
    cbn [fst snd] in Hopen. fold path in Hopen. by rewrite (bind_try_ok _ _ _ _ _ Hopen).
  - unfold write_merged. rewrite (bind_try_ok _ _ _ _ _ Hnew), (io_bind_ok _ _ _ _ _ Hmerge). cbv iota beta.
    by rewrite (io_bind_ok _ _ _ _ _ Hcl).
Qed.

(** Only the files of the new table are touched. *)
Lemma sum_counts_read_only readers : read_only (sum_counts readers).
Proof. pose proof SstReader.EntryCount_read_only. induction readers as [|r rs IH]; cbn [sum_counts]; io_read_only. Qed.

Lemma write_merged_touches readers path n : touches (fun q => q = path \/ q = tmp_of path) (write_merged readers path n).
Proof.
  intros q Q Hq. assert (tmp_of path <> q /\ path <> q) as [H1 H2] by (split; intros E; apply Hq; subst; tauto).
  unfold write_merged. eapply triple_bind with (R := fun x f => about q Q f /\
    match x with inl w => tmpPath w = tmp_of path /\ finalPath w = path | inr _ => True end).
  { apply triple_try. eapply triple_conseq; [by apply NewWriter_frame|done|].
    intros [w|e|] f [HQ Hw]; [|done..]. split; [done|]. by apply Hw. }
  intros [w|e]; [|by apply triple_pull; intros; apply preserves_ret]. apply triple_pull. intros [Hw1 Hw2].
  eapply triple_bind with (R := fun x f => about q Q f /\ tmpPath x.1 = tmp_of path /\ finalPath x.1 = path).
  { eapply triple_conseq; [apply mergeReaders_frame with (q := q) (Q := Q); congruence|done|].
    intros [[w' e]|e|] f [HQ Hs]; [|done..]. destruct (Hs w' e eq_refl). split; [done|]. cbn. split; congruence. }
  intros [w1 e1]. apply triple_pull. cbn [fst]. intros [E1 E2].
  assert (Hcl : preserves (about q Q) (Close w1)) by (apply Close_other; congruence).
  change (preserves (about q Q) (match e1 with
      | Some e => Close w1 ;;! ignore (fs_remove path) ;;! io_ret (Some e)
      | None => let! (_, err) := Close w1 in
          match err with Some e => ignore (fs_remove path) ;;! io_ret (Some e) | None => io_ret None end
      end)). io_pres.
Qed.

Lemma write_merged_steady readers path n : steady (write_merged readers path n).
Proof.
  pose proof NewWriter_steady. pose proof mergeReaders_steady. pose proof Close_steady.
  unfold write_merged, MergeReadersKeepTombstones. io_steady.
Qed.

Lemma mergeSSTables_touches readers d : let path := GoStr.sstFilePath (u64 (nextSSTID d + 1)) in
  touches (fun q => q = path \/ q = tmp_of path) (mergeSSTables readers d).
Proof.
  intros path q Q Hq. assert (path <> q) by (intros <-; tauto).
  pose proof (write_merged_touches readers path) as Hw. pose proof (sum_counts_read_only readers).
  pose proof SstReader.OpenReader_read_only.
  unfold mergeSSTables, next_file_id. fold path. io_pres. by apply Hw.
Qed.

Lemma mergeSSTables_steady readers d : steady (mergeSSTables readers d).
Proof.
  pose proof write_merged_steady. pose proof sum_counts_read_only. pose proof SstReader.OpenReader_read_only.
  unfold mergeSSTables, next_file_id. io_steady.
Qed.

(** * Discarding the inputs *)

Lemma discard_runs p r d f (C : fsys -> Prop) : heap d !! p = Some r ->
  (forall f1 : fsys, (forall q, q <> SstReader.r_path r -> f1 !! q = f !! q) -> C f1) ->
  exists r' e f', runs (discard_reader p d) f (set_heap (<[p := r']> (heap d)) d, e) f' C /\ parked r' /\
    (forall q, q <> SstReader.r_path r -> f' !! q = f !! q).
Proof.
  intros Hp HC. unfold discard_reader, on_reader. rewrite Hp. unfold SstReader.Discard.
  destruct (Z.eqb_spec (SstReader.r_refs (SstReader.set_pending r true true)) 0) as [Hz|Hz].
  - set (r0 := SstReader.set_pending r true true).
    pose proof (SstReader.closeFile_steady r0) as Hst. pose proof (SstReader.closeFile_touches r0) as Hto.
    assert (exists r' e f', SstReader.closeFile r0 (mkWorld f []) = (Ok (r', e), mkWorld f' []) /\ parked r')
      as (r' & e & f' & Hrun & Hpk).
    { unfold SstReader.closeFile, parked. destruct (_ || _) eqn:Ec.
      { eexists _, _, f. split; [done|]. apply orb_true_iff in Ec as [Ec|Ec%negb_true_iff]; auto. }
      rewrite (bind_try_ok _ _ _ _ _ (fs_close_quiet _ _)). destruct (_ && _); [|eexists _, _, f; split; [done|by right; left]].
      unfold ignore, fs_remove, io_bind. rewrite prim_quiet.
      destruct (f !! SstReader.r_path _); eexists _, _, _; (split; [done|by right; left]). }
    exists r', e, f'. split; [|split; [done|]].
    + eapply runs_bind; [apply runs_from; [done|exact Hrun|]|apply runs_ret].
      intros wd ->. apply HC. intros q Hq. by apply (touches_frame _ _ _ _ Hto).
    + intros q Hq. pose proof (touches_frame _ _ (mkWorld f []) q Hto Hq) as E. by rewrite Hrun in E.
  - eexists _, _, f. split; [|split; [by right; right; right|done]]. eapply runs_bind; [apply runs_ret|apply runs_ret].
Qed.

(** * The steps of a compaction *)

Lemma still_present p1 p2 ps : readersStillPresent (p1 :: p2 :: ps) [p1; p2] = true.
Proof. unfold readersStillPresent. cbn. by rewrite !Nat.eqb_refl, !orb_true_r. Qed.

Lemma compact_begin_ok d f p1 p2 ps tables : sstables d = p1 :: p2 :: ps ->
  compactThreshold (cfg d) <= zlen (sstables d) -> Forall2 (table_at (heap d) f) (sstables d) tables ->
  Forall (fun t => 0 <= t.1 < 10 ^ 8) tables ->
  compact_begin d = BeginOk [p1; p2] tables.*1.
Proof.
  intros Hp Ht HF Hids. unfold compact_begin.
  assert (Hpick : pickSSTablesForCompactionLocked d = [p1; p2]).
  { unfold pickSSTablesForCompactionLocked, defaultCompactPickCount. destruct (Z.ltb_spec (zlen (sstables d)) (compactThreshold (cfg d))); [lia|].
    rewrite Hp. assert (E : zlen (p1 :: p2 :: ps) <? 2 = false).
    { rewrite !zlen_cons. pose proof (zlen_nonneg ps). lia. }
    by rewrite E. }
  rewrite Hpick. change (zlen [p1; p2] <? 2) with false. cbv iota. unfold deref.
  rewrite (liveIDs_tables _ _ _ _ HF Hids). rewrite Hp, still_present. done.
Qed.

Lemma plan_list_ok d p1 p2 ps p : sstables d = p1 :: p2 :: ps -> NoDup (p1 :: p2 :: ps) ->
  plan_list [p1; p2] p d = ps ++ [p].
Proof.
  intros Hp Hnd. unfold plan_list. rewrite Hp. f_equal.
  rewrite filter_cons_False by set_solver. rewrite filter_cons_False by set_solver.
  apply NoDup_cons in Hnd as [H1 Hnd]. apply NoDup_cons in Hnd as [H2 _].
  assert (Hall : Forall (fun q => q ∉ [p1; p2]) ps) by (apply Forall_forall; set_solver).
  clear -Hall. induction Hall as [|q qs Hq _ IH]; [done|]. by rewrite filter_cons_True, IH.
Qed.

Lemma compact_plan_ok d f p1 p2 ps p rest id groups : sstables d = p1 :: p2 :: ps -> NoDup (p1 :: p2 :: ps) ->
  Forall2 (table_at (heap d) f) (ps ++ [p]) (rest ++ [(id, groups)]) ->
  Forall (fun t => 0 <= t.1 < 10 ^ 8) (rest ++ [(id, groups)]) ->
  compact_plan [p1; p2] p d = PlanOk (ps ++ [p]) (rest.*1 ++ [id]).
Proof.
  intros Hp Hnd HF Hids. unfold compact_plan. rewrite (plan_list_ok d p1 p2 ps p Hp Hnd), Hp, still_present.
  cbn [negb]. unfold deref. rewrite (liveIDs_tables _ _ _ _ HF Hids). by rewrite fmap_app.
Qed.

(** The commit, once the manifest names the new set. *)
Lemma compact_commit_runs d f p1 p2 ps p old m es r1 r2 t1 t2 : sstables d = p1 :: p2 :: ps ->
  manifest d = Some m -> is_manifest (Manifest.path m) -> Manifest.file m = true ->
  Manifest.good f (Manifest.path m) es ->
  p1 <> p2 -> heap d !! p1 = Some r1 -> heap d !! p2 = Some r2 ->
  SstReader.Path r1 = GoStr.sstFilePath t1 -> SstReader.Path r2 = GoStr.sstFilePath t2 ->
  let other q := ~ Manifest.compact_side (Manifest.path m) q /\ q <> GoStr.sstFilePath t1 /\ q <> GoStr.sstFilePath t2 in
  exists m' es' f' h, runs (compact_commit [p1; p2] old p (ps ++ [p]) d) f
      (set_heap h (set_manifest (Some m') (trackReader p (publishSSTables (set_sstables (ps ++ [p]) d)))), None) f'
      (fun f1 => (exists name es', Manifest.compacted_to m es name es' /\ Manifest.good f1 name es') /\
                 forall q, other q -> f1 !! q = f !! q) /\
    (forall q, q <> p1 -> q <> p2 -> h !! q = heap d !! q) /\ (parked_all (heap d) -> parked_all h) /\
    Manifest.liveSet m' = Manifest.liveSet m /\ Manifest.file m' = true /\
    Manifest.compacted_to m es (Manifest.path m') es' /\ Manifest.good f' (Manifest.path m') es' /\
    (forall q, other q -> f' !! q = f !! q).
Proof.
  intros Hp Hm Hn Hf Hg Hne H1 H2 P1 P2 other. unfold SstReader.Path in P1, P2. pose proof Hn as [Hnok _].
  set (C := fun f1 => _ /\ _).
  destruct (Manifest.MaybeCompact_runs m f es Hnok Hf Hg) as (m' & es' & f1 & Hmc & Hl & Hf' & Hg' & Hcase & Hq1).
  pose proof (compacted_manifest _ _ _ _ Hn Hcase) as Hn'.
  assert (Hgood : forall f2, (forall q, q <> GoStr.sstFilePath t1 -> q <> GoStr.sstFilePath t2 -> f2 !! q = f1 !! q) ->
    Manifest.good f2 (Manifest.path m') es').
  { intros f2 Hq. destruct Hn' as [_ [x Hx]]. apply (good_same f1); [done|..]; apply Hq; try done; by rewrite Hx. }
  assert (HC : forall f2, (forall q, q <> GoStr.sstFilePath t1 -> q <> GoStr.sstFilePath t2 -> f2 !! q = f1 !! q) -> C f2).
  { intros f2 Hq. split; [exists (Manifest.path m'), es'; by split; [|apply Hgood]|].
    intros q (A1 & A2 & A3). rewrite Hq by done. by apply Hq1. }
  unfold compact_commit. rewrite Hp, still_present. cbn [negb].
  set (d1 := trackReader p (publishSSTables (set_sstables (ps ++ [p]) d))).
  destruct (discard_runs p1 r1 (set_manifest (Some m') d1) f1 C H1) as (r1' & e1 & f2 & Hd1 & Hk1 & Hq2).
  { intros g Hg2. apply HC. intros q A1 A2. apply Hg2. by rewrite P1. }
  set (d2 := set_heap (<[p1 := r1']> (heap (set_manifest (Some m') d1))) (set_manifest (Some m') d1)) in *.
  assert (H2' : heap d2 !! p2 = Some r2) by (unfold d2; cbn; by rewrite lookup_insert_ne).
  rewrite P1 in Hq2.
  destruct (discard_runs p2 r2 d2 f2 C H2') as (r2' & e2 & f3 & Hd2 & Hk2 & Hq3).
  { intros g Hg2. apply HC. intros q A1 A2. rewrite Hg2, Hq2; [done..|by rewrite P2]. }
  rewrite P2 in Hq3.
  assert (Hq13 : forall q, q <> GoStr.sstFilePath t1 -> q <> GoStr.sstFilePath t2 -> f3 !! q = f1 !! q).
  { intros q A1 A2. by rewrite Hq3, Hq2. }
  exists m', es', f3, (<[p2 := r2']> (<[p1 := r1']> (heap d))). split.
  { eapply runs_bind; [apply runs_crash_point|].
    { split; [exists (Manifest.path m), es; split; [by left|done]|done]. }
    cbv zeta. fold d1. eapply runs_bind with (a := set_manifest (Some m') d1).
    { unfold manifest_maybe_compact. change (manifest d1) with (manifest d). rewrite Hm.
      eapply runs_bind; [eapply runs_weaken; [exact Hmc|]|apply runs_ret].
      intros g [G1 G2]. split; [done|]. intros q (A1 & _). by apply G2. }
    cbn [discard_all]. eapply runs_bind.
    { eapply runs_bind; [exact Hd1|]. cbv iota beta. eapply runs_bind; [exact Hd2|apply runs_ret]. }
    eapply runs_bind; [apply runs_crash_point, HC, Hq13|apply runs_ret]. }
  split. { intros q A1 A2. by rewrite !lookup_insert_ne. }
  split. { intros Hpa. by do 2 (apply parked_insert; [|done]). }
  repeat (split; [done|]). split; [by apply Hgood|]. intros q (A1 & A2 & A3). by rewrite Hq13, Hq1.
Qed.

Lemma sort_ids_sorted ids : StronglySorted Z.le ids -> Manifest.sort_ids ids = ids.
Proof.
  intros Hs. apply (StronglySorted_unique Z.le); [apply StronglySorted_merge_sort; apply _|done|].
  apply merge_sort_Permutation.
Qed.

Lemma sort_ids_elements ids : NoDup ids -> StronglySorted Z.le ids ->
  Manifest.sort_ids (elements (list_to_set ids : gset Z)) = ids.
Proof.
  intros Hnd Hs. apply (StronglySorted_unique Z.le); [apply StronglySorted_merge_sort; apply _|done|].
  unfold Manifest.sort_ids. rewrite merge_sort_Permutation. by apply elements_list_to_set.
Qed.

(** The ids of the tables that stay and of the new one are in order. *)
Lemma new_ids_sorted (live : gset Z) a b (rest : list Z) id : Manifest.sort_ids (elements live) = a :: b :: rest ->
  Forall (fun x => x < id) (a :: b :: rest) ->
  NoDup (rest ++ [id]) /\ StronglySorted Z.le (rest ++ [id]).
Proof.
  intros Hs Hlt. assert (Hnd : NoDup (a :: b :: rest)) by (rewrite <- Hs; apply sort_ids_NoDup).
  assert (Hss : StronglySorted Z.le (a :: b :: rest))
    by (rewrite <- Hs; apply StronglySorted_merge_sort; apply _).
  apply NoDup_cons in Hnd as [_ Hnd]. apply NoDup_cons in Hnd as [_ Hnd].
  apply StronglySorted_inv in Hss as [Hss _]. apply StronglySorted_inv in Hss as [Hss _].
  apply Forall_cons in Hlt as [_ Hlt]. apply Forall_cons in Hlt as [_ Hlt]. rewrite Forall_forall in Hlt.
  split.
  - apply NoDup_app. split; [done|]. split; [|apply NoDup_singleton].
    intros x Hx ->%list_elem_of_singleton. specialize (Hlt _ Hx). lia.
  - apply StronglySorted_app. repeat split; [|done|by repeat constructor].
    intros x y Hx ->%list_elem_of_singleton. specialize (Hlt _ Hx). lia.
Qed.

(** * The whole compaction *)

(** The directory on the way: the manifest still lists the old tables, which are all in
    place (its last record may be incomplete, and then the merged table is in place), or
    it lists the new ones. *)
Definition compacting (f : fsys) (l : Manifest.Log) (es : list Manifest.edit) (a b : Z) (ids : list Z) (id : Z)
    (bs : bytes) (f1 : fsys) : Prop :=
  (forall q, q <> GoStr.sstFilePath id -> q <> tmp_of (GoStr.sstFilePath id) ->
     ~ Manifest.compact_side (Manifest.path l) q -> q <> GoStr.sstFilePath a -> q <> GoStr.sstFilePath b ->
     f1 !! q = f !! q) /\
  (f1 !! GoStr.sstFilePath a = f !! GoStr.sstFilePath a /\ f1 !! GoStr.sstFilePath b = f !! GoStr.sstFilePath b /\
   (Manifest.good f1 (Manifest.path l) es \/
    Manifest.appending l es (Manifest.SetFileSet ids) f1 /\ f1 !! GoStr.sstFilePath id = Some (File bs bs)) \/
   f1 !! GoStr.sstFilePath id = Some (File bs bs) /\
   exists name es', Manifest.compacted_to (Manifest.mkLog (Manifest.path l) true (list_to_set ids)
     (Manifest.recordCount l + 1)) (es ++ [Manifest.SetFileSet ids]) name es' /\ Manifest.good f1 name es').

Lemma snoc_set_nonempty (l : list Z) id : (list_to_set (l ++ [id]) : gset Z) <> ∅.
Proof.
  rewrite list_to_set_app_L. cbn. set_solver.
Qed.

Section one.
Context (d : DB) (f : fsys) (es : list Manifest.edit) (t1 t2 : Z * list (list entry)) (rest : list (Z * list (list entry))).
Context (logged : list entry) (Hinv : db_inv d f es (t1 :: t2 :: rest) logged).
Context (Hid : 0 <= nextSSTID d < 10 ^ 8 - 1) (Hcount : zlen rest < 2 ^ 28 - 1).
Local Abbreviation tables := (t1 :: t2 :: rest).
Local Abbreviation id := (nextSSTID d + 1).
Local Abbreviation ids := (rest.*1 ++ [id]).

(** The ids are small, those of the tables smaller than the new one. *)
Lemma small_ids : Forall (fun t => 0 <= t.1 < 10 ^ 8) tables /\ Forall (fun t => is_u64 t.1) tables /\
  Forall (fun x => x < id) tables.*1.
Proof.
  pose proof (di_files _ _ _ _ _ Hinv) as Hf. pose proof (di_next _ _ _ _ _ Hinv) as Hn. rewrite Forall_forall in Hf, Hn.
  repeat split; try apply Forall_fmap; apply Forall_forall; intros t Ht;
    destruct (Hf t Ht) as [Hu _]; specialize (Hn t Ht); cbn in *; unfold is_u64 in *; lia.
Qed.

Lemma ids_sorted : NoDup ids /\ StronglySorted Z.le ids.
Proof. eapply new_ids_sorted; [exact (di_ids _ _ _ _ _ Hinv)|apply small_ids]. Qed.

(** The tables that stay and the new one have paths of their own. *)
Lemma staying_apart groups t : t ∈ rest ++ [(id, groups)] ->
  GoStr.sstFilePath t.1 <> GoStr.sstFilePath t1.1 /\ GoStr.sstFilePath t.1 <> GoStr.sstFilePath t2.1.
Proof.
  intros Ht. destruct small_ids as (H8 & Hu & Hlt).
  assert (Hnd : NoDup (t1.1 :: t2.1 :: rest.*1)).
  { pose proof (di_ids _ _ _ _ _ Hinv) as E. change (NoDup tables.*1). rewrite <- E. apply sort_ids_NoDup. }
  apply NoDup_cons in Hnd as [N1 Hnd]. apply NoDup_cons in Hnd as [N2 _].
  apply Forall_cons in Hu as [U1 Hu]. apply Forall_cons in Hu as [U2 Hu].
  rewrite !fmap_cons, !Forall_cons in Hlt. destruct Hlt as (L1 & L2 & _).
  assert (is_u64 t.1 /\ t.1 <> t1.1 /\ t.1 <> t2.1) as (Ut & D1 & D2).
  { apply elem_of_app in Ht as [Ht| ->%list_elem_of_singleton].
    - assert (t.1 ∈ rest.*1) by (apply list_elem_of_fmap; by exists t). rewrite Forall_forall in Hu.
      split; [by apply Hu|]. set_solver.
    - cbn. unfold is_u64. split; [lia|]. split; lia. }
  split; intros E; apply GoStr.sstFilePath_inj in E; done.
Qed.

Lemma old_apart t : t ∈ tables -> GoStr.sstFilePath t.1 <> GoStr.sstFilePath id.
Proof.
  intros Ht E. destruct small_ids as (_ & Hu & Hlt). rewrite Forall_forall in Hu. rewrite Forall_forall in Hlt.
  specialize (Hlt t.1 ltac:(apply list_elem_of_fmap; by exists t)). cbn in Hlt.
  apply GoStr.sstFilePath_inj in E; [lia|by apply Hu|unfold is_u64; lia].
Qed.

Lemma rest_in t : t ∈ rest -> t ∈ tables.
Proof. intros Ht. by do 2 apply list_elem_of_further. Qed.

Lemma set_edit_ok : Manifest.edit_ok (Manifest.SetFileSet ids).
Proof.
  destruct small_ids as (_ & Hu & _). rewrite Forall_forall in Hu. split.
  - apply Forall_app. split; [|apply Forall_singleton; unfold is_u64; lia].
    apply Forall_fmap, Forall_forall. intros t Ht. by apply Hu, rest_in.
  - rewrite zlen_app. unfold zlen in *. rewrite length_fmap. cbn. lia.
Qed.

(** What the manifest of the new set says. *)
Lemma set_manifest_ok l name es' : manifest d = Some l ->
  Manifest.compacted_to (Manifest.mkLog (Manifest.path l) true (list_to_set ids) (Manifest.recordCount l + 1))
    (es ++ [Manifest.SetFileSet ids]) name es' ->
  is_manifest name /\ Forall Manifest.edit_ok es' /\ Manifest.live_of es' = list_to_set ids /\
  Manifest.sort_ids (elements (Manifest.live_of es')) = ids.
Proof.
  intros Hm Hcase. destruct (di_manifest _ _ _ _ _ Hinv) as (l0 & Hl0 & Hname & _). rewrite Hm in Hl0. injection Hl0 as <-.
  destruct ids_sorted as [Hnd Hs]. split; [by eapply compacted_manifest; [|exact Hcase]|].
  pose proof set_edit_ok as Hok. destruct Hcase as [[_ ->]|[_ ->]].
  - rewrite Manifest.live_of_snoc. change (Manifest.edit_live _ (Manifest.SetFileSet ids)) with (list_to_set ids : gset Z).
    rewrite sort_ids_elements by done. split; [|done]. apply Forall_app. split; [by apply Hinv|by apply Forall_singleton].
  - unfold Manifest.snapshot_edit, Manifest.liveIDsLocked. cbn [Manifest.liveSet].
    rewrite Manifest.live_snapshot, sort_ids_elements by done. split; [by apply Forall_singleton|done].
Qed.

(** Everything but the merged table and its temporary file is as at the start. *)
Definition unmerged (g : fsys) : Prop :=
  forall q, q <> GoStr.sstFilePath id -> q <> tmp_of (GoStr.sstFilePath id) -> g !! q = f !! q.

Lemma unmerged_table g t : unmerged g -> t ∈ tables -> (g : fsys) !! GoStr.sstFilePath t.1 = f !! GoStr.sstFilePath t.1.
Proof. intros Hg Ht. apply Hg; [by apply old_apart|apply last_char_sst]. Qed.

Lemma unmerged_good g l : unmerged g -> manifest d = Some l -> Manifest.good g (Manifest.path l) es.
Proof.
  intros Hg Hm. destruct (di_manifest _ _ _ _ _ Hinv) as (l0 & Hl0 & [_ [s Hs]] & _ & _ & Hgood).
  rewrite Hm in Hl0. injection Hl0 as <-. apply (good_same f); [done|..]; apply Hg; try done; by rewrite Hs.
Qed.

Lemma unmerged_compacting g l bs : unmerged g -> manifest d = Some l -> compacting f l es t1.1 t2.1 ids id bs g.
Proof.
  intros Hg Hm. split; [by intros; apply Hg|]. left.
  split; [apply (unmerged_table g t1 Hg); left|].
  split; [apply (unmerged_table g t2 Hg); right; left|left; by apply unmerged_good].
Qed.

(** The first phase, up to the merged table. *)
Record merging (p1 p2 : nat) (ps : list nat) (r1 r2 r : SstReader.Reader) (groups : list (list entry)) (bs : bytes)
    (f1 : fsys) : Prop := {
  mg_pointers : sstables d = p1 :: p2 :: ps;
  mg_distinct : NoDup (p1 :: p2 :: ps);
  mg_first : heap d !! p1 = Some r1 /\ live r1 /\ SstReader.Path r1 = GoStr.sstFilePath t1.1;
  mg_second : heap d !! p2 = Some r2 /\ live r2 /\ SstReader.Path r2 = GoStr.sstFilePath t2.1;
  mg_rest : Forall2 (table_at (heap d) f) ps rest;
  mg_run : runs (mergeSSTables [r1; r2] d) f
    (set_nextFileID (nextFileID d + 1) (set_nextSSTID id d), inl (Some r)) f1 unmerged;
  mg_entries : concat groups = merged_entries t1.2 t2.2;
  mg_file : f1 !! GoStr.sstFilePath id = Some (File bs bs);
  mg_image : sst_image groups bs;
  mg_table : SstReader.table f1 r groups;
  mg_fresh : SstReader.fresh (GoStr.sstFilePath id) r;
  mg_frame : unmerged f1
}.

Lemma merge_phase : mergeable t1.2 t2.2 -> exists p1 p2 ps r1 r2 r groups bs f1, merging p1 p2 ps r1 r2 r groups bs f1.
Proof.
  intros Hmg. pose proof (di_tables _ _ _ _ _ Hinv) as HF. destruct small_ids as (_ & Hu64 & _).
  assert (Hps : exists p1 p2 ps, sstables d = p1 :: p2 :: ps).
  { apply Forall2_length in HF. destruct (sstables d) as [|p1 [|p2 ps]]; [done..|by eexists _, _, _]. }
  destruct Hps as (p1 & p2 & ps & Hps). pose proof HF as HF0. rewrite Hps in HF0.
  apply Forall2_cons in HF0 as [A1 HF0]. apply Forall2_cons in HF0 as [A2 HFr].
  destruct A1 as (r1 & Hr1 & L1 & T1 & P1 & _). destruct A2 as (r2 & Hr2 & L2 & T2 & P2 & _).
  destruct (mergeSSTables_quiet d f r1 r2 t1.2 t2.2 t1.1 t2.1 T1 T2 P1 P2 Hmg ltac:(lia))
    as (f1 & groups & bs & r & Hmerge & Hcat & Hfile1 & Himg & Htab & Hfresh & Hq1).
  exists p1, p2, ps, r1, r2, r, groups, bs, f1. split; try done.
  - rewrite <- Hps. eapply pointers_NoDup; [exact HF| |done]. rewrite <- (di_ids _ _ _ _ _ Hinv). apply sort_ids_NoDup.
  - apply runs_from; [apply mergeSSTables_steady|exact Hmerge|]. intros wd E q B1 B2.
    pose proof (mergeSSTables_touches [r1; r2] d) as Hto. cbv zeta in Hto.
    replace (u64 (nextSSTID d + 1)) with id in Hto by (symmetry; apply u64_id; unfold is_u64; lia).
    rewrite E. apply (touches_frame _ _ _ _ Hto). intros [-> | ->]; done.
Qed.

Section merged.
Context (p1 p2 : nat) (ps : list nat) (r1 r2 r : SstReader.Reader) (groups : list (list entry)) (bs : bytes) (f1 : fsys).
Context (Hmg : merging p1 p2 ps r1 r2 r groups bs f1).
Context (l : Manifest.Log) (Hm : manifest d = Some l).
Local Abbreviation new_tables := (rest ++ [(id, groups)]).
Local Abbreviation p := (fresh (dom (heap d))).
Local Abbreviation d2 := (set_heap (<[p := r]> (heap d)) (set_nextFileID (nextFileID d + 1) (set_nextSSTID id d))).
Local Abbreviation m1 := (Manifest.mkLog (Manifest.path l) true (list_to_set ids) (Manifest.recordCount l + 1)).
Local Abbreviation d3 := (set_manifest (Some m1) d2).
Local Abbreviation es1 := (es ++ [Manifest.SetFileSet ids]).

Lemma fresh_pointer : heap d !! p = None.
Proof. apply not_elem_of_dom, is_fresh. Qed.

Lemma manifest_named : is_manifest (Manifest.path l) /\ Manifest.file l = true.
Proof. destruct (di_manifest _ _ _ _ _ Hinv) as (l0 & Hl0 & Hn & Hf & _). rewrite Hm in Hl0. by injection Hl0 as <-. Qed.

Lemma sst_not_manifest t : GoStr.sstFilePath t <> Manifest.path l.
Proof. destruct manifest_named as [[_ [s ->]] _]. done. Qed.

Lemma new_tables_at : Forall2 (table_at (<[p := r]> (heap d)) f1) (ps ++ [p]) new_tables.
Proof.
  apply Forall2_app.
  - pose proof (mg_rest _ _ _ _ _ _ _ _ _ Hmg) as [Hlen HFr]%Forall2_same_length_lookup.
    apply Forall2_same_length_lookup. split; [done|].
    intros i q t Hi Ht. apply (table_at_mono (heap d)); [apply insert_subseteq, fresh_pointer|].
    apply (table_at_same _ f); [|by apply (HFr i)]. apply unmerged_table; [apply Hmg|].
    apply rest_in, list_elem_of_lookup. by exists i.
  - constructor; [|constructor]. exists r. destruct (mg_fresh _ _ _ _ _ _ _ _ _ Hmg) as (F1 & _ & F3 & F4).
    split; [by rewrite lookup_insert_eq|]. split; [done|]. split; [apply Hmg|done].
Qed.

Lemma new_ids_small : Forall (fun t => 0 <= t.1 < 10 ^ 8) new_tables.
Proof.
  destruct small_ids as (H8 & _). apply Forall_app. split; [by do 2 apply Forall_cons in H8 as [_ H8]|].
  apply Forall_singleton. cbn. lia.
Qed.

(** Once the manifest names the new set, only it and the two old tables change. *)
Definition unreplaced (f2 g : fsys) : Prop := forall q,
  ~ Manifest.compact_side (Manifest.path l) q /\ q <> GoStr.sstFilePath t1.1 /\ q <> GoStr.sstFilePath t2.1 ->
  g !! q = f2 !! q.

Section replaced.
Context (f2 g : fsys) (Hq2 : forall q, q <> Manifest.path l -> f2 !! q = f1 !! q) (Hg : unreplaced f2 g).

Lemma replaced_table t : t ∈ new_tables -> g !! GoStr.sstFilePath t.1 = f1 !! GoStr.sstFilePath t.1.
Proof.
  intros Ht. rewrite Hg, Hq2; [done|apply sst_not_manifest|].
  split; [|by apply (staying_apart groups)]. intros Hs. destruct manifest_named as [Hn _].
  apply (sst_apart (Manifest.path l) t.1 Hn). by left.
Qed.

Lemma replaced_new : g !! GoStr.sstFilePath id = Some (File bs bs).
Proof.
  rewrite <- (mg_file _ _ _ _ _ _ _ _ _ Hmg). apply (replaced_table (id, groups)).
  apply elem_of_app. right. by apply list_elem_of_singleton.
Qed.

Lemma replaced_frame q : q <> GoStr.sstFilePath id -> q <> tmp_of (GoStr.sstFilePath id) ->
  ~ Manifest.compact_side (Manifest.path l) q -> q <> GoStr.sstFilePath t1.1 -> q <> GoStr.sstFilePath t2.1 ->
  g !! q = f !! q.
Proof.
  intros B1 B2 B3 B4 B5. rewrite Hg by done.
  rewrite Hq2; [by apply (mg_frame _ _ _ _ _ _ _ _ _ Hmg)|]. intros ->. apply B3. by left.
Qed.

Lemma replaced_durable : Forall (sst_durable g) new_tables.
Proof.
  apply Forall_app. split.
  - apply (sst_durable_same f).
    + intros t Ht. rewrite replaced_table by (apply elem_of_app; by left).
      apply unmerged_table; [apply Hmg|by apply rest_in].
    + pose proof (di_files _ _ _ _ _ Hinv) as Hfs. by do 2 apply Forall_cons in Hfs as [_ Hfs].
  - apply Forall_singleton. split; [cbn; unfold is_u64; lia|]. exists bs. split; [apply replaced_new|apply Hmg].
Qed.

Lemma replaced_compacting name es' : Manifest.compacted_to m1 es1 name es' -> Manifest.good g name es' ->
  compacting f l es t1.1 t2.1 ids id bs g.
Proof.
  intros Hc Hgood. split; [intros; by apply replaced_frame|]. right. split; [apply replaced_new|]. by exists name, es'.
Qed.

(** The invariant of the handle after the compaction. *)
Lemma replaced_inv m es' h : (forall q, q <> p1 -> q <> p2 -> h !! q = heap d3 !! q) -> parked_all h ->
  Manifest.liveSet m = Manifest.liveSet m1 -> Manifest.file m = true ->
  Manifest.compacted_to m1 es1 (Manifest.path m) es' -> Manifest.good g (Manifest.path m) es' ->
  db_inv (set_heap h (set_manifest (Some m) (trackReader p (publishSSTables (set_sstables (ps ++ [p]) d3)))))
    g es' new_tables logged.
Proof.
  intros Hh Hpa Hml Hmf Hcase Hgood. destruct (set_manifest_ok l _ _ Hm Hcase) as (Hmn & Hok & Hlive' & Hids').
  pose proof (mg_distinct _ _ _ _ _ _ _ _ _ Hmg) as Hnd. rewrite !NoDup_cons in Hnd.
  pose proof (mg_first _ _ _ _ _ _ _ _ _ Hmg) as [Hr1 _]. pose proof (mg_second _ _ _ _ _ _ _ _ _ Hmg) as [Hr2 _].
  pose proof fresh_pointer as Hpf.
  split.
  - by apply Hinv.
  - done.
  - change (Forall2 (table_at h g) (ps ++ [p]) new_tables).
    pose proof new_tables_at as [Hlen HF]%Forall2_same_length_lookup. apply Forall2_same_length_lookup. split; [done|].
    intros i q t Hi Ht. apply (table_at_same _ f1); [apply replaced_table, list_elem_of_lookup; by exists i|].
    destruct (HF i q t Hi Ht) as (x & Hx & Hx'). exists x. split; [|done].
    rewrite Hh; [done|..]; intros ->; apply list_elem_of_lookup_2 in Hi;
      (apply elem_of_app in Hi as [Hi| Hi%list_elem_of_singleton]; [|subst; congruence]); set_solver.
  - apply replaced_durable.
  - exists m. split; [done|]. rewrite Hlive'. by split; [|split; [|split]].
  - done.
  - by rewrite Hids', fmap_app.
  - apply Forall_app. split; [|apply Forall_singleton; cbn; lia]. apply Forall_forall. intros t Ht.
    pose proof (di_next _ _ _ _ _ Hinv) as Hnext. rewrite Forall_forall in Hnext. specialize (Hnext t (rest_in t Ht)).
    cbn in *. lia.
  - by apply Hinv.
  - rewrite replaced_frame; try done; [by apply Hinv|]. apply wal_compact_side; [apply manifest_named|by left].
  - by apply Hinv.
  - rewrite replaced_frame; try done; [by apply Hinv|].
    apply wal_compact_side; [apply manifest_named|by right; right; left].
  - rewrite Hlive'. intros E. by apply snoc_set_nonempty in E.
  - destruct (di_segments _ _ _ _ _ Hinv) as (segs & cur & []). by exists segs, cur.
  - done.
Qed.

End replaced.

(** The run of the second phase. *)
Lemma commit_phase : compactThreshold (cfg d) <= zlen (sstables d) ->
  exists d' f' es', runs (doCompaction d) f (d', None) f' (compacting f l es t1.1 t2.1 ids id bs) /\
    db_inv d' f' es' new_tables logged /\ pendingBatch d' = pendingBatch d /\ closed d' = closed d /\ cfg d' = cfg d.
Proof.
  intros Hth. pose proof Hmg as [Hps Hnd (Hr1 & L1 & P1) (Hr2 & L2 & P2) _ Hmerge _ Hfile _ _ _ Hq1].
  destruct manifest_named as [Hname Hlf]. pose proof fresh_pointer as Hpf. pose proof sst_not_manifest as Hsm.
  destruct (Manifest.append_runs l f1 es (Manifest.SetFileSet ids) (fun _ => list_to_set ids) Hlf
    (unmerged_good f1 l Hq1 Hm)) as (f2 & Happ & Hgood2 & Hq2); [apply Hname|].
  assert (Hh : heap d3 !! p1 = Some r1 /\ heap d3 !! p2 = Some r2).
  { cbn. split; rewrite lookup_insert_ne; try done; intros E; congruence. }
  destruct Hh as [Hh1 Hh2].
  destruct (compact_commit_runs d3 f2 p1 p2 ps p tables.*1 m1 es1 r1 r2 t1.1 t2.1)
    as (m & es' & f4 & h & Hcommit & Hh & Hpa & Hml & Hmf & Hcase & Hgood4 & Hq4); try done.
  { apply NoDup_cons in Hnd as [Hn _]. set_solver. }
  eexists _, f4, es'. split; [|split; [apply (replaced_inv f2); try done|done]].
  2:{ apply Hpa. apply parked_insert; [apply Hinv|eapply fresh_parked, Hmg]. }
  unfold doCompaction. destruct small_ids as (Hid8 & _).
  rewrite (compact_begin_ok d f p1 p2 ps tables Hps Hth (di_tables _ _ _ _ _ Hinv) Hid8).
  assert (Hd : deref d [p1; p2] = [r1; r2]) by (unfold deref; csimpl; by rewrite Hr1, Hr2). rewrite Hd.
  eapply runs_bind; [eapply runs_weaken; [exact Hmerge|]|]; [intros g Hg; by apply unmerged_compacting|].
  cbv iota beta. eapply runs_bind; [by apply runs_crash_point, unmerged_compacting|].
  unfold alloc_reader. cbv iota beta zeta.
  change (heap (set_nextFileID (nextFileID d + 1) (set_nextSSTID id d))) with (heap d).
  rewrite (compact_plan_ok d2 f1 p1 p2 ps p rest id groups Hps Hnd new_tables_at new_ids_small).
  eapply runs_bind with (a := (d3, None)).
  { unfold append_set. change (manifest d2) with (manifest d). rewrite Hm. unfold Manifest.AppendSetFileSet.
    rewrite (sort_ids_sorted ids) by apply ids_sorted.
    eapply runs_bind; [eapply runs_weaken; [exact Happ|]|apply runs_ret].
    intros g [G1 G2]. split.
    - intros q B1 B2 B3 B4 B5. rewrite G2; [by apply Hq1|]. intros ->. apply B3. by left.
    - left. split; [|split; [|right; split; [done|]]]; rewrite G2 by done; [apply (unmerged_table f1 t1 Hq1); left|
        apply (unmerged_table f1 t2 Hq1); right; left|done]. }
  cbv iota beta. eapply runs_bind; [apply runs_crash_point|].
  { eapply (replaced_compacting f2 f2); [done|done|by left|done]. }
  eapply runs_weaken; [exact Hcommit|]. intros g ((name & es2 & G1 & G2) & G3). by eapply (replaced_compacting f2 g).
Qed.

End merged.

End one.

Lemma compact_runs d f es t1 t2 rest logged : db_inv d f es (t1 :: t2 :: rest) logged ->
  compactThreshold (cfg d) <= zlen (sstables d) -> 0 <= nextSSTID d < 10 ^ 8 - 1 ->
  zlen rest < 2 ^ 28 - 1 -> mergeable t1.2 t2.2 ->
  let id := nextSSTID d + 1 in
  exists l d' f' es' groups bs, manifest d = Some l /\ concat groups = merged_entries t1.2 t2.2 /\ sst_image groups bs /\
    runs (doCompaction d) f (d', None) f' (compacting f l es t1.1 t2.1 (rest.*1 ++ [id]) id bs) /\
    db_inv d' f' es' (rest ++ [(id, groups)]) logged /\ pendingBatch d' = pendingBatch d /\
    closed d' = closed d /\ cfg d' = cfg d.
Proof.
  intros Hinv Hth Hid Hcount Hmg id. destruct (di_manifest _ _ _ _ _ Hinv) as (l & Hm & _).
  destruct (merge_phase d f es t1 t2 rest logged Hinv Hid Hmg) as (p1 & p2 & ps & r1 & r2 & r & groups & bs & f1 & Hph).
  destruct (commit_phase d f es t1 t2 rest logged Hinv Hid Hcount p1 p2 ps r1 r2 r groups bs f1 Hph l Hm Hth)
    as (d' & f' & es' & Hr). exists l, d', f', es', groups, bs. split; [done|]. by split; [apply Hph|split; [apply Hph|]].
Qed.

Lemma compact_inv d f es t1 t2 rest logged : db_inv d f es (t1 :: t2 :: rest) logged ->
  compactThreshold (cfg d) <= zlen (sstables d) -> 0 <= nextSSTID d < 10 ^ 8 - 1 ->
  zlen rest < 2 ^ 28 - 1 -> mergeable t1.2 t2.2 ->
  exists d' f' es' groups, doCompaction d (mkWorld f []) = (Ok (d', None), mkWorld f' []) /\
    db_inv d' f' es' (rest ++ [(nextSSTID d + 1, groups)]) logged /\
    concat groups = merged_entries t1.2 t2.2 /\ pendingBatch d' = pendingBatch d /\
    closed d' = closed d /\ cfg d' = cfg d.
Proof.
  intros H1 H2 H3 H4 H5. destruct (compact_runs d f es t1 t2 rest logged H1 H2 H3 H4 H5)
    as (l & d' & f' & es' & groups & bs & _ & Hcat & _ & [Hrun _] & Hinv & Hr). by exists d', f', es', groups.
Qed.

End compact.

End DbCompactSpec.
