(* ===== verification/DbCloseSpec.v ===== *)
(** What [Close] leaves behind (internal/db/close.go): everything the handle accepted is
    in tables, the log is empty, and the directory can be opened again. *)

From Stdlib Require Import ZArith Lia.
From S2P Require Import Prelude Word Fs GoStr Memtable Wal Manifest Bloom SstFormat SstWriter SstReader.
From S2P Require Import MergeIter SstMerge SstTable DbState DbFlush DbWrite DbRead DbScan DbCompact DbOpen DbRecover.
From S2P Require Import DbInv DbFlushSpec DbCompactSpec.

Module DbCloseSpec.
Import Db DbFlush DbOpen DbRead DbScan DbRecover DbInv DbFlushSpec DbCompactSpec SstTable.

(** * The size of a memtable and the part of the log it came from *)

(** A record as the memtable keeps it. *)
Definition stripped (e : entry) : entry := if Tombstone e then Entry (Key e) [] true else e.

Lemma stripped_weight l : weight (stripped <$> l) <= weight l.
Proof.
  induction l as [|e l IH]; [done|]. rewrite fmap_cons, !weight_cons.
  assert (Key (stripped e) = Key e /\ zlen (Value (stripped e)) <= zlen (Value e)) as [-> He]; [|lia].
  pose proof (zlen_nonneg (Value e)). unfold stripped. by destruct (Tombstone e).
Qed.

Lemma segment_bounds sl seg : Mem.wf sl -> Mem.contents sl = log_layer seg ->
  Mem.Len sl <= zlen seg /\ Mem.Size sl <= weight seg.
Proof.
  intros Hwf Hc. destruct (Mem.size_of sl Hwf) as [-> ->]. pose proof (Mem.Snapshot_sorted sl Hwf) as Hs.
  assert (Hsub : Mem.Snapshot sl ⊆+ stripped <$> seg).
  { apply NoDup_submseteq; [by apply sorted_entries_NoDup|]. intros e He.
    assert (Hl : log_layer seg !! Key e = Some (cell e)).
    { rewrite <- Hc. unfold Mem.contents. by rewrite (layer_of_lookup_sorted _ _ Hs He). }
    apply layer_elem in Hl as (r & Hr & Hk & Hcell). rewrite list_elem_of_In, <- in_rev, <- list_elem_of_In in Hr.
    apply list_elem_of_fmap. exists r. split; [|done].
    assert (Hbe : bare e) by (eapply Forall_forall; [apply SnapshotEntry_bare|exact He]).
    destruct e as [ke ve te], r as [kr vr tr]. unfold stripped, cell, bare in *. cbn in *.
    destruct te, tr; simplify_eq; [by rewrite Hbe|done]. }
  split.
  - apply submseteq_length in Hsub. rewrite length_fmap in Hsub. unfold zlen. lia.
  - change (weight (Mem.Snapshot sl) <= weight seg). etransitivity; [by apply weight_submseteq|apply stripped_weight].
Qed.

(** An empty memtable came from an empty part. *)
Lemma empty_segment sl seg : Mem.wf sl -> Mem.contents sl = log_layer seg -> Mem.Size sl <= 0 -> seg = [].
Proof.
  intros Hwf Hc Hs. assert (Hsnap : Mem.Snapshot sl = []).
  { destruct (Mem.size_of sl Hwf) as [E _]. rewrite E in Hs. change (weight (Mem.Snapshot sl) <= 0) in Hs.
    destruct (Mem.Snapshot sl) as [|e l]; [done|]. rewrite weight_cons in Hs.
    pose proof (weight_nonneg l). pose proof (zlen_nonneg (Key e)). pose proof (zlen_nonneg (Value e)). lia. }
  unfold Mem.contents in Hc. rewrite Hsnap in Hc. destruct seg as [|e seg _] using rev_ind; [done|].
  rewrite log_layer_snoc in Hc. symmetry in Hc. exact (False_ind _ (insert_non_empty (log_layer seg) (Key e) (cell e) Hc)).
Qed.

(** * Fields the invariant does not speak of *)

Lemma signal_inv n d f es tables logged : db_inv d f es tables logged -> db_inv (set_flushCh n d) f es tables logged.
Proof. intros []. split; try done. destruct di_segments0 as (segs & cur & []). by exists segs, cur. Qed.

Lemma set_closed_inv b d f es tables logged : db_inv d f es tables logged -> db_inv (set_closed b d) f es tables logged.
Proof. intros []. split; try done. destruct di_segments0 as (segs & cur & []). by exists segs, cur. Qed.

Lemma commit_nothing d wd : pendingBatch d = [] -> DbWrite.flushPendingBatch d wd = (Ok (d, None), wd).
Proof. intros E. unfold DbWrite.flushPendingBatch, DbWrite.batch_take, takePendingBatchLocked. by rewrite E. Qed.

(** * One write into an empty batch *)

(** At most one memtable is left to flush after a commit. *)
Definition one_to_flush (d : DB) : Prop :=
  pendingFlush d = [] \/ exists e, pendingFlush d = [e] /\ Mem.Size (active d) <= 0.
Definition closable (d : DB) : Prop := pendingFlush d = [] \/ pendingBatch d = [] /\ one_to_flush d.

Lemma write_quiet rec d f es tables logged : db_inv d f es tables logged -> closed d = false -> bgErrs d = ∅ ->
  pendingFlush d = [] -> pendingBatch d = [] -> Wal.admissible (limits_of d) rec ->
  exists d' f' logged', DbWrite.writeRecord rec d (mkWorld f []) = (Ok (d', None), mkWorld f' []) /\
    db_inv d' f' es tables logged' /\ logged' ++ pendingBatch d' = logged ++ [rec] /\
    Forall (Wal.admissible (limits_of d')) (pendingBatch d') /\ closable d' /\ closed d' = false /\
    cfg d' = cfg d /\ nextSSTID d' = nextSSTID d /\ compactCh d' = compactCh d.
Proof.
  intros Hinv Hcl Hbg Hq Hb Ha. unfold DbWrite.writeRecord.
  assert (E : writeBlockingBackgroundErr d = None) by (unfold writeBlockingBackgroundErr; rewrite Hbg; by destruct (blockWritesOnFlushError (cfg d))).
  rewrite E, Hcl. pose proof (enqueue_inv rec _ _ _ _ _ Hinv) as Hinv1.
  pose proof (enqueue_batch rec d) as Hb1. rewrite Hb in Hb1. cbn [app] in Hb1.
  assert (Ha1 : Forall (Wal.admissible (limits_of (DbWrite.enqueue rec d))) (pendingBatch (DbWrite.enqueue rec d)))
    by (rewrite Hb1; by apply Forall_singleton).
  destruct (DbWrite.flush_now (DbWrite.enqueue rec d)); cbn [negb].
  - destruct (commit_inv _ _ _ _ _ Hinv1 Ha1) as (d' & f' & Hrun & Hinv' & Hb' & _ & Hcfg & Hc' & Hn & Hcc & Hq').
    rewrite Hb1 in Hinv'. exists d', f', (logged ++ [rec]). split; [exact Hrun|]. split; [done|].
    rewrite Hb', app_nil_r. split; [done|]. split; [constructor|]. split; [|by rewrite Hc'].
    right. split; [done|]. change (pendingFlush (DbWrite.enqueue rec d)) with (pendingFlush d) in Hq'. rewrite Hq in Hq'.
    destruct Hq' as [Hq'|(e & Hq' & Hs)]; [by left|]. right. exists e. split; [done|lia].
  - exists (DbWrite.enqueue rec d), f, logged. split; [done|]. split; [done|]. rewrite Hb1. split; [done|].
    rewrite <- Hb1. split; [done|]. by split; [left|].
Qed.

(** * Closing the readers removes nothing *)

Lemma close_parked r f : parked r -> exists r' e, SstReader.Close r (mkWorld f []) = (Ok (r', e), mkWorld f []) /\ parked r'.
Proof.
  intros Hp. unfold SstReader.Close. set (r0 := SstReader.set_pending r true (SstReader.r_discardPending r)).
  assert (Hp0 : parked r0) by exact Hp. destruct (Z.eqb_spec (SstReader.r_refs r0) 0) as [Hz|Hz]; [|by eexists _, _].
  unfold SstReader.closeFile. destruct (_ || _) eqn:Ec; [by eexists _, _|].
  apply orb_false_iff in Ec as [E1 E2%negb_false_iff].
  assert (E3 : SstReader.r_discardPending r0 = false) by (destruct Hp0 as [?|[?|[?|?]]]; congruence).
  rewrite (bind_try_ok _ _ _ _ _ (fs_close_quiet _ _)), E3. eexists _, _. split; [done|]. by left.
Qed.

Lemma close_all_quiet ps f : forall d, parked_all (heap d) ->
  exists h, close_all ps d (mkWorld f []) = (Ok (set_heap h d), mkWorld f []).
Proof.
  induction ps as [|p ps IH]; intros d Hd; cbn [close_all]; [exists (heap d); by destruct d|].
  unfold close_reader, on_reader. destruct (heap d !! p) as [r|] eqn:Ep.
  - destruct (close_parked r f (Hd _ _ Ep)) as (r' & e & Hr & Hp'). set (d1 := set_heap (<[p := r']> (heap d)) d).
    destruct (IH d1 (parked_insert _ _ _ Hd Hp')) as (h & Hrun). exists h.
    rewrite (io_bind_ok _ _ _ (d1, e) (mkWorld f [])); [exact Hrun|]. by rewrite (io_bind_ok _ _ _ _ _ Hr).
  - apply (IH d Hd).
Qed.

Lemma close_handles_quiet d f es tables logged : db_inv d f es tables logged ->
  exists d', close_handles d (mkWorld f []) = (Ok d', mkWorld f []) /\
    closed d' = closed d /\ wal d' = None /\ manifest d' = None /\ sstables d' = [] /\ allReaders d' = [].
Proof.
  intros Hinv. unfold close_handles, discardAllReaders.
  set (d0 := set_sstablesSnap [] (set_sstables [] d)).
  destruct (close_all_quiet (allReaders d0) f d0 (di_readers _ _ _ _ _ Hinv)) as (h & Hrun).
  rewrite (io_bind_ok _ _ _ (set_allReaders [] (set_heap h d0)) (mkWorld f [])) by (by rewrite (io_bind_ok _ _ _ _ _ Hrun)).
  cbn [wal manifest set_allReaders set_heap set_wal d0 set_sstablesSnap set_sstables].
  rewrite (di_wal _ _ _ _ _ Hinv). destruct (di_manifest _ _ _ _ _ Hinv) as (l & Hm & _ & Hf & _). rewrite Hm.
  rewrite (io_bind_ok _ _ _ tt (mkWorld f [])).
  - rewrite (io_bind_ok _ _ _ tt (mkWorld f [])).
    + eexists. by split.
    + unfold ignore, Manifest.Close. rewrite Hf. by rewrite (bind_try_ok _ _ _ _ _ (fs_close_quiet _ _)).
  - rewrite (io_bind_ok _ _ _ tt (mkWorld f [])); [done|].
    unfold ignore, Wal.Sync, Wal.on_file, fs_sync. cbn [Wal.wal_file Wal.wal_path the_wal]. rewrite prim_quiet.
    rewrite (di_log _ _ _ _ _ Hinv). do 2 f_equal. apply (alter_id (M := gmap string)).
    intros fl Hfl. rewrite (di_log _ _ _ _ _ Hinv) in Hfl. by injection Hfl as <-.
Qed.

(** * The loop *)

Section close.
Context `{BloomSizing}.

(** What the handle and the directory have to offer for one more table. *)
Definition roomy (d : DB) (tables : list (Z * list (list entry))) (logged : list entry) : Prop :=
  zlen logged < 2 ^ 26 /\ weight logged < 2 ^ 40 /\ 0 <= nextSSTID d < 2 ^ 64 - 1 /\ zlen tables < 2 ^ 28 - 1.

(** What the log said is in the tables, of which one may be new. *)
Definition absorbed (d : DB) (tables : list (Z * list (list entry))) (logged : list entry)
    (tables' : list (Z * list (list entry))) : Prop :=
  disk_layer tables'.*2 = log_layer logged ∪ disk_layer tables.*2 /\
  (tables' = tables \/ exists groups, tables' = tables ++ [(nextSSTID d + 1, groups)]).

(** Nothing in memory, nothing to do for the compactor. *)
Definition idle (d0 d : DB) : Prop :=
  pendingFlush d = [] /\ pendingBatch d = pendingBatch d0 /\ closed d = true /\ cfg d = cfg d0 /\
  Mem.Size (active d) <= 0 /\ compactCh d = compactCh d0.

Lemma idle_log d0 d f es tables logged : db_inv d f es tables logged -> idle d0 d -> logged = [].
Proof.
  intros Hinv (Hq & _ & _ & _ & Hs & _). destruct (di_segments _ _ _ _ _ Hinv) as (segs & cur & [-> HF _ Ha]).
  rewrite Hq in HF. apply Forall2_nil_inv_l in HF as ->. destruct (di_mem _ _ _ _ _ Hinv) as [Hwf _].
  by apply (empty_segment (active d)).
Qed.

Lemma drain_empty n d wd : pendingFlush d = [] -> exists b, drainPendingFlush n d wd = (Ok (d, b), wd).
Proof.
  intros Hq. destruct n as [|n]; [by eexists|]. cbn [drainPendingFlush].
  rewrite (io_bind_ok _ _ _ (d, false) wd) by (unfold drain_round; by rewrite Hq). by eexists.
Qed.

Lemma drain_one n d f es tables logged e : db_inv d f es tables logged -> pendingFlush d = [e] ->
  roomy d tables logged -> Mem.Size (active d) <= 0 -> closed d = true ->
  exists d' f' es' tables', waitForPendingFlushDrain (S n) d (mkWorld f []) = (Ok (d', None), mkWorld f' []) /\
    db_inv d' f' es' tables' [] /\ idle d d' /\ absorbed d tables logged tables'.
Proof.
  intros Hinv Hq (Hn & Hw & Hid & Hc) Hs Hcl.
  destruct (single_segment d f es tables logged e Hinv Hq) as (seg & cur & Hlog & Hwf & Hseg & _ & _).
  assert (Hfl : flushable (mem e)).
  { destruct (segment_bounds (mem e) seg Hwf Hseg). rewrite Hlog, zlen_app in Hn. rewrite Hlog, weight_app in Hw.
    pose proof (zlen_nonneg cur). pose proof (weight_nonneg cur). split; lia. }
  destruct (flush_runs d f es tables logged e Hinv Hq Hfl Hid Hc)
    as (l & d' & f' & es' & groups & bs & seg' & cur' & _ & Hlog' & _ & Hseg' & Hcat & _ & [Hrun _] & Hinv' & Hq' & Hb &
        Hcl' & Hcfg & Hact & _ & Hcc & _).
  assert (Hidle : idle d d').
  { split; [done|]. split; [done|]. split; [congruence|]. split; [done|]. rewrite Hact. split; [done|by apply Hcc]. }
  assert (Hcur : cur' = []) by (by eapply idle_log). subst cur'. rewrite app_nil_r in Hlog'. subst seg'.
  exists d', f', es', (tables ++ [(nextSSTID d + 1, groups)]). split.
  { unfold waitForPendingFlushDrain. destruct (drain_empty n d' (mkWorld f' []) Hq') as [b Hn'].
    rewrite (io_bind_ok _ _ _ (d', b) (mkWorld f' [])).
    - unfold hasPendingFlush. by rewrite Hq'.
    - cbn [drainPendingFlush]. by rewrite (io_bind_ok _ _ _ _ _ Hrun). }
  split; [done|]. split; [done|]. split; [|right; by eexists].
  pose proof (flushed_layer d tables (nextSSTID d + 1) groups logged [] (mem e) Hcat Hseg') as E.
  rewrite app_nil_r in E. rewrite <- E. change (log_layer []) with (∅ : layer).
  by rewrite (map_empty_union (M := gmap bytes)).
Qed.

Lemma freeze_rest_quiet d f es tables logged : db_inv d f es tables logged -> pendingFlush d = [] ->
  0 < Mem.Size (active d) ->
  exists d' e, freeze_rest d (mkWorld f []) = (Ok (d', None), mkWorld f []) /\ db_inv d' f es tables logged /\
    pendingFlush d' = [e] /\ Mem.Size (active d') <= 0 /\ closed d' = closed d /\ nextSSTID d' = nextSSTID d /\
    pendingBatch d' = pendingBatch d /\ cfg d' = cfg d /\ compactCh d' = compactCh d.
Proof.
  intros Hinv Hq Hs. unfold freeze_rest. destruct (Z.ltb_spec 0 (Mem.Size (active d))); [|lia].
  pose proof (di_log _ _ _ _ _ Hinv) as Hlog.
  rewrite (bind_try_ok _ _ _ _ _ (Size_quiet d f (Wal.wires logged) _ (di_wal _ _ _ _ _ Hinv) eq_refl
    ltac:(unfold bytes_at; cbn; by rewrite Hlog))).
  destruct (di_segments _ _ _ _ _ Hinv) as (segs & cur & Hseg).
  destruct (DbWrite.freeze_layer (zlen (Wal.wires logged)) d) as [_ Hwf].
  exists (freeze (zlen (Wal.wires logged)) d), (mkQueueEntry (active d) (zlen (Wal.wires logged)) 0).
  split; [done|]. split.
  { apply (db_inv_log d f es tables logged); try done; [apply Hwf, Hinv|apply Hinv|].
    exists (segs ++ [cur]), []. by apply segmented_freeze. }
  split; [unfold freeze; cbn; by rewrite Hq|]. by split.
Qed.

Lemma close_loop_idle k fuel d0 d f : idle d0 d ->
  close_loop (S k) fuel d (mkWorld f []) = (Ok (d, None), mkWorld f []).
Proof.
  intros (Hq & _ & _ & _ & Hs & _). cbn [close_loop]. unfold hasPendingFlush. rewrite Hq. cbn [negb andb].
  by destruct (Z.leb_spec (Mem.Size (active d)) 0); [|lia].
Qed.

(** The second half of a round, for a handle [d1] that differs from [d] in memory only. *)
Lemma drain_then_idle rounds fuel d d1 f es tables logged e : db_inv d1 f es tables logged ->
  pendingFlush d1 = [e] -> Mem.Size (active d1) <= 0 -> closed d1 = true -> roomy d tables logged ->
  nextSSTID d1 = nextSSTID d -> pendingBatch d1 = pendingBatch d -> cfg d1 = cfg d -> compactCh d1 = compactCh d ->
  exists d' f' es' tables',
    (let! (d2, err) := waitForPendingFlushDrain (S fuel) (notifyFlushForce d1) in
     match err with Some e => io_ret (d2, Some e) | None => close_loop (S rounds) (S fuel) d2 end) (mkWorld f []) =
      (Ok (d', None), mkWorld f' []) /\
    db_inv d' f' es' tables' [] /\ idle d d' /\ absorbed d tables logged tables'.
Proof.
  intros Hi Hq Hs Hc Hroom Hn Hb Hg Hcc. set (n := offer (flushCh d1)).
  change (notifyFlushForce d1) with (set_flushCh n d1).
  destruct (drain_one fuel (set_flushCh n d1) f es tables logged e (signal_inv n _ _ _ _ _ Hi) Hq) as
    (d2 & f2 & es2 & tables2 & Hrun & Hi2 & (A1 & A2 & A3 & A4 & A5 & A6) & Hab); try done.
  { unfold roomy in *. change (nextSSTID (set_flushCh n d1)) with (nextSSTID d1). by rewrite Hn. }
  assert (Hid : idle d d2).
  { cbn in A2, A4, A6. split; [done|]. split; [congruence|]. split; [done|]. split; [congruence|]. split; [done|congruence]. }
  exists d2, f2, es2, tables2. rewrite (io_bind_ok _ _ _ _ _ Hrun), (close_loop_idle _ _ d _ _ Hid).
  split; [done|]. split; [done|]. split; [done|].
  unfold absorbed in *. change (nextSSTID (set_flushCh n d1)) with (nextSSTID d1) in Hab. by rewrite Hn in Hab.
Qed.

Lemma close_loop_quiet rounds fuel d f es tables logged : db_inv d f es tables logged -> one_to_flush d ->
  closed d = true -> roomy d tables logged ->
  exists d' f' es' tables', close_loop (S (S rounds)) (S fuel) d (mkWorld f []) = (Ok (d', None), mkWorld f' []) /\
    db_inv d' f' es' tables' [] /\ idle d d' /\ absorbed d tables logged tables'.
Proof.
  intros Hinv [Hq|(e & Hq & Hs)] Hcl Hroom.
  - destruct (decide (0 < Mem.Size (active d))) as [Hs|Hs].
    + destruct (freeze_rest_quiet d f es tables logged Hinv Hq Hs) as (d1 & e & Hf & Hi & Hq1 & Hs1 & A1 & A2 & A3 & A4 & A5).
      destruct (drain_then_idle rounds fuel d d1 f es tables logged e) as (d' & f' & es' & tables' & Hrun & Hr);
        try done; [congruence|].
      exists d', f', es', tables'. split; [|done]. remember (S rounds) as k. cbn [close_loop].
      unfold hasPendingFlush at 1. rewrite Hq. cbn [negb andb].
      destruct (Z.leb_spec (Mem.Size (active d)) 0); [lia|]. rewrite (io_bind_ok _ _ _ _ _ Hf). exact Hrun.
    + assert (Hid : idle d d) by (split; [done|]; split; [done|]; split; [done|]; split; [done|]; split; [lia|done]).
      pose proof (idle_log _ _ _ _ _ _ Hinv Hid) as ->. exists d, f, es, tables. split; [by apply (close_loop_idle _ _ d)|].
      split; [done|]. split; [done|]. split; [|by left]. change (log_layer []) with (∅ : layer).
      by rewrite (map_empty_union (M := gmap bytes)).
  - destruct (drain_then_idle rounds fuel d d f es tables logged e) as (d' & f' & es' & tables' & Hrun & Hr); try done.
    exists d', f', es', tables'. split; [|done]. remember (S rounds) as k. cbn [close_loop].
    unfold hasPendingFlush at 1. rewrite Hq. cbn [negb andb].
    rewrite (io_bind_ok _ _ _ (d, None) (mkWorld f [])); [exact Hrun|]. unfold freeze_rest.
    by destruct (Z.ltb_spec 0 (Mem.Size (active d))); [lia|].
Qed.

(** * The whole of [Close] *)

Lemma shutdown_idle fuel d0 d f : idle d0 d -> compactCh d0 = 0%nat ->
  exists n, shutdownBackgroundWorkers fuel d (mkWorld f []) = (Ok (set_flushCh n d, None), mkWorld f []).
Proof.
  intros (Hq & _ & _ & _ & _ & Hc) H0. rewrite H0 in Hc. unfold shutdownBackgroundWorkers.
  destruct (flushCh d) as [|k] eqn:Ef.
  - exists 0%nat. rewrite (io_bind_ok _ _ _ (d, None) (mkWorld f [])) by done. rewrite Hc.
    rewrite (io_bind_ok _ _ _ d (mkWorld f [])) by done. rewrite <- Ef. by destruct d.
  - exists 0%nat. destruct (drain_empty fuel (set_flushCh 0 d) (mkWorld f []) Hq) as [b Hd].
    rewrite (io_bind_ok _ _ _ (set_flushCh 0 d, None) (mkWorld f [])).
    + change (compactCh (set_flushCh 0 d)) with (compactCh d). rewrite Hc.
      by rewrite (io_bind_ok _ _ _ (set_flushCh 0 d) (mkWorld f [])).
    + rewrite (io_bind_ok _ _ _ _ _ Hd). unfold hasPendingFlush.
      change (pendingFlush (set_flushCh 0 d)) with (pendingFlush d). by rewrite Hq.
Qed.

(** The handle [d'] is gone, the directory [f'] is what the invariant of some handle
    [dm] with an empty log says. *)
Lemma close_database_quiet fuel d f es tables logged : db_inv d f es tables logged -> closed d = false -> closable d ->
  Forall (Wal.admissible (limits_of d)) (pendingBatch d) -> roomy d tables (logged ++ pendingBatch d) ->
  compactCh d = 0%nat ->
  exists d' dm f' es' tables', Close (S (S fuel)) d (mkWorld f []) = (Ok (d', None), mkWorld f' []) /\
    closed d' = true /\ wal d' = None /\ manifest d' = None /\ sstables d' = [] /\ allReaders d' = [] /\
    db_inv dm f' es' tables' [] /\ cfg dm = cfg d /\ absorbed d tables (logged ++ pendingBatch d) tables'.
Proof.
  intros Hinv Hcl Hq Ha Hroom Hcc. unfold Close. rewrite Hcl.
  destruct (commit_inv (set_closed true d) f es tables logged (set_closed_inv true _ _ _ _ _ Hinv) Ha)
    as (d1 & f1 & Hrun1 & Hinv1 & Hb1 & _ & Hg1 & Hc1 & Hn1 & Hcc1 & Hq1).
  change (pendingBatch (set_closed true d)) with (pendingBatch d) in Hinv1.
  rewrite (io_bind_ok _ _ _ _ _ Hrun1), (io_bind_ok _ _ _ _ _ (commit_nothing d1 (mkWorld f1 []) Hb1)).
  cbn in Hn1, Hcc1, Hq1, Hg1, Hc1.
  destruct (close_loop_quiet fuel (S fuel) d1 f1 es tables (logged ++ pendingBatch d) Hinv1)
    as (d2 & f2 & es2 & tables2 & Hrun2 & Hinv2 & Hid2 & Hab); [|done|unfold roomy in *; by rewrite Hn1|].
  { destruct Hq as [Hq|[Hb Hq]].
    - rewrite Hq in Hq1. destruct Hq1 as [Hq1|(e & Hq1 & Hs)]; [by left|]. right. exists e. split; [done|lia].
    - rewrite (commit_nothing (set_closed true d) _ Hb) in Hrun1. injection Hrun1 as <- <-. exact Hq. }
  rewrite (io_bind_ok _ _ _ _ _ Hrun2).
  destruct (shutdown_idle (S (S fuel)) d1 d2 f2 Hid2) as [n Hsd]; [congruence|].
  rewrite (io_bind_ok _ _ _ _ _ Hsd).
  destruct (close_handles_quiet (set_flushCh n d2) f2 es2 tables2 [] (signal_inv n _ _ _ _ _ Hinv2)) as (d3 & Hh & B1 & B2).
  rewrite (io_bind_ok _ _ _ _ _ Hh). exists d3, d2, f2, es2, tables2. split; [done|].
  destruct Hid2 as (_ & _ & A3 & A4 & _ & _). split; [by rewrite B1|]. destruct B2 as (B2 & B3 & B4 & B5).
  do 4 (split; [done|]). split; [done|]. split; [congruence|]. unfold absorbed in *. by rewrite Hn1 in Hab.
Qed.

End close.

End DbCloseSpec.
