(* ===== verification/DbCrash.v ===== *)
(** What a crash of the background work leaves: a directory from which [Open] rebuilds
    the contents the handle had, whatever a loss of power then does to the files. *)

From Stdlib Require Import ZArith Lia.
From S2P Require Import Prelude Word Fs GoStr Memtable Wal Manifest Bloom SstFormat SstWriter SstReader.
From S2P Require Import MergeIter SstMerge SstTable DbState DbFlush DbWrite DbRead DbCompact DbOpen DbRecover.
From S2P Require Import DbInv DbScan DbFlushSpec DbCompactSpec.

Module DbCrash.
Import Db DbFlush DbCompact DbOpen DbRead DbRecover DbInv SstTable DbFlushSpec DbCompactSpec.

(** * Directories from which [Open] recovers *)

(** After any loss of power the directory says something of [P], for [recovers] just [L]. *)
Definition recovers_to (limits : Wal.ReplayLimits) (P : layer -> Prop) (f : fsys) : Prop := forall f', power_loss f f' ->
  exists name es tables pre recs, on_disk limits f' name es tables pre recs /\
    P (log_layer recs ∪ disk_layer tables.*2).

Definition recovers (limits : Wal.ReplayLimits) (L : layer) : fsys -> Prop := recovers_to limits (fun x => x = L).

Lemma recovers_opens opts coins limits P f f' : recovers_to limits P f -> power_loss f f' ->
  Dir opts <> ""%string -> walLimits (config_of opts) = limits ->
  exists d2 f2 (tables : list (Z * list (list entry))), Open opts None coins (mkWorld f' []) = (Ok d2, mkWorld f2 []) /\
    readable d2 f2 tables.*2 /\ P (contents d2 tables.*2) /\ closed d2 = false /\ pendingBatch d2 = [].
Proof.
  intros Hr Hpl Hdir Hlim. destruct (Hr f' Hpl) as (name & es & tables & pre & recs & Hod & HL). rewrite <- Hlim in Hod.
  destruct (Open_opened opts coins f' name es tables pre recs Hdir Hod) as (d2 & f2 & Ho & Hop).
  destruct (opened_contents _ _ _ _ _ _ _ _ _ Hop) as [H1 H2]. exists d2, f2, tables.
  split; [done|]. split; [done|]. split; [by rewrite H1|]. split; apply Hop.
Qed.

(** The checkpoint file and the offset it makes [Open] replay from. *)
Inductive checkpointed (f : fsys) (live : gset Z) (size : Z) : Z -> Prop :=
| No_checkpoint : f !! walFlushStateName = None -> checkpointed f live size 0
| Checkpoint_used cutoff id : let buf := encode_flush_state (mkFlushState cutoff id) in
    f !! walFlushStateName = Some (File buf buf) -> is_u64 id -> id ∈ live -> 0 <= cutoff < 2 ^ 63 ->
    cutoff <= size -> checkpointed f live size cutoff
| Checkpoint_stale cutoff id : let buf := encode_flush_state (mkFlushState cutoff id) in
    f !! walFlushStateName = Some (File buf buf) -> is_u64 id -> 0 <= cutoff < 2 ^ 63 ->
    size < cutoff -> checkpointed f live size 0.

Lemma checkpoint_decode cutoff id : is_u64 id -> 0 <= cutoff < 2 ^ 63 ->
  let buf := encode_flush_state (mkFlushState cutoff id) in
  zlen buf = 16 /\ int64 (get_u64 buf) = cutoff /\ get_u64 (drop 8 buf) = id.
Proof.
  intros Hid Hc. unfold encode_flush_state. cbn [FreezeOffset SSTID].
  assert (Hu : is_u64 (u64 cutoff)) by (apply Z.mod_pos_bound; lia).
  rewrite zlen_app, !zlen_put_u64. split; [done|]. rewrite get_put_u64 by done. split; [apply int64_u64; lia|].
  rewrite (drop_app_length' _ _ 8) by (by rewrite length_put_u64).
  rewrite <- (app_nil_r (put_u64 id)). by apply get_put_u64.
Qed.

Lemma checkpointed_start f f' live c start : power_loss f f' -> f !! walName = Some (File c c) ->
  checkpointed f live (zlen c) start ->
  start_of f' live = start /\ forall data, bytes_at f' walFlushStateName = Some data -> 16 <= zlen data.
Proof.
  intros Hpl Hw Hck. unfold start_of. rewrite (Manifest.power_loss_same _ _ _ _ Hpl Hw).
  destruct Hck as [H|cutoff id buf H Hid Hin Hc Hle|cutoff id buf H Hid Hc Hlt].
  - apply (power_loss_none _ _ _ Hpl) in H. unfold bytes_at at 1 2. by rewrite H.
  - destruct (checkpoint_decode cutoff id Hid Hc) as (Hz & H1 & H2). fold buf in Hz, H1, H2.
    rewrite (Manifest.power_loss_same _ _ _ _ Hpl H), H1, H2, bool_decide_true by done.
    destruct (Z.leb_spec 0 cutoff), (Z.leb_spec cutoff (zlen c)); try lia. split; [done|]. intros data [= <-]. lia.
  - destruct (checkpoint_decode cutoff id Hid Hc) as (Hz & H1 & H2). fold buf in Hz, H1, H2.
    rewrite (Manifest.power_loss_same _ _ _ _ Hpl H), H1, H2.
    destruct (Z.leb_spec cutoff (zlen c)); [lia|]. rewrite andb_false_r. split; [done|]. intros data [= <-]. lia.
Qed.

(** The parts of a directory that survive a loss of power give [on_disk]. *)
Lemma on_disk_at limits f f' name es tables tail pre recs : power_loss f f' -> is_manifest name ->
  Forall Manifest.edit_ok es -> Manifest.torn tail -> Manifest.stored f' name es tail ->
  Manifest.sort_ids (elements (Manifest.live_of es)) = tables.*1 -> Forall (sst_durable f) tables ->
  (Manifest.live_of es = ∅ -> forall p, is_Some (f !! p) -> GoStr.sstFilePattern p = None) ->
  f !! walName = Some (File (Wal.wires (pre ++ recs)) (Wal.wires (pre ++ recs))) ->
  zlen (Wal.wires (pre ++ recs)) <= Wal.MaxFileSize (Wal.WithDefaults limits) ->
  Forall (Wal.admissible (Wal.WithDefaults limits)) recs ->
  checkpointed f (Manifest.live_of es) (zlen (Wal.wires (pre ++ recs))) (zlen (Wal.wires pre)) ->
  on_disk limits f' name es tables pre recs.
Proof.
  intros Hpl Hn He Ht Hst Hids Hfs Hlive Hw Hsize Hadm Hck.
  destruct (checkpointed_start _ _ _ _ _ Hpl Hw Hck) as [Hstart Hlen].
  split; try done.
  - by exists tail.
  - eapply Forall_impl; [exact Hfs|]. intros t (Hu & bs & Hb & Hi). split; [done|]. exists bs. split; [|done].
    by apply (Manifest.power_loss_same f).
  - intros E p Hp. apply (Hlive E p). by eapply power_loss_dom.
  - rewrite (Manifest.power_loss_same _ _ _ _ Hpl Hw). exists []. split; [by rewrite Wal.wires_app, app_nil_r|].
    split; [by left|done].
Qed.

(** A handle at rest. *)
Lemma inv_power_loss d f es tables logged f' : db_inv d f es tables logged ->
  zlen (Wal.wires logged) <= Wal.MaxFileSize (limits_of d) -> power_loss f f' ->
  exists name, on_disk (walLimits (cfg d)) f' name es tables [] logged.
Proof.
  intros Hinv Hsize Hpl. destruct (di_manifest _ _ _ _ _ Hinv) as (l & _ & Hname & _ & _ & Hg1 & Hg2).
  exists (Manifest.path l).
  eapply on_disk_at; try done; try apply Hinv; [apply Manifest.torn_nil| |by constructor; apply Hinv].
  split; [|rewrite app_nil_r]; by apply (Manifest.power_loss_same f).
Qed.

Lemma inv_recovers d f es tables logged : db_inv d f es tables logged ->
  zlen (Wal.wires logged) <= Wal.MaxFileSize (limits_of d) ->
  recovers (walLimits (cfg d)) (log_layer logged ∪ disk_layer tables.*2) f.
Proof.
  intros Hinv Hsize f' Hpl. destruct (inv_power_loss _ _ _ _ _ _ Hinv Hsize Hpl) as [name Hod].
  by exists name, es, tables, [], logged.
Qed.

(** * A closed database *)

(** A directory that no process uses and whose log is empty. *)
Record at_rest (limits : Wal.ReplayLimits) (f : fsys) (tables : list (Z * list (list entry))) : Prop := {
  ar_settled : settled f;
  ar_checkpoint : f !! walFlushStateName = None;
  ar_disk : exists name es, on_disk limits f name es tables [] []
}.

Lemma closed_at_rest d f es tables f' : db_inv d f es tables [] -> power_loss f f' ->
  at_rest (walLimits (cfg d)) f' tables.
Proof.
  intros Hinv Hpl. split; [by eapply settled_power_loss|by apply (power_loss_none f), Hinv|].
  destruct (inv_power_loss _ _ _ _ _ f' Hinv) as [name Hod]; [|done|by exists name, es].
  unfold limits_of, Wal.WithDefaults. cbn [Wal.MaxFileSize]. change (zlen (Wal.wires [])) with 0.
  destruct (Z.leb_spec (Wal.MaxFileSize (walLimits (cfg d))) 0); [done|lia].
Qed.

Lemma at_rest_opens opts coins f tables : at_rest (walLimits (config_of opts)) f tables -> Dir opts <> ""%string ->
  exists d f' es, Open opts None coins (mkWorld f []) = (Ok d, mkWorld f' []) /\ db_inv d f' es tables [] /\
    closed d = false /\ pendingBatch d = [] /\ pendingFlush d = [] /\ bgErrs d = ∅ /\ cfg d = config_of opts /\
    (zlen tables < compactThreshold (config_of opts) -> compactCh d = 0%nat) /\
    (nextSSTID d = 0 \/ nextSSTID d ∈ tables.*1) /\ contents d tables.*2 = disk_layer tables.*2.
Proof.
  intros [Hset Hck (name & es & Hod)] Hdir.
  destruct (Open_opened opts coins f name es tables [] [] Hdir Hod) as (d & f' & Ho & Hop).
  pose proof (opened_inv _ _ _ _ _ _ _ _ Hset Hck Hod Hop) as Hinv.
  destruct (opened_contents _ _ _ _ _ _ _ _ _ Hop) as [Hc _]. exists d, f', es.
  split; [done|]. split; [done|]. pose proof (op_cfg _ _ _ _ _ _ _ _ _ Hop) as Hcfg.
  split; [apply Hop|]. split; [apply Hop|]. split; [apply Hop|]. split; [apply Hop|]. split; [done|].
  split; [rewrite <- Hcfg; apply Hop|]. split; [apply Hop|]. rewrite Hc. change (log_layer []) with (∅ : layer).
  by rewrite (map_empty_union (M := gmap bytes)).
Qed.

(** * A flush *)

Section flush.
Context `{BloomSizing}.
Context (d : DB) (f : fsys) (es : list Manifest.edit) (tables : list (Z * list (list entry))).
Context (seg cur : list entry) (l : Manifest.Log) (cutoff : Z) (bs : bytes) (groups : list (list entry)) (mt : Mem.SkipList).
Local Abbreviation logged := (seg ++ cur).
Local Abbreviation id := (nextSSTID d + 1).
Local Abbreviation limits := (walLimits (cfg d)).
Context (Hinv : db_inv d f es tables logged) (Hl : manifest d = Some l).
Context (Hid : 0 <= nextSSTID d < 2 ^ 64 - 1) (Hcount : zlen tables < 2 ^ 28 - 1).
Context (Himg : sst_image groups bs) (Hcat : concat groups = Mem.Snapshot mt) (Hseg : Mem.contents mt = log_layer seg).
Context (Hcut : cutoff = zlen (Wal.wires seg)) (Hlive : Manifest.live_of es <> ∅).
Context (Hsize : zlen (Wal.wires logged) <= Wal.MaxFileSize (limits_of d)).
Context (Hhalf : zlen (Wal.wires cur) < cutoff) (Hmax : zlen (Wal.wires logged) < 2 ^ 63).

Local Abbreviation L := (log_layer logged ∪ disk_layer tables.*2).

(** What the flushed records say twice, they say once. *)
Lemma twice : log_layer logged ∪ disk_layer (tables ++ [(id, groups)]).*2 = L.
Proof.
  rewrite log_layer_app, <- (map_union_assoc (M := gmap bytes)).
  rewrite fmap_app, fmap_cons, fmap_nil. cbn [snd]. rewrite disk_layer_snoc, Hcat.
  change (layer_of (Mem.Snapshot mt)) with (Mem.contents mt). rewrite Hseg.
  by rewrite !(map_union_assoc (M := gmap bytes)), <- (map_union_assoc (M := gmap bytes) (log_layer cur)),
    (map_union_idemp (M := gmap bytes)).
Qed.

Lemma new_tables (f1 : fsys) : (forall q, ~ flush_side id (Manifest.path l) q -> f1 !! q = f !! q) ->
  f1 !! GoStr.sstFilePath id = Some (File bs bs) -> Forall (sst_durable f1) (tables ++ [(id, groups)]).
Proof.
  intros Hside Hsst. apply Forall_app. split.
  - apply (sst_durable_same f); [by eapply flush_keeps_tables|apply Hinv].
  - apply Forall_singleton. split; [unfold is_u64; cbn; lia|]. by exists bs.
Qed.

Local Abbreviation m1 := (Manifest.mkLog (Manifest.path l) true ({[id]} ∪ Manifest.liveSet l) (Manifest.recordCount l + 1)).

(** The old manifest and the whole log. *)
Lemma old_recovers (f1 f' : fsys) tail : (forall q, ~ flush_side id (Manifest.path l) q -> f1 !! q = f !! q) ->
  power_loss f1 f' -> Manifest.torn tail -> Manifest.stored f' (Manifest.path l) es tail ->
  f1 !! walName = Some (File (Wal.wires logged) (Wal.wires logged)) -> f1 !! walFlushStateName = None ->
  on_disk limits f' (Manifest.path l) es tables [] logged.
Proof.
  intros Hside Hpl Ht Hst Hw Hck.
  destruct (di_manifest _ _ _ _ _ Hinv) as (l0 & Hl0 & Hname & _). rewrite Hl in Hl0. injection Hl0 as <-.
  eapply on_disk_at; try done; try apply Hinv.
  - apply (sst_durable_same f); [by eapply flush_keeps_tables|apply Hinv].
  - by constructor.
Qed.

(** The committed manifest and a log that together with the tables says the same. *)
Lemma new_recovers (f1 f' : fsys) name es' tail pre recs :
  (forall q, ~ flush_side id (Manifest.path l) q -> f1 !! q = f !! q) ->
  f1 !! GoStr.sstFilePath id = Some (File bs bs) -> power_loss f1 f' ->
  Manifest.compacted_to m1 (es ++ [Manifest.NewFile id]) name es' ->
  Manifest.torn tail -> Manifest.stored f' name es' tail ->
  f1 !! walName = Some (File (Wal.wires (pre ++ recs)) (Wal.wires (pre ++ recs))) ->
  (pre = [] /\ recs = logged) \/ (pre = seg /\ recs = cur) \/ (pre = [] /\ recs = cur) ->
  checkpointed f1 ({[id]} ∪ Manifest.live_of es) (zlen (Wal.wires (pre ++ recs))) (zlen (Wal.wires pre)) ->
  exists name es tables pre recs, on_disk limits f' name es tables pre recs /\
    log_layer recs ∪ disk_layer tables.*2 = L.
Proof.
  intros Hside Hsst Hpl Hcase Ht Hst Hw Hcases Hck.
  destruct (committed_manifest _ _ _ _ _ _ _ _ Hinv Hl Hid Hcount Hcase) as (Hn & Hok & Hlive' & Hids).
  pose proof (di_admissible _ _ _ _ _ Hinv) as Ha. pose proof Ha as Hb. apply Forall_app in Hb as [_ Hb].
  assert (Hle : zlen (Wal.wires cur) <= zlen (Wal.wires logged)).
  { rewrite Wal.wires_app, zlen_app. pose proof (zlen_nonneg (Wal.wires seg)). lia. }
  exists name, es', (tables ++ [(id, groups)]), pre, recs. split.
  - eapply on_disk_at; try done.
    + by rewrite Hids, fmap_app.
    + by apply new_tables.
    + rewrite Hlive'. intros E. exfalso. set_solver.
    + unfold limits_of in Hsize. destruct Hcases as [[-> ->]|[[-> ->]|[-> ->]]]; cbn [app]; lia || done.
    + unfold limits_of in *. by destruct Hcases as [[-> ->]|[[-> ->]|[-> ->]]].
    + by rewrite Hlive'.
  - destruct Hcases as [[-> ->]|[[-> ->]|[-> ->]]]; [apply twice|by eapply flushed_layer..].
Qed.

(** Wherever the flush is interrupted. *)
Lemma flushing_recovers f1 : flushing f l es (Wal.wires logged) cutoff id bs f1 -> recovers limits L f1.
Proof.
  intros [Hside Hstate] f' Hpl.
  assert (Hu : is_u64 id) by (unfold is_u64; lia).
  assert (Hc63 : 0 <= cutoff < 2 ^ 63).
  { rewrite Hcut. rewrite Wal.wires_app, zlen_app in Hmax. pose proof (zlen_nonneg (Wal.wires cur)).
    pose proof (zlen_nonneg (Wal.wires seg)). lia. }
  assert (Hold : forall tail, Manifest.torn tail -> Manifest.stored f' (Manifest.path l) es tail ->
    f1 !! walName = Some (File (Wal.wires logged) (Wal.wires logged)) -> f1 !! walFlushStateName = None ->
    exists name es tables pre recs, on_disk limits f' name es tables pre recs /\
      log_layer recs ∪ disk_layer tables.*2 = L).
  { intros tail Ht Hst Hw Hck. eexists _, _, _, _, _. split; [by eapply old_recovers|done]. }
  destruct Hstate as [(Hman & Hw & Hck)|(Hsst & (name & es' & Hcase & Hg) & Hwal & Hck)].
  - destruct Hman as [[Hg1 Hg2]|[Happ Hsst]].
    + apply (Hold [] Manifest.torn_nil); [|done..].
      split; [|rewrite app_nil_r]; by apply (Manifest.power_loss_same f1).
    + destruct (Manifest.appending_stored l es (Manifest.NewFile id) f1 f' Hu Happ Hpl)
        as (es' & tail & Ht & Hst & [->| ->] & _); [by apply (Hold tail)|].
      eapply (new_recovers f1 f' _ _ _ [] logged); try done; [by left|by left|by constructor].
  - assert (Hst : Manifest.stored f' name es' []).
    { destruct Hg as [Hg1 Hg2]. split; [|rewrite app_nil_r]; by apply (Manifest.power_loss_same f1). }
    rewrite Hcut, drop_wires in Hwal. destruct Hwal as [Hw|Hw], Hck as [Hck|Hck].
    + eapply (new_recovers f1 f' _ _ _ [] logged); try done; [apply Manifest.torn_nil|by left|by constructor].
    + eapply (new_recovers f1 f' _ _ _ seg cur); try done; [apply Manifest.torn_nil|by right; left|].
      rewrite <- Hcut. eapply Checkpoint_used; try done; [set_solver|].
      rewrite Hcut, Wal.wires_app, zlen_app. pose proof (zlen_nonneg (Wal.wires cur)). lia.
    + eapply (new_recovers f1 f' _ _ _ [] cur); try done; [apply Manifest.torn_nil|by right; right|by constructor].
    + eapply (new_recovers f1 f' _ _ _ [] cur); try done; [apply Manifest.torn_nil|by right; right|].
      by eapply Checkpoint_stale.
Qed.

End flush.

Lemma live_tables d f es tables logged : db_inv d f es tables logged -> tables <> [] -> Manifest.live_of es <> ∅.
Proof.
  intros Hinv Hne E. pose proof (di_ids _ _ _ _ _ Hinv) as Hids. rewrite E, elements_empty in Hids.
  by destruct tables.
Qed.

(** A flush that the process does not survive, or that a loss of power follows, loses
    nothing and invents nothing, provided that less than half of the log lies behind
    the cutoff of the memtable. *)
Lemma drain_recovers `{BloomSizing} d f es tables logged e fl : db_inv d f es tables logged -> pendingFlush d = [e] ->
  flushable (mem e) -> 0 <= nextSSTID d < 2 ^ 64 - 1 -> zlen tables < 2 ^ 28 - 1 -> tables <> [] ->
  zlen (Wal.wires logged) <= Wal.MaxFileSize (limits_of d) -> zlen (Wal.wires logged) < 2 ^ 63 ->
  zlen (Wal.wires logged) < 2 * walCutoff e -> no_fail fl ->
  recovers (walLimits (cfg d)) (log_layer logged ∪ disk_layer tables.*2) (fs (snd (drain_round d (mkWorld f fl)))).
Proof.
  intros Hinv Hq Hfl Hid Hcount Hne Hsize Hmax Hhalf Hnf. pose proof (live_tables _ _ _ _ _ Hinv Hne) as Hlive.
  destruct (flush_runs d f es tables logged e Hinv Hq Hfl Hid Hcount)
    as (l & d' & f' & es' & groups & bs & seg & cur & Hl & -> & Hcut & Hseg & Hcat & Himg & Hrun & Hinv' & _ & _ & _ & Hcfg & _).
  assert (Hsum : zlen (Wal.wires (seg ++ cur)) = zlen (Wal.wires seg) + zlen (Wal.wires cur))
    by (by rewrite Wal.wires_app, zlen_app).
  eapply runs_end; [eapply runs_weaken; [exact Hrun|]|done|].
  - intros f1 Hf1. eapply (flushing_recovers d f es tables seg cur l (walCutoff e) bs groups (mem e)); try done. lia.
  - rewrite <- (flushed_layer d tables (nextSSTID d + 1) groups seg cur (mem e) Hcat Hseg), <- Hcfg.
    apply (inv_recovers _ _ _ _ _ Hinv').
    unfold limits_of. rewrite Hcfg. fold (limits_of d). pose proof (zlen_nonneg (Wal.wires seg)). lia.
Qed.

(** * A compaction *)

Section compaction.
Context `{BloomSizing}.
Context (d : DB) (f : fsys) (es : list Manifest.edit) (t1 t2 : Z * list (list entry)) (rest : list (Z * list (list entry))).
Context (logged : list entry) (Hinv : db_inv d f es (t1 :: t2 :: rest) logged).
Context (Hid : 0 <= nextSSTID d < 10 ^ 8 - 1) (Hcount : zlen rest < 2 ^ 28 - 1).
Context (Hsize : zlen (Wal.wires logged) <= Wal.MaxFileSize (limits_of d)).
Context (groups : list (list entry)) (bs : bytes) (Himg : sst_image groups bs) (l : Manifest.Log) (Hm : manifest d = Some l).
Local Abbreviation id := (nextSSTID d + 1).
Local Abbreviation ids := (rest.*1 ++ [id]).
Local Abbreviation says tables := (log_layer logged ∪ disk_layer (tables : list (Z * list (list entry))).*2).
Local Abbreviation old_or_new := (fun x => x = says (t1 :: t2 :: rest) \/ x = says (rest ++ [(id, groups)])).
Local Abbreviation m1 := (Manifest.mkLog (Manifest.path l) true (list_to_set ids) (Manifest.recordCount l + 1)).

(** Files that a compaction leaves alone. *)
Definition compact_frame (g : fsys) : Prop := forall q,
  q <> GoStr.sstFilePath id -> q <> SstWriter.tmp_of (GoStr.sstFilePath id) ->
  ~ Manifest.compact_side (Manifest.path l) q -> q <> GoStr.sstFilePath t1.1 -> q <> GoStr.sstFilePath t2.1 ->
  g !! q = f !! q.

Section state.
Context (f1 f' : fsys) (Hframe : compact_frame f1) (Hpl : power_loss f1 f').

Lemma compact_keeps_log : f1 !! walName = Some (File (Wal.wires logged) (Wal.wires logged)) /\
  f1 !! walFlushStateName = None.
Proof.
  destruct (manifest_named _ _ _ _ _ _ _ Hinv l Hm) as [Hn _].
  split; (rewrite Hframe; [apply Hinv| | | | |]; try done); (apply wal_compact_side; [done|]); [by left|by right; right; left].
Qed.

Lemma compact_keeps_rest : Forall (sst_durable f1) rest.
Proof.
  destruct (manifest_named _ _ _ _ _ _ _ Hinv l Hm) as [Hn _].
  apply (sst_durable_same f).
  - intros t Ht. destruct (staying_apart _ _ _ _ _ _ _ Hinv Hid Hcount groups t) as [D1 D2]; [apply elem_of_app; by left|].
    apply Hframe; try done; [|apply last_char_sst|].
    + apply (old_apart _ _ _ _ _ _ _ Hinv Hid). by apply rest_in.
    + intros Hs. apply (sst_apart (Manifest.path l) t.1 Hn). by left.
  - pose proof (di_files _ _ _ _ _ Hinv) as Hfs. by do 2 apply Forall_cons in Hfs as [_ Hfs].
Qed.

(** The manifest of the old tables. *)
Lemma unreplaced_recovers tail : Manifest.torn tail -> Manifest.stored f' (Manifest.path l) es tail ->
  f1 !! GoStr.sstFilePath t1.1 = f !! GoStr.sstFilePath t1.1 -> f1 !! GoStr.sstFilePath t2.1 = f !! GoStr.sstFilePath t2.1 ->
  on_disk (walLimits (cfg d)) f' (Manifest.path l) es (t1 :: t2 :: rest) [] logged.
Proof.
  intros Ht Hst H1 H2. destruct (manifest_named _ _ _ _ _ _ _ Hinv l Hm) as [Hn _]. destruct compact_keeps_log as [Hw Hck].
  eapply on_disk_at; try done; try apply Hinv.
  - pose proof (di_files _ _ _ _ _ Hinv) as Hfs. rewrite !Forall_cons in Hfs. destruct Hfs as (F1 & F2 & _).
    constructor; [|constructor; [|apply compact_keeps_rest]].
    + apply (Forall_singleton (sst_durable f1)), (sst_durable_same f); [|by apply Forall_singleton].
      by intros t ->%list_elem_of_singleton.
    + apply (Forall_singleton (sst_durable f1)), (sst_durable_same f); [|by apply Forall_singleton].
      by intros t ->%list_elem_of_singleton.
  - intros E. by destruct (live_tables _ _ _ _ _ Hinv).
  - by constructor.
Qed.

(** The manifest of the new ones. *)
Lemma replaced_recovers name es' tail : Manifest.compacted_to m1 (es ++ [Manifest.SetFileSet ids]) name es' ->
  Manifest.torn tail -> Manifest.stored f' name es' tail -> f1 !! GoStr.sstFilePath id = Some (File bs bs) ->
  on_disk (walLimits (cfg d)) f' name es' (rest ++ [(id, groups)]) [] logged.
Proof.
  intros Hcase Ht Hst Hsst. destruct compact_keeps_log as [Hw Hck].
  destruct (set_manifest_ok _ _ _ _ _ _ _ Hinv Hid Hcount l name es' Hm Hcase) as (Hn & Hok & Hlive & Hids).
  eapply on_disk_at; try done; try apply Hinv.
  - by rewrite Hids, fmap_app.
  - apply Forall_app. split; [apply compact_keeps_rest|]. apply Forall_singleton.
    split; [cbn; unfold is_u64; lia|]. by exists bs.
  - rewrite Hlive. intros E. by apply snoc_set_nonempty in E.
  - by constructor.
Qed.

End state.

(** Wherever the compaction is interrupted, all of it or nothing of it is seen. *)
Lemma compacting_recovers f1 : compacting f l es t1.1 t2.1 ids id bs f1 -> recovers_to (walLimits (cfg d)) old_or_new f1.
Proof.
  intros [Hframe Hstate] f' Hpl.
  destruct Hstate as [(H1 & H2 & Hman)|(Hsst & name & es' & Hcase & [Hg1 Hg2])].
  - assert (Hold : forall tail, Manifest.torn tail -> Manifest.stored f' (Manifest.path l) es tail ->
      exists name es tables pre recs, on_disk (walLimits (cfg d)) f' name es tables pre recs /\
        old_or_new (log_layer recs ∪ disk_layer tables.*2)).
    { intros tail Ht Hst. eexists _, _, _, _, _. split; [by eapply (unreplaced_recovers f1 f')|by left]. }
    destruct Hman as [[Hg1 Hg2]|[Happ Hsst]].
    + apply (Hold [] Manifest.torn_nil). split; [|rewrite app_nil_r]; by apply (Manifest.power_loss_same f1).
    + destruct (Manifest.appending_stored l es (Manifest.SetFileSet ids) f1 f'
        (set_edit_ok _ _ _ _ _ _ _ Hinv Hid Hcount) Happ Hpl) as (es' & tail & Ht & Hst & [->| ->] & _); [by apply (Hold tail)|].
      eexists _, _, _, _, _. split; [by eapply (replaced_recovers f1 f'); [..|by left|done|done|done]|by right].
  - assert (Hst : Manifest.stored f' name es' []).
    { split; [|rewrite app_nil_r]; by apply (Manifest.power_loss_same f1). }
    eexists _, _, _, _, _. split; [by eapply (replaced_recovers f1 f'); [..|apply Manifest.torn_nil| |]|by right].
Qed.

End compaction.

Lemma compaction_recovers `{BloomSizing} d f es t1 t2 rest logged fl : db_inv d f es (t1 :: t2 :: rest) logged ->
  compactThreshold (cfg d) <= zlen (sstables d) -> 0 <= nextSSTID d < 10 ^ 8 - 1 ->
  zlen rest < 2 ^ 28 - 1 -> mergeable t1.2 t2.2 -> zlen (Wal.wires logged) <= Wal.MaxFileSize (limits_of d) -> no_fail fl ->
  exists groups, concat groups = merged_entries t1.2 t2.2 /\
    recovers_to (walLimits (cfg d)) (fun x => x = log_layer logged ∪ disk_layer (t1 :: t2 :: rest).*2 \/
        x = log_layer logged ∪ disk_layer (rest ++ [(nextSSTID d + 1, groups)]).*2)
      (fs (snd (doCompaction d (mkWorld f fl)))).
Proof.
  intros Hinv Hth Hid Hcount Hmg Hsize Hnf. destruct (compact_runs d f es t1 t2 rest logged Hinv Hth Hid Hcount Hmg)
    as (l & d' & f' & es' & groups & bs & Hm & Hcat & Himg & Hrun & Hinv' & _ & _ & Hcfg). exists groups. split; [done|].
  eapply runs_end; [eapply runs_weaken; [exact Hrun|]|done|].
  - intros f1 Hf1. by eapply compacting_recovers.
  - rewrite <- Hcfg. intros f'' Hpl.
    destruct (inv_recovers _ _ _ _ _ Hinv') with f'' as (n & e & t & pre & recs & Hod & E); try done.
    + unfold limits_of. by rewrite Hcfg.
    + exists n, e, t, pre, recs. split; [done|by right].
Qed.

End DbCrash.
