(* ===== verification/DbGroupCommit.v ===== *)
(** Group commit with its goroutines (internal/db: batch.go, write.go, sync.go, close.go).

    [DbWrite] runs one call after the other.  Here any number of callers of [Put],
    [Delete] and [Sync] are in the middle of their calls, beside the timer, the goroutine
    [batchFlusher] and a call of [Close]; [exec] is one atomic action of one of them, a
    critical section of [db.mu] or one channel operation, and a run is any sequence of them.
    What [AppendBatch] and the freezing of the memtable answer is chosen by the label; the
    conditions of [writeRecord] on sizes are the flag [flushNow] of the call. *)

From Stdlib Require Import ZArith Lia.
From S2P Require Import Prelude.

Module DbGroupCommit.

(** * State *)

(** Why [flushPendingBatch] is called: the timer, a caller, [batchStop], and [Close] itself. *)
Inductive job := ForTimer | ForCaller (c : nat) | ForStop | ForClose.

(** The goroutine [batchFlusher], and after its end [Close], where they stand: between two
    jobs, before [flushPendingBatch], with a batch taken but not counted by the barrier,
    inside the barrier, with a result, ended, and [Close] past its own flush. *)
Inductive worker_state :=
  | Idle | Starting (j : job) | Taken (j : job) (batch : list entry) | Writing (j : job) (batch : list entry) | Ending (j : job) (ok : bool)
  | Exited | Finished.

(** A call: a write with its record and whether it flushes, or [Sync] with the number of
    records that were accepted when it was called. *)
Inductive kind := Writer (rec : entry) (flushNow : bool) | Syncer (since : nat).

(** Before the lock, before the send to [batchSyncCh], before the reply, before the barrier,
    before the second lock of [Sync], returned with nil or not.  [need] is the number of
    records that were accepted when the call last passed the lock. *)
Inductive caller :=
  | Entering (k : kind) (need : nat) | Sending (k : kind) (need : nat) | Queued (k : kind) (need : nat)
  | Checking (k : kind) (need : nat) | Looking (k : kind) (need : nat) | Returned (k : kind) (need : nat) (ok : bool).

(** [accepted] are all the records that were ever queued and [log] those of the batches
    [AppendBatch] returned nil for, both in their order; [armed] is the timer, [token] the
    buffer of [batchFlushCh], [failed] the background error of the log. *)
Record commit := mkCommit {
  pendingBatch : list entry; accepted : list entry; log : list entry; armed : bool; token : bool; batchSyncCh : list nat;
  worker : worker_state; callers : gmap nat caller; closed : bool; stopping : bool; failed : bool
}.

Definition opened : commit := mkCommit [] [] [] false false [] Idle ∅ false false false.

Definition syncCapacity : nat := 8.

Definition set_worker (w : worker_state) (s : commit) : commit :=
  mkCommit (pendingBatch s) (accepted s) (log s) (armed s) (token s) (batchSyncCh s) w (callers s) (closed s) (stopping s) (failed s).
Definition set_caller (c : nat) (x : caller) (s : commit) : commit :=
  mkCommit (pendingBatch s) (accepted s) (log s) (armed s) (token s) (batchSyncCh s) (worker s) (<[c := x]> (callers s)) (closed s) (stopping s) (failed s).
Definition set_pending (p : list entry) (s : commit) : commit :=
  mkCommit p (accepted s) (log s) (armed s) (token s) (batchSyncCh s) (worker s) (callers s) (closed s) (stopping s) (failed s).
Definition set_log (l : list entry) (s : commit) : commit :=
  mkCommit (pendingBatch s) (accepted s) l (armed s) (token s) (batchSyncCh s) (worker s) (callers s) (closed s) (stopping s) (failed s).
Definition set_timer (a t : bool) (s : commit) : commit :=
  mkCommit (pendingBatch s) (accepted s) (log s) a t (batchSyncCh s) (worker s) (callers s) (closed s) (stopping s) (failed s).
Definition set_syncCh (q : list nat) (s : commit) : commit :=
  mkCommit (pendingBatch s) (accepted s) (log s) (armed s) (token s) q (worker s) (callers s) (closed s) (stopping s) (failed s).
Definition set_failed (s : commit) : commit :=
  mkCommit (pendingBatch s) (accepted s) (log s) (armed s) (token s) (batchSyncCh s) (worker s) (callers s) (closed s) (stopping s) true.

(** * Actions *)

(** The timer is made, or set again. *)
Definition scheduleBatchFlushLocked (s : commit) : commit := set_timer true (token s) s.

(** Its function: a send that does not wait. *)
Definition timer_fires (s : commit) : commit := set_timer false true s.

(** The lock of [writeRecord]: the record is queued and the timer set. *)
Definition enqueue (rec : entry) (s : commit) : commit :=
  scheduleBatchFlushLocked
    (mkCommit (pendingBatch s ++ [rec]) (accepted s ++ [rec]) (log s) (armed s) (token s) (batchSyncCh s) (worker s) (callers s) (closed s) (stopping s)
       (failed s)).

(** [Close] up to its first unlock. *)
Definition begin_close (s : commit) : commit :=
  mkCommit (pendingBatch s) (accepted s) (log s) false (token s) (batchSyncCh s) (worker s) (callers s) true (stopping s) (failed s).
(** [close(db.batchStop)] *)
Definition signal_stop (s : commit) : commit :=
  mkCommit (pendingBatch s) (accepted s) (log s) (armed s) (token s) (batchSyncCh s) (worker s) (callers s) (closed s) true (failed s).

(** What [AppendBatch] and [maybeFlushLocked] return: both nil, an error of the first, an
    error of the second. *)
Inductive outcome := Persisted | AppendFails | FreezeFails.

Inductive label :=
  | CallWrite (c : nat) (rec : entry) (flushNow : bool) | CallSync (c : nat) | CallClose
  | Enter (c : nat) | Send (c : nat) | Barrier (c : nat) | Look (c : nat)
  | Fire | TakeStop | TakeSync | TakeToken | Grab | Begin | Append (o : outcome) | Finish
  | SignalStop | CloserFlush.

Definition call (c : nat) (k : kind) (s : commit) : option commit :=
  match callers s !! c with
  | Some _ => None
  | None => Some (set_caller c (if failed s then Returned k 0 false else Entering k 0) s)
  end.

(** The lock of the call: [ErrClosed], or the record is queued, or the first lock of a turn of [Sync]. *)
Definition enter (c : nat) (k : kind) (need : nat) (s : commit) : commit :=
  if closed s then set_caller c (Returned k need false) s
  else match k with
       | Writer rec flushNow =>
           let s := enqueue rec s in
           let need := length (accepted s) in
           set_caller c (if flushNow then Sending k need else Returned k need true) s
       | Syncer _ => set_caller c (Sending k (length (accepted s))) s
       end.

(** The reply of the flusher: a write returns, [Sync] goes on to the barrier. *)
Definition reply (c : nat) (ok : bool) (s : commit) : option commit :=
  match callers s !! c with
  | Some (Queued k need) =>
      Some (set_caller c (match ok, k with true, Syncer _ => Checking k need | _, _ => Returned k need ok end) s)
  | _ => None
  end.

Definition finish (j : job) (ok : bool) (s : commit) : option commit :=
  match j with
  | ForTimer => Some (set_worker Idle s)
  | ForCaller c => reply c ok (set_worker Idle s)
  | ForStop => Some (set_worker Exited s)
  | ForClose => Some (set_worker Finished s)
  end.

Definition append (o : outcome) (j : job) (batch : list entry) (s : commit) : commit :=
  match o with
  | Persisted => set_worker (Ending j true) (set_log (log s ++ batch) s)
  | FreezeFails => set_worker (Ending j false) (set_log (log s ++ batch) s)
  | AppendFails => set_worker (Ending j false) (set_failed (set_pending (batch ++ pendingBatch s) s))
  end.

Definition exec (l : label) (s : commit) : option commit :=
  match l with
  | CallWrite c rec now => call c (Writer rec now) s
  | CallSync c => call c (Syncer (length (accepted s))) s
  | CallClose => if closed s then Some s else Some (begin_close s)
  | Enter c => match callers s !! c with Some (Entering k need) => Some (enter c k need s) | _ => None end
  | Send c =>
      match callers s !! c with
      | Some (Sending k need) =>
          if (length (batchSyncCh s) <? syncCapacity)%nat then Some (set_caller c (Queued k need) (set_syncCh (batchSyncCh s ++ [c]) s)) else None
      | _ => None
      end
  | Barrier c =>
      match callers s !! c, worker s with
      | Some (Checking k need), Writing _ _ => None
      | Some (Checking k need), _ => Some (set_caller c (Looking k need) s)
      | _, _ => None
      end
  | Look c =>
      match callers s !! c with
      | Some (Looking k need) =>
          Some (set_caller c (match pendingBatch s with [] => Returned k need true | _ => Entering k (length (accepted s)) end) s)
      | _ => None
      end
  | Fire => if armed s then Some (timer_fires s) else None
  | TakeStop => match worker s with Idle => if stopping s then Some (set_worker (Starting ForStop) s) else None | _ => None end
  | TakeSync =>
      match worker s, batchSyncCh s with
      | Idle, c :: q => Some (set_worker (Starting (ForCaller c)) (set_syncCh q s))
      | _, _ => None
      end
  | TakeToken => match worker s with Idle => if token s then Some (set_worker (Starting ForTimer) (set_timer (armed s) false s)) else None | _ => None end
  | Grab =>
      match worker s with
      | Starting j =>
          match pendingBatch s with
          | [] => Some (set_worker (Ending j true) s)
          | batch => Some (set_worker (Taken j batch) (set_pending [] s))
          end
      | _ => None
      end
  | Begin => match worker s with Taken j batch => Some (set_worker (Writing j batch) s) | _ => None end
  | Append o => match worker s with Writing j batch => Some (append o j batch s) | _ => None end
  | Finish => match worker s with Ending j ok => finish j ok s | _ => None end
  | SignalStop => if closed s && negb (stopping s) then Some (signal_stop s) else None
  | CloserFlush => match worker s with Exited => Some (set_worker (Starting ForClose) s) | _ => None end
  end.

Fixpoint run (ls : list label) (s : commit) : option commit :=
  match ls with
  | [] => Some s
  | l :: ls' => match exec l s with Some s' => run ls' s' | None => None end
  end.

Definition internal (l : label) : bool := match l with CallWrite _ _ _ | CallSync _ | CallClose => false | _ => true end.

Definition resting (s : commit) : Prop := forall l, internal l = true -> exec l s = None.

Inductive reachable : commit -> Prop :=
  | reach_opened : reachable opened
  | reach_step l s s' : reachable s -> exec l s = Some s' -> reachable s'.

(** The write that is left behind. *)
Definition stranded (rec : entry) : commit :=
  mkCommit [] [rec] [rec] false false [1%nat] Finished {[1%nat := Queued (Writer rec true) 1]} true true false.

(** A write is inside its call when [Close] stops the flusher, and its request comes after
    the flusher has ended: [Close] returns, the record is in the log, and the write waits
    for ever. *)
Theorem close_strands_writer rec :
  run [CallWrite 1 rec true; Enter 1; CallClose; SignalStop; TakeStop; Grab; Begin; Append Persisted; Finish; Send 1;
       CloserFlush; Grab; Finish] opened = Some (stranded rec) /\ resting (stranded rec).
Proof.
  split; [vm_compute; reflexivity|]. intros l Hl. destruct l as [| | |c|c|c|c| | | | | | | | | |]; try done; cbn [exec stranded callers].
  all: destruct (decide (c = 1%nat)) as [-> | Hne]; [by rewrite lookup_singleton_eq | by rewrite lookup_singleton_ne].
Qed.

(** * The invariant *)

Definition inflight (w : worker_state) : list entry := match w with Taken _ b | Writing _ b => b | _ => [] end.

Definition job_of (w : worker_state) : option job :=
  match w with Starting j | Taken j _ | Writing j _ | Ending j _ => Some j | _ => None end.
Definition serving (w : worker_state) : option nat := match job_of w with Some (ForCaller c) => Some c | _ => None end.

(** A call behind its lock knows what it is waiting for. *)
Definition kind_ok (acc : list entry) (k : kind) (need : nat) : Prop :=
  match k with
  | Writer rec _ => exists n, need = S n /\ acc !! n = Some rec
  | Syncer since => (since <= need <= length acc)%nat
  end.

Definition is_sync (k : kind) : Prop := exists since, k = Syncer since.

(** What holds of a call when [acc] was accepted and [n] records are in the log. *)
Definition caller_ok (acc : list entry) (n : nat) (x : caller) : Prop :=
  match x with
  | Entering (Writer _ _) need => need = 0%nat
  | Entering (Syncer since) need => (since <= length acc /\ need <= length acc)%nat
  | Sending k need | Queued k need => kind_ok acc k need
  | Checking k need | Looking k need => is_sync k /\ kind_ok acc k need /\ (need <= n)%nat
  | Returned k need true => kind_ok acc k need /\ match k with Writer _ false => True | _ => (need <= n)%nat end
  | Returned _ _ false => True
  end.

Definition queued (s : commit) (c : nat) : Prop := exists k need, callers s !! c = Some (Queued k need).

(** The batch in the hands of the worker reaches what the call it serves needs. *)
Definition served_ok (s : commit) (need : nat) : Prop :=
  match worker s with
  | Taken _ b | Writing _ b => (need <= length (log s) + length b)%nat
  | Ending _ true => (need <= length (log s))%nat
  | _ => True
  end.

Definition is_starting (w : worker_state) : Prop := exists j, w = Starting j.
Definition on_stop (w : worker_state) : Prop :=
  match w with Exited | Finished => True | _ => match job_of w with Some ForStop | Some ForClose => True | _ => False end end.
Definition past_grab (w : worker_state) : Prop :=
  match w with Taken ForClose _ | Writing ForClose _ | Ending ForClose _ | Finished => True | _ => False end.

Record wf (s : commit) : Prop := {
  wf_split : accepted s = log s ++ inflight (worker s) ++ pendingBatch s;
  wf_callers : forall c x, callers s !! c = Some x -> caller_ok (accepted s) (length (log s)) x;
  wf_NoDup : NoDup (batchSyncCh s);
  wf_queue : forall c, queued s c <-> c ∈ batchSyncCh s \/ serving (worker s) = Some c;
  wf_serving : forall c, serving (worker s) = Some c -> c ∉ batchSyncCh s;
  wf_served : forall c k need, serving (worker s) = Some c -> callers s !! c = Some (Queued k need) -> served_ok s need;
  wf_wake : pendingBatch s = [] \/ closed s = true \/ failed s = true \/ armed s = true \/ token s = true \/ is_starting (worker s);
  wf_stop : (on_stop (worker s) -> stopping s = true) /\ (stopping s = true -> closed s = true);
  wf_closed : past_grab (worker s) -> pendingBatch s = [] \/ failed s = true
}.

Lemma kind_ok_mono acc acc' k need : acc `prefix_of` acc' -> kind_ok acc k need -> kind_ok acc' k need.
Proof.
  intros Hp. destruct k as [rec b|since]; cbn.
  - intros (n & -> & Hn). exists n. split; [done|]. by eapply prefix_lookup_Some.
  - apply prefix_length in Hp. lia.
Qed.

Lemma caller_ok_mono acc acc' n n' x : acc `prefix_of` acc' -> (n <= n')%nat -> caller_ok acc n x -> caller_ok acc' n' x.
Proof.
  intros Hp Hn. pose proof (prefix_length _ _ Hp) as Hl.
  pose proof (fun k need => kind_ok_mono acc acc' k need Hp) as Hk.
  destruct x as [[]| | | | |[? []|] ? []]; cbn -[kind_ok]; intuition (auto; lia).
Qed.

Lemma kind_ok_le acc k need : kind_ok acc k need -> (need <= length acc)%nat.
Proof. destruct k; cbn; [|lia]. intros (n & -> & Hn). apply lookup_lt_Some in Hn. lia. Qed.

Lemma wf_opened : wf opened.
Proof.
  constructor; cbn; try done; try (by left); try naive_solver.
  - intros c. unfold queued. cbn. split; [intros (k & n & Hc); by rewrite lookup_empty in Hc | intros [Hc|Hc]; [by apply elem_of_nil in Hc | done]].
Qed.

(** ** Steps of the callers *)

Lemma queued_set c x s c' : queued (set_caller c x s) c' <-> (if decide (c = c') then exists k need, x = Queued k need else queued s c').
Proof.
  unfold queued. cbn. case_decide; [subst; rewrite lookup_insert_eq; naive_solver | by rewrite lookup_insert_ne].
Qed.

(** A call moves between states in which it waits for nobody. *)
Lemma wf_move c x s : wf s -> ~ queued s c -> (forall k need, x <> Queued k need) -> caller_ok (accepted s) (length (log s)) x ->
  wf (set_caller c x s).
Proof.
  intros [Hsp Hca Hnd Hqu Hse Hsd Hwk Hst Hcl] Hq Hx Hok. constructor; try done.
  - intros c' x'. cbn. rewrite lookup_insert_Some. intros [[<- <-] | [_ Hl]]; [done | by apply (Hca c')].
  - intros c'. rewrite queued_set. cbn. rewrite <- Hqu. case_decide; [subst c'; naive_solver | done].
  - intros c' k need Hs. cbn. rewrite lookup_insert_Some. intros [[_ E] | [_ Hl]]; [by apply Hx in E | by eapply (Hsd c')].
Qed.

Lemma wf_enqueue rec s : wf s -> closed s = false -> wf (enqueue rec s).
Proof.
  intros [Hsp Hca Hnd Hqu Hse Hsd Hwk [Hs1 Hs2] Hcl] Hc.
  assert (Hno : ~ past_grab (worker s)).
  { intros Hp. assert (Hon : on_stop (worker s)) by (destruct (worker s) as [|?|[] ?|[] ?|[] ?| |]; done).
    by rewrite (Hs2 (Hs1 Hon)) in Hc. }
  constructor; cbn; try done.
  - by rewrite Hsp, !app_assoc.
  - intros c x Hl. eapply caller_ok_mono; [by apply prefix_app_r | done | by apply (Hca c)].
  - tauto.
Qed.

Lemma not_queued s c x : callers s !! c = Some x -> (forall k need, x <> Queued k need) -> ~ queued s c.
Proof. intros Hc Hx (k & need & Hq). rewrite Hc in Hq. simplify_eq. by eapply Hx. Qed.

Lemma wf_enter c k need s : wf s -> callers s !! c = Some (Entering k need) -> wf (enter c k need s).
Proof.
  intros Hwf Hc. pose proof (wf_callers s Hwf _ _ Hc) as Hok.
  assert (Hq : ~ queued s c) by by eapply not_queued. unfold enter. destruct (closed s) eqn:Ecl; [by apply wf_move|].
  destruct k as [rec now|since].
  - assert (Hk : kind_ok (accepted (enqueue rec s)) (Writer rec now) (length (accepted (enqueue rec s)))).
    { exists (length (accepted s)). cbn. rewrite length_app. cbn. split; [lia|]. by apply list_lookup_middle. }
    apply wf_move; [by apply wf_enqueue | done | by destruct now | destruct now; [exact Hk | by split]].
  - apply wf_move; try done. cbn in *. lia.
Qed.

Lemma wf_Send c k need s : wf s -> callers s !! c = Some (Sending k need) ->
  wf (set_caller c (Queued k need) (set_syncCh (batchSyncCh s ++ [c]) s)).
Proof.
  intros Hwf Hc. assert (Hq : ~ queued s c) by by eapply not_queued.
  pose proof (wf_callers s Hwf _ _ Hc) as Hok. destruct Hwf as [Hsp Hca Hnd Hqu Hse Hsd Hwk Hst Hcl].
  rewrite Hqu in Hq. constructor; try done.
  - intros c' x'. cbn. rewrite lookup_insert_Some. intros [[<- <-] | [_ Hl]]; [done | by apply (Hca c')].
  - cbn. apply NoDup_app. split; [done|]. split; [|apply NoDup_singleton]. intros v Hv ->%list_elem_of_singleton. tauto.
  - intros c'. rewrite queued_set. cbn. rewrite elem_of_app, list_elem_of_singleton. case_decide; [subst; naive_solver|].
    change (queued (set_syncCh _ s) c') with (queued s c'). rewrite Hqu. split; [tauto|]. intros [[?|?]|?]; [tauto | congruence | tauto].
  - intros c' Hs. cbn in *. rewrite elem_of_app, list_elem_of_singleton. intros [Hv | ->]; [by eapply Hse | tauto].
  - intros c' k' need' Hs. cbn in *. rewrite lookup_insert_Some. intros [[-> E] | [_ Hl]]; [tauto | by eapply (Hsd c')].
Qed.

Lemma wf_Look c k need s : wf s -> callers s !! c = Some (Looking k need) ->
  wf (set_caller c (match pendingBatch s with [] => Returned k need true | _ => Entering k (length (accepted s)) end) s).
Proof.
  intros Hwf Hc. destruct (wf_callers s Hwf _ _ Hc) as ([since ->] & Hk & Hn).
  apply wf_move; [done | by eapply not_queued | by destruct (pendingBatch s) |].
  destruct (pendingBatch s); cbn in *; [done|]. lia.
Qed.

(** ** Steps of the worker *)

(** A new place of the worker; calls, queue and records stay where they are. *)
Lemma wf_worker w s : wf s -> inflight w = inflight (worker s) -> serving w = serving (worker s) ->
  (forall need, served_ok s need -> served_ok (set_worker w s) need) ->
  (is_starting (worker s) -> is_starting w) -> (on_stop w -> stopping s = true) -> (past_grab w -> pendingBatch s = [] \/ failed s = true) ->
  wf (set_worker w s).
Proof.
  intros [Hsp Hca Hnd Hqu Hse Hsd Hwk [Hs1 Hs2] Hcl] Hi Hsv Hok Hst Hos Hpg. constructor; cbn; try done.
  - by rewrite Hi.
  - intros c. rewrite Hsv. apply Hqu.
  - intros c. rewrite Hsv. apply Hse.
  - intros c k need. rewrite Hsv. intros H1 H2. by eapply Hok, Hsd.
  - intuition.
Qed.

Lemma wf_Begin j b s : wf s -> worker s = Taken j b -> wf (set_worker (Writing j b) s).
Proof.
  intros Hwf Hw. pose proof (wf_stop s Hwf) as [Hs1 _]. pose proof (wf_closed s Hwf) as Hcl.
  apply wf_worker; rewrite ?Hw; cbn; try done.
  - unfold served_ok. cbn. by rewrite Hw.
  - intros [j' ?]. done.
  - rewrite Hw in Hs1. exact Hs1.
  - rewrite Hw in Hcl. exact Hcl.
Qed.

Lemma wf_TakeStop s : wf s -> worker s = Idle -> stopping s = true -> wf (set_worker (Starting ForStop) s).
Proof. intros Hwf Hw Hs. apply wf_worker; rewrite ?Hw; cbn; try done. by intros [? ?]. Qed.

Lemma wf_CloserFlush s : wf s -> worker s = Exited -> wf (set_worker (Starting ForClose) s).
Proof.
  intros Hwf Hw. pose proof (wf_stop s Hwf) as [Hs1 _]. rewrite Hw in Hs1.
  apply wf_worker; rewrite ?Hw; cbn; try done. by intros [? ?].
Qed.

Lemma wf_set_timer a t s : wf s -> (armed s || token s = true -> a || t = true) -> wf (set_timer a t s).
Proof.
  intros [Hsp Hca Hnd Hqu Hse Hsd Hwk Hst Hcl] Hat. constructor; cbn; try done.
  destruct Hwk as [?|[?|[?|[E|[E|?]]]]]; [tauto..| | |tauto]; rewrite E, ?orb_true_r in Hat; apply orb_prop in Hat; tauto.
Qed.

Lemma wf_TakeToken s : wf s -> worker s = Idle -> wf (set_worker (Starting ForTimer) (set_timer (armed s) false s)).
Proof.
  intros [Hsp Hca Hnd Hqu Hse Hsd Hwk [Hs1 Hs2] Hcl] Hw. rewrite Hw in *. constructor; cbn in *; try done.
  do 5 right. by eexists.
Qed.

Lemma wf_TakeSync c q s : wf s -> worker s = Idle -> batchSyncCh s = c :: q -> wf (set_worker (Starting (ForCaller c)) (set_syncCh q s)).
Proof.
  intros [Hsp Hca Hnd Hqu Hse Hsd Hwk [Hs1 Hs2] Hcl] Hw Hq. rewrite Hw, Hq in *. apply NoDup_cons in Hnd as [Hn Hnd].
  constructor; cbn in *; try done.
  - intros c'. specialize (Hqu c'). rewrite elem_of_cons in Hqu. unfold queued in *. cbn in *. rewrite Hqu. naive_solver.
  - intros c' E. by simplify_eq.
  - do 5 right. by eexists.
Qed.

Lemma wf_Grab_empty j s : wf s -> worker s = Starting j -> pendingBatch s = [] -> wf (set_worker (Ending j true) s).
Proof.
  intros [Hsp Hca Hnd Hqu Hse Hsd Hwk [Hs1 Hs2] Hcl] Hw Hp. rewrite Hw, Hp in *. constructor; cbn in *; rewrite ?Hp; try done.
  - intros c k need Hs Hc. pose proof (Hca _ _ Hc) as Hk. apply kind_ok_le in Hk. unfold served_ok. cbn.
    rewrite Hsp, app_nil_r in Hk. exact Hk.
  - by left.
  - by left.
Qed.

Lemma wf_Grab j batch s : wf s -> worker s = Starting j -> pendingBatch s = batch -> wf (set_worker (Taken j batch) (set_pending [] s)).
Proof.
  intros [Hsp Hca Hnd Hqu Hse Hsd Hwk [Hs1 Hs2] Hcl] Hw Hp. rewrite Hw, Hp in *. constructor; cbn in *; try done.
  - by rewrite app_nil_r.
  - intros c k need Hs Hc. pose proof (Hca _ _ Hc) as Hk. apply kind_ok_le in Hk. unfold served_ok. cbn.
    rewrite Hsp, length_app in Hk. exact Hk.
  - by left.
  - by left.
Qed.

(** The records of the batch are in the log, and the result is [ok]. *)
Lemma wf_Append_ok j batch ok s : wf s -> worker s = Writing j batch -> wf (set_worker (Ending j ok) (set_log (log s ++ batch) s)).
Proof.
  intros [Hsp Hca Hnd Hqu Hse Hsd Hwk [Hs1 Hs2] Hcl] Hw. unfold served_ok in Hsd. rewrite Hw in *. constructor; cbn in *; try done.
  - by rewrite Hsp, <- app_assoc.
  - intros c x Hc. eapply caller_ok_mono; [done | | by apply (Hca c)]. rewrite length_app. lia.
  - intros c k need Hs Hc. unfold served_ok. cbn. destruct ok; [|done]. rewrite length_app. by eapply Hsd.
  - destruct Hwk as [?|[?|[?|[?|[?|[? ?]]]]]]; [tauto..|done].
Qed.

Lemma wf_Append_fails j batch s : wf s -> worker s = Writing j batch ->
  wf (set_worker (Ending j false) (set_failed (set_pending (batch ++ pendingBatch s) s))).
Proof.
  intros [Hsp Hca Hnd Hqu Hse Hsd Hwk [Hs1 Hs2] Hcl] Hw. rewrite Hw in *. constructor; cbn in *; try done.
  - by do 2 right; left.
  - by right.
Qed.

Lemma wf_append o j batch s : wf s -> worker s = Writing j batch -> wf (append o j batch s).
Proof. intros Hwf Hw. destruct o; cbn; [by apply wf_Append_ok | by apply wf_Append_fails | by apply wf_Append_ok]. Qed.

Lemma wf_finish j ok s s' : wf s -> worker s = Ending j ok -> finish j ok s = Some s' -> wf s'.
Proof.
  intros Hwf Hw Hf. pose proof Hwf as [Hsp Hca Hnd Hqu Hse Hsd Hwk [Hs1 Hs2] Hcl]. unfold served_ok in Hsd. rewrite Hw in *.
  destruct j as [|c| |]; cbn in Hf; simplify_eq.
  - apply wf_worker; rewrite ?Hw; cbn; try done. by intros [? ?].
  - unfold reply in Hf. cbn in Hf. destruct (callers s !! c) as [[| |k need| | |]|] eqn:Hc; simplify_eq. cbn in *.
    assert (Hno : c ∉ batchSyncCh s) by by apply Hse.
    constructor; cbn; try done.
    + intros c' x. rewrite lookup_insert_Some. intros [[<- <-] | [_ Hl]]; [|by apply (Hca c')]. pose proof (Hca _ _ Hc) as Hk.
      destruct ok; [|done]. specialize (Hsd c k need eq_refl Hc).
      destruct k as [rec [] |since]; [done.. | split; [by eexists | done]].
    + intros c'. change (mkCommit _ _ _ _ _ _ _ _ _ _ _) with (set_caller c (match ok, k with true, Syncer _ => Checking k need | _, _ => Returned k need ok end) (set_worker Idle s)).
      rewrite queued_set. change (queued (set_worker Idle s) c') with (queued s c'). case_decide as Hcc; [subst c'|].
      * split; [|intros [?|?]; done]. intros (k' & n' & E). by destruct ok, k.
      * rewrite Hqu. split; intros [?|?]; [by left | congruence | by left | done].
    + destruct Hwk as [?|[?|[?|[?|[?|[? ?]]]]]]; [tauto..|done].
  - apply wf_worker; rewrite ?Hw; cbn; try done. by intros [? ?].
  - apply wf_worker; rewrite ?Hw; cbn; try done. by intros [? ?].
Qed.

Lemma wf_begin_close s : wf s -> wf (begin_close s).
Proof.
  intros [Hsp Hca Hnd Hqu Hse Hsd Hwk [Hs1 Hs2] Hcl]. constructor; cbn; try done. by right; left.
Qed.

Lemma wf_signal_stop s : wf s -> closed s = true -> wf (signal_stop s).
Proof. intros [Hsp Hca Hnd Hqu Hse Hsd Hwk [Hs1 Hs2] Hcl] Hc. constructor; cbn; try done. Qed.

Lemma wf_call c k s s' : wf s -> caller_ok (accepted s) (length (log s)) (Entering k 0) -> call c k s = Some s' -> wf s'.
Proof.
  intros Hwf Hk. unfold call. destruct (callers s !! c) eqn:Hc; [done|]. intros [= <-].
  apply wf_move; [done | | by destruct (failed s) | by destruct (failed s)].
  intros (k' & n' & E). congruence.
Qed.

Lemma exec_wf l s s' : wf s -> exec l s = Some s' -> wf s'.
Proof.
  intros Hwf He. destruct l; cbn [exec] in He.
  - eapply wf_call; [done| |done]. done.
  - eapply wf_call; [done| |done]. cbn. lia.
  - destruct (closed s); simplify_eq; [done | by apply wf_begin_close].
  - repeat case_match; simplify_eq. by apply wf_enter.
  - repeat case_match; simplify_eq. by apply wf_Send.
  - destruct (callers s !! c) as [[| | |k need| |]|] eqn:Hc; try done. pose proof (wf_callers s Hwf _ _ Hc) as Hok.
    assert (Hs : s' = set_caller c (Looking k need) s) by (repeat case_match; by simplify_eq). subst s'.
    apply wf_move; [done | by eapply not_queued | done | done].
  - destruct (callers s !! c) as [[| | | |k need|]|] eqn:Hc; simplify_eq. by apply wf_Look.
  - destruct (armed s) eqn:Ea; simplify_eq. by apply wf_set_timer.
  - repeat case_match; simplify_eq. by apply wf_TakeStop.
  - repeat case_match; simplify_eq. by apply wf_TakeSync.
  - repeat case_match; simplify_eq. by apply wf_TakeToken.
  - repeat case_match; simplify_eq; [by apply wf_Grab_empty | by apply wf_Grab].
  - repeat case_match; simplify_eq. by apply wf_Begin.
  - repeat case_match; simplify_eq. by apply wf_append.
  - repeat case_match; simplify_eq. by eapply wf_finish.
  - destruct (closed s) eqn:Ec; [|done]. destruct (stopping s); simplify_eq/=. by apply wf_signal_stop.
  - repeat case_match; simplify_eq. by apply wf_CloserFlush.
Qed.

Lemma reachable_wf s : reachable s -> wf s.
Proof. induction 1; [apply wf_opened | by eapply exec_wf]. Qed.


(** * Progress *)

(** Records that calls still on their way will add. *)
Definition incoming (x : caller) : nat := match x with Entering (Writer _ _) _ => 1 | _ => 0 end.

Definition caller_weight (total : nat) (x : caller) : nat :=
  match x with
  | Entering (Writer _ _) _ => 20
  | Entering (Syncer _) need => 10 + 12 * (total - need)
  | Sending (Syncer _) need => 9 + 12 * (total - need)
  | Sending _ _ => 9
  | Queued (Syncer _) need => 3 + 12 * (total - need)
  | Queued _ _ => 3
  | Checking _ need => 2 + 12 * (total - need)
  | Looking _ need => 1 + 12 * (total - need)
  | Returned _ _ _ => 0
  end.

Definition stage (w : worker_state) : nat := match w with Starting _ => 5 | Taken _ _ => 4 | Writing _ _ => 3 | Ending _ _ => 2 | Idle => 1 | _ => 0 end.
Definition life (w : worker_state) : nat :=
  match w with
  | Exited => 10 | Finished => 0
  | _ => match job_of w with Some ForStop => 10 | Some ForClose => 0 | _ => 20 end
  end.

Definition total (s : commit) : nat := (length (accepted s) + sum_map incoming (callers s))%nat.

Definition weight (s : commit) : nat :=
  (sum_map (caller_weight (total s)) (callers s) + 5 * length (batchSyncCh s) + (if armed s then 7 else 0) + (if token s then 6 else 0) +
   stage (worker s) + life (worker s) + (if stopping s then 0 else 1))%nat.

Lemma caller_weight_mono t t' x : (t <= t')%nat -> (caller_weight t x <= caller_weight t' x)%nat.
Proof. intros Ht. destruct x as [[]|[]|[]| | |]; cbn; lia. Qed.

(** A call changes its place and brings no record. *)
Lemma move_weight c x y s : callers s !! c = Some x -> incoming x = 0%nat -> incoming y = 0%nat ->
  (weight (set_caller c y s) + caller_weight (total s) x = weight s + caller_weight (total s) y)%nat.
Proof.
  intros Hc Hx Hy. assert (Ht : total (set_caller c y s) = total s).
  { unfold total. cbn. pose proof (sum_map_replace incoming _ _ _ y Hc). lia. }
  unfold weight. rewrite Ht. cbn. pose proof (sum_map_replace (caller_weight (total s)) _ _ _ y Hc). lia.
Qed.

Lemma enter_weight c k need s : wf s -> callers s !! c = Some (Entering k need) -> (weight (enter c k need s) < weight s)%nat.
Proof.
  intros Hwf Hc. pose proof (wf_callers s Hwf _ _ Hc) as Hok. unfold enter. destruct k as [rec now|since].
  - destruct (closed s).
    + unfold weight. set (s' := set_caller _ _ _).
      assert (Ht : (total s' <= total s)%nat).
      { unfold total. cbn. pose proof (sum_map_replace incoming _ _ _ (Returned (Writer rec now) need false) Hc) as H. cbn in H. lia. }
      pose proof (sum_map_le (caller_weight (total s')) (caller_weight (total s)) (callers s') (fun x => caller_weight_mono _ _ x Ht)).
      pose proof (sum_map_replace (caller_weight (total s)) _ _ _ (Returned (Writer rec now) need false) Hc) as H0. cbn in H, H0 |- *. lia.
    + set (y := if now then _ else _). cbn zeta.
      assert (Ht : total (set_caller c y (enqueue rec s)) = total s).
      { unfold total. cbn. rewrite length_app. cbn. pose proof (sum_map_replace incoming _ _ _ y Hc) as H. cbn in H.
        assert (incoming y = 0%nat) by (by unfold y; destruct now). lia. }
      unfold weight. rewrite Ht. cbn. pose proof (sum_map_replace (caller_weight (total s)) _ _ _ y Hc) as H. cbn in H.
      assert (caller_weight (total s) y <= 9)%nat by (unfold y; destruct now; cbn; lia). destruct (armed s); lia.
  - destruct (closed s).
    + pose proof (move_weight c _ (Returned (Syncer since) need false) s Hc eq_refl eq_refl) as H. cbn in H. lia.
    + pose proof (move_weight c _ (Sending (Syncer since) (length (accepted s))) s Hc eq_refl eq_refl) as H. cbn in H, Hok. lia.
Qed.

Lemma Look_weight c k need s : wf s -> callers s !! c = Some (Looking k need) ->
  (weight (set_caller c (match pendingBatch s with [] => Returned k need true | _ => Entering k (length (accepted s)) end) s) < weight s)%nat.
Proof.
  intros Hwf Hc. destruct (wf_callers s Hwf _ _ Hc) as ([since ->] & Hk & Hle). cbn in Hk.
  destruct (pendingBatch s) as [|r rs] eqn:Hp.
  - pose proof (move_weight c _ (Returned (Syncer since) need true) s Hc eq_refl eq_refl) as H. cbn in H. lia.
  - pose proof (move_weight c _ (Entering (Syncer since) (length (accepted s))) s Hc eq_refl eq_refl) as H. cbn in H.
    assert (Hlt : (length (log s) < length (accepted s))%nat).
    { rewrite (wf_split s Hwf), Hp, !length_app. cbn. lia. }
    assert (length (accepted s) <= total s)%nat by (unfold total; lia). lia.
Qed.

Lemma exec_weight l s s' : wf s -> internal l = true -> exec l s = Some s' -> (weight s' < weight s)%nat.
Proof.
  intros Hwf Hi He. destruct l; try done; cbn [exec] in He.
  - repeat case_match; simplify_eq. by apply enter_weight.
  - repeat case_match; simplify_eq.
    pose proof (move_weight c _ (Queued k need) s ltac:(eassumption) eq_refl eq_refl) as Hm. unfold weight, total in *. cbn in *.
    rewrite length_app. cbn. destruct k; lia.
  - destruct (callers s !! c) as [[| | |k need| |]|] eqn:Hc; try done.
    assert (Hs : s' = set_caller c (Looking k need) s) by (repeat case_match; by simplify_eq). subst s'.
    pose proof (move_weight c _ (Looking k need) s Hc eq_refl eq_refl) as Hm. cbn in Hm. lia.
  - destruct (callers s !! c) as [[| | | |k need|]|] eqn:Hc; simplify_eq. by apply Look_weight.
  - destruct (armed s) eqn:Ea; simplify_eq. unfold weight, total. cbn. rewrite Ea. destruct (token s); lia.
  - destruct (worker s) eqn:Hw; try done. destruct (stopping s) eqn:Es; simplify_eq. unfold weight, total. cbn. rewrite Hw, Es. cbn. lia.
  - destruct (worker s) eqn:Hw; try done. destruct (batchSyncCh s) eqn:Eq; simplify_eq. unfold weight, total. cbn. rewrite Hw, Eq. cbn. lia.
  - destruct (worker s) eqn:Hw; try done. destruct (token s) eqn:Et; simplify_eq. unfold weight, total. cbn. rewrite Hw, Et. cbn. lia.
  - destruct (worker s) eqn:Hw; try done. destruct (pendingBatch s); simplify_eq; unfold weight, total; cbn; rewrite Hw; cbn; destruct j; lia.
  - destruct (worker s) eqn:Hw; simplify_eq. unfold weight, total. cbn. rewrite Hw. cbn. destruct j; lia.
  - destruct (worker s) eqn:Hw; simplify_eq. destruct o; unfold weight, total; cbn; rewrite Hw; cbn; destruct j; lia.
  - destruct (worker s) eqn:Hw; try done. destruct j as [|c| |]; cbn in He.
    2: { unfold reply in He. cbn in He. destruct (callers s !! c) as [[| |k need| | |]|] eqn:Hc; simplify_eq.
         pose proof (move_weight c _ (match ok, k with true, Syncer _ => Checking k need | _, _ => Returned k need ok end) s Hc eq_refl) as Hm.
         unfold weight, total in *. cbn in *. rewrite Hw in Hm |- *. cbn in *. destruct ok, k; cbn in *; specialize (Hm eq_refl); lia. }
    all: simplify_eq; unfold weight, total; cbn; rewrite Hw; cbn; lia.
  - destruct (closed s); [|done]. destruct (stopping s) eqn:Es; simplify_eq/=. unfold weight, total. cbn. rewrite Es. lia.
  - destruct (worker s) eqn:Hw; simplify_eq. unfold weight, total. cbn. rewrite Hw. cbn. lia.
Qed.

Lemma commit_run_weight ls : forall s s', wf s -> forallb internal ls = true -> run ls s = Some s' -> (length ls <= weight s)%nat.
Proof.
  induction ls as [|l ls IH]; intros s s' Hwf Hi Hr; cbn in *; [lia|]. apply andb_prop in Hi as [Hl Hi].
  destruct (exec l s) as [s1|] eqn:He; [|done]. pose proof (exec_weight l s s1 Hwf Hl He).
  assert (length ls <= weight s1)%nat; [|lia]. eapply IH; [by eapply exec_wf | done..].
Qed.

Lemma resting_worker s : wf s -> resting s -> closed s = false -> worker s = Idle /\ batchSyncCh s = [] /\ armed s = false /\ token s = false.
Proof.
  intros Hwf Hrest Hc. destruct (wf_stop s Hwf) as [Hs1 Hs2].
  assert (Hno : ~ on_stop (worker s)) by (intros Hon; rewrite (Hs2 (Hs1 Hon)) in Hc; done).
  assert (Hw : worker s = Idle).
  { destruct (worker s) as [|j|j b|j b|j ok| |] eqn:Hw; [done | | | | |by destruct Hno..].
    - specialize (Hrest Grab eq_refl). cbn in Hrest. rewrite Hw in Hrest. by destruct (pendingBatch s).
    - specialize (Hrest Begin eq_refl). cbn in Hrest. by rewrite Hw in Hrest.
    - specialize (Hrest (Append Persisted) eq_refl). cbn in Hrest. by rewrite Hw in Hrest.
    - specialize (Hrest Finish eq_refl). cbn in Hrest. rewrite Hw in Hrest. destruct j as [|c| |]; try done.
      assert (Hq : queued s c) by (apply (wf_queue s Hwf); right; by rewrite Hw).
      destruct Hq as (k & need & Hq). cbn in Hrest. unfold reply in Hrest. cbn in Hrest. by rewrite Hq in Hrest. }
  split; [done|]. split_and!.
  - specialize (Hrest TakeSync eq_refl). cbn in Hrest. rewrite Hw in Hrest. by destruct (batchSyncCh s).
  - specialize (Hrest Fire eq_refl). cbn in Hrest. by destruct (armed s).
  - specialize (Hrest TakeToken eq_refl). cbn in Hrest. rewrite Hw in Hrest. by destruct (token s).
Qed.

(** C5: Group commit makes progress.  Whatever the order of the actions and the failures of
    the log, what is under way ends after at most [weight] actions; and when nothing more
    can happen and nobody has called [Close], every [Put], [Delete] and [Sync] has returned
    and, unless the log has failed, no record is left in the queue: the timer never misses one. *)
Theorem group_commit_progress s : reachable s ->
  (forall ls s', forallb internal ls = true -> run ls s = Some s' -> (length ls <= weight s)%nat) /\
  (resting s -> closed s = false ->
     (forall c x, callers s !! c = Some x -> exists k need ok, x = Returned k need ok) /\ (failed s = false -> pendingBatch s = [])).
Proof.
  intros Hr. pose proof (reachable_wf s Hr) as Hwf. split; [intros ls s'; by apply commit_run_weight|].
  intros Hrest Hc. destruct (resting_worker s Hwf Hrest Hc) as (Hw & Hq & Ha & Ht). split.
  - intros c x Hx. destruct x as [k need|k need|k need|k need|k need|k need ok]; [exfalso..|by eauto].
    + specialize (Hrest (Enter c) eq_refl). cbn in Hrest. by rewrite Hx in Hrest.
    + specialize (Hrest (Send c) eq_refl). cbn in Hrest. by rewrite Hx, Hq in Hrest.
    + assert (Hqu : queued s c) by by (exists k, need). apply (wf_queue s Hwf) in Hqu. rewrite Hq, Hw in Hqu.
      destruct Hqu as [Hqu|Hqu]; [by apply elem_of_nil in Hqu | done].
    + specialize (Hrest (Barrier c) eq_refl). cbn in Hrest. by rewrite Hx, Hw in Hrest.
    + specialize (Hrest (Look c) eq_refl). cbn in Hrest. by rewrite Hx in Hrest.
  - intros Hf. destruct (wf_wake s Hwf) as [?|[?|[?|[?|[?|[j Hj]]]]]]; congruence.
Qed.

Lemma reachable_commit_run ls : forall s s', reachable s -> run ls s = Some s' -> reachable s'.
Proof.
  induction ls as [|l ls IH]; intros s s' Hr Hrun; cbn in *; [by simplify_eq|].
  destruct (exec l s) as [s1|] eqn:He; [|done]. by eapply IH; [eapply reach_step|].
Qed.

(** A write without a flush, one with, and a [Sync] that comes between them. *)
Definition demo_rec (b : byte) : entry := Entry [b] [b] false.
Definition demo_run : list label :=
  [CallWrite 1 (demo_rec x61) false; Enter 1; CallSync 2; CallWrite 3 (demo_rec x62) true; Enter 2; Send 2; Enter 3; Fire; TakeSync; Grab; Begin;
   Send 3; Append Persisted; Finish; Barrier 2; Look 2].
Definition demo_state : commit := default opened (run demo_run opened).

Lemma demo_reachable : reachable demo_state.
Proof. apply (reachable_commit_run demo_run opened); [apply reach_opened | vm_compute; reflexivity]. Qed.


(** The rest of the run. *)
Definition demo_rest : list label := [TakeToken; Grab; Finish; TakeSync; Grab; Finish].

Lemma group_commit_progress_witness : exists s, run demo_rest demo_state = Some s /\ (length demo_rest <= weight demo_state)%nat.
Proof.
  destruct (group_commit_progress demo_state demo_reachable) as [Hl _].
  destruct (run demo_rest demo_state) as [s|] eqn:E; [|by vm_compute in E].
  exists s. split; [reflexivity | exact (Hl demo_rest s eq_refl E)].
Defined.

End DbGroupCommit.
