(* ===== verification/DbWorkers.v ===== *)
(** The background goroutines and [Close] (internal/db: flush.go, compactor.go,
    compaction.go, close.go).

    Who writes a table and how is [DbFlush] and [DbCompact]; here is who wakes whom.  The
    state counts the frozen memtables and the tokens in the two channels, and knows where
    the goroutine that commits batches, the table flusher, the compactor and [Close] stand;
    [exec] is one atomic action of one of them.  Whether a memtable is over its limit,
    whether a flush succeeds and whether a compaction has more to do is chosen by the
    label.  [Close] may lose its patience with the queue and with the goroutines, and then
    shuts them down again; any number of callers may be inside [ForceMemtableFlush].
    [ForceCompaction] touches neither the queue nor a channel and is left out.

    Two uses end in a panic, and both are shown below: a goroutine that [Close] waits for
    in vain, and a [ForceMemtableFlush] that is under way when [Close] is called.
    [allowed] excludes them, and [reachable] is what the rest leads to. *)

From Stdlib Require Import ZArith Lia.
From S2P Require Import Prelude.

Module DbWorkers.

(** * State *)

(** The goroutine that applies batches: between two batches, having frozen a memtable
    before the check and before the send of [signalFlush], and ended. *)
Inductive batcher_state := BIdle | BFrozen | BSend | BGone.

(** The table flusher: at its channel, before the lock of a round, writing a table, before
    the check and the send of [maybeTriggerCompaction], before the lock that takes the
    memtable out, ended. *)
Inductive flusher_state := FWait | FCheck | FFlush | FTrigger | FTSend | FPop | FGone.

(** The compactor: at its channel, in its loop with [compactMu] held, ended. *)
Inductive compactor_state := CWait | CRun | CGone.

(** [Close]: not called, waiting for the batch flusher, before its own flush of the batch,
    at the head of its loop, before the forced signal, waiting for the queue, before
    closing [flushCh], waiting for the flusher, before closing [compactCh], waiting for the
    compactor, done. *)
Inductive closer_state := KOpen | KStop | KOwn | KLoop | KNotify | KWait | KShut | KJoin | KShutC | KJoinC | KDone.

(** The callers of [ForceMemtableFlush], counted by where they stand: in [notifyFlush] of
    [flushPendingBatch], before its check and before its send; before the lock; in
    [notifyFlush] for the frozen memtable, before its check and before its send; waiting for
    the queue. *)
Record forcers := mkForcers { bCheck : nat; bSend : nat; atLock : nat; mCheck : nat; mSend : nat; waiting : nat }.

Definition nobody : forcers := mkForcers 0 0 0 0 0 0.

(** [pendingFlush] and [active]: how many memtables are frozen, and whether the active one
    has records.  [incomplete]: [Close] has given up and is in [abortClose].  [timedOut]: the
    error of the [shutdownBackgroundWorkers] under way.  [panicked]: a send on a closed
    channel, or a second close. *)
Record workers := mkWorkers {
  pendingFlush : nat; active : bool; flushCh : nat; flushClosed : bool; compactCh : nat; compactClosed : bool;
  batcher : batcher_state; flusher : flusher_state; compactor : compactor_state; closer : closer_state;
  incomplete : bool; timedOut : bool; forcing : forcers; panicked : bool
}.

Definition capacity : nat := 8.

(** [Open] has started the goroutines, and triggers a compaction if there are [enough] tables. *)
Definition started (enough : bool) : workers :=
  mkWorkers 0 false 0 false (if enough then 1 else 0) false BIdle FWait CWait KOpen false false nobody false.

(** [db.closed] *)
Definition closed (s : workers) : bool := match closer s with KOpen => false | _ => true end.

Definition set_queue (n : nat) (a : bool) (s : workers) : workers :=
  mkWorkers n a (flushCh s) (flushClosed s) (compactCh s) (compactClosed s) (batcher s) (flusher s) (compactor s) (closer s) (incomplete s) (timedOut s) (forcing s) (panicked s).
Definition set_flushCh (n : nat) (c : bool) (s : workers) : workers :=
  mkWorkers (pendingFlush s) (active s) n c (compactCh s) (compactClosed s) (batcher s) (flusher s) (compactor s) (closer s) (incomplete s) (timedOut s) (forcing s) (panicked s).
Definition set_compactCh (n : nat) (c : bool) (s : workers) : workers :=
  mkWorkers (pendingFlush s) (active s) (flushCh s) (flushClosed s) n c (batcher s) (flusher s) (compactor s) (closer s) (incomplete s) (timedOut s) (forcing s) (panicked s).
Definition set_batcher (x : batcher_state) (s : workers) : workers :=
  mkWorkers (pendingFlush s) (active s) (flushCh s) (flushClosed s) (compactCh s) (compactClosed s) x (flusher s) (compactor s) (closer s) (incomplete s) (timedOut s) (forcing s) (panicked s).
Definition set_flusher (x : flusher_state) (s : workers) : workers :=
  mkWorkers (pendingFlush s) (active s) (flushCh s) (flushClosed s) (compactCh s) (compactClosed s) (batcher s) x (compactor s) (closer s) (incomplete s) (timedOut s) (forcing s) (panicked s).
Definition set_compactor (x : compactor_state) (s : workers) : workers :=
  mkWorkers (pendingFlush s) (active s) (flushCh s) (flushClosed s) (compactCh s) (compactClosed s) (batcher s) (flusher s) x (closer s) (incomplete s) (timedOut s) (forcing s) (panicked s).
Definition set_closer (x : closer_state) (s : workers) : workers :=
  mkWorkers (pendingFlush s) (active s) (flushCh s) (flushClosed s) (compactCh s) (compactClosed s) (batcher s) (flusher s) (compactor s) x (incomplete s) (timedOut s) (forcing s) (panicked s).
Definition abandon (s : workers) : workers :=
  mkWorkers (pendingFlush s) (active s) (flushCh s) (flushClosed s) (compactCh s) (compactClosed s) (batcher s) (flusher s) (compactor s) (closer s) true (timedOut s) (forcing s) (panicked s).
Definition set_timedOut (x : bool) (s : workers) : workers :=
  mkWorkers (pendingFlush s) (active s) (flushCh s) (flushClosed s) (compactCh s) (compactClosed s) (batcher s) (flusher s) (compactor s) (closer s) (incomplete s) x (forcing s) (panicked s).
Definition set_forcing (x : forcers) (s : workers) : workers :=
  mkWorkers (pendingFlush s) (active s) (flushCh s) (flushClosed s) (compactCh s) (compactClosed s) (batcher s) (flusher s) (compactor s) (closer s) (incomplete s) (timedOut s) x (panicked s).
Definition panic (s : workers) : workers :=
  mkWorkers (pendingFlush s) (active s) (flushCh s) (flushClosed s) (compactCh s) (compactClosed s) (batcher s) (flusher s) (compactor s) (closer s) (incomplete s) (timedOut s) (forcing s) true.

(** * Actions *)

(** [select { case ch <- struct{}{}: default: }]: also this send panics on a closed channel. *)
Definition signal (n : nat) : nat := if (n <? capacity)%nat then S n else n.

Definition send_flush (s : workers) : workers := if flushClosed s then panic s else set_flushCh (signal (flushCh s)) false s.
Definition send_compact (s : workers) : workers := if compactClosed s then panic s else set_compactCh (signal (compactCh s)) false s.
Definition close_flush (s : workers) : workers := if flushClosed s then panic s else set_flushCh (flushCh s) true s.
Definition close_compact (s : workers) : workers := if compactClosed s then panic s else set_compactCh (compactCh s) true s.

(** [maybeFlushLocked], when the memtable is over its limit. *)
Definition freeze (s : workers) : workers := set_queue (S (pendingFlush s)) false s.

Inductive label :=
  | CallClose | Apply | Freeze              (* Close is called; a batch is applied, and fills the memtable *)
  | NotifyCheck | NotifySend | BatchStop    (* signalFlush; batchStop *)
  | FlusherTake | FlusherEnd | FlusherLook | FlushOk | FlushFails | TriggerCheck (enough : bool) | TriggerSend | FlusherPop
  | CompactorTake | CompactorEnd | CompactorMore | CompactorDone
  | CloseJoinBatch | CloseOwn (records full : bool) | CloseLoop | SizeFails | CloseNotify | CloseDrained | DrainTimeout
  | CloseFlushCh | CloseJoin | JoinTimeout | CloseCompactCh | CloseJoinC | JoinTimeoutC
  (* ForceMemtableFlush: its batch is written, and fills the memtable, or cannot be; again:
     for the memtable it froze itself *)
  | ForceCall (records full : bool) | ForceFails (records : bool) | ForceCheck (again : bool) | ForceSend (again : bool)
  | ForceLock | ForceSizeFails | ForceDrained | ForceTimeout.

(** One turn of the loop of [Close]: out of it, or the rest of the memtable is frozen. *)
Definition close_turn (s : workers) : workers :=
  match pendingFlush s, active s with
  | O, false => set_closer KShut s
  | n, true => set_closer KNotify (freeze s)
  | _, false => set_closer KNotify s
  end.

(** The end of [shutdownBackgroundWorkers]: in [abortClose] [Close] returns in any case;
    otherwise an error of the shutdown leads to [abortClose], which shuts down again. *)
Definition end_shutdown (s : workers) : workers :=
  if incomplete s then set_closer KDone s
  else if timedOut s then set_closer KShut (set_timedOut false (abandon s))
  else set_closer KDone s.

(** [flushPendingBatch] of a caller of [ForceMemtableFlush]: [records] are applied, and
    the memtable is frozen when it is [full]. *)
Definition force_call (records full : bool) (s : workers) : workers :=
  let s := if records then set_queue (pendingFlush s) true s else s in
  match forcing s with
  | mkForcers bc bs al mc ms w =>
      if full && active s then set_forcing (mkForcers (S bc) bs al mc ms w) (freeze s)
      else set_forcing (mkForcers bc bs (S al) mc ms w) s
  end.

(** The check of [signalFlush]: a closed database is not signalled. *)
Definition force_check (again : bool) (s : workers) : option workers :=
  match again, forcing s with
  | false, mkForcers (S bc) bs al mc ms w =>
      Some (set_forcing (if closed s then mkForcers bc bs (S al) mc ms w else mkForcers bc (S bs) al mc ms w) s)
  | true, mkForcers bc bs al (S mc) ms w =>
      Some (set_forcing (if closed s then mkForcers bc bs al mc ms (S w) else mkForcers bc bs al mc (S ms) w) s)
  | _, _ => None
  end.

(** Its send. *)
Definition force_send (again : bool) (s : workers) : option workers :=
  match again, forcing s with
  | false, mkForcers bc (S bs) al mc ms w => Some (send_flush (set_forcing (mkForcers bc bs (S al) mc ms w) s))
  | true, mkForcers bc bs al mc (S ms) w => Some (send_flush (set_forcing (mkForcers bc bs al mc ms (S w)) s))
  | _, _ => None
  end.

(** The critical section of [ForceMemtableFlush]. *)
Definition force_lock (s : workers) : option workers :=
  match forcing s with
  | mkForcers bc bs (S al) mc ms w =>
      let returned := set_forcing (mkForcers bc bs al mc ms w) s in
      let notify := set_forcing (mkForcers bc bs al (S mc) ms w) s in
      Some (if closed s then returned
            else if active s then freeze notify
            else match pendingFlush s with O => returned | _ => notify end)
  | _ => None
  end.

Definition exec (l : label) (s : workers) : option workers :=
  if panicked s then None else
  match l with
  | CallClose => match closer s with KOpen => Some (set_closer KStop s) | _ => Some s end
  | Apply => match batcher s with BIdle => Some (set_queue (pendingFlush s) true s) | _ => None end
  | Freeze => match batcher s with BIdle => if active s then Some (set_batcher BFrozen (freeze s)) else None | _ => None end
  | NotifyCheck => match batcher s with BFrozen => Some (set_batcher (if closed s then BIdle else BSend) s) | _ => None end
  | NotifySend => match batcher s with BSend => Some (set_batcher BIdle (send_flush s)) | _ => None end
  | BatchStop => match batcher s, closer s with BIdle, KStop => Some (set_batcher BGone s) | _, _ => None end
  | FlusherTake => match flusher s, flushCh s with FWait, S n => Some (set_flusher FCheck (set_flushCh n (flushClosed s) s)) | _, _ => None end
  | FlusherEnd => match flusher s, flushCh s with FWait, O => if flushClosed s then Some (set_flusher FGone s) else None | _, _ => None end
  | FlusherLook => match flusher s with FCheck => Some (set_flusher (match pendingFlush s with O => FWait | _ => FFlush end) s) | _ => None end
  | FlushOk => match flusher s with FFlush => Some (set_flusher FTrigger s) | _ => None end
  | FlushFails => match flusher s with FFlush => Some (set_flusher FCheck s) | _ => None end
  | TriggerCheck enough => match flusher s with FTrigger => Some (set_flusher (if closed s || negb enough then FPop else FTSend) s) | _ => None end
  | TriggerSend => match flusher s with FTSend => Some (set_flusher FPop (send_compact s)) | _ => None end
  | FlusherPop => match flusher s with FPop => Some (set_flusher FCheck (set_queue (pred (pendingFlush s)) (active s) s)) | _ => None end
  | CompactorTake => match compactor s, compactCh s with CWait, S n => Some (set_compactor CRun (set_compactCh n (compactClosed s) s)) | _, _ => None end
  | CompactorEnd => match compactor s, compactCh s with CWait, O => if compactClosed s then Some (set_compactor CGone s) else None | _, _ => None end
  | CompactorMore => match compactor s with CRun => Some s | _ => None end
  | CompactorDone => match compactor s with CRun => Some (set_compactor CWait s) | _ => None end
  | CloseJoinBatch => match closer s, batcher s with KStop, BGone => Some (set_closer KOwn s) | _, _ => None end
  | CloseOwn records full =>
      match closer s with
      | KOwn =>
          let s := if records then set_queue (pendingFlush s) true s else s in
          Some (set_closer KLoop (if full && active s then freeze s else s))
      | _ => None
      end
  | CloseLoop => match closer s with KLoop => Some (close_turn s) | _ => None end
  | SizeFails => match closer s with KLoop => if active s then Some (set_closer KShut (abandon s)) else None | _ => None end
  | CloseNotify => match closer s with KNotify => Some (set_closer KWait (send_flush s)) | _ => None end
  | CloseDrained => match closer s, pendingFlush s with KWait, O => Some (set_closer KLoop s) | _, _ => None end
  | DrainTimeout => match closer s with KWait => Some (set_closer KShut (abandon s)) | _ => None end
  | CloseFlushCh => match closer s with KShut => Some (set_closer KJoin (close_flush s)) | _ => None end
  | CloseJoin => match closer s, flusher s with KJoin, FGone => Some (set_closer KShutC s) | _, _ => None end
  | JoinTimeout => match closer s with KJoin => Some (set_closer KShutC (set_timedOut true s)) | _ => None end
  | CloseCompactCh => match closer s, compactor s with KShutC, CRun => None | KShutC, _ => Some (set_closer KJoinC (close_compact s)) | _, _ => None end
  | CloseJoinC => match closer s, compactor s with KJoinC, CGone => Some (end_shutdown s) | _, _ => None end
  | JoinTimeoutC => match closer s with KJoinC => Some (end_shutdown (set_timedOut true s)) | _ => None end
  | ForceCall records full => Some (force_call records full s)
  | ForceFails records => Some (if records then set_queue (pendingFlush s) true s else s)
  | ForceCheck again => force_check again s
  | ForceSend again => force_send again s
  | ForceLock => force_lock s
  | ForceSizeFails =>
      match forcing s with
      | mkForcers bc bs (S al) mc ms w => if active s && negb (closed s) then Some (set_forcing (mkForcers bc bs al mc ms w) s) else None
      | _ => None
      end
  | ForceDrained =>
      match forcing s, pendingFlush s with
      | mkForcers bc bs al mc ms (S w), O => Some (set_forcing (mkForcers bc bs al mc ms w) s)
      | _, _ => None
      end
  | ForceTimeout => match forcing s with mkForcers bc bs al mc ms (S w) => Some (set_forcing (mkForcers bc bs al mc ms w) s) | _ => None end
  end.

Fixpoint run (ls : list label) (s : workers) : option workers :=
  match ls with
  | [] => Some s
  | l :: ls' => match exec l s with Some s' => run ls' s' | None => None end
  end.

(** How the database is to be used: the goroutines that [Close] waits for end in time, no
    [ForceMemtableFlush] is under way when [Close] is called, and none is called after it. *)
Definition idle (f : forcers) : bool :=
  match f with mkForcers 0 0 0 0 0 0 => true | _ => false end.

Definition allowed (l : label) (s : workers) : bool :=
  match l with
  | JoinTimeout | JoinTimeoutC => false
  | CallClose => idle (forcing s)
  | ForceCall _ _ | ForceFails _ => negb (closed s)
  | _ => true
  end.

Inductive reachable : workers -> Prop :=
  | reach_started enough : reachable (started enough)
  | reach_step l s s' : reachable s -> allowed l s = true -> exec l s = Some s' -> reachable s'.

(** What the goroutines do by themselves when flushes succeed, compactions end, and nobody
    runs out of patience. *)
Definition internal (l : label) : bool :=
  match l with CallClose | Apply | Freeze | FlushFails | CompactorMore | SizeFails | DrainTimeout | JoinTimeout | JoinTimeoutC
  | ForceCall _ _ | ForceFails _ | ForceSizeFails | ForceTimeout => false | _ => true end.

Definition resting (s : workers) : Prop := forall l, internal l = true -> exec l s = None.

(** * The invariant *)

Definition closer_rank (k : closer_state) : nat :=
  match k with KOpen => 0 | KStop => 1 | KOwn => 2 | KLoop => 3 | KNotify => 4 | KWait => 5 | KShut => 6 | KJoin => 7 | KShutC => 8 | KJoinC => 9 | KDone => 10 end.

Definition flushing (f : flusher_state) : bool := match f with FFlush | FTrigger | FTSend | FPop => true | _ => false end.

(** How many callers of [ForceMemtableFlush] are about to signal the flusher. *)
Definition notifying (f : forcers) : nat := (bCheck f + bSend f + mCheck f + mSend f)%nat.

Notation rank s := (closer_rank (closer s)).

Record wf (s : workers) : Prop := {
  wf_flushClosed : flushClosed s = true <-> (7 <= rank s)%nat;
  wf_compactClosed : compactClosed s = true <-> (9 <= rank s)%nat;
  wf_batcher : batcher s = BGone \/ (rank s <= 1)%nat;
  wf_gone : (rank s = 0)%nat -> batcher s <> BGone;
  wf_flusher : ((8 <= rank s)%nat -> flusher s = FGone) /\ (flusher s = FGone -> (7 <= rank s)%nat);
  wf_compactor : compactor s = CGone -> (9 <= rank s)%nat;
  wf_done : closer s = KDone -> compactor s = CGone;
  wf_flushing : flushing (flusher s) = true -> (0 < pendingFlush s)%nat;
  wf_frozen : closer s = KNotify \/ closer s = KWait -> active s = false;
  wf_drained : (6 <= rank s)%nat -> incomplete s = true \/ (pendingFlush s = 0%nat /\ active s = false);
  wf_given_up : incomplete s = true -> (6 <= rank s)%nat;
  wf_wake : pendingFlush s = 0%nat \/ (0 < flushCh s)%nat \/ flusher s = FCheck \/ flushing (flusher s) = true \/
            batcher s = BFrozen \/ batcher s = BSend \/ (1 <= rank s <= 4)%nat \/ incomplete s = true \/ (0 < notifying (forcing s))%nat;
  wf_forcing : (1 <= rank s)%nat -> forcing s = nobody;
  wf_patient : timedOut s = false;
  wf_quiet : panicked s = false
}.

Lemma wf_started enough : wf (started enough).
Proof. constructor; cbn; try done; try lia; try (by left); try (by right; lia); intuition (done || lia). Qed.

Lemma signal_pos n : (0 < signal n)%nat.
Proof. unfold signal. destruct (n <? capacity)%nat eqn:E; [lia|]. unfold capacity in E. apply Nat.ltb_ge in E. lia. Qed.

(** Premises that arithmetic or the constructors decide. *)
Ltac feed :=
  repeat match goal with
  | H : ?P -> _ |- _ =>
      match type of P with Prop => let Hp := fresh in assert (Hp : P) by (first [lia | congruence]); specialize (H Hp); clear Hp end
  end.

Ltac wf_leaf := feed; first [done | lia | congruence | tauto | intuition (first [congruence | lia | subst; cbn in *; first [lia | congruence]])].

(** The fields of the invariant; only the last but one needs the case who wakes the flusher. *)
Ltac wf_case Hwake :=
  constructor; cbn in *; try assumption;
  match goal with
  | |- _ \/ (0 < _)%nat \/ _ => destruct Hwake as [Hwake|[Hwake|[Hwake|[Hwake|[Hwake|[Hwake|[Hwake|[Hwake|Hwake]]]]]]]]; wf_leaf
  | _ => clear Hwake; wf_leaf
  end.

Lemma idle_nobody f : idle f = true -> f = nobody.
Proof. by destruct f as [[] [] [] [] [] []]. Qed.

(** A caller of [ForceMemtableFlush] is only under way on an open database. *)
Ltac force_open k Hn Ha :=
  assert (Hk : k = KOpen) by (destruct k; first [reflexivity | discriminate Ha | discriminate (Hn ltac:(cbn; lia))]); subst k.

Lemma workers_exec_wf l s s' : wf s -> allowed l s = true -> exec l s = Some s' -> wf s'.
Proof.
  intros Hwf Ha He. destruct s as [q a fc fcl cc ccl b f c k inc t [bc bs al mc ms w] p].
  destruct Hwf as [H1 H2 H3 H4 [H5 H5'] H6 H7 H8 H9 H10 Hg H11 Hn Ht H12]. cbn in *. subst p t.
  pose proof (signal_pos fc) as Hfc.
  unfold notifying in H11. cbn in H11. unfold exec in He. cbn in He. destruct l; try discriminate Ha; cbn in He; unfold send_flush, send_compact, close_flush, close_compact, close_turn, end_shutdown, freeze, closed in He; cbn in He.
  - apply idle_nobody in Ha. injection Ha as -> -> -> -> -> ->. destruct k; simplify_eq; wf_case H11.
  - destruct b; simplify_eq; wf_case H11.
  - destruct b, a; simplify_eq; wf_case H11.
  - destruct b; simplify_eq.
    assert (Hk : match k with KOpen => false | _ => true end = true -> (1 <= closer_rank k)%nat) by (by destruct k; cbn; first [done | lia]).
    destruct (match k with KOpen => false | _ => true end); wf_case H11.
  - destruct b; simplify_eq; destruct fcl; wf_case H11.
  - destruct b, k; simplify_eq; wf_case H11.
  - destruct f, fc; simplify_eq; wf_case H11.
  - destruct f, fc; simplify_eq; destruct fcl; simplify_eq; wf_case H11.
  - destruct f; simplify_eq; destruct q; wf_case H11.
  - destruct f; simplify_eq; wf_case H11.
  - destruct f; simplify_eq; wf_case H11.
  - destruct f; simplify_eq. destruct (_ || _); wf_case H11.
  - destruct f; simplify_eq; destruct ccl; [assert (Hk : (8 <= closer_rank k)%nat) by (assert (9 <= closer_rank k)%nat by tauto; lia); by specialize (H5 Hk) | wf_case H11].
  - destruct f; simplify_eq; wf_case H11.
  - destruct c, cc; simplify_eq; wf_case H11.
  - destruct c, cc; simplify_eq; destruct ccl; simplify_eq; wf_case H11.
  - destruct c; simplify_eq; wf_case H11.
  - destruct c; simplify_eq; wf_case H11.
  - destruct k, b; simplify_eq; wf_case H11.
  - destruct k; simplify_eq; destruct records, full, a; wf_case H11.
  - destruct k; simplify_eq; destruct q, a; wf_case H11.
  - destruct k, a; simplify_eq; wf_case H11.
  - destruct k; simplify_eq; destruct fcl; wf_case H11.
  - destruct k, q; simplify_eq; wf_case H11.
  - destruct k; simplify_eq; wf_case H11.
  - destruct k; simplify_eq; destruct fcl; wf_case H11.
  - destruct k, f; simplify_eq; wf_case H11.
  - destruct k, c; simplify_eq; destruct ccl; wf_case H11.
  - destruct k, c; simplify_eq; destruct inc; wf_case H11.
  - force_open k Hn Ha. unfold force_call in He. destruct records, full, a; cbn in He; simplify_eq; wf_case H11.
  - force_open k Hn Ha. destruct records; simplify_eq; wf_case H11.
  - unfold force_check, closed in He. destruct again; cbn in He; [destruct mc | destruct bc]; simplify_eq; force_open k Hn Ha; wf_case H11.
  - unfold force_send, send_flush in He. destruct again; cbn in He; [destruct ms | destruct bs]; simplify_eq; force_open k Hn Ha; destruct fcl; wf_case H11.
  - unfold force_lock, freeze, closed in He. cbn in He. destruct al; simplify_eq. force_open k Hn Ha. destruct a, q; wf_case H11.
  - destruct al; simplify_eq. force_open k Hn Ha. destruct a; cbn in He; simplify_eq; wf_case H11.
  - destruct w, q; simplify_eq. force_open k Hn Ha. wf_case H11.
  - destruct w; simplify_eq. force_open k Hn Ha. wf_case H11.
Qed.

Lemma reachable_workers_wf s : reachable s -> wf s.
Proof. induction 1; [apply wf_started | by eapply workers_exec_wf]. Qed.

(** * Progress *)

Definition flusher_weight (f : flusher_state) : nat :=
  match f with FGone => 0 | FWait => 1 | FPop => 2 | FTSend => 7 | FTrigger => 8 | FFlush => 9 | FCheck => 10 end.
Definition batcher_weight (b : batcher_state) : nat := match b with BGone => 0 | BIdle => 1 | BSend => 12 | BFrozen => 13 end.
Definition compactor_weight (c : compactor_state) : nat := match c with CGone => 0 | CWait => 1 | CRun => 3 end.
Definition closer_weight (dirty : bool) (k : closer_state) : nat :=
  match k with
  | KOpen => 0 | KStop => 61 | KOwn => 60 | KLoop => if dirty then 40 else 10 | KNotify => 23 | KWait => 12
  | KShut => 9 | KJoin => 8 | KShutC => 7 | KJoinC => 6 | KDone => 0
  end.

Definition dirty (s : workers) : bool := match pendingFlush s with O => active s | _ => true end.

Definition forcers_weight (f : forcers) : nat :=
  (38 * bCheck f + 37 * bSend f + 25 * atLock f + 13 * mCheck f + 12 * mSend f + waiting f)%nat.

Definition weight (s : workers) : nat :=
  (10 * pendingFlush s + 10 * flushCh s + 4 * compactCh s + flusher_weight (flusher s) + batcher_weight (batcher s) +
   compactor_weight (compactor s) + closer_weight (dirty s) (closer s) + forcers_weight (forcing s))%nat.

Lemma signal_le n : (signal n <= S n)%nat.
Proof. unfold signal. destruct (n <? capacity)%nat; lia. Qed.

Lemma closer_weight_dirty d d' k : (d' = true -> d = true) -> (closer_weight d' k <= closer_weight d k)%nat.
Proof. destruct d, d', k; cbn; try lia; intros Hd; by specialize (Hd eq_refl). Qed.

Lemma internal_allowed l s : internal l = true -> allowed l s = true.
Proof. by destruct l. Qed.

Lemma exec_weight_workers l s s' : wf s -> internal l = true -> exec l s = Some s' -> (weight s' < weight s)%nat.
Proof.
  intros Hwf Hi He. pose proof (wf_quiet s' (workers_exec_wf l s s' Hwf (internal_allowed l s Hi) He)) as Hp.
  pose proof (wf_flushing s Hwf) as Hfl. pose proof (wf_frozen s Hwf) as Hfr. pose proof (wf_quiet s Hwf) as Hq. pose proof (wf_patient s Hwf) as Ht. pose proof (wf_forcing s Hwf) as Hn.
  pose proof (signal_le (flushCh s)) as Hf. pose proof (signal_le (compactCh s)) as Hc. clear Hwf.
  destruct s as [q a fc fcl cc ccl b f c k inc t [bc bs al mc ms w] p]. cbn in *. subst p t.
  destruct l; try done; cbn in He; unfold send_flush, send_compact, close_flush, close_compact, close_turn, end_shutdown, freeze, closed in He; cbn in He.
  - destruct b; simplify_eq. unfold weight, dirty. cbn. destruct k; cbn; lia.
  - destruct b, fcl; simplify_eq/=. unfold weight, dirty. cbn. lia.
  - destruct b, k; simplify_eq. unfold weight, dirty. cbn. lia.
  - destruct f, fc; simplify_eq. unfold weight, dirty. cbn -[Nat.mul]. lia.
  - destruct f, fc, fcl; simplify_eq. unfold weight, dirty. cbn. lia.
  - destruct f; simplify_eq. unfold weight, dirty. cbn. destruct q; cbn; lia.
  - destruct f; simplify_eq. unfold weight, dirty. cbn. lia.
  - destruct f; simplify_eq. unfold weight, dirty. cbn. destruct k, enough; cbn; lia.
  - destruct f, ccl; simplify_eq/=. unfold weight, dirty. cbn. lia.
  - destruct f; simplify_eq. destruct q as [|q]; [specialize (Hfl eq_refl); lia|]. unfold weight, dirty. cbn [pendingFlush pred closer active].
    pose proof (closer_weight_dirty true (match q with O => a | _ => true end) k ltac:(done)). cbn -[closer_weight]. lia.
  - destruct c, cc; simplify_eq. unfold weight, dirty. cbn -[Nat.mul]. lia.
  - destruct c, cc, ccl; simplify_eq. unfold weight, dirty. cbn. lia.
  - destruct c; simplify_eq. unfold weight, dirty. cbn. lia.
  - destruct k, b; simplify_eq. unfold weight, dirty. cbn. lia.
  - destruct k; simplify_eq. unfold weight, dirty. destruct records, full, a, q; cbn; lia.
  - destruct k; simplify_eq. unfold weight, dirty. destruct q, a; cbn; lia.
  - destruct k, fcl; simplify_eq/=. unfold weight, dirty. cbn. lia.
  - destruct k, q; simplify_eq. rewrite Hfr by tauto. unfold weight, dirty. cbn. lia.
  - destruct k, fcl; simplify_eq/=. unfold weight, dirty. cbn. lia.
  - destruct k, f; simplify_eq. unfold weight, dirty. cbn. lia.
  - destruct k, c, ccl; simplify_eq/=; unfold weight, dirty; cbn; lia.
  - destruct k, c; simplify_eq. unfold weight, dirty. destruct inc; cbn; lia.
  - unfold force_check, closed in He. destruct again; cbn in He; [destruct mc | destruct bc]; simplify_eq; force_open k Hn Hi; unfold weight, dirty; cbn; lia.
  - unfold force_send, send_flush in He. destruct again; cbn in He; [destruct ms | destruct bs]; simplify_eq; force_open k Hn Hi; destruct fcl; simplify_eq/=; unfold weight, dirty; cbn; lia.
  - unfold force_lock, freeze, closed in He. cbn in He. destruct al; simplify_eq. force_open k Hn Hi. unfold weight, dirty. destruct a, q; cbn; lia.
  - destruct w, q; simplify_eq. force_open k Hn Hi. unfold weight, dirty. cbn. lia.
Qed.

Lemma workers_run_weight ls : forall s s', wf s -> forallb internal ls = true -> run ls s = Some s' -> (length ls <= weight s)%nat.
Proof.
  induction ls as [|l ls IH]; intros s s' Hwf Hi Hr; cbn -[weight] in *; [lia|]. apply andb_prop in Hi as [Hl Hi].
  destruct (exec l s) as [s1|] eqn:He; [|done]. pose proof (exec_weight_workers l s s1 Hwf Hl He).
  assert (length ls <= weight s1)%nat; [|lia]. eapply IH; [eapply workers_exec_wf; [done | by apply internal_allowed | done] | done..].
Qed.

(** The flusher is asleep with an empty channel, or gone; likewise the other two. *)
Lemma resting_flusher s : wf s -> resting s -> (flusher s = FWait /\ flushCh s = 0%nat /\ flushClosed s = false) \/ flusher s = FGone.
Proof.
  intros Hwf Hrest. pose proof (wf_quiet s Hwf) as Hq. destruct (flusher s) eqn:Hf; [left|exfalso..|by right].
  - pose proof (Hrest FlusherTake eq_refl) as H1. pose proof (Hrest FlusherEnd eq_refl) as H2. unfold exec in H1, H2. rewrite Hq, Hf in H1, H2.
    destruct (flushCh s); [|done]. by destruct (flushClosed s).
  - pose proof (Hrest FlusherLook eq_refl) as H. unfold exec in H. by rewrite Hq, Hf in H.
  - pose proof (Hrest FlushOk eq_refl) as H. unfold exec in H. by rewrite Hq, Hf in H.
  - pose proof (Hrest (TriggerCheck true) eq_refl) as H. unfold exec in H. by rewrite Hq, Hf in H.
  - pose proof (Hrest TriggerSend eq_refl) as H. unfold exec in H. by rewrite Hq, Hf in H.
  - pose proof (Hrest FlusherPop eq_refl) as H. unfold exec in H. by rewrite Hq, Hf in H.
Qed.

Lemma resting_compactor s : wf s -> resting s -> (compactor s = CWait /\ compactClosed s = false) \/ compactor s = CGone.
Proof.
  intros Hwf Hrest. pose proof (wf_quiet s Hwf) as Hq. destruct (compactor s) eqn:Hc; [left|exfalso|by right].
  - pose proof (Hrest CompactorTake eq_refl) as H1. pose proof (Hrest CompactorEnd eq_refl) as H2. unfold exec in H1, H2. rewrite Hq, Hc in H1, H2.
    destruct (compactCh s); [|done]. by destruct (compactClosed s).
  - pose proof (Hrest CompactorDone eq_refl) as H. unfold exec in H. by rewrite Hq, Hc in H.
Qed.

Lemma resting_batcher s : wf s -> resting s -> batcher s = BIdle \/ batcher s = BGone.
Proof.
  intros Hwf Hrest. pose proof (wf_quiet s Hwf) as Hq. destruct (batcher s) eqn:Hb; [by left|exfalso|exfalso|by right].
  - pose proof (Hrest NotifyCheck eq_refl) as H. unfold exec in H. by rewrite Hq, Hb in H.
  - pose proof (Hrest NotifySend eq_refl) as H. unfold exec in H. by rewrite Hq, Hb in H.
Qed.

(** Nobody is about to signal the flusher. *)
Lemma resting_notifying s : wf s -> resting s -> notifying (forcing s) = 0%nat.
Proof.
  intros Hwf Hrest. pose proof (wf_quiet s Hwf) as Hq.
  pose proof (Hrest (ForceCheck false) eq_refl) as H1. pose proof (Hrest (ForceCheck true) eq_refl) as H2.
  pose proof (Hrest (ForceSend false) eq_refl) as H3. pose proof (Hrest (ForceSend true) eq_refl) as H4.
  unfold exec, force_check, force_send in *. rewrite Hq in *. by destruct (forcing s) as [[] [] ? [] [] ?].
Qed.

(** At rest the queue is empty, unless [Close] has given up on it. *)
Lemma resting_queue s : wf s -> resting s -> closer_rank (closer s) = 0%nat \/ (5 <= closer_rank (closer s))%nat ->
  pendingFlush s = 0%nat \/ incomplete s = true.
Proof.
  intros Hwf Hrest Hk. destruct (wf_wake s Hwf) as [?|[Hw|[Hw|[Hw|[Hw|[Hw|[Hw|[?|Hw]]]]]]]]; [tauto| | | | | |lia|tauto|].
  - destruct (resting_flusher s Hwf Hrest) as [(_ & H0 & _)|Hg]; [lia|].
    destruct (wf_flusher s Hwf) as [_ Hr]. specialize (Hr Hg).
    destruct (wf_drained s Hwf) as [?|[? _]]; [lia|tauto..].
  - destruct (resting_flusher s Hwf Hrest) as [(H0 & _)|Hg]; congruence.
  - destruct (resting_flusher s Hwf Hrest) as [(H0 & _)|Hg]; [rewrite H0 in Hw | rewrite Hg in Hw]; done.
  - destruct (resting_batcher s Hwf Hrest); congruence.
  - destruct (resting_batcher s Hwf Hrest); congruence.
  - rewrite (resting_notifying s Hwf Hrest) in Hw. lia.
Qed.

Lemma resting_closer s : wf s -> resting s -> closer s = KOpen \/ closer s = KDone.
Proof.
  intros Hwf Hrest. pose proof (wf_quiet s Hwf) as Hq. destruct (closer s) eqn:Hk; [by left|exfalso..|by right].
  - destruct (resting_batcher s Hwf Hrest) as [Hb|Hb].
    + pose proof (Hrest BatchStop eq_refl) as H. unfold exec in H. by rewrite Hq, Hb, Hk in H.
    + pose proof (Hrest CloseJoinBatch eq_refl) as H. unfold exec in H. by rewrite Hq, Hb, Hk in H.
  - pose proof (Hrest (CloseOwn false false) eq_refl) as H. unfold exec in H. by rewrite Hq, Hk in H.
  - pose proof (Hrest CloseLoop eq_refl) as H. unfold exec in H. by rewrite Hq, Hk in H.
  - pose proof (Hrest CloseNotify eq_refl) as H. unfold exec in H. by rewrite Hq, Hk in H.
  - pose proof (Hrest CloseDrained eq_refl) as H. unfold exec in H. rewrite Hq, Hk in H.
    destruct (resting_queue s Hwf Hrest) as [E|E]; [rewrite Hk; cbn; lia | by rewrite E in H |].
    pose proof (wf_given_up s Hwf E). rewrite Hk in *. cbn in *. lia.
  - pose proof (Hrest CloseFlushCh eq_refl) as H. unfold exec in H. by rewrite Hq, Hk in H.
  - destruct (resting_flusher s Hwf Hrest) as [(_ & _ & Hc)|Hg].
    + assert (Hc' : flushClosed s = true) by (apply (wf_flushClosed s Hwf); rewrite Hk; cbn; lia). congruence.
    + pose proof (Hrest CloseJoin eq_refl) as H. unfold exec in H. by rewrite Hq, Hk, Hg in H.
  - pose proof (Hrest CloseCompactCh eq_refl) as H. unfold exec in H. rewrite Hq, Hk in H.
    by destruct (resting_compactor s Hwf Hrest) as [[E _]|E]; rewrite E in H.
  - destruct (resting_compactor s Hwf Hrest) as [[_ Hc]|Hg].
    + assert (Hc' : compactClosed s = true) by (apply (wf_compactClosed s Hwf); rewrite Hk; cbn; lia). congruence.
    + pose proof (Hrest CloseJoinC eq_refl) as H. unfold exec in H. by rewrite Hq, Hk, Hg in H.
Qed.

(** At rest no [ForceMemtableFlush] is under way. *)
Lemma resting_forcers s : wf s -> resting s -> forcing s = nobody.
Proof.
  intros Hwf Hrest. destruct (resting_closer s Hwf Hrest) as [Hk|Hk]; [|apply (wf_forcing s Hwf); rewrite Hk; cbn; lia].
  pose proof (wf_quiet s Hwf) as Hq. pose proof (resting_notifying s Hwf Hrest) as Hn.
  destruct (resting_queue s Hwf Hrest) as [Hp|Hp]; [rewrite Hk; by left| |pose proof (wf_given_up s Hwf Hp); rewrite Hk in *; cbn in *; lia].
  pose proof (Hrest ForceLock eq_refl) as H1. pose proof (Hrest ForceDrained eq_refl) as H2.
  unfold exec, force_lock in *. rewrite Hq, ?Hp in *. unfold notifying in Hn.
  destruct (forcing s) as [[] [] [] [] [] []]; cbn in *; by try lia.
Qed.

(** C6: In every interleaving of the goroutines with [Close] and with callers of
    [ForceMemtableFlush], also when flushes fail, when the size of the log cannot be read
    and when the queue takes too long, nobody sends on a closed channel and none is closed
    twice: provided the goroutines that [Close] waits for end in time, no
    [ForceMemtableFlush] is under way when [Close] is called, and none is called after it
    ([allowed]; without it, see [late_worker_panics] and [forced_flush_panics]).  When
    flushes succeed and compactions end, what is under way ends after at most [weight]
    actions; then no frozen memtable is left behind, however many signals were dropped, no
    caller of [ForceMemtableFlush] waits, and [Close], if it was called, has returned, with
    everything in tables unless it gave up, and no goroutine left. *)
Theorem workers_shut_down s : reachable s ->
  panicked s = false /\
  (forall ls s', forallb internal ls = true -> run ls s = Some s' -> (length ls <= weight s)%nat) /\
  (resting s ->
     (incomplete s = false -> pendingFlush s = 0%nat) /\ forcing s = nobody /\
     (closed s = true ->
        closer s = KDone /\ batcher s = BGone /\ flusher s = FGone /\ compactor s = CGone /\ (incomplete s = false -> active s = false))).
Proof.
  intros Hr. pose proof (reachable_workers_wf s Hr) as Hwf. split; [apply Hwf|]. split; [intros ls s'; by apply workers_run_weight|].
  intros Hrest. destruct (resting_closer s Hwf Hrest) as [Hk|Hk].
  - split; [|split; [by apply resting_forcers | by unfold closed; rewrite Hk]].
    intros Hi. destruct (resting_queue s Hwf Hrest) as [?|?]; [rewrite Hk; by left | done | congruence].
  - destruct (wf_drained s Hwf) as [Hd|[Hd Ha]]; [rewrite Hk; cbn; lia| |].
    all: split; [intros; congruence|]; split; [by apply resting_forcers|]; intros _; split_and!; [done | | | by apply wf_done | intros; congruence].
    all: first [destruct (wf_batcher s Hwf) as [?|Hb]; [done | rewrite Hk in Hb; cbn in Hb; lia] | apply (wf_flusher s Hwf); rewrite Hk; cbn; lia].
Qed.

(** The actions of a sequence are all [allowed] where they happen. *)
Fixpoint disciplined (ls : list label) (s : workers) : bool :=
  match ls with
  | [] => true
  | l :: ls' => allowed l s && match exec l s with Some s' => disciplined ls' s' | None => false end
  end.

Lemma reachable_workers_run ls : forall s s', reachable s -> disciplined ls s = true -> run ls s = Some s' -> reachable s'.
Proof.
  induction ls as [|l ls IH]; intros s s' Hr Hd Hrun; cbn in *; [by simplify_eq|]. apply andb_prop in Hd as [Hl Hd].
  destruct (exec l s) as [s1|] eqn:He; [|done]. by eapply IH; [eapply reach_step|..].
Qed.

(** Two memtables are frozen, one of them by [ForceMemtableFlush], the first flush fails
    once, and [Close] comes between them. *)
Definition demo_run : list label :=
  [Apply; ForceCall true false; ForceLock; ForceCheck true; ForceSend true; FlusherTake; FlusherLook; FlushFails; FlusherLook; Apply; Freeze;
   ForceTimeout; CallClose; NotifyCheck; FlushOk;
   TriggerCheck true; FlusherPop; BatchStop; CloseJoinBatch; CloseOwn true false; CloseLoop; CloseNotify].
Definition demo_state : workers := default (started false) (run demo_run (started false)).
Definition demo_rest : list label :=
  [FlusherLook; FlushOk; TriggerCheck true; FlusherPop; FlusherLook; FlushOk; TriggerCheck false; FlusherPop; FlusherLook; CloseDrained; CloseLoop;
   CloseFlushCh; FlusherTake; FlusherLook; FlusherEnd; CloseJoin; CloseCompactCh; CompactorEnd; CloseJoinC].

Lemma workers_shut_down_witness : exists s, run demo_rest demo_state = Some s /\ closer s = KDone /\ (length demo_rest <= weight demo_state)%nat.
Proof.
  assert (Hr : reachable demo_state).
  { apply (reachable_workers_run demo_run (started false)); [apply reach_started | vm_compute; reflexivity..]. }
  destruct (workers_shut_down demo_state Hr) as (_ & Hl & _).
  destruct (run demo_rest demo_state) as [s|] eqn:E; [|by vm_compute in E].
  exists s. split; [reflexivity|]. split; [vm_compute in E; by simplify_eq | exact (Hl demo_rest s eq_refl E)].
Defined.

(** * What the discipline excludes *)

(** [Close] loses its patience with a compaction.  [abortClose] then closes [flushCh] a
    second time, although nothing else went wrong and the queue is empty. *)
Definition late_worker : list label :=
  [CallClose; BatchStop; CloseJoinBatch; CloseOwn false false; CloseLoop; CloseFlushCh; FlusherEnd; CloseJoin; CloseCompactCh; CompactorTake;
   JoinTimeoutC; CloseFlushCh].

Theorem late_worker_panics : exists s, run late_worker (started true) = Some s /\ panicked s = true /\ pendingFlush s = 0%nat /\ active s = false.
Proof. eexists. split; [vm_compute; reflexivity | done]. Qed.

(** A memtable has been frozen by [ForceMemtableFlush] and the check of [signalFlush] is
    over when [Close] is called; it signals itself, the memtable is flushed, the channel
    closed, and the send comes too late. *)
Definition late_send : list label :=
  [Apply; ForceCall false false; ForceLock; ForceCheck true; CallClose; BatchStop; CloseJoinBatch; CloseOwn false false; CloseLoop; CloseNotify;
   FlusherTake; FlusherLook; FlushOk; TriggerCheck false; FlusherPop; FlusherLook; CloseDrained; CloseLoop; CloseFlushCh; ForceSend true].

Theorem forced_flush_panics : exists s, run late_send (started false) = Some s /\ panicked s = true.
Proof. eexists. split; [vm_compute; reflexivity | done]. Qed.

End DbWorkers.
