(* ===== verification/Demo.v ===== *)
(** Concrete handles: small programs run from an empty directory.  They serve as
    instances of the theorems and as the runs that show where the code departs from
    its contract. *)

From Stdlib Require Import ZArith Lia.
From S2P Require Import Prelude Word Fs GoStr Memtable Wal Manifest Bloom SstFormat SstWriter SstReader.
From S2P Require Import MergeIter SstMerge SstTable DbState DbFlush DbWrite DbRead DbScan DbCompact DbOpen.
From S2P Require Import DbRecover DbInv DbFlushSpec DbCompactSpec.

(** The sizes [bloom.New] computes for the rate 0.01, to three digits: 9.585 bits
    per entry and 7 probes. *)
#[export] Program Instance demo_sizing : BloomSizing :=
  {| bloom_m := fun n => 9585 * n / 1000; bloom_k := fun _ => 7 |}.
Next Obligation.
  intros n Hn. split; [apply Z.div_le_lower_bound; lia|apply Z.div_lt_upper_bound; lia].
Qed.

Module Demo.
Import Db DbFlush DbOpen DbRead DbRecover DbInv DbFlushSpec SstFormat SstWriter SstTable.

Definition no_limits : Wal.ReplayLimits := Wal.mkLimits 0 0 0 0.

(** Memtables of twenty bytes, threshold 2, every write synced. *)
Definition opts : Options := mkOptions "db" 20 2 no_limits true None.

Definition k1 : bytes := [x61].
Definition k2 : bytes := [x62].
Definition v1 : bytes := [x31].
Definition v2 : bytes := [x32; x33].

Definition put_flush (k v : bytes) (d : DB) : io DB :=
  let! (d, _) := DbWrite.Put k v d in
  let! (d, _) := ForceMemtableFlush 3 d in io_ret d.

(** Two tables, one key each. *)
Definition two_tables : io DB :=
  let! d := Open opts None [] in
  let! d := put_flush k1 v1 d in
  put_flush k2 v2 d.

Definition run_db (m : io DB) : option (DB * fsys) :=
  match m (mkWorld ∅ []) with (Ok d, w) => Some (d, fs w) | _ => None end.

Definition empty_handle : DB := empty_db opts [].

Definition db2 : DB := default empty_handle (fst <$> run_db two_tables).
Definition fs2 : fsys := default ∅ (snd <$> run_db two_tables).

Definition tables2 : list (Z * list (list entry)) :=
  [(1, [[Entry k1 v1 false]]); (2, [[Entry k2 v2 false]])].
Definition edits2 : list Manifest.edit := [Manifest.NewFile 1; Manifest.NewFile 2].

(** ** The first handle satisfies the invariant *)

Lemma new_wf_empty coins : Mem.wf (Mem.NewSkipList coins) /\ Mem.contents (Mem.NewSkipList coins) = ∅.
Proof. destruct (Mem.NewSkipList_wf coins) as [H1 H2]. split; [done|]. unfold Mem.contents. by rewrite H2. Qed.

Definition image2 (e : entry) : bytes := image (Bloom.add_all (new_filter 1) [Key e]) [[e]].

Lemma image2_ok e : fits e -> weight [e] < 2 ^ 40 -> sst_image [[e]] (image2 e).
Proof.
  intros Hf Hw. destruct (new_filter_ok 1 ltac:(lia)) as (H1 & H2 & H3). split.
  - by apply Forall_singleton.
  - by repeat constructor.
  - by apply Forall_singleton.
  - exists (new_filter 1). split; [done|]. split; [lia|]. split; [done|]. done.
  - apply (image_size (new_filter 1) [[e]]); [by apply Forall_singleton|done|lia|done].
Qed.

Lemma reader_table f r e : SstReader.r_file r = true -> SstReader.r_fileClosed r = false ->
  SstReader.r_index r = index_of 0 [[e]] -> fits e -> weight [e] < 2 ^ 40 ->
  bytes_at f (SstReader.r_path r) = Some (image2 e) ->
  match SstReader.r_bloom r with None => True | Some b => Bloom.MayContain b (Key e) = true end ->
  SstReader.table f r [[e]].
Proof.
  intros H1 H2 H3 H4 H5 H6 H7. split; try done; [by apply Forall_singleton|by repeat constructor|by apply Forall_singleton|..].
  - by eexists.
  - pose proof (data_weight [[e]]) as Hd. change (concat [[e]]) with [e] in Hd. lia.
  - destruct (SstReader.r_bloom r) as [b|]; [|done]. intros x Hx. apply list_elem_of_singleton in Hx as ->. done.
Qed.

Lemma db2_inv : db_inv db2 fs2 edits2 tables2 [].
Proof.
  assert (Hfit : forall e, zlen (Key e) < 2 ^ 32 -> zlen (Value e) < 2 ^ 32 -> fits e)
    by (intros e A B; split; unfold is_u32; pose proof (zlen_nonneg (Key e)); pose proof (zlen_nonneg (Value e)); lia).
  destruct (new_wf_empty []) as [Hwf Hemp].
  split.
  - split; [|vm_compute; constructor]. replace (active db2) with (Mem.NewSkipList []) by (vm_compute; reflexivity). done.
  - vm_compute. reflexivity.
  - replace (sstables db2) with [0%nat; 1%nat] by (vm_compute; reflexivity).
    unfold tables2. constructor; [|constructor; [|constructor]].
    + destruct (heap db2 !! 0%nat) as [r|] eqn:Er; [|vm_compute in Er; discriminate]. exists r. split; [done|].
      vm_compute in Er. injection Er as <-. split; [reflexivity|]. split; [|split; reflexivity].
      apply reader_table; try (vm_compute; reflexivity). by apply Hfit.
    + destruct (heap db2 !! 1%nat) as [r|] eqn:Er; [|vm_compute in Er; discriminate]. exists r. split; [done|].
      vm_compute in Er. injection Er as <-. split; [reflexivity|]. split; [|split; reflexivity].
      apply reader_table; try (vm_compute; reflexivity). by apply Hfit.
  - constructor; [|constructor; [|constructor]]; (split; [split; [done|vm_compute; reflexivity]|]);
      [exists (image2 (Entry k1 v1 false))|exists (image2 (Entry k2 v2 false))]; (split; [vm_compute; reflexivity|]);
      apply image2_ok; [by apply Hfit|vm_compute; reflexivity|by apply Hfit|vm_compute; reflexivity].
  - eexists. split; [vm_compute; reflexivity|]. cbn [Manifest.path Manifest.file Manifest.liveSet].
    split; [|split; [reflexivity|split; [vm_compute; reflexivity|]]].
    + split; [by vm_compute|]. by exists "000001"%string.
    + split; vm_compute; reflexivity.
  - repeat constructor; vm_compute; congruence.
  - vm_compute. reflexivity.
  - repeat constructor; vm_compute; congruence.
  - vm_compute. reflexivity.
  - vm_compute. reflexivity.
  - constructor.
  - vm_compute. reflexivity.
  - intros E. vm_compute in E. discriminate.
  - exists [], []. split.
    + reflexivity.
    + vm_compute. constructor.
    + vm_compute. discriminate.
    + replace (active db2) with (Mem.NewSkipList []) by (vm_compute; reflexivity). done.
  - apply map_Forall_to_list. vm_compute. repeat constructor.
Qed.

(** ** A handle with a frozen memtable *)

Definition ka : bytes := [x63].
Definition kb : bytes := [x62].
Definition frozen_recs : list entry := [Entry ka (replicate 10 x41) false; Entry kb (replicate 15 x42) false].
Definition tail_rec : entry := Entry k1 [] true.

(** The state after [rec] was written with every write synced. *)
Definition after_write (rec : entry) (s : DB * fsys) : DB * fsys :=
  match DbWrite.writeRecord rec s.1 (mkWorld s.2 []) with
  | (Ok (d, None), w) => (d, fs w)
  | _ => s
  end.

Definition write_ok (rec : entry) (s : DB * fsys) : bool :=
  match DbWrite.writeRecord rec s.1 (mkWorld s.2 []) with
  | (Ok (_, None), mkWorld _ []) => true
  | _ => false
  end.

Lemma after_write_inv rec s es tables logged : db_inv s.1 s.2 es tables logged ->
  syncWrites (cfg s.1) = true -> pendingBatch s.1 = [] -> Wal.admissible (limits_of s.1) rec ->
  write_ok rec s = true ->
  db_inv (after_write rec s).1 (after_write rec s).2 es tables (logged ++ [rec]).
Proof.
  intros Hinv Hs Hb Ha Hok. unfold write_ok in Hok. unfold after_write.
  destruct (DbWrite.writeRecord rec s.1 (mkWorld s.2 [])) as [[[d' [e|]]|e|] [f' [|x fl]]] eqn:Hrun; try done.
  destruct (write_inv rec s.1 s.2 es tables logged d' f' Hinv Hs) as (H1 & _); [|done|].
  { rewrite Hb. by apply Forall_singleton. }
  by rewrite Hb in H1.
Qed.

Definition s3 : DB * fsys := fold_left (fun s rec => after_write rec s) (frozen_recs ++ [tail_rec]) (db2, fs2).
Definition db3 : DB := s3.1.
Definition fs3 : fsys := s3.2.

Lemma db3_inv : db_inv db3 fs3 edits2 tables2 (frozen_recs ++ [tail_rec]).
Proof.
  unfold db3, fs3, s3. cbn [frozen_recs app fold_left].
  apply (after_write_inv _ _ _ _ [_; _]); [|vm_compute; reflexivity|vm_compute; reflexivity|by_decide|vm_compute; reflexivity].
  apply (after_write_inv _ _ _ _ [_]); [|vm_compute; reflexivity|vm_compute; reflexivity|by_decide|vm_compute; reflexivity].
  apply (after_write_inv _ _ _ _ []); [apply db2_inv|vm_compute; reflexivity|vm_compute; reflexivity|by_decide|vm_compute; reflexivity].
Qed.

Definition queued3 : flushQueueEntry := default (mkQueueEntry (active db3) 0 0) (head (pendingFlush db3)).

Lemma db3_queue : pendingFlush db3 = [queued3].
Proof. vm_compute. reflexivity. Qed.

End Demo.
