(* ===== verification/SstProps.v ===== *)
(** What a table file promises the database: it is written whole or not at all, it
    reads back what was written, a read that meets a fault never returns something
    else, and merging tables keeps the newest entry of every key. *)

From Stdlib Require Import ZArith Lia.
From S2P Require Import Prelude Word Fs GoStr Manifest Bloom SstFormat SstWriter SstReader BlockCache.
From S2P Require Import MergeIter SstMerge SstTable DbState DbFlush DbWrite DbRead DbRecover DbInv Demo.

Module SstProps.
Import SstFormat SstWriter SstTable Demo.

Section props.
Context `{BloomSizing}.

(** C21: Writing a table is all or nothing: when [NewWriter] and every [Add] returned nil,
    for entries in key order whose lengths fit into 32 bits, then whatever fails or
    crashes in [Close], either [Close] returns nil and the whole table is durable under
    its name (so that a loss of power keeps every byte of it), or [Close] does not return
    nil and the name is what it was before the writer was made. *)
Theorem table_write_atomic path bsz n es wd w wd1 w1 wd2 f' : 0 < bsz -> 1 <= n -> Forall fits es -> keys_sorted es ->
  SstWriter.NewWriter path bsz n wd = (Ok w, wd1) ->
  SstWriter.add_entries w es wd1 = (Ok (w1, None), wd2) ->
  power_loss (fs (snd (SstWriter.Close w1 wd2))) f' ->
  (exists w' groups, fst (SstWriter.Close w1 wd2) = Ok (w', None) /\ concat groups = es /\
     bytes_at f' path = Some (image (Bloom.add_all (new_filter n) (Key <$> es)) groups)) \/
  ((forall w', fst (SstWriter.Close w1 wd2) <> Ok (w', None)) /\
   fs (snd (SstWriter.Close w1 wd2)) !! path = fs wd !! path).
Proof.
  intros Hb Hn Hf Hs Hnew Hadd Hpl.
  destruct (write_table_any path bsz n es wd w wd1 w1 wd2 Hb Hn Hf Hs Hnew Hadd)
    as [(w' & groups & Hok & Hcat & _ & Hfile)|Hno]; [left|by right].
  exists w', groups. split; [done|]. split; [done|]. eapply Manifest.power_loss_same; [exact Hpl|exact Hfile].
Qed.

(** C22: A table reads back what was written: without faults, writing sorted entries to a
    new table and opening it gives a reader whose [Get] finds exactly the entries,
    deletions among them, and whose [EntryCount] is their number. *)
Theorem table_roundtrip path bsz n es f fileID : 0 < bsz -> 1 <= n < 2 ^ 26 -> Forall fits es -> keys_sorted es ->
  weight es < 2 ^ 40 ->
  exists w f1 w1 f2 w2 f3 r,
    SstWriter.NewWriter path bsz n (mkWorld f []) = (Ok w, mkWorld f1 []) /\
    SstWriter.add_entries w es (mkWorld f1 []) = (Ok (w1, None), mkWorld f2 []) /\
    SstWriter.Close w1 (mkWorld f2 []) = (Ok (w2, None), mkWorld f3 []) /\
    SstReader.OpenReader path fileID (mkWorld f3 []) = (Ok r, mkWorld f3 []) /\
    (forall key, SstReader.Get r key (mkWorld f3 []) = (Ok (SstReader.found (find_entry key es)), mkWorld f3 [])) /\
    SstReader.EntryCount r (mkWorld f3 []) = (Ok (zlen es), mkWorld f3 []).
Proof.
  intros Hb Hn Hf Hs Hw.
  destruct (write_table_quiet path bsz n es f Hb Hn Hf Hs Hw)
    as (w & f1 & w1 & f2 & w2 & f3 & groups & bs & Hnew & Hadd & Hcl & Hcat & Hfile & [Hbl Hso Hfi (b0 & Hwf & Hm & Hk & ->) Hz] & _).
  destruct (reads_quiet _ f3 _ (SstReader.OpenReader_reads b0 groups Hbl Hso Hfi Hwf Hm Hk Hz (mkWorld f3 []) path fileID
    ltac:(unfold bytes_at; cbn; by rewrite Hfile))) as (r & Hr & Ht & _).
  exists w, f1, w1, f2, w2, f3, r. repeat (split; [done|]). rewrite <- Hcat. split.
  - intros key. by destruct (reads_quiet _ f3 _ (SstReader.Get_reads (mkWorld f3 []) r groups key Ht)) as (x & -> & ->).
  - by apply SstReader.EntryCount_quiet.
Qed.

(** C23: A read that meets a fault reports it: whatever the schedule of faults, [Get] on an
    open table leaves the directory alone, and the result it returns without an error
    is the right one; no error comes without a fault. *)
Theorem reader_never_wrong w r groups key : SstReader.table (fs w) r groups ->
  fs (snd (SstReader.Get r key w)) = fs w /\
  match fst (SstReader.Get r key w) with
  | Ok x => x = SstReader.found (find_entry key (concat groups))
  | _ => faults w <> []
  end.
Proof. intros Ht. by destruct (SstReader.Get_reads w r groups key Ht) as (H1 & _ & H2). Qed.

(** C24: Merging tables, oldest first, writes the newest entry of every key in key order:
    what is added to the writer is the reference merge, which is sorted and answers
    every key like the newest table that has it, without its deletions unless they
    are to be kept.  This holds without faults, for tables that hold no empty key, and a
    writer whose temporary file is none of them. *)
Theorem merge_is_newest f readers groupss w keep : readers <> [] ->
  Forall2 (SstReader.table f) readers groupss ->
  Forall (fun r => SstWriter.tmpPath w <> SstReader.r_path r) readers ->
  Forall (fun groups => Forall (fun e => Key e <> []) (concat groups)) groupss ->
  exists es, SstMerge.mergeReaders readers w keep (mkWorld f []) =
      SstWriter.add_entries w (Merge.visible (negb keep) es) (mkWorld f []) /\
    keys_sorted es /\
    forall k, find_entry k es = SstMerge.find_newest k (@concat entry <$> groupss).
Proof.
  intros Hne HF Hp Hk. exists (Merge.merged (SstMerge.sources_of (@concat entry <$> groupss))). split.
  - by apply SstMerge.mergeReaders_quiet.
  - assert (Hs : Forall keys_sorted (@concat entry <$> groupss)).
    { apply Forall_fmap, Forall_forall. intros g Hg. apply list_elem_of_lookup in Hg as [i Hi].
      destruct (Forall2_lookup_r _ _ _ _ _ HF Hi) as (r & _ & Ht). apply (SstReader.t_sorted _ _ _ Ht). }
    destruct (Merge.merged_spec _ (SstMerge.sources_ok _ Hs)) as [H1 H2]. split; [done|].
    intros k. by rewrite H2, SstMerge.best_newest.
Qed.

End props.

(** ** Instances *)

Definition two : list entry := [Entry [x61] [x31; x32] false; Entry [x62] [] true].
Definition sst1 : string := GoStr.sstFilePath 1.

Lemma two_fits : Forall fits two.
Proof. repeat apply Forall_cons_2; [split; vm_compute; split; congruence..|constructor]. Qed.

(** The rename fails: the table does not appear. *)
Definition rename_fails : World := mkWorld ∅ (replicate 5 NoFault ++ [Fail (os_error 5) 0]).
Definition writer0 := SstWriter.NewWriter sst1 64 2 rename_fails.

Lemma table_write_atomic_witness : exists w wd1 w1 wd2,
  writer0 = (Ok w, wd1) /\ SstWriter.add_entries w two wd1 = (Ok (w1, None), wd2) /\
  ((exists w' groups, fst (SstWriter.Close w1 wd2) = Ok (w', None) /\ concat groups = two /\
      bytes_at (lose_unsynced (fs (snd (SstWriter.Close w1 wd2)))) sst1 =
        Some (image (Bloom.add_all (new_filter 2) (Key <$> two)) groups)) \/
   ((forall w', fst (SstWriter.Close w1 wd2) <> Ok (w', None)) /\
    fs (snd (SstWriter.Close w1 wd2)) !! sst1 = fs rename_fails !! sst1)).
Proof.
  eexists _, _, _, _. split; [vm_compute; reflexivity|]. split; [vm_compute; reflexivity|].
  eapply (table_write_atomic sst1 64 2 two rename_fails).
  - lia.
  - lia.
  - apply two_fits.
  - by_decide.
  - vm_compute. reflexivity.
  - vm_compute. reflexivity.
  - apply power_loss_extremes. by_decide.
Defined.

Lemma table_roundtrip_witness :
  exists w f1 w1 f2 w2 f3 r,
    SstWriter.NewWriter sst1 4 2 (mkWorld ∅ []) = (Ok w, mkWorld f1 []) /\
    SstWriter.add_entries w two (mkWorld f1 []) = (Ok (w1, None), mkWorld f2 []) /\
    SstWriter.Close w1 (mkWorld f2 []) = (Ok (w2, None), mkWorld f3 []) /\
    SstReader.OpenReader sst1 7 (mkWorld f3 []) = (Ok r, mkWorld f3 []) /\
    (forall key, SstReader.Get r key (mkWorld f3 []) = (Ok (SstReader.found (find_entry key two)), mkWorld f3 [])) /\
    SstReader.EntryCount r (mkWorld f3 []) = (Ok (zlen two), mkWorld f3 []).
Proof.
  apply (table_roundtrip sst1 4 2 two ∅ 7); [lia|lia|apply two_fits|by_decide|vm_compute; reflexivity].
Defined.

(** The readers of the two tables of the demo handle. *)
Lemma demo_readers : exists r1 r2, DbRead.DbRead.deref db2 (Db.sstables db2) = [r1; r2] /\
  Forall2 (SstReader.table fs2) [r1; r2] [[[Entry k1 v1 false]]; [[Entry k2 v2 false]]].
Proof.
  pose proof (DbInv.di_tables _ _ _ _ _ db2_inv) as HF. unfold DbRead.DbRead.deref.
  apply Forall2_cons_inv_r in HF as (p1 & ps & (r1 & H1 & _ & T1 & _) & HF & E1).
  apply Forall2_cons_inv_r in HF as (p2 & ps' & (r2 & H2 & _ & T2 & _) & HF & E2).
  apply Forall2_nil_inv_r in HF as ->. rewrite E1, E2. exists r1, r2. csimpl. rewrite H1, H2. split; [done|]. constructor; [exact T1|constructor; [exact T2|constructor]].
Qed.

Lemma reader_never_wrong_witness : exists r, let w := mkWorld fs2 [NoFault; Fail (os_error 5) 0] in
  SstReader.table (fs w) r [[Entry k1 v1 false]] /\
  fs (snd (SstReader.Get r k1 w)) = fs w /\
  match fst (SstReader.Get r k1 w) with
  | Ok x => x = SstReader.found (find_entry k1 (concat [[Entry k1 v1 false]]))
  | _ => faults w <> []
  end.
Proof.
  destruct demo_readers as (r1 & r2 & _ & HF). apply Forall2_cons in HF as [Ht _]. exists r1. intros w.
  split; [exact Ht|]. apply (reader_never_wrong w r1 [[Entry k1 v1 false]] k1). exact Ht.
Defined.

Lemma merge_is_newest_witness : exists r1 r2 w wd, SstWriter.NewWriter (GoStr.sstFilePath 3) 64 2 (mkWorld fs2 []) = (Ok w, wd) /\
  exists es, SstMerge.mergeReaders [r1; r2] w false (mkWorld fs2 []) =
      SstWriter.add_entries w (Merge.visible (negb false) es) (mkWorld fs2 []) /\
    keys_sorted es /\
    forall k, find_entry k es = SstMerge.find_newest k (@concat entry <$> [[[Entry k1 v1 false]]; [[Entry k2 v2 false]]]).
Proof.
  destruct demo_readers as (r1 & r2 & Hd & HF). exists r1, r2. eexists _, _. split; [vm_compute; reflexivity|].
  apply (merge_is_newest fs2 [r1; r2] [[[Entry k1 v1 false]]; [[Entry k2 v2 false]]]).
  - discriminate.
  - exact HF.
  - vm_compute in Hd. injection Hd as <- <-. by_decide.
  - by_decide.
Defined.

#[local] Existing Instance BlockCache.list_lru.

Definition g1 : list (list entry) := [[Entry k1 v1 false]].
Definition g2 : list (list entry) := [[Entry k2 v2 false]].

Lemma cached_read_refines_witness : exists r1 r2 e,
  SstReader.r_index r1 !! 0%nat = Some e /\
  let w := mkWorld fs2 [Fail (os_error 5) 0] in
  reads (BlockCache.readBlock (Some (BlockCache.NewBlockCache 0)) r1 (Offset e) (Length e)) w
    (fun x => BlockCache.cache_ok x.1 [(r1, g1); (r2, g2)] /\
              match x.2 with inl v => v = block_of [Entry k1 v1 false] | inr _ => faults w <> [] end).
Proof.
  destruct demo_readers as (r1 & r2 & Hd & HF). pose proof HF as [Ht _]%Forall2_cons.
  exists r1, r2. eexists. split; [by rewrite (SstReader.t_index _ _ _ Ht)|]. intros w.
  eapply (BlockCache.cached_read_refines w (Some (BlockCache.NewBlockCache 0)) [(r1, g1); (r2, g2)] r1 g1 0%nat).
  - destruct (BlockCache.NewBlockCache_inv 0) as (l & Hl & He); [by left|]. exists l. split; [exact Hl|].
    apply Forall_forall. intros x _ i g e v _ _ Hin. rewrite He in Hin. exact (False_ind _ (not_elem_of_nil _ Hin)).
  - constructor.
  - assert (Hid : SstReader.r_fileID r1 <> SstReader.r_fileID r2) by (vm_compute in Hd; injection Hd as <- <-; discriminate).
    intros x y Hx Hy E. set_unfold in Hx. set_unfold in Hy.
    destruct Hx as [->|[->|[]]], Hy as [->|[->|[]]]; cbn in E; congruence.
  - exact Ht.
  - reflexivity.
  - by rewrite (SstReader.t_index _ _ _ Ht).
Defined.

End SstProps.
