(* ===== verification/DbProps.v ===== *)
(** What the database promises its callers: writes become visible at once, survive a
    loss of power once they are acknowledged and synced, reads and scans answer from
    the contents, and the background work keeps the contents. *)

From Stdlib Require Import ZArith Lia.
From S2P Require Import Prelude Word Fs GoStr Memtable Wal Manifest Bloom SstFormat SstWriter SstReader.
From S2P Require Import MergeIter SstMerge SstTable DbState DbFlush DbWrite DbRead DbScan DbCompact DbOpen.
From S2P Require Import DbRecover DbInv DbFlushSpec DbCompactSpec DbCloseSpec DbCrash Demo.

Module DbProps.
Import Db DbFlush DbOpen DbRead DbScan DbRecover DbInv DbFlushSpec DbCompactSpec DbCloseSpec DbCrash Demo.

(** * Durability *)

(** Opening what a loss of power left of a handle in which [rest] of the batch was
    not yet logged. *)
Lemma reopen_after_commit opts coins d f es tables logged fl f' : db_inv d f es tables logged ->
  Forall (Wal.admissible (limits_of d)) (pendingBatch d) ->
  zlen (Wal.wires (logged ++ pendingBatch d)) <= Wal.MaxFileSize (limits_of d) ->
  power_loss (fs (snd (DbWrite.flushPendingBatch d (mkWorld f fl)))) f' ->
  Dir opts <> ""%string -> walLimits (config_of opts) = walLimits (cfg d) ->
  exists got rest d2 f2, pendingBatch d = got ++ rest /\
    (forall d', fst (DbWrite.flushPendingBatch d (mkWorld f fl)) = Ok (d', None) -> rest = []) /\
    Open opts None coins (mkWorld f' []) = (Ok d2, mkWorld f2 []) /\
    db_inv d2 f2 es tables (logged ++ got) /\ closed d2 = false /\
    contents d2 tables.*2 = log_layer got ∪ (log_layer logged ∪ disk_layer tables.*2).
Proof.
  intros Hinv Ha Hsize Hpl Hdir Hlim.
  destruct (commit_power_loss d f es tables logged fl f' Hinv Ha Hsize Hpl)
    as (name & got & rest & Hsplit & Hdone & Hod & Hset & Hck).
  destruct (settled_opened opts coins d f es tables logged (logged ++ got) name f' Hdir Hinv Hlim Hod Hset Hck)
    as (d2 & f2 & Ho & Hinv2 & _ & Hc2 & Hcont).
  exists got, rest, d2, f2. repeat (split; [done|]). by rewrite Hcont, (contents_split d f es tables logged).
Qed.

(** C2: Wherever a group commit is interrupted and whatever the disk then loses, opening
    the directory again gives the contents of the log with a prefix of the batch,
    oldest record first.  This holds for a consistent handle ([db_inv]: in particular no
    wal.flush is left in the directory), a batch of records within the limits of the log,
    a log that is within [MaxFileSize] with them, and the same limits at reopening
    (without these: [DbFindings.stale_checkpoint_loses_synced_write] and
    [DbFindings.acknowledged_writes_prevent_open]). *)
Theorem commit_crash_recovers_prefix opts coins d f es tables logged fl f' : db_inv d f es tables logged ->
  Forall (Wal.admissible (limits_of d)) (pendingBatch d) ->
  zlen (Wal.wires (logged ++ pendingBatch d)) <= Wal.MaxFileSize (limits_of d) ->
  power_loss (fs (snd (DbWrite.flushPendingBatch d (mkWorld f fl)))) f' ->
  Dir opts <> ""%string -> walLimits (config_of opts) = walLimits (cfg d) ->
  exists got rest d2 f2, pendingBatch d = got ++ rest /\
    Open opts None coins (mkWorld f' []) = (Ok d2, mkWorld f2 []) /\
    db_inv d2 f2 es tables (logged ++ got) /\
    contents d2 tables.*2 = log_layer got ∪ (log_layer logged ∪ disk_layer tables.*2).
Proof.
  intros Hinv Ha Hsize Hpl Hdir Hlim.
  destruct (reopen_after_commit opts coins d f es tables logged fl f' Hinv Ha Hsize Hpl Hdir Hlim)
    as (got & rest & d2 & f2 & H1 & _ & H2 & H3 & _ & H4). by exists got, rest, d2, f2.
Qed.

Lemma enqueue_contents rec d tables :
  contents (DbWrite.enqueue rec d) tables = <[Key rec := cell rec]> (contents d tables).
Proof. unfold contents. rewrite DbWrite.enqueue_layer. by rewrite <- insert_union_l. Qed.

(** C1: With [SyncWrites] set, a [Put] or [Delete] that returned nil survives any loss of
    power: opening the directory again gives the contents the handle had, with the
    record as the newest word on its key.  This holds for a consistent handle ([db_inv]:
    in particular no wal.flush is left in the directory), records within the limits of the
    log, a log that is within [MaxFileSize] with them, and the same limits at reopening. *)
Theorem write_survives_power_loss rec d f es tables logged fl d' opts coins f' :
  db_inv d f es tables logged -> syncWrites (cfg d) = true ->
  Forall (Wal.admissible (limits_of d)) (pendingBatch d ++ [rec]) ->
  zlen (Wal.wires (logged ++ pendingBatch d ++ [rec])) <= Wal.MaxFileSize (limits_of d) ->
  fst (DbWrite.writeRecord rec d (mkWorld f fl)) = Ok (d', None) ->
  power_loss (fs (snd (DbWrite.writeRecord rec d (mkWorld f fl)))) f' ->
  Dir opts <> ""%string -> walLimits (config_of opts) = walLimits (cfg d) ->
  exists d2 f2, Open opts None coins (mkWorld f' []) = (Ok d2, mkWorld f2 []) /\
    db_inv d2 f2 es tables (logged ++ pendingBatch d ++ [rec]) /\
    contents d2 tables.*2 = <[Key rec := cell rec]> (contents d tables.*2).
Proof.
  intros Hinv Hsync Ha Hsize Hok Hpl Hdir Hlim. 
  pose proof (write_commits _ _ _ _ Hsync Hok) as Erun. rewrite Erun in Hok, Hpl.
  pose proof (enqueue_inv rec _ _ _ _ _ Hinv) as Hinv1.
  pose proof (enqueue_batch rec d) as Hb.
  destruct (reopen_after_commit opts coins (DbWrite.enqueue rec d) f es tables logged fl f' Hinv1)
    as (got & rest & d2 & f2 & Hsplit & Hall & Ho & Hinv2 & _ & Hc); try done; [by rewrite Hb..|].
  rewrite (Hall _ Hok), app_nil_r, Hb in Hsplit. subst got. exists d2, f2. split; [done|]. split; [done|].
  rewrite Hc, <- enqueue_contents, (db_inv_contents _ _ _ _ _ Hinv1), Hb.
  by rewrite <- (contents_split (DbWrite.enqueue rec d) f es tables logged).
Qed.

(** ** An interrupted commit of two records, the second one torn *)

Definition batch2 : list entry := [Entry k1 v2 false; Entry k2 [] true].
Definition db2_batch : DB := DbWrite.enqueue (Entry k2 [] true) (DbWrite.enqueue (Entry k1 v2 false) db2).
Definition torn_fl : list fault := [NoFault; Crash 3].
Definition torn_fs : fsys := fs (snd (DbWrite.flushPendingBatch db2_batch (mkWorld fs2 torn_fl))).

Lemma commit_crash_recovers_prefix_witness :
  fst (DbWrite.flushPendingBatch db2_batch (mkWorld fs2 torn_fl)) = Crashed /\
  exists got rest d2 f2, pendingBatch db2_batch = got ++ rest /\
    Open opts None [] (mkWorld (keep_written torn_fs) []) = (Ok d2, mkWorld f2 []) /\
    db_inv d2 f2 edits2 tables2 ([] ++ got) /\
    contents d2 tables2.*2 = log_layer got ∪ (log_layer [] ∪ disk_layer tables2.*2).
Proof.
  split; [vm_compute; reflexivity|].
  apply (commit_crash_recovers_prefix opts [] db2_batch fs2 edits2 tables2 [] torn_fl (keep_written torn_fs)).
  - apply enqueue_inv, enqueue_inv, db2_inv.
  - by_decide.
  - vm_compute. discriminate.
  - apply power_loss_extremes. by_decide.
  - discriminate.
  - vm_compute. reflexivity.
Defined.

(** ** A synced Put, all unsynced bytes lost *)

Definition put_run := DbWrite.writeRecord (Entry k1 v2 false) db2 (mkWorld fs2 []).

Lemma write_survives_power_loss_witness : exists d', fst put_run = Ok (d', None) /\
  exists d2 f2, Open opts None [] (mkWorld (lose_unsynced (fs (snd put_run))) []) = (Ok d2, mkWorld f2 []) /\
    db_inv d2 f2 edits2 tables2 ([] ++ pendingBatch db2 ++ [Entry k1 v2 false]) /\
    contents d2 tables2.*2 = <[k1 := Some v2]> (contents db2 tables2.*2).
Proof.
  eexists. split; [vm_compute; reflexivity|].
  eapply (write_survives_power_loss (Entry k1 v2 false) db2 fs2 edits2 tables2 [] [] _ opts []
    (lose_unsynced (fs (snd put_run)))).
  - apply db2_inv.
  - vm_compute. reflexivity.
  - by_decide.
  - vm_compute. discriminate.
  - vm_compute. reflexivity.
  - apply power_loss_extremes. by_decide.
  - discriminate.
  - vm_compute. reflexivity.
Defined.

(** A [Sync] that returns nil was one commit of the whole batch. *)
Lemma Sync_commits d wd d' : DbWrite.mem_wf d -> fst (DbWrite.Sync d wd) = Ok (d', None) ->
  DbWrite.Sync d wd = DbWrite.flushPendingBatch d wd.
Proof.
  intros Hwf. unfold DbWrite.Sync. destruct (writeBlockingBackgroundErr d); [done|].
  cbn [DbWrite.sync_loop]. destruct (closed d); [done|]. unfold DbWrite.awaitBatchPersist.
  pose proof (DbWrite.flushPendingBatch_post d wd Hwf) as Hp. unfold io_bind.
  destruct (DbWrite.flushPendingBatch d wd) as [[[d1 [e|]]|e|] wd1]; try done.
  destruct Hp as (_ & _ & _ & _ & Hp). by rewrite (Hp eq_refl).
Qed.

(** C3: A [Sync] that returned nil makes every write accepted before it survive any loss
    of power: opening the directory again gives the contents the handle had.  This holds
    for a consistent handle ([db_inv]: in particular no wal.flush is left in the
    directory), records within the limits of the log, a log that is within [MaxFileSize]
    with them, and the same limits at reopening. *)
Theorem Sync_survives_power_loss d f es tables logged fl d' opts coins f' :
  db_inv d f es tables logged ->
  Forall (Wal.admissible (limits_of d)) (pendingBatch d) ->
  zlen (Wal.wires (logged ++ pendingBatch d)) <= Wal.MaxFileSize (limits_of d) ->
  fst (DbWrite.Sync d (mkWorld f fl)) = Ok (d', None) ->
  power_loss (fs (snd (DbWrite.Sync d (mkWorld f fl)))) f' ->
  Dir opts <> ""%string -> walLimits (config_of opts) = walLimits (cfg d) ->
  exists d2 f2, Open opts None coins (mkWorld f' []) = (Ok d2, mkWorld f2 []) /\
    db_inv d2 f2 es tables (logged ++ pendingBatch d) /\
    contents d2 tables.*2 = contents d tables.*2.
Proof.
  intros Hinv Ha Hsize Hok Hpl Hdir Hlim. pose proof (Sync_commits _ _ _ (di_mem _ _ _ _ _ Hinv) Hok) as Erun.
  rewrite Erun in Hok, Hpl.
  destruct (reopen_after_commit opts coins d f es tables logged fl f' Hinv Ha Hsize Hpl Hdir Hlim)
    as (got & rest & d2 & f2 & Hsplit & Hall & Ho & Hinv2 & _ & Hc).
  rewrite (Hall _ Hok), app_nil_r in Hsplit. subst got. exists d2, f2. split; [done|]. split; [done|].
  rewrite Hc, (db_inv_contents _ _ _ _ _ Hinv). by rewrite <- (contents_split d f es tables logged).
Qed.

Definition sync_run := DbWrite.Sync db2_batch (mkWorld fs2 []).

Lemma Sync_survives_power_loss_witness : exists d', fst sync_run = Ok (d', None) /\
  exists d2 f2, Open opts None [] (mkWorld (lose_unsynced (fs (snd sync_run))) []) = (Ok d2, mkWorld f2 []) /\
    db_inv d2 f2 edits2 tables2 ([] ++ pendingBatch db2_batch) /\
    contents d2 tables2.*2 = contents db2_batch tables2.*2.
Proof.
  eexists. split; [vm_compute; reflexivity|].
  eapply (Sync_survives_power_loss db2_batch fs2 edits2 tables2 [] [] _ opts [] (lose_unsynced (fs (snd sync_run)))).
  - apply enqueue_inv, enqueue_inv, db2_inv.
  - by_decide.
  - vm_compute. discriminate.
  - vm_compute. reflexivity.
  - apply power_loss_extremes. by_decide.
  - discriminate.
  - vm_compute. reflexivity.
Defined.

(** * Recovery *)

(** C7: [Open] on a directory that holds a manifest (with or without a torn end), the
    live tables, and a log with a torn end rebuilds exactly what they say: the
    records behind the checkpoint, newest in front, over the live tables; whatever
    lies before the checkpoint stays in the file and is not replayed. *)
Theorem Open_recovers opts coins f name es tables pre recs : Dir opts <> ""%string ->
  on_disk (walLimits (config_of opts)) f name es tables pre recs ->
  exists d f', Open opts None coins (mkWorld f []) = (Ok d, mkWorld f' []) /\
    contents d tables.*2 = log_layer recs ∪ disk_layer tables.*2 /\
    readable d f' tables.*2 /\ closed d = false /\ pendingFlush d = [] /\ pendingBatch d = [] /\
    bytes_at f' walName = Some (Wal.wires (pre ++ recs)).
Proof.
  intros Hdir Hod. destruct (Open_opened opts coins f name es tables pre recs Hdir Hod) as (d & f' & Ho & Hop).
  destruct (opened_contents _ _ _ _ _ _ _ _ _ Hop) as [H1 H2]. destruct Hop. by exists d, f'.
Qed.

(** A log of two records, the first one flushed to table 2 according to the
    checkpoint, and three bytes of a third. *)
Definition ck_pre : list entry := [Entry k2 v2 false].
Definition ck_recs : list entry := [Entry k1 v2 false].
Definition ck_fs : fsys :=
  <[walFlushStateName := File (encode_flush_state (mkFlushState (zlen (Wal.wires ck_pre)) 2)) []]>
    (<[walName := File (Wal.wires ck_pre ++ Wal.wires ck_recs ++ [x00; x00; x00]) []]> fs2).

Lemma ck_on_disk : on_disk (walLimits (config_of opts)) ck_fs "MANIFEST-000001" edits2 tables2 ck_pre ck_recs.
Proof.
  pose proof db2_inv as Hinv. split.
  - split; [by vm_compute|]. by exists "000001"%string.
  - apply (di_edits _ _ _ _ _ Hinv).
  - exists []. split; [apply Manifest.torn_nil|]. split; vm_compute; reflexivity.
  - apply (di_ids _ _ _ _ _ Hinv).
  - eapply Forall_impl; [apply (di_files _ _ _ _ _ Hinv)|]. intros t Ht. apply (sst_file_same fs2); [|by apply sst_durable_file].
    unfold ck_fs. by rewrite !lookup_insert_ne.
  - intros E. vm_compute in E. discriminate.
  - intros data E. vm_compute in E. injection E as <-. vm_compute. discriminate.
  - vm_compute. reflexivity.
  - replace (bytes_at ck_fs walName) with (Some (Wal.wires ck_pre ++ Wal.wires ck_recs ++ [x00; x00; x00]))
      by (vm_compute; reflexivity).
    exists [x00; x00; x00]. split; [done|]. split; [|vm_compute; discriminate].
    right. exists (Entry k1 [] true), 3%nat. split; [by_decide|]. split; [by_decide|vm_compute; reflexivity].
  - by_decide.
Qed.

Lemma Open_recovers_witness :
  exists d f', Open opts None [] (mkWorld ck_fs []) = (Ok d, mkWorld f' []) /\
    contents d tables2.*2 = log_layer ck_recs ∪ disk_layer tables2.*2 /\
    readable d f' tables2.*2 /\ closed d = false /\ pendingFlush d = [] /\ pendingBatch d = [] /\
    bytes_at f' walName = Some (Wal.wires (ck_pre ++ ck_recs)).
Proof.
  apply (Open_recovers opts [] ck_fs "MANIFEST-000001" edits2 tables2 ck_pre ck_recs); [discriminate|apply ck_on_disk].
Defined.

(** * Reads *)

(** The answer the contents prescribe. *)
Definition answer (c : option (option bytes)) : bytes + error :=
  match c with Some (Some v) => inl v | _ => inr ErrNotFound end.

(** C9: [Get] refines the look-up of the key in the contents: it returns the value of the
    newest record of the key over the batch, the memtables and the tables, or
    [ErrNotFound] when there is none or it is a deletion, changes neither the handle
    nor the directory, and departs from this only for an empty value that is no
    longer in memory, which it reports as [ErrNotFound]. *)
Theorem Get_refines d f es tables logged key : db_inv d f es tables logged -> closed d = false ->
  exists r, Get key d (mkWorld f []) = (Ok (d, r), mkWorld f []) /\
    (r = answer (contents d tables.*2 !! key) \/
     DbWrite.memory_layer d !! key = None /\ contents d tables.*2 !! key = Some (Some []) /\ r = inr ErrNotFound).
Proof.
  intros Hinv Hc. eexists. split; [apply Get_quiet; [by eapply db_inv_readable|done]|].
  unfold contents. rewrite lookup_union. destruct (DbWrite.memory_layer d !! key) as [[v|]|].
  - left. by destruct (disk_layer _ !! key) as [[]|].
  - left. by destruct (disk_layer _ !! key) as [[]|].
  - destruct (disk_layer tables.*2 !! key) as [[v|]|]; cbn; [|by left..]. case_bool_decide; [subst; by right|by left].
Qed.

Lemma Get_refines_witness : closed db3 = false /\
  exists r, Get k2 db3 (mkWorld fs3 []) = (Ok (db3, r), mkWorld fs3 []) /\
    (r = answer (contents db3 tables2.*2 !! k2) \/
     DbWrite.memory_layer db3 !! k2 = None /\ contents db3 tables2.*2 !! k2 = Some (Some []) /\ r = inr ErrNotFound).
Proof.
  split; [vm_compute; reflexivity|].
  apply (Get_refines db3 fs3 edits2 tables2 (frozen_recs ++ [tail_rec])); [apply db3_inv|vm_compute; reflexivity].
Defined.

(** C10: A scan, walked to its end, yields in ascending order exactly the keys of
    [[start, end)] with a live value in the contents, each once and with that value;
    the walk ends by itself.  This holds without faults, when neither the batch nor a
    memtable nor a table holds the empty key (otherwise see
    [DbFindings.empty_key_hides_scan]), and with at most 999999 memtables and tables. *)
Theorem Scan_refines start end_ d f es tables logged : db_inv d f es tables logged -> closed d = false ->
  few_layers d -> Forall Merge.keys_nonempty (scan_sources d tables.*2) ->
  exists it d' out fuel, Scan start end_ d (mkWorld f []) = (Ok (d', inl it), mkWorld f []) /\
    (forall more, scan_walk (fuel + more) it [] (mkWorld f []) = (Ok (out, None), mkWorld f [])) /\
    StronglySorted blt (fst <$> out) /\
    forall k v, (k, v) ∈ out <->
      contents d tables.*2 !! k = Some (Some v) /\ ~ blt k start /\ (end_ = [] \/ blt k end_).
Proof.
  intros Hinv Hc Hfew Hne.
  destruct (scan_range start end_ d f tables.*2 (db_inv_readable _ _ _ _ _ Hinv) Hfew Hc Hne)
    as (it & d' & out & fuel & H1 & _ & H2 & H3 & H4). by exists it, d', out, fuel.
Qed.

Definition kz : bytes := [x7a].

Lemma Scan_refines_witness : closed db3 = false /\
  exists it d' out fuel, Scan k1 kz db3 (mkWorld fs3 []) = (Ok (d', inl it), mkWorld fs3 []) /\
    (forall more, scan_walk (fuel + more) it [] (mkWorld fs3 []) = (Ok (out, None), mkWorld fs3 [])) /\
    StronglySorted blt (fst <$> out) /\
    forall k v, (k, v) ∈ out <->
      contents db3 tables2.*2 !! k = Some (Some v) /\ ~ blt k k1 /\ (kz = [] \/ blt k kz).
Proof.
  split; [vm_compute; reflexivity|].
  apply (Scan_refines k1 kz db3 fs3 edits2 tables2 (frozen_recs ++ [tail_rec])).
  - apply db3_inv.
  - vm_compute. reflexivity.
  - vm_compute. discriminate.
  - unfold Merge.keys_nonempty. by_decide.
Defined.

(** * Background work *)

(** C12: A flush of the queued memtable without faults writes it to the next table, cuts
    its records from the log, keeps the invariant, and leaves the contents as they
    were. *)
Theorem flush_preserves_contents d f es tables logged e : db_inv d f es tables logged -> pendingFlush d = [e] ->
  flushable (mem e) -> 0 <= nextSSTID d < 2 ^ 64 - 1 -> zlen tables < 2 ^ 28 - 1 ->
  exists d' f' es' groups logged', drain_round d (mkWorld f []) = (Ok (d', true), mkWorld f' []) /\
    db_inv d' f' es' (tables ++ [(nextSSTID d + 1, groups)]) logged' /\ pendingFlush d' = [] /\
    contents d' (tables ++ [(nextSSTID d + 1, groups)]).*2 = contents d tables.*2.
Proof.
  intros H1 H2 H3 H4 H5.
  destruct (flush_inv d f es tables logged e H1 H2 H3 H4 H5)
    as (d' & f' & es' & g & l' & A & B & C & _ & _ & _ & D). by exists d', f', es', g, l'.
Qed.

Lemma flush_preserves_contents_witness : pendingFlush db3 = [queued3] /\
  exists d' f' es' groups logged', drain_round db3 (mkWorld fs3 []) = (Ok (d', true), mkWorld f' []) /\
    db_inv d' f' es' (tables2 ++ [(nextSSTID db3 + 1, groups)]) logged' /\ pendingFlush d' = [] /\
    contents d' (tables2 ++ [(nextSSTID db3 + 1, groups)]).*2 = contents db3 tables2.*2.
Proof.
  split; [exact db3_queue|].
  apply (flush_preserves_contents db3 fs3 edits2 tables2 (frozen_recs ++ [tail_rec]) queued3).
  - apply db3_inv.
  - exact db3_queue.
  - split; vm_compute; reflexivity.
  - split; vm_compute; [discriminate|reflexivity].
  - vm_compute. reflexivity.
Defined.

(** C13: A flush that is interrupted loses nothing: let the process end at any point of the
    flush of the queued memtable (or let the flush complete), then let a loss of power
    keep any part of what was not synced; opening the directory again gives exactly the
    contents that the log and the tables had before the flush.  This holds when exactly
    one memtable is queued, there is already a live table, the log is within [MaxFileSize]
    with less than half of it behind the cutoff of the memtable, nothing fails but the
    process itself, and the limits are the same at reopening. *)
Theorem flush_crash_recovers d f es tables logged e fl f' opts coins : db_inv d f es tables logged ->
  pendingFlush d = [e] -> flushable (mem e) -> 0 <= nextSSTID d < 2 ^ 64 - 1 -> zlen tables < 2 ^ 28 - 1 ->
  tables <> [] -> zlen (Wal.wires logged) <= Wal.MaxFileSize (limits_of d) -> zlen (Wal.wires logged) < 2 ^ 63 ->
  zlen (Wal.wires logged) < 2 * walCutoff e ->
  no_fail fl -> power_loss (fs (snd (drain_round d (mkWorld f fl)))) f' ->
  Dir opts <> ""%string -> walLimits (config_of opts) = walLimits (cfg d) ->
  exists d2 f2 (tables' : list (Z * list (list entry))),
    Open opts None coins (mkWorld f' []) = (Ok d2, mkWorld f2 []) /\
    readable d2 f2 tables'.*2 /\ closed d2 = false /\ pendingBatch d2 = [] /\
    contents d2 tables'.*2 = log_layer logged ∪ disk_layer tables.*2.
Proof.
  intros Hinv Hq Hfl Hid Hcount Hne Hsize Hmax Hhalf Hnf Hpl Hdir Hlim.
  pose proof (drain_recovers d f es tables logged e fl Hinv Hq Hfl Hid Hcount Hne Hsize Hmax Hhalf Hnf) as Hrec.
  destruct (recovers_opens opts coins _ _ _ f' Hrec Hpl Hdir Hlim) as (d2 & f2 & t2 & H1 & H2 & H3 & H4 & H5).
  by exists d2, f2, t2.
Qed.

(** The process ends while the record of the new table is being written. *)
Definition flush_cut : list fault := replicate 14 NoFault ++ [Crash 3].
Definition flush_cut_fs : fsys := fs (snd (drain_round db3 (mkWorld fs3 flush_cut))).

Lemma flush_crash_recovers_witness :
  fst (drain_round db3 (mkWorld fs3 flush_cut)) = Crashed /\
  exists d2 f2 (tables' : list (Z * list (list entry))),
    Open opts None [] (mkWorld (keep_written flush_cut_fs) []) = (Ok d2, mkWorld f2 []) /\
    readable d2 f2 tables'.*2 /\ closed d2 = false /\ pendingBatch d2 = [] /\
    contents d2 tables'.*2 = log_layer (frozen_recs ++ [tail_rec]) ∪ disk_layer tables2.*2.
Proof.
  split; [vm_compute; reflexivity|].
  apply (flush_crash_recovers db3 fs3 edits2 tables2 (frozen_recs ++ [tail_rec]) queued3 flush_cut).
  - apply db3_inv.
  - exact db3_queue.
  - split; vm_compute; reflexivity.
  - split; vm_compute; [discriminate|reflexivity].
  - vm_compute. reflexivity.
  - discriminate.
  - vm_compute. discriminate.
  - vm_compute. reflexivity.
  - vm_compute. reflexivity.
  - by repeat constructor.
  - apply power_loss_extremes. by_decide.
  - discriminate.
  - vm_compute. reflexivity.
Defined.

Lemma disk_layer_two t1 t2 rest : disk_layer (t1 :: t2 :: rest) =
  disk_layer rest ∪ (layer_of (concat t2) ∪ layer_of (concat t1)).
Proof. unfold disk_layer. csimpl. cbn [SstMerge.layers]. by rewrite <- (map_union_assoc (M := gmap bytes)). Qed.

Lemma disk_layer_pair t1 t2 : disk_layer [t1; t2] = layer_of (concat t2) ∪ layer_of (concat t1).
Proof. rewrite disk_layer_two. apply (left_id_L ∅ (∪)). Qed.

Lemma inv_sorted2 d f es t1 t2 rest logged : db_inv d f es (t1 :: t2 :: rest) logged ->
  keys_sorted (concat t1.2) /\ keys_sorted (concat t2.2).
Proof.
  intros Hinv. pose proof (di_tables _ _ _ _ _ Hinv) as HF.
  apply Forall2_cons_inv_r in HF as (p1 & ps & (r1 & _ & _ & T1 & _) & HF & _).
  apply Forall2_cons_inv_r in HF as (p2 & ps' & (r2 & _ & _ & T2 & _) & _ & _).
  split; [apply T1|apply T2].
Qed.

(** Two layers may change places where they do not both say something, and where
    something is in front of both. *)
Lemma swapped_lookup (m a b : gmap bytes (option bytes)) k : a !! k = None \/ b !! k = None \/ m !! k <> None ->
  (m ∪ (a ∪ b)) !! k = (m ∪ (b ∪ a)) !! k.
Proof. intros H. rewrite !lookup_union. destruct (m !! k), (a !! k), (b !! k); cbn; try reflexivity. by destruct H as [H|[H|H]]. Qed.

(** C14: A compaction without faults replaces the two oldest tables by one, keeps the
    invariant, and every key keeps its record in the contents, unless the key is in one
    of the two tables, in one of the others too, and not in memory
    ([DbFindings.compaction_revives_old_value] is about that case).  The tables have
    reached the threshold, the two have no empty key and fit into one table, and the ids
    have at most eight digits. *)
Theorem compaction_contents d f es t1 t2 rest logged : db_inv d f es (t1 :: t2 :: rest) logged ->
  compactThreshold (cfg d) <= zlen (sstables d) -> 0 <= nextSSTID d < 10 ^ 8 - 1 ->
  zlen rest < 2 ^ 28 - 1 -> mergeable t1.2 t2.2 ->
  exists d' f' es' groups, DbCompact.doCompaction d (mkWorld f []) = (Ok (d', None), mkWorld f' []) /\
    db_inv d' f' es' (rest ++ [(nextSSTID d + 1, groups)]) logged /\
    forall k, disk_layer [t1.2; t2.2] !! k = None \/ disk_layer rest.*2 !! k = None \/ DbWrite.memory_layer d !! k <> None ->
      contents d' (rest ++ [(nextSSTID d + 1, groups)]).*2 !! k = contents d (t1 :: t2 :: rest).*2 !! k.
Proof.
  intros Hinv Hth Hid Hn Hm.
  destruct (compact_inv d f es t1 t2 rest logged Hinv Hth Hid Hn Hm) as (d' & f' & es' & groups & Hrun & Hinv' & Hcat & Hb & _ & _).
  destruct (inv_sorted2 _ _ _ _ _ _ _ Hinv) as [S1 S2].
  exists d', f', es', groups. split; [done|]. split; [done|]. intros k Hk. rewrite disk_layer_pair in Hk.
  unfold contents. rewrite (db_inv_memory _ _ _ _ _ Hinv'), Hb, <- (db_inv_memory _ _ _ _ _ Hinv), fmap_app.
  cbn [fmap list_fmap snd]. rewrite disk_layer_snoc, Hcat, (merged_layer2 _ _ S1 S2), disk_layer_two. by apply swapped_lookup.
Qed.

Definition no_tables : list (Z * list (list entry)) := [].

Lemma compaction_contents_witness :
  let t1 : Z * list (list entry) := (1, [[Entry k1 v1 false]]) in
  let t2 : Z * list (list entry) := (2, [[Entry k2 v2 false]]) in
  exists d' f' es' groups, DbCompact.doCompaction db2 (mkWorld fs2 []) = (Ok (d', None), mkWorld f' []) /\
    db_inv d' f' es' (no_tables ++ [(nextSSTID db2 + 1, groups)]) [] /\
    contents d' (no_tables ++ [(nextSSTID db2 + 1, groups)]).*2 !! k1 = Some (Some v1).
Proof.
  intros t1 t2. destruct (compaction_contents db2 fs2 edits2 t1 t2 no_tables []) as (d' & f' & es' & groups & H1 & H2 & H3).
  - apply db2_inv.
  - vm_compute. discriminate.
  - split; vm_compute; [discriminate|reflexivity].
  - vm_compute. reflexivity.
  - split; [vm_compute; reflexivity|]. split; [vm_compute; reflexivity|]. split; by_decide.
  - exists d', f', es', groups. split; [exact H1|]. split; [exact H2|]. rewrite H3 by (right; left; reflexivity). vm_compute. reflexivity.
Defined.

(** C15: A compaction that is interrupted loses nothing: let the process end at any point
    of it (or let it complete), without other faults, then let a loss of power keep any
    part of what was not synced; [Open] succeeds, and every key has the record it had in
    the log and the tables before the compaction, unless the key is in one of the two
    oldest tables, in one of the others too, and not in the log.  The tables have reached
    the threshold, the two have no empty key and fit into one table, the ids have at most
    eight digits, and the log is within [MaxFileSize]. *)
Theorem compaction_crash_atomic d f es t1 t2 rest logged fl f' opts coins :
  db_inv d f es (t1 :: t2 :: rest) logged -> compactThreshold (cfg d) <= zlen (sstables d) ->
  0 <= nextSSTID d < 10 ^ 8 - 1 -> zlen rest < 2 ^ 28 - 1 -> mergeable t1.2 t2.2 ->
  zlen (Wal.wires logged) <= Wal.MaxFileSize (limits_of d) -> no_fail fl ->
  power_loss (fs (snd (DbCompact.doCompaction d (mkWorld f fl)))) f' ->
  Dir opts <> ""%string -> walLimits (config_of opts) = walLimits (cfg d) ->
  exists d2 f2 (tables' : list (Z * list (list entry))),
    Open opts None coins (mkWorld f' []) = (Ok d2, mkWorld f2 []) /\
    readable d2 f2 tables'.*2 /\ closed d2 = false /\ pendingBatch d2 = [] /\
    forall k, disk_layer [t1.2; t2.2] !! k = None \/ disk_layer rest.*2 !! k = None \/ log_layer logged !! k <> None ->
      contents d2 tables'.*2 !! k = (log_layer logged ∪ disk_layer (t1 :: t2 :: rest).*2) !! k.
Proof.
  intros Hinv Hth Hid Hcount Hmg Hsize Hnf Hpl Hdir Hlim.
  destruct (compaction_recovers d f es t1 t2 rest logged fl Hinv Hth Hid Hcount Hmg Hsize Hnf) as (groups & Hcat & Hrec).
  destruct (recovers_opens opts coins _ _ _ f' Hrec Hpl Hdir Hlim) as (d2 & f2 & tables' & H1 & H2 & H3 & H4 & H5).
  destruct (inv_sorted2 _ _ _ _ _ _ _ Hinv) as [S1 S2].
  exists d2, f2, tables'. do 4 (split; [done|]). intros k Hk. rewrite disk_layer_pair in Hk.
  destruct H3 as [-> | ->]; [reflexivity|]. rewrite fmap_app. cbn [fmap list_fmap snd].
  rewrite disk_layer_snoc, Hcat, (merged_layer2 _ _ S1 S2), disk_layer_two. by apply swapped_lookup.
Qed.

(** The process ends while the manifest is told of the new set of tables. *)
Definition compact_cut : list fault := replicate 18 NoFault ++ [Crash 3].
Definition compact_cut_fs : fsys := fs (snd (DbCompact.doCompaction db2 (mkWorld fs2 compact_cut))).

Lemma compaction_crash_atomic_witness :
  let t1 : Z * list (list entry) := (1, [[Entry k1 v1 false]]) in
  let t2 : Z * list (list entry) := (2, [[Entry k2 v2 false]]) in
  fst (DbCompact.doCompaction db2 (mkWorld fs2 compact_cut)) = Crashed /\
  exists d2 f2 (tables' : list (Z * list (list entry))),
    Open opts None [] (mkWorld (keep_written compact_cut_fs) []) = (Ok d2, mkWorld f2 []) /\
    readable d2 f2 tables'.*2 /\ contents d2 tables'.*2 !! k1 = Some (Some v1) /\ contents d2 tables'.*2 !! k2 = Some (Some v2).
Proof.
  intros t1 t2. split; [vm_compute; reflexivity|].
  destruct (compaction_crash_atomic db2 fs2 edits2 t1 t2 no_tables [] compact_cut (keep_written compact_cut_fs) opts [])
    as (d2 & f2 & t' & H1 & H2 & _ & _ & H3).
  - apply db2_inv.
  - vm_compute. discriminate.
  - split; vm_compute; [discriminate|reflexivity].
  - vm_compute. reflexivity.
  - split; [vm_compute; reflexivity|]. split; [vm_compute; reflexivity|]. split; by_decide.
  - vm_compute. discriminate.
  - by repeat constructor.
  - apply power_loss_extremes. by_decide.
  - discriminate.
  - vm_compute. reflexivity.
  - exists d2, f2, t'. split; [done|]. split; [done|]. rewrite !H3 by (right; left; reflexivity). split; vm_compute; reflexivity.
Defined.

(** * Closing *)

(** C8: [Close] loses nothing: without faults it returns nil, the handle has released
    everything, and whatever a loss of power then does, opening the directory again
    gives a handle with the same contents and an empty log.  This holds for a consistent
    handle ([db_inv]) with at most one memtable left to flush ([closable]), no wake-up
    pending for the compactor, a batch of records within the limits of the log, room for
    one more table ([roomy]), and the same limits at reopening. *)
Theorem Close_persists fuel d f es tables logged opts coins : db_inv d f es tables logged -> closed d = false ->
  closable d -> Forall (Wal.admissible (limits_of d)) (pendingBatch d) -> roomy d tables (logged ++ pendingBatch d) ->
  compactCh d = 0%nat -> Dir opts <> ""%string -> walLimits (config_of opts) = walLimits (cfg d) ->
  exists d' f', Close (S (S fuel)) d (mkWorld f []) = (Ok (d', None), mkWorld f' []) /\
    closed d' = true /\ sstables d' = [] /\ allReaders d' = [] /\
    forall f'', power_loss f' f'' -> exists d2 f2 es2 tables2, Open opts None coins (mkWorld f'' []) = (Ok d2, mkWorld f2 []) /\
      db_inv d2 f2 es2 tables2 [] /\ closed d2 = false /\ contents d2 tables2.*2 = contents d tables.*2.
Proof.
  intros Hinv Hcl Hq Ha Hroom Hcc Hdir Hlim.
  destruct (close_database_quiet fuel d f es tables logged Hinv Hcl Hq Ha Hroom Hcc)
    as (d' & dm & f' & es' & tables' & Hrun & H1 & _ & _ & H2 & H3 & Hinv' & Hcfg & Hab & _).
  exists d', f'. do 4 (split; [done|]). intros f'' Hpl.
  destruct (at_rest_opens opts coins f'' tables') as (d2 & f2 & es2 & Ho & Hi2 & Hc2 & _ & _ & _ & _ & _ & _ & Hcont); [|done|].
  { rewrite Hlim, <- Hcfg. by eapply closed_at_rest. }
  exists d2, f2, es2, tables'. do 3 (split; [done|]). by rewrite Hcont, Hab, (db_inv_contents _ _ _ _ _ Hinv).
Qed.

(** The two tables opened again with a larger threshold, and a record in the batch. *)
Definition rec9 : entry := Entry [x6b] [x76] false.
Definition opts9 : Options := mkOptions "db" 20 9 no_limits false None.
Definition db9 : DB :=
  match fst (Open opts9 None [] (mkWorld (keep_written fs2) [])) with Ok d => DbWrite.enqueue rec9 d | _ => empty_handle end.
Definition fs9 : fsys := fs (snd (Open opts9 None [] (mkWorld (keep_written fs2) []))).

Lemma Close_persists_witness : closed db9 = false /\ pendingBatch db9 = [rec9] /\
  exists d' f', Close 2 db9 (mkWorld fs9 []) = (Ok (d', None), mkWorld f' []) /\
    closed d' = true /\ sstables d' = [] /\ allReaders d' = [] /\
    forall f'', power_loss f' f'' -> exists d2 f2 es2 t2, Open opts9 None [] (mkWorld f'' []) = (Ok d2, mkWorld f2 []) /\
      db_inv d2 f2 es2 t2 [] /\ closed d2 = false /\ contents d2 t2.*2 = contents db9 tables2.*2.
Proof.
  destruct (at_rest_opens opts9 [] (keep_written fs2) tables2) as (d & f & es & Ho & Hinv & Hcl & Hb & Hq & _ & Hcfg & Hcc & Hid & _).
  { apply (closed_at_rest db2 fs2 edits2 tables2); [apply db2_inv|]. apply power_loss_extremes. by_decide. }
  { discriminate. }
  assert (E1 : db9 = DbWrite.enqueue rec9 d) by (unfold db9; rewrite Ho; reflexivity).
  assert (E2 : fs9 = f) by (unfold fs9; rewrite Ho; reflexivity). rewrite E1, E2.
  split; [done|]. split; [cbn; by rewrite Hb|].
  apply (Close_persists 0 (DbWrite.enqueue rec9 d) f es tables2 []).
  - by apply enqueue_inv.
  - done.
  - by left.
  - cbn [DbWrite.enqueue pendingBatch set_batchSizeBytes set_pendingBatch]. rewrite Hb. unfold limits_of.
    change (cfg (DbWrite.enqueue rec9 d)) with (cfg d). rewrite Hcfg. by_decide.
  - unfold roomy. cbn [DbWrite.enqueue pendingBatch set_batchSizeBytes set_pendingBatch nextSSTID]. rewrite Hb.
    split; [by_decide|]. split; [by_decide|]. split; [|by_decide].
    change (nextSSTID d = 0 \/ nextSSTID d ∈ [1; 2]) in Hid. clear -Hid. set_solver by lia.
  - apply Hcc. vm_compute. reflexivity.
  - discriminate.
  - change (cfg (DbWrite.enqueue rec9 d)) with (cfg d). by rewrite Hcfg.
Defined.

(** * Writes *)

(** Refused without a change, or the newest word on its key. *)
Definition write_outcome (rec : entry) (d : DB) (tables : list (list (list entry))) (r : res (DB * option error)) : Prop :=
  match r with
  | Ok (d', e) =>
      (d' = d /\ (e = Some ErrClosed /\ closed d = true \/ e = writeBlockingBackgroundErr d /\ e <> None)) \/
      (writeBlockingBackgroundErr d = None /\ closed d = false /\
       contents d' tables = <[Key rec := cell rec]> (contents d tables) /\
       DbWrite.mem_wf d' /\ DbWrite.same_tables d d')
  | Err _ => False
  | Crashed => True
  end.

(** C16: A [Put] or [Delete] is visible at once: whatever the disk does, [writeRecord]
    either refuses and changes nothing, because the handle is closed or a background
    error blocks writes, or the record is the newest word on its key in the contents
    and nothing else changed, also when the commit it waits for fails. *)
Theorem write_visible rec d wd tables : DbWrite.mem_wf d ->
  write_outcome rec d tables (fst (DbWrite.writeRecord rec d wd)).
Proof.
  intros Hwf. pose proof (DbWrite.writeRecord_post rec d wd Hwf) as H0. unfold write_outcome.
  destruct (fst (DbWrite.writeRecord rec d wd)) as [[d' e]|e|]; [|done..].
  destruct H0 as [H0|(H1 & H2 & H3 & H4 & H5)]; [by left|right]. split; [done|]. split; [done|].
  split; [|done]. unfold contents. rewrite H3. by rewrite <- insert_union_l.
Qed.

(** The disk is full. *)
Definition rec3 : entry := Entry k2 v1 false.
Definition full_disk : World := mkWorld fs3 [Fail (os_error 28) 3].

Lemma write_visible_witness : DbWrite.mem_wf db3 /\
  write_outcome rec3 db3 tables2.*2 (fst (DbWrite.writeRecord rec3 db3 full_disk)).
Proof.
  pose proof (di_mem _ _ _ _ _ db3_inv) as Hwf. split; [exact Hwf|].
  apply write_visible. exact Hwf.
Defined.

(** Writes are refused exactly while the log, or the flusher if the options say so,
    has a recorded error; errors of the compactor and of the log's truncation never
    block them. *)
Theorem writes_blocked_iff d :
  writeBlockingBackgroundErr d = None <->
  bgErrs d !! "wal"%string = None /\ (blockWritesOnFlushError (cfg d) = true -> bgErrs d !! "flush"%string = None).
Proof.
  unfold writeBlockingBackgroundErr. destruct (blockWritesOnFlushError (cfg d)); cbn [negb];
    rewrite bg_join_None; split.
  - intros H0. split; [|intros _]; (destruct (bgErrs d !! _) as [e|] eqn:E; [|done]); exfalso; apply (H0 _ _ E); set_solver.
  - intros [H1 H2] op e He Hin. specialize (H2 eq_refl). set_unfold in Hin. destruct Hin as [->|[->|[]]]; congruence.
  - intros H0. split; [|done]. destruct (bgErrs d !! _) as [e|] eqn:E; [|done]. exfalso; apply (H0 _ _ E); set_solver.
  - intros [H1 _] op e He Hin. set_unfold in Hin. destruct Hin as [->|[]]; congruence.
Qed.

End DbProps.
