(* ===== verification/Cli.v ===== *)
(** The command line (cmd/pebbledb: cli.go, main.go).

    A process sees a [disk] of several directories, and the database lives in the one
    that the parsed configuration names.  The standard [flag] package is modelled as far as the two flags use it.  The standard
    output is a list of bytes; of the standard error the usage text is kept as bytes,
    what the [flag] package prints and the last line of [main] as their kind. *)

From Stdlib Require Import ZArith Lia Ascii.
From S2P Require Import Prelude Word Fs GoStr Wal SstWriter DbState DbWrite DbRead DbCompact DbOpen.

Module Cli.
Import Db DbOpen.
Local Open Scope string_scope.

(** * Strings *)

(** [strings.ToLower] on ASCII letters. *)
Definition lower_char (a : ascii) : ascii :=
  let n := N_of_ascii a in if (65 <=? n)%N && (n <=? 90)%N then ascii_of_N (n + 32)%N else a.
Fixpoint ToLower (s : string) : string :=
  match s with "" => "" | String a s' => String (lower_char a) (ToLower s') end.

(** [strconv.ParseBool] *)
Definition ParseBool (s : string) : option bool :=
  if decide (s ∈ ["1"; "t"; "T"; "true"; "TRUE"; "True"]) then Some true
  else if decide (s ∈ ["0"; "f"; "F"; "false"; "FALSE"; "False"]) then Some false
  else None.

(** [[]byte(s)] and [string(b)] *)
Definition to_bytes (s : string) : bytes := String.list_byte_of_string s.

Definition newline : bytes := [x0a].
Definition tab : bytes := [x09].

(** * Errors and output *)

Inductive flag_error :=
| BadFlagSyntax (arg : string)
| FlagNotDefined (name : string)
| FlagNeedsArgument (name : string)
| InvalidBoolean (value name : string)
| ErrHelp.

(** [unknownCommand] is the [exitCodeError] with code 1 whose text quotes the command,
    [lockedError] the error whose text quotes the directory. *)
Inductive cli_error :=
| errCLIHelp
| exitCodeError (code : Z) (msg : string)
| unknownCommand (cmd : string)
| usageError (msg : string)
| flagError (e : flag_error)
| lockedError (dir : string)
| dbError (e : error)
| closeDatabase (e : error)
| closeScanIterator (e : error)
| cliJoin (a b : cli_error).

#[export] Instance flag_error_eq_decision : EqDecision flag_error.
Proof. solve_decision. Defined.
#[export] Instance cli_error_eq_decision : EqDecision cli_error.
Proof. solve_decision. Defined.

(** [errors.Join] of what is there and a deferred error. *)
Definition join_cli (a b : option cli_error) : option cli_error :=
  match a, b with
  | None, _ => b
  | _, None => a
  | Some x, Some y => Some (cliJoin x y)
  end.

(** [errors.Is] for the errors of the database. *)
Fixpoint error_Is (target e : error) : bool :=
  bool_decide (e = target) ||
  match e with
  | joined a b => error_Is target a || error_Is target b
  | background _ a => error_Is target a
  | _ => false
  end.

(** [errors.As(err, &exitErr)]: the first in the tree. *)
Fixpoint exit_code (e : cli_error) : option Z :=
  match e with
  | exitCodeError code _ => Some code
  | unknownCommand _ => Some 1
  | cliJoin a b => match exit_code a with Some c => Some c | None => exit_code b end
  | _ => None
  end.

Inductive diagnostic :=
| Usage (text : bytes)
| FlagMessage (e : flag_error)
| ErrorLine (e : cli_error).

Record output := Output { stdout : bytes; stderr : list diagnostic }.

Definition silent : output := Output [] [].
Definition print_out (b : bytes) (o : output) : output := Output (stdout o ++ b) (stderr o).
Definition print_err (x : diagnostic) (o : output) : output := Output (stdout o) (stderr o ++ [x]).

(** * Usage *)

Definition usage_text : string :=
"PebbleDB CLI

Usage:
  pebbledb [flags] <command> [arguments]

Commands:
  put <key> <value>    write a key-value pair
  get <key>            read a value (exit 1 if missing)
  delete <key>         tombstone a key
  sync                 fsync pending WAL writes
  scan [start] [end]   iterate keys in [start, end)
  help                 show this help

Flags:
  -dir string
        database directory (default ./pebbledb-data or PEBBLEDB_DIR)
  -sync-writes
        fsync WAL before each Put/Delete returns (default false)

Environment:
  PEBBLEDB_DIR           default database directory
  PEBBLEDB_SYNC_WRITES   set to 1, true, or yes to enable -sync-writes

Durability:
  By default Put/Delete use group commit (async WAL fsync). Run sync after
  writes that must survive crash, or pass -sync-writes for synchronous mode.
".

Definition printUsage_stdout (o : output) : output := print_out (to_bytes usage_text) o.
Definition printUsage_stderr (o : output) : output := print_err (Usage (to_bytes usage_text)) o.

Definition isHelpToken (s : string) : bool := bool_decide (s ∈ ["help"; "-h"; "--help"]).

(** * The environment *)

Definition Getenv (env : gmap string string) (key : string) : string := default "" (env !! key).

Definition envOr (env : gmap string string) (key fallback : string) : string :=
  let v := Getenv env key in if decide (v = "") then fallback else v.

Definition envBool (env : gmap string string) (key : string) : bool :=
  bool_decide (ToLower (GoStr.TrimSpace (Getenv env key)) ∈ ["1"; "true"; "yes"; "on"]).

(** * Flags *)

Record cliConfig := mkCliConfig { dir : string; cli_syncWrites : bool }.

(** What an argument is to the [flag] package. *)
Inductive arg_kind :=
| Operand
| Terminator
| BadSyntax
| FlagArg (name : string) (value : option string).

(** Cut a name at its first [=]; the first character is never one. *)
Fixpoint cut_value (name : string) : string * option string :=
  match name with
  | "" => ("", None)
  | String a rest =>
      if decide (a = "="%char) then ("", Some rest)
      else let '(n, v) := cut_value rest in (String a n, v)
  end.

Definition flag_of (name : string) : arg_kind :=
  match name with
  | "" => BadSyntax
  | String "-" _ => BadSyntax
  | String "=" _ => BadSyntax
  | _ => let '(n, v) := cut_value name in FlagArg n v
  end.

Definition classify (s : string) : arg_kind :=
  match s with
  | String "-" "" => Operand
  | String "-" (String "-" "") => Terminator
  | String "-" (String "-" name) => flag_of name
  | String "-" name => flag_of name
  | _ => Operand
  end.

(** [fs.Parse]: one [parseOne] per flag; [-dir] takes the next argument when it has no
    value of its own, [-sync-writes] never does. *)
Fixpoint Parse (args : list string) (cfg : cliConfig) : (cliConfig * list string) + flag_error :=
  match args with
  | [] => inl (cfg, [])
  | s :: rest =>
      match classify s with
      | Operand => inl (cfg, args)
      | Terminator => inl (cfg, rest)
      | BadSyntax => inr (BadFlagSyntax s)
      | FlagArg name value =>
          if decide (name = "dir") then
            match value, rest with
            | Some v, _ => Parse rest (mkCliConfig v (cli_syncWrites cfg))
            | None, v :: rest' => Parse rest' (mkCliConfig v (cli_syncWrites cfg))
            | None, [] => inr (FlagNeedsArgument name)
            end
          else if decide (name = "sync-writes") then
            match value with
            | None => Parse rest (mkCliConfig (dir cfg) true)
            | Some v =>
                match ParseBool v with
                | Some b => Parse rest (mkCliConfig (dir cfg) b)
                | None => inr (InvalidBoolean v name)
                end
            end
          else if decide (name ∈ ["help"; "h"]) then inr ErrHelp
          else inr (FlagNotDefined name)
      end
  end.

Definition env_config (env : gmap string string) : cliConfig :=
  mkCliConfig (envOr env "PEBBLEDB_DIR" "./pebbledb-data") (envBool env "PEBBLEDB_SYNC_WRITES").

Definition parseCLI (env : gmap string string) (args : list string) (o : output)
  : output * ((cliConfig * list string) + cli_error) :=
  let cfg := env_config env in
  let help_alone := match args with [a] => isHelpToken a | _ => false end in
  if help_alone then (printUsage_stdout o, inr errCLIHelp) else
  match Parse args cfg with
  | inr ErrHelp => (printUsage_stdout (print_err (FlagMessage ErrHelp) o), inr errCLIHelp)
  | inr e => (print_err (FlagMessage e) o, inr (flagError e))
  | inl (cfg, cmdArgs) =>
      match cmdArgs with
      | a :: _ => if isHelpToken a then (printUsage_stdout o, inr errCLIHelp) else (o, inl (cfg, cmdArgs))
      | [] => (o, inl (cfg, cmdArgs))
      end
  end.

(** * Commands *)

Definition result := (output * option cli_error)%type.

Definition lift (e : option error) : option cli_error := dbError <$> e.

(** [for it.Valid() { Fprintf; it.Next() }] *)
Fixpoint print_scan (fuel : nat) (it : DbRead.ScanIterator) (o : output) : io (DbRead.ScanIterator * result) :=
  match fuel with
  | O => io_ret (it, (o, None))
  | S fuel' =>
      if DbRead.sc_Valid it then
        let o := print_out (DbRead.sc_Key it ++ tab ++ DbRead.sc_Value it ++ newline) o in
        let! (it, e) := DbRead.sc_Next it in
        match e with
        | Some er => io_ret (it, (o, Some (dbError er)))
        | None => print_scan fuel' it o
        end
      else io_ret (it, (o, None))
  end.

Definition scan_command (fuel : nat) (start end_ : bytes) (d : DB) (o : output) : io (DB * result) :=
  let! (d, r) := DbRead.Scan start end_ d in
  match r with
  | inr e => io_ret (d, (o, Some (dbError e)))
  | inl it =>
      let! (it, (o, err)) := print_scan fuel it o in
      let! (d, (_, closeErr)) := DbRead.sc_Close it d in
      io_ret (d, (o, join_cli err (closeScanIterator <$> closeErr)))
  end.

Definition runCommand (fuel : nat) (args : list string) (d : DB) (o : output) : io (DB * result) :=
  match args with
  | "put" :: rest =>
      match rest with
      | [k; v] => let! (d, e) := DbWrite.Put (to_bytes k) (to_bytes v) d in io_ret (d, (o, lift e))
      | _ => io_ret (d, (o, Some (usageError "usage: pebbledb put <key> <value>")))
      end
  | "get" :: rest =>
      match rest with
      | [k] =>
          let! (d, r) := DbRead.Get (to_bytes k) d in
          match r with
          | inr e =>
              if error_Is ErrNotFound e then io_ret (d, (o, Some (exitCodeError 1 "key not found")))
              else io_ret (d, (o, Some (dbError e)))
          | inl val => io_ret (d, (print_out (val ++ newline) o, None))
          end
      | _ => io_ret (d, (o, Some (usageError "usage: pebbledb get <key>")))
      end
  | "delete" :: rest =>
      match rest with
      | [k] => let! (d, e) := DbWrite.Delete (to_bytes k) d in io_ret (d, (o, lift e))
      | _ => io_ret (d, (o, Some (usageError "usage: pebbledb delete <key>")))
      end
  | "sync" :: rest =>
      match rest with
      | [] => let! (d, e) := DbWrite.Sync d in io_ret (d, (o, lift e))
      | _ => io_ret (d, (o, Some (usageError "usage: pebbledb sync")))
      end
  | "scan" :: rest =>
      match rest with
      | [] => scan_command fuel [] [] d o
      | [s] => scan_command fuel (to_bytes s) [] d o
      | [s; e] => scan_command fuel (to_bytes s) (to_bytes e) d o
      | _ => io_ret (d, (o, Some (usageError "usage: pebbledb scan [start] [end]")))
      end
  | cmd :: _ => io_ret (d, (printUsage_stderr o, Some (unknownCommand cmd)))
  | [] => io_res Crashed
  end.

(** * Directories *)

(** The directories by their names; what is not there is empty, and [Open] creates it.
    Different names are taken to be different directories. *)
Notation disk := (gmap string fsys).

Definition files_in (name : string) (ds : disk) : fsys := default ∅ (ds !! name).

Definition disk_io (A : Type) := disk * list fault -> res A * (disk * list fault).

Definition disk_ret {A} (a : A) : disk_io A := fun w => (Ok a, w).

(** A computation whose files are those of one directory. *)
Definition in_dir {A} (name : string) (m : io A) : disk_io A := fun '(ds, fl) =>
  let '(r, w) := m (mkWorld (files_in name ds) fl) in (r, (<[name := fs w]> ds, faults w)).

(** * run and main *)

Section run.
Context `{BloomSizing}.

Definition options_of (cfg : cliConfig) : Options :=
  mkOptions (dir cfg) 0 0 (Wal.mkLimits 0 0 0 0) (cli_syncWrites cfg) None.

(** The command on an open database and the deferred [Close]. *)
Definition with_database (fuel : nat) (cmdArgs : list string) (d : DB) (o : output) : io result :=
  let! (d, (o, err)) := runCommand fuel cmdArgs d o in
  let! (d, closeErr) := Close fuel d in
  io_ret (o, join_cli err (closeDatabase <$> closeErr)).

(** [env] and [args] are those of the process, [flock] the answer to the request for
    the lock, [coins] the random source of the memtables. *)
Definition run (env : gmap string string) (flock : option error) (coins : list (list bool)) (fuel : nat)
    (args : list string) : disk_io result :=
  match parseCLI env args silent with
  | (o, inr errCLIHelp) => disk_ret (o, None)
  | (o, inr e) => disk_ret (o, Some e)
  | (o, inl (cfg, [])) => disk_ret (printUsage_stderr o, Some (exitCodeError 1 "missing command"))
  | (o, inl (cfg, (cmd :: _) as cmdArgs)) =>
      if isHelpToken cmd then disk_ret (printUsage_stdout o, None) else
      in_dir (dir cfg)
        (let! r := try (Open (options_of cfg) flock coins) in
         match r with
         | inr e => io_ret (o, Some (if error_Is ErrDatabaseLocked e then lockedError (dir cfg) else dbError e))
         | inl d => with_database fuel cmdArgs d o
         end)
  end.

(** What the process prints and its exit code. *)
Definition main (env : gmap string string) (flock : option error) (coins : list (list bool)) (fuel : nat)
    (args : list string) : disk_io (output * Z) := fun w =>
  match run env flock coins fuel args w with
  | (Ok (o, None), w') => (Ok (o, 0), w')
  | (Ok (o, Some e), w') => (Ok (print_err (ErrorLine e) o, default 1 (exit_code e)), w')
  | (Err e, w') => (Err e, w')
  | (Crashed, w') => (Crashed, w')
  end.

End run.

End Cli.
