(* ===== verification/CliProps.v ===== *)
(** The command line (Cli.v): how arguments are read, and what a user sees of the
    database over several runs of the program. *)

From Stdlib Require Import ZArith Lia.
From S2P Require Import Prelude Word Fs GoStr Memtable Wal Manifest Bloom SstFormat SstWriter SstReader.
From S2P Require Import MergeIter SstMerge SstTable DbState DbFlush DbWrite DbRead DbCompact DbOpen.
From S2P Require Import DbRecover DbInv DbFlushSpec DbCompactSpec DbCloseSpec DbCrash Demo Cli.

Module CliProps.
Import Db DbOpen DbRead DbRecover DbInv DbCloseSpec DbCrash SstTable Cli.

(** * Flags *)

(** One setting in one of the spellings the [flag] package accepts: one dash or two, the
    value behind [=] or in the next argument. *)
Inductive setting :=
| DirEq (two : bool) (v : string)
| DirNext (two : bool) (v : string)
| SyncBare (two : bool)
| SyncEq (two : bool) (v : string).

Definition dashes (two : bool) (s : string) : string := if two then String.append "--" s else String.append "-" s.

Definition spell (s : setting) : list string :=
  match s with
  | DirEq two v => [dashes two (String.append "dir=" v)]
  | DirNext two v => [dashes two "dir"; v]
  | SyncBare two => [dashes two "sync-writes"]
  | SyncEq two v => [dashes two (String.append "sync-writes=" v)]
  end.

Definition apply_setting (cfg : cliConfig) (s : setting) : cliConfig :=
  match s with
  | DirEq _ v | DirNext _ v => mkCliConfig v (cli_syncWrites cfg)
  | SyncBare _ => mkCliConfig (dir cfg) true
  | SyncEq _ v => mkCliConfig (dir cfg) (default false (ParseBool v))
  end.

Definition setting_ok (s : setting) : bool :=
  match s with SyncEq _ v => bool_decide (is_Some (ParseBool v)) | _ => true end.

(** The arguments behind the flags: set off by [--], or not starting with a flag. *)
Definition operands (explicit : bool) (cmd : list string) : list string := if explicit then "--"%string :: cmd else cmd.
Definition operands_ok (explicit : bool) (cmd : list string) : bool :=
  explicit || match cmd with [] => true | a :: _ => match classify a with Operand => true | _ => false end end.

Lemma Parse_operands explicit cmd cfg : operands_ok explicit cmd = true -> Parse (operands explicit cmd) cfg = inl (cfg, cmd).
Proof.
  destruct explicit; [done|]. destruct cmd as [|a cmd]; [done|]. cbn [operands_ok operands orb Parse].
  by destruct (classify a).
Qed.

Lemma Parse_setting s rest cfg : setting_ok s = true -> Parse (spell s ++ rest) cfg = Parse rest (apply_setting cfg s).
Proof.
  destruct s as [[] v|[] v|[]|[] v]; try done; intros Hok; cbn [setting_ok] in Hok;
    apply bool_decide_eq_true_1 in Hok as [b Hb]; cbn [apply_setting]; rewrite Hb;
    (transitivity (match ParseBool v with
                   | Some b => Parse rest (mkCliConfig (dir cfg) b)
                   | None => inr (InvalidBoolean v "sync-writes")
                   end); [reflexivity|by rewrite Hb]).
Qed.

Lemma spell_no_help s x rest : spell s = x :: rest -> isHelpToken x = false.
Proof.
  destruct s as [[] v|[] v|[]|[] v]; intros [= <- _]; apply bool_decide_eq_false_2;
    rewrite !elem_of_cons, elem_of_nil; intros H; destruct_or!; done.
Qed.

(** The lone argument that asks for help is not one of these. *)
Lemma no_help_alone (ss : list setting) explicit cmd :
  match cmd with [] => True | c :: _ => isHelpToken c = false end ->
  match concat (spell <$> ss) ++ operands explicit cmd with [x] => isHelpToken x | _ => false end = false.
Proof.
  intros Hc. destruct ss as [|s ss].
  - destruct explicit; cbn; [by destruct cmd|]. by destruct cmd as [|c []].
  - rewrite fmap_cons. cbn [concat]. destruct (spell s) as [|x xs] eqn:Es; [by destruct s|].
    cbn [app]. destruct ((xs ++ _) ++ _); [|done]. by eapply spell_no_help.
Qed.

(** Flags are read as they are meant: any sequence of [-dir] and [-sync-writes]
    settings, each with one dash or two and with its value behind [=] or, for [-dir],
    in the next argument, followed by a command, gives the configuration in which the
    last setting of each kind wins over the environment, and exactly the command. *)
Theorem parseCLI_settings env (ss : list setting) explicit cmd :
  forallb setting_ok ss = true -> operands_ok explicit cmd = true ->
  match cmd with [] => True | c :: _ => isHelpToken c = false end ->
  parseCLI env (concat (spell <$> ss) ++ operands explicit cmd) silent =
    (silent, inl (fold_left apply_setting ss (env_config env), cmd)).
Proof.
  intros Hss Hop Hcmd.
  assert (HP : forall cfg, Parse (concat (spell <$> ss) ++ operands explicit cmd) cfg =
    inl (fold_left apply_setting ss cfg, cmd)).
  { clear Hcmd. induction ss as [|s ss IH]; intros cfg; [by apply Parse_operands|].
    cbn [forallb] in Hss. apply andb_true_iff in Hss as [Hs Hss]. rewrite fmap_cons. cbn [concat fold_left].
    rewrite <- app_assoc, Parse_setting by done. by apply IH. }
  unfold parseCLI. rewrite no_help_alone, HP by done. destruct cmd as [|c cmd]; [done|]. by rewrite Hcmd.
Qed.

Definition example_settings : list setting := [SyncBare false; DirNext true "/tmp/a"; DirEq false "b"; SyncEq true "F"].

Lemma parseCLI_settings_witness :
  parseCLI ∅ ["-sync-writes"; "--dir"; "/tmp/a"; "-dir=b"; "--sync-writes=F"; "--"; "-get"; "-k"]%string silent =
    (silent, inl (mkCliConfig "b" false, ["-get"; "-k"]%string)).
Proof.
  refine (parseCLI_settings ∅ example_settings true ["-get"; "-k"]%string _ _ _); vm_compute; reflexivity.
Defined.

(** * Sessions *)

Section sessions.
Context `{BloomSizing}.

(** The limits of every database the program opens. *)
Definition cli_limits : Wal.ReplayLimits := Wal.WithDefaults (Wal.mkLimits 0 0 0 0).

(** Room for the next table. *)
Definition small_ids (n : Z) (tables : list (Z * list (list entry))) : Prop := Forall (fun t => 0 <= t.1 < n) tables.

(** What a process may find in its directory: a closed database, or nothing. *)
Definition idle (f : fsys) (tables : list (Z * list (list entry))) : Prop :=
  at_rest cli_limits f tables \/ f = ∅ /\ tables = [].

(** The first [Open] in a directory. *)
Lemma first_open c coins : dir c <> ""%string ->
  exists d f, Open (options_of c) None coins (mkWorld ∅ []) = (Ok d, mkWorld f []) /\ db_inv d f [] [] [] /\
    closed d = false /\ pendingBatch d = [] /\ pendingFlush d = [] /\ bgErrs d = ∅ /\
    walLimits (cfg d) = cli_limits /\ compactCh d = 0%nat /\ nextSSTID d = 0.
Proof.
  intros Hdir. unfold Open. destruct c as [D s]. rewrite decide_False by done.
  eexists _, _. split; [vm_compute; reflexivity|].
  split; [|vm_compute; split_and!; reflexivity]. split.
  - split; [exact (proj1 (Demo.new_wf_empty (hd [] coins)))|vm_compute; constructor].
  - reflexivity.
  - constructor.
  - constructor.
  - eexists. split; [reflexivity|]. cbn [Manifest.path Manifest.file Manifest.liveSet].
    split; [|split; [reflexivity|split; [vm_compute; reflexivity|]]].
    + split; [by vm_compute|]. by exists "000001"%string.
    + split; vm_compute; reflexivity.
  - constructor.
  - vm_compute. reflexivity.
  - constructor.
  - vm_compute. reflexivity.
  - vm_compute. reflexivity.
  - constructor.
  - vm_compute. reflexivity.
  - intros _ p [fl Hp].
    match type of Hp with ?m !! _ = _ => assert (HF : map_Forall (fun q (_ : file) => GoStr.sstFilePattern q = None) m) end.
    { apply map_Forall_to_list. vm_compute. repeat constructor. }
    exact (HF p fl Hp).
  - exists [], []. split; [reflexivity|constructor|done|exact (proj2 (Demo.new_wf_empty (hd [] coins)))].
  - exact (map_Forall_empty (M := gmap nat) _).
Qed.

Lemma session_opens c coins f tables n : idle f tables -> dir c <> ""%string ->
  zlen tables < DbCompact.defaultCompactThreshold -> small_ids n tables -> 0 < n ->
  exists d f' es, Open (options_of c) None coins (mkWorld f []) = (Ok d, mkWorld f' []) /\ db_inv d f' es tables [] /\
    closed d = false /\ pendingBatch d = [] /\ pendingFlush d = [] /\ bgErrs d = ∅ /\
    walLimits (cfg d) = cli_limits /\ compactCh d = 0%nat /\ 0 <= nextSSTID d < n.
Proof.
  intros [Hr|[-> ->]] Hdir Hfew Hids Hn.
  - destruct (at_rest_opens (options_of c) coins f tables) as
      (d & f' & es & Ho & Hinv & H1 & H2 & H3 & H4 & H5 & H6 & H7 & H8); [done|done|].
    exists d, f', es. do 6 (split; [done|]). rewrite H5. split; [done|]. split; [by apply H6|].
    destruct H7 as [-> |Hin]; [done|]. apply list_elem_of_fmap in Hin as (t & -> & Ht).
    unfold small_ids in Hids. rewrite Forall_forall in Hids. by apply Hids.
  - destruct (first_open c coins Hdir) as (d & f' & Ho & Hinv & H1 & H2 & H3 & H4 & H5 & H6 & H7).
    exists d, f', []. do 8 (split; [done|]). rewrite H7. lia.
Qed.

Lemma admissible_weight limits rec : Wal.admissible limits rec -> weight [rec] < 2 ^ 40.
Proof.
  intros (H1 & H2 & _). rewrite weight_cons. unfold is_u32 in *. change (weight []) with 0. lia.
Qed.

(** What the next process finds: the tables [tables'] and nothing in the log. *)
Definition leaves (tables' : list (Z * list (list entry))) (f : fsys) : Prop :=
  forall f', power_loss f f' -> at_rest cli_limits f' tables'.

(** Closing a handle on which [logged] and the batch are not yet in tables. *)
Lemma session_closes fuel d f es tables logged : db_inv d f es tables logged -> closed d = false -> closable d ->
  Forall (Wal.admissible (limits_of d)) (pendingBatch d) -> roomy d tables (logged ++ pendingBatch d) ->
  compactCh d = 0%nat -> walLimits (cfg d) = cli_limits ->
  exists d' f' tables', Close (S (S fuel)) d (mkWorld f []) = (Ok (d', None), mkWorld f' []) /\ leaves tables' f' /\
    absorbed d tables (logged ++ pendingBatch d) tables'.
Proof.
  intros Hinv Hcl Hq Ha Hroom Hcc Hlim.
  destruct (close_database_quiet fuel d f es tables logged Hinv Hcl Hq Ha Hroom Hcc)
    as (d' & dm & f' & es' & tables' & Hrun & _ & _ & _ & _ & _ & Hinv' & Hcfg & Hab).
  exists d', f', tables'. split; [done|]. split; [|done]. intros f'' Hpl. rewrite <- Hlim, <- Hcfg. by eapply closed_at_rest.
Qed.

(** ** One process *)

(** How a process is started: its environment, the flags in front of the command and
    whether [--] stands between them; and what it draws from the random source, and the
    rounds that [Close] waits for the flusher, at least two. *)
Record process := mkProcess {
  p_env : gmap string string; p_settings : list setting; p_explicit : bool; p_coins : list (list bool); p_fuel : nat
}.

Definition config (p : process) : cliConfig := fold_left apply_setting (p_settings p) (env_config (p_env p)).

Definition start (p : process) (cmd : list string) : disk_io (output * Z) :=
  main (p_env p) None (p_coins p) (S (S (p_fuel p))) (concat (spell <$> p_settings p) ++ operands (p_explicit p) cmd).

(** The flags have a meaning, and the directory is [D]. *)
Definition uses (D : string) (p : process) : Prop := forallb setting_ok (p_settings p) = true /\ dir (config p) = D.

Lemma files_in_insert D f ds : files_in D (<[D := f]> ds) = f.
Proof. unfold files_in. by rewrite lookup_insert_eq. Qed.

Lemma in_dir_run {A} D (m : io A) ds fl r f' fl' : m (mkWorld (files_in D ds) fl) = (r, mkWorld f' fl') ->
  in_dir D m (ds, fl) = (r, (<[D := f']> ds, fl')).
Proof. unfold in_dir. by intros ->. Qed.

(** A process with a command whose database opens. *)
Lemma start_command p D cmd args ds d f1 r f2 : uses D p -> classify cmd = Operand -> isHelpToken cmd = false ->
  Open (options_of (config p)) None (p_coins p) (mkWorld (files_in D ds) []) = (Ok d, mkWorld f1 []) ->
  with_database (S (S (p_fuel p))) (cmd :: args) d silent (mkWorld f1 []) = (Ok r, mkWorld f2 []) ->
  start p (cmd :: args) (ds, []) =
    (Ok (match r.2 with None => (r.1, 0) | Some e => (print_err (ErrorLine e) r.1, default 1 (exit_code e)) end), (<[D := f2]> ds, [])).
Proof.
  intros [Hset Hdir] Hc Hh Ho Hw. unfold start, main, run.
  rewrite (parseCLI_settings (p_env p) (p_settings p) (p_explicit p) (cmd :: args)); [|done| |done].
  2:{ unfold operands_ok. rewrite Hc. apply orb_true_r. }
  rewrite Hh. fold (config p). rewrite Hdir.
  rewrite (in_dir_run D _ ds [] (Ok r) f2 []); [by destruct r as [o [e|]]|]. by rewrite (bind_try_ok _ _ _ _ _ Ho).
Qed.

(** The two commands that write. *)
Inductive write_command := PutCmd (k v : string) | DeleteCmd (k : string).

Definition write_args (w : write_command) : list string :=
  match w with PutCmd k v => ["put"; k; v]%string | DeleteCmd k => ["delete"; k]%string end.
Definition write_rec (w : write_command) : entry :=
  match w with PutCmd k v => Entry (to_bytes k) (to_bytes v) false | DeleteCmd k => Entry (to_bytes k) [] true end.

(** What it does to the map. *)
Definition apply_write (m : layer) (w : write_command) : layer := <[Key (write_rec w) := cell (write_rec w)]> m.

Lemma run_write fuel w d f1 d1 f2 d2 f3 : DbWrite.writeRecord (write_rec w) d (mkWorld f1 []) = (Ok (d1, None), mkWorld f2 []) ->
  Close fuel d1 (mkWorld f2 []) = (Ok (d2, None), mkWorld f3 []) ->
  with_database fuel (write_args w) d silent (mkWorld f1 []) = (Ok (silent, None), mkWorld f3 []).
Proof.
  intros Hw Hc. unfold with_database. rewrite (io_bind_ok (A := DB * result) _ _ _ (d1, (silent, None)) (mkWorld f2 [])); [by rewrite (io_bind_ok _ _ _ _ _ Hc)|].
  destruct w as [k v|k]; cbn [write_args write_rec] in *; unfold runCommand, DbWrite.Put, DbWrite.Delete; by rewrite (io_bind_ok _ _ _ _ _ Hw).
Qed.

Lemma start_write p D w ds d f1 f2 : uses D p ->
  Open (options_of (config p)) None (p_coins p) (mkWorld (files_in D ds) []) = (Ok d, mkWorld f1 []) ->
  with_database (S (S (p_fuel p))) (write_args w) d silent (mkWorld f1 []) = (Ok (silent, None), mkWorld f2 []) ->
  start p (write_args w) (ds, []) = (Ok (silent, 0), (<[D := f2]> ds, [])).
Proof.
  intros Hu Ho Hw. destruct w as [k v|k].
  - exact (start_command p D "put" [k; v]%string ds d f1 (silent, None) f2 Hu eq_refl eq_refl Ho Hw).
  - exact (start_command p D "delete" [k]%string ds d f1 (silent, None) f2 Hu eq_refl eq_refl Ho Hw).
Qed.

Lemma write_session p D w ds tables n : D <> ""%string -> uses D p -> idle (files_in D ds) tables ->
  zlen tables < DbCompact.defaultCompactThreshold -> small_ids n tables -> 0 < n < 2 ^ 64 - 1 ->
  Wal.admissible (Wal.WithDefaults cli_limits) (write_rec w) ->
  exists f' tables', start p (write_args w) (ds, []) = (Ok (silent, 0), (<[D := f']> ds, [])) /\
    leaves tables' f' /\ disk_layer tables'.*2 = apply_write (disk_layer tables.*2) w /\
    zlen tables' <= zlen tables + 1 /\ small_ids (n + 1) tables'.
Proof.
  intros HD Hu Hr Hfew Hids Hn Ha.
  destruct (session_opens (config p) (p_coins p) (files_in D ds) tables n Hr) as (d & f1 & es & Ho & Hinv & Hcl & Hb & Hq & Hbg & Hlim & Hcc & Hid);
    [by rewrite (proj2 Hu)|done|done|lia|].
  destruct (write_quiet (write_rec w) d f1 es tables [] Hinv Hcl Hbg Hq Hb) as
    (d1 & f2 & logged & Hw & Hinv1 & Hlog & Ha1 & Hq1 & Hcl1 & Hcfg1 & Hn1 & Hcc1).
  { unfold limits_of. by rewrite Hlim. }
  destruct (session_closes (p_fuel p) d1 f2 es tables logged Hinv1 Hcl1 Hq1 Ha1) as (d2 & f3 & tables' & Hclose & Hl & Hlayer & Hab).
  { rewrite Hlog. split; [done|]. split; [by eapply admissible_weight|]. rewrite Hn1. unfold DbCompact.defaultCompactThreshold in *.
    split; lia. }
  { congruence. }
  { by rewrite Hcfg1. }
  exists f3, tables'. split.
  { apply (start_write p D w ds d f1 f3 Hu Ho). by eapply run_write. }
  split; [done|]. split.
  { rewrite Hlayer, Hlog. cbn [app]. rewrite <- (app_nil_l [write_rec w]), log_layer_snoc. change (log_layer []) with (∅ : layer).
    by rewrite <- insert_union_l, (map_empty_union (M := gmap bytes)). }
  unfold small_ids in Hids. destruct Hab as [-> |[groups ->]].
  - split; [lia|]. eapply Forall_impl; [exact Hids|]. intros t ?. cbn in *. lia.
  - rewrite zlen_app. split; [done|]. apply Forall_app. split; [|apply Forall_singleton; cbn; lia].
    eapply Forall_impl; [exact Hids|]. intros t ?. cbn in *. lia.
Qed.

(** What [get] prints and returns for a cell. *)
Definition get_output (c : option (option bytes)) : output * Z :=
  match c with
  | Some (Some v) =>
      if bool_decide (v = []) then (Output [] [ErrorLine (exitCodeError 1 "key not found")], 1)
      else (Output (v ++ newline) [], 0)
  | _ => (Output [] [ErrorLine (exitCodeError 1 "key not found")], 1)
  end.

(** The same as the result of the command. *)
Definition get_result (c : option (option bytes)) : result :=
  match c with
  | Some (Some v) =>
      if bool_decide (v = []) then (silent, Some (exitCodeError 1 "key not found")) else (Output (v ++ newline) [], None)
  | _ => (silent, Some (exitCodeError 1 "key not found"))
  end.

Lemma run_get fuel k d f1 f2 d2 tables : readable d f1 tables -> closed d = false -> DbWrite.memory_layer d = ∅ ->
  Close fuel d (mkWorld f1 []) = (Ok (d2, None), mkWorld f2 []) ->
  with_database fuel ["get"; k]%string d silent (mkWorld f1 []) = (Ok (get_result (disk_layer tables !! to_bytes k)), mkWorld f2 []).
Proof.
  intros Hread Hcl Hmem Hclose. pose proof (Get_quiet d f1 tables (to_bytes k) Hread Hcl) as Hget.
  rewrite Hmem, lookup_empty in Hget. cbn [get_answer] in Hget. unfold with_database.
  rewrite (io_bind_ok (A := DB * result) _ _ _ (d, get_result (disk_layer tables !! to_bytes k)) (mkWorld f1 [])).
  - destruct (get_result _) as [o e]. rewrite (io_bind_ok _ _ _ _ _ Hclose). cbn. by destruct e.
  - unfold runCommand. rewrite (io_bind_ok _ _ _ _ _ Hget). destruct (disk_layer tables !! to_bytes k) as [[v|]|]; [|done..].
    cbn [get_result]. by case_bool_decide.
Qed.

Lemma get_session p D k ds tables n : D <> ""%string -> uses D p -> idle (files_in D ds) tables ->
  zlen tables < DbCompact.defaultCompactThreshold -> small_ids n tables -> 0 < n < 2 ^ 64 - 1 ->
  exists f', start p ["get"; k]%string (ds, []) = (Ok (get_output (disk_layer tables.*2 !! to_bytes k)), (<[D := f']> ds, [])) /\
    exists tables', leaves tables' f' /\ disk_layer tables'.*2 = disk_layer tables.*2.
Proof.
  intros HD Hu Hr Hfew Hids Hn.
  destruct (session_opens (config p) (p_coins p) (files_in D ds) tables n Hr) as (d & f1 & es & Ho & Hinv & Hcl & Hb & Hq & _ & Hlim & Hcc & Hid);
    [by rewrite (proj2 Hu)|done|done|lia|].
  destruct (session_closes (p_fuel p) d f1 es tables [] Hinv Hcl) as (d2 & f3 & tables' & Hclose & Hl & Hlayer & _);
    [by left|by rewrite Hb| |done|done|].
  { rewrite Hb. split; [done|]. split; [done|]. unfold DbCompact.defaultCompactThreshold in *. lia. }
  exists f3. split; [|exists tables'; split; [done|]; rewrite Hlayer, Hb; apply (map_empty_union (M := gmap bytes))].
  rewrite (start_command p D "get" [k] ds d f1 (get_result (disk_layer tables.*2 !! to_bytes k)) f3 Hu eq_refl eq_refl Ho).
  - destruct (disk_layer tables.*2 !! to_bytes k) as [[v|]|]; [|done..]. cbn [get_result get_output]. by case_bool_decide.
  - eapply run_get; [by eapply db_inv_readable|done| |done]. by rewrite (db_inv_memory _ _ _ _ _ Hinv), Hb.
Qed.

(** ** Several processes, one after the other *)

(** A loss of power between two processes, in every directory. *)
Definition disk_loss (ds ds' : disk) : Prop := forall name, power_loss (files_in name ds) (files_in name ds').

(** Each process of [ws] in turn writes, prints nothing and exits with 0, and whatever a
    loss of power does after each of them, [post] holds of the disk at the end. *)
Fixpoint all_exit_0 (ws : list (process * write_command)) (ds : disk) (post : disk -> Prop) : Prop :=
  match ws with
  | [] => post ds
  | (p, w) :: ws' => exists ds1, start p (write_args w) (ds, []) = (Ok (silent, 0), (ds1, [])) /\
      forall ds2, disk_loss ds1 ds2 -> all_exit_0 ws' ds2 post
  end.

(** C11: The program is a persistent map.  In one directory that is new or holds a closed
    database, let any processes one after the other put or delete, and let the power go
    after each of them: each exits with 0 and prints nothing, and a [get] in a later
    process prints the value of its key in the map that all the writes have updated in
    their order and exits with 0, or says that the key is not found and exits with 1.
    The processes may name the directory and set [-sync-writes] by their environment or
    by flags in any spelling, as long as the directory is the same.  The empty value is
    the one that [get] does not find.  This holds without faults other than the loss of
    power between processes, for records within the limits of the log, and while there
    are so few tables, with one for every write, that no compaction is due: three. *)
Theorem cli_writes_then_get D ws p k ds tables : D <> ""%string -> idle (files_in D ds) tables ->
  zlen tables + zlen ws <= 3 -> small_ids (2 ^ 63) tables ->
  Forall (fun pw => uses D pw.1 /\ Wal.admissible (Wal.WithDefaults cli_limits) (write_rec pw.2)) ws -> uses D p ->
  all_exit_0 ws ds (fun ds' => exists ds'', start p ["get"; k]%string (ds', []) =
    (Ok (get_output (fold_left apply_write ws.*2 (disk_layer tables.*2) !! to_bytes k)), (ds'', []))).
Proof.
  intros HD Hr Hfew Hids Hws Hp. assert (Hn : 0 < 2 ^ 63 /\ 2 ^ 63 + zlen ws < 2 ^ 64 - 1) by (pose proof (zlen_nonneg tables); lia).
  revert Hids Hn. generalize (2 ^ 63) as n. intros n. revert n ds tables Hr Hfew.
  induction Hws as [|[q w] ws [Hq Ha] Hws IH]; intros n ds tables Hr Hfew Hids Hn; cbn [all_exit_0].
  - change (zlen []) with 0 in *. destruct (get_session p D k ds tables n HD Hp Hr) as (f' & Hget & _); [|done|lia|by eexists].
    unfold DbCompact.defaultCompactThreshold. lia.
  - rewrite zlen_cons in Hfew, Hn. pose proof (zlen_nonneg ws).
    destruct (write_session q D w ds tables n HD Hq Hr) as (f1 & tables' & Hrun & Hl & Hlayer & Hlen & Hids');
      [unfold DbCompact.defaultCompactThreshold; lia|done|lia|done|].
    exists (<[D := f1]> ds). split; [done|]. intros ds2 Hpl. rewrite fmap_cons. cbn [fold_left snd]. rewrite <- Hlayer.
    apply (IH (n + 1)); [|lia|done|lia]. left. apply Hl. specialize (Hpl D). by rewrite files_in_insert in Hpl.
Qed.

End sessions.

(** A new directory: a value is put and put again by processes that name the directory in
    different ways, and read by a third. *)
Definition by_flag : process := mkProcess ∅ [SyncBare true; DirEq false "data"] false [] 0.
Definition by_env : process := mkProcess {["PEBBLEDB_DIR" := "data"]}%string [] true [] 0.

Lemma cli_writes_then_get_witness :
  exists ds1, start by_flag ["put"; "a"; "old"]%string (∅, []) = (Ok (silent, 0), (ds1, [])) /\
    forall ds2, disk_loss ds1 ds2 ->
      exists ds3, start by_env ["put"; "a"; "new"]%string (ds2, []) = (Ok (silent, 0), (ds3, [])) /\
        forall ds4, disk_loss ds3 ds4 ->
          exists ds5, start by_flag ["get"; "a"]%string (ds4, []) = (Ok (Output (to_bytes "new" ++ newline) [], 0), (ds5, [])).
Proof.
  assert (Hf : uses "data" by_flag) by (split; vm_compute; reflexivity).
  assert (He : uses "data" by_env) by (split; vm_compute; reflexivity).
  destruct (cli_writes_then_get "data" [(by_flag, PutCmd "a" "old"); (by_env, PutCmd "a" "new")] by_flag "a" ∅ []) as (ds1 & H1 & H2).
  - discriminate.
  - by right.
  - by_decide.
  - constructor.
  - constructor; [split; [exact Hf|by_decide]|]. constructor; [split; [exact He|by_decide]|constructor].
  - exact Hf.
  - exists ds1. split; [exact H1|]. intros ds2 Hl. destruct (H2 ds2 Hl) as (ds3 & H3 & H4).
    exists ds3. split; [exact H3|]. intros ds4 Hl'. destruct (H4 ds4 Hl') as (ds5 & H5). exists ds5. exact H5.
Defined.

End CliProps.
