(* ===== verification/AtfSession.v ===== *)
(** The life cycle of a campaign of acceptance scenarios
    (internal/db/acceptance/framework: types/types.go, session/session.go).

    Go's named integers and strings are inductive types with the source's constants and
    one constructor for every other value of the underlying type.  Times are numbers:
    nothing of the logic depends on them. *)

From Stdlib Require Import ZArith Lia.
From S2P Require Import Prelude.

Module AtfSession.

(** * types.go *)

Inductive State :=
  | StateInit | StateCampaignRunning | StateScenarioRunning | StateExecutionPrepared
  | StateSubprocessWriting | StateSubprocessCrashed | StateSubprocessExited | StateDirectorySnapshoted
  | StateRecoveryAttempted | StateVerificationRunning | StateEvidenceCollected
  | StateScenarioCompleted | StateScenarioFailed | StateCampaignCompleted
  | StateOther (n : Z).

#[export] Instance State_eq_dec : EqDecision State.
Proof. solve_decision. Defined.

Definition state_String (s : State) : string :=
  match s with
  | StateInit => "INIT"
  | StateCampaignRunning => "CAMPAIGN_RUNNING"
  | StateScenarioRunning => "SCENARIO_RUNNING"
  | StateExecutionPrepared => "EXECUTION_PREPARED"
  | StateSubprocessWriting => "SUBPROCESS_WRITING"
  | StateSubprocessCrashed => "SUBPROCESS_CRASHED"
  | StateSubprocessExited => "SUBPROCESS_EXITED"
  | StateDirectorySnapshoted => "DIRECTORY_SNAPSHOTTED"
  | StateRecoveryAttempted => "RECOVERY_ATTEMPTED"
  | StateVerificationRunning => "VERIFICATION_RUNNING"
  | StateEvidenceCollected => "EVIDENCE_COLLECTED"
  | StateScenarioCompleted => "SCENARIO_COMPLETED"
  | StateScenarioFailed => "SCENARIO_FAILED"
  | StateCampaignCompleted => "CAMPAIGN_COMPLETED"
  | StateOther _ => "UNKNOWN"
  end.

Inductive Status := StatusPass | StatusFail | StatusBlocked | StatusInconclusive | StatusOther (s : string).

#[export] Instance Status_eq_dec : EqDecision Status.
Proof. solve_decision. Defined.

(** [OptionsMap] and [VerifyDAGMap] are maps that the code only reads: association lists. *)
Record ScenarioDefinition := mkScenario {
  IDStr : string; NameStr : string; VersionStr : string; PriorityVal : Z;
  RequirementsVal : list string; ContractsVal : list string; CapabilitiesVal : list string;
  OptionsMap : list (string * string); CrashPointStr : string; VerifyDAGMap : list (string * list string)
}.

Record ExecutionResult := mkExecution {
  RunIndex : Z; ExitCode : Z; Duration : Z; StderrSummary : string; StateAtExit : State
}.

Record ModuleOutcome := mkModuleOutcome {
  mo_Name : string; mo_Passed : bool; mo_PassedChecks : Z; mo_FailedChecks : Z; mo_DurationMs : Z
}.

Record VerifierFailure := mkVerifierFailure {
  vf_Verifier : string; vf_Key : string; vf_Expected : string; vf_Actual : string; vf_Details : string
}.

Record VerificationOutcome := mkOutcome {
  vo_Passed : bool; vo_PassedChecks : Z; vo_FailedChecks : Z; vo_DurationMs : Z;
  vo_Aborted : bool; vo_AbortReason : string; vo_Modules : list ModuleOutcome; vo_Failures : list VerifierFailure
}.

(** [Verification] is a pointer. *)
Record ScenarioResult := mkResult {
  ScenarioID : string; StatusVal : Status; Retries : Z; Executions : list ExecutionResult;
  Verification : option VerificationOutcome; TempDir : string; EvidencePath : string; FailureStage : string
}.

(** The zero value. *)
Definition noResult : ScenarioResult := mkResult "" (StatusOther "") 0 [] None "" "" "".

Record Metadata := mkMetadata { PebbleCommit : string; GoVersion : string; Platform : string; Timestamp : Z }.

Record CampaignSummary := mkSummary {
  TotalScenarios : Z; PassedCount : Z; FailedCount : Z; BlockedCount : Z; DurationMs : Z
}.

Record CampaignResult := mkCampaignResult {
  SessionID : string; Passed : bool; cr_Metadata : Metadata; Summary : CampaignSummary; Details : list ScenarioResult
}.

(** * session.go *)

(** [None] where the map has no entry. *)
Definition AllowedTransitions (s : State) : option (list State) :=
  match s with
  | StateInit => Some [StateCampaignRunning]
  | StateCampaignRunning => Some [StateScenarioRunning; StateCampaignCompleted]
  | StateScenarioRunning => Some [StateExecutionPrepared; StateScenarioCompleted; StateScenarioFailed]
  | StateExecutionPrepared => Some [StateSubprocessWriting; StateScenarioFailed]
  | StateSubprocessWriting => Some [StateSubprocessCrashed; StateSubprocessExited; StateScenarioFailed]
  | StateSubprocessCrashed => Some [StateDirectorySnapshoted; StateScenarioFailed]
  | StateSubprocessExited => Some [StateDirectorySnapshoted; StateScenarioFailed]
  | StateDirectorySnapshoted => Some [StateRecoveryAttempted; StateScenarioFailed]
  | StateRecoveryAttempted => Some [StateVerificationRunning; StateScenarioFailed]
  | StateVerificationRunning => Some [StateEvidenceCollected; StateScenarioFailed]
  | StateEvidenceCollected => Some [StateScenarioCompleted; StateScenarioFailed]
  | StateScenarioCompleted => Some [StateScenarioRunning; StateCampaignCompleted]
  | StateScenarioFailed => Some [StateScenarioRunning; StateCampaignCompleted]
  | StateCampaignCompleted => None
  | StateOther _ => None
  end.

Record SessionTracker := mkTracker { sessionID : string; state : State; createdAt : Z }.

(** The identifier, random, and the time are arguments. *)
Definition NewSessionTracker (uuid : string) (now : Z) (initialState : State) : SessionTracker :=
  mkTracker uuid initialState now.

Inductive state_error := StuckState (s : State) | ForbiddenTransition (s new : State).

Definition Transition (s : SessionTracker) (newState : State) : SessionTracker * option state_error :=
  match AllowedTransitions (state s) with
  | None => (s, Some (StuckState (state s)))
  | Some allowed =>
      if decide (newState ∈ allowed) then (mkTracker (sessionID s) newState (createdAt s), None)
      else (s, Some (ForbiddenTransition (state s) newState))
  end.

Definition Fail (s : SessionTracker) : SessionTracker * option state_error := Transition s StateScenarioFailed.

Record CampaignTracker := mkCampaign { ct_session : SessionTracker; ct_metadata : Metadata; ct_scenarios : list ScenarioResult }.

Definition NewCampaignTracker (uuid : string) (now : Z) (meta : Metadata) : CampaignTracker :=
  mkCampaign (NewSessionTracker uuid now StateInit) meta [].

Definition AddScenarioResult (c : CampaignTracker) (res : ScenarioResult) : CampaignTracker :=
  mkCampaign (ct_session c) (ct_metadata c) (ct_scenarios c ++ [res]).

(** The body of the loop of [CompileResult]. *)
Definition count_result (acc : CampaignSummary * bool) (s : ScenarioResult) : CampaignSummary * bool :=
  let '(mkSummary t p f b d, passed) := acc in
  match StatusVal s with
  | StatusPass => (mkSummary (t + 1) (p + 1) f b d, passed)
  | StatusFail => (mkSummary (t + 1) p (f + 1) b d, false)
  | StatusBlocked => (mkSummary (t + 1) p f (b + 1) d, false)
  | StatusInconclusive => (mkSummary (t + 1) p f b d, false)
  | StatusOther _ => (mkSummary (t + 1) p f b d, passed)
  end.

Definition CompileResult (c : CampaignTracker) : CampaignResult :=
  let '(sum, passed) := fold_left count_result (ct_scenarios c) (mkSummary 0 0 0 0 0, true) in
  mkCampaignResult (sessionID (ct_session c)) passed (ct_metadata c) sum (ct_scenarios c).

(** * The life cycle *)

(** The states a tracker went through, the current one first; each step is a
    [Transition] that returned nil. *)
Inductive trace (s0 : State) : list State -> Prop :=
  | trace_start : trace s0 [s0]
  | trace_step s h new t t' : trace s0 (s :: h) -> state t = s -> Transition t new = (t', None) ->
      trace s0 (state t' :: s :: h).

Lemma Transition_ok t new t' : Transition t new = (t', None) ->
  state t' = new /\ sessionID t' = sessionID t /\ exists l, AllowedTransitions (state t) = Some l /\ new ∈ l.
Proof.
  unfold Transition. destruct (AllowedTransitions (state t)) as [l|] eqn:E; [|done]. case_decide as Hd; [|done].
  intros [= <-]. split; [done|]. split; [done|]. by exists l.
Qed.

(** A transition is an error exactly when the table does not list it, and then nothing
    changes. *)
Lemma Transition_cases t new :
  (exists l, AllowedTransitions (state t) = Some l /\ new ∈ l /\
     Transition t new = (mkTracker (sessionID t) new (createdAt t), None)) \/
  (forall l, AllowedTransitions (state t) = Some l -> new ∉ l) /\ exists e, Transition t new = (t, Some e).
Proof.
  unfold Transition. destruct (AllowedTransitions (state t)) as [l|] eqn:E; [|right; split; [done|eauto]].
  case_decide as Hd; [left; eauto|right; split; [by intros ? [= <-]|eauto]].
Qed.

(** What the states of a scenario say of the past. *)
Definition past (s : State) : list (list State) :=
  match s with
  | StateExecutionPrepared => [[StateScenarioRunning]]
  | StateSubprocessWriting => [[StateExecutionPrepared; StateScenarioRunning]]
  | StateSubprocessCrashed | StateSubprocessExited => [[StateSubprocessWriting; StateExecutionPrepared; StateScenarioRunning]]
  | StateDirectorySnapshoted =>
      (fun x => [x; StateSubprocessWriting; StateExecutionPrepared; StateScenarioRunning])
        <$> [StateSubprocessCrashed; StateSubprocessExited]
  | StateRecoveryAttempted =>
      (fun x => [StateDirectorySnapshoted; x; StateSubprocessWriting; StateExecutionPrepared; StateScenarioRunning])
        <$> [StateSubprocessCrashed; StateSubprocessExited]
  | StateVerificationRunning =>
      (fun x => [StateRecoveryAttempted; StateDirectorySnapshoted; x; StateSubprocessWriting; StateExecutionPrepared; StateScenarioRunning])
        <$> [StateSubprocessCrashed; StateSubprocessExited]
  | StateEvidenceCollected =>
      (fun x => [StateVerificationRunning; StateRecoveryAttempted; StateDirectorySnapshoted; x; StateSubprocessWriting;
                 StateExecutionPrepared; StateScenarioRunning])
        <$> [StateSubprocessCrashed; StateSubprocessExited]
  | _ => [[]]
  end.

Definition named (s : State) : Prop := match s with StateOther _ => False | _ => True end.
Lemma past_step s new l h p : AllowedTransitions s = Some l -> new ∈ l -> p ∈ past s -> p `prefix_of` h ->
  exists q, q ∈ past new /\ q `prefix_of` s :: h.
Proof.
  intros Ha Hn Hp Hpre.
  destruct s; cbn in Ha; try discriminate; injection Ha as <-; rewrite ?elem_of_cons, elem_of_nil in Hn;
    cbn in Hp; rewrite ?elem_of_cons, elem_of_nil in Hp; destruct_or!; subst; try done;
    first [ by exists []; split; [left|apply prefix_nil]
          | by eexists; split; [cbn; left; reflexivity|apply prefix_cons]
          | by eexists; split; [cbn; right; left; reflexivity|apply prefix_cons] ].
Qed.

Lemma trace_past s0 h : s0 ∈ [StateInit; StateCampaignRunning; StateScenarioRunning] -> trace s0 h ->
  exists s t, h = s :: t /\ named s /\ exists p, p ∈ past s /\ p `prefix_of` t.
Proof.
  intros H0. induction 1 as [|s h new t t' _ (s1 & h1 & [= <- <-] & Hs & p & Hp & Hpre) <- Ht].
  - exists s0, []. split; [done|]. rewrite ?elem_of_cons, elem_of_nil in H0.
    destruct_or! H0; subst; try done; (split; [done|]; exists []; split; [left|apply prefix_nil]).
  - apply Transition_ok in Ht as (-> & _ & l & Ha & Hn). destruct (past_step _ _ _ _ _ Ha Hn Hp Hpre) as (q & Hq & Hpre').
    eexists _, _. split; [reflexivity|]. split; [|eauto].
    destruct (state t); cbn in Ha; try discriminate; injection Ha as <-; rewrite ?elem_of_cons, elem_of_nil in Hn;
      destruct_or! Hn; by subst.
Qed.

(** How far a scenario is. *)
Definition stage (s : State) : nat :=
  match s with
  | StateScenarioRunning => 0
  | StateExecutionPrepared => 1
  | StateSubprocessWriting => 2
  | StateSubprocessCrashed | StateSubprocessExited => 3
  | StateDirectorySnapshoted => 4
  | StateRecoveryAttempted => 5
  | StateVerificationRunning => 6
  | StateEvidenceCollected => 7
  | StateScenarioCompleted | StateScenarioFailed => 8
  | _ => 9
  end.

Lemma stage_step s l new : AllowedTransitions s = Some l -> new ∈ l -> s ∉ [StateInit; StateCampaignRunning] ->
  new <> StateScenarioRunning -> (stage s < stage new)%nat /\ new ∉ [StateInit; StateCampaignRunning].
Proof.
  intros Ha Hn Hs Hr. destruct s; cbn in Ha; try discriminate; injection Ha as <-; rewrite ?elem_of_cons, elem_of_nil in *;
    destruct_or! Hn; subst; cbn; try (split; [lia|]); try tauto; by intros [?|[?|?]].
Qed.

(** A scenario that is not restarted ends within nine transitions. *)
Lemma trace_bounded h : trace StateScenarioRunning h -> StateScenarioRunning ∉ removelast h ->
  exists s t, h = s :: t /\ s ∉ [StateInit; StateCampaignRunning] /\ (length t <= stage s)%nat.
Proof.
  induction 1 as [|s h new t t' Htr IH <- Ht]; intros Hno.
  - exists StateScenarioRunning, []. split; [done|]. split; [|cbn; lia]. by rewrite !elem_of_cons, elem_of_nil; intros [?|[?|?]].
  - apply Transition_ok in Ht as (Es & _ & l & Ha & Hn). rewrite Es in *. clear Es.
    change (StateScenarioRunning ∉ new :: removelast (state t :: h)) in Hno. apply not_elem_of_cons in Hno as [Hne Hno].
    destruct (IH Hno) as (s1 & h1 & [= <- <-] & Hs & Hlen).
    destruct (stage_step _ _ _ Ha Hn Hs (not_eq_sym Hne)) as [Hlt Hs']. exists new, (state t :: h).
    split; [done|]. split; [done|]. cbn [length]. lia.
Qed.

(** The campaign can always be brought to its end. *)
Definition way_out (s : State) : list State :=
  match s with
  | StateCampaignCompleted => []
  | StateInit => [StateCampaignRunning; StateCampaignCompleted]
  | StateCampaignRunning | StateScenarioCompleted | StateScenarioFailed => [StateCampaignCompleted]
  | _ => [StateScenarioFailed; StateCampaignCompleted]
  end.

Fixpoint transitions (t : SessionTracker) (l : list State) : SessionTracker * option state_error :=
  match l with
  | [] => (t, None)
  | s :: l' => match Transition t s with (t', None) => transitions t' l' | (t', Some e) => (t', Some e) end
  end.

Lemma way_out_ends t : named (state t) ->
  transitions t (way_out (state t)) = (mkTracker (sessionID t) StateCampaignCompleted (createdAt t), None).
Proof. destruct t as [i s c]. by destruct s. Qed.

(** * The report *)

Definition count (st : Status) (l : list ScenarioResult) : Z := zlen (filter (fun r => StatusVal r = st) l).

Lemma count_cons st r l : count st (r :: l) = (if decide (StatusVal r = st) then 1 else 0) + count st l.
Proof. unfold count, zlen. rewrite filter_cons. case_decide; cbn [length]; lia. Qed.

(** The statuses that do not fail a campaign: PASS, and any that the source does not name. *)
Definition harmless (r : ScenarioResult) : bool :=
  match StatusVal r with StatusPass | StatusOther _ => true | _ => false end.

Lemma count_result_all l : forall t p f b d passed,
  fold_left count_result l (mkSummary t p f b d, passed) =
  (mkSummary (t + zlen l) (p + count StatusPass l) (f + count StatusFail l) (b + count StatusBlocked l) d,
   passed && forallb harmless l).
Proof.
  induction l as [|r l IH]; intros t p f b d passed.
  { cbn [fold_left forallb]. rewrite andb_true_r. unfold count, zlen. cbn. by rewrite !Z.add_0_r. }
  cbn [fold_left forallb]. rewrite !count_cons. unfold zlen, harmless. cbn [length].
  unfold count_result at 2. destruct (StatusVal r) as [| | | |x] eqn:E;
    rewrite IH; repeat first [rewrite decide_True by done|rewrite decide_False by done]; unfold zlen;
    f_equal; try (f_equal; lia); by rewrite ?andb_false_r.
Qed.

Lemma CompileResult_eq c : CompileResult c =
  let l := ct_scenarios c in
  mkCampaignResult (sessionID (ct_session c)) (forallb harmless l) (ct_metadata c)
    (mkSummary (zlen l) (count StatusPass l) (count StatusFail l) (count StatusBlocked l) 0) l.
Proof. unfold CompileResult. by rewrite count_result_all. Qed.

Lemma counts_add_up l : Forall (fun r => match StatusVal r with StatusOther _ => False | _ => True end) l ->
  zlen l = count StatusPass l + count StatusFail l + count StatusBlocked l + count StatusInconclusive l /\
  (forallb harmless l = true <-> count StatusPass l = zlen l).
Proof.
  intros Hl. assert (Hn : forall st k, 0 <= count st k) by (intros; unfold count, zlen; lia).
  assert (H : zlen l = count StatusPass l + count StatusFail l + count StatusBlocked l + count StatusInconclusive l /\
    (forallb harmless l = true <-> count StatusPass l = zlen l) /\ count StatusPass l <= zlen l); [|tauto].
  induction Hl as [|r l Hr _ IH]; [unfold count, zlen; cbn; repeat split; lia|]. destruct IH as (I1 & I2 & I3).
  rewrite !count_cons. unfold zlen, harmless in *. cbn [length forallb]. rewrite Nat2Z.inj_succ.
  destruct (StatusVal r); try done; repeat first [rewrite decide_True by done|rewrite decide_False by done]; cbn [andb];
    (split; [lia|split; [|lia]]); first [rewrite I2; lia|split; [done|lia]].
Qed.

(** * Properties *)

(** C36: a session that starts at one of the three entry states never leaves the life
    cycle, whatever Transition calls are made on it: its state is one of the named ones,
    and a state inside a scenario fixes the states before it, up to the choices that [past]
    lists; the two terminal states, which many states lead to, fix nothing.  Evidence is only
    collected of a scenario that was prepared, written, ended or crashed, snapshotted,
    recovered and verified, in this order. *)
Theorem lifecycle_history s0 h : s0 ∈ [StateInit; StateCampaignRunning; StateScenarioRunning] -> trace s0 h ->
  exists s t, h = s :: t /\ named s /\
    (exists p, p ∈ past s /\ p `prefix_of` t) /\
    (s = StateEvidenceCollected -> exists x rest, x ∈ [StateSubprocessCrashed; StateSubprocessExited] /\
      t = [StateVerificationRunning; StateRecoveryAttempted; StateDirectorySnapshoted; x; StateSubprocessWriting;
           StateExecutionPrepared; StateScenarioRunning] ++ rest).
Proof.
  intros H0 Ht. destruct (trace_past s0 h H0 Ht) as (s & t & -> & Hn & p & Hp & Hpre).
  exists s, t. split; [done|]. split; [done|]. split; [eauto|]. intros ->. destruct Hpre as [rest ->].
  apply list_elem_of_fmap in Hp as (x & -> & Hx). by exists x, rest.
Qed.

Lemma lifecycle_history_witness : trace StateScenarioRunning [StateExecutionPrepared; StateScenarioRunning] /\
  exists s t, [StateExecutionPrepared; StateScenarioRunning] = s :: t /\ named s /\
    (exists p, p ∈ past s /\ p `prefix_of` t) /\
    (s = StateEvidenceCollected -> exists x rest, x ∈ [StateSubprocessCrashed; StateSubprocessExited] /\
      t = [StateVerificationRunning; StateRecoveryAttempted; StateDirectorySnapshoted; x; StateSubprocessWriting;
           StateExecutionPrepared; StateScenarioRunning] ++ rest).
Proof.
  assert (H : trace StateScenarioRunning [StateExecutionPrepared; StateScenarioRunning]).
  { exact (trace_step _ _ _ StateExecutionPrepared (NewSessionTracker "s" 0 StateScenarioRunning) _ (trace_start _) eq_refl eq_refl). }
  split; [exact H|]. exact (lifecycle_history StateScenarioRunning _ ltac:(by_decide) H).
Defined.

(** no session hangs.  A scenario that is not restarted is over after at most nine
    transitions; from every state a session can be in, named transitions lead to the
    end of the campaign; and that end is final: any further Transition is the error
    "stuck state" and changes nothing. *)
Theorem session_ends h : trace StateScenarioRunning h ->
  (StateScenarioRunning ∉ removelast h -> (length h <= 10)%nat) /\
  (forall t, Some (state t) = head h -> exists l, (length l <= 2)%nat /\
     transitions t l = (mkTracker (sessionID t) StateCampaignCompleted (createdAt t), None)) /\
  (forall t new, state t = StateCampaignCompleted -> Transition t new = (t, Some (StuckState StateCampaignCompleted))).
Proof.
  intros Ht. split; [|split].
  - intros Hno. destruct (trace_bounded h Ht Hno) as (s & t & -> & _ & Hl). cbn [length].
    assert (stage s <= 9)%nat by (destruct s; cbn; lia). lia.
  - intros t Hh. destruct (trace_past StateScenarioRunning h ltac:(by_decide) Ht) as (s & t0 & -> & Hn & _).
    injection Hh as Es. exists (way_out (state t)). rewrite <- Es in Hn. split; [destruct (state t); cbn; lia|by apply way_out_ends].
  - intros t new E. unfold Transition. by rewrite E.
Qed.

Lemma session_ends_witness : (length [StateScenarioRunning] <= 10)%nat.
Proof.
  apply (session_ends [StateScenarioRunning] (trace_start _)). cbn. apply not_elem_of_nil.
Defined.

(** the report of a campaign counts every result that was added, in the order of
    the additions.  When all statuses are named ones the counts add up, the results that
    are inconclusive being in the total only, and the campaign has passed exactly when
    every scenario has. *)
Theorem CompileResult_counts c rs : Forall (fun r => match StatusVal r with StatusOther _ => False | _ => True end) (ct_scenarios c ++ rs) ->
  let r := CompileResult (fold_left AddScenarioResult rs c) in
  Details r = ct_scenarios c ++ rs /\ SessionID r = sessionID (ct_session c) /\
  TotalScenarios (Summary r) = zlen (Details r) /\
  TotalScenarios (Summary r) = PassedCount (Summary r) + FailedCount (Summary r) + BlockedCount (Summary r) + count StatusInconclusive (Details r) /\
  (Passed r = true <-> PassedCount (Summary r) = TotalScenarios (Summary r)) /\
  (Passed r = true <-> Forall (fun s => StatusVal s = StatusPass) (Details r)).
Proof.
  intros Hl. assert (H : forall rs c, fold_left AddScenarioResult rs c = mkCampaign (ct_session c) (ct_metadata c) (ct_scenarios c ++ rs)).
  { clear. induction rs as [|x rs IH]; intros c; [destruct c; cbn; by rewrite app_nil_r|].
    cbn [fold_left]. rewrite IH. cbn. by rewrite <- app_assoc. }
  rewrite H, CompileResult_eq. cbn [ct_scenarios ct_session ct_metadata Details SessionID Summary TotalScenarios PassedCount FailedCount BlockedCount Passed].
  destruct (counts_add_up _ Hl) as [H1 H2]. repeat (split; [done|]). rewrite forallb_forall, Forall_forall. setoid_rewrite <- list_elem_of_In.
  rewrite Forall_forall in Hl. split; intros HF x Hx; specialize (HF x Hx); specialize (Hl x Hx); unfold harmless in *;
    destruct (StatusVal x); done.
Qed.

Lemma CompileResult_counts_witness :
  let c := NewCampaignTracker "c" 0 (mkMetadata "" "" "" 0) in
  let r := CompileResult (fold_left AddScenarioResult
             [mkResult "a" StatusPass 0 [] None "" "" ""; mkResult "b" StatusBlocked 0 [] None "" "" ""] c) in
  Passed r = true <-> PassedCount (Summary r) = TotalScenarios (Summary r).
Proof.
  intros c r. refine (proj1 (proj2 (proj2 (proj2 (proj2 (CompileResult_counts c _ _)))))). by repeat constructor.
Defined.

End AtfSession.
