(* ===== verification/AtfResource.v ===== *)
(** Resource budgets and scratch directories of acceptance runs
    (internal/db/acceptance/framework/resource/resource.go).

    [Reserve] blocks on a condition variable.  The goroutines that wait are part of the
    state, and the critical sections of the manager are the steps of a relation.  Sums
    are 64-bit integers, as in the source. *)

From Stdlib Require Import ZArith Lia.
From S2P Require Import Prelude Word.

Module AtfResource.

(** * The manager *)

Record ResourceRequest := mkRequest { CPUs : Z; MemoryMB : Z; FileDescriptor : Z }.

#[export] Instance ResourceRequest_eq_dec : EqDecision ResourceRequest.
Proof. solve_decision. Defined.

Record ResourceManager := mkManager {
  maxCPUs : Z; maxMemoryMB : Z; maxFDs : Z;
  allocatedCPUs : Z; allocatedMemoryMB : Z; allocatedFDs : Z;
  nextID : Z; retainArtifacts : bool
}.

Definition NewResourceManager (maxCPUs maxMemoryMB maxFDs : Z) : ResourceManager :=
  mkManager maxCPUs maxMemoryMB maxFDs 0 0 0 0 true.

Definition SetRetainArtifacts (rm : ResourceManager) (retain : bool) : ResourceManager :=
  mkManager (maxCPUs rm) (maxMemoryMB rm) (maxFDs rm) (allocatedCPUs rm) (allocatedMemoryMB rm) (allocatedFDs rm)
    (nextID rm) retain.

Definition canAllocateLocked (rm : ResourceManager) (req : ResourceRequest) : bool :=
  (int64 (allocatedCPUs rm + CPUs req) <=? maxCPUs rm) &&
  (int64 (allocatedMemoryMB rm + MemoryMB req) <=? maxMemoryMB rm) &&
  (int64 (allocatedFDs rm + FileDescriptor req) <=? maxFDs rm).

(** The first check of [Reserve]. *)
Definition negative (req : ResourceRequest) : bool :=
  (CPUs req <? 0) || (MemoryMB req <? 0) || (FileDescriptor req <? 0).

(** The end of [Reserve], behind the loop. *)
Definition grant (rm : ResourceManager) (req : ResourceRequest) : ResourceManager :=
  mkManager (maxCPUs rm) (maxMemoryMB rm) (maxFDs rm)
    (int64 (allocatedCPUs rm + CPUs req)) (int64 (allocatedMemoryMB rm + MemoryMB req))
    (int64 (allocatedFDs rm + FileDescriptor req)) (u64 (nextID rm + 1)) (retainArtifacts rm).

Inductive resource_error := NegativeRequest | Canceled | NilReservation | AccountingUnderflow.

(** What a pass through the critical section of [Reserve] comes to. *)
Inductive outcome := Granted (rm : ResourceManager) | Waits | Refused (e : resource_error).

(** From the entry to the return or to the first [cond.Wait]; [canceled] is what
    [ctx.Err] says. *)
Definition Reserve_enter (canceled : bool) (rm : ResourceManager) (req : ResourceRequest) : outcome :=
  if negative req then Refused NegativeRequest
  else if canAllocateLocked rm req then Granted (grant rm req)
  else if canceled then Refused Canceled
  else Waits.

(** From the return of [cond.Wait] to the return or to the next one. *)
Definition Reserve_wake (canceled : bool) (rm : ResourceManager) (req : ResourceRequest) : outcome :=
  if canceled then Refused Canceled
  else if canAllocateLocked rm req then Granted (grant rm req)
  else Waits.

(** [Release] of a reservation: its [released] flag is given and returned.  The last
    component tells whether the waiters are woken. *)
Definition Release (rm : ResourceManager) (res : option (ResourceRequest * bool))
  : ResourceManager * option (ResourceRequest * bool) * option resource_error * bool :=
  match res with
  | None => (rm, None, Some NilReservation, false)
  | Some (req, true) => (rm, Some (req, true), None, false)
  | Some (req, false) =>
      let rm' := mkManager (maxCPUs rm) (maxMemoryMB rm) (maxFDs rm)
        (int64 (allocatedCPUs rm - CPUs req)) (int64 (allocatedMemoryMB rm - MemoryMB req))
        (int64 (allocatedFDs rm - FileDescriptor req)) (nextID rm) (retainArtifacts rm) in
      if (allocatedCPUs rm' <? 0) || (allocatedMemoryMB rm' <? 0) || (allocatedFDs rm' <? 0)
      then (rm', Some (req, true), Some AccountingUnderflow, false)
      else (rm', Some (req, true), None, true)
  end.

(** Whether the directory is removed. *)
Definition RetainOrClean (rm : ResourceManager) (passed : bool) : bool :=
  negb (negb passed && retainArtifacts rm).

(** * Names of scratch directories *)

(** A string as its runes. *)
Abbreviation runes := (list Z).

Definition slash : Z := 47.

(** [filepath.Base] on Unix: the part behind the last slash, trailing slashes apart; the
    two loops on the reversed path. *)
Fixpoint strip (r : runes) : runes :=
  match r with c :: r' => if c =? slash then strip r' else r | [] => [] end.

Fixpoint upto_slash (r : runes) : runes :=
  match r with c :: r' => if c =? slash then [] else c :: upto_slash r' | [] => [] end.

Definition Base (path : runes) : runes :=
  match path with
  | [] => [46]
  | _ => match upto_slash (strip (rev path)) with [] => [slash] | l => rev l end
  end.

Definition safe_rune (r : Z) : bool :=
  ((97 <=? r) && (r <=? 122)) || ((65 <=? r) && (r <=? 90)) || ((48 <=? r) && (r <=? 57)) || (r =? 45) || (r =? 95).

Definition sanitizePrefix (prefix : runes) : runes :=
  let prefix := (fun r => if safe_rune r then r else 95) <$> Base prefix in
  if decide (prefix = [] \/ prefix = [46] \/ prefix = [46; 46]) then [114; 117; 110] else prefix.

(** * Goroutines over the manager *)

(** [asked] limits the requests that are made.  Reservations in the order of their grant, with their flag; waiters with whether a
    broadcast has reached them. *)
Record pool := mkPool {
  rm : ResourceManager;
  grants : list (ResourceRequest * bool);
  waiters : gmap nat (ResourceRequest * bool)
}.

Definition broadcast (w : gmap nat (ResourceRequest * bool)) : gmap nat (ResourceRequest * bool) :=
  (fun p => (p.1, true)) <$> w.

Inductive step (asked : ResourceRequest -> Prop) : pool -> pool -> Prop :=
  | s_enter c p t req m : asked req -> waiters p !! t = None -> Reserve_enter c (rm p) req = Granted m ->
      step asked p (mkPool m (grants p ++ [(req, false)]) (waiters p))
  | s_enter_wait c p t req : asked req -> waiters p !! t = None -> Reserve_enter c (rm p) req = Waits ->
      step asked p (mkPool (rm p) (grants p) (<[t := (req, false)]> (waiters p)))
  | s_wake c p t req m : waiters p !! t = Some (req, true) -> Reserve_wake c (rm p) req = Granted m ->
      step asked p (mkPool m (grants p ++ [(req, false)]) (delete t (waiters p)))
  | s_wake_wait c p t req : waiters p !! t = Some (req, true) -> Reserve_wake c (rm p) req = Waits ->
      step asked p (mkPool (rm p) (grants p) (<[t := (req, false)]> (waiters p)))
  | s_wake_refused c p t req e : waiters p !! t = Some (req, true) -> Reserve_wake c (rm p) req = Refused e ->
      step asked p (mkPool (rm p) (grants p) (delete t (waiters p)))
  | s_cancel p : step asked p (mkPool (rm p) (grants p) (broadcast (waiters p)))
  | s_release p i res m res' e (b : bool) : grants p !! i = Some res -> Release (rm p) (Some res) = (m, Some res', e, b) ->
      step asked p (mkPool m (<[i := res']> (grants p)) (if b then broadcast (waiters p) else waiters p))
  | s_retain p retain : step asked p (mkPool (SetRetainArtifacts (rm p) retain) (grants p) (waiters p)).

(** What the reservations that are not released take. *)
Definition held (f : ResourceRequest -> Z) (l : list (ResourceRequest * bool)) : Z :=
  fold_right (fun (p : ResourceRequest * bool) acc => (if p.2 then 0 else f p.1) + acc) 0 l.

(** Requests that do not make the sums overflow. *)
Definition moderate (mc mm mf : Z) (req : ResourceRequest) : Prop :=
  mc + CPUs req < 2 ^ 63 /\ mm + MemoryMB req < 2 ^ 63 /\ mf + FileDescriptor req < 2 ^ 63.

Definition nonneg (req : ResourceRequest) : Prop := 0 <= CPUs req /\ 0 <= MemoryMB req /\ 0 <= FileDescriptor req.

(** One of the three budgets: the counter is what is held, within the maximum. *)
Definition budget (alloc mx : Z) (f : ResourceRequest -> Z) (l : list (ResourceRequest * bool)) : Prop :=
  alloc = held f l /\ alloc <= mx.

Record counted (mc mm mf : Z) (m : ResourceManager) (gs : list (ResourceRequest * bool)) : Prop := {
  c_max : maxCPUs m = mc /\ maxMemoryMB m = mm /\ maxFDs m = mf;
  c_cpu : budget (allocatedCPUs m) mc CPUs gs;
  c_mem : budget (allocatedMemoryMB m) mm MemoryMB gs;
  c_fds : budget (allocatedFDs m) mf FileDescriptor gs;
  c_grants : Forall (fun g => nonneg g.1) gs
}.

(** A waiter that no broadcast has reached does not fit. *)
Definition waiting (mc mm mf : Z) (m : ResourceManager) (w : gmap nat (ResourceRequest * bool)) : Prop :=
  map_Forall (fun _ x => nonneg x.1 /\ moderate mc mm mf x.1 /\ (x.2 = false -> canAllocateLocked m x.1 = false)) w.

Definition pool_inv (mc mm mf : Z) (p : pool) : Prop :=
  counted mc mm mf (rm p) (grants p) /\ waiting mc mm mf (rm p) (waiters p).

(** * The invariant *)

Lemma held_cons f r b l : held f ((r, b) :: l) = (if b : bool then 0 else f r) + held f l.
Proof. done. Qed.

Lemma held_nonneg f l : Forall (fun g => 0 <= f g.1) l -> 0 <= held f l.
Proof. induction 1 as [|[r b] l Hr _ IH]; [done|]. change (0 <= (if b then 0 else f r) + held f l). cbn in Hr. destruct b; lia. Qed.

Lemma held_snoc f l req : held f (l ++ [(req, false)]) = held f l + f req.
Proof. induction l as [|[r b] l IH]; [cbn; lia|]. cbn [app]. rewrite !held_cons. lia. Qed.

Lemma held_release f l i req : l !! i = Some (req, false) -> held f (<[i := (req, true)]> l) = held f l - f req.
Proof.
  revert i. induction l as [|[r b] l IH]; intros i Hi; [done|]. destruct i as [|i].
  - injection Hi as -> ->. cbn. lia.
  - change (<[S i := (req, true)]> ((r, b) :: l)) with ((r, b) :: <[i := (req, true)]> l).
    rewrite !held_cons, IH by done. lia.
Qed.

Lemma held_le f l i req : Forall (fun g => 0 <= f g.1) l -> l !! i = Some (req, false) -> f req <= held f l.
Proof.
  intros Hl. revert i. induction Hl as [|[r b] l Hr Hl IH]; intros i Hi; [done|]. pose proof (held_nonneg f l Hl).
  rewrite held_cons. cbn in Hr.
  destruct i as [|i]; [injection Hi as -> ->; lia|]. specialize (IH i Hi). destruct b; lia.
Qed.

Lemma negative_false req : negative req = false <-> nonneg req.
Proof. unfold negative, nonneg. rewrite !orb_false_iff, !Z.ltb_ge. tauto. Qed.

Section inv.
Context (mc mm mf : Z).

Lemma counted_range m gs : counted mc mm mf m gs ->
  (0 <= allocatedCPUs m <= mc) /\ (0 <= allocatedMemoryMB m <= mm) /\ (0 <= allocatedFDs m <= mf).
Proof.
  intros [_ [H1 H1'] [H2 H2'] [H3 H3'] Hg]. rewrite H1, H2, H3 in *.
  assert (H : forall f, (forall r, nonneg r -> 0 <= f r) -> 0 <= held f gs).
  { intros f Hf. apply held_nonneg. eapply Forall_impl; [exact Hg|]. intros g Hn. by apply Hf. }
  pose proof (H CPUs (fun r Hr => proj1 Hr)). pose proof (H MemoryMB (fun r Hr => proj1 (proj2 Hr))).
  pose proof (H FileDescriptor (fun r Hr => proj2 (proj2 Hr))). lia.
Qed.

(** With the invariant the check is the arithmetic one. *)
Lemma canAllocate_iff m gs req : counted mc mm mf m gs -> nonneg req -> moderate mc mm mf req ->
  canAllocateLocked m req = true <->
  allocatedCPUs m + CPUs req <= mc /\ allocatedMemoryMB m + MemoryMB req <= mm /\ allocatedFDs m + FileDescriptor req <= mf.
Proof.
  intros Hp (N1 & N2 & N3) (M1 & M2 & M3). destruct (counted_range _ _ Hp) as (B1 & B2 & B3).
  destruct (c_max _ _ _ _ _ Hp) as (E1 & E2 & E3). unfold canAllocateLocked. rewrite E1, E2, E3, !int64_id by lia.
  rewrite !andb_true_iff, !Z.leb_le. tauto.
Qed.

Lemma grant_counted m gs req : counted mc mm mf m gs -> nonneg req -> moderate mc mm mf req ->
  canAllocateLocked m req = true ->
  counted mc mm mf (grant m req) (gs ++ [(req, false)]) /\
  forall w, waiting mc mm mf m w -> waiting mc mm mf (grant m req) w.
Proof.
  intros Hp Hn Hm Hc. pose proof (proj1 (canAllocate_iff m gs req Hp Hn Hm) Hc) as (C1 & C2 & C3).
  destruct (counted_range _ _ Hp) as (B1 & B2 & B3). pose proof Hn as (N1 & N2 & N3). pose proof Hm as (M1 & M2 & M3).
  assert (Hp' : counted mc mm mf (grant m req) (gs ++ [(req, false)])).
  { destruct Hp as [Em [H1 H1'] [H2 H2'] [H3 H3'] Hg]. split; cbn; [done| | | |]; cycle 3.
    { apply Forall_app. split; [done|by constructor]. }
    all: split; rewrite ?held_snoc; rewrite int64_id by lia; lia. }
  split; [done|]. intros w Hw t x Hx. destruct (Hw t x Hx) as (Wn & Wm & Wc). split; [done|]. split; [done|]. intros Hf.
  specialize (Wc Hf). apply not_true_iff_false. intros Hc'. apply (canAllocate_iff _ _ _ Hp' Wn Wm) in Hc'. cbn in Hc'.
  rewrite !int64_id in Hc' by lia. apply not_true_iff_false in Wc. apply Wc, (canAllocate_iff _ _ _ Hp Wn Wm). lia.
Qed.

(** Releasing gives back what was granted, once, and wakes everyone. *)
Lemma Release_counted m gs i req : counted mc mm mf m gs -> mc < 2 ^ 63 -> mm < 2 ^ 63 -> mf < 2 ^ 63 ->
  gs !! i = Some (req, false) ->
  exists m', Release m (Some (req, false)) = (m', Some (req, true), None, true) /\
    counted mc mm mf m' (<[i := (req, true)]> gs).
Proof.
  intros Hp L1 L2 L3 Hi. destruct (counted_range _ _ Hp) as (B1 & B2 & B3). destruct Hp as [Em [H1 H1'] [H2 H2'] [H3 H3'] Hg].
  assert (Hn : nonneg req) by (by apply (proj1 (Forall_lookup _ _) Hg i (req, false))). destruct Hn as (N1 & N2 & N3).
  assert (Hle : CPUs req <= allocatedCPUs m /\ MemoryMB req <= allocatedMemoryMB m /\ FileDescriptor req <= allocatedFDs m).
  { rewrite H1, H2, H3. repeat split; (eapply held_le; [|exact Hi]); (eapply Forall_impl; [exact Hg|]); unfold nonneg; tauto. }
  unfold Release. cbv zeta. cbn [allocatedCPUs allocatedMemoryMB allocatedFDs]. rewrite !int64_id by lia.
  rewrite !(proj2 (Z.ltb_ge _ _)) by lia. cbn [orb]. eexists. split; [reflexivity|].
  split; cbn; [done| | | |]; cycle 3.
  { apply Forall_insert; [done|exact (conj N1 (conj N2 N3))]. }
  all: split; rewrite ?(held_release _ _ _ _ Hi); lia.
Qed.

Lemma waiting_broadcast m m' w : waiting mc mm mf m w -> waiting mc mm mf m' (broadcast w).
Proof.
  intros Hw t x Hx. unfold broadcast in Hx. rewrite lookup_fmap in Hx. destruct (w !! t) as [y|] eqn:E; [|done].
  injection Hx as <-. destruct (Hw t y E) as (? & ? & _). split; [done|]. split; [done|]. by intros.
Qed.

Lemma waiting_delete m w t : waiting mc mm mf m w -> waiting mc mm mf m (delete t w).
Proof. apply map_Forall_delete. Qed.

Lemma Release_twice m req : Release m (Some (req, true)) = (m, Some (req, true), None, false).
Proof. done. Qed.

Lemma step_inv p p' : mc < 2 ^ 63 -> mm < 2 ^ 63 -> mf < 2 ^ 63 ->
  step (moderate mc mm mf) p p' -> pool_inv mc mm mf p -> pool_inv mc mm mf p'.
Proof.
  intros L1 L2 L3 Hs [Hc Hw]. destruct Hs as [c p t req m Ha Ht E|c p t req Ha Ht E|c p t req m Ht E|c p t req Ht E|c p t req e Ht E|p
    |p i [req b0] m res' e b Hi E|p retain]; unfold pool_inv; cbn [rm grants waiters].
  - unfold Reserve_enter in E. destruct (negative req) eqn:En; [done|]. apply negative_false in En.
    destruct (canAllocateLocked (rm p) req) eqn:Ec; [injection E as <-|by destruct c].
    destruct (grant_counted _ _ _ Hc En Ha Ec) as [Hc' Hw']. split; [done|by apply Hw'].
  - unfold Reserve_enter in E. destruct (negative req) eqn:En; [done|]. apply negative_false in En.
    destruct (canAllocateLocked (rm p) req) eqn:Ec; [done|]. split; [done|]. by apply map_Forall_insert_2.
  - destruct (Hw t _ Ht) as (Wn & Wm & _). unfold Reserve_wake in E. destruct c; [done|].
    destruct (canAllocateLocked (rm p) req) eqn:Ec; [injection E as <-|done].
    destruct (grant_counted _ _ _ Hc Wn Wm Ec) as [Hc' Hw']. split; [done|by apply Hw', waiting_delete].
  - destruct (Hw t _ Ht) as (Wn & Wm & _). unfold Reserve_wake in E. destruct c; [done|].
    destruct (canAllocateLocked (rm p) req) eqn:Ec; [done|]. split; [done|]. by apply map_Forall_insert_2.
  - split; [done|by apply waiting_delete].
  - split; [done|by eapply waiting_broadcast].
  - destruct b0.
    + injection E as <- <- <- <-. rewrite list_insert_id by done. done.
    + destruct (Release_counted _ _ _ _ Hc L1 L2 L3 Hi) as (m' & E' & Hc'). rewrite E' in E. injection E as <- <- <- <-.
      split; [done|by eapply waiting_broadcast].
  - split; [by destruct Hc; split|exact Hw].
Qed.

Lemma steps_inv p p' : mc < 2 ^ 63 -> mm < 2 ^ 63 -> mf < 2 ^ 63 ->
  rtc (step (moderate mc mm mf)) p p' -> pool_inv mc mm mf p -> pool_inv mc mm mf p'.
Proof. intros L1 L2 L3. induction 1 as [|p q r Hs _ IH]; [done|]. intros Hp. apply IH. by eapply step_inv. Qed.

Lemma new_inv : 0 <= mc -> 0 <= mm -> 0 <= mf -> pool_inv mc mm mf (mkPool (NewResourceManager mc mm mf) [] ∅).
Proof. intros. split; [|done]. split; cbn; [done|split; cbn; lia..|constructor]. Qed.

End inv.

(** * Properties *)

(** C34: the budgets.  From a new manager, over every interleaving of calls of Reserve
    and Release, cancellations and wake-ups, with requests that do not overflow the sums:
    each counter is exactly what the reservations not yet released hold, and never above
    its maximum.  Releasing a reservation returns nil, gives back its request the first
    time and nothing after; and no wake-up is lost: a caller that waits and was not
    signalled does not fit. *)
Theorem resource_budgets mc mm mf p : 0 <= mc < 2 ^ 63 -> 0 <= mm < 2 ^ 63 -> 0 <= mf < 2 ^ 63 ->
  rtc (step (moderate mc mm mf)) (mkPool (NewResourceManager mc mm mf) [] ∅) p ->
  (allocatedCPUs (rm p) = held CPUs (grants p) /\ 0 <= allocatedCPUs (rm p) <= mc) /\
  (allocatedMemoryMB (rm p) = held MemoryMB (grants p) /\ 0 <= allocatedMemoryMB (rm p) <= mm) /\
  (allocatedFDs (rm p) = held FileDescriptor (grants p) /\ 0 <= allocatedFDs (rm p) <= mf) /\
  (forall i req b, grants p !! i = Some (req, b) ->
    exists m, Release (rm p) (Some (req, b)) = (m, Some (req, true), None, negb b) /\
      allocatedCPUs m = allocatedCPUs (rm p) - (if b then 0 else CPUs req)) /\
  (forall t req, waiters p !! t = Some (req, false) ->
    mc < allocatedCPUs (rm p) + CPUs req \/ mm < allocatedMemoryMB (rm p) + MemoryMB req \/
    mf < allocatedFDs (rm p) + FileDescriptor req).
Proof.
  intros L1 L2 L3 Hs. destruct (steps_inv mc mm mf _ p ltac:(lia) ltac:(lia) ltac:(lia) Hs) as [Hc Hw]; [apply new_inv; lia|].
  destruct (counted_range _ _ _ _ _ Hc) as (B1 & B2 & B3). pose proof Hc as [Em [H1 _] [H2 _] [H3 _] _].
  repeat (split; [done|]). split.
  - intros i req b Hi. destruct b; [exists (rm p); split; [done|lia]|].
    destruct (Release_counted mc mm mf _ _ _ _ Hc ltac:(lia) ltac:(lia) ltac:(lia) Hi) as (m & E & [_ [E1 _] _ _ _]).
    exists m. split; [done|]. by rewrite E1, (held_release _ _ _ _ Hi), H1.
  - intros t req Ht. destruct (Hw t _ Ht) as (Wn & Wm & Wc). specialize (Wc eq_refl). apply not_true_iff_false in Wc.
    rewrite (canAllocate_iff mc mm mf _ _ _ Hc Wn Wm) in Wc. cbn in Wc. lia.
Qed.

Lemma resource_budgets_witness : exists p, grants p = [(mkRequest 1 128 32, false)] /\ waiters p !! 7%nat = Some (mkRequest 1 128 32, false) /\
  allocatedCPUs (rm p) = held CPUs (grants p).
Proof.
  pose (req := mkRequest 1 128 32). pose (m := NewResourceManager 1 1024 256).
  pose (p := mkPool (grant m req) [(req, false)] (<[7%nat := (req, false)]> ∅)). exists p.
  split; [reflexivity|]. split; [reflexivity|].
  refine (proj1 (proj1 (resource_budgets 1 1024 256 p _ _ _ _))); [lia..|].
  assert (Hm : moderate 1 1024 256 req) by (unfold moderate, req; cbn; lia).
  eapply rtc_l; [exact (s_enter _ false (mkPool m [] ∅) 1%nat req (grant m req) Hm eq_refl eq_refl)|].
  eapply rtc_l; [exact (s_enter_wait _ false (mkPool (grant m req) [(req, false)] ∅) 7%nat req Hm eq_refl eq_refl)|].
  apply rtc_refl.
Defined.

(** A request near the largest integer is granted although it exceeds the budget: the
    sum in the check wraps. *)
Theorem huge_request_granted : exists req m, Reserve_enter false (grant (NewResourceManager 4 1024 256) (mkRequest 1 128 32)) req = Granted m /\
  maxMemoryMB m < MemoryMB req /\ allocatedMemoryMB m < 0.
Proof. exists (mkRequest 1 (2 ^ 63 - 1) 32). eexists. split; [vm_compute; reflexivity|]. vm_compute. by split. Qed.

Lemma safe_map l : Forall (fun r => safe_rune r = true) ((fun r => if safe_rune r then r else 95) <$> l).
Proof. induction l as [|r l IH]; [constructor|]. constructor; [|done]. by destruct (safe_rune r) eqn:E. Qed.

Lemma Base_safe l : Forall (fun r => safe_rune r = true) l -> l <> [] -> Base l = l.
Proof.
  intros Hl Hne. assert (Hu : forall r, Forall (fun r => safe_rune r = true) r -> strip r = r /\ upto_slash r = r).
  { induction 1 as [|c r Hc _ [_ IH]]; [done|]. cbn [strip upto_slash]. destruct (Z.eqb_spec c slash) as [-> |]; [done|]. by rewrite IH. }
  assert (Hr : Forall (fun r => safe_rune r = true) (rev l)) by (by apply Forall_rev).
  destruct (Hu _ Hr) as [E1 E2]. destruct l as [|c l]; [done|]. unfold Base. rewrite E1, E2.
  destruct (rev (c :: l)) as [|x y] eqn:E; [by cbn in E; destruct (rev l)|].
  by rewrite <- E, rev_involutive.
Qed.

(** The name of a scratch directory is one plain path component: not empty, without
    separators or dots; sanitizing it again changes nothing. *)
Theorem sanitizePrefix_safe prefix :
  sanitizePrefix prefix <> [] /\ Forall (fun r => safe_rune r = true) (sanitizePrefix prefix) /\
  sanitizePrefix (sanitizePrefix prefix) = sanitizePrefix prefix.
Proof.
  assert (H1 : sanitizePrefix prefix <> [] /\ Forall (fun r => safe_rune r = true) (sanitizePrefix prefix)).
  { unfold sanitizePrefix. case_decide as Hd; [split; [done|by repeat constructor]|]. split; [tauto|apply safe_map]. }
  destruct H1 as [Hne Hs]. split; [done|]. split; [done|]. revert Hne Hs. generalize (sanitizePrefix prefix). intros l Hne Hs.
  unfold sanitizePrefix. rewrite (Base_safe l Hs Hne).
  assert (E : (fun r => if safe_rune r then r else 95) <$> l = l).
  { clear Hne. induction Hs as [|r l Hr _ IH]; [done|]. cbn. by rewrite Hr, IH. }
  rewrite E. rewrite decide_False; [done|]. intros [->|[-> | ->]]; [done|..]; by apply Forall_inv in Hs.
Qed.

End AtfResource.
