(* ===== verification/AtfDag.v ===== *)
(** The order in which the acceptance framework runs its verifiers
    (internal/db/acceptance/framework/verifier: registry.go, dag.go).

    A Go map is iterated in an unspecified order, so the dependency graph is an
    association list: its order stands for the order of one iteration.  The error
    values carry what the messages of the source mention. *)

From Stdlib Require Import ZArith Lia.
From S2P Require Import Prelude.

Module AtfDag.

(** * The registry of verifiers (registry.go) *)

Section dag.
Context {Verifier : Type} (Name : Verifier -> string).

Record Registry := mkRegistry { order : list string; verifiers : gmap string Verifier }.

Definition NewRegistry : Registry := mkRegistry [] ∅.

Inductive registry_error := NilVerifier | EmptyName | DuplicateRegistration (name : string).

(** [None] is the nil interface value. *)
Definition Register (r : Registry) (v : option Verifier) : Registry * option registry_error :=
  match v with
  | None => (r, Some NilVerifier)
  | Some v =>
      let name := Name v in
      if decide (name = ""%string) then (r, Some EmptyName)
      else match verifiers r !! name with
           | Some _ => (r, Some (DuplicateRegistration name))
           | None => (mkRegistry (order r ++ [name]) (<[name := v]> (verifiers r)), None)
           end
  end.

Definition Get (r : Registry) (name : string) : option Verifier := verifiers r !! name.

(** Every name of [order] is a key of [verifiers] in a registry that [Register] built. *)
Definition All (r : Registry) : list Verifier := omap (fun name => verifiers r !! name) (order r).

Definition Names (r : Registry) : list string := order r.

(** [DefaultRegistry] registers a fixed list and panics on an error. *)
Fixpoint register_all (r : Registry) (vs : list Verifier) : option Registry :=
  match vs with
  | [] => Some r
  | v :: vs' => match Register r (Some v) with (r', None) => register_all r' vs' | (_, Some _) => None end
  end.

(** * The plan (dag.go) *)

Record moduleOrder := mkOrder { modules : list Verifier; deps : gmap string (list string) }.

Inductive dag_error := SelfDependency (node : string) | CycleDetected (n : Z).

(** The three maps the first loop fills. *)
Record edges := mkEdges {
  e_deps : gmap string (list string);
  e_adj : gmap string (list string);
  e_indegree : gmap string Z
}.

(** [m[k] = append(m[k], x)] *)
Definition push (k x : string) (m : gmap string (list string)) : gmap string (list string) :=
  <[k := default [] (m !! k) ++ [x]]> m.

Definition add_edge (node dep : string) (e : edges) : edges :=
  mkEdges (push node dep (e_deps e)) (push dep node (e_adj e))
    (<[node := default 0 (e_indegree e !! node) + 1]> (e_indegree e)).

(** [for _, dep := range rawDeps] *)
Fixpoint add_deps (registered : gmap string Verifier) (node : string) (rawDeps : list string) (e : edges)
  : edges + dag_error :=
  match rawDeps with
  | [] => inl e
  | dep :: rest =>
      match registered !! dep with
      | None => add_deps registered node rest e
      | Some _ =>
          if decide (dep = node) then inr (SelfDependency node)
          else add_deps registered node rest (add_edge node dep e)
      end
  end.

(** [for node, rawDeps := range dag] *)
Fixpoint add_nodes (registered : gmap string Verifier) (dag : list (string * list string)) (e : edges)
  : edges + dag_error :=
  match dag with
  | [] => inl e
  | (node, rawDeps) :: rest =>
      match registered !! node with
      | None => add_nodes registered rest e
      | Some _ =>
          match add_deps registered node rawDeps e with
          | inr err => inr err
          | inl e' => add_nodes registered rest e'
          end
      end
  end.

(** ** sortByRegOrder *)

Fixpoint rank_from (i : Z) (regOrder : list string) : gmap string Z :=
  match regOrder with [] => ∅ | n :: rest => <[n := i]> (rank_from (i + 1) rest) end.

(** The inner loop: a name moves to the left past those of larger rank.  The prefix is
    given last element first. *)
Fixpoint sink (rank : gmap string Z) (x : string) (before : list string) : list string :=
  match before with
  | [] => [x]
  | y :: rest => if default 0 (rank !! x) <? default 0 (rank !! y) then y :: sink rank x rest else x :: before
  end.

Definition sortByRegOrder (names regOrder : list string) : list string :=
  let rank := rank_from 0 regOrder in
  rev (fold_left (fun before x => sink rank x before) names []).

(** ** Kahn's algorithm *)

(** [for _, succ := range adj[name]] *)
Fixpoint free (succs : list string) (indegree : gmap string Z) (freed : list string)
  : gmap string Z * list string :=
  match succs with
  | [] => (indegree, freed)
  | s :: rest =>
      let d := default 0 (indegree !! s) - 1 in
      free rest (<[s := d]> indegree) (if d =? 0 then freed ++ [s] else freed)
  end.

Record kahn := mkKahn { queue : list string; seen : gset string; ordered : list string; indegree : gmap string Z }.

(** [for len(queue) > 0]; no more rounds than there are names to order. *)
Fixpoint kahn_loop (fuel : nat) (adj : gmap string (list string)) (regOrder : list string) (k : kahn) : kahn :=
  match fuel with
  | O => k
  | S fuel' =>
      match queue k with
      | [] => k
      | name :: rest =>
          if decide (name ∈ seen k) then kahn_loop fuel' adj regOrder (mkKahn rest (seen k) (ordered k) (indegree k))
          else
            let '(indegree', freed) := free (default [] (adj !! name)) (indegree k) [] in
            kahn_loop fuel' adj regOrder
              (mkKahn (rest ++ sortByRegOrder freed regOrder) ({[name]} ∪ seen k) (ordered k ++ [name]) indegree')
      end
  end.

Definition resolveModuleOrder (reg : Registry) (dag : list (string * list string)) : moduleOrder + dag_error :=
  let all := All reg in
  let registered : gmap string Verifier := list_to_map ((fun v => (Name v, v)) <$> all) in
  let regOrder := Name <$> all in
  match dag with
  | [] => inl (mkOrder all ∅)
  | _ =>
      match add_nodes registered dag (mkEdges ∅ ∅ (list_to_map ((fun n => (n, 0)) <$> regOrder))) with
      | inr e => inr e
      | inl e =>
          let queue := filter (fun n => default 0 (e_indegree e !! n) = 0) regOrder in
          let k := kahn_loop (S (length regOrder)) (e_adj e) regOrder (mkKahn queue ∅ [] (e_indegree e)) in
          if zlen (ordered k) =? Z.of_nat (size registered)
          then inl (mkOrder (omap (fun n => registered !! n) (ordered k)) (e_deps e))
          else inr (CycleDetected (Z.of_nat (size registered) - zlen (ordered k)))
      end
  end.

(** The first dependency in the unhealthy set, or the empty string. *)
Fixpoint firstUnhealthyDep (deps : list string) (unhealthy : gset string) : string :=
  match deps with
  | [] => ""
  | d :: rest => if decide (d ∈ unhealthy) then d else firstUnhealthyDep rest unhealthy
  end.

(** * The edges *)

Abbreviation edge := (string * string)%type.

(** The edges between registered modules, node first, in the order of the iteration. *)
Definition edge_list (registered : gmap string Verifier) (dag : list (string * list string)) : list edge :=
  concat ((fun '(node, rawDeps) =>
    if decide (is_Some (registered !! node))
    then (fun dep => (node, dep)) <$> filter (fun dep => is_Some (registered !! dep)) rawDeps
    else []) <$> dag).

Definition add_edges (es : list edge) (e : edges) : edges := fold_left (fun e p => add_edge p.1 p.2 e) es e.

Lemma add_deps_spec registered node rawDeps : forall e,
  let es := (fun dep => (node, dep)) <$> filter (fun dep => is_Some (registered !! dep)) rawDeps in
  (add_deps registered node rawDeps e = inl (add_edges es e) /\ (node, node) ∉ es) \/
  (add_deps registered node rawDeps e = inr (SelfDependency node) /\ (node, node) ∈ es).
Proof.
  induction rawDeps as [|dep rest IH]; intros e es; [left; split; [done|apply not_elem_of_nil]|].
  cbn [add_deps]. unfold es. destruct (registered !! dep) as [v|] eqn:Er.
  - rewrite filter_cons_True by eauto. rewrite fmap_cons. case_decide as Ed.
    + right. split; [done|]. subst. left.
    + destruct (IH (add_edge node dep e)) as [[-> Hn]|[-> Hn]]; [left|right].
      * split; [done|]. rewrite not_elem_of_cons. split; [congruence|done].
      * split; [done|by right].
  - rewrite filter_cons_False by (rewrite Er; by intros []). apply IH.
Qed.

Lemma add_nodes_spec registered dag : forall e,
  (add_nodes registered dag e = inl (add_edges (edge_list registered dag) e) /\
    forall n, (n, n) ∉ edge_list registered dag) \/
  (exists n, add_nodes registered dag e = inr (SelfDependency n) /\ (n, n) ∈ edge_list registered dag).
Proof.
  induction dag as [|[node rawDeps] dag IH]; intros e; [left; split; [done|intros n; apply not_elem_of_nil]|].
  unfold edge_list. rewrite fmap_cons. cbn [concat add_nodes]. fold (edge_list registered dag).
  destruct (registered !! node) as [v|] eqn:Er; [rewrite decide_True by done|rewrite decide_False by (by intros [])].
  - destruct (add_deps_spec registered node rawDeps e) as [[-> Hn]|[-> Hn]].
    + destruct (IH (add_edges ((fun dep => (node, dep)) <$> filter (fun dep => is_Some (registered !! dep)) rawDeps) e))
        as [[-> Hns]|(n & -> & Hin)]; [left|right; exists n; split; [done|by apply elem_of_app; right]].
      split; [by unfold add_edges; rewrite fold_left_app|]. intros n [Hin|Hin]%elem_of_app; [|by apply (Hns n)].
      apply list_elem_of_fmap in Hin as (d & [= -> <-] & Hd). apply Hn. apply list_elem_of_fmap. by exists node.
    + right. exists node. split; [done|]. apply elem_of_app. by left.
  - apply IH.
Qed.

(** How often [n] is the node of an edge. *)
Definition outs (n : string) (es : list edge) : nat := length (filter (fun p => p.1 = n) es).

Lemma outs_app n es1 es2 : outs n (es1 ++ es2) = (outs n es1 + outs n es2)%nat.
Proof. unfold outs. by rewrite filter_app, length_app. Qed.

Lemma outs_cons n p es : outs n (p :: es) = ((if decide (p.1 = n) then 1 else 0) + outs n es)%nat.
Proof. unfold outs. rewrite filter_cons. by case_decide. Qed.

(** What the three maps say of the edges. *)
Lemma add_edges_maps es : forall e,
  (forall n, default 0 (e_indegree (add_edges es e) !! n) = default 0 (e_indegree e !! n) + Z.of_nat (outs n es)) /\
  (forall d, default [] (e_adj (add_edges es e) !! d) = default [] (e_adj e !! d) ++ (filter (fun p => p.2 = d) es).*1) /\
  (forall n, default [] (e_deps (add_edges es e) !! n) = default [] (e_deps e !! n) ++ (filter (fun p => p.1 = n) es).*2).
Proof.
  induction es as [|[x y] es IH]; intros e.
  { split; [intros n; cbn; lia|]. split; intros n; cbn; by rewrite app_nil_r. }
  change (add_edges ((x, y) :: es) e) with (add_edges es (add_edge x y e)).
  destruct (IH (add_edge x y e)) as (I1 & I2 & I3). split; [|split].
  - intros n. rewrite I1, outs_cons. cbn. rewrite lookup_insert. case_decide; subst; cbn; lia.
  - intros d. rewrite I2. cbn [add_edge e_adj]. unfold push. rewrite lookup_insert, filter_cons. cbn [snd].
    repeat case_decide; subst; try done; cbn; by rewrite <- ?app_assoc.
  - intros n. rewrite I3. cbn [add_edge e_deps]. unfold push. rewrite lookup_insert, filter_cons. cbn [fst].
    repeat case_decide; subst; try done; cbn; by rewrite <- ?app_assoc.
Qed.

(** * Sorting by rank *)

Lemma sink_perm rank x before : sink rank x before ≡ₚ x :: before.
Proof.
  induction before as [|y rest IH]; [done|]. cbn [sink]. destruct (_ <? _); [|done]. rewrite IH. apply Permutation_swap.
Qed.

Lemma sort_acc_perm rank names : forall acc, fold_left (fun before x => sink rank x before) names acc ≡ₚ names ++ acc.
Proof.
  induction names as [|x names IH]; intros acc; [done|]. cbn [fold_left app]. rewrite IH, sink_perm.
  symmetry. apply Permutation_middle.
Qed.

Lemma sortByRegOrder_perm names regOrder : sortByRegOrder names regOrder ≡ₚ names.
Proof. unfold sortByRegOrder. rewrite <- Permutation_rev, sort_acc_perm. by rewrite app_nil_r. Qed.

Definition rank_le (rank : gmap string Z) (x y : string) : Prop := default 0 (rank !! x) <= default 0 (rank !! y).

Lemma sink_sorted rank x before : StronglySorted (flip (rank_le rank)) before ->
  StronglySorted (flip (rank_le rank)) (sink rank x before).
Proof.
  induction 1 as [|y rest Hs IH Hy]; cbn [sink]; [by repeat constructor|].
  destruct (Z.ltb_spec (default 0 (rank !! x)) (default 0 (rank !! y))) as [Hlt|Hge].
  - constructor; [done|]. apply Forall_forall. intros z Hz. rewrite sink_perm in Hz.
    apply elem_of_cons in Hz as [-> |Hz]; [unfold flip, rank_le; lia|]. rewrite Forall_forall in Hy. by apply Hy.
  - constructor; [by constructor|]. constructor; [done|]. eapply Forall_impl; [exact Hy|].
    intros z Hz. unfold flip, rank_le in *. lia.
Qed.

Lemma StronglySorted_rev {A} (R : relation A) l : StronglySorted (flip R) l -> StronglySorted R (rev l).
Proof.
  induction 1 as [|x l Hs IH Hx]; cbn; [constructor|]. apply StronglySorted_app. split; [|split; [done|by repeat constructor]].
  intros y z Hy ->%list_elem_of_singleton. rewrite list_elem_of_In, <- in_rev, <- list_elem_of_In in Hy.
  rewrite Forall_forall in Hx. by apply Hx.
Qed.

Lemma sortByRegOrder_sorted names regOrder :
  StronglySorted (rank_le (rank_from 0 regOrder)) (sortByRegOrder names regOrder).
Proof.
  apply StronglySorted_rev. set (rank := rank_from 0 regOrder).
  assert (H : forall acc, StronglySorted (flip (rank_le rank)) acc ->
    StronglySorted (flip (rank_le rank)) (fold_left (fun before x => sink rank x before) names acc)).
  { induction names as [|x names IH]; intros acc Ha; [done|]. by apply IH, sink_sorted. }
  apply H. constructor.
Qed.

(** The rank of a name is its place. *)
Lemma rank_from_lookup regOrder : NoDup regOrder -> forall i k n, regOrder !! k = Some n ->
  rank_from i regOrder !! n = Some (i + Z.of_nat k).
Proof.
  induction 1 as [|x l Hx _ IH]; intros i k n Hk; [done|]. cbn [rank_from]. destruct k as [|k].
  - injection Hk as ->. rewrite lookup_insert_eq. f_equal. lia.
  - cbn in Hk. rewrite lookup_insert_ne; [rewrite (IH (i + 1) k n Hk); f_equal; lia|].
    intros ->. apply Hx. by apply list_elem_of_lookup_2 in Hk.
Qed.

(** The same names in any order are sorted to the same list. *)
Lemma sortByRegOrder_unique names names' regOrder : NoDup regOrder -> names ⊆ regOrder -> names ≡ₚ names' ->
  sortByRegOrder names regOrder = sortByRegOrder names' regOrder.
Proof.
  intros Hnd Hsub Hp. set (rank := rank_from 0 regOrder).
  assert (Hperm : sortByRegOrder names regOrder ≡ₚ sortByRegOrder names' regOrder).
  { by rewrite !sortByRegOrder_perm. }
  assert (Hin : sortByRegOrder names regOrder ⊆ regOrder) by (rewrite sortByRegOrder_perm; done).
  pose proof (sortByRegOrder_sorted names regOrder) as S1. pose proof (sortByRegOrder_sorted names' regOrder) as S2.
  revert Hperm Hin S1 S2. generalize (sortByRegOrder names regOrder) (sortByRegOrder names' regOrder). clear Hsub Hp names names'.
  intros l1. induction l1 as [|x l1 IH]; intros l2 Hp Hin S1 S2; [symmetry in Hp; by apply Permutation_nil_r in Hp as ->|].
  destruct l2 as [|y l2]; [by apply Permutation_nil_r in Hp|].
  assert (Hxy : x = y).
  { assert (Hx : x ∈ y :: l2) by (rewrite <- Hp; left). assert (Hy : y ∈ x :: l1) by (rewrite Hp; left).
    apply StronglySorted_inv in S1 as [_ F1], S2 as [_ F2]. rewrite Forall_forall in F1, F2.
    apply elem_of_cons in Hx as [Hx|Hx]; [done|]. apply elem_of_cons in Hy as [Hy|Hy]; [done|].
    specialize (F1 y Hy). specialize (F2 x Hx). unfold rank_le in F1, F2.
    assert (Ix : x ∈ regOrder) by (apply Hin; left). assert (Iy : y ∈ regOrder) by (apply Hin; by right).
    apply list_elem_of_lookup in Ix as [i Hi]. apply list_elem_of_lookup in Iy as [j Hj].
    rewrite (rank_from_lookup _ Hnd 0 i x Hi), (rank_from_lookup _ Hnd 0 j y Hj) in F1, F2. cbn in F1, F2.
    replace j with i in Hj by lia. congruence. }
  subst y. apply StronglySorted_inv in S1 as [S1 _], S2 as [S2 _]. f_equal.
  apply IH; [by eapply Permutation_cons_inv| |done|done]. intros z Hz. apply Hin. by right.
Qed.

(** * Freeing the successors of a module *)

Definition occ (n : string) (l : list string) : nat := length (filter (fun x => x = n) l).

Lemma occ_cons n x l : occ n (x :: l) = ((if decide (x = n) then 1 else 0) + occ n l)%nat.
Proof. unfold occ. rewrite filter_cons. by case_decide. Qed.

Lemma occ_pos n l : n ∈ l <-> (0 < occ n l)%nat.
Proof.
  induction l as [|x l IH]; [split; [by intros ?%elem_of_nil|cbn; lia]|].
  rewrite elem_of_cons, occ_cons, IH. destruct (decide (x = n)) as [->|Hne]; [split; [lia|by left]|].
  split; [intros [E|E]; [congruence|lia]|right; lia].
Qed.

(** Every successor loses an edge per occurrence, and is freed when it loses the last. *)
Lemma free_spec succs : forall (ind : gmap string Z) freed,
  (forall n, Z.of_nat (occ n succs) <= default 0 (ind !! n)) -> (forall n, n ∈ freed -> n ∉ succs) -> NoDup freed ->
  exists ind' freed', free succs ind freed = (ind', freed') /\
    (forall n, default 0 (ind' !! n) = default 0 (ind !! n) - Z.of_nat (occ n succs)) /\ NoDup freed' /\
    (forall n, n ∈ freed' <-> n ∈ freed \/ n ∈ succs /\ default 0 (ind !! n) = Z.of_nat (occ n succs)).
Proof.
  induction succs as [|x succs IH]; intros ind freed Hle Hdis Hnd.
  { exists ind, freed. split; [done|]. split; [cbn; lia|]. split; [done|]. set_solver. }
  cbn [free]. set (d := default 0 (ind !! x) - 1).
  assert (Hx : Z.of_nat (occ x succs) <= d).
  { specialize (Hle x). rewrite occ_cons, decide_True in Hle by done. unfold d. lia. }
  destruct (IH (<[x := d]> ind) (if d =? 0 then freed ++ [x] else freed)) as (ind' & freed' & E & H1 & H2 & H3).
  - intros n. rewrite lookup_insert. case_decide; [subst; done|]. specialize (Hle n).
    rewrite occ_cons, decide_False in Hle by done. lia.
  - destruct (Z.eqb_spec d 0) as [Hd|Hd]; intros n Hn.
    + apply elem_of_app in Hn as [Hn| ->%list_elem_of_singleton]; [specialize (Hdis n Hn); set_solver|].
      rewrite occ_pos. lia.
    + specialize (Hdis n Hn). set_solver.
  - destruct (d =? 0); [|done]. apply NoDup_app. split; [done|]. split; [|apply NoDup_singleton].
    intros n Hn ->%list_elem_of_singleton. apply (Hdis x Hn). left.
  - exists ind', freed'. split; [done|]. split.
    { intros n. rewrite H1, lookup_insert, occ_cons. repeat case_decide; subst; cbn; unfold d; try done; lia. }
    split; [done|]. intros n. rewrite H3, lookup_insert, occ_cons, elem_of_cons.
    destruct (decide (x = n)) as [->|Hn].
    + cbn. destruct (Z.eqb_spec d 0) as [Hd|Hd]; rewrite ?elem_of_app, ?list_elem_of_singleton; unfold d in *.
      * split; [|tauto]. intros _. right. split; [by left|]. rewrite Hd in Hx. lia.
      * split; [intros [?|[? ?]]; [by left|right; split; [by right|lia]]|].
        intros [?|[_ He]]; [by left|]. right. split; [apply occ_pos; lia|lia].
    + assert (Hf : n ∈ (if d =? 0 then freed ++ [x] else freed) <-> n ∈ freed).
      { destruct (d =? 0); [|done]. rewrite elem_of_app, list_elem_of_singleton. split; [intros [?|?]; [done|congruence]|by left]. }
      rewrite Hf. cbn. split; [intros [?|[? ?]]; [by left|right; by split; [right|]]|].
      intros [?|[[?|?] ?]]; [by left|congruence|by right].
Qed.

(** * The loop *)

(** Edges of [n] to modules that are not ordered yet. *)
Definition pending (es : list edge) (n : string) (done : list string) : nat :=
  length (filter (fun p => p.1 = n /\ p.2 ∉ done) es).

Lemma pending_nil es n : pending es n [] = outs n es.
Proof.
  unfold pending, outs. f_equal. apply list_filter_iff. intros p. set_solver.
Qed.

Lemma pending_zero es n done : pending es n done = 0%nat <-> forall d, (n, d) ∈ es -> d ∈ done.
Proof.
  unfold pending. rewrite length_zero_iff_nil. split.
  - intros H d Hd. destruct (decide (d ∈ done)) as [|Hn]; [done|]. exfalso.
    assert (Hin : (n, d) ∈ filter (fun p => p.1 = n /\ p.2 ∉ done) es) by (by apply list_elem_of_filter).
    rewrite H in Hin. by apply elem_of_nil in Hin.
  - intros H. apply elem_of_nil_inv. intros [x y] ([<- Hy] & Hin)%list_elem_of_filter. by apply Hy, H.
Qed.

Lemma pending_snoc es n done d : d ∉ done ->
  pending es n done = (pending es n (done ++ [d]) + occ n (filter (fun p => p.2 = d) es).*1)%nat.
Proof.
  intros Hd. induction es as [|[x y] es IH]; [done|].
  assert (Hc : forall done, pending ((x, y) :: es) n done =
    ((if decide (x = n /\ y ∉ done) then 1 else 0) + pending es n done)%nat).
  { intros l. unfold pending. rewrite filter_cons. cbn [fst snd]. by destruct (decide (x = n /\ y ∉ l)). }
  rewrite !Hc, IH, filter_cons. cbn [snd]. destruct (decide (y = d)) as [->|Hy].
  - rewrite fmap_cons, occ_cons. cbn [fst]. rewrite (decide_False (P := x = n /\ d ∉ done ++ [d])) by set_solver.
    destruct (decide (x = n)); [rewrite decide_True by done|rewrite decide_False by tauto]; lia.
  - assert (Hiff : (x = n /\ y ∉ done) <-> (x = n /\ y ∉ done ++ [d])) by set_solver.
    rewrite (decide_ext _ _ _ _ Hiff). lia.
Qed.

Section loop.
Context (es : list edge) (regOrder : list string) (adj : gmap string (list string)).
Context (Hnd : NoDup regOrder) (Hself : forall n, (n, n) ∉ es).
Context (Hreg : forall p, p ∈ es -> p.1 ∈ regOrder /\ p.2 ∈ regOrder).
Context (Hadj : forall d, default [] (adj !! d) = (filter (fun p => p.2 = d) es).*1).

Record kahn_inv (k : kahn) : Prop := {
  k_nodup : NoDup (ordered k ++ queue k);
  k_registered : ordered k ++ queue k ⊆ regOrder;
  k_seen : forall n, n ∈ seen k <-> n ∈ ordered k;
  k_indegree : forall n, default 0 (indegree k !! n) = Z.of_nat (pending es n (ordered k));
  k_ready : forall n, n ∈ regOrder -> n ∈ ordered k ++ queue k <-> pending es n (ordered k) = 0%nat;
  k_sorted : forall l1 n l2, ordered k = l1 ++ n :: l2 -> forall d, (n, d) ∈ es -> d ∈ l1
}.

Lemma kahn_step name rest sn ord ind : kahn_inv (mkKahn (name :: rest) sn ord ind) ->
  exists ind' freed, free (default [] (adj !! name)) ind [] = (ind', freed) /\ name ∉ sn /\ NoDup freed /\
    (forall n, n ∈ freed <-> n ∈ regOrder /\ (0 < pending es n ord)%nat /\ pending es n (ord ++ [name]) = 0%nat) /\
    kahn_inv (mkKahn (rest ++ sortByRegOrder freed regOrder) ({[name]} ∪ sn) (ord ++ [name]) ind').
Proof.
  intros [H1 H2 H3 H4 H5 H6]. cbn [ordered queue seen indegree] in *.
  assert (Hname : name ∉ ord /\ name ∉ rest /\ NoDup (ord ++ rest) /\ name ∈ regOrder).
  { rewrite <- Permutation_middle in H1, H2. apply NoDup_cons in H1 as [Hn H1]. rewrite elem_of_app in Hn.
    split; [tauto|]. split; [tauto|]. split; [done|]. apply H2. left. }
  destruct Hname as (N1 & N2 & N3 & N4).
  assert (Hocc : forall n, pending es n ord = (pending es n (ord ++ [name]) + occ n (default [] (adj !! name)))%nat).
  { intros n. rewrite Hadj. by apply pending_snoc. }
  destruct (free_spec (default [] (adj !! name)) ind []) as (ind' & freed & E & F1 & F2 & F3).
  { intros n. rewrite H4, (Hocc n). lia. }
  { by intros n ?%elem_of_nil. }
  { constructor. }
  exists ind', freed. split; [done|]. split; [by rewrite H3|].
  assert (Hfree : forall n, n ∈ freed <-> n ∈ regOrder /\ (0 < pending es n ord)%nat /\ pending es n (ord ++ [name]) = 0%nat).
  { intros n. rewrite F3, H4, (Hocc n). split.
    - intros [?%elem_of_nil|[Hp He]]; [done|]. pose proof (proj1 (occ_pos _ _) Hp). split; [|lia].
      rewrite Hadj in Hp. apply list_elem_of_fmap in Hp as (p & -> & [_ Hp]%list_elem_of_filter).
      by apply Hreg.
    - intros (_ & Hp & He). right. rewrite occ_pos. lia. }
  assert (Hback : forall n, n ∈ regOrder -> n ∈ ord ++ name :: rest -> pending es n (ord ++ [name]) = 0%nat).
  { intros n Hn Hin. apply (H5 n Hn) in Hin. specialize (Hocc n). lia. }
  split; [done|]. split; [done|]. split; cbn [ordered queue seen indegree].
  - rewrite <- app_assoc. cbn [app]. rewrite <- Permutation_middle. rewrite sortByRegOrder_perm, app_assoc.
    apply NoDup_cons. rewrite !elem_of_app. split.
    + intros [[?|?]|Hf]; [done|done|]. apply Hfree in Hf as (_ & Hf & _).
      assert (pending es name ord = 0%nat) by (apply (H5 name N4), elem_of_app; right; left). lia.
    + apply NoDup_app. split; [done|]. split; [|done]. intros n Hn Hf. apply Hfree in Hf as (Hr & Hf & _).
      assert (pending es n ord = 0%nat); [|lia]. apply (H5 n Hr). rewrite <- Permutation_middle. by right.
  - intros n Hn. rewrite <- app_assoc in Hn. cbn [app] in Hn. rewrite <- Permutation_middle, sortByRegOrder_perm, app_assoc in Hn.
    apply elem_of_cons in Hn as [-> |Hn]; [done|]. apply elem_of_app in Hn as [Hn|Hn]; [|by apply Hfree in Hn as [? _]].
    apply H2. rewrite <- Permutation_middle. by right.
  - intros n. rewrite elem_of_union, elem_of_singleton, elem_of_app, list_elem_of_singleton, H3. tauto.
  - intros n. rewrite F1, H4, (Hocc n). lia.
  - intros n Hn. rewrite <- app_assoc. cbn [app]. rewrite <- Permutation_middle, sortByRegOrder_perm, app_assoc, elem_of_cons, elem_of_app.
    split.
    + intros [-> |[Hin|Hf]]; [apply Hback; [done|rewrite <- Permutation_middle; left]| |by apply Hfree in Hf as (_ & _ & ?)].
      apply Hback; [done|]. rewrite <- Permutation_middle. by right.
    + intros Hz. destruct (decide (pending es n ord = 0%nat)) as [H0|H0].
      * apply (H5 n Hn) in H0. rewrite <- Permutation_middle in H0. apply elem_of_cons in H0 as [?|?]; tauto.
      * right. right. apply Hfree. split; [done|lia].
  - intros l1 n l2 Hl d Hd. destruct l2 as [|x l2 _] using rev_ind.
    + apply app_inj_tail in Hl as [<- <-]. assert (Hz : pending es name ord = 0%nat).
      { apply (H5 name N4), elem_of_app. right. left. }
      by apply (proj1 (pending_zero es name ord) Hz).
    + rewrite app_comm_cons, app_assoc in Hl. apply app_inj_tail in Hl as [Hl _]. by eapply H6.
Qed.

(** The rounds are enough, and the queue is empty in the end. *)
Lemma kahn_loop_ends fuel : forall k, kahn_inv k -> (length regOrder - length (ordered k) < fuel)%nat ->
  kahn_inv (kahn_loop fuel adj regOrder k) /\ queue (kahn_loop fuel adj regOrder k) = [].
Proof.
  induction fuel as [|fuel IH]; intros [q sn ord ind] Hk Hf; [lia|]. cbn [kahn_loop queue ordered indegree seen] in *.
  destruct q as [|name rest]; [done|].
  destruct (kahn_step name rest sn ord ind Hk) as (ind' & freed & E & Hs & _ & _ & Hk'). rewrite decide_False by done. rewrite E.
  apply IH; [done|]. cbn [ordered]. rewrite length_app. cbn [length].
  assert (Hlen : (length (ord ++ name :: rest) <= length regOrder)%nat).
  { apply submseteq_length, NoDup_submseteq; apply Hk. }
  rewrite length_app in Hlen. cbn in Hlen. lia.
Qed.

End loop.

(** Two iterations over the same graph free the same modules in the same order. *)
Lemma kahn_loop_same es es' regOrder adj adj' fuel : NoDup regOrder -> es ≡ₚ es' ->
  (forall p, p ∈ es -> p.1 ∈ regOrder /\ p.2 ∈ regOrder) ->
  (forall d, default [] (adj !! d) = (filter (fun p => p.2 = d) es).*1) ->
  (forall d, default [] (adj' !! d) = (filter (fun p => p.2 = d) es').*1) ->
  forall q sn ord ind ind', kahn_inv es regOrder (mkKahn q sn ord ind) -> kahn_inv es' regOrder (mkKahn q sn ord ind') ->
  ordered (kahn_loop fuel adj regOrder (mkKahn q sn ord ind)) = ordered (kahn_loop fuel adj' regOrder (mkKahn q sn ord ind')).
Proof.
  intros Hnd Hp Hreg Ha Ha'. assert (Hreg' : forall p, p ∈ es' -> p.1 ∈ regOrder /\ p.2 ∈ regOrder).
  { intros p. rewrite <- Hp. apply Hreg. }
  assert (Hpend : forall n l, pending es n l = pending es' n l) by (intros n l; unfold pending; by rewrite Hp).
  induction fuel as [|fuel IH]; intros q sn ord ind ind' Hk Hk'; [done|]. cbn [kahn_loop queue].
  destruct q as [|name rest]; [done|].
  destruct (kahn_step es regOrder adj Hreg Ha _ _ _ _ _ Hk) as (i1 & freed & E & Hs & Hf1 & Hf2 & Hk1).
  destruct (kahn_step es' regOrder adj' Hreg' Ha' _ _ _ _ _ Hk') as (i1' & freed' & E' & _ & Hf1' & Hf2' & Hk1').
  cbn [seen ordered indegree]. rewrite !decide_False by done. rewrite E, E'.
  assert (Hsort : sortByRegOrder freed regOrder = sortByRegOrder freed' regOrder).
  { apply sortByRegOrder_unique; [done|intros n Hn; by apply Hf2 in Hn as [? _]|].
    apply NoDup_Permutation; [done..|]. intros n. by rewrite Hf2, Hf2', !Hpend. }
  rewrite Hsort in *. by apply IH.
Qed.

(** * The plan *)

(** A registry that [Register] built. *)
Record registry_wf (r : Registry) : Prop := {
  r_nodup : NoDup (order r);
  r_names : forall n v, verifiers r !! n = Some v -> Name v = n;
  r_keys : forall n, n ∈ order r <-> is_Some (verifiers r !! n)
}.

Lemma NewRegistry_wf : registry_wf NewRegistry.
Proof. split; [constructor|done|]. intros n. cbn. rewrite elem_of_nil, lookup_empty. by split; [|intros []]. Qed.

Lemma Register_wf r v : registry_wf r -> registry_wf (fst (Register r v)).
Proof.
  intros [H1 H2 H3]. destruct v as [v|]; cbn [Register fst]; [|done]. case_decide; [done|].
  destruct (verifiers r !! Name v) as [w|] eqn:E; [done|]. split; cbn [order verifiers fst].
  - apply NoDup_app. split; [done|]. split; [|apply NoDup_singleton].
    intros n Hn ->%list_elem_of_singleton. apply H3 in Hn as [w Hw]. congruence.
  - intros n w. rewrite lookup_insert. case_decide; [intros [= <-]; done|apply H2].
  - intros n. rewrite elem_of_app, list_elem_of_singleton, H3, lookup_insert. case_decide; subst.
    + split; [by eexists|by right].
    + split; [intros [?|?]; [done|congruence]|by left].
Qed.

Section plan.
Context (reg : Registry) (Hwf : registry_wf reg).

Lemma names_of l : l ⊆ order reg -> Name <$> omap (fun n => verifiers reg !! n) l = l.
Proof.
  induction l as [|n l IH]; intros Hl; [done|]. cbn.
  destruct (proj1 (r_keys _ Hwf n) (Hl n ltac:(left))) as [v Hv]. rewrite Hv. cbn.
  rewrite (r_names _ Hwf n v Hv). f_equal. apply IH. intros m Hm. apply Hl. by right.
Qed.

Lemma All_names : Name <$> All reg = order reg.
Proof. by apply names_of. Qed.

Lemma registered_eq : (list_to_map ((fun v => (Name v, v)) <$> All reg) : gmap string Verifier) = verifiers reg.
Proof.
  apply map_eq. intros n. apply option_eq. intros v. rewrite <- elem_of_list_to_map.
  2:{ rewrite <- list_fmap_compose. change (NoDup (Name <$> All reg)). rewrite All_names. apply Hwf. }
  rewrite list_elem_of_fmap. unfold All. split.
  - intros (w & [= -> <-] & Hw). apply list_elem_of_omap in Hw as (m & _ & Hm). by rewrite (r_names _ Hwf m v Hm).
  - intros Hv. exists v. rewrite (r_names _ Hwf n v Hv). split; [done|]. apply list_elem_of_omap. exists n.
    split; [|done]. apply (r_keys _ Hwf). eauto.
Qed.

Lemma registered_size : size (verifiers reg) = length (order reg).
Proof.
  rewrite <- registered_eq, <- All_names, length_fmap, map_size_list_to_map.
  - by rewrite length_fmap.
  - rewrite <- list_fmap_compose. change (NoDup (Name <$> All reg)). rewrite All_names. apply Hwf.
Qed.

(** [node] waits for [dep]: both are registered and the graph says so. *)
Definition depends (dag : list (string * list string)) (node dep : string) : Prop :=
  node ∈ order reg /\ dep ∈ order reg /\ exists rawDeps, (node, rawDeps) ∈ dag /\ dep ∈ rawDeps.

Lemma edge_list_depends dag node dep : (node, dep) ∈ edge_list (verifiers reg) dag <-> depends dag node dep.
Proof.
  unfold edge_list, depends. rewrite elem_of_concat. split.
  - intros (l & Hl & Hin). apply list_elem_of_fmap in Hl as ([m raw] & -> & Hd). case_decide as Hm; [|by apply elem_of_nil in Hin].
    apply list_elem_of_fmap in Hin as (x & [= -> ->] & [Hx Hin]%list_elem_of_filter).
    rewrite !(r_keys _ Hwf). split; [done|]. split; [done|]. by exists raw.
  - intros (Hn & Hd & raw & Hin & Hraw). rewrite (r_keys _ Hwf) in Hn, Hd.
    exists ((fun dep => (node, dep)) <$> filter (fun dep => is_Some (verifiers reg !! dep)) raw). split.
    + apply list_elem_of_fmap. exists (node, raw). by rewrite decide_True.
    + apply list_elem_of_fmap. exists dep. split; [done|]. by apply list_elem_of_filter.
Qed.

(** The state in which the loop starts. *)
Definition first_state (dag : list (string * list string)) : kahn * edges :=
  let e := add_edges (edge_list (verifiers reg) dag) (mkEdges ∅ ∅ (list_to_map ((fun n => (n, 0)) <$> order reg))) in
  (mkKahn (filter (fun n => default 0 (e_indegree e !! n) = 0) (order reg)) ∅ [] (e_indegree e), e).

Lemma first_state_inv dag : kahn_inv (edge_list (verifiers reg) dag) (order reg) (first_state dag).1 /\
  forall d, default [] (e_adj (first_state dag).2 !! d) = (filter (fun p => p.2 = d) (edge_list (verifiers reg) dag)).*1.
Proof.
  unfold first_state. set (es := edge_list (verifiers reg) dag). set (e0 := mkEdges _ _ _).
  destruct (add_edges_maps es e0) as (I1 & I2 & _). cbn [fst snd].
  assert (Hind : forall n, default 0 (e_indegree (add_edges es e0) !! n) = Z.of_nat (pending es n [])).
  { intros n. rewrite I1, pending_nil. cbn [e_indegree e0].
    destruct ((list_to_map ((fun n => (n, 0)) <$> order reg) : gmap string Z) !! n) as [z|] eqn:E; [|done].
    apply elem_of_list_to_map_2, list_elem_of_fmap in E as (m & [= _ ->] & _). done. }
  split; [|intros d; by rewrite I2]. split; cbn [ordered queue seen indegree app].
  - apply NoDup_filter, Hwf.
  - intros n [_ Hn]%list_elem_of_filter. done.
  - set_solver.
  - done.
  - intros n Hn. rewrite list_elem_of_filter, Hind. split; [intros [? _]; lia|intros ->; done].
  - intros l1 n l2 Hl. by destruct l1.
Qed.

Definition plan_of (dag : list (string * list string)) : kahn :=
  kahn_loop (S (length (order reg))) (e_adj (first_state dag).2) (order reg) (first_state dag).1.

(** A self-dependency is the only error of the first loop. *)
Lemma resolve_cases dag : dag <> [] ->
  (exists n, resolveModuleOrder reg dag = inr (SelfDependency n) /\ depends dag n n) \/
  (forall n, ~ depends dag n n) /\
    resolveModuleOrder reg dag =
      let k := plan_of dag in
      if zlen (ordered k) =? Z.of_nat (length (order reg))
      then inl (mkOrder (omap (fun n => verifiers reg !! n) (ordered k)) (e_deps (first_state dag).2))
      else inr (CycleDetected (Z.of_nat (length (order reg)) - zlen (ordered k))).
Proof.
  intros Hd. unfold resolveModuleOrder. rewrite registered_eq, All_names, registered_size.
  destruct dag as [|p dag']; [done|]. set (dag := p :: dag').
  set (e0 := mkEdges ∅ ∅ (list_to_map ((fun n => (n, 0)) <$> order reg))).
  destruct (add_nodes_spec (verifiers reg) dag e0) as [[-> Hn]|(n & -> & Hn)].
  - right. split; [|done]. intros n. rewrite <- edge_list_depends. apply Hn.
  - left. exists n. by rewrite <- edge_list_depends.
Qed.

Lemma depends_registered dag p : p ∈ edge_list (verifiers reg) dag -> p.1 ∈ order reg /\ p.2 ∈ order reg.
Proof. destruct p as [n d]. intros (? & ? & _)%edge_list_depends. done. Qed.

Lemma plan_inv dag :
  kahn_inv (edge_list (verifiers reg) dag) (order reg) (plan_of dag) /\ queue (plan_of dag) = [].
Proof.
  destruct (first_state_inv dag) as [Hk Ha].
  apply (kahn_loop_ends (edge_list (verifiers reg) dag)); [apply depends_registered|done|done|]. cbn. lia.
Qed.

Lemma plan_ordered dag : ordered (plan_of dag) ⊆ order reg /\ NoDup (ordered (plan_of dag)).
Proof.
  destruct (plan_inv dag) as [Hk Hq]. pose proof (k_registered _ _ _ Hk) as H1. pose proof (k_nodup _ _ _ Hk) as H2.
  rewrite Hq, app_nil_r in H1, H2. done.
Qed.

(** A ranking of the modules leaves none of them waiting. *)
Lemma ranked_all_ordered dag (rank : string -> nat) : (forall n d, depends dag n d -> (rank d < rank n)%nat) ->
  order reg ⊆ ordered (plan_of dag).
Proof.
  intros Hr. destruct (plan_inv dag) as [Hk Hq].
  assert (H : forall k n, (rank n < k)%nat -> n ∈ order reg -> n ∈ ordered (plan_of dag)).
  { induction k as [|k IH]; intros n Hn Hin; [lia|]. pose proof (k_ready _ _ _ Hk n Hin) as Hready.
    rewrite Hq, app_nil_r in Hready. apply Hready, pending_zero. intros d Hd. apply edge_list_depends in Hd.
    apply IH; [|by apply Hd]. specialize (Hr n d Hd). lia. }
  intros n Hn. by apply (H (S (rank n))); [lia|].
Qed.

(** The count of the ordered modules tells whether all are. *)
Lemma plan_complete dag : zlen (ordered (plan_of dag)) = Z.of_nat (length (order reg)) <-> order reg ⊆ ordered (plan_of dag).
Proof.
  destruct (plan_ordered dag) as [Hs Hnd]. unfold zlen. apply NoDup_submseteq in Hs; [|done]. split.
  - intros Hl. rewrite (submseteq_length_Permutation _ _ Hs); [done|lia].
  - intros Hr. apply NoDup_submseteq in Hr; [|apply Hwf]. apply submseteq_length in Hs, Hr. lia.
Qed.

Lemma plan_perm dag : order reg ⊆ ordered (plan_of dag) -> ordered (plan_of dag) ≡ₚ order reg.
Proof.
  intros Hr. destruct (plan_ordered dag) as [Hs Hnd]. apply NoDup_Permutation; [done|apply Hwf|]. intros n.
  split; [apply Hs|apply Hr].
Qed.

(** The place in the plan is a ranking. *)
Lemma ordered_ranks dag : order reg ⊆ ordered (plan_of dag) ->
  exists rank : string -> nat, forall n d, depends dag n d -> (rank d < rank n)%nat.
Proof.
  intros Hall. destruct (plan_inv dag) as [Hk _]. destruct (plan_ordered dag) as [_ Hnd].
  exists (fun n => Z.to_nat (default 0 (rank_from 0 (ordered (plan_of dag)) !! n))). intros n d Hd.
  destruct (list_elem_of_lookup_1 (ordered (plan_of dag)) n) as [i Hi]; [by apply Hall, Hd|].
  assert (Hin : d ∈ take i (ordered (plan_of dag))).
  { eapply (k_sorted _ _ _ Hk); [by apply eq_sym, take_drop_middle|]. by apply edge_list_depends. }
  apply list_elem_of_lookup in Hin as [j Hj]. pose proof (lookup_lt_Some _ _ _ Hj) as Hlt.
  rewrite length_take in Hlt. rewrite lookup_take_lt in Hj by lia.
  rewrite (rank_from_lookup _ Hnd 0 i n Hi), (rank_from_lookup _ Hnd 0 j d Hj). cbn. lia.
Qed.

(** Success is a plan of all the modules. *)
Lemma resolve_succeeds dag : dag <> [] ->
  (forall mo, resolveModuleOrder reg dag = inl mo ->
    order reg ⊆ ordered (plan_of dag) /\ Name <$> modules mo = ordered (plan_of dag)) /\
  (order reg ⊆ ordered (plan_of dag) -> (forall n, ~ depends dag n n) -> exists mo, resolveModuleOrder reg dag = inl mo).
Proof.
  intros Hd. destruct (resolve_cases dag Hd) as [(n & -> & Hn)|[Hs ->]]; cbn zeta.
  { split; [done|]. intros _ Hno. by destruct (Hno n). }
  destruct (Z.eqb_spec (zlen (ordered (plan_of dag))) (Z.of_nat (length (order reg)))) as [E|E].
  - split; [|eauto]. intros mo [= <-]. split; [by apply plan_complete|]. cbn [modules]. apply names_of, plan_ordered.
  - split; [done|]. by intros Hc%plan_complete.
Qed.

(** Two iterations over the same map give the same plan. *)
Lemma plan_of_same dag dag' : dag ≡ₚ dag' -> ordered (plan_of dag) = ordered (plan_of dag').
Proof.
  intros Hp. unfold plan_of.
  assert (He : edge_list (verifiers reg) dag ≡ₚ edge_list (verifiers reg) dag').
  { unfold edge_list. induction Hp as [|[x r] l l' _ IH|[x r] [y r'] l|l1 l2 l3 _ IH1 _ IH2]; cbn.
    - done.
    - by rewrite IH.
    - rewrite !app_assoc. apply Permutation_app; [apply Permutation_app_comm|done].
    - by rewrite IH1. }
  destruct (first_state_inv dag) as [Hk Ha]. destruct (first_state_inv dag') as [Hk' Ha'].
  assert (Hq : queue (first_state dag).1 = queue (first_state dag').1).
  { cbn [first_state fst queue]. apply list_filter_iff. intros n.
    pose proof (k_indegree _ _ _ Hk n) as H1. pose proof (k_indegree _ _ _ Hk' n) as H2. cbn in H1, H2.
    rewrite H1, H2. unfold pending. by rewrite He. }
  destruct (first_state dag) as [[q sn ord ind] e] eqn:E1. destruct (first_state dag') as [[q' sn' ord' ind'] e'] eqn:E2.
  pose proof (f_equal fst E1) as F1. pose proof (f_equal fst E2) as F2. injection F1 as _ <- <- _. injection F2 as _ <- <- _.
  cbn [fst snd queue] in *. subst q'. eapply kahn_loop_same; [apply Hwf|exact He|apply depends_registered|done..].
Qed.

End plan.

End dag.

(** C31: the plan of the verifiers.  On a registry that [Register] built,
    resolveModuleOrder succeeds exactly when the dependencies between registered
    modules can be ranked, i.e. have no cycle; the plan then runs every registered
    module once, and each after all its dependencies. *)
Theorem module_order_topological {Verifier} (Name : Verifier -> string) reg dag : registry_wf Name reg ->
  ((exists mo, resolveModuleOrder Name reg dag = inl mo) <->
   exists rank : string -> nat, forall n d, depends reg dag n d -> (rank d < rank n)%nat) /\
  forall mo, resolveModuleOrder Name reg dag = inl mo ->
    Name <$> modules mo ≡ₚ order reg /\
    forall l1 n l2, Name <$> modules mo = l1 ++ n :: l2 -> forall d, depends reg dag n d -> d ∈ l1.
Proof.
  intros Hwf. destruct (decide (dag = [])) as [-> |Hd].
  { assert (Hno : forall n d, ~ depends reg [] n d) by (intros n d (_ & _ & r & Hr & _); by apply elem_of_nil in Hr).
    split; [split; [|by eexists]|].
    - intros _. exists (fun _ => 0%nat). intros n d Hnd. by destruct (Hno n d).
    - intros mo [= <-]. cbn [modules]. rewrite All_names by done. split; [done|]. intros l1 n l2 _ d Hnd. by destruct (Hno n d). }
  destruct (resolve_succeeds Name reg Hwf dag Hd) as [R1 R2]. split.
  - split.
    + intros [mo Hmo]. eapply ordered_ranks; [exact Hwf|]. by apply (R1 mo).
    + intros [rank Hr]. apply R2; [by eapply ranked_all_ordered|]. intros n Hn. specialize (Hr n n Hn). lia.
  - intros mo Hmo. destruct (R1 mo Hmo) as [Hall ->]. split; [by eapply plan_perm|].
    intros l1 n l2 Hl d Hnd. destruct (plan_inv Name reg Hwf dag) as [Hk _].
    eapply (k_sorted _ _ _ Hk); [exact Hl|]. by eapply edge_list_depends.
Qed.

(** Four modules, the dependencies of a diamond. *)
Definition diamond_registry : @Registry string :=
  default NewRegistry (register_all id NewRegistry ["scan"; "oracle"; "get"; "range"]%string).

Definition diamond : list (string * list string) :=
  [("scan", ["get"; "range"]); ("get", ["oracle"]); ("range", ["oracle"; "unknown"])]%string.

Lemma diamond_wf : registry_wf id diamond_registry.
Proof.
  change diamond_registry with (fst (Register id (fst (Register id (fst (Register id (fst (Register id
    NewRegistry (Some "scan"))) (Some "oracle"))) (Some "get"))) (Some "range")))%string.
  do 4 apply Register_wf. apply NewRegistry_wf.
Qed.

Example diamond_plan : resolveModuleOrder id diamond_registry diamond =
  inl (mkOrder ["oracle"; "get"; "range"; "scan"]%string
    (list_to_map [("scan", ["get"; "range"]); ("get", ["oracle"]); ("range", ["oracle"])]%string)).
Proof. vm_compute. reflexivity. Qed.

Lemma module_order_topological_witness : "oracle"%string ∈ ["oracle"]%string.
Proof.
  destruct (proj2 (module_order_topological id diamond_registry diamond diamond_wf) _ diamond_plan) as [_ H].
  refine (H ["oracle"]%string "get"%string ["range"; "scan"]%string eq_refl "oracle"%string _).
  split; [by_decide|]. split; [by_decide|]. exists ["oracle"]%string. by split; by_decide.
Defined.

(** the plan does not depend on the order in which Go iterates over the graph, a
    map: two orders of its entries give the same modules in the same order, or both an
    error. *)
Theorem module_order_deterministic {Verifier} (Name : Verifier -> string) reg dag dag' :
  registry_wf Name reg -> dag ≡ₚ dag' ->
  match resolveModuleOrder Name reg dag, resolveModuleOrder Name reg dag' with
  | inl mo, inl mo' => modules mo = modules mo'
  | inr _, inr _ => True
  | _, _ => False
  end.
Proof.
  intros Hwf Hp. destruct (decide (dag = [])) as [-> |Hd]; [by apply Permutation_nil_l in Hp as <-|].
  assert (Hd' : dag' <> []) by (intros ->; by apply Permutation_nil_r in Hp).
  assert (Hdep : forall n d, depends reg dag n d <-> depends reg dag' n d) by (unfold depends; by setoid_rewrite Hp).
  destruct (resolve_cases Name reg Hwf dag Hd) as [(n & -> & Hn)|[Hs ->]];
    destruct (resolve_cases Name reg Hwf dag' Hd') as [(n' & -> & Hn')|[Hs' ->]]; try done.
  - by apply Hdep, Hs' in Hn.
  - by apply Hdep, Hs in Hn'.
  - cbn zeta. rewrite (plan_of_same Name reg Hwf dag dag' Hp). by destruct (_ =? _).
Qed.

Lemma module_order_deterministic_witness :
  match resolveModuleOrder id diamond_registry diamond, resolveModuleOrder id diamond_registry (rev diamond) with
  | inl mo, inl mo' => modules mo = modules mo'
  | inr _, inr _ => True
  | _, _ => False
  end.
Proof. exact (module_order_deterministic id diamond_registry diamond (rev diamond) diamond_wf (Permutation_rev _)). Defined.

(** A module that the graph does not mention has no dependency, so it is not put behind
    the ones that have some. *)
Theorem unmentioned_module_runs_first :
  exists reg : @Registry string, registry_wf id reg /\
    resolveModuleOrder id reg [("get", ["oracle"])]%string =
      inl (mkOrder ["extra"; "oracle"; "get"]%string {["get" := ["oracle"]]}%string).
Proof.
  exists (fst (Register id (fst (Register id (fst (Register id NewRegistry (Some "extra"))) (Some "get"))) (Some "oracle")))%string.
  split; [do 3 apply Register_wf; apply NewRegistry_wf|]. vm_compute. reflexivity.
Qed.

End AtfDag.
