(* ===== verification/AtfScheduler.v ===== *)
(** The campaign scheduler of the acceptance framework
    (internal/db/acceptance/framework/scheduler/scheduler.go).

    What runs a scenario is behind the interface [ScenarioExecutor]; the scheduler only
    relies on the two laws of the class.  The goroutines of a tier are a step relation;
    [runTier] is what every run of it returns. *)

From Stdlib Require Import ZArith Lia.
From stdpp Require Import sorting.
From S2P Require Import Prelude Word AtfSession.

Module AtfScheduler.
Import AtfSession.

(** * Interfaces *)

(** An executor in one run: what it returns, and whether its error is nil. *)
Class ScenarioExecutor (E : Type) := {
  Run : E -> ScenarioDefinition -> SessionTracker -> ScenarioResult * bool;
  Run_id : forall e sc t, ScenarioID (fst (Run e sc t)) = IDStr sc;
  Run_status : forall e sc t, StatusVal (fst (Run e sc t)) = if snd (Run e sc t) then StatusPass else StatusFail
}.

(** * The scheduler *)

Record CampaignScheduler := mkScheduler {
  scenarios : gmap string ScenarioDefinition;
  pendingQueue : list ScenarioDefinition;
  workersCount : Z;
  running : bool;
  stopped : bool;      (* stopChan is closed *)
  hasExecutor : bool;  (* newExecutor is not nil *)
  maxRetries : Z
}.

Definition NewCampaignScheduler (workersCount : Z) : CampaignScheduler :=
  mkScheduler ∅ [] workersCount false false false 0.

Definition SetExecutorFactory (s : CampaignScheduler) (notNil : bool) : CampaignScheduler :=
  mkScheduler (scenarios s) (pendingQueue s) (workersCount s) (running s) (stopped s) notNil (maxRetries s).

Definition SetMaxRetries (s : CampaignScheduler) (n : Z) : CampaignScheduler :=
  mkScheduler (scenarios s) (pendingQueue s) (workersCount s) (running s) (stopped s) (hasExecutor s) (if n <? 0 then 0 else n).

Inductive scheduler_error := NilScenario | AlreadySubmitted (id : string) | NoExecutorFactory.

Definition Submit (s : CampaignScheduler) (scenario : option ScenarioDefinition) : CampaignScheduler * option scheduler_error :=
  match scenario with
  | None => (s, Some NilScenario)
  | Some sc =>
      match scenarios s !! IDStr sc with
      | Some _ => (s, Some (AlreadySubmitted (IDStr sc)))
      | None => (mkScheduler (<[IDStr sc := sc]> (scenarios s)) (pendingQueue s ++ [sc]) (workersCount s) (running s)
                   (stopped s) (hasExecutor s) (maxRetries s), None)
      end
  end.

(** The order of the campaign: priority, then ID. *)
Definition before (a b : ScenarioDefinition) : Prop :=
  PriorityVal a < PriorityVal b \/ PriorityVal a = PriorityVal b /\ String.le (IDStr a) (IDStr b).

#[export] Instance before_dec : RelDecision before.
Proof. intros a b. unfold before. apply _. Defined.

#[export] Instance before_trans : Transitive before.
Proof.
  intros a b c [H1|[H1 L1]] [H2|[H2 L2]]; unfold before; [left; lia|left; lia|left; lia|right]. split; [lia|by etrans].
Qed.

#[export] Instance before_total : Total before.
Proof.
  intros a b. unfold before. destruct (Z.lt_trichotomy (PriorityVal a) (PriorityVal b)) as [H|[H|H]]; [tauto| |tauto].
  destruct (total String.le (IDStr a) (IDStr b)); [left|right]; right; done.
Qed.

(** [sort.Slice] returns a sorted permutation; with distinct IDs there is only one. *)
Definition resolveDependencies (s : CampaignScheduler) : list ScenarioDefinition := merge_sort before (pendingQueue s).

Definition Start (s : CampaignScheduler) : CampaignScheduler :=
  if running s then s
  else mkScheduler (scenarios s) (resolveDependencies s) (workersCount s) true (stopped s) (hasExecutor s) (maxRetries s).

(** [None]: closing a closed channel panics. *)
Definition Stop (s : CampaignScheduler) : option CampaignScheduler :=
  if negb (running s) then Some s
  else if stopped s then None
  else Some (mkScheduler (scenarios s) (pendingQueue s) (workersCount s) false true (hasExecutor s) (maxRetries s)).

Definition blockedResult (scenario : ScenarioDefinition) (reason : string) : ScenarioResult :=
  mkResult (IDStr scenario) StatusBlocked 0 [] None "" "" reason.

Definition blockedReason (canceled : bool) : string :=
  if canceled then "context canceled" else "priority gate closed by prior failure".

(** The loop of [groupByPriority]; [cur] is the tier being built. *)
Fixpoint group (prev : Z) (cur : list ScenarioDefinition) (l : list ScenarioDefinition) : list (list ScenarioDefinition) :=
  match l with
  | [] => match cur with [] => [] | _ => [cur] end
  | sc :: rest =>
      if PriorityVal sc =? prev then group prev (cur ++ [sc]) rest
      else cur :: group (PriorityVal sc) [sc] rest
  end.

Definition groupByPriority (sorted : list ScenarioDefinition) : list (list ScenarioDefinition) :=
  match sorted with [] => [] | sc :: _ => group (PriorityVal sc) [] sorted end.

Section executor.
Context {E : Type} `{!ScenarioExecutor E}.

(** What a scenario meets: the executor of each attempt, the tracker made for it, and
    what [ctx.Err] says before it. *)
Record environment := mkEnv { executor : nat -> E; fresh : nat -> string * Z; canceled : nat -> bool }.

Definition set_Retries (r : ScenarioResult) (n : Z) : ScenarioResult :=
  mkResult (ScenarioID r) (StatusVal r) n (Executions r) (Verification r) (TempDir r) (EvidencePath r) (FailureStage r).

Fixpoint attempt_loop (env : environment) (scenario : ScenarioDefinition) (left attempt : nat) (last : ScenarioResult) : ScenarioResult :=
  match left with
  | O => if decide (ScenarioID last = ""%string)
         then mkResult (IDStr scenario) StatusFail (Retries last) (Executions last) (Verification last) (TempDir last)
                (EvidencePath last) (FailureStage last)
         else last
  | S left' =>
      if canceled env attempt then blockedResult scenario "context canceled"
      else
        let tracker := NewSessionTracker (fresh env attempt).1 (fresh env attempt).2 StateScenarioRunning in
        let '(res, ok) := Run (executor env attempt) scenario tracker in
        let res := set_Retries res (Z.of_nat attempt) in
        if ok && bool_decide (StatusVal res = StatusPass) then res
        else attempt_loop env scenario left' (S attempt) res
  end.

Definition attempts (s : CampaignScheduler) : Z := let a := int64 (maxRetries s + 1) in if a <? 1 then 1 else a.

Definition runOne (s : CampaignScheduler) (env : environment) (scenario : ScenarioDefinition) : ScenarioResult :=
  attempt_loop env scenario (Z.to_nat (attempts s)) 0 noResult.

(** What the campaign meets: the environment of every scenario, and [ctx.Err] before
    each tier and at each blocked scenario. *)
Record campaign_env := mkCampaignEnv {
  c_env : ScenarioDefinition -> environment; c_tier : nat -> bool; c_blocked : ScenarioDefinition -> bool
}.

Definition runTier (s : CampaignScheduler) (env : ScenarioDefinition -> environment) (tier : list ScenarioDefinition)
  : list ScenarioResult := (fun sc => runOne s (env sc) sc) <$> tier.

(** [for _, tier := range groupByPriority(sorted)] *)
Fixpoint run_tiers (s : CampaignScheduler) (env : campaign_env) (k : nat) (gateOpen : bool) (tracker : CampaignTracker)
    (tiers : list (list ScenarioDefinition)) : CampaignTracker :=
  match tiers with
  | [] => tracker
  | tier :: rest =>
      if negb gateOpen || c_tier env k
      then run_tiers s env (S k) gateOpen
             (fold_left AddScenarioResult ((fun sc => blockedResult sc (blockedReason (c_blocked env sc))) <$> tier) tracker) rest
      else
        let results := runTier s (c_env env) tier in
        let allPassed := forallb (fun r => bool_decide (StatusVal r = StatusPass)) results in
        run_tiers s env (S k) allPassed (fold_left AddScenarioResult results tracker) rest
  end.

(** Both transitions of the campaign are attempted, their errors are ignored. *)
Definition campaign_transition (c : CampaignTracker) (new : State) : CampaignTracker :=
  mkCampaign (fst (Transition (ct_session c) new)) (ct_metadata c) (ct_scenarios c).

Definition Execute (s : CampaignScheduler) (env : campaign_env) (uuid : string) (now : Z) (meta : Metadata)
  : CampaignResult + scheduler_error :=
  if hasExecutor s then
    let tracker := campaign_transition (NewCampaignTracker uuid now meta) StateCampaignRunning in
    let tracker := run_tiers s env 0 true tracker (groupByPriority (resolveDependencies s)) in
    inl (CompileResult (campaign_transition tracker StateCampaignCompleted))
  else inr NoExecutorFactory.

(** * The goroutines of a tier *)

Inductive phase := Spawned | Written | Released.

(** The loop of the caller has started [next] goroutines; [sem] tokens are in the
    channel and [wg] is the counter of the wait group. *)
Record tier_state := mkTier { next : nat; sem : nat; wg : nat; phases : gmap nat phase; results : list ScenarioResult }.

Definition workers (s : CampaignScheduler) : Z := if workersCount s <? 1 then 1 else workersCount s.

Inductive tier_step (s : CampaignScheduler) (env : ScenarioDefinition -> environment) (tier : list ScenarioDefinition)
  : tier_state -> tier_state -> Prop :=
  | t_spawn n se w ph rs : (n < length tier)%nat -> Z.of_nat se < workers s ->
      tier_step s env tier (mkTier n se w ph rs) (mkTier (S n) (S se) (S w) (<[n := Spawned]> ph) rs)
  | t_run n se w ph rs i sc : ph !! i = Some Spawned -> tier !! i = Some sc ->
      tier_step s env tier (mkTier n se w ph rs) (mkTier n se w (<[i := Written]> ph) (<[i := runOne s (env sc) sc]> rs))
  | t_release n se w ph rs i : ph !! i = Some Written ->
      tier_step s env tier (mkTier n se w ph rs) (mkTier n (pred se) w (<[i := Released]> ph) rs)
  | t_done n se w ph rs i : ph !! i = Some Released ->
      tier_step s env tier (mkTier n se w ph rs) (mkTier n se (pred w) (delete i ph) rs).

Definition tier_start (tier : list ScenarioDefinition) : tier_state :=
  mkTier 0 0 0 ∅ (replicate (length tier) noResult).

(** [wg.Wait] returns. *)
Definition tier_over (tier : list ScenarioDefinition) (t : tier_state) : Prop := next t = length tier /\ wg t = 0%nat.

(** ** Its invariant *)

Definition cnt (P : phase -> bool) (ph : gmap nat phase) : nat := size (filter (fun p => P p.2 = true) ph).

Lemma cnt_insert P ph i x : cnt P (<[i := x]> ph) = ((if P x then 1 else 0) + cnt P (delete i ph))%nat.
Proof.
  unfold cnt. rewrite <- insert_delete_eq. destruct (P x) eqn:Hx.
  - rewrite map_filter_insert_True by done. rewrite map_size_insert_None; [done|].
    rewrite map_lookup_filter_None. left. apply lookup_delete_eq.
  - rewrite map_filter_insert_False by (cbn; congruence). by rewrite delete_delete_eq.
Qed.

Lemma cnt_lookup P ph i x : ph !! i = Some x -> cnt P ph = ((if P x then 1 else 0) + cnt P (delete i ph))%nat.
Proof. intros Hi. rewrite <- (insert_id ph i x Hi) at 1. apply cnt_insert. Qed.

Definition any (p : phase) : bool := true.
Definition holds (p : phase) : bool := match p with Released => false | _ => true end.
Definition unwritten (p : phase) : bool := match p with Spawned => true | _ => false end.

Section tier.
Context (s : CampaignScheduler) (env : ScenarioDefinition -> environment) (tier : list ScenarioDefinition).

Record tier_inv (t : tier_state) : Prop := {
  ti_next : (next t <= length tier)%nat;
  ti_phases : forall i x, phases t !! i = Some x -> (i < next t)%nat;
  ti_sem : sem t = cnt holds (phases t) /\ Z.of_nat (sem t) <= workers s;
  ti_wg : wg t = cnt any (phases t);
  ti_len : length (results t) = length tier;
  ti_results : forall i sc, (i < next t)%nat -> tier !! i = Some sc -> phases t !! i <> Some Spawned ->
    results t !! i = Some (runOne s (env sc) sc)
}.

Definition tier_measure (t : tier_state) : nat :=
  (4 * (length tier - next t) + cnt any (phases t) + cnt holds (phases t) + cnt unwritten (phases t))%nat.

Lemma workers_pos : 1 <= workers s.
Proof. unfold workers. destruct (Z.ltb_spec (workersCount s) 1); lia. Qed.

Lemma tier_start_inv : tier_inv (tier_start tier) /\ tier_measure (tier_start tier) = (4 * length tier)%nat.
Proof.
  split; [|unfold tier_measure; cbn; change (cnt any ∅) with 0%nat; change (cnt holds ∅) with 0%nat; change (cnt unwritten ∅) with 0%nat; lia].
  split; cbn; [lia|done| |done|by rewrite length_replicate|lia]. split; [done|]. pose proof workers_pos. lia.
Qed.

(** A goroutine moves on, from [x] to [y]. *)
Lemma phase_moves n se se' w ph rs rs' i x y : tier_inv (mkTier n se w ph rs) -> ph !! i = Some x -> y <> Spawned ->
  (se' + (if holds x then 1 else 0) = se + (if holds y then 1 else 0))%nat -> (holds y = true -> holds x = true) ->
  length rs' = length rs -> (forall j, i <> j -> rs' !! j = rs !! j) ->
  (forall sc, tier !! i = Some sc -> rs' !! i = Some (runOne s (env sc) sc)) ->
  tier_inv (mkTier n se' w (<[i := y]> ph) rs').
Proof.
  intros [I1 I2 [I3 I3'] I4 I5 I6] Hi Hy Hse Hxy Hl Hrs Hri. cbn [next sem wg phases results] in *. pose proof (I2 i _ Hi) as Hlt.
  pose proof (cnt_lookup holds ph i _ Hi) as Ch. pose proof (cnt_lookup any ph i _ Hi) as Ca.
  split; cbn [next sem wg phases results]; [done| | |by rewrite cnt_insert, I4, Ca|lia|].
  - intros j z. rewrite lookup_insert. case_decide; [subst; done|apply I2].
  - rewrite cnt_insert. destruct (holds x), (holds y); lia || (by specialize (Hxy eq_refl)).
  - intros j sc Hj Hsc. rewrite lookup_insert. case_decide; [subst; intros _; by apply Hri|].
    intros Hne. rewrite Hrs by done. by apply I6.
Qed.

Lemma tier_step_inv t t' : tier_step s env tier t t' -> tier_inv t -> tier_inv t' /\ tier_measure t = S (tier_measure t').
Proof.
  intros Hs Ht. pose proof Ht as [I1 I2 [I3 I3'] I4 I5 I6].
  destruct Hs as [n se w ph rs Hn Hw|n se w ph rs i sc Hi Hsc|n se w ph rs i Hi|n se w ph rs i Hi];
    unfold tier_measure; cbn [next sem wg phases results] in *.
  - assert (Hf : ph !! n = None) by (destruct (ph !! n) as [x|] eqn:Ex; [specialize (I2 n x Ex); lia|done]).
    rewrite !cnt_insert, !(delete_id ph n Hf). cbn. split; [|lia]. split; cbn [next sem wg phases results];
      [lia| |rewrite cnt_insert, (delete_id ph n Hf), <- I3; cbn; lia|by rewrite cnt_insert, (delete_id ph n Hf), <- I4|done|].
    + intros i x. rewrite lookup_insert. case_decide; [lia|]. intros Hx. specialize (I2 i x Hx). lia.
    + intros i sc Hi Hsc. rewrite lookup_insert. case_decide; [done|]. intros Hne. apply I6; [lia|done|done].
  - pose proof (I2 i _ Hi). rewrite !cnt_insert, (cnt_lookup any ph i _ Hi), (cnt_lookup holds ph i _ Hi), (cnt_lookup unwritten ph i _ Hi).
    cbn. split; [|lia]. eapply phase_moves; [exact Ht|exact Hi|done|done|done|by rewrite length_insert| |].
    + intros j Hj. by apply list_lookup_insert_ne.
    + intros sc' Hsc'. rewrite list_lookup_insert_eq by (apply lookup_lt_Some in Hsc; lia). congruence.
  - pose proof (I2 i _ Hi). pose proof (cnt_lookup holds ph i _ Hi) as Ch. cbn in Ch.
    rewrite !cnt_insert, (cnt_lookup any ph i _ Hi), Ch, (cnt_lookup unwritten ph i _ Hi). cbn. split; [|lia].
    eapply phase_moves; [exact Ht|exact Hi|done|cbn; lia|done|done|done|]. intros sc Hsc. apply I6; [done|done|congruence].
  - pose proof (I2 i _ Hi). pose proof (cnt_lookup holds ph i _ Hi) as Ch. pose proof (cnt_lookup any ph i _ Hi) as Ca. cbn in Ch, Ca.
    rewrite Ca, Ch, (cnt_lookup unwritten ph i _ Hi). cbn. split; [|lia].
    split; cbn [next sem wg phases results]; [done| |lia|lia|done|].
    + intros j x. rewrite lookup_delete. case_decide; [done|apply I2].
    + intros j sc' Hj Hsc' Hne. apply I6; [done|done|]. intros Ex. rewrite lookup_delete in Hne. case_decide; congruence.
Qed.

(** The caller or a goroutine can go on until all is over. *)
Lemma tier_progress t : tier_inv t -> ~ tier_over tier t -> exists t', tier_step s env tier t t'.
Proof.
  intros [I1 I2 [I3 I3'] I4 I5 I6] Hno. destruct t as [n se w ph rs]. cbn [next sem wg phases results] in *.
  destruct (map_choose_or_empty ph) as [(i & x & Hi)|Hempty].
  - destruct x; [|eexists; by eapply t_release|eexists; by eapply t_done]. pose proof (I2 i _ Hi).
    destruct (lookup_lt_is_Some_2 tier i) as [sc Hsc]; [lia|]. eexists. by eapply t_run.
  - subst ph. assert (se = 0%nat) by (rewrite I3; done). assert (w = 0%nat) by (rewrite I4; done). subst.
    destruct (decide (n = length tier)) as [->|Hn]; [by destruct Hno|].
    eexists. apply t_spawn; [lia|]. pose proof workers_pos. lia.
Qed.

Lemma tier_over_results t : tier_inv t -> tier_over tier t -> results t = runTier s env tier.
Proof.
  intros [I1 I2 _ I4 I5 I6] [Hn Hw]. apply list_eq_same_length with (length tier); [by unfold runTier; rewrite length_fmap|done|].
  intros i x y Hi Hx Hy. unfold runTier in Hy. rewrite list_lookup_fmap in Hy.
  destruct (tier !! i) as [sc|] eqn:Hsc; [|done]. injection Hy as <-. rewrite (I6 i sc) in Hx; [congruence|lia|done|].
  intros Hp. rewrite Hw, (cnt_lookup any _ _ _ Hp) in I4. cbn in I4. lia.
Qed.

Lemma tier_steps_inv n : forall t t', nsteps (tier_step s env tier) n t t' -> tier_inv t ->
  tier_inv t' /\ (n + tier_measure t' = tier_measure t)%nat.
Proof.
  induction n as [|n IH]; intros t t' Hs Ht; inversion Hs as [|? ? ? ? H1 H2]; subst; [done|].
  destruct (tier_step_inv _ _ H1 Ht) as [Ht1 Hm]. destruct (IH _ _ H2 Ht1) as [Ht' Hm']. split; [done|lia].
Qed.

End tier.

(** * One scenario *)

Definition run_at (env : environment) (sc : ScenarioDefinition) (k : nat) : ScenarioResult * bool :=
  Run (executor env k) sc (NewSessionTracker (fresh env k).1 (fresh env k).2 StateScenarioRunning).

Lemma attempt_loop_step env sc left k last : attempt_loop env sc (S left) k last =
  if canceled env k then blockedResult sc "context canceled"
  else if (run_at env sc k).2 then set_Retries (run_at env sc k).1 (Z.of_nat k)
  else attempt_loop env sc left (S k) (set_Retries (run_at env sc k).1 (Z.of_nat k)).
Proof.
  cbn [attempt_loop]. destruct (canceled env k); [done|].
  pose proof (Run_status (executor env k) sc (NewSessionTracker (fresh env k).1 (fresh env k).2 StateScenarioRunning)) as Hst.
  fold (run_at env sc k) in *. destruct (run_at env sc k) as [res ok]. cbn in Hst |- *. destruct ok; cbn; [|done].
  by rewrite bool_decide_true.
Qed.

(** The three ways in which the attempts [k], [k + 1], ... can end. *)
Definition outcome (env : environment) (sc : ScenarioDefinition) (k n : nat) (r : ScenarioResult) : Prop :=
  (exists i, (k <= i < n)%nat /\ (run_at env sc i).2 = true /\ canceled env i = false /\
     (forall j, (k <= j < i)%nat -> canceled env j = false /\ (run_at env sc j).2 = false) /\
     r = set_Retries (run_at env sc i).1 (Z.of_nat i)) \/
  (exists i, (k <= i < n)%nat /\ canceled env i = true /\
     (forall j, (k <= j < i)%nat -> canceled env j = false /\ (run_at env sc j).2 = false) /\
     r = blockedResult sc "context canceled") \/
  (forall j, (k <= j < n)%nat -> canceled env j = false /\ (run_at env sc j).2 = false) /\
     StatusVal r = StatusFail /\ Retries r = Z.of_nat (n - 1) /\ ScenarioID r = IDStr sc.

Lemma attempt_loop_outcome env sc left : forall k last,
  (left = 0%nat -> StatusVal last = StatusFail /\ Retries last = Z.of_nat (k - 1) /\ ScenarioID last = IDStr sc) ->
  outcome env sc k (k + left) (attempt_loop env sc left k last).
Proof.
  induction left as [|left IH]; intros k last Hlast.
  { destruct (Hlast eq_refl) as (H1 & H2 & H3). right. right. split; [lia|]. rewrite Nat.add_0_r. cbn [attempt_loop].
    case_decide as Hd; [|done]. by cbn. }
  rewrite attempt_loop_step. destruct (canceled env k) eqn:Ec.
  { right. left. exists k. repeat split; [lia|lia|done|lia..]. }
  destruct (run_at env sc k).2 eqn:Er.
  { left. exists k. repeat split; [lia|lia|done|done|lia..]. }
  assert (Hold : forall i, (forall j, (S k <= j < i)%nat -> canceled env j = false /\ (run_at env sc j).2 = false) ->
    forall j, (k <= j < i)%nat -> canceled env j = false /\ (run_at env sc j).2 = false).
  { intros i Hi j Hj. destruct (decide (j = k)) as [->|]; [done|]. apply Hi. lia. }
  replace (k + S left)%nat with (S k + left)%nat by lia.
  destruct (IH (S k) (set_Retries (run_at env sc k).1 (Z.of_nat k))) as [(i & Hi & H1 & H2 & H3 & H4)|[(i & Hi & H1 & H2 & H3)|(H1 & H2)]].
  - intros ->. pose proof (Run_status (executor env k) sc (NewSessionTracker (fresh env k).1 (fresh env k).2 StateScenarioRunning)) as Hst.
    pose proof (Run_id (executor env k) sc (NewSessionTracker (fresh env k).1 (fresh env k).2 StateScenarioRunning)) as Hid.
    fold (run_at env sc k) in *. rewrite Er in Hst. cbn. rewrite Nat.sub_0_r. by repeat split.
  - left. exists i. split; [lia|]. split; [done|]. split; [done|]. split; [by apply Hold|done].
  - right. left. exists i. split; [lia|]. split; [done|]. split; [by apply Hold|done].
  - right. right. split; [by apply Hold|done].
Qed.

Lemma attempts_pos s : 1 <= attempts s.
Proof. unfold attempts. cbv zeta. destruct (Z.ltb_spec (int64 (maxRetries s + 1)) 1); lia. Qed.

Lemma runOne_outcome s env sc : outcome env sc 0 (Z.to_nat (attempts s)) (runOne s env sc).
Proof.
  apply (attempt_loop_outcome env sc (Z.to_nat (attempts s)) 0 noResult). pose proof (attempts_pos s). lia.
Qed.

Lemma runOne_report s env sc : ScenarioID (runOne s env sc) = IDStr sc /\
  StatusVal (runOne s env sc) ∈ [StatusPass; StatusFail; StatusBlocked].
Proof.
  destruct (runOne_outcome s env sc) as [(i & _ & Hok & _ & _ & ->)|[(i & _ & _ & _ & ->)|(_ & -> & _ & ->)]].
  - cbn. unfold run_at in *. rewrite Run_id, Run_status, Hok. split; [done|left].
  - cbn. split; [done|]. right. right. left.
  - split; [done|]. right. left.
Qed.

Lemma status_cases x : x ∈ [StatusPass; StatusFail; StatusBlocked] -> x = StatusPass \/ x = StatusFail \/ x = StatusBlocked.
Proof. rewrite !elem_of_cons, elem_of_nil. tauto. Qed.

(** * The tiers *)

Lemma concat_group l : forall prev cur, concat (group prev cur l) = cur ++ l.
Proof.
  induction l as [|sc l IH]; intros prev cur; cbn [group]; [destruct cur; cbn; by rewrite ?app_nil_r|].
  destruct (_ =? _); [by rewrite IH, <- app_assoc|]. cbn [concat]. by rewrite IH.
Qed.

Lemma concat_groupByPriority l : concat (groupByPriority l) = l.
Proof. destruct l; [done|]. unfold groupByPriority. by rewrite concat_group. Qed.

Definition uniform (t : list ScenarioDefinition) : Prop := forall a b, a ∈ t -> b ∈ t -> PriorityVal a = PriorityVal b.

Definition tier_lt (t t' : list ScenarioDefinition) : Prop := forall a b, a ∈ t -> b ∈ t' -> PriorityVal a < PriorityVal b.

Lemma group_tiers l : StronglySorted before l -> forall prev cur, (forall a, a ∈ cur -> PriorityVal a = prev) ->
  (forall b, b ∈ l -> prev <= PriorityVal b) -> Forall uniform (group prev cur l) /\ StronglySorted tier_lt (group prev cur l).
Proof.
  induction 1 as [|sc l Hs IH Hsc]; intros prev cur Hcur Hl; cbn [group].
  - destruct cur as [|c cur]; [split; constructor|]. split; [|by repeat constructor]. constructor; [|constructor].
    intros a b Ha Hb. by rewrite (Hcur a Ha), (Hcur b Hb).
  - destruct (Z.eqb_spec (PriorityVal sc) prev) as [He|Hne].
    + apply IH.
      * intros a [Ha|Ha]%elem_of_app; [by apply Hcur|]. apply list_elem_of_singleton in Ha as ->. done.
      * intros b Hb. apply Hl. by right.
    + rewrite Forall_forall in Hsc. assert (Hge : forall b, b ∈ l -> PriorityVal sc <= PriorityVal b).
      { intros b Hb. destruct (Hsc b Hb) as [?|[? _]]; lia. }
      destruct (IH (PriorityVal sc) [sc]) as [H1 H2]; [by intros a ->%list_elem_of_singleton|done|].
      split; [constructor; [intros a b Ha Hb; by rewrite (Hcur a Ha), (Hcur b Hb)|done]|].
      constructor; [done|]. apply Forall_forall. intros t Ht a b Ha Hb. rewrite (Hcur a Ha).
      assert (Hin : b ∈ sc :: l).
      { change (sc :: l) with ([sc] ++ l). rewrite <- (concat_group l (PriorityVal sc) [sc]). apply elem_of_concat. eauto. }
      specialize (Hl sc ltac:(left)). apply elem_of_cons in Hin as [->|Hin]; [lia|]. specialize (Hge b Hin). lia.
Qed.

Lemma groupByPriority_tiers l : StronglySorted before l ->
  Forall uniform (groupByPriority l) /\ StronglySorted tier_lt (groupByPriority l).
Proof.
  intros Hl. destruct l as [|sc l]; [split; constructor|]. unfold groupByPriority. apply group_tiers; [done|set_solver|].
  intros b [->|Hb]%elem_of_cons; [done|]. apply StronglySorted_inv in Hl as [_ Hl]. rewrite Forall_forall in Hl.
  destruct (Hl b Hb) as [?|[? _]]; lia.
Qed.

(** * The gate *)

Definition reports (s : CampaignScheduler) (env : campaign_env) (sc : ScenarioDefinition) (r : ScenarioResult) : Prop :=
  ScenarioID r = IDStr sc /\
  (r = runOne s (c_env env sc) sc \/ r = blockedResult sc (blockedReason (c_blocked env sc))).

(** A scenario of lower priority than one that did not pass is blocked. *)
Definition gated (scs : list ScenarioDefinition) (rs : list ScenarioResult) : Prop :=
  forall i j sc sc' r r', scs !! i = Some sc -> rs !! i = Some r -> scs !! j = Some sc' -> rs !! j = Some r' ->
    PriorityVal sc < PriorityVal sc' -> StatusVal r <> StatusPass -> StatusVal r' = StatusBlocked.

(** Once a context is cancelled it stays so. *)
Definition monotone (env : campaign_env) : Prop := forall k, c_tier env k = true -> c_tier env (S k) = true.

Lemma AddScenarioResult_all rs : forall c,
  fold_left AddScenarioResult rs c = mkCampaign (ct_session c) (ct_metadata c) (ct_scenarios c ++ rs).
Proof.
  induction rs as [|x rs IH]; intros c; [destruct c; cbn; by rewrite app_nil_r|].
  cbn [fold_left]. rewrite IH. cbn. by rewrite <- app_assoc.
Qed.

Lemma gated_blocked scs rs : Forall (fun r => StatusVal r = StatusBlocked) rs -> gated scs rs.
Proof. intros Hb i j sc sc' r r' _ _ _ Hr' _ _. by apply (proj1 (Forall_lookup _ _) Hb j r'). Qed.

(** One tier in front of the others. *)
Lemma gated_app t rs rest rs' : uniform t -> (forall a b, a ∈ t -> b ∈ rest -> PriorityVal a < PriorityVal b) ->
  length rs = length t -> gated rest rs' ->
  (Forall (fun r => StatusVal r = StatusPass) rs \/ Forall (fun r => StatusVal r = StatusBlocked) rs') ->
  gated (t ++ rest) (rs ++ rs').
Proof.
  intros Hu Hlt Hlen Hg Hor i j sc sc' r r' H1 H2 H3 H4 Hp Hne.
  destruct (decide (i < length t)%nat) as [Hi|Hi]; destruct (decide (j < length t)%nat) as [Hj|Hj].
  - rewrite lookup_app_l in H1, H3 by lia. apply list_elem_of_lookup_2 in H1, H3. specialize (Hu sc sc' H1 H3). lia.
  - rewrite lookup_app_l in H2 by lia. rewrite lookup_app_r in H4 by lia. destruct Hor as [Ho|Ho].
    + by rewrite (proj1 (Forall_lookup _ _) Ho _ _ H2) in Hne.
    + by apply (proj1 (Forall_lookup _ _) Ho _ _ H4).
  - rewrite lookup_app_r in H1 by lia. rewrite lookup_app_l in H3 by lia. apply list_elem_of_lookup_2 in H1, H3.
    specialize (Hlt sc' sc H3 H1). lia.
  - rewrite lookup_app_r in H1, H3 by lia. rewrite lookup_app_r in H2, H4 by lia. rewrite Hlen in H2, H4.
    exact (Hg _ _ _ _ _ _ H1 H2 H3 H4 Hp Hne).
Qed.

Lemma run_tiers_spec s env tiers : monotone env -> Forall uniform tiers -> StronglySorted tier_lt tiers ->
  forall k gate tr, exists rs,
    run_tiers s env k gate tr tiers = mkCampaign (ct_session tr) (ct_metadata tr) (ct_scenarios tr ++ rs) /\
    Forall2 (reports s env) (concat tiers) rs /\ gated (concat tiers) rs /\
    (gate = false \/ c_tier env k = true -> Forall (fun r => StatusVal r = StatusBlocked) rs).
Proof.
  intros Hm Hu Hs. induction Hs as [|t tiers _ IH Ht]; intros k gate tr.
  { exists []. cbn. rewrite app_nil_r. destruct tr. by repeat split; [constructor|..]. }
  apply Forall_cons in Hu as [Hut Hu]. specialize (IH Hu). cbn [run_tiers concat].
  assert (Hlt : forall a b, a ∈ t -> b ∈ concat tiers -> PriorityVal a < PriorityVal b).
  { intros a b Ha (x & Hx & Hb)%elem_of_concat. rewrite Forall_forall in Ht. by apply (Ht x Hx). }
  destruct (negb gate || c_tier env k) eqn:Eg.
  - set (bs := (fun sc => blockedResult sc (blockedReason (c_blocked env sc))) <$> t).
    assert (Hbs : Forall (fun r => StatusVal r = StatusBlocked) bs) by (apply Forall_fmap, Forall_forall; done).
    destruct (IH (S k) gate (fold_left AddScenarioResult bs tr)) as (rs & -> & H1 & H2 & H3). rewrite AddScenarioResult_all. cbn.
    assert (Hall : Forall (fun r => StatusVal r = StatusBlocked) rs).
    { apply H3. apply orb_true_iff in Eg as [Eg|Eg]; [left; by destruct gate|right; by apply Hm]. }
    exists (bs ++ rs). rewrite <- app_assoc. split; [done|]. split; [|split].
    + apply Forall2_app; [|done]. unfold bs. apply Forall2_fmap_r, Forall_Forall2_diag, Forall_forall. intros sc _. split; [done|by right].
    + apply gated_blocked, Forall_app. done.
    + intros _. apply Forall_app. done.
  - apply orb_false_iff in Eg as [Eg Ec]. apply negb_false_iff in Eg as ->.
    set (rt := runTier s (c_env env) t). set (ok := forallb _ rt).
    destruct (IH (S k) ok (fold_left AddScenarioResult rt tr)) as (rs & -> & H1 & H2 & H3). rewrite AddScenarioResult_all. cbn.
    exists (rt ++ rs). rewrite <- app_assoc. split; [done|]. split; [|split].
    + apply Forall2_app; [|done]. unfold rt, runTier. apply Forall2_fmap_r, Forall_Forall2_diag, Forall_forall.
      intros sc _. split; [apply runOne_report|by left].
    + apply gated_app; [done|done|by unfold rt, runTier; rewrite length_fmap|done|]. destruct ok eqn:Eok; [left|right; apply H3; by left].
      unfold ok in Eok. rewrite forallb_forall in Eok. apply Forall_forall. intros r Hr%list_elem_of_In. specialize (Eok r Hr).
      by apply bool_decide_eq_true in Eok.
    + intros [?|?]; congruence.
Qed.

End executor.

(** * Submitting *)

(** Every scenario of the queue is in the map under its ID, and no ID is there twice. *)
Definition scheduler_wf (s : CampaignScheduler) : Prop :=
  NoDup (IDStr <$> pendingQueue s) /\ forall id, is_Some (scenarios s !! id) <-> id ∈ IDStr <$> pendingQueue s.

Lemma NewCampaignScheduler_wf n : scheduler_wf (NewCampaignScheduler n).
Proof. split; [constructor|]. intros id. cbn. rewrite elem_of_nil, lookup_empty. by split; [intros []|]. Qed.

Lemma Submit_wf s sc : scheduler_wf s -> scheduler_wf (fst (Submit s sc)).
Proof.
  intros [H1 H2]. destruct sc as [sc|]; [|done]. unfold Submit. destruct (scenarios s !! IDStr sc) eqn:E; [done|].
  unfold scheduler_wf. cbn [fst pendingQueue scenarios]. rewrite fmap_app. split.
  - apply NoDup_app. split; [done|]. split; [|apply NoDup_singleton]. intros id Hid ->%list_elem_of_singleton.
    apply H2 in Hid as [x Hx]. congruence.
  - intros id. rewrite elem_of_app, <- H2, lookup_insert. cbn. rewrite list_elem_of_singleton.
    case_decide; subst; [split; [by right|by eexists]|]. split; [by left|]. intros [?|?]; congruence.
Qed.

(** The order of the campaign does not depend on the order of submission, nor on how
    the sort breaks ties. *)
Lemma resolve_unique s l : scheduler_wf s -> l ≡ₚ pendingQueue s -> StronglySorted before l -> l = resolveDependencies s.
Proof.
  intros [Hnd _] Hp Hl. assert (Hs : resolveDependencies s ≡ₚ pendingQueue s) by apply merge_sort_Permutation.
  apply (StronglySorted_unique_strong before); [|done|apply (StronglySorted_merge_sort before)|by rewrite Hs].
  intros a b Ha Hb Hab Hba. assert (He : IDStr a = IDStr b).
  { destruct Hab as [?|[? ?]], Hba as [?|[? ?]]; try lia. by apply (anti_symm String.le). }
  rewrite Hp in Ha. rewrite Hs in Hb. apply list_elem_of_lookup in Ha as [i Hi], Hb as [j Hj].
  assert (i = j); [|congruence]. eapply (NoDup_lookup (IDStr <$> pendingQueue s)); [done|rewrite list_lookup_fmap, Hi; done|].
  rewrite list_lookup_fmap, Hj. cbn. by rewrite He.
Qed.

(** * Properties *)

(** C30: a campaign reports every submitted scenario exactly once, in the order of
    priority and ID, with the result of its own run or as blocked.  The gate holds: when
    a scenario did not pass, for whatever reason, every scenario of a later tier is
    blocked and does not run.  The campaign has passed exactly when all scenarios have. *)
Theorem campaign_reports {E} `{!ScenarioExecutor E} s env uuid now meta :
  scheduler_wf s -> hasExecutor s = true -> monotone env ->
  exists r, Execute s env uuid now meta = inl r /\
    resolveDependencies s ≡ₚ pendingQueue s /\ StronglySorted before (resolveDependencies s) /\
    Forall2 (reports s env) (resolveDependencies s) (Details r) /\ gated (resolveDependencies s) (Details r) /\
    (Passed r = true <-> Forall (fun x => StatusVal x = StatusPass) (Details r)) /\
    TotalScenarios (Summary r) = zlen (pendingQueue s) /\
    zlen (pendingQueue s) = PassedCount (Summary r) + FailedCount (Summary r) + BlockedCount (Summary r).
Proof.
  intros Hwf He Hm. unfold Execute. rewrite He. eexists. split; [reflexivity|].
  assert (Hp : resolveDependencies s ≡ₚ pendingQueue s) by apply merge_sort_Permutation.
  assert (Hs : StronglySorted before (resolveDependencies s)) by apply (StronglySorted_merge_sort before).
  split; [done|]. split; [done|]. destruct (groupByPriority_tiers _ Hs) as [Hu Hlt].
  destruct (run_tiers_spec s env _ Hm Hu Hlt 0 true (campaign_transition (NewCampaignTracker uuid now meta) StateCampaignRunning))
    as (rs & -> & H1 & H2 & _).
  rewrite concat_groupByPriority in H1, H2. rewrite CompileResult_eq. cbn [campaign_transition NewCampaignTracker ct_scenarios app
    Details Passed Summary TotalScenarios PassedCount FailedCount BlockedCount].
  assert (Hst : Forall (fun r => StatusVal r ∈ [StatusPass; StatusFail; StatusBlocked]) rs).
  { clear -H1. induction H1 as [|sc r scs rs [_ [-> | ->]] _ IH]; constructor; try done; [apply runOne_report|]. right. right. left. }
  assert (Hlen : zlen (pendingQueue s) = zlen rs).
  { unfold zlen. rewrite <- Hp. by rewrite (Forall2_length _ _ _ H1). }
  destruct (counts_add_up rs) as [C1 C2].
  { eapply Forall_impl; [exact Hst|]. intros r Hr. by destruct (status_cases _ Hr) as [-> | [-> | ->]]. }
  assert (C3 : count StatusInconclusive rs = 0).
  { clear -Hst. induction Hst as [|r l Hr _ IH]; [done|]. rewrite count_cons, IH. case_decide as Hd; [|done].
    rewrite Hd in Hr. by destruct (status_cases _ Hr) as [? | [? | ?]]. }
  repeat (split; [done|]). split; [|split; lia]. rewrite forallb_forall, Forall_forall. setoid_rewrite <- list_elem_of_In.
  rewrite Forall_forall in Hst. split; intros HF x Hx; specialize (HF x Hx); destruct (status_cases _ (Hst x Hx)) as [E1 | [E1 | E1]];
    unfold harmless in *; rewrite E1 in *; done.
Qed.

(** An executor whose runs pass or fail by the ID. *)
#[local] Program Instance toy_executor : ScenarioExecutor (string -> bool) := {|
  Run e sc t := (mkResult (IDStr sc) (if e (IDStr sc) then StatusPass else StatusFail) 0 [] None "" "" "", e (IDStr sc))
|}.
Next Obligation. done. Qed.
Next Obligation. done. Qed.

Definition toy_scenario (id : string) (prio : Z) : ScenarioDefinition := mkScenario id "" "" prio [] [] [] [] "" [].

Definition toy_env : campaign_env :=
  mkCampaignEnv (fun _ => mkEnv (fun _ id => negb (String.eqb id "b")) (fun _ => ("t"%string, 0)) (fun _ => false)) (fun _ => false) (fun _ => false).

Definition toy_scheduler : CampaignScheduler :=
  fst (Submit (fst (Submit (fst (Submit (SetExecutorFactory (NewCampaignScheduler 2) true) (Some (toy_scenario "c" 2))))
    (Some (toy_scenario "b" 1)))) (Some (toy_scenario "a" 1))).

Lemma toy_wf : scheduler_wf toy_scheduler.
Proof. do 3 apply Submit_wf. apply (NewCampaignScheduler_wf 2). Qed.

Lemma campaign_reports_witness : exists r, Execute toy_scheduler toy_env "u" 0 (mkMetadata "" "" "" 0) = inl r /\
  StatusVal <$> Details r = [StatusPass; StatusFail; StatusBlocked] /\ TotalScenarios (Summary r) = 3.
Proof.
  destruct (campaign_reports toy_scheduler toy_env "u" 0 (mkMetadata "" "" "" 0) toy_wf eq_refl ltac:(done)) as (r & Hr & _ & _ & _ & _ & _ & Ht & _).
  exists r. split; [exact Hr|]. split; [|exact Ht].
  assert (E : Execute toy_scheduler toy_env "u" 0 (mkMetadata "" "" "" 0) = Execute toy_scheduler toy_env "u" 0 (mkMetadata "" "" "" 0)) by reflexivity.
  rewrite Hr in E at 1. vm_compute in E. injection E as ->. reflexivity.
Defined.

(** the goroutines of a tier.  In every interleaving at most [workers] of them hold
    a token, at least one; the tier takes no more than four steps per scenario and never
    comes to a halt before it is over; and then the results are those of the scenarios,
    each at its own place. *)
Theorem tier_terminates {E} `{!ScenarioExecutor E} s env tier n t : nsteps (tier_step s env tier) n (tier_start tier) t ->
  (n <= 4 * length tier)%nat /\ Z.of_nat (sem t) <= workers s /\
  (tier_over tier t -> results t = runTier s env tier) /\
  (~ tier_over tier t -> exists t', tier_step s env tier t t').
Proof.
  intros Hn. destruct (tier_start_inv s env tier) as [H0 M0]. destruct (tier_steps_inv s env tier n _ _ Hn H0) as [Ht Hm].
  split; [lia|]. split; [apply Ht|]. split; [by apply tier_over_results|by apply tier_progress].
Qed.

Lemma tier_terminates_witness : exists t, nsteps (tier_step toy_scheduler (c_env toy_env) [toy_scenario "a" 1]) 4 (tier_start [toy_scenario "a" 1]) t /\
  results t = runTier toy_scheduler (c_env toy_env) [toy_scenario "a" 1].
Proof.
  eexists. assert (H : nsteps (tier_step toy_scheduler (c_env toy_env) [toy_scenario "a" 1]) 4 (tier_start [toy_scenario "a" 1])
    (mkTier 1 0 0 (delete 0%nat (<[0%nat := Released]> (<[0%nat := Written]> (<[0%nat := Spawned]> ∅))))
       (<[0%nat := runOne toy_scheduler (c_env toy_env (toy_scenario "a" 1)) (toy_scenario "a" 1)]> [noResult]))).
  { eapply nsteps_l; [apply t_spawn; [cbn; lia|reflexivity]|]. eapply nsteps_l; [by apply (t_run _ _ _ _ _ _ _ _ 0 (toy_scenario "a" 1))|].
    eapply nsteps_l; [by apply (t_release _ _ _ _ _ _ _ _ 0)|]. eapply nsteps_l; [by apply (t_done _ _ _ _ _ _ _ _ 0)|]. constructor. }
  split; [exact H|]. apply (tier_terminates _ _ _ _ _ H). by split.
Defined.

(** the attempts of a scenario.  A scenario runs until an attempt passes, the
    context is cancelled or maxRetries + 1 attempts are over, and the result tells which:
    the passing one with the number of retries, BLOCKED, or FAIL after the last. *)
Theorem runOne_attempts {E} `{!ScenarioExecutor E} s env sc : outcome env sc 0 (Z.to_nat (attempts s)) (runOne s env sc) /\
  ScenarioID (runOne s env sc) = IDStr sc /\
  (0 <= maxRetries s < 2 ^ 63 - 1 -> attempts s = maxRetries s + 1).
Proof.
  split; [apply runOne_outcome|]. split; [apply runOne_report|]. intros Hm. unfold attempts. cbv zeta.
  rewrite int64_id by lia. destruct (Z.ltb_spec (maxRetries s + 1) 1); lia.
Qed.

(** Starting again after a stop and stopping again closes the channel twice: a panic. *)
Theorem second_stop_panics : exists s1 s2, Stop (Start (NewCampaignScheduler 1)) = Some s1 /\ s2 = Start s1 /\ Stop s2 = None.
Proof. by do 2 eexists. Qed.

End AtfScheduler.
