(* ===== verification/AtfCrash.v ===== *)
(** Crash points of the acceptance framework and the decision to crash
    (internal/db/acceptance/framework/crash).

    The text of messages and reasons is kept as the values it is made of.  The random
    numbers of math/rand are a parameter: the i-th Float64 of a generator with a given
    seed.  Events are collected in the order in which they are published; metrics and the
    log are left out, as are the clock readings in the events. *)

From Stdlib Require Import ZArith QArith Lia.
From stdpp Require Import sorting.
From S2P Require Import Prelude AtfSession.

Open Scope Z_scope.

Module AtfCrash.
Import AtfSession.

(** * errors.go *)

Inductive ErrorCode :=
  | ErrInvalidConfig | ErrUnknownPoint | ErrDuplicatePoint | ErrDependency
  | ErrPolicyRejected | ErrPolicyUnsupported | ErrHookRejected | ErrHookExecute.

#[export] Instance ErrorCode_eq_dec : EqDecision ErrorCode.
Proof. solve_decision. Defined.

(** The message with the values it mentions; the wrapped error is not looked at. *)
Record Error := mkError { Code : ErrorCode; Message : string; Mentions : list string }.

(** * point.go *)

(** Categories, phases and severities are Go strings. *)
Definition CategoryFlush : string := "flush".
Definition CategoryCompact : string := "compact".
Definition PhaseFlushSST : string := "flush_sst".
Definition PhaseFlushManifest : string := "flush_manifest".
Definition PhaseFlushWALState : string := "flush_wal_state".
Definition PhaseFlushWALTruncate : string := "flush_wal_truncate".
Definition PhaseCompactMerge : string := "compact_merge".
Definition PhaseCompactManifest : string := "compact_manifest".
Definition PhaseCompactMemory : string := "compact_memory".
Definition PhaseCompactDelete : string := "compact_delete".
Definition SeverityCritical : string := "critical".
Definition SeverityHigh : string := "high".
Definition SeverityMedium : string := "medium".

Record CrashPoint := mkPoint {
  ID : string; Name : string; Description : string; Category : string; Phase : string; Severity : string;
  EngineHook : string; Enabled : bool; Experimental : bool; SupportsRecovery : bool;
  RequiresFlush : bool; RequiresManifest : bool; RequiresWAL : bool;
  Dependencies : list string; PointMetadata : list (string * string)
}.

Definition point_Validate (p : CrashPoint) : option Error :=
  if decide (ID p = ""%string) then Some (mkError ErrInvalidConfig "crash point ID is required" [])
  else if decide (Name p = ""%string) then Some (mkError ErrInvalidConfig "crash point name is required" [])
  else if decide (EngineHook p = ""%string) then Some (mkError ErrInvalidConfig "crash point EngineHook is required" [])
  else if decide (Category p = ""%string) then Some (mkError ErrInvalidConfig "crash point category is required" [])
  else if decide (Phase p = ""%string) then Some (mkError ErrInvalidConfig "crash point phase is required" [])
  else None.

Record Capability := mkCapability {
  c_ID : string; c_EngineHook : string; c_Category : string; c_Phase : string; c_Enabled : bool; c_Experimental : bool;
  c_SupportsRecovery : bool; c_RequiresFlush : bool; c_RequiresManifest : bool; c_RequiresWAL : bool
}.

Definition CapabilityOf (p : CrashPoint) : Capability :=
  mkCapability (ID p) (EngineHook p) (Category p) (Phase p) (Enabled p) (Experimental p) (SupportsRecovery p)
    (RequiresFlush p) (RequiresManifest p) (RequiresWAL p).

(** * policy.go *)

(** A float64. *)
Inductive float := Finite (q : Q) | Infinite (negative : bool) | NaN.

Definition float_ltb (a b : float) : bool :=
  match a, b with
  | NaN, _ | _, NaN => false
  | Finite p, Finite q => match Qcompare p q with Lt => true | _ => false end
  | Infinite true, Infinite true => false
  | Infinite true, _ => true
  | _, Infinite false => match a with Infinite false => false | _ => true end
  | _, _ => false
  end.

Inductive PolicyKind :=
  | PolicyAlways | PolicyNever | PolicyProbability | PolicyNthInvocation | PolicyRandomSeed
  | PolicyTimeBased | PolicyScenarioControlled | PolicyOther (s : string).

#[export] Instance PolicyKind_eq_dec : EqDecision PolicyKind.
Proof. solve_decision. Defined.

Record Policy := mkPolicy { Kind : PolicyKind; Probability : float; N : Z; Seed : Z }.

Definition policy_Validate (p : Policy) : option Error :=
  match Kind p with
  | PolicyAlways | PolicyNever | PolicyScenarioControlled => None
  | PolicyProbability =>
      if float_ltb (Probability p) (Finite 0) || float_ltb (Finite 1) (Probability p) ||
         match Probability p with NaN => true | _ => false end
      then Some (mkError ErrInvalidConfig "probability must be in [0,1]" []) else None
  | PolicyNthInvocation =>
      if N p <? 1 then Some (mkError ErrInvalidConfig "nth_invocation requires N >= 1" []) else None
  | PolicyRandomSeed => None
  | PolicyTimeBased => Some (mkError ErrPolicyUnsupported "time_based policy is not supported in this milestone" [])
  | PolicyOther s =>
      if decide (s = ""%string) then Some (mkError ErrInvalidConfig "policy kind is required" [])
      else Some (mkError ErrInvalidConfig "unknown policy kind" [s])
  end.

(** A generator in [rngBySeed] is the number of values drawn from it. *)
Record policyEvaluator := mkEvaluator { invocations : gmap string Z; rngBySeed : gmap Z nat }.

Definition newPolicyEvaluator : policyEvaluator := mkEvaluator ∅ ∅.

Inductive reason :=
  | NoReason
  | ReasonAlways | ReasonNever
  | ReasonScenario (request : string) (match_ : bool)
  | ReasonNth (n count : Z) (crash : bool)
  | ReasonProbability (p : float) (seed : Z) (crash : bool)
  | ReasonRandomSeed (seed : Z) (crash : bool)
  | ReasonDryRun (r : reason)
  | ReasonError (e : Error)
  | ReasonText (s : string).

Record policyResult := mkPolicyResult { crash : bool; pr_reason : reason }.

Section random.
Context (Float64 : Z -> nat -> Q).

Definition roll (e : policyEvaluator) (seed : Z) (p : float) : policyEvaluator * bool :=
  let i := default 0%nat (rngBySeed e !! seed) in
  (mkEvaluator (invocations e) (<[seed := S i]> (rngBySeed e)), float_ltb (Finite (Float64 seed i)) p).

Definition evaluate (e : policyEvaluator) (pointID engineHook : string) (policy : Policy) (scenarioCrash : string)
  : policyEvaluator * (policyResult + Error) :=
  match policy_Validate policy with
  | Some err => (e, inr err)
  | None =>
      match Kind policy with
      | PolicyAlways => (e, inl (mkPolicyResult true ReasonAlways))
      | PolicyNever => (e, inl (mkPolicyResult false ReasonNever))
      | PolicyScenarioControlled =>
          let ok := bool_decide (scenarioCrash <> ""%string) &&
                    (bool_decide (scenarioCrash = pointID) || bool_decide (scenarioCrash = engineHook)) in
          (e, inl (mkPolicyResult ok (ReasonScenario scenarioCrash ok)))
      | PolicyNthInvocation =>
          let n := default 0 (invocations e !! pointID) + 1 in
          let ok := Z.rem n (N policy) =? 0 in
          (mkEvaluator (<[pointID := n]> (invocations e)) (rngBySeed e), inl (mkPolicyResult ok (ReasonNth (N policy) n ok)))
      | PolicyProbability =>
          let '(e', ok) := roll e (Seed policy) (Probability policy) in
          (e', inl (mkPolicyResult ok (ReasonProbability (Probability policy) (Seed policy) ok)))
      | PolicyRandomSeed =>
          let '(e', ok) := roll e (Seed policy) (Finite (1 # 2)) in
          (e', inl (mkPolicyResult ok (ReasonRandomSeed (Seed policy) ok)))
      | PolicyTimeBased => (e, inr (mkError ErrPolicyUnsupported "time_based policy is not supported" []))
      | PolicyOther s => (e, inr (mkError ErrInvalidConfig "unknown policy" [s]))
      end
  end.

Definition InvocationCount (e : policyEvaluator) (pointID : string) : Z := default 0 (invocations e !! pointID).

(** * context.go and hook.go *)

Record CrashContext := mkContext {
  executionID : string; scenarioID : string; databasePath : string; executionState : State;
  crashPoint : option CrashPoint; randomSeed : Z; environment : list (string * string);
  isChild : bool; workingDir : string; scenarioCrashID : string
}.

(** The two implementations of the interface. *)
Inductive CrashHook :=
  | EngineBridgeHook (pointID engineHook : string) (requiresFlush requiresManifest requiresWAL : bool)
  | NoopHook (HookID : string).

Definition NewEngineBridgeHook (p : CrashPoint) : CrashHook :=
  EngineBridgeHook (ID p) (EngineHook p) (RequiresFlush p) (RequiresManifest p) (RequiresWAL p).

Definition hook_ID (h : CrashHook) : string :=
  match h with
  | EngineBridgeHook pointID _ _ _ _ => pointID
  | NoopHook i => if decide (i = ""%string) then "noop" else i
  end.

Definition env_get (k : string) (env : list (string * string)) : option string :=
  (list_to_map env : gmap string string) !! k.

Definition Supports (h : CrashHook) (ctx : CrashContext) : bool :=
  match h with
  | EngineBridgeHook _ engineHook requiresFlush _ _ =>
      if decide (engineHook = ""%string) then false
      else negb (requiresFlush && bool_decide (env_get "PEBBLEDB_FORCE_FLUSH" (environment ctx) = Some "0"%string))
  | NoopHook _ => true
  end.

Definition hook_Execute (h : CrashHook) (ctx : CrashContext) : option Error :=
  match h with
  | EngineBridgeHook pointID _ _ _ _ =>
      if Supports h ctx then None else Some (mkError ErrHookRejected "hook unsupported in context" [pointID])
  | NoopHook _ => None
  end.

(** * registry.go *)

Record entry := mkEntry { point : CrashPoint; hook : CrashHook }.

Record Registry := mkRegistry { byID : gmap string entry; byHook : gmap string string; order : list string }.

Definition NewRegistry : Registry := mkRegistry ∅ ∅ [].

Definition Register (r : Registry) (p : CrashPoint) (h : option CrashHook) : Registry * option Error :=
  match point_Validate p with
  | Some e => (r, Some e)
  | None =>
      match h with
      | None => (r, Some (mkError ErrInvalidConfig "hook must not be nil" []))
      | Some h =>
          if decide (hook_ID h = ID p) then
            match byID r !! ID p with
            | Some _ => (r, Some (mkError ErrDuplicatePoint "crash point already registered" [ID p]))
            | None =>
                match byHook r !! EngineHook p with
                | Some other => (r, Some (mkError ErrDuplicatePoint "engine hook already registered" [EngineHook p; other]))
                | None => (mkRegistry (<[ID p := mkEntry p h]> (byID r)) (<[EngineHook p := ID p]> (byHook r)) (order r ++ [ID p]), None)
                end
            end
          else (r, Some (mkError ErrInvalidConfig "hook ID must match point ID" [hook_ID h; ID p]))
      end
  end.

Definition Lookup (r : Registry) (id : string) : option CrashPoint := point <$> byID r !! id.

(** The ID of a hook is always registered. *)
Definition LookupByEngineHook (r : Registry) (h : string) : option CrashPoint :=
  match byHook r !! h with None => None | Some id => point <$> byID r !! id end.

Definition Resolve (r : Registry) (idOrHook : string) : entry + Error :=
  match byID r !! idOrHook with
  | Some e => inl e
  | None =>
      match byHook r !! idOrHook ≫= (fun id => byID r !! id) with
      | Some e => inl e
      | None => inr (mkError ErrUnknownPoint "unknown crash point" [idOrHook])
      end
  end.

Definition List_ (r : Registry) : list CrashPoint := omap (fun id => point <$> byID r !! id) (order r).

Definition by_id (a b : CrashPoint) : Prop := String.le (ID a) (ID b).

#[export] Instance by_id_dec : RelDecision by_id.
Proof. intros a b. unfold by_id. apply _. Defined.

Definition LookupByPhase (r : Registry) (phase : string) : list CrashPoint :=
  merge_sort by_id (filter (fun p => Phase p = phase) (List_ r)).

Definition LookupByCategory (r : Registry) (cat : string) : list CrashPoint :=
  merge_sort by_id (filter (fun p => Category p = cat) (List_ r)).

Definition missing_dependency (r : Registry) (p : CrashPoint) : option string :=
  find (fun dep => bool_decide (byID r !! dep = None)) (Dependencies p).

Fixpoint validate_points (r : Registry) (ps : list CrashPoint) : option Error :=
  match ps with
  | [] => None
  | p :: rest =>
      match missing_dependency r p with
      | Some dep => Some (mkError ErrDependency "point depends on missing" [ID p; dep])
      | None => validate_points r rest
      end
  end.

Definition ValidateDependencies (r : Registry) : option Error := validate_points r (List_ r).

Definition Capabilities (r : Registry) : list Capability := CapabilityOf <$> List_ r.

Definition Len (r : Registry) : Z := zlen (order r).

Definition Hook (r : Registry) (id : string) : option CrashHook := hook <$> byID r !! id.

(** * config.go *)

Record Config := mkConfig {
  CrashPointID : string; cfg_Policy : Policy; RandomSeed : Z; cfg_Enabled : bool; DryRun : bool; ValidationOnly : bool
}.

Definition policy_of (k : PolicyKind) : Policy := mkPolicy k (Finite 0) 0 0.

Definition DefaultConfig : Config := mkConfig "" (policy_of PolicyScenarioControlled) 0 true false false.

Definition effectivePolicy (c : Config) : Policy :=
  let p := cfg_Policy c in
  if RandomSeed c =? 0 then p else mkPolicy (Kind p) (Probability p) (N p) (RandomSeed c).

Definition config_Validate (c : Config) : option Error :=
  if ValidationOnly c && DryRun c then Some (mkError ErrInvalidConfig "ValidationOnly and DryRun are mutually exclusive" [])
  else if negb (cfg_Enabled c) && negb (ValidationOnly c) then None
  else
    match policy_Validate (effectivePolicy c) with
    | Some err => Some err
    | None =>
        if bool_decide (CrashPointID c = ""%string) && cfg_Enabled c &&
           bool_decide (Kind (cfg_Policy c) <> PolicyNever) && bool_decide (Kind (cfg_Policy c) <> PolicyScenarioControlled)
        then Some (mkError ErrInvalidConfig "CrashPointID is required for policy" [])
        else None
    end.

(** * builtins.go *)

Definition EngineFlushAfterSSTClose : string := "flush_after_sst_close".
Definition EngineFlushAfterManifest : string := "flush_after_manifest".
Definition EngineFlushAfterWalState : string := "flush_after_wal_state".
Definition EngineFlushAfterWalTruncate : string := "flush_after_wal_truncate".
Definition EngineCompactAfterMergeClose : string := "compact_after_merge_close".
Definition EngineCompactAfterManifest : string := "compact_after_manifest".
Definition EngineCompactAfterSSTables : string := "compact_after_sstables_update".
Definition EngineCompactAfterDeleteOld : string := "compact_after_delete_old".

Definition flush_point (id name desc phase sev engine : string) (meta : list (string * string)) : CrashPoint :=
  mkPoint id name desc CategoryFlush phase sev engine true false true true true true [] meta.

Definition compact_point (id name desc phase sev engine : string) (meta : list (string * string)) : CrashPoint :=
  mkPoint id name desc CategoryCompact phase sev engine true false true false true false [] meta.

Definition BuiltinPoints : list CrashPoint := [
  flush_point "flush.after_sst_close" "Flush after SST close"
    "Crash after flush SST is closed, before/around manifest commit window."
    PhaseFlushSST SeverityHigh EngineFlushAfterSSTClose [("engine_const", "CrashAfterSSTClose")];
  flush_point "flush.after_manifest" "Flush after manifest" "Crash after manifest AppendNewFile during flush."
    PhaseFlushManifest SeverityCritical EngineFlushAfterManifest
    [("engine_const", "CrashAfterManifestNewFile"); ("atf_wired", "true")];
  flush_point "flush.after_wal_state" "Flush after WAL state" "Crash after WAL flush-state durability during flush."
    PhaseFlushWALState SeverityCritical EngineFlushAfterWalState
    [("engine_const", "CrashAfterWalFlushState"); ("atf_wired", "true")];
  flush_point "flush.after_wal_truncate" "Flush after WAL truncate" "Crash after WAL truncate during flush."
    PhaseFlushWALTruncate SeverityHigh EngineFlushAfterWalTruncate [("engine_const", "CrashAfterWalTruncate")];
  compact_point "compact.after_merge_close" "Compact after merge close" "Crash after compaction merge output SST is closed."
    PhaseCompactMerge SeverityHigh EngineCompactAfterMergeClose [("engine_const", "CrashAfterMergeClose")];
  compact_point "compact.after_manifest" "Compact after manifest" "Crash after compaction manifest SetFileSet."
    PhaseCompactManifest SeverityCritical EngineCompactAfterManifest [("engine_const", "CrashAfterManifestSetFileSet")];
  compact_point "compact.after_sstables_update" "Compact after sstables update"
    "Crash after in-memory SST set update during compaction."
    PhaseCompactMemory SeverityHigh EngineCompactAfterSSTables [("engine_const", "CrashAfterSSTablesUpdate")];
  compact_point "compact.after_delete_old" "Compact after delete old SSTs" "Crash after deleting old SSTs during compaction."
    PhaseCompactDelete SeverityMedium EngineCompactAfterDeleteOld [("engine_const", "CrashAfterDeleteOldSSTs")]
]%string.

(** The loop of [RegisterBuiltins]. *)
Fixpoint register_points (r : Registry) (ps : list CrashPoint) : Registry + Error :=
  match ps with
  | [] => inl r
  | p :: rest =>
      match Register r p (Some (NewEngineBridgeHook p)) with
      | (_, Some e) => inr e
      | (r', None) => register_points r' rest
      end
  end.

Definition RegisterBuiltins (r : Registry) : Registry + Error :=
  match register_points r BuiltinPoints with
  | inr e => inr e
  | inl r' => match ValidateDependencies r' with Some e => inr e | None => inl r' end
  end.

Definition NewBuiltinRegistry : Registry + Error := RegisterBuiltins NewRegistry.

(** The constants of internal/db/crashpoint.go, where the engine exits. *)
Definition engine_crash_points : list string :=
  ["flush_after_sst_close"; "flush_after_manifest"; "flush_after_wal_state"; "flush_after_wal_truncate";
   "compact_after_merge_close"; "compact_after_manifest"; "compact_after_sstables_update"; "compact_after_delete_old"]%string.

(** * events.go and manager.go *)

Record Decision := mkDecision {
  ShouldCrash_ : bool; d_CrashPointID : string; d_EngineHook : string; Reason : reason; d_Policy : PolicyKind;
  d_DryRun : bool; Skipped : bool; HookExecuted : bool
}.

Definition noDecision : Decision := mkDecision false "" "" NoReason (PolicyOther "") false false false.

(** The events of a manager, with the decision, point or reason they report. *)
Inductive event :=
  | EventCrashPointRegistered (point : string)
  | EventCrashEvaluationStarted (point : string)
  | EventCrashEvaluationFinished (d : Decision)
  | EventCrashSkipped (point : string) (r : reason)
  | EventCrashPolicyRejected (point : string) (r : reason)
  | EventCrashHookExecuted (point : string)
  | EventCrashTriggered (point engineHook : string).

Definition EnvKeyCrashAt : string := "PEBBLEDB_CRASH_AT".

Record Manager := mkManager { registry : Registry; config : Config; evaluator : policyEvaluator }.

Definition NewManager (r : Registry) : Manager := mkManager r DefaultConfig newPolicyEvaluator.

(** The registry is never nil. *)
Definition Configure (m : Manager) (cfg : Config) : Manager * option Error :=
  match config_Validate cfg with
  | Some e => (m, Some e)
  | None =>
      let bad := if cfg_Enabled cfg && bool_decide (CrashPointID cfg <> ""%string)
                 then match Resolve (registry m) (CrashPointID cfg) with inr e => Some e | inl _ => None end
                 else None in
      match bad with
      | Some e => (m, Some e)
      | None => (mkManager (registry m) cfg (evaluator m), None)
      end
  end.

Definition RegisterPoint (m : Manager) (p : CrashPoint) (h : option CrashHook) : Manager * list event * option Error :=
  match Register (registry m) p h with
  | (_, Some e) => (m, [], Some e)
  | (r', None) => (mkManager r' (config m) (evaluator m), [EventCrashPointRegistered (ID p)], None)
  end.

(** The part of [ShouldCrash] behind the resolution of the point: policy, hook, dry run. *)
Definition decide_point (m : Manager) (cctx : CrashContext) (e : entry)
  : Manager * list event * (Decision * option Error) :=
  let cfg := config m in
  let p := point e in
  let policy := effectivePolicy cfg in
  let evalCtx := mkContext (executionID cctx) (scenarioID cctx) (databasePath cctx) (executionState cctx) (Some p)
    (Seed policy) (environment cctx) (isChild cctx) (workingDir cctx) (scenarioCrashID cctx) in
  let '(ev, pr) := evaluate (evaluator m) (ID p) (EngineHook p) policy (scenarioCrashID cctx) in
  let m' := mkManager (registry m) cfg ev in
  match pr with
  | inr err =>
      (m', if decide (Code err = ErrPolicyUnsupported) then [EventCrashPolicyRejected (ID p) (ReasonError err)] else [],
       (mkDecision false (ID p) (EngineHook p) (ReasonError err) (Kind policy) false false false, Some err))
  | inl pr =>
      if negb (crash pr) then
        (m', [EventCrashPolicyRejected (ID p) (pr_reason pr); EventCrashSkipped (ID p) (pr_reason pr)],
         (mkDecision false (ID p) (EngineHook p) (pr_reason pr) (Kind policy) (DryRun cfg) true false, None))
      else if negb (Supports (hook e) evalCtx) then
        (m', [EventCrashSkipped (ID p) (ReasonText "hook does not support context")],
         (mkDecision false (ID p) (EngineHook p) (ReasonText "hook does not support context") (Kind policy) false true false, None))
      else
        match hook_Execute (hook e) evalCtx with
        | Some err =>
            (m', [], (mkDecision false (ID p) (EngineHook p) (ReasonError err) (Kind policy) false false false,
               Some (mkError ErrHookExecute "hook execute failed" [])))
        | None =>
            if DryRun cfg then
              (m', [EventCrashHookExecuted (ID p); EventCrashSkipped (ID p) (ReasonDryRun (pr_reason pr))],
               (mkDecision false (ID p) (EngineHook p) (ReasonDryRun (pr_reason pr)) (Kind policy) true true true, None))
            else
              (m', [EventCrashHookExecuted (ID p); EventCrashTriggered (ID p) (EngineHook p)],
               (mkDecision true (ID p) (EngineHook p) (pr_reason pr) (Kind policy) false false true, None))
        end
  end.

(** Behind the validation of the configuration, up to [finish]. *)
Definition decide_crash (m : Manager) (cctx : CrashContext) : Manager * list event * (Decision * option Error) :=
  let cfg := config m in
  let k := Kind (cfg_Policy cfg) in
  if ValidationOnly cfg then
    match (if decide (CrashPointID cfg = ""%string) then None
           else match Resolve (registry m) (CrashPointID cfg) with inr e => Some e | inl _ => None end) with
    | Some e => (m, [], (mkDecision false "" "" (ReasonError e) k false false false, Some e))
    | None => (m, [], (mkDecision false (CrashPointID cfg) "" (ReasonText "validation_only") k false true false, None))
    end
  else if negb (cfg_Enabled cfg) then
    (m, [EventCrashSkipped (CrashPointID cfg) (ReasonText "manager disabled")],
     (mkDecision false "" "" (ReasonText "manager disabled") k false true false, None))
  else
    let pointID := if decide (CrashPointID cfg = ""%string) then scenarioCrashID cctx else CrashPointID cfg in
    if decide (pointID = ""%string) then
      (m, [EventCrashSkipped "" (ReasonText "no crash point requested")],
       (mkDecision false "" "" (ReasonText "no crash point requested") k false true false, None))
    else
      match Resolve (registry m) pointID with
      | inr e => (m, [], (mkDecision false pointID "" (ReasonError e) k false false false, Some e))
      | inl e =>
          if Enabled (point e) then decide_point m cctx e
          else (m, [EventCrashSkipped (ID (point e)) (ReasonText "crash point disabled")],
                (mkDecision false (ID (point e)) (EngineHook (point e)) (ReasonText "crash point disabled") k false true false, None))
      end.

Definition ShouldCrash (m : Manager) (cctx : option CrashContext) : Manager * list event * (Decision * option Error) :=
  match cctx with
  | None => (m, [], (noDecision, Some (mkError ErrInvalidConfig "nil crash context" [])))
  | Some cctx =>
      match config_Validate (config m) with
      | Some e => (m, [], (noDecision, Some e))
      | None =>
          let '(m', es, (d, err)) := decide_crash m cctx in
          (m', [EventCrashEvaluationStarted (CrashPointID (config m))] ++ es ++ [EventCrashEvaluationFinished d], (d, err))
      end
  end.

Definition ChildEnv (d : Decision) : list (string * string) :=
  if ShouldCrash_ d && bool_decide (d_EngineHook d <> ""%string) then [(EnvKeyCrashAt, d_EngineHook d)]
  else [(EnvKeyCrashAt, ""%string)].

Definition PrepareForScenario (m : Manager) (crashPoint : string) : Manager * option Error :=
  if decide (crashPoint = ""%string) then Configure m (mkConfig "" (policy_of PolicyNever) 0 false false false)
  else Configure m (mkConfig crashPoint (policy_of PolicyAlways) 0 true false false).

(** The execution session gives the identifier, the directory and the state. *)
Definition EvaluateForScenario (m : Manager) (sessID tempDir : string) (st : State) (scenarioID scenarioCrash : string)
    (baseEnv : list (string * string)) : Manager * list event * (Decision * option Error) :=
  match PrepareForScenario m scenarioCrash with
  | (m', Some e) => (m', [], (noDecision, Some e))
  | (m', None) =>
      ShouldCrash m' (Some (mkContext sessID scenarioID tempDir st None (RandomSeed (config m')) baseEnv false tempDir scenarioCrash))
  end.

(** * The registry *)

Record registry_wf (r : Registry) : Prop := {
  rw_nodup : NoDup (order r);
  rw_order : forall id, id ∈ order r <-> is_Some (byID r !! id);
  rw_entry : forall id e, byID r !! id = Some e ->
    ID (point e) = id /\ hook_ID (hook e) = id /\ point_Validate (point e) = None /\ byHook r !! EngineHook (point e) = Some id;
  rw_hook : forall h id, byHook r !! h = Some id -> exists e, byID r !! id = Some e /\ EngineHook (point e) = h
}.

Lemma NewRegistry_fits : registry_wf NewRegistry.
Proof.
  split; cbn; [constructor| |done|done]. intros id. rewrite elem_of_nil, lookup_empty. by split; [|intros []].
Qed.

Lemma Register_ok r p h r' : Register r p h = (r', None) -> exists h', h = Some h' /\ point_Validate p = None /\ hook_ID h' = ID p /\
  byID r !! ID p = None /\ byHook r !! EngineHook p = None /\
  r' = mkRegistry (<[ID p := mkEntry p h']> (byID r)) (<[EngineHook p := ID p]> (byHook r)) (order r ++ [ID p]).
Proof.
  unfold Register. destruct (point_Validate p); [done|]. destruct h as [h'|]; [|done]. case_decide; [|done].
  destruct (byID r !! ID p) eqn:E1; [done|]. destruct (byHook r !! EngineHook p) eqn:E2; [done|]. intros [= <-]. by exists h'.
Qed.

Lemma Register_fits r p h : registry_wf r -> registry_wf (Register r p h).1.
Proof.
  intros Hr. destruct (Register r p h) as [r' [err|]] eqn:E.
  { enough (r' = r) as -> by done. unfold Register in E.
    repeat (case_match || case_decide); congruence. }
  destruct (Register_ok _ _ _ _ E) as (h' & -> & Hv & Hh & H1 & H2 & ->). destruct Hr as [W1 W2 W3 W4]. cbn [fst].
  split; cbn [order byID byHook].
  - apply NoDup_app. split; [done|]. split; [|apply NoDup_singleton].
    intros id Hid ->%list_elem_of_singleton. apply W2 in Hid as [e He]. congruence.
  - intros id. rewrite elem_of_app, list_elem_of_singleton, W2, lookup_insert. case_decide; subst.
    + split; [by eexists|by right].
    + split; [intros [?|?]; [done|congruence]|by left].
  - intros id e. rewrite lookup_insert. case_decide as Hd.
    + intros [= <-]. subst id. cbn. by rewrite lookup_insert_eq.
    + intros He. destruct (W3 id e He) as (A1 & A2 & A3 & A4). repeat (split; [done|]). rewrite lookup_insert_ne; [done|congruence].
  - intros h id. rewrite lookup_insert. case_decide as Hd.
    + intros [= <-]. subst h. exists (mkEntry p h'). by rewrite lookup_insert_eq.
    + intros Hi. destruct (W4 h id Hi) as (e & He & Heh). exists e. split; [|done]. rewrite lookup_insert_ne; [done|congruence].
Qed.

(** An entry is found by its ID, and by its engine hook unless that is the ID of another. *)
Lemma Resolve_spec r x e : registry_wf r -> Resolve r x = inl e <->
  byID r !! x = Some e \/ byID r !! x = None /\ byID r !! ID (point e) = Some e /\ EngineHook (point e) = x.
Proof.
  intros [W1 W2 W3 W4]. unfold Resolve. destruct (byID r !! x) as [e'|] eqn:E1.
  { split; [intros [= <-]; by left|]. intros [[= <-]|[? _]]; done. }
  destruct (byHook r !! x) as [id|] eqn:E2; cbn.
  - destruct (W4 x id E2) as (e' & He' & Hx). rewrite He'. destruct (W3 id e' He') as (A1 & _). split.
    + intros [= <-]. right. by rewrite A1.
    + intros [?|(_ & He & Heh)]; [done|]. destruct (W3 _ _ He) as (_ & _ & _ & Hh). rewrite Heh, E2 in Hh. injection Hh as Hid.
      rewrite <- Hid in He. congruence.
  - split; [done|]. intros [?|(_ & He & Heh)]; [done|]. destruct (W3 _ _ He) as (_ & _ & _ & Hh). congruence.
Qed.

Lemma Resolve_error r x err : Resolve r x = inr err -> err = mkError ErrUnknownPoint "unknown crash point" [x].
Proof. unfold Resolve. destruct (byID r !! x); [done|]. destruct (_ ≫= _); [done|]. by intros [= <-]. Qed.

Lemma Resolve_registered r x e : registry_wf r -> Resolve r x = inl e ->
  byID r !! ID (point e) = Some e /\ (x = ID (point e) \/ x = EngineHook (point e)) /\ EngineHook (point e) <> ""%string.
Proof.
  intros Hr He. assert (H : byID r !! ID (point e) = Some e /\ (x = ID (point e) \/ x = EngineHook (point e))).
  { apply Resolve_spec in He as [He|(_ & He & Hx)]; [|by split; [|right]|done]. destruct (rw_entry _ Hr _ _ He) as (Hi & _). rewrite Hi. tauto. }
  destruct H as [H Hx]. split; [done|]. split; [done|]. destruct (rw_entry _ Hr _ _ H) as (_ & _ & Hv & _).
  intros Hn. unfold point_Validate in Hv. repeat case_decide; congruence.
Qed.

(** * Decisions *)

Definition triggered (es : list event) : bool :=
  existsb (fun e => match e with EventCrashTriggered _ _ => true | _ => false end) es.

Lemma decide_point_spec m cctx e m' es d err : decide_point m cctx e = (m', es, (d, err)) ->
  registry m' = registry m /\ config m' = config m /\ triggered es = ShouldCrash_ d /\
  (ShouldCrash_ d = true -> err = None /\ DryRun (config m) = false /\ d_CrashPointID d = ID (point e) /\
     d_EngineHook d = EngineHook (point e) /\ HookExecuted d = true).
Proof.
  unfold decide_point. destruct (evaluate _ _ _ _ _) as [ev [pr|perr]]; intros E.
  2:{ injection E as <- <- <- <-. by case_decide. }
  destruct (crash pr); cbn [negb] in E; [|by injection E as <- <- <- <-].
  destruct (Supports _ _); cbn [negb] in E; [|by injection E as <- <- <- <-].
  destruct (hook_Execute _ _); [by injection E as <- <- <- <-|].
  destruct (DryRun (config m)) eqn:Ed; by injection E as <- <- <- <-.
Qed.

Lemma decide_crash_spec m cctx m' es d err : registry_wf (registry m) -> decide_crash m cctx = (m', es, (d, err)) ->
  registry m' = registry m /\ config m' = config m /\ triggered es = ShouldCrash_ d /\
  (ShouldCrash_ d = true -> err = None /\ cfg_Enabled (config m) = true /\ ValidationOnly (config m) = false /\
     DryRun (config m) = false /\ exists e,
     Resolve (registry m) (if decide (CrashPointID (config m) = ""%string) then scenarioCrashID cctx else CrashPointID (config m)) = inl e /\
     Enabled (point e) = true /\ d_CrashPointID d = ID (point e) /\ d_EngineHook d = EngineHook (point e) /\ HookExecuted d = true).
Proof.
  intros Hr. unfold decide_crash. destruct (ValidationOnly (config m)) eqn:Ev.
  { case_match; intros E; by injection E as <- <- <- <-. }
  destruct (cfg_Enabled (config m)) eqn:Ee; cbn [negb]; [|intros E; by injection E as <- <- <- <-].
  set (pid := if decide (CrashPointID (config m) = ""%string) then _ else _).
  destruct (decide (pid = ""%string)); [intros E; by injection E as <- <- <- <-|].
  destruct (Resolve (registry m) pid) as [e|err0] eqn:Er; [|intros E; by injection E as <- <- <- <-].
  destruct (Enabled (point e)) eqn:Een; [|intros E; by injection E as <- <- <- <-].
  intros E. destruct (decide_point_spec _ _ _ _ _ _ _ E) as (H1 & H2 & H3 & H4). repeat (split; [done|]). intros Hs.
  destruct (H4 Hs) as (? & ? & ? & ? & ?). repeat (split; [done|]). by exists e.
Qed.

(** * The builtin points *)

Lemma register_points_spec ps : forall r r', register_points r ps = inl r' -> registry_wf r ->
  registry_wf r' /\ forall id e, byID r' !! id = Some e <-> byID r !! id = Some e \/ exists p, p ∈ ps /\ id = ID p /\ e = mkEntry p (NewEngineBridgeHook p).
Proof.
  induction ps as [|p ps IH]; intros r r' E Hr; cbn [register_points] in E.
  { injection E as <-. split; [done|]. intros id e. split; [by left|]. intros [?|(p & Hp & _)]; [done|by apply elem_of_nil in Hp]. }
  destruct (Register r p (Some (NewEngineBridgeHook p))) as [r1 [err|]] eqn:E1; [done|].
  assert (Hr1 : registry_wf r1) by (change r1 with (r1, @None Error).1; rewrite <- E1; by apply Register_fits).
  destruct (IH r1 r' E Hr1) as [Hr' Hin]. split; [done|]. intros id e. rewrite Hin.
  destruct (Register_ok _ _ _ _ E1) as (h' & [= <-] & _ & _ & Hno & _ & ->). cbn [byID]. rewrite lookup_insert. case_decide as Hd.
  - subst id. split.
    + intros [[= <-]|(q & Hq & Hid & ->)]; right; [exists p; by split; [left|]|exists q; by split; [right|]].
    + intros [?|(q & [-> |Hq]%elem_of_cons & Hid & ->)]; [congruence|by left|right; by exists q].
  - split.
    + intros [?|(q & Hq & Hid & ->)]; [by left|right; exists q; by split; [right|]].
    + intros [?|(q & [-> |Hq]%elem_of_cons & Hid & ->)]; [by left|congruence|right; by exists q].
Qed.

Definition builtin_registry : Registry := match NewBuiltinRegistry with inl r => r | inr _ => NewRegistry end.

Lemma builtin_ok : register_points NewRegistry BuiltinPoints = inl builtin_registry /\ NewBuiltinRegistry = inl builtin_registry.
Proof. split; vm_compute; reflexivity. Qed.

Lemma builtin_entries : registry_wf builtin_registry /\ forall id e, byID builtin_registry !! id = Some e <->
  exists p, p ∈ BuiltinPoints /\ id = ID p /\ e = mkEntry p (NewEngineBridgeHook p).
Proof.
  destruct (register_points_spec _ _ _ (proj1 builtin_ok) NewRegistry_fits) as [H1 H2]. split; [exact H1|]. intros id e.
  rewrite H2. cbn [byID NewRegistry]. rewrite lookup_empty. split; [intros [H|H]; [discriminate H|exact H]|intros H; right; exact H].
Qed.

(** Every builtin point is enabled, and its names are known to no other. *)
Lemma builtin_resolve x e : Resolve builtin_registry x = inl e <->
  exists p, p ∈ BuiltinPoints /\ (x = ID p \/ x = EngineHook p) /\ e = mkEntry p (NewEngineBridgeHook p).
Proof.
  destruct builtin_entries as [Hr He]. split.
  - intros Hx. destruct (Resolve_registered _ _ _ Hr Hx) as (H1 & H2 & _). apply He in H1 as (p & Hp & _ & ->).
    exists p. exact (conj Hp (conj H2 eq_refl)).
  - intros (p & Hp & Hx & ->). apply Resolve_spec; [exact Hr|].
    assert (Hnone : byID builtin_registry !! EngineHook p = None).
    { apply eq_None_not_Some. intros [e' (q & Hq & Eq & _)%He]. revert Eq.
      assert (Hd : Forall (fun a => Forall (fun b => EngineHook a <> ID b) BuiltinPoints) BuiltinPoints) by by_decide.
      rewrite Forall_forall in Hd. specialize (Hd p Hp). rewrite Forall_forall in Hd. exact (Hd q Hq). }
    assert (Hin : byID builtin_registry !! ID p = Some (mkEntry p (NewEngineBridgeHook p))).
    { apply He. exists p. exact (conj Hp (conj eq_refl eq_refl)). }
    destruct Hx as [-> | ->]; [left; exact Hin|right; exact (conj Hnone (conj Hin eq_refl))].
Qed.

Lemma builtin_enabled p : p ∈ BuiltinPoints -> Enabled p = true /\ EngineHook p ∈ engine_crash_points /\ EngineHook p <> ""%string.
Proof.
  assert (H : Forall (fun p => Enabled p = true /\ EngineHook p ∈ engine_crash_points /\ EngineHook p <> ""%string) BuiltinPoints) by by_decide.
  rewrite Forall_forall in H. apply H.
Qed.

(** What a scenario without a crash point comes to. *)
Lemma EvaluateForScenario_none m sessID tempDir st sid env :
  exists es d, EvaluateForScenario m sessID tempDir st sid "" env =
    (mkManager (registry m) (mkConfig "" (policy_of PolicyNever) 0 false false false) (evaluator m), es, (d, None)) /\
    ShouldCrash_ d = false /\ triggered es = false.
Proof. by do 2 eexists. Qed.

Definition always (x : string) : Config := mkConfig x (policy_of PolicyAlways) 0 true false false.

Lemma always_valid x : x <> ""%string -> config_Validate (always x) = None.
Proof. intros Hx. unfold config_Validate, always. cbn. by rewrite (bool_decide_false (x = ""%string)). Qed.

Lemma decide_always r ev cctx x e : x <> ""%string -> Resolve r x = inl e -> Enabled (point e) = true ->
  (forall ctx, environment ctx = environment cctx -> Supports (hook e) ctx = true) ->
  decide_crash (mkManager r (always x) ev) cctx =
    (mkManager r (always x) ev, [EventCrashHookExecuted (ID (point e)); EventCrashTriggered (ID (point e)) (EngineHook (point e))],
     (mkDecision true (ID (point e)) (EngineHook (point e)) ReasonAlways PolicyAlways false false true, None)).
Proof.
  intros Hx Hr He Hs. unfold decide_crash, always. cbn [config registry ValidationOnly cfg_Enabled negb CrashPointID].
  destruct (decide (x = ""%string)) as [?|_]; [done|]. destruct (decide (x = ""%string)) as [?|_]; [done|]. rewrite Hr, He.
  unfold decide_point. cbn [config registry evaluator].
  match goal with |- context [Supports (hook e) ?c] => set (ctx := c) end.
  assert (Hsup : Supports (hook e) ctx = true) by (by apply Hs).
  assert (Hex : hook_Execute (hook e) ctx = None).
  { unfold hook_Execute. destruct (hook e); [by rewrite Hsup|done]. }
  cbn -[Supports hook_Execute ctx]. by rewrite Hsup, Hex.
Qed.

(** With a name that resolves to an enabled point whose hook supports the context. *)
Lemma EvaluateForScenario_point m sessID tempDir st sid x env e : x <> ""%string -> Resolve (registry m) x = inl e ->
  Enabled (point e) = true -> (forall ctx, environment ctx = env -> Supports (hook e) ctx = true) ->
  exists es d, EvaluateForScenario m sessID tempDir st sid x env =
    (mkManager (registry m) (always x) (evaluator m), es, (d, None)) /\
    ShouldCrash_ d = true /\ d_CrashPointID d = ID (point e) /\ d_EngineHook d = EngineHook (point e) /\ triggered es = true.
Proof.
  intros Hx Hr He Hs. unfold EvaluateForScenario, PrepareForScenario. rewrite decide_False by done. fold (always x).
  unfold Configure. rewrite (always_valid x Hx). cbn [always cfg_Enabled CrashPointID andb]. rewrite bool_decide_true by done.
  rewrite Hr. fold (always x). unfold ShouldCrash. cbn [config]. rewrite (always_valid x Hx).
  rewrite (decide_always _ _ _ _ _ Hx Hr He) by (intros ctx Hc; by apply Hs). by do 2 eexists.
Qed.

Lemma EvaluateForScenario_unknown m sessID tempDir st sid x env err : x <> ""%string -> Resolve (registry m) x = inr err ->
  EvaluateForScenario m sessID tempDir st sid x env = (m, [], (noDecision, Some err)).
Proof.
  intros Hx Hr. unfold EvaluateForScenario, PrepareForScenario. rewrite decide_False by done. fold (always x).
  unfold Configure. rewrite (always_valid x Hx). cbn [always cfg_Enabled CrashPointID andb]. rewrite bool_decide_true by done.
  by rewrite Hr.
Qed.

End random.

#[local] Opaque builtin_registry.

(** * Properties *)

(** a crash is never decided by mistake.  Whatever the configuration, the context
    and the history of the manager: when ShouldCrash says so, it returns no error, the
    manager is enabled and neither validating nor in a dry run, and the decision carries
    the engine hook of the enabled, registered point that was asked for.  The event
    CrashTriggered is published exactly then, and the environment of the child names a
    crash point exactly then. *)
Theorem crash_decision_sound Float64 m cctx m' es d err : registry_wf (registry m) ->
  ShouldCrash Float64 m (Some cctx) = (m', es, (d, err)) ->
  registry m' = registry m /\ config m' = config m /\ triggered es = ShouldCrash_ d /\
  ChildEnv d = [(EnvKeyCrashAt, if ShouldCrash_ d then d_EngineHook d else ""%string)] /\
  (ShouldCrash_ d = true -> err = None /\ cfg_Enabled (config m) = true /\ ValidationOnly (config m) = false /\
     DryRun (config m) = false /\ exists e,
     Resolve (registry m) (if decide (CrashPointID (config m) = ""%string) then scenarioCrashID cctx else CrashPointID (config m)) = inl e /\
     Enabled (point e) = true /\ d_CrashPointID d = ID (point e) /\ d_EngineHook d = EngineHook (point e) /\
     d_EngineHook d <> ""%string /\ HookExecuted d = true).
Proof.
  intros Hr E. unfold ShouldCrash in E. destruct (config_Validate (config m)) as [e|]; [by injection E as <- <- <- <-|].
  destruct (decide_crash Float64 m cctx) as [[m1 es1] [d1 err1]] eqn:Ed. injection E as <- <- <- <-.
  destruct (decide_crash_spec _ _ _ _ _ _ _ Hr Ed) as (H1 & H2 & H3 & H4).
  split; [done|]. split; [done|]. split; [unfold triggered in *; cbn; by rewrite existsb_app, H3, orb_false_r|].
  assert (Hne : ShouldCrash_ d1 = true -> d_EngineHook d1 <> ""%string).
  { intros Hs. destruct (H4 Hs) as (_ & _ & _ & _ & e & He & _ & _ & -> & _). by apply (Resolve_registered _ _ _ Hr He). }
  split.
  - unfold ChildEnv. destruct (ShouldCrash_ d1); [|done]. cbn [andb]. by rewrite bool_decide_true by by apply Hne.
  - intros Hs. destruct (H4 Hs) as (A1 & A2 & A3 & A4 & e & B1 & B2 & B3 & B4 & B5).
    repeat (split; [done|]). exists e. repeat (split; [done|]). split; [by apply Hne|done].
Qed.

Lemma crash_decision_sound_witness : exists m' es d,
  ShouldCrash (fun _ _ => 0%Q) (NewManager builtin_registry) (Some (mkContext "x" "s" "/d" StateInit None 0 [] false "/d" "flush.after_manifest")) = (m', es, (d, None)) /\
  triggered es = ShouldCrash_ d /\ ShouldCrash_ d = true.
Proof.
  destruct (ShouldCrash (fun _ _ => 0%Q) (NewManager builtin_registry)
    (Some (mkContext "x" "s" "/d" StateInit None 0 [] false "/d" "flush.after_manifest"))) as [[m' es] [d err]] eqn:E.
  assert (H : err = None /\ ShouldCrash_ d = true).
  { change (err = None) with ((m', es, (d, err)).2.2 = None). change (ShouldCrash_ d) with (ShouldCrash_ (m', es, (d, err)).2.1).
    rewrite <- E. vm_compute. exact (conj eq_refl eq_refl). }
  destruct H as [-> Hd]. exists m', es, d. split; [reflexivity|]. split; [|exact Hd].
  exact (proj1 (proj2 (proj2 (crash_decision_sound _ (NewManager builtin_registry) _ _ _ _ _ (proj1 builtin_entries) E)))).
Defined.

(** a scenario that names a crash point reaches the engine.  With the builtin
    registry, whatever was configured before: a name that is the ID or the engine hook of
    a builtin point makes the child run with PEBBLEDB_CRASH_AT set to a constant at which
    the engine exits; no name leaves it empty; any other name is the error "unknown crash
    point" and changes nothing. *)
Theorem scenario_crash_reaches_engine Float64 m sessID tempDir st sid x env : registry m = builtin_registry ->
  env_get "PEBBLEDB_FORCE_FLUSH" env <> Some "0"%string ->
  let '(m', es, (d, err)) := EvaluateForScenario Float64 m sessID tempDir st sid x env in
  (x = ""%string /\ err = None /\ ChildEnv d = [(EnvKeyCrashAt, ""%string)]) \/
  (exists p, p ∈ BuiltinPoints /\ (x = ID p \/ x = EngineHook p) /\ EngineHook p ∈ engine_crash_points /\
     err = None /\ triggered es = true /\ ChildEnv d = [(EnvKeyCrashAt, EngineHook p)]) \/
  (x <> ""%string /\ (forall p, p ∈ BuiltinPoints -> x <> ID p /\ x <> EngineHook p) /\ m' = m /\
     err = Some (mkError ErrUnknownPoint "unknown crash point" [x]) /\ ChildEnv d = [(EnvKeyCrashAt, ""%string)]).
Proof.
  intros Hm Henv. destruct (decide (x = ""%string)) as [-> |Hx].
  { destruct (EvaluateForScenario_none Float64 m sessID tempDir st sid env) as (es & d & -> & Hd & _). left.
    unfold ChildEnv. rewrite Hd. exact (conj eq_refl (conj eq_refl eq_refl)). }
  destruct (Resolve (registry m) x) as [e|err] eqn:Er.
  - pose proof Er as Er'. rewrite Hm in Er'. apply builtin_resolve in Er' as (p & Hp & Hxp & ->). clear Hm.
    destruct (builtin_enabled p Hp) as (P1 & P2 & P3).
    destruct (EvaluateForScenario_point Float64 m sessID tempDir st sid x env _ Hx Er P1) as (es & d & -> & Hd & _ & Hh & Ht).
    { intros ctx Hc. cbn. rewrite decide_False by done. rewrite Hc, bool_decide_false by done. by rewrite andb_false_r. }
    right. left. exists p. unfold ChildEnv. rewrite Hd, Hh. cbn [point andb]. rewrite bool_decide_true by done.
    exact (conj Hp (conj Hxp (conj P2 (conj eq_refl (conj Ht eq_refl))))).
  - rewrite (EvaluateForScenario_unknown Float64 m sessID tempDir st sid x env err Hx Er). right. right. split; [exact Hx|].
    rewrite <- (Resolve_error _ _ _ Er). split; [|split; [reflexivity|split; reflexivity]].
    intros p Hp. rewrite Hm in Er. assert (Hno : ~ (x = ID p \/ x = EngineHook p)); [|tauto].
    intros Hxp. assert (Hin : Resolve builtin_registry x = inl (mkEntry p (NewEngineBridgeHook p))).
    { apply builtin_resolve. exists p. exact (conj Hp (conj Hxp eq_refl)). }
    rewrite Hin in Er. discriminate Er.
Qed.

Lemma scenario_crash_reaches_engine_witness :
  let '(m', es, (d, err)) := EvaluateForScenario (fun _ _ => 0%Q) (NewManager builtin_registry) "x" "/d" StateSubprocessWriting "s"
    "compact.after_manifest" [("PEBBLEDB_FORCE_FLUSH", "1")]%string in
  err = None /\ exists p, p ∈ BuiltinPoints /\ EngineHook p ∈ engine_crash_points /\ ChildEnv d = [(EnvKeyCrashAt, EngineHook p)].
Proof.
  assert (Herr : (EvaluateForScenario (fun _ _ => 0%Q) (NewManager builtin_registry) "x" "/d" StateSubprocessWriting "s"
    "compact.after_manifest" [("PEBBLEDB_FORCE_FLUSH", "1")]%string).2.2 = None) by (vm_compute; reflexivity).
  pose proof (scenario_crash_reaches_engine (fun _ _ => 0%Q) (NewManager builtin_registry) "x" "/d" StateSubprocessWriting "s"
    "compact.after_manifest" [("PEBBLEDB_FORCE_FLUSH", "1")]%string eq_refl ltac:(by_decide)) as H.
  destruct (EvaluateForScenario _ _ _ _ _ _ _) as [[m' es] [d err]]. cbn [snd] in Herr. split; [exact Herr|].
  destruct H as [(H & _)|[(p & H1 & _ & H2 & _ & _ & H3)|(_ & _ & _ & H & _)]]; [discriminate H| |congruence].
  exists p. exact (conj H1 (conj H2 H3)).
Defined.

End AtfCrash.
