(* ===== verification/AtfDataset.v ===== *)
(** The workload of an acceptance scenario and the state it is expected to leave
    (internal/db/acceptance/framework/dataset/dataset.go, the interface LogicalWriter of
    interfaces/interfaces.go).

    The numbers of math/rand and the texts of encoding/json and crypto/sha256 are
    parameters: the i-th value of a generator, the encoding of a document and the digest
    of its content.  [Generate] is proved against the interface of the writer, which the
    database implements ([DB_writer]). *)

From Stdlib Require Import ZArith Lia Ascii.
From stdpp Require Import sorting.
From S2P Require Import Prelude Word Fs GoStr Memtable Wal Manifest SstWriter DbState DbWrite DbOpen.

Module AtfDataset.
Import Db.

(** * The writer *)

(** What a writer promises: [view] is what its keys hold, newest first. *)
Class LogicalWriter (W : Type) := {
  w_Put : bytes -> bytes -> W -> io (W * option error);
  w_Delete : bytes -> W -> io (W * option error);
  w_Flush : W -> io (W * option error);
  w_Sync : W -> io (W * option error);
  w_Close : W -> io (W * option error);
  view : W -> layer;
  w_ok : W -> Prop;
  w_Put_ok : forall k v w wd w' wd', w_ok w -> w_Put k v w wd = (Ok (w', None), wd') ->
    w_ok w' /\ view w' = <[k := Some v]> (view w);
  w_Delete_ok : forall k w wd w' wd', w_ok w -> w_Delete k w wd = (Ok (w', None), wd') ->
    w_ok w' /\ view w' = <[k := None]> (view w);
  w_Sync_ok : forall w wd w' wd', w_ok w -> w_Sync w wd = (Ok (w', None), wd') -> w_ok w' /\ view w' = view w
}.

(** * The expected state *)

Record ValueSnapshot := mkSnapshot { vs_Value : bytes; vs_Tombstone : bool; vs_Version : Z }.

#[export] Instance ValueSnapshot_eq_dec : EqDecision ValueSnapshot.
Proof. solve_decision. Defined.

Definition ExpectedStateFileName : string := "expected_state.json".
Definition OracleSchemaVersion : Z := 1.

Record MapExpectedState := mkExpected {
  SchemaVersion : Z; ScenarioID : string; ExecutionID : string; Seed : Z; Count : Z;
  State : gmap bytes ValueSnapshot; Checksum : string
}.

Definition NewMapExpectedState (seed count : Z) : MapExpectedState := mkExpected OracleSchemaVersion "" "" seed count ∅ "".

Definition set_State (m : MapExpectedState) (s : gmap bytes ValueSnapshot) : MapExpectedState :=
  mkExpected (SchemaVersion m) (ScenarioID m) (ExecutionID m) (Seed m) (Count m) s (Checksum m).

Definition set_Checksum (m : MapExpectedState) (c : string) : MapExpectedState :=
  mkExpected (SchemaVersion m) (ScenarioID m) (ExecutionID m) (Seed m) (Count m) (State m) c.

Definition set_ids (m : MapExpectedState) (scenario execution : string) : MapExpectedState :=
  mkExpected (SchemaVersion m) scenario execution (Seed m) (Count m) (State m) (Checksum m).

Definition set_SchemaVersion (m : MapExpectedState) (v : Z) : MapExpectedState :=
  mkExpected v (ScenarioID m) (ExecutionID m) (Seed m) (Count m) (State m) (Checksum m).

Definition Get (m : MapExpectedState) (key : bytes) : option ValueSnapshot := State m !! key.

Definition sort_keys (l : list bytes) : list bytes := merge_sort bytes_le l.

Definition Keys (m : MapExpectedState) : list bytes := sort_keys (map_to_list (State m)).*1.

Definition is_live (p : bytes * ValueSnapshot) : Prop := vs_Tombstone p.2 = false.

#[export] Instance is_live_dec p : Decision (is_live p).
Proof. unfold is_live. apply _. Defined.

Definition LiveKeys (m : MapExpectedState) : list bytes := sort_keys (filter is_live (map_to_list (State m))).*1.

Definition LiveCount (m : MapExpectedState) : Z := zlen (filter is_live (map_to_list (State m))).

(** ** Saving and loading *)

Section json.
Context (digest : MapExpectedState -> string) (marshal : MapExpectedState -> bytes) (unmarshal : bytes -> option MapExpectedState).

(** The digest is of everything but the checksum. *)
Definition ComputeChecksum (m : MapExpectedState) : string := digest (set_Checksum m "").

Definition expected_tmp : string := String.append ExpectedStateFileName ".tmp".

Definition Persist (m : MapExpectedState) : io MapExpectedState :=
  let m := if SchemaVersion m =? 0 then set_SchemaVersion m OracleSchemaVersion else m in
  let m := set_Checksum m (ComputeChecksum m) in
  let data := marshal m in
  fs_open_trunc expected_tmp ;;!
  Manifest.or_remove (fs_write expected_tmp data) expected_tmp ;;!
  Manifest.or_remove (fs_sync expected_tmp) expected_tmp ;;!
  Manifest.or_remove (fs_close expected_tmp) expected_tmp ;;!
  fs_rename expected_tmp ExpectedStateFileName ;;!
  io_ret m.

Inductive load_error := LoadFailed (e : error) | BadJSON.

(** A document without a state map has the empty one. *)
Definition LoadExpectedState : io (MapExpectedState + load_error) :=
  let! r := try (fs_read ExpectedStateFileName) in
  match r with
  | inr e => io_ret (inr (LoadFailed e))
  | inl data =>
      match unmarshal data with
      | None => io_ret (inr BadJSON)
      | Some m => io_ret (inl (if SchemaVersion m =? 0 then set_SchemaVersion m OracleSchemaVersion else m))
      end
  end.

End json.

(** * The generator *)

Definition hex_char (d : Z) : ascii := ascii_of_N (Z.to_N (if d <? 10 then 48 + d else 87 + d)).

Fixpoint low_hex (k : nat) (n : Z) : string :=
  match k with
  | O => ""
  | S k' => String.append (low_hex k' (n / 16)) (String (hex_char (n mod 16)) "")
  end.

Definition to_bytes (s : string) : bytes := String.list_byte_of_string s.

Definition fmtKey (i : Z) : bytes := to_bytes (String.append "key_" (GoStr.format_padded 8 i)).

(** [fmt.Sprintf("<name>_%08d_%016x", i, r)] *)
Definition fmtValue (name : string) (i r : Z) : bytes :=
  to_bytes (String.append name (String.append "_" (String.append (GoStr.format_padded 8 i) (String.append "_" (low_hex 16 r))))).

Record SequentialGenerator := mkGenerator { g_Seed : Z; g_Count : Z; OverwriteCount : Z; TombstoneEvery : Z }.

Definition KeyCount (g : SequentialGenerator) : Z := g_Count g.

Inductive gen_error := CountNotPositive | Canceled | WriteFailed (e : error).

Section generate.
Context {W : Type} `{!LogicalWriter W}.
(** The values of the generator seeded with [g_Seed], by their number, and what
    [ctx.Err] says in each round of each of the three loops. *)
Context (Uint64 : nat -> Z) (Intn : nat -> Z -> Z) (canceled : nat -> nat -> bool).

(** The writer, the expected entries, and how many random values were drawn. *)
Record gen := mkGen { g_writer : W; g_state : gmap bytes ValueSnapshot; g_drawn : nat }.

(** The closure [put]. *)
Definition gen_put (key val : bytes) (version : Z) (s : gen) : io (gen * option error) :=
  let! (w, err) := w_Put key val (g_writer s) in
  match err with
  | Some e => io_ret (mkGen w (g_state s) (g_drawn s), Some e)
  | None => io_ret (mkGen w (<[key := mkSnapshot val false version]> (g_state s)) (g_drawn s), None)
  end.

Definition prev_version (s : gen) (key : bytes) : Z := default 0 (vs_Version <$> g_state s !! key).

Definition draw (s : gen) : gen := mkGen (g_writer s) (g_state s) (S (g_drawn s)).

(** [for i := 0; i < g.Count; i++] *)
Fixpoint gen_puts (left : nat) (i : nat) (s : gen) : io (gen * option gen_error) :=
  match left with
  | O => io_ret (s, None)
  | S left' =>
      if canceled 0 i then io_ret (s, Some Canceled) else
      let key := fmtKey (Z.of_nat i) in
      let val := fmtValue "value" (Z.of_nat i) (Uint64 (g_drawn s)) in
      let! (s, err) := gen_put key val 1 (draw s) in
      match err with
      | Some e => io_ret (s, Some (WriteFailed e))
      | None => gen_puts left' (S i) s
      end
  end.

(** [for i := 0; i < g.OverwriteCount; i++] *)
Fixpoint gen_overwrites (count : Z) (left : nat) (i : nat) (s : gen) : io (gen * option gen_error) :=
  match left with
  | O => io_ret (s, None)
  | S left' =>
      if canceled 1 i then io_ret (s, Some Canceled) else
      let idx := Intn (g_drawn s) count in
      let s := draw s in
      let key := fmtKey idx in
      let nextVer := u64 (prev_version s key + 1) in
      let nextVer := if nextVer <? 2 then 2 else nextVer in
      let val := fmtValue "overwrite" idx (Uint64 (g_drawn s)) in
      let! (s, err) := gen_put key val nextVer (draw s) in
      match err with
      | Some e => io_ret (s, Some (WriteFailed e))
      | None => gen_overwrites count left' (S i) s
      end
  end.

(** [for i := 0; i < g.Count; i += g.TombstoneEvery]; the number of keys bounds the rounds. *)
Fixpoint gen_tombstones (count every : Z) (fuel round : nat) (i : Z) (s : gen) : io (gen * option gen_error) :=
  match fuel with
  | O => io_ret (s, None)
  | S fuel' =>
      if count <=? i then io_ret (s, None) else
      if canceled 2 round then io_ret (s, Some Canceled) else
      let key := fmtKey i in
      let! (w, err) := w_Delete key (g_writer s) in
      match err with
      | Some e => io_ret (mkGen w (g_state s) (g_drawn s), Some (WriteFailed e))
      | None =>
          let version := u64 (prev_version s key + 1) in
          gen_tombstones count every fuel' (S round) (i + every)
            (mkGen w (<[key := mkSnapshot [] true version]> (g_state s)) (g_drawn s))
      end
  end.

Definition Generate (g : SequentialGenerator) (w : W) : io (W * (MapExpectedState + gen_error)) :=
  if g_Count g <=? 0 then io_ret (w, inr CountNotPositive) else
  let expected := NewMapExpectedState (g_Seed g) (g_Count g) in
  let! (s, err) := gen_puts (Z.to_nat (g_Count g)) 0 (mkGen w (State expected) 0) in
  match err with
  | Some e => io_ret (g_writer s, inr e)
  | None =>
      let! (s, err) := gen_overwrites (g_Count g) (Z.to_nat (OverwriteCount g)) 0 s in
      match err with
      | Some e => io_ret (g_writer s, inr e)
      | None =>
          let! (s, err) := (if 0 <? TombstoneEvery g
            then gen_tombstones (g_Count g) (TombstoneEvery g) (Z.to_nat (g_Count g)) 0 0 s
            else io_ret (s, None)) in
          match err with
          | Some e => io_ret (g_writer s, inr e)
          | None =>
              let! (w, err) := w_Sync (g_writer s) in
              match err with
              | Some e => io_ret (w, inr (WriteFailed e))
              | None => io_ret (w, inl (set_State expected (g_state s)))
              end
          end
      end
  end.

(** ** What it writes *)

Definition oracle_cell (s : ValueSnapshot) : option bytes := if vs_Tombstone s then None else Some (vs_Value s).

(** What the expected entries say of the keys. *)
Definition oracle (m : gmap bytes ValueSnapshot) : layer := oracle_cell <$> m.

Lemma bind_inv {A B} (m : io A) (k : A -> io B) wd b wd' : io_bind m k wd = (Ok b, wd') ->
  exists a wd1, m wd = (Ok a, wd1) /\ k a wd1 = (Ok b, wd').
Proof. unfold io_bind. destruct (m wd) as [[a|e|] wd1]; [eauto|done..]. Qed.

Definition gen_ok (w0 : W) (s : gen) : Prop :=
  w_ok (g_writer s) /\ view (g_writer s) = oracle (g_state s) ∪ view w0.

Lemma gen_put_spec w0 key val version s wd s' wd' : gen_ok w0 s -> gen_put key val version s wd = (Ok (s', None), wd') ->
  gen_ok w0 s' /\ g_state s' = <[key := mkSnapshot val false version]> (g_state s).
Proof.
  intros [Ho Hv] E. unfold gen_put in E. apply bind_inv in E as ([w [e|]] & wd1 & E1 & E2); [done|].
  injection E2 as <- <-. destruct (w_Put_ok _ _ _ _ _ _ Ho E1) as [Ho' Hv']. split; [|done]. split; [done|]. cbn.
  rewrite Hv', Hv. unfold oracle. by rewrite fmap_insert, insert_union_l.
Qed.

Lemma fmtKey_inj i j : is_u64 i -> is_u64 j -> fmtKey i = fmtKey j -> i = j.
Proof.
  intros Hi Hj E. unfold fmtKey, to_bytes in E. apply (f_equal String.string_of_list_byte) in E.
  rewrite !String.string_of_list_byte_of_string in E. injection E as E. change (GoStr.format_padded 8 i = GoStr.format_padded 8 j) in E.
  apply (f_equal (fun s => GoStr.parse_digits s 0)) in E. rewrite !GoStr.parse_format in E by done. by injection E.
Qed.

(** The keys below [n] and no others; the first [t] of them marked as [mark] says. *)
Definition keyed (n : Z) (mark : Z -> bool) (m : gmap bytes ValueSnapshot) : Prop :=
  (forall k, is_Some (m !! k) -> exists i, 0 <= i < n /\ k = fmtKey i) /\
  (forall i, 0 <= i < n -> exists s, m !! fmtKey i = Some s /\ vs_Tombstone s = mark i).

Lemma keyed_insert n mark mark' m i s : n <= 2 ^ 63 -> keyed n mark m -> 0 <= i < n -> vs_Tombstone s = mark' i ->
  (forall j, i <> j -> mark' j = mark j) -> keyed n mark' (<[fmtKey i := s]> m).
Proof.
  intros Hn [K1 K2] Hi Hs Hm. split.
  - intros k. rewrite lookup_insert. case_decide; [subst; eauto|apply K1].
  - intros j Hj. rewrite lookup_insert. case_decide as Hd.
    + apply fmtKey_inj in Hd as <-; [|unfold is_u64; lia..]. eauto.
    + destruct (K2 j Hj) as (t & Ht & Et). exists t. split; [done|]. rewrite Et, Hm; [done|]. by intros ->.
Qed.

Lemma keyed_snoc n mark m s : 0 <= n < 2 ^ 63 -> keyed n mark m -> vs_Tombstone s = mark n ->
  keyed (n + 1) mark (<[fmtKey n := s]> m).
Proof.
  intros Hn [K1 K2] Hs. split.
  - intros k. rewrite lookup_insert. case_decide; [subst; intros _; exists n; split; [lia|done]|].
    intros (i & Hi & ->)%K1. exists i. split; [lia|done].
  - intros j Hj. rewrite lookup_insert. case_decide as Hd.
    + apply fmtKey_inj in Hd as <-; [|unfold is_u64; lia..]. eauto.
    + apply K2. assert (j <> n) by (by intros ->). lia.
Qed.

Lemma gen_puts_spec w0 left : forall i s wd s' wd', Z.of_nat (i + left) <= 2 ^ 63 -> gen_ok w0 s -> keyed (Z.of_nat i) (fun _ => false) (g_state s) ->
  gen_puts left i s wd = (Ok (s', None), wd') -> gen_ok w0 s' /\ keyed (Z.of_nat (i + left)) (fun _ => false) (g_state s').
Proof.
  induction left as [|left IH]; intros i s wd s' wd' Hb Ho Hk E; cbn [gen_puts] in E.
  { injection E as <- <-. by rewrite Nat.add_0_r. }
  destruct (canceled 0 i); [done|]. apply bind_inv in E as ([s1 [e|]] & wd1 & E1 & E2); [done|].
  destruct (gen_put_spec w0 _ _ _ (draw s) _ _ _ Ho E1) as [Ho1 Hs1]. replace (i + S left)%nat with (S i + left)%nat in * by lia.
  apply (IH (S i) s1 wd1 s' wd' Hb Ho1); [|done]. rewrite Hs1, Nat2Z.inj_succ. apply keyed_snoc; [lia|done|done].
Qed.

Lemma gen_overwrites_spec w0 count left : (forall i, 0 <= Intn i count < count) -> count <= 2 ^ 63 -> forall i s wd s' wd',
  gen_ok w0 s -> keyed count (fun _ => false) (g_state s) ->
  gen_overwrites count left i s wd = (Ok (s', None), wd') -> gen_ok w0 s' /\ keyed count (fun _ => false) (g_state s').
Proof.
  intros Hi Hc. induction left as [|left IH]; intros i s wd s' wd' Ho Hk E; cbn [gen_overwrites] in E.
  { by injection E as <- <-. }
  destruct (canceled 1 i); [done|]. apply bind_inv in E as ([s1 [e|]] & wd1 & E1 & E2); [done|].
  destruct (gen_put_spec w0 _ _ _ (draw (draw s)) _ _ _ Ho E1) as [Ho1 Hs1].
  apply (IH (S i) s1 wd1 s' wd' Ho1); [|done]. rewrite Hs1. by eapply keyed_insert.
Qed.

Definition marked (every limit i : Z) : bool := (i <? limit) && (i mod every =? 0).

Lemma gen_tombstones_spec w0 count every fuel : 0 < every -> count <= 2 ^ 63 -> forall round i s wd s' wd',
  0 <= i -> i mod every = 0 -> count - i <= Z.of_nat fuel -> gen_ok w0 s -> keyed count (marked every i) (g_state s) ->
  gen_tombstones count every fuel round i s wd = (Ok (s', None), wd') ->
  gen_ok w0 s' /\ keyed count (fun i => i mod every =? 0) (g_state s').
Proof.
  intros He Hc.
  assert (Hend : forall i m, count <= i -> keyed count (marked every i) m -> keyed count (fun i => i mod every =? 0) m).
  { intros i m Hi [K1 K2]. split; [done|]. intros j Hj. destruct (K2 j Hj) as (t & Ht & Et). exists t. split; [done|].
    rewrite Et. unfold marked. by rewrite (proj2 (Z.ltb_lt j i)) by lia. }
  induction fuel as [|fuel IH]; intros round i s wd s' wd' H0 Hm Hf [Ho Hv] Hk E; cbn [gen_tombstones] in E.
  { injection E as <- <-. split; [done|]. apply (Hend i); [lia|done]. }
  destruct (Z.leb_spec count i) as [Hle|Hlt]; [injection E as <- <-; split; [done|by apply (Hend i)]|].
  destruct (canceled 2 round); [done|]. apply bind_inv in E as ([w [e|]] & wd1 & E1 & E2); [done|].
  destruct (w_Delete_ok _ _ _ _ _ Ho E1) as [Ho' Hv'].
  eapply (IH (S round) (i + every)); [lia| |lia| | |exact E2].
  - rewrite Z.add_mod, Z.mod_same, Z.add_0_r, Z.mod_mod by lia. done.
  - split; [done|]. cbn. rewrite Hv', Hv. unfold oracle. by rewrite fmap_insert, insert_union_l.
  - cbn. eapply keyed_insert; [done|exact Hk|lia| |].
    + unfold marked. by rewrite (proj2 (Z.ltb_lt _ _)), Hm by lia.
    + intros j Hj. unfold marked. destruct (Z.eqb_spec (j mod every) 0) as [Hj0|Hj0]; [|by rewrite !andb_false_r]. rewrite !andb_true_r.
      destruct (Z.ltb_spec j i), (Z.ltb_spec j (i + every)); try lia; try done. exfalso.
      apply Z.mod_divide in Hm as [a ->], Hj0 as [b ->]; [|lia..]. assert (a < b) by nia. nia.
Qed.

End generate.

(** * The database is a writer *)

#[export] Program Instance DB_writer `{!SstWriter.BloomSizing} (fuel : nat) : LogicalWriter DB := {|
  w_Put := DbWrite.Put;
  w_Delete := DbWrite.Delete;
  w_Flush := DbOpen.ForceMemtableFlush fuel;
  w_Sync := DbWrite.Sync;
  w_Close := DbOpen.Close fuel;
  view := DbWrite.memory_layer;
  w_ok := DbWrite.mem_wf
|}.
Next Obligation.
  intros _ _ k v d wd d' wd' Hwf E. pose proof (DbWrite.writeRecord_post (Entry k v false) d wd Hwf) as H.
  unfold DbWrite.Put in E. rewrite E in H. cbn in H. destruct H as [(_ & [[? _]|[_ ?]])|(_ & _ & H & Hw & _)]; done.
Qed.
Next Obligation.
  intros _ _ k d wd d' wd' Hwf E. pose proof (DbWrite.writeRecord_post (Entry k [] true) d wd Hwf) as H.
  unfold DbWrite.Delete in E. rewrite E in H. cbn in H. destruct H as [(_ & [[? _]|[_ ?]])|(_ & _ & H & Hw & _)]; done.
Qed.
Next Obligation.
  intros _ _ d wd d' wd' Hwf E. unfold DbWrite.Sync in E. destruct (writeBlockingBackgroundErr d); [done|].
  cbn [DbWrite.sync_loop] in E. destruct (closed d); [done|]. apply bind_inv in E as ([d1 [e|]] & wd1 & E1 & E2); [done|].
  pose proof (DbWrite.flushPendingBatch_post d wd Hwf) as H. unfold DbWrite.awaitBatchPersist in E1. rewrite E1 in H.
  cbn in H. destruct (pendingBatch d1); [|done]. injection E2 as <- <-. destruct H as (H1 & H2 & _). split; [by apply H2|done].
Qed.

(** * Properties *)

(** C40: the oracle is exact.  Whatever writer satisfies the interface, whatever the disk
    does and whatever the random numbers are: when Generate returns an expected state, its
    entries in front of what the writer held before are what the writer holds now; they
    are the Count keys of the key space, of which exactly every TombstoneEvery-th is
    deleted. *)
Theorem generate_oracle_exact {W} `{!LogicalWriter W} Uint64 Intn canceled g w wd w' m wd' : w_ok w ->
  g_Count g <= 2 ^ 63 -> (forall i, 0 <= Intn i (g_Count g) < g_Count g) ->
  Generate Uint64 Intn canceled g w wd = (Ok (w', inl m), wd') ->
  w_ok w' /\ view w' = oracle (State m) ∪ view w /\ Count m = g_Count g /\ Seed m = g_Seed g /\ 0 < g_Count g /\
  (forall k, is_Some (State m !! k) <-> exists i, 0 <= i < g_Count g /\ k = fmtKey i) /\
  (forall i, 0 <= i < g_Count g -> exists s, State m !! fmtKey i = Some s /\
     (vs_Tombstone s = true <-> 0 < TombstoneEvery g /\ i mod TombstoneEvery g = 0)).
Proof.
  intros Ho Hb Hin E. unfold Generate in E. destruct (Z.leb_spec (g_Count g) 0) as [?|Hpos]; [done|].
  apply bind_inv in E as ([s1 [e|]] & wd1 & E1 & E); [done|].
  assert (H1 : gen_ok w s1 /\ keyed (g_Count g) (fun _ => false) (g_state s1)).
  { rewrite <- (Z2Nat.id (g_Count g)) by lia. eapply (gen_puts_spec Uint64 canceled w _ 0); [| | |exact E1].
    - change (Z.of_nat (Z.to_nat (g_Count g)) <= 2 ^ 63). lia.
    - split; [done|]. change (view w = oracle ∅ ∪ view w). unfold oracle. rewrite fmap_empty.
      symmetry. apply (map_empty_union (M := gmap bytes)).
    - split; [|lia]. by intros k []. }
  destruct H1 as [Ho1 Hk1].
  apply bind_inv in E as ([s2 [e|]] & wd2 & E2 & E); [done|].
  destruct (gen_overwrites_spec Uint64 Intn canceled w _ _ Hin Hb _ _ _ _ _ Ho1 Hk1 E2) as [Ho2 Hk2].
  apply bind_inv in E as ([s3 [e|]] & wd3 & E3 & E); [done|].
  assert (H3 : gen_ok w s3 /\ keyed (g_Count g) (fun i => (0 <? TombstoneEvery g) && (i mod TombstoneEvery g =? 0)) (g_state s3)).
  { destruct (Z.ltb_spec 0 (TombstoneEvery g)) as [Ht|Ht].
    - eapply gen_tombstones_spec; [done|done|done|done| |exact Ho2| |exact E3]; [lia|].
      destruct Hk2 as [K1 K2]. split; [done|]. intros i Hi. destruct (K2 i Hi) as (s & Hs & Es). exists s. split; [done|].
      rewrite Es. unfold marked. by rewrite (proj2 (Z.ltb_ge i 0)) by lia.
    - by injection E3 as <- <-. }
  destruct H3 as [[Ho3 Hv3] [K1 K2]]. apply bind_inv in E as ([w4 [e|]] & wd4 & E4 & E); [done|]. injection E as <- <- <-.
  destruct (w_Sync_ok _ _ _ _ Ho3 E4) as [Ho4 Hv4]. cbn [State set_State Count Seed NewMapExpectedState].
  split; [done|]. split; [congruence|]. split; [done|]. split; [done|]. split; [done|]. split.
  - intros k. split; [apply K1|]. intros (i & Hi & ->). destruct (K2 i Hi) as (s & -> & _). by eexists.
  - intros i Hi. destruct (K2 i Hi) as (s & Hs & Es). exists s. split; [done|].
    by rewrite Es, andb_true_iff, Z.ltb_lt, Z.eqb_eq.
Qed.

(** A writer that keeps its keys in a map. *)
#[local] Program Instance map_writer : LogicalWriter layer := {|
  w_Put k v m := io_ret (<[k := Some v]> m, None);
  w_Delete k m := io_ret (<[k := None]> m, None);
  w_Flush m := io_ret (m, None);
  w_Sync m := io_ret (m, None);
  w_Close m := io_ret (m, None);
  view m := m;
  w_ok m := True
|}.
Next Obligation. intros k v m wd m' wd' _ E. by injection E as <- <-. Qed.
Next Obligation. intros k m wd m' wd' _ E. by injection E as <- <-. Qed.
Next Obligation. intros m wd m' wd' _ E. by injection E as <- <-. Qed.

Lemma generate_oracle_exact_witness : exists (w' : layer) m, 
  Generate (fun i => Z.of_nat i) (fun i n => Z.of_nat i mod n) (fun _ _ => false) (mkGenerator 7 4 3 2) (∅ : layer) (mkWorld ∅ []) =
    (Ok (w', inl m), mkWorld ∅ []) /\ view w' = oracle (State m) ∪ view (∅ : layer) /\ size (State m) = 4%nat.
Proof.
  destruct (Generate (fun i => Z.of_nat i) (fun i n => Z.of_nat i mod n) (fun _ _ => false) (mkGenerator 7 4 3 2) (∅ : layer) (mkWorld ∅ []))
    as [r wd'] eqn:E.
  pose (P := fun x : res (layer * (MapExpectedState + gen_error)) * World =>
    x.2 = mkWorld ∅ [] /\ match x.1 with Ok (w', inl m) => size (State m) = 4%nat | _ => False end).
  assert (H : P (r, wd')) by (rewrite <- E; vm_compute; exact (conj eq_refl eq_refl)). unfold P in H. cbn [fst snd] in H.
  destruct H as [-> H]. destruct r as [[w' [m|]]| |]; [|contradiction H..]. exists w', m. split; [reflexivity|]. split; [|exact H].
  refine (proj1 (proj2 (generate_oracle_exact _ _ _ _ _ _ _ _ _ I _ _ E))); [done|].
  intros i. cbn. apply Z.mod_pos_bound. done.
Defined.

End AtfDataset.
