(* ===== verification/AtfVerify.v ===== *)
(** The verifiers of the acceptance framework, which compare a recovered database with
    the expected state (internal/db/acceptance/framework/verifier: failure.go, result.go,
    helpers.go, oracle.go, get.go, range.go, iterator.go, snapshot.go, metadata.go,
    structural.go).

    The modules run on the model of the database: they call its Get, Scan and iterators
    and read its directory.  The texts of a failure are kept as what they show.
    Durations are left out.  The expected state and the handle are never nil, as the
    engine calls the modules. *)

From Stdlib Require Import ZArith Lia.
From stdpp Require Import sorting.
From S2P Require Import Prelude Word Fs GoStr Memtable Wal Manifest SstFormat SstWriter SstReader MergeIter.
From S2P Require Import SstMerge DbState DbFlush DbWrite DbRead DbScan AtfDataset.

Module AtfVerify.
Import Db DbRead.

(** * failure.go, result.go *)

Inductive Severity := SeverityError | SeverityWarning.
Inductive RecoveryPhase := PhaseOracleLoad | PhaseDatabaseOpen | PhaseVerify | PhaseIdempotentReopen.

#[export] Instance Severity_eq_dec : EqDecision Severity.
Proof. solve_decision. Defined.

(** What a text of a failure shows. *)
Inductive shown := Text (s : string) | Bytes (b : bytes) | Number (z : Z) | Numbers (l : list Z) | ErrorText (e : error) | Pair (a b : shown).

Record Failure := mkFailure {
  f_Verifier : string; f_Key : bytes; ExpectedValue : shown; RecoveredValue : shown; f_Reason : string;
  f_Severity : Severity; f_Phase : RecoveryPhase; Explanation : string
}.

Definition newFailure (verifier : string) (key : bytes) (expected recovered : shown) (reason explanation : string) : Failure :=
  mkFailure verifier key expected recovered reason SeverityError PhaseVerify explanation.

Definition structFailure (verifier : string) (expected recovered : shown) (reason explanation : string) : Failure :=
  mkFailure verifier [] expected recovered reason SeverityError PhaseVerify explanation.

Record ModuleResult := mkModule {
  m_Name : string; m_Passed : bool; Failures : list Failure; m_PassedChecks : Z; m_FailedChecks : Z;
  KeysVerified : Z; ScansPerformed : Z; Warnings : Z
}.

Record DatabaseMetadata := mkMeta { OpenedCleanly : bool; BackgroundErr : option error; CompactionDisabled : bool }.

Record Statistics := mkStats {
  ExpectedLiveKeys : Z; ExpectedTombstones : Z; RecoveredLiveKeys : Z; OracleSeed : Z; OracleCount : Z
}.

(** [AbortReason] shows the error; the summary keeps the failures themselves. *)
Record VerificationReport := mkReport {
  r_ScenarioID : string; r_ExecutionID : string; r_Passed : bool; ModuleResults : list ModuleResult;
  r_PassedChecks : Z; r_FailedChecks : Z; r_Meta : DatabaseMetadata; ExpectedStatistics : Statistics;
  RecoveredStatistics : Statistics; FailureSummary : list Failure; r_Aborted : bool; AbortReason : option shown
}.

Definition report_failures (r : VerificationReport) : list Failure := concat (Failures <$> ModuleResults r).

Definition addModule (m : ModuleResult) (r : VerificationReport) : VerificationReport :=
  mkReport (r_ScenarioID r) (r_ExecutionID r) (r_Passed r && m_Passed m) (ModuleResults r ++ [m])
    (r_PassedChecks r + m_PassedChecks m) (r_FailedChecks r + m_FailedChecks m) (r_Meta r) (ExpectedStatistics r)
    (RecoveredStatistics r) (FailureSummary r ++ if m_Passed m then [] else Failures m) (r_Aborted r) (AbortReason r).

(** * helpers.go *)

Definition emptyModuleResult (name : string) : ModuleResult := mkModule name true [] 0 0 0 0 0.

Definition finalizeModule (res : ModuleResult) : ModuleResult :=
  mkModule (m_Name res) (if 0 <? zlen (Failures res) then false else m_Passed res) (Failures res) (m_PassedChecks res)
    (zlen (Failures res)) (KeysVerified res) (ScansPerformed res)
    (Warnings res + zlen (filter (fun f => f_Severity f = SeverityWarning) (Failures res))).

Definition add_failure (f : Failure) (m : ModuleResult) : ModuleResult :=
  mkModule (m_Name m) (m_Passed m) (Failures m ++ [f]) (m_PassedChecks m) (m_FailedChecks m) (KeysVerified m) (ScansPerformed m) (Warnings m).
Definition pass_check (m : ModuleResult) : ModuleResult :=
  mkModule (m_Name m) (m_Passed m) (Failures m) (m_PassedChecks m + 1) (m_FailedChecks m) (KeysVerified m) (ScansPerformed m) (Warnings m).
Definition count_key (m : ModuleResult) : ModuleResult :=
  mkModule (m_Name m) (m_Passed m) (Failures m) (m_PassedChecks m) (m_FailedChecks m) (KeysVerified m + 1) (ScansPerformed m) (Warnings m).
Definition count_scan (m : ModuleResult) : ModuleResult :=
  mkModule (m_Name m) (m_Passed m) (Failures m) (m_PassedChecks m) (m_FailedChecks m) (KeysVerified m) (ScansPerformed m + 1) (Warnings m).

(** A check that adds a failure or a passed check. *)
Definition check (ok : bool) (f : Failure) (m : ModuleResult) : ModuleResult := if ok then pass_check m else add_failure f m.

Inductive verify_error := CtxErr | DbErr (e : error) | ScanErr (label : string) (e : error).

(** The keys and values of a scan, or the error of its iterator. *)
Definition collectLiveScan (fuel : nat) (it : ScanIterator) : io (list (bytes * bytes) + error) :=
  let! (out, err) := scan_walk fuel it [] in
  match err with Some e => io_ret (inr e) | None => io_ret (inl out) end.

Definition expectedInRange (expected : AtfDataset.MapExpectedState) (start end_ : bytes) : list bytes :=
  filter (fun k => ~ (start <> [] /\ blt k start) /\ ~ (end_ <> [] /\ ~ blt k end_)) (AtfDataset.LiveKeys expected).

(** On the reversed prefix: drop the largest bytes, increment the next. *)
Fixpoint bump (rprefix : bytes) : option bytes :=
  match rprefix with
  | [] => None
  | b :: rest => if byte_Z b <? 255 then Some (byte_of_Z (byte_Z b + 1) :: rest) else bump rest
  end.

(** [None] is nil: no finite bound. *)
Definition nextPrefixBound (prefix : bytes) : bytes := match bump (rev prefix) with Some r => rev r | None => [] end.

Definition countTombstones (expected : AtfDataset.MapExpectedState) : Z :=
  zlen (filter (fun p => AtfDataset.vs_Tombstone p.2 = true) (map_to_list (AtfDataset.State expected))).

(** * oracle.go *)

Record OracleLoadOptions := mkLoadOptions { RequireChecksum : bool; ExpectedScenarioID : string; ExpectedExecutionID : string }.

Definition DefaultOracleLoader : OracleLoadOptions := mkLoadOptions true "" "".

Inductive oracle_error :=
  | OracleMissing (e : error) | OracleUnreadable (e : AtfDataset.load_error) | BadSchema (v : Z) | NegativeCount | EmptyState
  | ChecksumMissing | ChecksumMismatch | ScenarioMissing | ScenarioMismatch (got : string)
  | ExecutionMissing | ExecutionMismatch (got : string).

Section loader.
Context (digest : AtfDataset.MapExpectedState -> string) (unmarshal : bytes -> option AtfDataset.MapExpectedState).

(** A loaded state always has a map. *)
Definition validate (opts : OracleLoadOptions) (st : AtfDataset.MapExpectedState) : option oracle_error :=
  if negb (AtfDataset.SchemaVersion st =? AtfDataset.OracleSchemaVersion) then Some (BadSchema (AtfDataset.SchemaVersion st))
  else if AtfDataset.Count st <? 0 then Some NegativeCount
  else if (0 <? AtfDataset.Count st) && (Z.of_nat (size (AtfDataset.State st)) =? 0) then Some EmptyState
  else
    let bad_sum :=
      if RequireChecksum opts || bool_decide (AtfDataset.Checksum st <> ""%string) then
        if decide (AtfDataset.Checksum st = ""%string) then Some ChecksumMissing
        else if decide (AtfDataset.ComputeChecksum digest st = AtfDataset.Checksum st) then None
        else Some ChecksumMismatch
      else None in
    match bad_sum with
    | Some e => Some e
    | None =>
        let bad_scenario :=
          if decide (ExpectedScenarioID opts = ""%string) then None
          else if decide (AtfDataset.ScenarioID st = ""%string) then Some ScenarioMissing
          else if decide (AtfDataset.ScenarioID st = ExpectedScenarioID opts) then None
          else Some (ScenarioMismatch (AtfDataset.ScenarioID st)) in
        match bad_scenario with
        | Some e => Some e
        | None =>
            if decide (ExpectedExecutionID opts = ""%string) then None
            else if decide (AtfDataset.ExecutionID st = ""%string) then Some ExecutionMissing
            else if decide (AtfDataset.ExecutionID st = ExpectedExecutionID opts) then None
            else Some (ExecutionMismatch (AtfDataset.ExecutionID st))
        end
    end.

Definition Load (opts : OracleLoadOptions) : io (AtfDataset.MapExpectedState + oracle_error) :=
  let! r := try (fs_size AtfDataset.ExpectedStateFileName) in
  match r with
  | inr e => io_ret (inr (OracleMissing e))
  | inl _ =>
      let! r := AtfDataset.LoadExpectedState unmarshal in
      match r with
      | inr e => io_ret (inr (OracleUnreadable e))
      | inl st => match validate opts st with Some e => io_ret (inr e) | None => io_ret (inl st) end
      end
  end.

End loader.

(** * The modules *)

(** The context of a verification: what [ctx.Err] says at each look, and a bound on the
    steps of an iterator. *)
Record VerificationContext := mkVctx { canceled : nat -> bool; expected : AtfDataset.MapExpectedState; walk : nat }.

Definition outcome := (DB * (ModuleResult * option verify_error))%type.

(** ** get.go *)

Definition getVerifierName : string := "get_verifier".

(** The answer of [Get] for an expected entry. *)
Definition judge_get (key : bytes) (snap : AtfDataset.ValueSnapshot) (r : bytes + error) (res : ModuleResult) : ModuleResult :=
  if AtfDataset.vs_Tombstone snap then
    match r with
    | inl val => add_failure (newFailure getVerifierName key (Text "ErrNotFound (tombstone)") (Bytes val) "deleted_key_present"
                   "Deleted key is still visible after recovery via Get()") res
    | inr ErrNotFound => pass_check res
    | inr e => add_failure (newFailure getVerifierName key (Text "ErrNotFound") (ErrorText e) "unexpected_get_error"
                   "Tombstone key returned an unexpected error instead of ErrNotFound") res
    end
  else
    match r with
    | inr e => add_failure (newFailure getVerifierName key (Bytes (AtfDataset.vs_Value snap)) (ErrorText e) "missing_key"
                   "Live key is missing after recovery") res
    | inl val =>
        if decide (val = AtfDataset.vs_Value snap) then pass_check res
        else add_failure (newFailure getVerifierName key (Bytes (AtfDataset.vs_Value snap)) (Bytes val) "value_mismatch"
                   "Recovered value does not match oracle value") res
    end.

Fixpoint get_loop (c : VerificationContext) (i : nat) (keys : list bytes) (res : ModuleResult) (d : DB) : io outcome :=
  match keys with
  | [] => io_ret (d, (finalizeModule res, None))
  | key :: rest =>
      if canceled c i then io_ret (d, (finalizeModule res, Some CtxErr)) else
      match AtfDataset.Get (expected c) key with
      | None => get_loop c (S i) rest res d
      | Some snap =>
          let! (d, r) := DbRead.Get key d in
          get_loop c (S i) rest (judge_get key snap r (count_key res)) d
      end
  end.

Definition GetVerifier (c : VerificationContext) (d : DB) : io outcome :=
  get_loop c 0 (AtfDataset.Keys (expected c)) (emptyModuleResult getVerifierName) d.

(** ** range.go *)

Definition rangeScanVerifierName : string := "range_scan_verifier".

(** One position of a scan, [prev] the last key that was accepted there; the copy of the
    empty key is nil. *)
Definition judge_range (m : AtfDataset.MapExpectedState) (got : bytes * bytes) (want : bytes) (prev : option bytes) (res : ModuleResult)
  : ModuleResult * option bytes :=
  let '(k, v) := got in
  if negb (bool_decide (k = want)) then
    (add_failure (newFailure rangeScanVerifierName k (Bytes want) (Bytes k) "range_key_mismatch"
       "Scan key does not match oracle ordering") res, prev)
  else
    match AtfDataset.Get m k with
    | Some (AtfDataset.mkSnapshot value false _) =>
        if negb (bool_decide (v = value)) then
          (add_failure (newFailure rangeScanVerifierName k (Bytes value) (Bytes v) "value_mismatch" "Scan value mismatch") res, prev)
        else
          (check (match prev with Some p => bytes_ltb p k | None => true end)
             (newFailure rangeScanVerifierName k (Text "ascending order") (Bytes (default [] prev)) "ordering_violation"
                "Scan keys are not ordered") res, match k with [] => None | _ => Some k end)
    | _ => (add_failure (newFailure rangeScanVerifierName k (Text "live oracle value") (Text "missing/tombstone") "unexpected_key"
              "Scan returned non-live key") res, prev)
    end.

Fixpoint range_loop (c : VerificationContext) (i : nat) (got : list (bytes * bytes)) (want : list bytes) (prev : option bytes)
    (res : ModuleResult) : ModuleResult * option verify_error :=
  match got, want with
  | g :: got', w :: want' =>
      if canceled c i then (res, Some CtxErr) else
      let '(res, prev) := judge_range (expected c) g w prev (count_key res) in
      range_loop c (S i) got' want' prev res
  | _, _ => (res, None)
  end.

(** The check of the first and the last key. *)
Definition range_ends (got : list (bytes * bytes)) (want : list bytes) (res : ModuleResult) : ModuleResult :=
  match got, want with
  | [], [] => pass_check res
  | g :: _, w :: _ =>
      if bool_decide (g.1 = w) && bool_decide (fst <$> last got = last want) then pass_check res else res
  | _, _ => res
  end.

Definition verifyRange (c : VerificationContext) (start end_ : bytes) (want : list bytes) (label : string) (res : ModuleResult) (d : DB)
  : io (DB * (ModuleResult * option verify_error)) :=
  let! (d, r) := DbRead.Scan start end_ d in
  match r with
  | inr e => io_ret (d, (res, Some (ScanErr label e)))
  | inl it =>
      let res := count_scan res in
      let! r := collectLiveScan (walk c) it in
      let '(res, err) :=
        match r with
        | inr e => (res, Some (DbErr e))
        | inl got =>
            let res := if zlen got =? zlen want then res
              else add_failure (newFailure rangeScanVerifierName (AtfDataset.to_bytes label) (Number (zlen want)) (Number (zlen got))
                     "range_count_mismatch" "Scan returned unexpected key count") res in
            let '(res, err) := range_loop c 0 got want None res in
            match err with Some e => (res, Some e) | None => (range_ends got want res, None) end
        end in
      let! (d, _) := sc_Close it d in
      io_ret (d, (res, err))
  end.

(** Run the scans in turn; the first error ends the module. *)
Fixpoint range_scans (c : VerificationContext) (scans : list (bytes * bytes * list bytes * string)) (res : ModuleResult) (d : DB) : io outcome :=
  match scans with
  | [] => io_ret (d, (finalizeModule res, None))
  | (start, end_, want, label) :: rest =>
      let! (d, (res, err)) := verifyRange c start end_ want label res d in
      match err with
      | Some e => io_ret (d, (finalizeModule res, Some e))
      | None => range_scans c rest res d
      end
  end.

Definition range_plan (m : AtfDataset.MapExpectedState) : list (bytes * bytes * list bytes * string) :=
  let live := AtfDataset.LiveKeys m in
  let prefix := AtfDataset.to_bytes "key_" in
  [([], [], live, "full_scan"%string)] ++
  (if 2 <=? zlen live then
     let mid := nth (length live / 2) live [] in
     let end_ := List.last live [] in
     [(mid, end_, expectedInRange m mid end_, "partial_scan"%string); (mid, [], expectedInRange m mid [], "tail_scan"%string)]
   else []) ++
  [(prefix, nextPrefixBound prefix, expectedInRange m prefix (nextPrefixBound prefix), "prefix_scan"%string)].

Definition RangeScanVerifier (c : VerificationContext) (d : DB) : io outcome :=
  range_scans c (range_plan (expected c)) (emptyModuleResult rangeScanVerifierName) d.

(** ** iterator.go *)

Definition iteratorVerifierName : string := "iterator_verifier".

Definition iter_failure (key : bytes) (e r : shown) (reason explanation : string) : Failure :=
  newFailure iteratorVerifierName key e r reason explanation.

(** What the forward loop keeps: the keys in the order of the visits, and the last one. *)
Record forward := mkForward { fw_seen : gset bytes; fw_prev : option bytes; gotKeys : list bytes; fw_res : ModuleResult }.

(** The checks of one position. *)
Definition judge_forward (m : AtfDataset.MapExpectedState) (k v : bytes) (st : forward) : forward :=
  let res := count_key (fw_res st) in
  let res := if decide (k ∈ fw_seen st)
    then add_failure (iter_failure k (Text "unique key") (Text "duplicate") "duplicate_key"
           "Forward iterator emitted the same key more than once") res else res in
  let res := match fw_prev st with
    | Some p => if bytes_ltb p k then res
        else add_failure (iter_failure k (Text "strictly ascending order") (Bytes p) "ordering_violation"
               "Forward iterator keys are not in ascending order") res
    | None => res
    end in
  let res := match AtfDataset.Get m k with
    | Some (AtfDataset.mkSnapshot value false _) =>
        check (bool_decide (v = value)) (iter_failure k (Bytes value) (Bytes v) "value_mismatch" "Iterator value does not match oracle") res
    | _ => add_failure (iter_failure k (Text "live oracle key") (Text "unexpected or tombstone") "unexpected_key"
             "Iterator returned a key that is not a live oracle entry") res
    end in
  mkForward ({[k]} ∪ fw_seen st) (match k with [] => None | _ => Some k end) (gotKeys st ++ [k]) res.

Fixpoint forward_loop (c : VerificationContext) (fuel : nat) (it : ScanIterator) (st : forward) : io (forward * option verify_error) :=
  match fuel with
  | O => io_ret (st, None)
  | S fuel' =>
      if sc_Valid it then
        if canceled c fuel then io_ret (st, Some CtxErr) else
        let st := judge_forward (expected c) (sc_Key it) (sc_Value it) st in
        let! (it', e) := sc_Next it in
        match e with Some er => io_ret (st, Some (DbErr er)) | None => forward_loop c fuel' it' st end
      else io_ret (st, None)
  end.

(** Behind the loop: the counts, the keys not visited, the ends. *)
Definition judge_visited (live : list bytes) (st : forward) : ModuleResult :=
  let res := pass_check (fw_res st) in
  let res := if zlen (gotKeys st) =? zlen live then res
    else add_failure (iter_failure [] (Number (zlen live)) (Number (zlen (gotKeys st))) "key_count_mismatch"
           "Full-keyspace forward iteration count does not match oracle live keys") res in
  let res := fold_left (fun res key => if decide (key ∈ fw_seen st) then res
    else add_failure (iter_failure key (Text "present in forward scan") (Text "missing") "missing_key"
           "Live oracle key was not visited by the forward iterator") res) live res in
  match live, gotKeys st with
  | l :: _, g :: _ =>
      let res := check (bool_decide (g = l)) (iter_failure g (Bytes l) (Bytes g) "boundary_first"
        "First iterated key does not match first live oracle key") res in
      let gl := List.last (gotKeys st) [] in
      let ll := List.last live [] in
      check (bool_decide (gl = ll)) (iter_failure gl (Bytes ll) (Bytes gl) "boundary_last"
        "Last iterated key does not match last live oracle key") res
  | _, _ => res
  end.

(** [Seek] to the live keys, last first. *)
Fixpoint reverse_loop (c : VerificationContext) (rlive : list bytes) (i : nat) (it : ScanIterator) (res : ModuleResult)
  : io (ModuleResult * option verify_error) :=
  match rlive with
  | [] => io_ret (res, None)
  | want :: rest =>
      if canceled c i then io_ret (res, Some CtxErr) else
      let! (it, err) := sc_Seek want it in
      let res := match err with
        | Some e => add_failure (iter_failure want (Text "Seek succeeds") (ErrorText e) "seek_error"
                      "Seek failed while validating reverse key order") res
        | None =>
            if negb (sc_Valid it) then add_failure (iter_failure want (Text "Valid after Seek") (Text "invalid") "seek_invalid"
                      "Iterator not valid after Seek to live key (reverse check)") res
            else if bool_decide (sc_Key it = want) then count_key (pass_check res)
            else add_failure (iter_failure want (Bytes want) (Bytes (sc_Key it)) "seek_position"
                      "Seek did not position on the requested live key during reverse validation") res
        end in
      reverse_loop c rest (S i) it res
  end.

Definition reverse_pass (c : VerificationContext) (live : list bytes) (res : ModuleResult) (d : DB) : io outcome :=
  match live with
  | [] => io_ret (d, (finalizeModule res, None))
  | _ =>
      let! (d, r) := DbRead.Scan [] [] d in
      match r with
      | inr e => io_ret (d, (finalizeModule res, Some (ScanErr "reverse scan" e)))
      | inl rv =>
          let! (res, err) := reverse_loop c (rev live) 0 rv (count_scan res) in
          let! (d, _) := sc_Close rv d in
          io_ret (d, (finalizeModule res, err))
      end
  end.

(** The first iterator stays open until the module returns. *)
Definition IteratorVerifier (c : VerificationContext) (d : DB) : io outcome :=
  let live := AtfDataset.LiveKeys (expected c) in
  let res := emptyModuleResult iteratorVerifierName in
  let! (d, r) := DbRead.Scan [] [] d in
  match r with
  | inr e => io_ret (d, (finalizeModule res, Some (ScanErr "scan" e)))
  | inl it =>
      let! (st, err) := forward_loop c (walk c) it (mkForward ∅ None [] (count_scan res)) in
      let! (d, out) := (match err with
        | Some e => io_ret (d, (finalizeModule (fw_res st), Some e))
        | None => reverse_pass c live (judge_visited live st) d
        end) in
      let! (d, _) := sc_Close it d in
      io_ret (d, out)
  end.

(** ** snapshot.go *)

Definition snapshotVerifierName : string := "snapshot_verifier".

Definition snap_failure (key : bytes) (e r : shown) (reason explanation : string) : Failure :=
  newFailure snapshotVerifierName key e r reason explanation.

(** The pairs of the two scans at the same index, then [Get] of the key. *)
Fixpoint snapshot_loop (c : VerificationContext) (i : nat) (s1 s2 : list (bytes * bytes)) (res : ModuleResult) (d : DB)
  : io (DB * (ModuleResult * option verify_error)) :=
  match s1, s2 with
  | (k1, v1) :: s1', (k2, v2) :: s2' =>
      if canceled c i then io_ret (d, (res, Some CtxErr)) else
      let res := count_key res in
      if negb (bool_decide (k1 = k2)) || negb (bool_decide (v1 = v2)) then
        snapshot_loop c (S i) s1' s2' (add_failure (snap_failure k1 (Pair (Bytes k2) (Bytes v2)) (Pair (Bytes k1) (Bytes v1))
          "snapshot_isolation" "Concurrent Scan snapshots disagree on key/value at the same index") res) d
      else
        let res := pass_check res in
        let! (d, r) := DbRead.Get k1 d in
        let res := match r with
          | inr e => add_failure (snap_failure k1 (Bytes v1) (ErrorText e) "get_scan_inconsistency"
                       "Get failed for a key present in the Scan snapshot") res
          | inl got => check (bool_decide (got = v1)) (snap_failure k1 (Bytes v1) (Bytes got) "get_scan_inconsistency"
                       "Get value differs from Scan snapshot value") res
          end in
        snapshot_loop c (S i) s1' s2' res d
  | _, _ => io_ret (d, (res, None))
  end.

(** A tombstone visible in the scan, once for every occurrence. *)
Definition judge_tombstones (m : AtfDataset.MapExpectedState) (keys1 : list bytes) (res : ModuleResult) : ModuleResult :=
  fold_left (fun res key =>
    match AtfDataset.Get m key with
    | Some (AtfDataset.mkSnapshot _ true _) =>
        fold_left (fun res k => if decide (k = key)
          then add_failure (snap_failure key (Text "absent from snapshot") (Text "present") "tombstone_visible"
                 "Deleted key is visible inside a Scan snapshot") res else res) keys1 res
    | _ => res
    end) (AtfDataset.Keys m) res.

Definition snapshot_compare (c : VerificationContext) (s1 s2 : list (bytes * bytes)) (res : ModuleResult) (d : DB) : io outcome :=
  let live := AtfDataset.LiveKeys (expected c) in
  let res := if zlen s1 =? zlen s2 then res
    else add_failure (snap_failure [] (Number (zlen s1)) (Number (zlen s2)) "snapshot_divergence"
           "Two concurrent Scan snapshots returned different key counts") res in
  let! (d, (res, err)) := snapshot_loop c 0 s1 s2 res d in
  match err with
  | Some e => io_ret (d, (finalizeModule res, Some e))
  | None =>
      let res := judge_tombstones (expected c) (fst <$> s1) res in
      let res := check (zlen s1 =? zlen live) (snap_failure [] (Number (zlen live)) (Number (zlen s1)) "snapshot_count"
        "Scan snapshot live key count does not match oracle") res in
      io_ret (d, (finalizeModule res, None))
  end.

Definition SnapshotVerifier (c : VerificationContext) (d : DB) : io outcome :=
  let res := emptyModuleResult snapshotVerifierName in
  let! (d, r1) := DbRead.Scan [] [] d in
  match r1 with
  | inr e => io_ret (d, (finalizeModule res, Some (ScanErr "scan1" e)))
  | inl it1 =>
      let res := count_scan res in
      let! (d, r2) := DbRead.Scan [] [] d in
      let! (d, out) := (match r2 with
        | inr e => io_ret (d, (finalizeModule res, Some (ScanErr "scan2" e)))
        | inl it2 =>
            let res := count_scan res in
            let! c1 := collectLiveScan (walk c) it1 in
            let! (d, out) := (match c1 with
              | inr e => io_ret (d, (finalizeModule res, Some (DbErr e)))
              | inl s1 =>
                  let! c2 := collectLiveScan (walk c) it2 in
                  match c2 with
                  | inr e => io_ret (d, (finalizeModule res, Some (DbErr e)))
                  | inl s2 => snapshot_compare c s1 s2 res d
                  end
              end) in
            let! (d, _) := sc_Close it2 d in
            io_ret (d, out)
        end) in
      let! (d, _) := sc_Close it1 d in
      io_ret (d, out)
  end.

(** ** metadata.go *)

Definition metadataVerifierName : string := "metadata_verifier".

Definition meta_failure (e r : shown) (reason explanation : string) : Failure :=
  newFailure metadataVerifierName [] e r reason explanation.

(** [metadataCountLive]: as many as were counted when an error occurs. *)
Fixpoint count_loop (c : VerificationContext) (fuel : nat) (it : ScanIterator) (n : Z) : io (Z * option verify_error) :=
  match fuel with
  | O => io_ret (n, None)
  | S fuel' =>
      if sc_Valid it then
        if canceled c fuel then io_ret (n, Some CtxErr) else
        let! (it', e) := sc_Next it in
        match e with Some er => io_ret (n + 1, Some (DbErr er)) | None => count_loop c fuel' it' (n + 1) end
      else io_ret (n, None)
  end.

Definition metadataCountLive (c : VerificationContext) (d : DB) : io (DB * (Z * option verify_error)) :=
  let! (d, r) := DbRead.Scan [] [] d in
  match r with
  | inr e => io_ret (d, (0, Some (ScanErr "scan" e)))
  | inl it =>
      let! out := count_loop c (walk c) it 0 in
      let! (d, _) := sc_Close it d in
      io_ret (d, out)
  end.

Definition expected_stats (m : AtfDataset.MapExpectedState) (recovered : Z) : Statistics :=
  mkStats (AtfDataset.LiveCount m) (countTombstones m) recovered (AtfDataset.Seed m) (AtfDataset.Count m).

(** The checks that need no scan. *)
Definition judge_metadata (m : AtfDataset.MapExpectedState) (bg : option error) (res : ModuleResult) : ModuleResult :=
  let res := match bg with
    | Some e => add_failure (mkFailure metadataVerifierName [] (Text "nil background error") (ErrorText e) "background_error"
                  SeverityError PhaseDatabaseOpen "Recovered database reported a background flush/compaction/WAL error") res
    | None => pass_check res
    end in
  let res := check (0 <? AtfDataset.SchemaVersion m) (meta_failure (Text "schema_version > 0") (Number (AtfDataset.SchemaVersion m))
    "bad_oracle_schema" "Oracle schema version is missing or invalid") res in
  let total := Z.of_nat (size (AtfDataset.State m)) in
  check (AtfDataset.LiveCount m + countTombstones m =? total)
    (meta_failure (Number total) (Pair (Number (AtfDataset.LiveCount m)) (Number (countTombstones m))) "oracle_partition_mismatch"
       "Oracle live and tombstone partitions do not sum to the total key count") res.

(** The report is written to as well. *)
Definition MetadataVerifier (c : VerificationContext) (report : VerificationReport) (d : DB) : io (VerificationReport * outcome) :=
  let m := expected c in
  let bg := BackgroundError d in
  let report := mkReport (r_ScenarioID report) (r_ExecutionID report) (r_Passed report) (ModuleResults report) (r_PassedChecks report)
    (r_FailedChecks report) (mkMeta true (match bg with Some e => Some e | None => BackgroundErr (r_Meta report) end) true)
    (expected_stats m 0) (RecoveredStatistics report) (FailureSummary report) (r_Aborted report) (AbortReason report) in
  let res := judge_metadata m bg (emptyModuleResult metadataVerifierName) in
  let! (d, (n, err)) := metadataCountLive c d in
  match err with
  | Some e => io_ret (report, (d, (finalizeModule res, Some e)))
  | None =>
      let report := mkReport (r_ScenarioID report) (r_ExecutionID report) (r_Passed report) (ModuleResults report) (r_PassedChecks report)
        (r_FailedChecks report) (r_Meta report) (ExpectedStatistics report) (expected_stats m n) (FailureSummary report)
        (r_Aborted report) (AbortReason report) in
      let res := check (n =? AtfDataset.LiveCount m) (meta_failure (Number (AtfDataset.LiveCount m)) (Number n) "live_count_mismatch"
        "Recovered live-key count does not match the oracle after recovery") res in
      let! (d, r) := DbRead.Get [] d in
      let res := match r with
        | inr ErrNotFound => pass_check res
        | inl _ => add_failure (meta_failure (Text "ErrNotFound for empty key") (Text "value returned") "unexpected_empty_key"
                     "Empty key unexpectedly resolved to a value after recovery") res
        | inr e => add_failure (meta_failure (Text "ErrNotFound for empty key") (ErrorText e) "empty_key_error"
                     "Empty-key lookup returned an unexpected error") res
        end in
      io_ret (report, (d, (finalizeModule res, None)))
  end.

(** ** structural.go *)

Definition walFlushStateFileName : string := "wal.flush".
Definition walLogFileName : string := "wal.log".

(** The tables of the directory with their sizes; subdirectories are not in the listing. *)
Fixpoint disk_loop (names : list string) (acc : gmap Z Z) : io (gmap Z Z) :=
  match names with
  | [] => io_ret acc
  | name :: rest =>
      match GoStr.sstFilePattern name ≫= GoStr.ParseUint with
      | None => disk_loop rest acc
      | Some id => let! n := fs_size name in disk_loop rest (<[id := n]> acc)
      end
  end.

Definition diskSSTables : io (gmap Z Z) := let! names := fs_list in disk_loop names ∅.

Inductive manifest_error := CurrentUnreadable (e : error) | CurrentEmpty | ManifestMissing (name : string) (e : error) | ReplayFailed (name : string) (e : error).

(** The live IDs, and whether there is a manifest. *)
Definition manifestLiveIDs : io ((list Z * bool) + manifest_error) :=
  let! r := try (fs_read Manifest.currentFileName) in
  match r with
  | inr os_ErrNotExist => io_ret (inl ([], false))
  | inr e => io_ret (inr (CurrentUnreadable e))
  | inl data =>
      let name := GoStr.TrimSpace (String.string_of_list_byte data) in
      if decide (name = ""%string) then io_ret (inr CurrentEmpty) else
      let! r := try (fs_size name) in
      match r with
      | inr e => io_ret (inr (ManifestMissing name e))
      | inl _ =>
          let! r := try (Manifest.ReplayFile name) in
          match r with
          | inr e => io_ret (inr (ReplayFailed name e))
          | inl ids => io_ret (inl (ids, true))
          end
      end
  end.

Definition sst_text (id : Z) : shown := Text (GoStr.sstFilePath id).

(** The directory is read, not the handle; the order of the orphans is that of a map. *)
Definition judge_directory (onDisk : gmap Z Z) (liveIDs : list Z) (hasManifest : bool) (res : ModuleResult) : ModuleResult :=
  let res := fold_left (fun res id => check (bool_decide (is_Some (onDisk !! id)))
    (structFailure "directory_audit" (sst_text id) (Text "missing") "missing_live_sst"
       "Manifest references a live SSTable that is not present on disk") res) liveIDs res in
  let res := fold_left (fun res id => check (bool_decide (id ∈ liveIDs))
    (structFailure "directory_audit" (sst_text id) (Text "present in live dir") "orphan_sst"
       "On-disk SSTable is not in the manifest live set and was not quarantined") res) (map_to_list onDisk).*1 res in
  check (hasManifest || (Z.of_nat (size onDisk) =? 0))
    (structFailure "directory_audit" (Text "manifest present") (Text "no CURRENT/manifest") "no_manifest"
       "SSTables exist on disk but there is no manifest to describe the live set") res.

Definition DirectoryAudit : io (ModuleResult * option verify_error) :=
  let res := emptyModuleResult "directory_audit" in
  let! r := try diskSSTables in
  match r with
  | inr e => io_ret (finalizeModule res, Some (DbErr e))
  | inl onDisk =>
      let! r := manifestLiveIDs in
      match r with
      | inr e => io_ret (finalizeModule (add_failure (structFailure "directory_audit" (Text "readable manifest") (Text "error")
                   "manifest_unreadable" "Manifest CURRENT/MANIFEST could not be resolved after recovery") res), None)
      | inl (liveIDs, hasManifest) => io_ret (finalizeModule (judge_directory onDisk liveIDs hasManifest res), None)
      end
  end.

(** [sort.SliceIsSorted]: no element is less than the one before it. *)
Fixpoint slice_is_sorted (l : list Z) : bool :=
  match l with
  | a :: rest => match rest with b :: _ => negb (b <? a) | [] => true end && slice_is_sorted rest
  | [] => true
  end.

Fixpoint manifest_loop (ids : list Z) (seen : gset Z) (res : ModuleResult) : io ModuleResult :=
  match ids with
  | [] => io_ret res
  | id :: rest =>
      if decide (id ∈ seen) then
        manifest_loop rest seen (add_failure (structFailure "manifest_audit" (Number id) (Text "duplicate") "duplicate_live_id"
          "Manifest live set contains a duplicate SSTable ID") res)
      else
        let! r := try (fs_size (GoStr.sstFilePath id)) in
        let res := match r with
          | inr e => add_failure (structFailure "manifest_audit" (sst_text id) (ErrorText e) "live_sst_stat_failed"
                       "A live SSTable could not be stat'd") res
          | inl n => check (negb (n =? 0)) (structFailure "manifest_audit" (sst_text id) (Text "0 bytes") "empty_live_sst"
                       "A live SSTable file is empty") res
          end in
        manifest_loop rest ({[id]} ∪ seen) res
  end.

Definition ManifestAudit : io (ModuleResult * option verify_error) :=
  let res := emptyModuleResult "manifest_audit" in
  let! r := manifestLiveIDs in
  match r with
  | inr e => io_ret (finalizeModule (add_failure (structFailure "manifest_audit" (Text "replayable manifest") (Text "error")
               "manifest_corrupt" "Manifest failed to replay after recovery") res), None)
  | inl (liveIDs, hasManifest) =>
      if negb hasManifest then io_ret (finalizeModule (pass_check res), None)
      else
        let res := check (slice_is_sorted liveIDs) (structFailure "manifest_audit" (Text "ascending live IDs") (Numbers liveIDs)
          "unsorted_live_set" "Manifest live IDs are not in ascending order") res in
        let! res := manifest_loop liveIDs ∅ res in
        io_ret (finalizeModule res, None)
  end.

Definition CheckpointAudit : io (ModuleResult * option verify_error) :=
  let res := emptyModuleResult "checkpoint_audit" in
  let! r := try (fs_read walFlushStateFileName) in
  match r with
  | inr os_ErrNotExist => io_ret (finalizeModule (pass_check res), None)
  | inr e => io_ret (finalizeModule res, Some (DbErr e))
  | inl data =>
      if negb (zlen data =? 16) then
        io_ret (finalizeModule (add_failure (structFailure "checkpoint_audit" (Text "16-byte checkpoint") (Number (zlen data))
          "corrupt_checkpoint" "wal.flush checkpoint is not exactly 16 bytes") res), None)
      else
        let freezeOffset := int64 (get_u64 data) in
        let sstID := get_u64 (drop 8 data) in
        let res := check (0 <=? freezeOffset) (structFailure "checkpoint_audit" (Text "non-negative freeze offset") (Number freezeOffset)
          "bad_freeze_offset" "wal.flush checkpoint has a negative freeze offset") res in
        let! r := manifestLiveIDs in
        match r with
        | inr _ | inl (_, false) => io_ret (finalizeModule res, None)
        | inl (liveIDs, true) =>
            let res := check (bool_decide (sstID ∈ liveIDs)) (mkFailure "checkpoint_audit" [] (Text "checkpoint SST in manifest") (Number sstID)
              "checkpoint_sst_not_live" SeverityWarning PhaseVerify
              "wal.flush references an SSTable absent from the live set (recovery falls back to full WAL replay)") res in
            let! r := try (fs_size walLogFileName) in
            let res := match r with inl _ => pass_check res | inr _ => res end in
            io_ret (finalizeModule res, None)
        end
  end.

(** ** The modules by name *)

Inductive Verifier :=
  | metadata_module | get_module | iterator_module | range_module | snapshot_module
  | directory_module | manifest_module | checkpoint_module.

Definition module_Name (v : Verifier) : string :=
  match v with
  | metadata_module => metadataVerifierName
  | get_module => getVerifierName
  | iterator_module => iteratorVerifierName
  | range_module => rangeScanVerifierName
  | snapshot_module => snapshotVerifierName
  | directory_module => "directory_audit"
  | manifest_module => "manifest_audit"
  | checkpoint_module => "checkpoint_audit"
  end.

Definition module_Verify (v : Verifier) (c : VerificationContext) (report : VerificationReport) (d : DB) : io (VerificationReport * outcome) :=
  match v with
  | metadata_module => MetadataVerifier c report d
  | get_module => let! o := GetVerifier c d in io_ret (report, o)
  | iterator_module => let! o := IteratorVerifier c d in io_ret (report, o)
  | range_module => let! o := RangeScanVerifier c d in io_ret (report, o)
  | snapshot_module => let! o := SnapshotVerifier c d in io_ret (report, o)
  | directory_module => let! o := DirectoryAudit in io_ret (report, (d, o))
  | manifest_module => let! o := ManifestAudit in io_ret (report, (d, o))
  | checkpoint_module => let! o := CheckpointAudit in io_ret (report, (d, o))
  end.

End AtfVerify.
