(* ===== verification/AtfVerifySpec.v ===== *)
(** What the verdicts of the Get verifier and of the range-scan verifier mean
    (internal/db/acceptance/framework/verifier: get.go, range.go, helpers.go,
    structural.go, over the definitions of AtfVerify.v): without faults they pass
    exactly on the databases that agree with the expected state. *)

From Stdlib Require Import ZArith Lia.
From stdpp Require Import sorting.
From S2P Require Import Prelude Word Fs GoStr Memtable Wal Manifest SstFormat SstWriter SstReader MergeIter.
From S2P Require Import SstMerge DbState DbFlush DbWrite DbRead DbScan DbInv Demo AtfDataset AtfVerify.

Module AtfVerifySpec.
Import Db DbRead DbScan AtfVerify.

(** * The expected state *)

Notation oracle_of c := (AtfDataset.oracle (AtfDataset.State (expected c))).

Lemma oracle_live m k v : AtfDataset.oracle (AtfDataset.State m) !! k = Some (Some v) <->
  exists s, AtfDataset.Get m k = Some s /\ AtfDataset.vs_Tombstone s = false /\ AtfDataset.vs_Value s = v.
Proof.
  unfold AtfDataset.oracle, AtfDataset.Get, AtfDataset.oracle_cell. rewrite lookup_fmap_Some. split.
  - intros (s & E & Hs). exists s. destruct (AtfDataset.vs_Tombstone s); [done|]. by injection E.
  - intros (s & Hs & E & <-). exists s. by rewrite E.
Qed.

Lemma sort_keys_sorted l : NoDup l -> StronglySorted blt (AtfDataset.sort_keys l).
Proof.
  intros H. apply le_sorted_lt; [|apply Sorted_merge_sort; apply _].
  unfold AtfDataset.sort_keys. by rewrite merge_sort_Permutation.
Qed.

Lemma elem_of_sort_keys k l : k ∈ AtfDataset.sort_keys l <-> k ∈ l.
Proof. unfold AtfDataset.sort_keys. by rewrite merge_sort_Permutation. Qed.

Lemma elem_of_Keys m k : k ∈ AtfDataset.Keys m <-> is_Some (AtfDataset.Get m k).
Proof.
  unfold AtfDataset.Keys, AtfDataset.Get. rewrite elem_of_sort_keys, list_elem_of_fmap. split.
  - intros ([k' s] & -> & H). apply elem_of_map_to_list in H. by exists s.
  - intros [s H]. exists (k, s). split; [done|]. by apply elem_of_map_to_list.
Qed.

Lemma elem_of_LiveKeys m k : k ∈ AtfDataset.LiveKeys m <-> exists v, AtfDataset.oracle (AtfDataset.State m) !! k = Some (Some v).
Proof.
  unfold AtfDataset.LiveKeys. rewrite elem_of_sort_keys, list_elem_of_fmap. setoid_rewrite oracle_live. split.
  - intros ([k' s] & -> & H). apply list_elem_of_filter in H as [Hl H%elem_of_map_to_list]. by exists (AtfDataset.vs_Value s), s.
  - intros (v & s & H & Hl & _). exists (k, s). split; [done|]. apply list_elem_of_filter. by rewrite elem_of_map_to_list.
Qed.

Lemma LiveKeys_sorted m : StronglySorted blt (AtfDataset.LiveKeys m).
Proof.
  apply sort_keys_sorted. eapply (sublist_NoDup _ (map_to_list (AtfDataset.State m)).*1); [apply NoDup_fst_map_to_list|].
  apply fmap_sublist, sublist_filter.
Qed.

(** The keys of a range. *)
Definition inside (start end_ k : bytes) : Prop := ~ blt k start /\ (end_ = [] \/ blt k end_).

Lemma elem_of_expectedInRange m start end_ k : k ∈ expectedInRange m start end_ <->
  inside start end_ k /\ exists v, AtfDataset.oracle (AtfDataset.State m) !! k = Some (Some v).
Proof.
  unfold expectedInRange, inside. rewrite list_elem_of_filter, elem_of_LiveKeys.
  assert (H1 : ~ (start <> [] /\ blt k start) <-> ~ blt k start).
  { split; [|tauto]. intros H Hb. apply H. split; [|done]. intros ->. by apply not_blt_nil in Hb. }
  assert (H2 : ~ (end_ <> [] /\ ~ blt k end_) <-> end_ = [] \/ blt k end_).
  { split; [|tauto]. intros H. destruct (decide (end_ = [])), (decide (blt k end_)); tauto. }
  rewrite H1, H2. tauto.
Qed.

(** * Verdicts *)

Definition clean (m : ModuleResult) : Prop := Failures m = [].

Lemma finalizeModule_passes res : m_Passed res = true -> m_Passed (finalizeModule res) = true <-> clean res.
Proof.
  unfold finalizeModule, clean, zlen. cbn. intros ->. destruct (Failures res); cbn; [done|].
  by rewrite (proj2 (Z.ltb_lt _ _)) by lia.
Qed.

Lemma add_failure_clean f res : clean (add_failure f res) <-> False.
Proof. unfold clean. cbn. split; [|done]. intros H. by apply app_eq_nil in H as [_ ?]. Qed.

Lemma check_clean ok f res : clean (check ok f res) <-> clean res /\ ok = true.
Proof. destruct ok; cbn [check]; [unfold clean; cbn; tauto|]. rewrite add_failure_clean. naive_solver. Qed.

Lemma check_Passed ok f res : m_Passed (check ok f res) = m_Passed res.
Proof. by destruct ok. Qed.

(** ** get.go *)

Definition expected_answer (s : AtfDataset.ValueSnapshot) : bytes + error :=
  if AtfDataset.vs_Tombstone s then inr ErrNotFound else inl (AtfDataset.vs_Value s).

Lemma judge_get_clean key s r res : clean (judge_get key s r res) <-> clean res /\ r = expected_answer s.
Proof.
  unfold judge_get, expected_answer. destruct (AtfDataset.vs_Tombstone s), r as [v|e]; try destruct e;
    repeat case_decide; rewrite ?add_failure_clean; try (unfold clean; cbn); naive_solver.
Qed.

Lemma judge_get_Passed key s r res : m_Passed (judge_get key s r res) = m_Passed res.
Proof. unfold judge_get. destruct (AtfDataset.vs_Tombstone s), r as [v|e]; try destruct e; try case_decide; reflexivity. Qed.

Lemma judge_get_keys key s r res : KeysVerified (judge_get key s r res) = KeysVerified res.
Proof. unfold judge_get. destruct (AtfDataset.vs_Tombstone s), r as [v|e]; try destruct e; try case_decide; reflexivity. Qed.

Lemma get_loop_quiet c d f tables : readable d f tables -> closed d = false -> (forall i, canceled c i = false) ->
  forall keys i res, Forall (fun k => is_Some (AtfDataset.Get (expected c) k)) keys -> m_Passed res = true ->
  exists res', get_loop c i keys res d (mkWorld f []) = (Ok (d, (finalizeModule res', None)), mkWorld f []) /\
    m_Passed res' = true /\ KeysVerified res' = KeysVerified res + zlen keys /\
    (clean res' <-> clean res /\ forall k s, k ∈ keys -> AtfDataset.Get (expected c) k = Some s ->
       get_answer (DbWrite.memory_layer d !! k) (disk_layer tables !! k) = expected_answer s).
Proof.
  intros Hr Hc Hctx. induction keys as [|k keys IH]; intros i res Hk Hp; cbn [get_loop].
  { exists res. repeat split; [done|unfold zlen; cbn; lia|done| |tauto]. by intros k s Hk'%elem_of_nil. }
  apply Forall_cons in Hk as [[s Hs] Hk]. rewrite Hctx, Hs, (io_bind_ok _ _ _ _ _ (Get_quiet d f tables k Hr Hc)).
  set (r := get_answer _ _).
  destruct (IH (S i) (judge_get k s r (count_key res)) Hk) as (res' & E & Hp' & Hn & Hcl); [by rewrite judge_get_Passed|].
  exists res'. split; [exact E|]. split; [done|]. split.
  - rewrite Hn, judge_get_keys. unfold zlen. cbn [KeysVerified count_key length]. lia.
  - rewrite Hcl, judge_get_clean. change (clean (count_key res)) with (clean res). split.
    + intros [[H1 H2] H3]. split; [done|]. intros k' s' [->|Hin]%elem_of_cons Hs'; [|by apply H3].
      rewrite Hs in Hs'. by injection Hs' as <-.
    + intros [H1 H2]. split; [split; [done|apply (H2 k s); [left|done]]|]. intros k' s' Hin. apply H2. by right.
Qed.

(** Without empty values on disk [Get] answers with the contents. *)
Lemma get_answer_contents d tables k s : disk_layer tables !! k <> Some (Some []) ->
  get_answer (DbWrite.memory_layer d !! k) (disk_layer tables !! k) = expected_answer s <->
  mjoin (contents d tables !! k) = AtfDataset.oracle_cell s.
Proof.
  intros Hd. unfold contents, expected_answer, AtfDataset.oracle_cell. rewrite lookup_union.
  destruct (DbWrite.memory_layer d !! k) as [[v|]|], (disk_layer tables !! k) as [[w|]|], (AtfDataset.vs_Tombstone s); cbn;
    try case_bool_decide; naive_solver.
Qed.

(** the Get verifier decides agreement.  On a readable open database, with no faults and
    no cancellation, it looks up every key of the expected state, leaves the database as it
    is, returns no error, and passes exactly when each expected key has its expected value,
    or is absent where a deletion is expected.  (Tables that hold an empty value are left
    out: [Get] takes it for absence.) *)
Theorem get_verifier_exact c d f tables : readable d f tables -> closed d = false -> (forall i, canceled c i = false) ->
  (forall k, disk_layer tables !! k <> Some (Some [])) ->
  exists res, GetVerifier c d (mkWorld f []) = (Ok (d, (res, None)), mkWorld f []) /\
    KeysVerified res = Z.of_nat (size (AtfDataset.State (expected c))) /\
    (m_Passed res = true <-> forall k s, AtfDataset.State (expected c) !! k = Some s ->
       mjoin (contents d tables !! k) = AtfDataset.oracle_cell s).
Proof.
  intros Hr Hc Hctx Hd.
  destruct (get_loop_quiet c d f tables Hr Hc Hctx (AtfDataset.Keys (expected c)) 0 (emptyModuleResult getVerifierName))
    as (res & E & Hp & Hn & Hcl); [|done|].
  { apply Forall_forall. intros k. by rewrite elem_of_Keys. }
  exists (finalizeModule res). split; [exact E|]. split.
  - cbn [KeysVerified finalizeModule]. rewrite Hn. unfold AtfDataset.Keys, AtfDataset.sort_keys, zlen.
    by rewrite merge_sort_Permutation, length_fmap, length_map_to_list.
  - rewrite finalizeModule_passes, Hcl by done. split.
    + intros [_ H] k s Hs. apply get_answer_contents; [done|]. apply H; [|done]. apply elem_of_Keys. by exists s.
    + intros H. split; [done|]. intros k s _ Hs. apply get_answer_contents; [done|]. by apply H.
Qed.

(** ** range.go *)

(** A position of a scan that agrees with the expected state. *)
Definition agrees (m : AtfDataset.MapExpectedState) (got : bytes * bytes) (want : bytes) : Prop :=
  got.1 = want /\ AtfDataset.oracle (AtfDataset.State m) !! got.1 = Some (Some got.2).

Lemma judge_range_clean m got want prev res : match prev with Some p => blt p got.1 | None => True end ->
  clean (judge_range m got want prev res).1 <-> clean res /\ agrees m got want.
Proof.
  destruct got as [k v]. intros Hprev. unfold judge_range, agrees. cbn [fst snd] in *. rewrite oracle_live.
  case_bool_decide; cbn [negb fst]; [|rewrite add_failure_clean; naive_solver].
  destruct (AtfDataset.Get m k) as [[value [] ver]|]; cbn [fst]; [rewrite add_failure_clean; naive_solver| |rewrite add_failure_clean; naive_solver].
  case_bool_decide; cbn [negb fst]; [|rewrite add_failure_clean; naive_solver].
  rewrite check_clean. destruct prev as [p|]; [rewrite bytes_ltb_spec|]; naive_solver.
Qed.

Lemma judge_range_rest m got want prev res : m_Passed (judge_range m got want prev res).1 = m_Passed res /\
  ((judge_range m got want prev res).2 = prev \/ (judge_range m got want prev res).2 = Some got.1 \/ (judge_range m got want prev res).2 = None).
Proof.
  destruct got as [k v]. unfold judge_range. case_bool_decide; cbn [negb]; [|split; [done|by left]].
  destruct (AtfDataset.Get m k) as [[value [] ver]|]; [split; [done|by left]| |split; [done|by left]].
  case_bool_decide; cbn [negb fst snd]; [|split; [done|by left]].
  rewrite check_Passed. split; [done|]. right. destruct k; [by right|by left].
Qed.

Lemma range_loop_quiet c : (forall i, canceled c i = false) -> forall got want i prev res, StronglySorted blt got.*1 ->
  match prev with Some p => Forall (blt p) got.*1 | None => True end ->
  exists res', range_loop c i got want prev res = (res', None) /\ m_Passed res' = m_Passed res /\ (clean res' -> clean res) /\
    (length got = length want -> clean res' <-> clean res /\ Forall2 (agrees (expected c)) got want).
Proof.
  intros Hctx. induction got as [|g got IH]; intros [|w want] i prev res Hs Hprev; cbn [range_loop];
    try (exists res; repeat split; try done; naive_solver).
  rewrite Hctx. apply StronglySorted_inv in Hs as [Hs Hlt].
  assert (Hg : match prev with Some p => blt p g.1 | None => True end).
  { destruct prev; [|done]. by apply Forall_cons in Hprev as [? _]. }
  pose proof (judge_range_clean (expected c) g w prev (count_key res) Hg) as Hcl.
  pose proof (judge_range_rest (expected c) g w prev (count_key res)) as [Hp Hpr].
  destruct (judge_range _ _ _ _ _) as [res1 prev1]. cbn [fst snd] in *.
  destruct (IH want (S i) prev1 res1 Hs) as (res' & E & Hp' & Hmono & Hag).
  { destruct Hpr as [-> |[-> | ->]]; [|done|done]. destruct prev; [|done]. by apply Forall_cons in Hprev as [_ ?]. }
  exists res'. split; [exact E|]. split; [by rewrite Hp', Hp|]. split; [by intros []%Hmono%Hcl|].
  intros Hl. cbn in Hl. rewrite Hag, Hcl, Forall2_cons by lia. change (clean (count_key res)) with (clean res). tauto.
Qed.

Lemma range_ends_clean got want res : clean (range_ends got want res) <-> clean res.
Proof. unfold range_ends. destruct got, want; try case_match; reflexivity. Qed.

Lemma range_ends_Passed got want res : m_Passed (range_ends got want res) = m_Passed res.
Proof. unfold range_ends. destruct got, want; try case_match; reflexivity. Qed.

Lemma sorted_NoDup (l : list bytes) : StronglySorted blt l -> NoDup l.
Proof.
  induction 1 as [|k l Hs IH Hf]; constructor; [|done]. intros Hk. rewrite Forall_forall in Hf.
  by apply Hf, blt_irrefl in Hk.
Qed.

(** The database and the expected state agree on a range. *)
Definition agree_on (d : DB) (tables : list (list (list entry))) (m : AtfDataset.MapExpectedState) (start end_ : bytes) : Prop :=
  forall k v, inside start end_ k -> contents d tables !! k = Some (Some v) <-> AtfDataset.oracle (AtfDataset.State m) !! k = Some (Some v).

(** A sorted list of all that is in the range agrees position by position exactly when the
    contents agree. *)
Lemma agrees_spec d tables m start end_ got want : StronglySorted blt got.*1 -> StronglySorted blt want ->
  (forall k v, (k, v) ∈ got <-> contents d tables !! k = Some (Some v) /\ inside start end_ k) ->
  (forall k, k ∈ want <-> inside start end_ k /\ exists v, AtfDataset.oracle (AtfDataset.State m) !! k = Some (Some v)) ->
  Forall2 (agrees m) got want <-> agree_on d tables m start end_.
Proof.
  intros Hsg Hsw Hg Hw. split.
  - intros HF k v Hin. split.
    + intros Hk. destruct (list_elem_of_lookup_1 got (k, v)) as [i Hi]; [by apply Hg|].
      by destruct (Forall2_lookup_l _ _ _ _ _ HF Hi) as (w & _ & _ & ?).
    + intros Hk. destruct (list_elem_of_lookup_1 want k) as [i Hi]; [apply Hw; eauto|].
      destruct (Forall2_lookup_r _ _ _ _ _ HF Hi) as ([k' v'] & Hi' & Hkk & Ho). cbn in Hkk, Ho. subst k'.
      rewrite Hk in Ho. injection Ho as <-. apply list_elem_of_lookup_2, Hg in Hi'. tauto.
  - intros H. assert (E : want = got.*1).
    { apply (StronglySorted_unique_strong blt); [|done|done|].
      - intros x1 x2 _ _ H1 H2. by destruct (blt_asym x1 x2).
      - apply NoDup_Permutation; [by apply sorted_NoDup|by apply sorted_NoDup|]. intros k. rewrite Hw, list_elem_of_fmap. split.
        + intros [Hin [v Hv]]. exists (k, v). split; [done|]. apply Hg. split; [by apply H|done].
        + intros ([k' v] & -> & [Hc Hin]%Hg). split; [done|]. exists v. by apply H. }
    rewrite E. apply Forall2_fmap_r, Forall_Forall2_diag, Forall_forall. intros [k v] [Hc Hin]%Hg. split; [done|].
    cbn. by apply H.
Qed.


Lemma readable_live d f tables : readable d f tables -> Forall (fun p => exists r, heap d !! p = Some r /\ live r) (sstables d).
Proof.
  intros [_ _ HF]. apply Forall_forall. intros p [i Hi]%list_elem_of_lookup.
  destruct (Forall2_lookup_l _ _ _ _ _ HF Hi) as (t & _ & r & ? & ? & _). by exists r.
Qed.

(** A database that can be scanned. *)
Definition scannable (d : DB) (f : fsys) (tables : list (list (list entry))) : Prop :=
  readable d f tables /\ few_layers d /\ closed d = false /\ Forall Merge.keys_nonempty (scan_sources d tables).

(** Scan a range: the entries the iterator is in front of, and its close. *)
Lemma scan_opened start end_ d f tables : scannable d f tables ->
  exists it, Scan start end_ d (mkWorld f []) = (Ok (ref_all (sstables d) d, inl it), mkWorld f []) /\
    Merge.m_rep (eq f) (sc_merge it) (scan_entries start d tables) /\ sc_closed it = false /\ sc_end it = end_ /\
    exists r, sc_Close it (ref_all (sstables d) d) (mkWorld f []) = (Ok (d, r), mkWorld f []).
Proof.
  intros (Hrd & Hfew & Hc & Hne).
  destruct (Scan_quiet start end_ d f tables Hrd Hfew Hc Hne) as (it & d' & Hscan & Hrep & He & Hcl & Hread & ->).
  exists it. repeat (split; [done|]). unfold sc_Close. rewrite Hcl, Hread. destruct (Merge.m_Close (sc_merge it)) as [m e].
  rewrite (io_bind_ok _ _ _ _ _ (unref_ref_all (sstables d) d (mkWorld f []) (readable_live _ _ _ Hrd))). by eexists.
Qed.

(** The pairs of a range, in order. *)
Definition scanned (start end_ : bytes) (d : DB) (tables : list (list (list entry))) : list (bytes * bytes) :=
  pairs (before end_ (scan_entries start d tables)).

Lemma scanned_spec start end_ d f tables : scannable d f tables ->
  StronglySorted blt (scanned start end_ d tables).*1 /\
  forall k v, (k, v) ∈ scanned start end_ d tables <-> contents d tables !! k = Some (Some v) /\ inside start end_ k.
Proof.
  intros Hsc. pose proof Hsc as (Hrd & Hfew & Hc & Hne).
  destruct (scan_range start end_ d f tables Hrd Hfew Hc Hne) as (it' & d'' & out & fuel & Hscan' & _ & Hwalk & Hs & Hspec).
  destruct (scan_opened start end_ d f tables Hsc) as (it & Hscan & Hrep & Hcl & He & _).
  rewrite Hscan in Hscan'. injection Hscan' as <- <-. specialize (Hwalk (S (length (scan_entries start d tables)))).
  rewrite (scan_walk_quiet f _ _ _ _ Hrep Hcl) in Hwalk by lia. rewrite He in Hwalk. injection Hwalk as <-. done.
Qed.

(** Scan a range, collect it and close the iterator. *)
Lemma scan_collected start end_ d f tables : scannable d f tables ->
  exists it, Scan start end_ d (mkWorld f []) = (Ok (ref_all (sstables d) d, inl it), mkWorld f []) /\
    (forall fuel, (length (scan_entries start d tables) < fuel)%nat ->
       collectLiveScan fuel it (mkWorld f []) = (Ok (inl (scanned start end_ d tables)), mkWorld f [])) /\
    exists r, sc_Close it (ref_all (sstables d) d) (mkWorld f []) = (Ok (d, r), mkWorld f []).
Proof.
  intros Hsc. destruct (scan_opened start end_ d f tables Hsc) as (it & Hscan & Hrep & Hcl & He & Hclose).
  exists it. split; [exact Hscan|]. split; [|exact Hclose]. intros fuel Hf. unfold collectLiveScan.
  rewrite (io_bind_ok _ _ _ _ _ (scan_walk_quiet f _ fuel it [] Hrep Hcl Hf)). by rewrite He.
Qed.

Lemma verifyRange_quiet c start end_ want label res d f tables : scannable d f tables -> (forall i, canceled c i = false) ->
  (length (scan_entries start d tables) < walk c)%nat -> StronglySorted blt want ->
  (forall k, k ∈ want <-> inside start end_ k /\ exists v, oracle_of c !! k = Some (Some v)) ->
  exists res', verifyRange c start end_ want label res d (mkWorld f []) = (Ok (d, (res', None)), mkWorld f []) /\
    m_Passed res' = m_Passed res /\ (clean res' <-> clean res /\ agree_on d tables (expected c) start end_).
Proof.
  intros Hsc Hctx Hw Hsw Hwant. destruct (scan_collected start end_ d f tables Hsc) as (it & E1 & E2 & [r E3]).
  destruct (scanned_spec start end_ d f tables Hsc) as [Hso Hout]. set (out := scanned start end_ d tables) in *.
  unfold verifyRange. rewrite (io_bind_ok _ _ _ _ _ E1), (io_bind_ok _ _ _ _ _ (E2 _ Hw)).
  set (res1 := if zlen out =? zlen want then _ else _).
  destruct (range_loop_quiet c Hctx out want 0 None res1 Hso I) as (res2 & E4 & Hp & Hmono & Hag). rewrite E4.
  cbv beta iota zeta. rewrite (io_bind_ok _ _ _ _ _ E3). eexists. split; [reflexivity|]. rewrite range_ends_Passed, range_ends_clean, Hp.
  rewrite <- (agrees_spec d tables (expected c) start end_ out want Hso Hsw Hout Hwant). subst res1.
  destruct (Z.eqb_spec (zlen out) (zlen want)) as [Hl|Hl].
  - split; [done|]. rewrite Hag by (unfold zlen in Hl; lia). by change (clean (count_scan res)) with (clean res).
  - split; [done|]. split; [by intros []%Hmono%add_failure_clean|]. intros [_ HF]. apply Forall2_length in HF. unfold zlen in Hl. lia.
Qed.

Lemma range_scans_quiet c d f tables : scannable d f tables -> (forall i, canceled c i = false) -> forall scans res,
  Forall (fun '(start, end_, want, label) => (length (scan_entries start d tables) < walk c)%nat /\ StronglySorted blt want /\
    forall k, k ∈ want <-> inside start end_ k /\ exists v, oracle_of c !! k = Some (Some v)) scans -> m_Passed res = true ->
  exists res', range_scans c scans res d (mkWorld f []) = (Ok (d, (finalizeModule res', None)), mkWorld f []) /\ m_Passed res' = true /\
    (clean res' <-> clean res /\ Forall (fun '(start, end_, _, _) => agree_on d tables (expected c) start end_) scans).
Proof.
  intros Hsc Hctx. induction scans as [|[[[start end_] want] label] scans IH]; intros res Hscans Hp; cbn [range_scans].
  { exists res. repeat split; naive_solver. }
  apply Forall_cons in Hscans as [(Hw & Hs & Hwant) Hscans].
  destruct (verifyRange_quiet c start end_ want label res d f tables Hsc Hctx Hw Hs Hwant) as (res1 & E & Hp1 & Hcl).
  rewrite (io_bind_ok _ _ _ _ _ E). destruct (IH res1 Hscans) as (res' & E' & Hp' & Hcl'); [congruence|].
  exists res'. split; [exact E'|]. split; [done|]. rewrite Hcl', Hcl, Forall_cons. tauto.
Qed.

(** The longest of the walks of the plan. *)
Definition longest_walk (d : DB) (tables : list (list (list entry))) (m : AtfDataset.MapExpectedState) : nat :=
  max_list ((fun s => length (scan_entries s.1.1.1 d tables)) <$> range_plan m).

Lemma expectedInRange_sorted m start end_ : StronglySorted blt (expectedInRange m start end_).
Proof.
  unfold expectedInRange. induction (LiveKeys_sorted m) as [|k l Hs IH Hf]; [constructor|].
  rewrite filter_cons. case_decide; [|done]. constructor; [done|]. apply Forall_forall. intros x [_ Hx]%list_elem_of_filter.
  by eapply Forall_forall in Hf.
Qed.

Lemma range_plan_ok c d tables : (longest_walk d tables (expected c) < walk c)%nat ->
  Forall (fun '(start, end_, want, label) => (length (scan_entries start d tables) < walk c)%nat /\ StronglySorted blt want /\
    forall k, k ∈ want <-> inside start end_ k /\ exists v, oracle_of c !! k = Some (Some v)) (range_plan (expected c)).
Proof.
  intros Hw. apply Forall_forall. intros [[[start end_] want] label] Hin. split.
  { eapply Nat.le_lt_trans; [|exact Hw]. apply max_list_elem_of_le, list_elem_of_fmap. by exists (start, end_, want, label). }
  assert (H : want = AtfDataset.LiveKeys (expected c) /\ start = [] /\ end_ = [] \/ want = expectedInRange (expected c) start end_).
  { unfold range_plan in Hin. rewrite !elem_of_app, !list_elem_of_singleton in Hin.
    destruct Hin as [[= -> -> -> ->]|[Hin|[= -> -> -> ->]]]; [by left| |by right].
    destruct (2 <=? _); [|by apply elem_of_nil in Hin]. rewrite !elem_of_cons, elem_of_nil in Hin.
    destruct Hin as [[= -> -> -> ->]|[[= -> -> -> ->]|[]]]; by right. }
  destruct H as [(-> & -> & ->)| ->].
  - split; [apply LiveKeys_sorted|]. intros k. rewrite elem_of_LiveKeys. unfold inside. pose proof (not_blt_nil k). naive_solver.
  - split; [apply expectedInRange_sorted|]. intros k. apply elem_of_expectedInRange.
Qed.

(** the range-scan verifier decides equality of the live contents.  On a database that
    can be scanned, with no faults and no cancellation, it returns no error, leaves the
    database as it is (every reader is released), and passes exactly when the live keys of
    the database with their values are the live entries of the expected state: nothing is
    missing, nothing is extra, nothing is changed. *)
Theorem range_verifier_exact c d f tables : scannable d f tables -> (forall i, canceled c i = false) ->
  (longest_walk d tables (expected c) < walk c)%nat ->
  exists res, RangeScanVerifier c d (mkWorld f []) = (Ok (d, (res, None)), mkWorld f []) /\
    (m_Passed res = true <-> forall k v, contents d tables !! k = Some (Some v) <-> oracle_of c !! k = Some (Some v)).
Proof.
  intros Hsc Hctx Hw.
  destruct (range_scans_quiet c d f tables Hsc Hctx _ (emptyModuleResult rangeScanVerifierName) (range_plan_ok c d tables Hw) eq_refl)
    as (res & E & Hp & Hcl).
  exists (finalizeModule res). split; [exact E|]. rewrite finalizeModule_passes, Hcl by done. split.
  - intros [_ H] k v. apply Forall_cons in H as [H _]. apply H. split; [apply not_blt_nil|by left].
  - intros H. split; [done|]. apply Forall_forall. intros [[[start end_] want] label] _ k v _. apply H.
Qed.

(** ** metadata.go *)

Lemma before_nil es : before [] es = es.
Proof. induction es as [|e es IH]; [done|]. cbn [before]. by rewrite IH. Qed.

Lemma count_loop_quiet c f es : (forall i, canceled c i = false) -> forall fuel it n, Merge.m_rep (eq f) (sc_merge it) es ->
  sc_closed it = false -> sc_end it = [] -> (length es < fuel)%nat ->
  count_loop c fuel it n (mkWorld f []) = (Ok (n + zlen es, None), mkWorld f []).
Proof.
  intros Hctx. induction es as [|e es IH]; intros fuel it n Hrep Hc He Hl; (destruct fuel as [|fuel]; [cbn in Hl; lia|]); cbn [count_loop].
  - destruct Hrep as (ls & _ & _ & Hv). unfold sc_Valid, Merge.m_Valid. rewrite Hc, Hv. cbn. by rewrite Z.add_0_r.
  - pose proof Hrep as (ls & _ & Herr & Hv & Hk & _).
    assert (Hvalid : sc_Valid it = true) by (unfold sc_Valid, Merge.m_Valid; by rewrite Hc, Hv, Herr, He).
    rewrite Hvalid, Hctx. destruct (Merge.m_Next_quiet (eq f) (sc_merge it) e es f eq_refl Hrep) as (m' & Hn & Hrep').
    erewrite io_bind_ok; [|unfold sc_Next; rewrite Hc; by rewrite (io_bind_ok _ _ _ _ _ Hn)].
    cbv beta iota. rewrite (IH fuel); [|exact Hrep'|done|done|cbn in Hl; lia]. unfold zlen. cbn [length]. do 3 f_equal. lia.
Qed.

(** The metadata verifier returns no error and counts the live keys. *)
Lemma metadata_quiet c r d f tables : scannable d f tables -> (forall i, canceled c i = false) ->
  (length (scan_entries [] d tables) < walk c)%nat ->
  exists r' res, MetadataVerifier c r d (mkWorld f []) = (Ok (r', (d, (res, None))), mkWorld f []) /\
    (m_Passed res = true -> zlen (scanned [] [] d tables) = AtfDataset.LiveCount (expected c)).
Proof.
  intros Hsc Hctx Hw. destruct (scan_opened [] [] d f tables Hsc) as (it & E1 & Hrep & Hcl & He & [x E2]).
  assert (Hcount : metadataCountLive c d (mkWorld f []) = (Ok (d, (0 + zlen (scan_entries [] d tables), None)), mkWorld f [])).
  { unfold metadataCountLive. by rewrite (io_bind_ok _ _ _ _ _ E1),
      (io_bind_ok _ _ _ _ _ (count_loop_quiet c f _ Hctx (walk c) it 0 Hrep Hcl He Hw)), (io_bind_ok _ _ _ _ _ E2). }
  unfold MetadataVerifier. rewrite (io_bind_ok _ _ _ _ _ Hcount).
  cbv beta iota zeta. rewrite (io_bind_ok _ _ _ _ _ (Get_quiet d f tables [] (proj1 Hsc) (proj1 (proj2 (proj2 Hsc))))).
  eexists _, _. split; [reflexivity|]. set (res0 := judge_metadata _ _ _). rewrite Z.add_0_l.
  assert (Hz : zlen (scanned [] [] d tables) = zlen (scan_entries [] d tables)).
  { unfold scanned, pairs, zlen. by rewrite before_nil, length_fmap. }
  rewrite Hz.
  set (res1 := check _ _ res0). set (res2 := match get_answer _ _ with inl _ => _ | inr _ => _ end).
  assert (H2 : clean res2 -> clean res1).
  { unfold res2. destruct (get_answer _ _) as [v|e]; [by intros []%add_failure_clean|]. destruct e; try (by intros []%add_failure_clean). done. }
  assert (Hp : m_Passed (finalizeModule res2) = true -> clean res2).
  { unfold finalizeModule, clean, zlen. cbn. destruct (Failures res2); [done|]. cbn. by rewrite (proj2 (Z.ltb_lt _ _)) by lia. }
  intros [_ H]%Hp%H2%check_clean. by apply Z.eqb_eq in H.
Qed.

(** ** The demonstration database against its own contents *)

Definition snapshot_of (c : option bytes) : AtfDataset.ValueSnapshot :=
  match c with Some v => AtfDataset.mkSnapshot v false 1 | None => AtfDataset.mkSnapshot [] true 1 end.

Definition expected_of (m : layer) : AtfDataset.MapExpectedState :=
  AtfDataset.mkExpected 1 "crash" "run" 1 (Z.of_nat (size m)) (snapshot_of <$> m) "".

Lemma oracle_expected_of m : AtfDataset.oracle (AtfDataset.State (expected_of m)) = m.
Proof.
  unfold AtfDataset.oracle. cbn [AtfDataset.State expected_of]. rewrite <- map_fmap_compose. rewrite <- (map_fmap_id m) at 2.
  apply map_fmap_ext. by intros k [v|] _.
Qed.

Definition vctx3 : VerificationContext :=
  let m := expected_of (contents Demo.db3 Demo.tables2.*2) in
  mkVctx (fun _ => false) m (S (longest_walk Demo.db3 Demo.tables2.*2 m)).

Lemma db3_scannable : scannable Demo.db3 Demo.fs3 Demo.tables2.*2.
Proof.
  split; [exact (DbInv.db_inv_readable _ _ _ _ _ Demo.db3_inv)|]. split; [vm_compute; discriminate|].
  split; [vm_compute; reflexivity|]. unfold Merge.keys_nonempty. by_decide.
Qed.

Lemma get_verifier_exact_witness : exists res,
  GetVerifier vctx3 Demo.db3 (mkWorld Demo.fs3 []) = (Ok (Demo.db3, (res, None)), mkWorld Demo.fs3 []) /\ m_Passed res = true.
Proof.
  destruct (get_verifier_exact vctx3 Demo.db3 Demo.fs3 Demo.tables2.*2) as (res & E & _ & H).
  - exact (proj1 db3_scannable).
  - exact (proj1 (proj2 (proj2 db3_scannable))).
  - reflexivity.
  - assert (Hne : map_Forall (fun _ c => c <> Some []) (disk_layer Demo.tables2.*2)) by by_decide. intros k Hk. by apply (Hne k _ Hk).
  - exists res. split; [exact E|]. apply H. intros k s Hs.
    unfold vctx3 in Hs. cbn [expected AtfDataset.State expected_of] in Hs. apply lookup_fmap_Some in Hs as (c & <- & ->). by destruct c.
Defined.

Lemma range_verifier_exact_witness : exists res,
  RangeScanVerifier vctx3 Demo.db3 (mkWorld Demo.fs3 []) = (Ok (Demo.db3, (res, None)), mkWorld Demo.fs3 []) /\ m_Passed res = true.
Proof.
  destruct (range_verifier_exact vctx3 Demo.db3 Demo.fs3 Demo.tables2.*2) as (res & E & H).
  - exact db3_scannable.
  - reflexivity.
  - unfold vctx3. cbn [walk expected]. lia.
  - exists res. split; [exact E|]. apply H. intros k v. unfold vctx3. cbn [expected]. by rewrite oracle_expected_of.
Defined.

(** * A checkpoint warning fails the module *)

(** A checkpoint that names a table that is no longer live, which the code calls a warning
    and no correctness failure, is the only complaint and yet the module fails. *)
Theorem checkpoint_warning_fails f fl ids : f !! walFlushStateFileName = Some fl -> zlen (content fl) = 16 ->
  0 <= int64 (get_u64 (content fl)) -> manifestLiveIDs (mkWorld f []) = (Ok (inl (ids, true)), mkWorld f []) ->
  get_u64 (drop 8 (content fl)) ∉ ids ->
  exists res, CheckpointAudit (mkWorld f []) = (Ok (res, None), mkWorld f []) /\ m_Passed res = false /\
    f_Severity <$> Failures res = [SeverityWarning].
Proof.
  intros Hf Hl H0 Hm Hid. unfold CheckpointAudit.
  rewrite (bind_try_ok _ _ _ (content fl) (mkWorld f [])) by (unfold fs_read; by rewrite prim_quiet, Hf).
  rewrite Hl. cbn [negb Z.eqb Pos.eqb]. rewrite (io_bind_ok _ _ _ _ _ Hm). rewrite (proj2 (Z.leb_le _ _) H0), bool_decide_eq_false_2 by done.
  unfold fs_size. unfold io_bind at 1, try. rewrite prim_quiet.
  destruct (f !! walLogFileName); eexists; split; try reflexivity; split; reflexivity.
Qed.

End AtfVerifySpec.
