(* ===== verification/AtfEngine.v ===== *)
(** The verification engine of the acceptance framework
    (internal/db/acceptance/framework/verifier: engine.go, DefaultRegistry of registry.go).

    [Verify] loads the expected state, opens the recovered database, runs the modules in
    the order of the dependency graph, closes the database and reopens it a number of
    times.  It runs on the model of the database.  What it publishes on the event bus and
    the metrics it records are collected in a list; durations are left out. *)

From Stdlib Require Import ZArith Lia.
From S2P Require Import Prelude Word Fs GoStr Memtable Wal Manifest SstFormat SstWriter SstReader MergeIter.
From S2P Require Import SstMerge DbState DbFlush DbWrite DbRead DbOpen Demo AtfDag AtfDataset AtfVerify.

Module AtfEngine.
Import Db DbRead AtfVerify.

(** * Configuration *)

Record EngineConfig := mkEngineConfig { IdempotentReopens : Z; DisableDefaultCompaction : bool }.

Definition DefaultEngineConfig : EngineConfig := mkEngineConfig 3 true.

(** The part of types.Configuration that is used. *)
Record Configuration := mkConfiguration { c_CompactionThreshold : Z; c_MemtableSizeBytes : Z; c_SyncWrites : bool }.

Record Request := mkRequest {
  q_ScenarioID : string; q_ExecutionID : string; DatabaseDir : string; q_Config : Configuration;
  VerificationDAG : list (string * list string)
}.

Record VerificationEngine := mkEngine {
  registry : AtfDag.Registry (Verifier := Verifier); loader : OracleLoadOptions; engineCfg : EngineConfig
}.

(** [None] is the panic. *)
Definition DefaultRegistry : option AtfDag.Registry :=
  AtfDag.register_all module_Name AtfDag.NewRegistry
    [metadata_module; get_module; iterator_module; range_module; snapshot_module; directory_module; manifest_module; checkpoint_module].

Definition NewVerificationEngine (reg : option AtfDag.Registry) (ld : option OracleLoadOptions) (cfg : EngineConfig)
  : option VerificationEngine :=
  let cfg := if IdempotentReopens cfg <? 0 then mkEngineConfig 0 (DisableDefaultCompaction cfg) else cfg in
  match (match reg with Some r => Some r | None => DefaultRegistry end) with
  | None => None
  | Some r => Some (mkEngine r (default DefaultOracleLoader ld) cfg)
  end.

(** * Verify *)

(** The error returned: what it wraps. *)
Inductive engine_error :=
  | LoadErr (e : oracle_error) | OpenErr (e : error) | DagErr (e : AtfDag.dag_error) | Cancelled | ModuleErr (e : verify_error)
  | CountErr (e : error) | CloseErr (e : error) | ReopenFailed (i : nat) (e : error) | ReopenCheck (i : nat) (e : option verify_error)
  | ChecksFailed (n : Z).

Inductive observation :=
  | VerificationStarted | VerificationAborted (r : VerificationReport) | VerificationFinished (r : VerificationReport)
  | VerifierStarted (name : string) | VerifierPassed (m : ModuleResult) | VerifierFailed (m : ModuleResult)
  | Metric (name : string) (value : Z).

(** The looks at the context: before a module, inside it, before a reopen, inside its check. *)
Inductive look := BeforeModule (i : nat) | InModule (i j : nat) | BeforeReopen (i : nat) | InReopen (i j : nat).

(** The report, the observations so far, and the totals. *)
Record progress := mkProgress {
  p_report : VerificationReport; p_seen : list observation; totalKeys : Z; totalScans : Z; totalFailures : Z
}.

Definition observe (os : list observation) (p : progress) : progress :=
  mkProgress (p_report p) (p_seen p ++ os) (totalKeys p) (totalScans p) (totalFailures p).
Definition set_report (r : VerificationReport) (p : progress) : progress :=
  mkProgress r (p_seen p) (totalKeys p) (totalScans p) (totalFailures p).

Definition set_Passed (b : bool) (r : VerificationReport) : VerificationReport :=
  mkReport (r_ScenarioID r) (r_ExecutionID r) b (ModuleResults r) (r_PassedChecks r) (r_FailedChecks r) (r_Meta r)
    (ExpectedStatistics r) (RecoveredStatistics r) (FailureSummary r) (r_Aborted r) (AbortReason r).
Definition set_Meta (m : DatabaseMetadata) (r : VerificationReport) : VerificationReport :=
  mkReport (r_ScenarioID r) (r_ExecutionID r) (r_Passed r) (ModuleResults r) (r_PassedChecks r) (r_FailedChecks r) m
    (ExpectedStatistics r) (RecoveredStatistics r) (FailureSummary r) (r_Aborted r) (AbortReason r).
Definition set_stats (ex rc : Statistics) (r : VerificationReport) : VerificationReport :=
  mkReport (r_ScenarioID r) (r_ExecutionID r) (r_Passed r) (ModuleResults r) (r_PassedChecks r) (r_FailedChecks r) (r_Meta r)
    ex rc (FailureSummary r) (r_Aborted r) (AbortReason r).

(** [report.Passed = false; report.Aborted = true; report.AbortReason = err.Error()] *)
Definition abort (why : shown) (r : VerificationReport) : VerificationReport :=
  mkReport (r_ScenarioID r) (r_ExecutionID r) false (ModuleResults r) (r_PassedChecks r) (r_FailedChecks r) (r_Meta r)
    (ExpectedStatistics r) (RecoveredStatistics r) (FailureSummary r) true (Some why).

Definition failure_metric : observation := Metric "verification_failures" 1.

(** The report of a module that was not run. *)
Definition skipped_module (name blockedBy : string) : ModuleResult :=
  mkModule name true [mkFailure name [] (Text "dependency satisfied") (Text blockedBy) "dependency_skipped" SeverityWarning PhaseVerify
    "Module skipped because its dependency failed"] 0 0 0 0 1.

Definition zero_stats : Statistics := mkStats 0 0 0 0 0.

Section engine.
Context `{!SstWriter.BloomSizing} (fuel walk : nat) (ctx : look -> bool).
(** The answer to the request for the lock and the random source, for each open. *)
Context (lock : nat -> option error) (coins : nat -> list (list bool)).

(** The module's result is added before the error is looked at; on an error the database
    is closed. *)
Fixpoint run_modules (expected : AtfDataset.MapExpectedState) (deps : gmap string (list string)) (i : nat) (mods : list Verifier)
    (unhealthy : gset string) (p : progress) (d : DB) : io (progress * (DB + engine_error)) :=
  match mods with
  | [] => io_ret (p, inl d)
  | m :: rest =>
      if ctx (BeforeModule i) then
        let! _ := DbOpen.Close fuel d in
        let r := abort (Text "context canceled") (p_report p) in
        io_ret (observe [VerificationAborted r] (set_report r p), inr Cancelled)
      else
        let name := module_Name m in
        let blockedBy := AtfDag.firstUnhealthyDep (default [] (deps !! name)) unhealthy in
        if negb (bool_decide (blockedBy = ""%string)) then
          run_modules expected deps (S i) rest ({[name]} ∪ unhealthy)
            (set_report (addModule (skipped_module name blockedBy) (p_report p)) p) d
        else
          let p := observe [VerifierStarted name] p in
          let! (r, (d, (result, verr))) :=
            module_Verify m (mkVctx (fun j => ctx (InModule i j)) expected walk) (p_report p) d in
          let r := addModule result r in
          let p := mkProgress r (p_seen p) (totalKeys p + KeysVerified result) (totalScans p + ScansPerformed result) (totalFailures p) in
          match verr with
          | Some e =>
              let! _ := DbOpen.Close fuel d in
              let r := abort (Text "module error") r in
              io_ret (observe [VerifierFailed result; VerificationAborted r; failure_metric] (set_report r p), inr (ModuleErr e))
          | None =>
              if m_Passed result then run_modules expected deps (S i) rest unhealthy (observe [VerifierPassed result] p) d
              else
                let p := mkProgress (p_report p) (p_seen p) (totalKeys p) (totalScans p) (totalFailures p + zlen (Failures result)) in
                run_modules expected deps (S i) rest ({[name]} ∪ unhealthy) (observe [VerifierFailed result] p) d
          end
  end.

(** The count is that of the walk, which stops at an error. *)
Definition countRecoveredLive (d : DB) : io (DB * (Z + error)) :=
  let! (d, r) := DbRead.Scan [] [] d in
  match r with
  | inr e => io_ret (d, inr e)
  | inl it =>
      let! (out, err) := scan_walk walk it [] in
      let! (d, _) := sc_Close it d in
      io_ret (d, match err with Some e => inr e | None => inl (zlen out) end)
  end.

Definition reopen_name (i : nat) : string := String.append "idempotent_reopen_" (GoStr.format_padded 1 (Z.of_nat i)).

Definition rename (name : string) (m : ModuleResult) : ModuleResult :=
  mkModule name (m_Passed m) (Failures m) (m_PassedChecks m) (m_FailedChecks m) (KeysVerified m) (ScansPerformed m) (Warnings m).

Definition reopen_options (dir : string) : DbOpen.Options := DbOpen.mkOptions dir 0 (-1) (Wal.mkLimits 0 0 0 0) false None.

(** [left] is what is left of the rounds. *)
Fixpoint idempotentReopen (dir : string) (expected : AtfDataset.MapExpectedState) (left i : nat) (r : VerificationReport)
  : io (VerificationReport * option engine_error) :=
  match left with
  | O => io_ret (r, None)
  | S left' =>
      if ctx (BeforeReopen i) then io_ret (r, Some Cancelled) else
      let! o := try (DbOpen.Open (reopen_options dir) (lock (S i)) (coins (S i))) in
      match o with
      | inr e =>
          let f := mkFailure getVerifierName [] (Text "successful reopen") (ErrorText e) "reopen_failed" SeverityError PhaseIdempotentReopen
                     "Idempotent reopen failed" in
          io_ret (addModule (mkModule (reopen_name i) false [f] 0 1 0 0 0) r, Some (ReopenFailed i e))
      | inl again =>
          let! (again, (result, verr)) := GetVerifier (mkVctx (fun j => ctx (InReopen i j)) expected walk) again in
          let! _ := DbOpen.Close fuel again in
          let result := rename (reopen_name i) result in
          match verr, m_Passed result with
          | None, true => idempotentReopen dir expected left' (S i) (addModule result r)
          | _, _ => io_ret (addModule result r, Some (ReopenCheck i verr))
          end
      end
  end.

Definition open_options (cfg : EngineConfig) (req : Request) : DbOpen.Options :=
  DbOpen.mkOptions (DatabaseDir req)
    (if 0 <? c_MemtableSizeBytes (q_Config req) then c_MemtableSizeBytes (q_Config req) else 0)
    (if DisableDefaultCompaction cfg then -1
     else if negb (c_CompactionThreshold (q_Config req) =? 0) then c_CompactionThreshold (q_Config req) else 0)
    (Wal.mkLimits 0 0 0 0) (c_SyncWrites (q_Config req)) None.

(** The loader insists on the request's identifiers. *)
Definition load_options (ld : OracleLoadOptions) (req : Request) : OracleLoadOptions :=
  mkLoadOptions (RequireChecksum ld)
    (if decide (q_ScenarioID req = ""%string) then ExpectedScenarioID ld else q_ScenarioID req)
    (if decide (q_ExecutionID req = ""%string) then ExpectedExecutionID ld else q_ExecutionID req).

(** After the modules: the count, the close, the reopens and the verdict. *)
Definition conclude (e : VerificationEngine) (req : Request) (expected : AtfDataset.MapExpectedState) (p : progress) (d : DB)
  : io (progress * option engine_error) :=
  let! (d, n) := countRecoveredLive d in
  match n with
  | inr er =>
      let! _ := DbOpen.Close fuel d in
      io_ret (set_report (set_Passed false (p_report p)) p, Some (CountErr er))
  | inl n =>
      let ex := ExpectedStatistics (p_report p) in
      let r := set_stats ex (mkStats (ExpectedLiveKeys ex) (ExpectedTombstones ex) n (AtfDataset.Seed expected) (AtfDataset.Count expected))
                 (p_report p) in
      let! (d, cerr) := DbOpen.Close fuel d in
      match cerr with
      | Some er =>
          let r := abort (ErrorText er) r in
          io_ret (observe [VerificationAborted r] (set_report r p), Some (CloseErr er))
      | None =>
          let! (r, rerr) :=
            (if r_Passed r && (0 <? IdempotentReopens (engineCfg e))
             then idempotentReopen (DatabaseDir req) expected (Z.to_nat (IdempotentReopens (engineCfg e))) 0 r
             else io_ret (r, None)) in
          match rerr with
          | Some er =>
              let r := set_Passed false r in
              io_ret (observe [VerificationFinished r; failure_metric] (set_report r p), Some er)
          | None =>
              let p := observe [Metric "keys_verified" (totalKeys p); Metric "scans_performed" (totalScans p);
                Metric "verification_failures" (totalFailures p);
                Metric (if r_Passed r then "verification_passed" else "verification_failed") 1; VerificationFinished r] (set_report r p) in
              io_ret (p, if r_Passed r then None else Some (ChecksFailed (r_FailedChecks r)))
          end
      end
  end.

Context (digest : AtfDataset.MapExpectedState -> string) (unmarshal : bytes -> option AtfDataset.MapExpectedState).

Definition Verify (e : VerificationEngine) (req : Request) : io (progress * option engine_error) :=
  let r := mkReport (q_ScenarioID req) (q_ExecutionID req) true [] 0 0 (mkMeta false None false) zero_stats zero_stats [] false None in
  let p := mkProgress r [VerificationStarted] 0 0 0 in
  let! ld := Load digest unmarshal (load_options (loader e) req) in
  match ld with
  | inr er =>
      let r := abort (Text "oracle") r in
      io_ret (observe [VerificationAborted r; failure_metric] (set_report r p), Some (LoadErr er))
  | inl expected =>
      let! o := try (DbOpen.Open (open_options (engineCfg e) req) (lock 0) (coins 0)) in
      match o with
      | inr er =>
          let r := set_Meta (mkMeta false None false) (abort (ErrorText er) r) in
          io_ret (observe [VerificationAborted r; failure_metric] (set_report r p), Some (OpenErr er))
      | inl d =>
          let r := set_stats (expected_stats expected 0) zero_stats
                     (set_Meta (mkMeta true None (DisableDefaultCompaction (engineCfg e))) r) in
          let p := set_report r p in
          match AtfDag.resolveModuleOrder module_Name (registry e) (VerificationDAG req) with
          | inr er =>
              let! _ := DbOpen.Close fuel d in
              let r := abort (Text "dag") r in
              io_ret (observe [VerificationAborted r; failure_metric] (set_report r p), Some (DagErr er))
          | inl order =>
              let! (p, out) := run_modules expected (AtfDag.deps order) 0 (AtfDag.modules order) ∅ p d in
              match out with
              | inr er => io_ret (p, Some er)
              | inl d => conclude e req expected p d
              end
          end
      end
  end.

(** * What the verdict is worth *)

(** What the modules leave alone of the report. *)
Definition same_verdict (r r' : VerificationReport) : Prop :=
  r_Passed r' = r_Passed r /\ ModuleResults r' = ModuleResults r /\ r_Aborted r' = r_Aborted r.

Lemma module_Verify_report v c r d wd r' o wd' : module_Verify v c r d wd = (Ok (r', o), wd') -> same_verdict r r'.
Proof.
  destruct v; cbn [module_Verify]; intros E; try (apply AtfDataset.bind_inv in E as (o' & wd1 & _ & E); by injection E as <- _ _).
  unfold MetadataVerifier in E. apply AtfDataset.bind_inv in E as ([d1 [n [er|]]] & wd1 & _ & E); [by injection E as <- _ _|].
  apply AtfDataset.bind_inv in E as ([d2 x] & wd2 & _ & E). by injection E as <- _ _.
Qed.

(** The result of a module that was run on some state of the database, and passed. *)
Definition ran (expected : AtfDataset.MapExpectedState) (v : Verifier) (result : ModuleResult) : Prop :=
  m_Passed result = true /\ exists i r r' d d' wd wd',
    module_Verify v (mkVctx (fun j => ctx (InModule i j)) expected walk) r d wd = (Ok (r', (d', (result, None))), wd').

(** The result of the check of a reopened database. *)
Definition reopened (dir : string) (expected : AtfDataset.MapExpectedState) (i : nat) (result : ModuleResult) : Prop :=
  exists d d' result' wd wd' wd'', DbOpen.Open (reopen_options dir) (lock (S i)) (coins (S i)) wd = (Ok d, wd') /\
    GetVerifier (mkVctx (fun j => ctx (InReopen i j)) expected walk) d wd' = (Ok (d', (result', None)), wd'') /\
    m_Passed result' = true /\ result = rename (reopen_name i) result'.

Lemma firstUnhealthyDep_none deps : AtfDag.firstUnhealthyDep deps ∅ = ""%string.
Proof. induction deps as [|x deps IH]; [done|]. cbn [AtfDag.firstUnhealthyDep]. rewrite decide_False by set_solver. exact IH. Qed.

Lemma run_modules_inv expected deps mods : forall i unhealthy p d wd p' out wd',
  (r_Passed (p_report p) = true -> unhealthy = ∅) ->
  run_modules expected deps i mods unhealthy p d wd = (Ok (p', out), wd') ->
  match out with
  | inr _ => r_Passed (p_report p') = false
  | inl _ => r_Passed (p_report p') = true -> r_Passed (p_report p) = true /\ r_Aborted (p_report p') = r_Aborted (p_report p) /\
      exists results, ModuleResults (p_report p') = ModuleResults (p_report p) ++ results /\ Forall2 (ran expected) mods results
  end.
Proof.
  induction mods as [|m mods IH]; intros i unhealthy p d wd p' out wd' Hu E; cbn [run_modules] in E.
  { injection E as <- <- _. intros Hp. split; [done|]. split; [done|]. exists []. by rewrite app_nil_r. }
  destruct (ctx (BeforeModule i)).
  { apply AtfDataset.bind_inv in E as (x & wd1 & _ & E). by injection E as <- <- _. }
  destruct (bool_decide _) eqn:Hb; cbn [negb] in E.
  2:{ apply IH in E.
      - destruct out; [|done]. intros Hp. apply E in Hp as (Hp & _). cbn [p_report set_report addModule r_Passed] in Hp.
        apply andb_true_iff in Hp as [Hp _]. apply Hu in Hp as ->. by rewrite firstUnhealthyDep_none in Hb.
      - cbn [p_report set_report addModule r_Passed]. intros [Hp _]%andb_true_iff. apply Hu in Hp as ->.
        by rewrite firstUnhealthyDep_none in Hb. }
  apply AtfDataset.bind_inv in E as ([r [d1 [result verr]]] & wd1 & E1 & E).
  pose proof (module_Verify_report _ _ _ _ _ _ _ _ E1) as (R1 & R2 & R3). cbn [p_report observe] in R1, R2, R3, E1.
  destruct verr as [er|]; [apply AtfDataset.bind_inv in E as (x & wd2 & _ & E); by injection E as <- <- _|].
  destruct (m_Passed result) eqn:Hm.
  2:{ assert (Hn : r_Passed (addModule result r) = false) by (cbn [addModule r_Passed]; by rewrite Hm, andb_false_r).
      unshelve epose proof (IH _ _ _ _ _ _ _ _ _ E) as HI; [cbn [p_report observe]; by rewrite Hn|].
      destruct out; [|done]. intros [H1 _]%HI. cbn [p_report observe] in H1. by rewrite Hn in H1. }
  assert (Hn : r_Passed (addModule result r) = r_Passed (p_report p)) by (cbn [addModule r_Passed]; by rewrite Hm, andb_true_r, R1).
  unshelve epose proof (IH _ _ _ _ _ _ _ _ _ E) as HI; [cbn [p_report observe]; by rewrite Hn|].
  destruct out as [d2|]; [|done]. intros Hp. apply HI in Hp as (Hp & Ha & results & Hr & HF). cbn [p_report observe] in Hp, Ha, Hr.
  split; [congruence|]. split; [by rewrite Ha, <- R3|]. cbn [addModule ModuleResults] in Hr.
  exists (result :: results). split; [by rewrite Hr, R2, <- app_assoc|]. constructor; [|done]. split; [done|]. by eexists _, _, _, _, _, _, _.
Qed.

Lemma try_inv {A} (m : io A) wd a wd' : try m wd = (Ok (inl a), wd') -> m wd = (Ok a, wd').
Proof. unfold try. destruct (m wd) as [[x|e|] w]; intros E; [by injection E as -> ->|done..]. Qed.

Lemma idempotentReopen_inv dir expected left : forall i r wd r' err wd',
  idempotentReopen dir expected left i r wd = (Ok (r', err), wd') -> err = None ->
  r_Passed r' = r_Passed r /\ r_Aborted r' = r_Aborted r /\ exists results, ModuleResults r' = ModuleResults r ++ results /\
    length results = left /\ forall j result, results !! j = Some result -> reopened dir expected (i + j) result.
Proof.
  induction left as [|left IH]; intros i r wd r' err wd' E ->; cbn [idempotentReopen] in E.
  { injection E as <- _. split; [done|]. split; [done|]. exists []. by rewrite app_nil_r. }
  destruct (ctx (BeforeReopen i)); [done|]. apply AtfDataset.bind_inv in E as ([again|e] & wd1 & E1 & E); [|done].
  apply AtfDataset.bind_inv in E as ([d1 [result verr]] & wd2 & E2 & E). apply AtfDataset.bind_inv in E as (x & wd3 & _ & E).
  destruct verr as [er|]; [done|]. cbn [rename m_Passed] in E. destruct (m_Passed result) eqn:Hm; [|done].
  apply IH in E as (Hp & Ha & results & Hr & Hl & Hin); [|done]. cbn [addModule r_Passed r_Aborted ModuleResults rename m_Passed] in *.
  split; [by rewrite Hp, Hm, andb_true_r|]. split; [done|]. exists (rename (reopen_name i) result :: results).
  split; [by rewrite Hr, <- app_assoc|]. split; [cbn; lia|]. intros [|j] res Hj.
  - injection Hj as <-. rewrite Nat.add_0_r. exists again, d1, result, wd, wd1, wd2. split; [by apply try_inv|done].
  - apply Hin in Hj. by replace (i + S j)%nat with (S i + j)%nat by lia.
Qed.

Lemma conclude_inv e req expected p d wd p' err wd' : conclude e req expected p d wd = (Ok (p', err), wd') ->
  (err = None <-> r_Passed (p_report p') = true) /\
  (err = None -> r_Passed (p_report p) = true /\ r_Aborted (p_report p') = r_Aborted (p_report p) /\
     exists results, ModuleResults (p_report p') = ModuleResults (p_report p) ++ results /\
       length results = Z.to_nat (IdempotentReopens (engineCfg e)) /\
       forall j result, results !! j = Some result -> reopened (DatabaseDir req) expected j result).
Proof.
  intros E. unfold conclude in E. apply AtfDataset.bind_inv in E as ([d1 [n|er]] & wd1 & _ & E).
  2:{ apply AtfDataset.bind_inv in E as (x & wd2 & _ & E). by injection E as <- <- _. }
  apply AtfDataset.bind_inv in E as ([d2 [er|]] & wd2 & _ & E); [by injection E as <- <- _|].
  apply AtfDataset.bind_inv in E as ([r [er|]] & wd3 & E1 & E); [by injection E as <- <- _|].
  injection E as <- <- _. cbn [p_report observe set_report]. split; [by destruct (r_Passed r)|]. intros Hp.
  assert (Hr : r_Passed r = true) by (by destruct (r_Passed r)). clear Hp. cbn [r_Passed set_stats] in E1.
  destruct (r_Passed (p_report p)) eqn:Hp; cbn [andb] in E1.
  - destruct (Z.ltb_spec 0 (IdempotentReopens (engineCfg e))) as [Hi|Hi].
    + apply idempotentReopen_inv in E1 as (_ & Ha & Hrs); [|done]. done.
    + injection E1 as <- _. split; [done|]. split; [done|]. exists []. rewrite app_nil_r, Z2Nat.nonpos by lia. done.
  - injection E1 as <- _. cbn [r_Passed set_stats] in Hr. congruence.
Qed.

End engine.

(** C39: the verdict of the engine can be relied on.  Whatever the disk does, [Verify] returns
    no error exactly when the report says that it passed; and then the expected state was
    loaded for the request, every module of the plan was run and passed, none was skipped or
    aborted, the database was reopened as often as configured and passed the Get verifier
    each time, and these are all the results of the report. *)
Theorem verify_verdict `{!SstWriter.BloomSizing} fuel walk ctx lock coins digest unmarshal e req wd p err wd' :
  Verify fuel walk ctx lock coins digest unmarshal e req wd = (Ok (p, err), wd') ->
  (err = None <-> r_Passed (p_report p) = true) /\
  (err = None -> r_Aborted (p_report p) = false /\ exists expected wd1 order results reopens,
     Load digest unmarshal (load_options (loader e) req) wd = (Ok (inl expected), wd1) /\
     AtfDag.resolveModuleOrder module_Name (registry e) (VerificationDAG req) = inl order /\
     ModuleResults (p_report p) = results ++ reopens /\
     Forall2 (ran walk ctx expected) (AtfDag.modules order) results /\
     length reopens = Z.to_nat (IdempotentReopens (engineCfg e)) /\
     forall i result, reopens !! i = Some result -> reopened walk ctx lock coins (DatabaseDir req) expected i result).
Proof.
  intros E. unfold Verify in E. apply AtfDataset.bind_inv in E as ([expected|er] & wd1 & E1 & E); [|by injection E as <- <- _].
  apply AtfDataset.bind_inv in E as ([d|er] & wd2 & E2 & E); [|by injection E as <- <- _].
  destruct (AtfDag.resolveModuleOrder _ _ _) as [order|er]; [|apply AtfDataset.bind_inv in E as (x & wd3 & _ & E); by injection E as <- <- _].
  apply AtfDataset.bind_inv in E as ([p1 out] & wd3 & E3 & E). apply run_modules_inv in E3; [|done].
  destruct out as [d1|er]; [|injection E as <- <- _; by rewrite E3].
  apply conclude_inv in E as [Hiff Hok]. split; [exact Hiff|]. intros He. destruct (Hok He) as (Hp & Ha & reopens & Hr & Hl & Hre).
  destruct (E3 Hp) as (_ & Ha1 & results & Hr1 & HF). cbn [p_report set_report r_Aborted set_stats set_Meta ModuleResults app] in Ha1, Hr1.
  split; [congruence|]. exists expected, wd1, order, results, reopens. by rewrite Hr, Hr1.
Qed.

(** The demonstration directory with two tables, and the state that is expected of it. *)
Definition expected2 : AtfDataset.MapExpectedState :=
  AtfDataset.mkExpected 1 "flush_crash" "run-1" 7 3
    {[ Demo.k1 := AtfDataset.mkSnapshot Demo.v1 false 1; Demo.k2 := AtfDataset.mkSnapshot Demo.v2 false 1;
       [x7a] := AtfDataset.mkSnapshot [] true 2 ]} "sum".

Definition dir2 : World := mkWorld (<[AtfDataset.ExpectedStateFileName := File [] []]> Demo.fs2) [].

Definition request2 : Request :=
  mkRequest "flush_crash" "run-1" "db" (mkConfiguration (-1) 0 false) [("get_verifier", ["metadata_verifier"])]%string.

Definition verify2 (e : VerificationEngine) : res (progress * option engine_error) * World :=
  Verify (H := Demo.demo_sizing) 4 20 (fun _ => false) (fun _ => None) (fun _ => []) (fun _ => "sum"%string) (fun _ => Some expected2) e request2 dir2.

Lemma verify_verdict_witness : exists e p wd', NewVerificationEngine None None DefaultEngineConfig = Some e /\
  verify2 e = (Ok (p, None), wd') /\ r_Passed (p_report p) = true /\ r_Aborted (p_report p) = false.
Proof.
  destruct (NewVerificationEngine None None DefaultEngineConfig) as [e|] eqn:He; [|vm_compute in He; discriminate].
  destruct (verify2 e) as [r wd'] eqn:E.
  pose (P := fun o : option VerificationEngine => match o with
    | Some e => match verify2 e with (Ok (p, None), _) => length (ModuleResults (p_report p)) = 11%nat | _ => False end
    | None => False end).
  assert (HP : P (Some e)) by (rewrite <- He; vm_compute; reflexivity). unfold P in HP. rewrite E in HP.
  destruct r as [[p [er|]]| |]; [contradiction HP| |contradiction HP..].
  destruct (verify_verdict _ _ _ _ _ _ _ _ _ _ _ _ _ E) as [H1 H2].
  exists e, p, wd'. split; [reflexivity|]. split; [exact E|]. split; [exact (proj1 H1 eq_refl)|exact (proj1 (H2 eq_refl))].
Defined.

End AtfEngine.
