(* ===== verification/AtfSound.v ===== *)
(** The verdict of the engine about a directory (engine.go over DbRecover.v and
    AtfVerifySpec.v): a directory that passes holds exactly the expected state. *)

From Stdlib Require Import ZArith Lia.
From stdpp Require Import sorting.
From S2P Require Import Prelude Word Fs GoStr Memtable Wal Manifest SstFormat SstWriter SstReader MergeIter.
From S2P Require Import SstMerge DbState DbFlush DbWrite DbRead DbScan DbOpen DbRecover DbInv Demo DbProps.
From S2P Require Import AtfDag AtfDataset AtfVerify AtfVerifySpec AtfEngine.

Module AtfSound.
Import Db DbRead DbScan DbRecover DbInv AtfVerify AtfVerifySpec AtfEngine.

(** * Counting *)

Lemma LiveCount_LiveKeys m : AtfDataset.LiveCount m = zlen (AtfDataset.LiveKeys m).
Proof.
  unfold AtfDataset.LiveCount, AtfDataset.LiveKeys, AtfDataset.sort_keys, zlen. by rewrite merge_sort_Permutation, length_fmap.
Qed.

(** Every expected key is as expected, and there are as many live keys as expected: then
    there are no others. *)
Lemma counted_agree d f tables m : scannable d f tables -> zlen (scanned [] [] d tables) = AtfDataset.LiveCount m ->
  (forall k s, AtfDataset.State m !! k = Some s -> mjoin (contents d tables !! k) = AtfDataset.oracle_cell s) ->
  forall k v, contents d tables !! k = Some (Some v) <-> AtfDataset.oracle (AtfDataset.State m) !! k = Some (Some v).
Proof.
  intros Hsc Hn Hget. destruct (scanned_spec [] [] d f tables Hsc) as [Hs Hout].
  assert (Hall : forall k, inside [] [] k) by (intros k; split; [apply not_blt_nil|by left]).
  assert (Hlive : forall k v, AtfDataset.oracle (AtfDataset.State m) !! k = Some (Some v) -> contents d tables !! k = Some (Some v)).
  { intros k v (s & Hst & Ht & <-)%oracle_live. specialize (Hget k s Hst). unfold AtfDataset.oracle_cell in Hget. rewrite Ht in Hget.
    destruct (contents d tables !! k) as [[w|]|]; [|done..]. by injection Hget as ->. }
  assert (Hperm : AtfDataset.LiveKeys m ≡ₚ (scanned [] [] d tables).*1).
  { apply submseteq_length_Permutation.
    - apply NoDup_submseteq; [apply sorted_NoDup, LiveKeys_sorted|]. intros k [v Hv]%elem_of_LiveKeys.
      apply list_elem_of_fmap. exists (k, v). split; [done|]. apply Hout. split; [by apply Hlive|done].
    - rewrite length_fmap. rewrite LiveCount_LiveKeys in Hn. unfold zlen in Hn. lia. }
  intros k v. split; [|apply Hlive]. intros Hk.
  assert (Hin : k ∈ AtfDataset.LiveKeys m).
  { rewrite Hperm. apply list_elem_of_fmap. exists (k, v). split; [done|]. by apply Hout. }
  apply elem_of_LiveKeys in Hin as [w Hw]. pose proof (Hlive k w Hw) as Hk'. congruence.
Qed.

(** A scan has no more entries than there are keys. *)
Lemma scan_length d f tables : scannable d f tables -> (length (scan_entries [] d tables) <= size (contents d tables))%nat.
Proof.
  intros Hsc. destruct (scanned_spec [] [] d f tables Hsc) as [Hs Hout].
  assert (Hl : length (scan_entries [] d tables) = length (scanned [] [] d tables).*1).
  { unfold scanned, pairs. by rewrite before_nil, !length_fmap. }
  rewrite Hl, <- length_map_to_list, <- (length_fmap fst (map_to_list _)). apply submseteq_length, NoDup_submseteq; [by apply sorted_NoDup|].
  intros k ([k' v] & -> & [Hk _]%Hout)%list_elem_of_fmap. apply list_elem_of_fmap. exists (k', Some v). split; [done|].
  by apply elem_of_map_to_list.
Qed.

(** * The first modules of a plan *)

Section first.
Context `{!SstWriter.BloomSizing} (fuel walk : nat).

Notation never := (fun _ : look => false).

(** A module that returns no error passed when the whole plan passed, and the others run
    from where it ended. *)
Lemma run_modules_first expected deps i m rest p d wd r' d1 res wd1 p' d2 wd' :
  module_Verify m (mkVctx (fun _ => false) expected walk) (p_report p) d wd = (Ok (r', (d1, (res, None))), wd1) ->
  run_modules fuel walk never expected deps i (m :: rest) ∅ p d wd = (Ok (p', inl d2), wd') -> r_Passed (p_report p') = true ->
  m_Passed res = true /\ exists p1, run_modules fuel walk never expected deps (S i) rest ∅ p1 d1 wd1 = (Ok (p', inl d2), wd').
Proof.
  intros Em E Hp. cbn [run_modules] in E. rewrite firstUnhealthyDep_none, bool_decide_true in E by done. cbn [negb] in E.
  rewrite (io_bind_ok _ _ _ _ _ Em) in E. cbv beta iota zeta in E. destruct (m_Passed res) eqn:Hm; [split; [done|by eexists]|].
  exfalso. assert (Hn : r_Passed (addModule res r') = false) by (cbn [addModule r_Passed]; by rewrite Hm, andb_false_r).
  unshelve epose proof (run_modules_inv _ _ _ _ _ _ _ _ _ _ _ _ _ _ _ E) as HI; [cbn [p_report observe]; by rewrite Hn|].
  apply HI in Hp as [H1 _]. cbn [p_report observe] in H1. congruence.
Qed.

(** Metadata and Get at the head of the plan decide the live contents. *)
Lemma plan_agrees expected deps rest p d f tables p' d2 wd' : scannable d f tables ->
  (forall k, disk_layer tables !! k <> Some (Some [])) -> (length (scan_entries [] d tables) < walk)%nat ->
  run_modules fuel walk never expected deps 0 (metadata_module :: get_module :: rest) ∅ p d (mkWorld f []) = (Ok (p', inl d2), wd') ->
  r_Passed (p_report p') = true ->
  forall k v, contents d tables !! k = Some (Some v) <-> AtfDataset.oracle (AtfDataset.State expected) !! k = Some (Some v).
Proof.
  intros Hsc Hd Hw E Hp. set (c := mkVctx (fun _ => false) expected walk).
  destruct (metadata_quiet c (p_report p) d f tables Hsc (fun _ => eq_refl) Hw) as (r1 & res1 & E1 & H1).
  destruct (run_modules_first _ _ _ metadata_module _ _ _ _ _ _ _ _ _ _ _ E1 E Hp) as [Hm1 [p1 E']].
  destruct (get_loop_quiet c d f tables (proj1 Hsc) (proj1 (proj2 (proj2 Hsc))) (fun _ => eq_refl) (AtfDataset.Keys expected) 0
    (emptyModuleResult getVerifierName)) as (res2 & E2 & Hp2 & _ & Hcl); [apply Forall_forall; intros k; by rewrite elem_of_Keys|done|].
  assert (E2' : module_Verify get_module c (p_report p1) d (mkWorld f []) = (Ok (p_report p1, (d, (finalizeModule res2, None))), mkWorld f [])).
  { cbn [module_Verify]. unfold GetVerifier. by rewrite (io_bind_ok _ _ _ _ _ E2). }
  destruct (run_modules_first _ _ _ get_module _ _ _ _ _ _ _ _ _ _ _ E2' E' Hp) as [Hm2 _].
  apply (counted_agree d f tables expected Hsc (H1 Hm1)). intros k s Hs. apply get_answer_contents; [done|].
  rewrite finalizeModule_passes in Hm2 by done. apply Hcl in Hm2 as [_ Hm2]. apply Hm2; [|done]. apply elem_of_Keys. by exists s.
Qed.

End first.

(** * Opened directories can be scanned *)

Definition keyed_entries (l : list entry) : Prop := Forall (fun e => Key e <> []) l.

Lemma opened_scannable opts f name es tables pre recs d f' : opened opts f name es tables pre recs d f' ->
  zlen tables <= 999999 -> keyed_entries recs -> Forall (fun t => keyed_entries (concat t.2)) tables -> scannable d f' tables.*2.
Proof.
  intros Hop Hfew Hrec Htab. destruct (opened_contents _ _ _ _ _ _ _ _ _ Hop) as [_ Hrd]. pose proof Hrd as [_ _ HF].
  apply Forall2_length in HF. rewrite length_fmap in HF. split; [done|]. split.
  { unfold few_layers, zlen in *. rewrite (op_queue _ _ _ _ _ _ _ _ _ Hop). cbn [length]. lia. }
  split; [apply Hop|]. unfold scan_sources, memory_sources.
  rewrite (op_batch _ _ _ _ _ _ _ _ _ Hop), (op_queue _ _ _ _ _ _ _ _ _ Hop). cbn [app rev imap queue_sources]. constructor.
  - unfold Merge.keys_nonempty. cbn [fst]. apply Forall_forall. intros e He Hk.
    destruct (op_active _ _ _ _ _ _ _ _ _ Hop) as [_ Hc]. unfold Mem.contents in Hc.
    assert (Hn : layer_of (Mem.Snapshot (active d)) !! ([] : bytes) = None).
    { rewrite Hc. unfold log_layer. apply layer_of_lookup_None. intros (e' & Hk' & He')%list_elem_of_fmap.
      apply list_elem_of_In, in_rev, list_elem_of_In in He'. unfold keyed_entries in Hrec. rewrite Forall_forall in Hrec. by apply (Hrec e'). }
    apply layer_of_lookup_None in Hn. apply Hn, list_elem_of_fmap. by exists e.
  - apply Forall_forall. intros [l i] Hs. unfold SstMerge.sources_of in Hs. apply elem_of_zip_l in Hs.
    apply list_elem_of_fmap in Hs as (t & Et & Ht). apply list_elem_of_fmap in Ht as (t' & -> & Ht').
    unfold Merge.keys_nonempty. cbn [fst]. rewrite Et. rewrite Forall_forall in Htab. by apply (Htab t').
Qed.

(** The loader only reads. *)
Lemma Load_quiet digest unmarshal opts f : exists r, Load digest unmarshal opts (mkWorld f []) = (Ok r, mkWorld f []).
Proof.
  unfold Load, AtfDataset.LoadExpectedState, io_bind, try, fs_size, fs_read. rewrite prim_quiet.
  destruct (f !! AtfDataset.ExpectedStateFileName) as [fl|] eqn:Hf; [|by eexists]. rewrite prim_quiet, Hf.
  destruct (unmarshal (content fl)); [|by eexists]. cbv beta iota delta [io_ret io_res]. destruct (validate _ _ _); by eexists.
Qed.

(** C38: a directory that passes verification holds the expected state.  Take a directory with
    a manifest, live tables and a log, possibly torn as a crash leaves them.  When the engine,
    with its default modules and no dependency graph, returns no error on it, then the
    expected state was loaded for the request, and the live keys and values that [Open]
    recovers from tables and log are exactly its live entries: no acknowledged write of the
    data set is missing or changed, no deleted key is back, nothing else has appeared. *)
Theorem verify_sound `{!SstWriter.BloomSizing} fuel walk lock coins digest unmarshal e req f name es tables pre recs p wd' :
  DefaultRegistry = Some (registry e) -> VerificationDAG req = [] -> lock 0%nat = None -> DatabaseDir req <> ""%string ->
  on_disk (walLimits (DbOpen.config_of (open_options (engineCfg e) req))) f name es tables pre recs ->
  zlen tables <= 999999 -> keyed_entries recs -> Forall (fun t => keyed_entries (concat t.2)) tables ->
  (forall k, disk_layer tables.*2 !! k <> Some (Some [])) ->
  (size (log_layer recs ∪ disk_layer tables.*2) < walk)%nat ->
  Verify fuel walk (fun _ => false) lock coins digest unmarshal e req (mkWorld f []) = (Ok (p, None), wd') ->
  exists expected, fst (Load digest unmarshal (load_options (loader e) req) (mkWorld f [])) = Ok (inl expected) /\
    forall k v, (log_layer recs ∪ disk_layer tables.*2) !! k = Some (Some v) <->
      AtfDataset.oracle (AtfDataset.State expected) !! k = Some (Some v).
Proof.
  intros Hreg Hdag Hlock Hdir Hod Hfew Hrec Htab Hd Hw E.
  assert (Hall : exists rest, AtfDag.All (registry e) = metadata_module :: get_module :: rest).
  { assert (Hr : match DefaultRegistry with Some r => exists rest, AtfDag.All r = metadata_module :: get_module :: rest | None => False end)
      by (vm_compute; eexists; reflexivity). by rewrite Hreg in Hr. }
  destruct Hall as [rest Hall]. destruct (Load_quiet digest unmarshal (load_options (loader e) req) f) as [ld Hload].
  unfold Verify in E. rewrite (io_bind_ok _ _ _ _ _ Hload) in E. destruct ld as [expected|er]; [|by injection E].
  destruct (Open_opened (open_options (engineCfg e) req) (coins 0%nat) f name es tables pre recs Hdir Hod) as (d & f' & Ho & Hop).
  rewrite <- Hlock in Ho. rewrite (bind_try_ok _ _ _ _ _ Ho) in E. rewrite Hdag in E. cbn [AtfDag.resolveModuleOrder AtfDag.modules AtfDag.deps] in E.
  rewrite Hall in E. pose proof (opened_scannable _ _ _ _ _ _ _ _ _ Hop Hfew Hrec Htab) as Hsc.
  destruct (opened_contents _ _ _ _ _ _ _ _ _ Hop) as [Hc _].
  apply AtfDataset.bind_inv in E as ([p1 [d1|er]] & wd1 & E1 & E); [|by injection E].
  apply conclude_inv in E as [_ Hok]. destruct (Hok eq_refl) as (Hp & _).
  exists expected. split; [by rewrite Hload|]. rewrite <- Hc. eapply plan_agrees; [exact Hsc|exact Hd| |exact E1|exact Hp].
  eapply Nat.le_lt_trans; [by eapply scan_length|]. by rewrite Hc.
Qed.

(** The directory with a checkpoint and a torn log, with the expected state in it. *)
Definition sound_fs : fsys := <[AtfDataset.ExpectedStateFileName := File [] []]> DbProps.ck_fs.

Definition sound_expected : AtfDataset.MapExpectedState :=
  AtfDataset.mkExpected 1 "flush_crash" "run-1" 7 3
    {[ Demo.k1 := AtfDataset.mkSnapshot Demo.v2 false 2; Demo.k2 := AtfDataset.mkSnapshot Demo.v2 false 1;
       [x7a] := AtfDataset.mkSnapshot [] true 2 ]} "sum".

Definition sound_request : Request := mkRequest "flush_crash" "run-1" "db" (mkConfiguration (-1) 0 false) [].

Definition sound_engine : VerificationEngine :=
  mkEngine (default AtfDag.NewRegistry DefaultRegistry) DefaultOracleLoader DefaultEngineConfig.

Definition sound_run : res (progress * option engine_error) * World :=
  Verify (H := Demo.demo_sizing) 4 20 (fun _ => false) (fun _ => None) (fun _ => []) (fun _ => "sum"%string) (fun _ => Some sound_expected)
    sound_engine sound_request (mkWorld sound_fs []).

Lemma sound_on_disk :
  on_disk (walLimits (DbOpen.config_of (open_options DefaultEngineConfig sound_request))) sound_fs "MANIFEST-000001" Demo.edits2 Demo.tables2
    DbProps.ck_pre DbProps.ck_recs.
Proof.
  pose proof DbProps.ck_on_disk as Hck. split.
  - apply Hck.
  - apply Hck.
  - exists []. split; [apply Manifest.torn_nil|]. split; vm_compute; reflexivity.
  - apply Hck.
  - eapply Forall_impl; [apply (od_tables _ _ _ _ _ _ _ Hck)|]. intros t Ht. apply (sst_file_same DbProps.ck_fs); [|done].
    unfold sound_fs. by rewrite lookup_insert_ne.
  - intros E. vm_compute in E. discriminate.
  - intros data E. vm_compute in E. injection E as <-. vm_compute. discriminate.
  - vm_compute. reflexivity.
  - replace (bytes_at sound_fs DbFlush.walName) with (bytes_at DbProps.ck_fs DbFlush.walName) by (vm_compute; reflexivity). exact (od_wal _ _ _ _ _ _ _ Hck).
  - exact (od_admissible _ _ _ _ _ _ _ Hck).
Qed.

Lemma verify_sound_witness : exists p wd', sound_run = (Ok (p, None), wd') /\
  forall k v, (log_layer DbProps.ck_recs ∪ disk_layer Demo.tables2.*2) !! k = Some (Some v) <->
    AtfDataset.oracle (AtfDataset.State sound_expected) !! k = Some (Some v).
Proof.
  destruct sound_run as [r wd'] eqn:E.
  pose (P := fun x : res (progress * option engine_error) * World => match x.1 with Ok (_, None) => True | _ => False end).
  assert (HP : P (r, wd')) by (rewrite <- E; vm_compute; exact I). unfold P in HP. cbn [fst] in HP.
  destruct r as [[p [er|]]| |]; [contradiction HP| |contradiction HP..].
  exists p, wd'. split; [reflexivity|].
  destruct (verify_sound (H := Demo.demo_sizing) 4 20 (fun _ => None) (fun _ => []) (fun _ => "sum"%string) (fun _ => Some sound_expected)
    sound_engine sound_request sound_fs "MANIFEST-000001" Demo.edits2 Demo.tables2 DbProps.ck_pre DbProps.ck_recs _ _
    ltac:(vm_compute; reflexivity) eq_refl eq_refl ltac:(discriminate) sound_on_disk
    ltac:(vm_compute; discriminate) ltac:(unfold keyed_entries; by_decide) ltac:(unfold keyed_entries; by_decide)
    ltac:(intros k; assert (Hne : map_Forall (fun _ c => c <> Some []) (disk_layer Demo.tables2.*2)) by by_decide; intros Hk; by apply (Hne k _ Hk))
    ltac:(vm_compute; lia) E) as (expected & Hl & Hag).
  assert (Hs : Ok (inl expected) = Ok (A := AtfDataset.MapExpectedState + oracle_error) (inl sound_expected)) by (rewrite <- Hl; vm_compute; reflexivity).
  injection Hs as ->. exact Hag.
Defined.

End AtfSound.
