(* ===== verification/AtfChild.v ===== *)
(** The child process of the acceptance framework and the controller that spawns it
    (internal/db/acceptance/framework/runner: child.go, subprocess.go).

    The child runs on the model of the database.  It dies at a crash point where the
    faults of the world make it die: the outcome [Crashed].  What it prints is left out.
    [GOARCH] is 64 bits, so int and int64 are the same. *)

From Stdlib Require Import ZArith Lia Ascii.
From stdpp Require Import sorting.
From S2P Require Import Prelude Word Fs GoStr Memtable Wal Manifest SstFormat SstWriter SstReader MergeIter.
From S2P Require Import SstMerge DbState DbFlush DbWrite DbRead DbCompact DbOpen DbInv Demo Cli AtfSession AtfCrash AtfDataset AtfVerify AtfVerifySpec.

Module AtfChild.
Import Db AtfDataset.

(** * child.go *)

(** [strconv.ParseInt(v, 10, 64)] *)
Definition ParseInt (s : string) : option Z :=
  let '(neg, digits) := match s with
    | String a rest => if decide (a = "-"%char) then (true, rest) else if decide (a = "+"%char) then (false, rest) else (false, s)
    | "" => (false, s)
    end%string in
  match GoStr.ParseUint digits with
  | None => None
  | Some un => if neg then if 2 ^ 63 <? un then None else Some (- un)
               else if 2 ^ 63 <=? un then None else Some un
  end.

(** The environment of a process: the last entry of a name counts; a missing one is "". *)
Fixpoint Getenv (env : list (string * string)) (key : string) : string :=
  match env with
  | [] => ""
  | (k, v) :: rest =>
      if decide (k = key /\ Forall (fun p => p.1 <> key) rest) then v else Getenv rest key
  end.

Definition parseInt64Env (env : list (string * string)) (key : string) (def : Z) : Z :=
  let v := Getenv env key in
  if decide (v = ""%string) then def else default def (ParseInt v).

Definition HasPrefix (s prefix : string) : bool := bool_decide (is_Some (GoStr.strip_prefix prefix s)).

(** The loop over the keys of [replayExpectedState]. *)
Fixpoint replay_keys {W} `{!LogicalWriter W} (expected : MapExpectedState) (keys : list bytes) (w : W) : io (W * option error) :=
  match keys with
  | [] => w_Sync w
  | key :: rest =>
      match Get expected key with
      | None => replay_keys expected rest w
      | Some snap =>
          let! (w, err) := (if vs_Tombstone snap then w_Delete key w else w_Put key (vs_Value snap) w) in
          match err with Some e => io_ret (w, Some e) | None => replay_keys expected rest w end
      end
  end.

Definition replayExpectedState {W} `{!LogicalWriter W} (w : W) (expected : MapExpectedState) : io (W * option error) :=
  replay_keys expected (Keys expected) w.

Section child.
Context `{!SstWriter.BloomSizing} (fuel : nat) (lock : option error) (coins : list (list bool)).
Context (Uint64 : nat -> Z) (Intn : nat -> Z -> Z) (canceled : nat -> nat -> bool).
Context (digest : MapExpectedState -> string) (marshal : MapExpectedState -> bytes).

Definition child_options (env : list (string * string)) : DbOpen.Options :=
  DbOpen.mkOptions (Getenv env "PEBBLEDB_TEST_DIR") (parseInt64Env env "PEBBLEDB_MEMTABLE_SIZE" (4 * 2 ^ 20))
    (parseInt64Env env "PEBBLEDB_COMPACTION_THRESHOLD" 4) (Wal.mkLimits 0 0 0 0)
    (default false (Cli.ParseBool (Getenv env "PEBBLEDB_SYNC_WRITES"))) None.

Definition child_generator (env : list (string * string)) : SequentialGenerator :=
  mkGenerator (parseInt64Env env "PEBBLEDB_SEED" 12345) (parseInt64Env env "PEBBLEDB_KEY_COUNT" 100)
    (parseInt64Env env "PEBBLEDB_OVERWRITE_COUNT" 10) (parseInt64Env env "PEBBLEDB_TOMBSTONE_EVERY" 5).

Definition doFlush (env : list (string * string)) : bool := negb (bool_decide (Getenv env "PEBBLEDB_FORCE_FLUSH" = "0"%string)).
Definition crashAt (env : list (string * string)) : string := Getenv env "PEBBLEDB_CRASH_AT".

(** [instance.Close()] and [os.Exit(1)] *)
Definition close_and_exit (d : DB) : io Z := let! _ := DbOpen.Close fuel d in io_ret 1.

(** From the end of the writes on: the exit code. *)
Definition child_finish (env : list (string * string)) (d : DB) : io Z :=
  let! (d, err) := DbOpen.Close fuel d in
  io_ret (match err with
          | Some _ => 1
          | None => if negb (bool_decide (crashAt env = ""%string)) && doFlush env then 1 else 0
          end).

(** A second table and a compaction. *)
Definition drive_compaction (expected : MapExpectedState) (d : DB) : io (DB * option error) :=
  let! (d, err) := replayExpectedState (LogicalWriter0 := DB_writer fuel) d expected in
  match err with
  | Some e => io_ret (d, Some e)
  | None =>
      let! (d, err) := DbOpen.ForceMemtableFlush fuel d in
      match err with
      | Some e => io_ret (d, Some e)
      | None => DbCompact.ForceCompaction d
      end
  end.

(** What is done between the saving of the expected state and the close. *)
Definition drive (env : list (string * string)) (expected : MapExpectedState) (d : DB) : io (DB * option error) :=
  if doFlush env then
    let! (d, err) := DbOpen.ForceMemtableFlush fuel d in
    match err with
    | Some e => io_ret (d, Some e)
    | None => if HasPrefix (crashAt env) "compact_" then drive_compaction expected d else io_ret (d, None)
    end
  else io_ret (d, None).

(** The exit code. *)
Definition RunChildProcessMain (env : list (string * string)) : io Z :=
  if decide (Getenv env "PEBBLEDB_TEST_DIR" = ""%string) then io_ret 1 else
  let! o := try (DbOpen.Open (child_options env) lock coins) in
  match o with
  | inr _ => io_ret 1
  | inl d =>
      let! (d, g) := Generate (LogicalWriter0 := DB_writer fuel) Uint64 Intn canceled (child_generator env) d in
      match g with
      | inr _ => close_and_exit d
      | inl expected =>
          let expected := set_ids expected (Getenv env "PEBBLEDB_SCENARIO_ID") (Getenv env "PEBBLEDB_EXECUTION_ID") in
          let! p := try (Persist digest marshal expected) in
          match p with
          | inr _ => close_and_exit d
          | inl expected =>
              let! (d, err) := drive env expected d in
              match err with
              | Some _ => close_and_exit d
              | None => child_finish env d
              end
          end
      end
  end.

End child.

(** * subprocess.go *)

Definition maxCaptureBytes : Z := 2 ^ 20.

Record limitedBuffer := mkBuffer { buf : string; limit : Z; trunc : bool }.

Definition len (s : string) : Z := Z.of_nat (String.length s).

(** It always reports the length of [p] and no error. *)
Definition Write (b : limitedBuffer) (p : string) : limitedBuffer :=
  let remaining := limit b - len (buf b) in
  if remaining <=? 0 then mkBuffer (buf b) (limit b) true
  else if remaining <? len p then mkBuffer (String.append (buf b) (String.substring 0 (Z.to_nat remaining) p)) (limit b) true
  else mkBuffer (String.append (buf b) p) (limit b) (trunc b).

Definition buffer_String (b : limitedBuffer) : string :=
  if trunc b then String.append (buf b) "...(truncated)" else buf b.

Definition truncate (s : string) (n : Z) : string :=
  if len s <=? n then s else String.append (String.substring 0 (Z.to_nat n) s) "...".

(** What [cmd.Run] returns: nil, an [*exec.ExitError] with its code, another error. *)
Inductive cmd_error := CmdOk | ExitError (code : Z) | CmdFailed (e : string).

(** The error, the writes to the standard error, and whether [runCtx] is done. *)
Record cmd_result := mkCmd { cmd_err : cmd_error; cmd_stderr : list string; ctxDone : bool; cmd_ms : Z }.

Inductive exec_error := TimedOutOrCanceled | SubprocessFailed (e : string) | SubprocessExit (code : Z) (stderr : string).

Definition option_env : list (string * string) := [
  ("memtable_size_bytes", "PEBBLEDB_MEMTABLE_SIZE"); ("compaction_threshold", "PEBBLEDB_COMPACTION_THRESHOLD");
  ("sync_writes", "PEBBLEDB_SYNC_WRITES"); ("seed", "PEBBLEDB_SEED"); ("key_count", "PEBBLEDB_KEY_COUNT");
  ("overwrite_count", "PEBBLEDB_OVERWRITE_COUNT"); ("tombstone_every", "PEBBLEDB_TOMBSTONE_EVERY")]%string.

(** [opts[k]] *)
Definition option_of (sc : AtfSession.ScenarioDefinition) (k : string) : option string :=
  snd <$> find (fun p => bool_decide (p.1 = k)) (AtfSession.OptionsMap sc).

(** The options that are set and not empty; the names are distinct, so that their order does not matter. *)
Definition options_env (sc : AtfSession.ScenarioDefinition) : list (string * string) :=
  omap (fun '(k, envKey) => match option_of sc k with
    | Some val => if decide (val = ""%string) then None else Some (envKey, val)
    | None => None
    end) option_env.

Definition decided_hook (d : AtfCrash.Decision) : string :=
  if AtfCrash.ShouldCrash_ d then AtfCrash.d_EngineHook d else "".

Definition child_env (environ : list (string * string)) (sessionID tempDir : string) (sc : AtfSession.ScenarioDefinition)
    (d : AtfCrash.Decision) : list (string * string) :=
  environ ++ [("PEBBLEDB_CHILD_PROCESS", "1"); ("PEBBLEDB_SCENARIO_ID", AtfSession.IDStr sc);
    ("PEBBLEDB_EXECUTION_ID", sessionID); ("PEBBLEDB_TEST_DIR", tempDir);
    (AtfCrash.EnvKeyCrashAt, decided_hook d); ("PEBBLEDB_FORCE_FLUSH", "1")]%string ++ options_env sc.

Definition noExecution : AtfSession.ExecutionResult := AtfSession.mkExecution 0 0 0 "" AtfSession.StateInit.

(** How the outcome of the command is classified. *)
Definition classify (runIndex : Z) (c : cmd_result) : AtfSession.ExecutionResult * option exec_error :=
  let stderrStr := buffer_String (fold_left Write (cmd_stderr c) (mkBuffer "" maxCaptureBytes false)) in
  let result code st := AtfSession.mkExecution runIndex code (cmd_ms c) (truncate stderrStr 512) st in
  let by_code exitCode :=
    if negb (exitCode =? 0) && negb (exitCode =? 2)
    then (result exitCode AtfSession.StateScenarioFailed, Some (SubprocessExit exitCode (truncate stderrStr 256)))
    else (result exitCode (if exitCode =? 2 then AtfSession.StateSubprocessCrashed else AtfSession.StateSubprocessExited), None) in
  let stopped := (result (-1) AtfSession.StateScenarioFailed, Some TimedOutOrCanceled) in
  match cmd_err c with
  | CmdOk => by_code 0
  | ExitError code => if ctxDone c then stopped else by_code code
  | CmdFailed e => if ctxDone c then stopped else (noExecution, Some (SubprocessFailed e))
  end.

(** [spawn] stands for the operating system: it runs the binary in the environment. *)
Definition RunSubprocess (spawn : list (string * string) -> io cmd_result) (environ : list (string * string)) (runIndex : Z)
    (sessionID tempDir : string) (sc : AtfSession.ScenarioDefinition) (d : AtfCrash.Decision)
  : io (AtfSession.ExecutionResult * option exec_error) :=
  let! c := spawn (child_env environ sessionID tempDir sc d) in
  io_ret (classify runIndex c).

(** ** What is captured *)

Lemma append_length a b : len (String.append a b) = len a + len b.
Proof. unfold len. induction a as [|c a IH]; [done|].
  change (String.append (String c a) b) with (String c (String.append a b)). cbn [String.length]. lia.
Qed.

Lemma substring_split n p : exists q, String.append (String.substring 0 n p) q = p /\ len (String.substring 0 n p) = Z.min (Z.of_nat n) (len p).
Proof.
  unfold len. revert n. induction p as [|c p IH]; intros [|n].
  1,2: by exists ""%string.
  { exists (String c p). split; [done|]. cbn. lia. }
  destruct (IH n) as (q & E & Hl). exists q. cbn [String.substring]. split; [|cbn [String.length]; lia].
  change (String c (String.append (String.substring 0 n p) q) = String c p). by rewrite E.
Qed.

Lemma append_assoc_string (a b c : string) : String.append (String.append a b) c = String.append a (String.append b c).
Proof. induction a as [|x a IH]; [done|]. exact (f_equal (String x) IH). Qed.

Lemma append_nil_r (a : string) : String.append a "" = a.
Proof. induction a as [|x a IH]; [done|]. exact (f_equal (String x) IH). Qed.

(** The buffer holds a prefix of what was written, of at most [limit] bytes; it is marked
    as truncated exactly when the prefix is proper. *)
Definition captures (b : limitedBuffer) (all : string) : Prop :=
  len (buf b) <= limit b /\ exists rest, String.append (buf b) rest = all /\ (trunc b = true <-> rest <> ""%string) /\ (trunc b = true -> len (buf b) = limit b).

Lemma Write_captures b all p : 0 < len p -> captures b all -> captures (Write b p) (String.append all p) /\ limit (Write b p) = limit b.
Proof.
  intros Hp (Hl & rest & E & Ht & Hfull). unfold Write, captures. destruct (Z.leb_spec (limit b - len (buf b)) 0) as [H0|H0].
  - cbn [buf limit trunc]. split; [|done]. split; [done|]. exists (String.append rest p). subst all. rewrite append_assoc_string.
    split; [done|]. split; [|intros; lia]. split; [|done]. intros _ Hn. apply (f_equal len) in Hn. rewrite append_length in Hn. change (len "") with 0 in Hn.
    unfold len in *. lia.
  - assert (Hr : rest = ""%string /\ trunc b = false).
    { destruct (trunc b); [specialize (Hfull eq_refl); lia|]. split; [|done].
      destruct rest; [done|]. assert (Hf : false = true) by (by apply Ht). discriminate. }
    destruct Hr as [-> Htr]. rewrite append_nil_r in E. subst all. destruct (Z.ltb_spec (limit b - len (buf b)) (len p)) as [H1|H1]; cbn [buf limit trunc].
    + destruct (substring_split (Z.to_nat (limit b - len (buf b))) p) as (q & Eq & Hq). rewrite append_length, Hq, Z2Nat.id by lia.
      split; [|done]. split; [lia|]. exists q. rewrite append_assoc_string, Eq. split; [done|]. split; [|intros; lia]. split; [|done]. intros _ ->.
      rewrite append_nil_r in Eq. rewrite Eq in Hq. unfold len in *. lia.
    + rewrite append_length. split; [|done]. split; [lia|]. exists ""%string. rewrite append_nil_r, Htr. split; [done|]. split; [|done]. split; [done|]. by intros [].
Qed.

(** The capture of a stream of non-empty writes: at most [maxCaptureBytes] of it, from its start. *)
Theorem stderr_captured ps : Forall (fun p => 0 < len p) ps ->
  captures (fold_left Write ps (mkBuffer "" maxCaptureBytes false)) (fold_left String.append ps ""%string).
Proof.
  intros Hps. assert (H : forall b all, captures b all -> captures (fold_left Write ps b) (fold_left String.append ps all)).
  { induction Hps as [|p ps Hp Hps IH]; intros b all Hb; [done|]. cbn [fold_left]. by apply IH, Write_captures. }
  apply H. split; [done|]. exists ""%string. split; [done|]. split; [|done]. split; [done|]. by intros [].
Qed.

(** * The second pass writes the expected state again *)

Lemma replay_keys_spec {W} `{!LogicalWriter W} expected keys : forall w wd w' wd', w_ok w ->
  Forall (fun k => is_Some (Get expected k)) keys -> replay_keys expected keys w wd = (Ok (w', None), wd') ->
  w_ok w' /\ forall k, view w' !! k = (if decide (k ∈ keys) then oracle (State expected) !! k else view w !! k).
Proof.
  induction keys as [|key keys IH]; intros w wd w' wd' Ho Hk E; cbn [replay_keys] in E.
  { destruct (w_Sync_ok _ _ _ _ Ho E) as [Ho' ->]. split; [done|]. intros k. by rewrite decide_False by apply not_elem_of_nil. }
  apply Forall_cons in Hk as [[s Hs] Hk]. rewrite Hs in E. apply bind_inv in E as ([w1 [e|]] & wd1 & E1 & E); [done|].
  assert (H1 : w_ok w1 /\ view w1 = <[key := oracle_cell s]> (view w)).
  { unfold oracle_cell. destruct (vs_Tombstone s); [by apply (w_Delete_ok _ _ _ _ _ Ho E1)|by apply (w_Put_ok _ _ _ _ _ _ Ho E1)]. }
  destruct H1 as [Ho1 Hv]. destruct (IH _ _ _ _ Ho1 Hk E) as [Ho' Hv']. split; [done|]. intros k. rewrite Hv'.
  destruct (decide (k ∈ keys)) as [Hin|Hin]; [by rewrite decide_True by by right|]. rewrite Hv, lookup_insert.
  case_decide as Hd; [subst k|].
  - rewrite decide_True by by left. unfold oracle. rewrite lookup_fmap. unfold Get in Hs. by rewrite Hs.
  - rewrite decide_False; [done|]. by intros [?|?]%elem_of_cons.
Qed.

(** the second write pass is idempotent.  Whatever writer satisfies the interface and
    whatever the disk does: when it returns no error, the writer holds the entries of the
    expected state in front of what it held; in particular a writer that held them before
    holds the same afterwards, so that the second table has the logical content of the
    first. *)
Theorem second_pass_idempotent {W} `{!LogicalWriter W} (w : W) expected wd w' wd' : w_ok w ->
  replayExpectedState w expected wd = (Ok (w', None), wd') ->
  w_ok w' /\ view w' = oracle (State expected) ∪ view w /\
  (oracle (State expected) ⊆ view w -> view w' = view w).
Proof.
  intros Ho E. destruct (replay_keys_spec expected _ _ _ _ _ Ho ltac:(apply Forall_forall; intros k; by rewrite AtfVerifySpec.elem_of_Keys) E)
    as [Ho' Hv].
  assert (Hu : view w' = oracle (State expected) ∪ view w).
  { apply map_eq. intros k. rewrite Hv, lookup_union. destruct (decide (k ∈ Keys expected)) as [[s Hs]%AtfVerifySpec.elem_of_Keys|Hk].
    - unfold oracle. rewrite lookup_fmap. unfold Get in Hs. rewrite Hs. cbn. by destruct (view w !! k).
    - unfold oracle. rewrite lookup_fmap. assert (Hn : State expected !! k = None).
      { apply eq_None_not_Some. intros Hs. apply Hk. by apply AtfVerifySpec.elem_of_Keys. }
      rewrite Hn. cbn. by destruct (view w !! k). }
  split; [done|]. split; [done|]. intros Hsub. rewrite Hu. by apply (map_subseteq_union (M := gmap bytes)).
Qed.

Lemma second_pass_idempotent_witness : exists w' wd',
  replayExpectedState (LogicalWriter0 := DB_writer 3) Demo.db3 (AtfVerifySpec.expected_of {[Demo.k1 := Some Demo.v2; Demo.k2 := None]})
    (mkWorld Demo.fs3 []) = (Ok (w', None), wd') /\
  DbWrite.memory_layer w' = {[Demo.k1 := Some Demo.v2; Demo.k2 := None]} ∪ DbWrite.memory_layer Demo.db3.
Proof.
  destruct (replayExpectedState (LogicalWriter0 := DB_writer 3) Demo.db3
    (AtfVerifySpec.expected_of {[Demo.k1 := Some Demo.v2; Demo.k2 := None]}) (mkWorld Demo.fs3 [])) as [r wd'] eqn:E.
  pose (P := fun x : res (DB * option error) * World => match x.1 with Ok (_, None) => True | _ => False end).
  assert (HP : P (r, wd')) by (rewrite <- E; vm_compute; exact I). unfold P in HP. cbn [fst] in HP.
  destruct r as [[w' [e|]]| |]; [contradiction HP| |contradiction HP..].
  exists w', wd'. split; [reflexivity|].
  destruct (second_pass_idempotent (LogicalWriter0 := DB_writer 3) Demo.db3 _ _ _ _ (DbInv.di_mem _ _ _ _ _ Demo.db3_inv) E) as (_ & Hv & _). cbn [view DB_writer] in Hv.
  rewrite Hv, AtfVerifySpec.oracle_expected_of. reflexivity.
Defined.

(** * Exit codes *)

(** The operating system runs [RunChildProcessMain]: a process that dies exits with 2, as
    both [os.Exit(2)] at a crash point and a panic make it. *)
Definition spawn_child (main : list (string * string) -> io Z) (env : list (string * string)) : io cmd_result := fun wd =>
  let exits code := mkCmd (if code =? 0 then CmdOk else ExitError code) [] false 0 in
  match main env wd with
  | (Ok code, wd') => (Ok (exits code), wd')
  | (Crashed, wd') => (Ok (exits 2), wd')
  | (Err _, wd') => (Ok (exits 1), wd')
  end.

Lemma Getenv_last env key v rest : Forall (fun p => p.1 <> key) rest -> Getenv (env ++ (key, v) :: rest) key = v.
Proof.
  intros Hr. induction env as [|[k x] env IH]; cbn [app Getenv].
  - by rewrite decide_True.
  - rewrite decide_False; [done|]. intros [_ H]. apply Forall_app in H as [_ H]. by apply Forall_cons in H as [H _].
Qed.

Lemma options_env_names sc key : key ∉ option_env.*2 -> Forall (fun p => p.1 <> key) (options_env sc).
Proof.
  intros Hk. apply Forall_forall. intros p Hp. unfold options_env in Hp. apply list_elem_of_omap in Hp as ([k e] & Hin & Hp).
  destruct (option_of sc k); [|done]. case_decide; [done|]. injection Hp as <-. cbn. intros <-. apply Hk.
  apply list_elem_of_fmap. by exists (k, e).
Qed.

(** What the child reads of the crash point and of the flush is what was decided. *)
Lemma child_env_crash environ sid dir sc d :
  crashAt (child_env environ sid dir sc d) = decided_hook d /\ doFlush (child_env environ sid dir sc d) = true.
Proof.
  unfold crashAt, doFlush, child_env. pose proof (options_env_names sc "PEBBLEDB_CRASH_AT" ltac:(by_decide)) as H1.
  pose proof (options_env_names sc "PEBBLEDB_FORCE_FLUSH" ltac:(by_decide)) as H2.
  set (names := [_; _; _; _; _; _]). split.
  - replace (environ ++ names ++ options_env sc) with ((environ ++ take 4 names) ++ drop 4 names ++ options_env sc)
      by (by rewrite <- app_assoc, (app_assoc (take 4 names)), take_drop).
    apply Getenv_last. by constructor.
  - replace (environ ++ names ++ options_env sc) with ((environ ++ take 5 names) ++ drop 5 names ++ options_env sc)
      by (by rewrite <- app_assoc, (app_assoc (take 5 names)), take_drop).
    cbn [drop names app]. by rewrite Getenv_last.
Qed.

Section exit.
Context `{!SstWriter.BloomSizing} (fuel : nat) (lock : option error) (coins : list (list bool)).
Context (Uint64 : nat -> Z) (Intn : nat -> Z -> Z) (canceled : nat -> nat -> bool).
Context (digest : MapExpectedState -> string) (marshal : MapExpectedState -> bytes).

Abbreviation main := (RunChildProcessMain fuel lock coins Uint64 Intn canceled digest marshal).

(** The child returns 0 or 1, and 0 only when no crash point was to be hit. *)
Lemma child_code env wd code wd' : main env wd = (Ok code, wd') ->
  code = 1 \/ code = 0 /\ (crashAt env = ""%string \/ doFlush env = false).
Proof.
  assert (Hclose : forall d wd code wd', close_and_exit fuel d wd = (Ok code, wd') -> code = 1).
  { intros d w c w' E. apply bind_inv in E as (x & w1 & _ & E). by injection E as <- _. }
  intros E. unfold RunChildProcessMain in E. case_decide; [injection E as <- _; by left|].
  apply bind_inv in E as ([d|e] & wd1 & _ & E); [|injection E as <- _; by left].
  apply bind_inv in E as ([d1 [m|e]] & wd2 & _ & E); [|left; by eapply Hclose].
  apply bind_inv in E as ([m1|e] & wd3 & _ & E); [|left; by eapply Hclose].
  apply bind_inv in E as ([d2 [e|]] & wd4 & _ & E); [left; by eapply Hclose|].
  apply bind_inv in E as ([d3 [e|]] & wd5 & _ & E); [injection E as <- _; by left|].
  injection E as <- _. case_bool_decide; cbn [negb andb]; [right; split; [done|by left]|].
  destruct (doFlush env); [by left|right; split; [done|by right]].
Qed.

End exit.

(** the exit protocol between child and parent.  The parent accepts exactly the exit
    codes 0 and 2.  When the binary is the child, code 0 means that no crash was decided
    (the child that survives a crash point it was told to hit exits with 1), and then the
    child ran to its end; code 2 means that it died; any other end is an error. *)
Theorem subprocess_protocol `{!SstWriter.BloomSizing} fuel lock coins Uint64 Intn canceled digest marshal environ runIndex sid dir sc d wd res err wd' :
  RunSubprocess (spawn_child (RunChildProcessMain fuel lock coins Uint64 Intn canceled digest marshal)) environ runIndex sid dir sc d wd
    = (Ok (res, err), wd') ->
  let ran := RunChildProcessMain fuel lock coins Uint64 Intn canceled digest marshal (child_env environ sid dir sc d) wd in
  match err with
  | None =>
      AtfSession.ExitCode res = 0 /\ AtfSession.StateAtExit res = AtfSession.StateSubprocessExited /\ decided_hook d = ""%string /\ ran = (Ok 0, wd') \/
      AtfSession.ExitCode res = 2 /\ AtfSession.StateAtExit res = AtfSession.StateSubprocessCrashed /\ ran = (Crashed, wd')
  | Some _ => AtfSession.StateAtExit res = AtfSession.StateScenarioFailed /\ AtfSession.ExitCode res = 1
  end.
Proof.
  intros E. apply bind_inv in E as (c & wd1 & E1 & E2). injection E2 as E2 <-. unfold spawn_child in E1. cbv zeta.
  pose proof (child_code fuel lock coins Uint64 Intn canceled digest marshal (child_env environ sid dir sc d) wd) as Hcode.
  destruct (child_env_crash environ sid dir sc d) as [Hc Hf]. rewrite Hc, Hf in Hcode.
  destruct (RunChildProcessMain _ _ _ _ _ _ _ _ _ _) as [[code|e|] wd2]; injection E1 as <- <-.
  - destruct (Hcode _ _ eq_refl) as [-> |[-> [Hd|?]]]; [| |done]; cbn in E2; injection E2 as <- <-; [done|by left].
  - cbn in E2. injection E2 as <- <-. by split.
  - cbn in E2. injection E2 as <- <-. right. by repeat split.
Qed.

(** A scenario with three keys, no crash point and a quiet disk. *)
Definition small_scenario : AtfSession.ScenarioDefinition :=
  AtfSession.mkScenario "small" "small" "1.0.0" 1 [] [] []
    [("key_count", "3"); ("overwrite_count", "1"); ("tombstone_every", "2"); ("sync_writes", "true")]%string "" [].

Definition small_main : list (string * string) -> io Z :=
  RunChildProcessMain (H := Demo.demo_sizing) 4 None [] (fun i => Z.of_nat i) (fun i n => Z.of_nat i mod n) (fun _ _ => false)
    (fun _ => "sum"%string) (fun _ => []).

Definition small_run (fl : list fault) : res (AtfSession.ExecutionResult * option exec_error) * World :=
  RunSubprocess (spawn_child small_main) [] 1 "run-1" "db" small_scenario AtfCrash.noDecision (mkWorld ∅ fl).

Lemma subprocess_protocol_witness : exists res wd', small_run [] = (Ok (res, None), wd') /\ AtfSession.ExitCode res = 0 /\
  fst (small_main (child_env [] "run-1" "db" small_scenario AtfCrash.noDecision) (mkWorld ∅ [])) = Ok 0.
Proof.
  destruct (small_run []) as [r wd'] eqn:E.
  pose (P := fun x : res (AtfSession.ExecutionResult * option exec_error) * World =>
    match x.1 with Ok (out, None) => AtfSession.ExitCode out = 0 | _ => False end).
  assert (HP : P (r, wd')) by (rewrite <- E; vm_compute; reflexivity). unfold P in HP. cbn [fst] in HP.
  destruct r as [[res [e|]]| |]; [contradiction HP| |contradiction HP..].
  exists res, wd'. split; [reflexivity|]. split; [exact HP|].
  destruct (subprocess_protocol _ _ _ _ _ _ _ _ _ _ _ _ _ _ _ _ _ _ E) as [(_ & _ & _ & Hr)|(H2 & _)]; [|congruence].
  unfold small_main. rewrite Hr. reflexivity.
Defined.

End AtfChild.
