(* ===== verification/AtfRunner.v ===== *)
(** The scenario runner of the acceptance framework
    (internal/db/acceptance/framework/runner/runner.go).

    [Run] takes a scenario through its life: reserve, scratch directory, crash decision,
    child process, recovery, verification.  The world is the scratch directory.  The
    resource manager is that of one goroutine: what others do to it between the calls is
    the subject of AtfResource.v.  Of the operating system, the answers to the requests
    for a directory, for a process and for the evidence bundle are arguments.  Telemetry
    and log messages are left out. *)

From Stdlib Require Import ZArith Lia QArith_base.
From S2P Require Import Prelude Word Fs GoStr Memtable Wal Manifest SstFormat SstWriter SstReader MergeIter.
From S2P Require Import SstMerge DbState DbFlush DbWrite DbRead DbOpen Demo.
From S2P Require Import AtfSession AtfResource AtfScheduler AtfDag AtfCrash AtfDataset AtfVerify AtfEngine AtfChild.

Module AtfRunner.
Import AtfSession.

(** * The runner *)

Record ScenarioRunner := mkRunner { resourceMgr : AtfResource.ResourceManager; crashManager : AtfCrash.Manager; hasEvidence : bool }.

(** [None] is the panic. *)
Definition NewScenarioRunner (rm : AtfResource.ResourceManager) : option ScenarioRunner :=
  match AtfCrash.NewBuiltinRegistry with
  | inr _ => None
  | inl reg => Some (mkRunner rm (AtfCrash.NewManager reg) false)
  end.

Definition SetEvidenceCollector (sr : ScenarioRunner) (notNil : bool) : ScenarioRunner :=
  mkRunner (resourceMgr sr) (crashManager sr) notNil.

(** What the returned error wraps. *)
Inductive cause :=
  | StateCause (e : state_error) | ResourceCause (e : AtfResource.resource_error) | DirCause (e : string)
  | CrashCause (e : AtfCrash.Error) | ExecCause (e : AtfChild.exec_error) | CrashExpected (point : string).

Inductive run_error := ExecutionError (stage : string) (c : cause) | ValidationError (nFail : Z) (e : option AtfEngine.engine_error).

Inductive run_event :=
  | SubprocessStarted (s : State) | SubprocessCrashed (s : State) | RecoveryStarted (s : State) | RecoveryFinished (s : State)
  | CrashEvent (e : AtfCrash.event) | EngineEvent (o : AtfEngine.observation) | EvidenceZipped (path : string).

(** ** toOutcome *)

Section outcome.
(** The text of what a failure shows. *)
Context (render : AtfVerify.shown -> string).

Definition toOutcome (report : AtfVerify.VerificationReport) : VerificationOutcome :=
  mkOutcome (AtfVerify.r_Passed report) (AtfVerify.r_PassedChecks report) (AtfVerify.r_FailedChecks report) 0
    (AtfVerify.r_Aborted report) (match AtfVerify.AbortReason report with Some s => render s | None => "" end)
    ((fun m => mkModuleOutcome (AtfVerify.m_Name m) (AtfVerify.m_Passed m) (AtfVerify.m_PassedChecks m) (AtfVerify.m_FailedChecks m) 0)
       <$> AtfVerify.ModuleResults report)
    ((fun f => mkVerifierFailure (AtfVerify.f_Verifier f) (render (AtfVerify.Bytes (AtfVerify.f_Key f)))
        (render (AtfVerify.ExpectedValue f)) (render (AtfVerify.RecoveredValue f)) (AtfVerify.Explanation f))
       <$> AtfVerify.report_failures report).

End outcome.

(** ** Run *)

(** What a run meets. *)
Record surroundings := mkSurroundings {
  environ : list (string * string);                          (* the environment of the parent *)
  spawn : list (string * string) -> io AtfChild.cmd_result;  (* the process *)
  mkdir : string -> string + string;                         (* the scratch directory, or an error *)
  package : option string;                                   (* the bundle, or an error *)
  reserveCanceled : bool;
  verify : AtfEngine.VerificationEngine -> AtfEngine.Request -> io (AtfEngine.progress * option AtfEngine.engine_error);
  render : AtfVerify.shown -> string
}.

(** How far a run has come: the tracker, the crash manager, the events. *)
Record run_state := mkRun { tracker : SessionTracker; crash_mgr : AtfCrash.Manager; events : list run_event }.

Definition publish (es : list run_event) (s : run_state) : run_state := mkRun (tracker s) (crash_mgr s) (events s ++ es).

Definition run_result := (ScenarioResult * option run_error)%type.

(** The closure [fail]. *)
Definition fail (id stage : string) (c : cause) (s : run_state) : run_state * run_result :=
  (mkRun (fst (Transition (tracker s) StateScenarioFailed)) (crash_mgr s) (events s),
   (mkResult id StatusFail 0 [] None "" "" "", Some (ExecutionError stage c))).

(** A transition and what follows, or [fail]. *)
Definition advance {A} (id stage : string) (new : State) (s : run_state) (k : run_state -> A) (no : run_state * run_result -> A) : A :=
  match Transition (tracker s) new with
  | (t, Some e) => no (fail id stage (StateCause e) (mkRun t (crash_mgr s) (events s)))
  | (t, None) => k (mkRun t (crash_mgr s) (events s))
  end.

Definition collectEvidence (sr : ScenarioRunner) (su : surroundings) : string * list run_event :=
  if hasEvidence sr then match package su with Some path => (path, [EvidenceZipped path]) | None => (""%string, []) end
  else (""%string, []).

(** The engine of a run; [None] is the panic of the registry. *)
Definition engine : option AtfEngine.VerificationEngine :=
  match AtfEngine.DefaultRegistry with
  | None => None
  | Some reg => AtfEngine.NewVerificationEngine (Some reg) (Some AtfVerify.DefaultOracleLoader) AtfEngine.DefaultEngineConfig
  end.

Definition run_request (sc : ScenarioDefinition) (sessID tempDir : string) : AtfEngine.Request :=
  AtfEngine.mkRequest (IDStr sc) sessID tempDir (AtfEngine.mkConfiguration (-1) 0 false) (VerifyDAGMap sc).

(** From the call of the engine on: the state, the result, and whether it passed. *)
Definition run_verify (sr : ScenarioRunner) (su : surroundings) (sc : ScenarioDefinition) (tempDir : string) (st : State)
    (execRes : ExecutionResult) (s : run_state) : io (run_state * run_result * bool) :=
  let id := IDStr sc in
  match engine with
  | None => io_res Crashed
  | Some eng =>
      let! (p, err) := verify su eng (run_request sc (sessionID (tracker s)) tempDir) in
      let report := AtfEngine.p_report p in
      let s := publish ((EngineEvent <$> AtfEngine.p_seen p) ++ [RecoveryFinished st]) s in
      if negb (bool_decide (err = None)) || negb (AtfVerify.r_Passed report) then
        let s := mkRun (fst (Transition (tracker s) StateScenarioFailed)) (crash_mgr s) (events s) in
        let '(path, es) := collectEvidence sr su in
        io_ret (publish es s,
          (mkResult id StatusFail 0 [execRes] (Some (toOutcome (render su) report)) tempDir path "verify",
           Some (ValidationError (AtfVerify.r_FailedChecks report) err)), false)
      else
        advance id "evidence" StateEvidenceCollected s (fun s =>
        advance id "complete" StateScenarioCompleted s (fun s =>
          io_ret (s, (mkResult id StatusPass 0 [execRes] (Some (toOutcome (render su) report)) tempDir "" "", None), true))
          (fun r => io_ret (r, false))) (fun r => io_ret (r, false))
  end.

(** From the child's exit to the verification. *)
Definition run_recover (sr : ScenarioRunner) (su : surroundings) (sc : ScenarioDefinition) (tempDir : string)
    (execRes : ExecutionResult) (s : run_state) : io (run_state * run_result * bool) :=
  let id := IDStr sc in
  let no r := io_ret (r, false) in
  let recover st s :=
    advance id "snapshot" StateDirectorySnapshoted s (fun s =>
    advance id "recovery_transition" StateRecoveryAttempted s (fun s =>
    advance id "verify_transition" StateVerificationRunning (publish [RecoveryStarted st] s) (fun s =>
      run_verify sr su sc tempDir st execRes s) no) no) no in
  if ExitCode execRes =? 2 then
    advance id "crash_transition" StateSubprocessCrashed s
      (fun s => recover StateSubprocessCrashed (publish [SubprocessCrashed StateSubprocessCrashed] s)) no
  else if negb (bool_decide (CrashPointStr sc = ""%string)) then no (fail id "crash_expected" (CrashExpected (CrashPointStr sc)) s)
  else advance id "exit_transition" StateSubprocessExited s (recover StateSubprocessExited) no.

Section run.
Context (Float64 : Z -> nat -> Q).

(** With the scratch directory. *)
Definition run_in_dir (sr : ScenarioRunner) (su : surroundings) (sc : ScenarioDefinition) (tempDir : string) (s : run_state)
  : io (run_state * run_result * bool) :=
  let id := IDStr sc in
  let no r := io_ret (r, false) in
  advance id "writing" StateSubprocessWriting s (fun s =>
    let s := publish [SubprocessStarted StateSubprocessWriting] s in
    let '(m, es, (decision, err)) :=
      AtfCrash.EvaluateForScenario Float64 (crash_mgr s) (sessionID (tracker s)) tempDir StateSubprocessWriting id (CrashPointStr sc)
        [("PEBBLEDB_FORCE_FLUSH", "1")]%string in
    let s := mkRun (tracker s) m (events s ++ (CrashEvent <$> es)) in
    match err with
    | Some e => no (fail id "crash_config" (CrashCause e) s)
    | None =>
        let! (execRes, xerr) := AtfChild.RunSubprocess (spawn su) (environ su) 1 (sessionID (tracker s)) tempDir sc decision in
        match xerr with
        | Some e => no (fail id "subprocess" (ExecCause e) s)
        | None => run_recover sr su sc tempDir execRes s
        end
    end) no.

(** What [Run] returns and leaves: the runner, the tracker, the events, and whether the
    scratch directory was removed. *)
Record run_out := mkOut {
  o_runner : ScenarioRunner; o_tracker : SessionTracker; o_events : list run_event; o_result : run_result; cleaned : option bool
}.

Definition the_request : AtfResource.ResourceRequest := AtfResource.mkRequest 1 128 32.

Definition finish (sr : ScenarioRunner) (rm : AtfResource.ResourceManager) (cl : option bool) (r : run_state * run_result) : run_out :=
  mkOut (mkRunner rm (crash_mgr r.1) (hasEvidence sr)) (tracker r.1) (events r.1) r.2 cl.

(** [None] while the reservation has to wait.  The two deferred calls run last to first:
    the directory is retained or removed, then the reservation is released. *)
Definition Run (sr : ScenarioRunner) (su : surroundings) (sc : ScenarioDefinition) (t : SessionTracker) : io (option run_out) :=
  let id := IDStr sc in
  let s := mkRun t (crashManager sr) [] in
  advance id "prepare" StateExecutionPrepared s (fun s =>
    match AtfResource.Reserve_enter (reserveCanceled su) (resourceMgr sr) the_request with
    | AtfResource.Waits => io_ret None
    | AtfResource.Refused e => io_ret (Some (finish sr (resourceMgr sr) None (fail id "reserve" (ResourceCause e) s)))
    | AtfResource.Granted rm =>
        let released := (AtfResource.Release rm (Some (the_request, false))).1.1.1 in
        match mkdir su id with
        | inr e => io_ret (Some (finish sr released None (fail id "tempdir" (DirCause e) s)))
        | inl tempDir =>
            let! (r, passed) := run_in_dir sr su sc tempDir s in
            io_ret (Some (finish sr released (Some (AtfResource.RetainOrClean rm passed)) r))
        end
    end)
    (fun r => io_ret (Some (finish sr (resourceMgr sr) None r))).

(** * The life of a run *)

Lemma advance_step {A} id stage new s (k : run_state -> A) no l : AllowedTransitions (state (tracker s)) = Some l -> new ∈ l ->
  advance id stage new s k no = k (mkRun (mkTracker (sessionID (tracker s)) new (createdAt (tracker s))) (crash_mgr s) (events s)).
Proof. intros Hl Hin. unfold advance, Transition. by rewrite Hl, decide_True. Qed.

(** How a run ends: passed, or failed for another reason than a forbidden transition. *)
Definition honest (e : run_error) : Prop := forall stage se, e <> ExecutionError stage (StateCause se).

Definition ends (id : string) (t : SessionTracker) (r : run_result) (passed : bool) : Prop :=
  ScenarioID r.1 = id /\
  if passed then r.2 = None /\ StatusVal r.1 = StatusPass /\ state t = StateScenarioCompleted
  else (exists e, r.2 = Some e /\ honest e) /\ StatusVal r.1 = StatusFail /\ state t = StateScenarioFailed.

Lemma fail_ends id stage c s l : AllowedTransitions (state (tracker s)) = Some l -> StateScenarioFailed ∈ l ->
  (forall se, c <> StateCause se) -> ends id (tracker (fail id stage c s).1) (fail id stage c s).2 false.
Proof.
  intros Hl Hin Hc. unfold fail, Transition. rewrite Hl, decide_True by done. split; [done|]. split; [|done].
  eexists. split; [reflexivity|]. intros st se [= _ E]. by apply (Hc se).
Qed.

(** What a pass rests on: the engine returned no error and a report that passed. *)
Definition verified (su : surroundings) (sc : ScenarioDefinition) (sid tempDir : string) : Prop :=
  exists eng p wd wd', engine = Some eng /\
    verify su eng (run_request sc sid tempDir) wd = (Ok (p, None), wd') /\ AtfVerify.r_Passed (AtfEngine.p_report p) = true.

Lemma run_verify_spec sr su sc tempDir st execRes s wd s' r passed wd' : state (tracker s) = StateVerificationRunning ->
  run_verify sr su sc tempDir st execRes s wd = (Ok (s', r, passed), wd') ->
  ends (IDStr sc) (tracker s') r passed /\
  (passed = true -> Executions r.1 = [execRes] /\ verified su sc (sessionID (tracker s)) tempDir).
Proof.
  intros Hs E. unfold run_verify in E. destruct engine as [eng|] eqn:He; [|done].
  apply AtfDataset.bind_inv in E as ([p err] & wd1 & E1 & E).
  destruct (bool_decide (err = None)) eqn:Hn; cbn [negb orb] in E.
  - apply bool_decide_eq_true in Hn as ->. destruct (AtfVerify.r_Passed (AtfEngine.p_report p)) eqn:Hp; cbn [negb] in E.
    + rewrite (advance_step _ _ _ _ _ _ [StateEvidenceCollected; StateScenarioFailed]) in E by (cbn; rewrite ?Hs; by_decide).
      rewrite (advance_step _ _ _ _ _ _ [StateScenarioCompleted; StateScenarioFailed]) in E by (cbn; by_decide).
      injection E as <- <- <- _. split; [done|]. intros _. split; [done|]. by exists eng, p, wd, wd1.
    + destruct (collectEvidence sr su) as [path es]. injection E as <- <- <- _. cbn [tracker publish]. unfold Transition. rewrite Hs. cbn.
      split; [|done]. split; [done|]. split; [|done]. eexists. split; [reflexivity|]. by intros.
  - destruct (collectEvidence sr su) as [path es]. injection E as <- <- <- _. cbn [tracker publish]. unfold Transition. rewrite Hs. cbn.
    split; [|done]. split; [done|]. split; [|done]. eexists. split; [reflexivity|]. by intros.
Qed.

Lemma run_recover_spec sr su sc tempDir execRes s wd s' r passed wd' : state (tracker s) = StateSubprocessWriting ->
  run_recover sr su sc tempDir execRes s wd = (Ok (s', r, passed), wd') ->
  ends (IDStr sc) (tracker s') r passed /\
  (passed = true -> Executions r.1 = [execRes] /\ (ExitCode execRes = 2 \/ CrashPointStr sc = ""%string) /\
     verified su sc (sessionID (tracker s)) tempDir).
Proof.
  intros Hs E. unfold run_recover in E. destruct (Z.eqb_spec (ExitCode execRes) 2) as [Hx|Hx].
  - rewrite (advance_step _ _ _ _ _ _ [StateSubprocessCrashed; StateSubprocessExited; StateScenarioFailed]) in E by (rewrite ?Hs; by_decide).
    rewrite (advance_step _ _ _ _ _ _ [StateDirectorySnapshoted; StateScenarioFailed]) in E by (cbn; by_decide).
    rewrite (advance_step _ _ _ _ _ _ [StateRecoveryAttempted; StateScenarioFailed]) in E by (cbn; by_decide).
    rewrite (advance_step _ _ _ _ _ _ [StateVerificationRunning; StateScenarioFailed]) in E by (cbn; by_decide).
    apply run_verify_spec in E as [He Hp]; [|done]. split; [done|]. intros H. destruct (Hp H). eauto.
  - destruct (bool_decide (CrashPointStr sc = ""%string)) eqn:Hc; cbn [negb] in E.
    + rewrite (advance_step _ _ _ _ _ _ [StateSubprocessCrashed; StateSubprocessExited; StateScenarioFailed]) in E by (rewrite ?Hs; by_decide).
      rewrite (advance_step _ _ _ _ _ _ [StateDirectorySnapshoted; StateScenarioFailed]) in E by (cbn; by_decide).
      rewrite (advance_step _ _ _ _ _ _ [StateRecoveryAttempted; StateScenarioFailed]) in E by (cbn; by_decide).
      rewrite (advance_step _ _ _ _ _ _ [StateVerificationRunning; StateScenarioFailed]) in E by (cbn; by_decide).
      apply bool_decide_eq_true in Hc. apply run_verify_spec in E as [He Hp]; [|done]. split; [done|]. intros H. destruct (Hp H). eauto.
    + injection E as <- <- <- _. split; [|done].
      apply (fail_ends _ _ _ _ [StateSubprocessCrashed; StateSubprocessExited; StateScenarioFailed]); [by rewrite Hs|by_decide|done].
Qed.

Lemma classify_code runIndex c res : AtfChild.classify runIndex c = (res, None) -> ExitCode res = 0 \/ ExitCode res = 2.
Proof.
  assert (Hby : forall code : Z, negb (code =? 0) && negb (code =? 2) = false -> code = 0 \/ code = 2).
  { intros code. destruct (Z.eqb_spec code 0), (Z.eqb_spec code 2); cbn; auto. done. }
  unfold AtfChild.classify. destruct (AtfChild.cmd_err c) as [|code|e]; [intros [= <-]; by left| |by destruct (AtfChild.ctxDone c)].
  destruct (AtfChild.ctxDone c); [done|]. destruct (negb (code =? 0) && negb (code =? 2)) eqn:Hc; [done|]. intros [= <-]. by apply Hby.
Qed.

(** The child's end that a pass needs: it died where a crash point was named, or, without
    one, died or exited cleanly. *)
Definition ended_well (sc : ScenarioDefinition) (execRes : ExecutionResult) : Prop :=
  ExitCode execRes = 2 \/ ExitCode execRes = 0 /\ CrashPointStr sc = ""%string.

Lemma run_in_dir_spec sr su sc tempDir s wd s' r passed wd' : state (tracker s) = StateExecutionPrepared ->
  run_in_dir sr su sc tempDir s wd = (Ok (s', r, passed), wd') ->
  ends (IDStr sc) (tracker s') r passed /\
  (passed = true -> (exists execRes, Executions r.1 = [execRes] /\ ended_well sc execRes) /\ verified su sc (sessionID (tracker s)) tempDir).
Proof.
  intros Hs E. unfold run_in_dir in E.
  rewrite (advance_step _ _ _ _ _ _ [StateSubprocessWriting; StateScenarioFailed]) in E by (rewrite ?Hs; by_decide). cbn [crash_mgr tracker publish sessionID] in E.
  assert (Hfail : forall stage c m es, (forall se, c <> StateCause se) -> forall x wd1,
    x = fail (IDStr sc) stage c (mkRun (mkTracker (sessionID (tracker s)) StateSubprocessWriting (createdAt (tracker s))) m es) ->
    io_ret (x, false) wd1 = (Ok (s', r, passed), wd') -> ends (IDStr sc) (tracker s') r passed /\ passed = false).
  { intros stage c m es Hc x wd1 Hx E'. assert (H : ends (IDStr sc) (tracker x.1) x.2 false).
    { rewrite Hx. by apply (fail_ends _ _ _ _ [StateSubprocessCrashed; StateSubprocessExited; StateScenarioFailed]); [|by_decide|]. }
    clear Hx. destruct x as [x1 x2]. by injection E' as <- <- <- _. }
  destruct (AtfCrash.EvaluateForScenario _ _ _ _ _ _ _) as [[m es] [decision [er|]]].
  { destruct (Hfail _ (CrashCause er) _ _ ltac:(intros ? H; discriminate H) _ _ eq_refl E) as [? ->]. done. }
  apply AtfDataset.bind_inv in E as ([execRes [xe|]] & wd1 & E1 & E).
  { destruct (Hfail _ (ExecCause xe) _ _ ltac:(intros ? H; discriminate H) _ _ eq_refl E) as [? ->]. done. }
  apply AtfDataset.bind_inv in E1 as (c & wd2 & _ & E1). injection E1 as E1 _. apply classify_code in E1.
  apply run_recover_spec in E as [He Hp]; [|done]. split; [done|]. intros H. destruct (Hp H) as (H1 & H2 & H3). split; [|done].
  exists execRes. split; [done|]. unfold ended_well. tauto.
Qed.

(** Counters far from overflow, and the same counters. *)
Definition sane (rm : AtfResource.ResourceManager) : Prop :=
  0 <= AtfResource.allocatedCPUs rm < 2 ^ 62 /\ 0 <= AtfResource.allocatedMemoryMB rm < 2 ^ 62 /\ 0 <= AtfResource.allocatedFDs rm < 2 ^ 62.

Definition same_budgets (rm rm' : AtfResource.ResourceManager) : Prop :=
  AtfResource.allocatedCPUs rm' = AtfResource.allocatedCPUs rm /\ AtfResource.allocatedMemoryMB rm' = AtfResource.allocatedMemoryMB rm /\
  AtfResource.allocatedFDs rm' = AtfResource.allocatedFDs rm.

Lemma released_same rm rm' c : sane rm -> AtfResource.Reserve_enter c rm the_request = AtfResource.Granted rm' ->
  same_budgets rm (AtfResource.Release rm' (Some (the_request, false))).1.1.1 /\
  AtfResource.retainArtifacts rm' = AtfResource.retainArtifacts rm.
Proof.
  intros (H1 & H2 & H3). unfold AtfResource.Reserve_enter. change (AtfResource.negative the_request) with false.
  destruct (AtfResource.canAllocateLocked rm the_request); [|by destruct c]. intros [= <-]. split; [|done].
  unfold AtfResource.Release. cbn [AtfResource.grant the_request AtfResource.CPUs AtfResource.MemoryMB AtfResource.FileDescriptor
    AtfResource.allocatedCPUs AtfResource.allocatedMemoryMB AtfResource.allocatedFDs].
  rewrite (int64_id (AtfResource.allocatedCPUs rm + 1)), (int64_id (AtfResource.allocatedMemoryMB rm + 128)), (int64_id (AtfResource.allocatedFDs rm + 32)) by lia.
  rewrite !Z.add_simpl_r, !int64_id by lia. by case_match.
Qed.

End run.

(** C37: the life of a scenario, which passes only when it was verified.  From a fresh tracker,
    whatever the disk, the child and the environment do, a run that returns ends in one of
    two ways.  It passed: the error is nil, the status Pass, the tracker Completed, the
    scratch directory removed, and it rests on a child that exited with 2 (whether or not a
    crash point was named), or with 0 with no crash point named, and on an engine that returned no error and a report that passed.
    Or it failed: an error that is never a forbidden transition, the status Fail, the tracker
    Failed, and the directory kept when artifacts are to be retained.  In both cases the
    budgets of the resource manager are back where they were. *)
Theorem runner_life Float64 sr su sc t wd o wd' : state t = StateScenarioRunning -> sane (resourceMgr sr) ->
  Run Float64 sr su sc t wd = (Ok (Some o), wd') ->
  exists passed, ends (IDStr sc) (o_tracker o) (o_result o) passed /\ same_budgets (resourceMgr sr) (resourceMgr (o_runner o)) /\
    if passed : bool then cleaned o = Some true /\ exists tempDir, mkdir su (IDStr sc) = inl tempDir /\
      (exists execRes, Executions (o_result o).1 = [execRes] /\ ended_well sc execRes) /\ verified su sc (sessionID t) tempDir
    else cleaned o = None \/ cleaned o = Some (negb (AtfResource.retainArtifacts (resourceMgr sr))).
Proof.
  intros Hs Hrm E. unfold Run in E.
  rewrite (advance_step _ _ _ _ _ _ [StateExecutionPrepared; StateScenarioCompleted; StateScenarioFailed]) in E by (cbn; rewrite ?Hs; by_decide).
  set (s0 := mkRun _ _ _) in E.
  assert (Hfail : forall stage c, (forall se, c <> StateCause se) ->
    ends (IDStr sc) (tracker (fail (IDStr sc) stage c s0).1) (fail (IDStr sc) stage c s0).2 false).
  { intros stage c Hc. by apply (fail_ends _ _ _ _ [StateSubprocessWriting; StateScenarioFailed]); [|by_decide|]. }
  destruct (AtfResource.Reserve_enter _ _ _) as [rm| |e] eqn:Er; [|done|].
  2:{ injection E as <- _. exists false. split; [by apply Hfail|]. split; [done|by left]. }
  destruct (released_same _ _ _ Hrm Er) as [Hb Hret]. destruct (mkdir su (IDStr sc)) as [tempDir|e] eqn:Hd.
  2:{ injection E as <- _. exists false. split; [by apply Hfail|]. split; [done|by left]. }
  apply AtfDataset.bind_inv in E as ([[s1 r1] passed] & wd1 & E1 & E). injection E as <- _.
  apply run_in_dir_spec in E1 as [He Hp]; [|done]. exists passed. split; [done|]. split; [done|].
  cbn [finish cleaned o_result snd]. unfold AtfResource.RetainOrClean. destruct passed; cbn [negb andb].
  - split; [done|]. exists tempDir. split; [done|]. by apply Hp.
  - right. by rewrite Hret.
Qed.

(** The small scenario with the real child and the real engine. *)
Definition small_expected : AtfDataset.MapExpectedState :=
  let m := (let! d := DbOpen.Open (AtfChild.child_options [("PEBBLEDB_TEST_DIR", "db")]%string) None [] in
            AtfDataset.Generate (LogicalWriter0 := AtfDataset.DB_writer (H := Demo.demo_sizing) 4) (fun i => Z.of_nat i) (fun i n => Z.of_nat i mod n)
              (fun _ _ => false) (AtfDataset.mkGenerator 12345 3 1 2) d) in
  match m (mkWorld ∅ []) with
  | (Ok (_, inl m), _) => AtfDataset.set_Checksum (AtfDataset.set_ids m "small" "run-1") "sum"
  | _ => AtfDataset.NewMapExpectedState 0 0
  end.

Definition small_surroundings : surroundings :=
  mkSurroundings [] (AtfChild.spawn_child AtfChild.small_main) (fun _ => inl "db"%string) None false
    (AtfEngine.Verify (H := Demo.demo_sizing) 4 20 (fun _ => false) (fun _ => None) (fun _ => []) (fun _ => "sum"%string) (fun _ => Some small_expected))
    (fun _ => ""%string).

Definition small_life (sr : ScenarioRunner) : res (option run_out) * World :=
  Run (fun _ _ => 0%Q) sr small_surroundings AtfChild.small_scenario (NewSessionTracker "run-1" 0 StateScenarioRunning) (mkWorld ∅ []).

Lemma runner_life_witness : exists sr o wd', NewScenarioRunner (AtfResource.NewResourceManager 4 1024 256) = Some sr /\
  small_life sr = (Ok (Some o), wd') /\ StatusVal (o_result o).1 = StatusPass /\ state (o_tracker o) = StateScenarioCompleted.
Proof.
  destruct (NewScenarioRunner (AtfResource.NewResourceManager 4 1024 256)) as [sr|] eqn:Hsr; [|vm_compute in Hsr; discriminate].
  destruct (small_life sr) as [r wd'] eqn:E.
  pose (P := fun x : option ScenarioRunner => match x with
    | Some sr => AtfResource.allocatedCPUs (resourceMgr sr) = 0 /\ AtfResource.allocatedMemoryMB (resourceMgr sr) = 0 /\ AtfResource.allocatedFDs (resourceMgr sr) = 0 /\
        match small_life sr with (Ok (Some o), _) => StatusVal (o_result o).1 = StatusPass | _ => False end
    | None => False end).
  assert (HP : P (Some sr)) by (rewrite <- Hsr; vm_compute; exact (conj eq_refl (conj eq_refl (conj eq_refl eq_refl)))).
  unfold P in HP. rewrite E in HP. destruct HP as (H1 & H2 & H3 & HP). destruct r as [[o|]| |]; [|contradiction HP..].
  exists sr, o, wd'. split; [reflexivity|]. split; [exact E|]. split; [exact HP|].
  assert (Hsane : sane (resourceMgr sr)) by (unfold sane; rewrite H1, H2, H3; lia).
  destruct (runner_life (fun _ _ => 0%Q) sr small_surroundings AtfChild.small_scenario (NewSessionTracker "run-1" 0 StateScenarioRunning)
    _ _ _ eq_refl Hsane E) as ([] & (_ & He) & _).
  - exact (proj2 (proj2 He)).
  - exfalso. destruct He as (_ & Hst & _). rewrite Hst in HP. discriminate HP.
Defined.

(** * The runner is an executor *)

(** The runner, its surroundings and the state of the disk, such that a run returns. *)
Record one_run := mkOneRun {
  x_rand : Z -> nat -> Q; x_runner : ScenarioRunner; x_su : surroundings; x_world : World;
  x_returns : forall sc t, exists o wd', Run x_rand x_runner x_su sc t x_world = (Ok (Some o), wd')
}.

(** The result of a run, which exists. *)
Definition result_of (x : one_run) (sc : ScenarioDefinition) (t : SessionTracker) : run_result :=
  match Run (x_rand x) (x_runner x) (x_su x) sc t (x_world x) with
  | (Ok (Some o), _) => o_result o
  | _ => (noResult, None)
  end.

(** The status and the error of a result agree. *)
Definition agree (id : string) (r : run_result) : Prop :=
  ScenarioID r.1 = id /\ StatusVal r.1 = if bool_decide (r.2 = None) then StatusPass else StatusFail.

Lemma advance_agrees id stage new s (k : run_state -> io (run_state * run_result * bool)) wd x wd' :
  advance id stage new s k (fun r => io_ret (r, false)) wd = (Ok x, wd') ->
  (forall s wd, k s wd = (Ok x, wd') -> agree id x.1.2) -> agree id x.1.2.
Proof.
  unfold advance. destruct (Transition (tracker s) new) as [t [e|]]; intros E Hk; [|by eapply Hk]. by injection E as <- _.
Qed.

Lemma run_verify_agrees sr su sc tempDir st execRes s wd x wd' :
  run_verify sr su sc tempDir st execRes s wd = (Ok x, wd') -> agree (IDStr sc) x.1.2.
Proof.
  unfold run_verify. destruct engine as [eng|]; [|done]. intros E. apply AtfDataset.bind_inv in E as ([p err] & wd1 & _ & E).
  destruct (negb _ || _).
  - destruct (collectEvidence sr su). by injection E as <- _.
  - eapply advance_agrees; [exact E|]. intros s1 w1 E1. eapply advance_agrees; [exact E1|]. intros s2 w2 E2. by injection E2 as <- _.
Qed.

Lemma run_recover_agrees sr su sc tempDir execRes s wd x wd' :
  run_recover sr su sc tempDir execRes s wd = (Ok x, wd') -> agree (IDStr sc) x.1.2.
Proof.
  intros E. assert (Hrec : forall st s wd, advance (IDStr sc) "snapshot" StateDirectorySnapshoted s (fun s =>
    advance (IDStr sc) "recovery_transition" StateRecoveryAttempted s (fun s =>
    advance (IDStr sc) "verify_transition" StateVerificationRunning (publish [RecoveryStarted st] s) (fun s =>
      run_verify sr su sc tempDir st execRes s) (fun r => io_ret (r, false))) (fun r => io_ret (r, false))) (fun r => io_ret (r, false)) wd = (Ok x, wd') ->
    agree (IDStr sc) x.1.2).
  { intros st s0 w0 E0. eapply advance_agrees; [exact E0|]. intros s1 w1 E1. eapply advance_agrees; [exact E1|]. intros s2 w2 E2. cbv beta zeta in E2.
    eapply advance_agrees; [exact E2|]. intros s3 w3 E3. by eapply run_verify_agrees. }
  unfold run_recover in E. destruct (_ =? 2).
  - eapply advance_agrees; [exact E|]. intros s1 w1 E1. exact (Hrec _ _ _ E1).
  - destruct (negb _); [by injection E as <- _|]. eapply advance_agrees; [exact E|]. intros s1 w1 E1. exact (Hrec _ _ _ E1).
Qed.

(** From whatever state the tracker is in. *)
Lemma run_agrees Float64 sr su sc t wd o wd' : Run Float64 sr su sc t wd = (Ok (Some o), wd') -> agree (IDStr sc) (o_result o).
Proof.
  unfold Run, advance. destruct (Transition _ _) as [t1 [e|]]; intros E; [by injection E as <- _|].
  destruct (AtfResource.Reserve_enter _ _ _) as [rm| |e]; [|done|by injection E as <- _].
  destruct (mkdir su (IDStr sc)) as [tempDir|e]; [|by injection E as <- _].
  apply AtfDataset.bind_inv in E as ([r passed] & wd1 & E1 & E). injection E as <- _.
  change (agree (IDStr sc) (r, passed).1.2). eapply advance_agrees; [exact E1|]. intros s2 w2 E2. cbv beta zeta in E2.
  destruct (AtfCrash.EvaluateForScenario _ _ _ _ _ _ _) as [[m es] [decision [er|]]]; [by injection E2 as <- _|].
  apply AtfDataset.bind_inv in E2 as ([execRes [xe|]] & w3 & _ & E2); [by injection E2 as <- _|]. by eapply run_recover_agrees.
Qed.

(** What the scheduler asks of an executor holds of the runner. *)
#[export] Program Instance runner_executor : AtfScheduler.ScenarioExecutor one_run := {|
  AtfScheduler.Run x sc t := let '(res, err) := result_of x sc t in (res, bool_decide (err = None))
|}.
Next Obligation.
  intros x sc t. destruct (x_returns x sc t) as (o & wd' & E). unfold result_of. rewrite E.
  pose proof (run_agrees _ _ _ _ _ _ _ _ E) as [Hid _]. by destruct (o_result o).
Qed.
Next Obligation.
  intros x sc t. destruct (x_returns x sc t) as (o & wd' & E). unfold result_of. rewrite E.
  pose proof (run_agrees _ _ _ _ _ _ _ _ E) as [_ Hst]. by destruct (o_result o).
Qed.

End AtfRunner.
