(* ===== verification/AtfBus.v ===== *)
(** The event bus of the acceptance framework
    (internal/db/acceptance/framework/eventbus/eventbus.go).

    The bus runs goroutines: one per call of [Publish] and subscriber, and one loop per
    subscriber.  [exec] performs one atomic action of one of them; a run is a sequence of
    such actions in any order.  Subscribers are the wrappers of the source, numbered; a
    wait group is at zero when no goroutine it counts is left.  Events are numbered by
    their publication.  Log messages are left out; that a subscriber panics is not seen
    from outside, since [invokeSubscriber] recovers. *)

From Stdlib Require Import ZArith Lia.
From S2P Require Import Prelude.

Module AtfBus.

(** * State *)

Definition capacity : nat := 64.

Record channel := mkChan { buffer : list nat; isClosed : bool }.

(** The goroutines that are inside a call: behind the snapshot of [Publish] with the
    subscribers it has not reached, a dispatch, [Unsubscribe] before its close, [Stop]
    at its first wait, at its closes, at its second wait. *)
Inductive thread :=
  | Publishing (ev : nat) (todo : list nat) (ctx : nat)
  | Dispatching (ev w ctx : nat)
  | Unsubscribing (w : nat)
  | StopDraining (todo : list nat)
  | StopClosing (todo : list nat)
  | StopWaiting.

(** [ctx] numbers the contexts of the bus, [loops] are the running subscriber loops,
    [panicked] a goroutine that sent on a closed channel. *)
Record bus := mkBus {
  running : bool; ctx : nat; canceled : gset nat; subscribers : gmap string nat; chans : gmap nat channel;
  threads : gmap nat thread; loops : gset nat; delivered : gmap nat (list nat); published : nat; panicked : bool
}.

Definition NewEventBus : bus := mkBus false 0 ∅ ∅ ∅ ∅ ∅ ∅ 0 false.

Definition set_threads (t : gmap nat thread) (b : bus) : bus :=
  mkBus (running b) (ctx b) (canceled b) (subscribers b) (chans b) t (loops b) (delivered b) (published b) (panicked b).
Definition set_chans (c : gmap nat channel) (b : bus) : bus :=
  mkBus (running b) (ctx b) (canceled b) (subscribers b) c (threads b) (loops b) (delivered b) (published b) (panicked b).
Definition set_subscribers (s : gmap string nat) (b : bus) : bus :=
  mkBus (running b) (ctx b) (canceled b) s (chans b) (threads b) (loops b) (delivered b) (published b) (panicked b).

Definition set_delivered (d : gmap nat (list nat)) (b : bus) : bus :=
  mkBus (running b) (ctx b) (canceled b) (subscribers b) (chans b) (threads b) (loops b) d (published b) (panicked b).
Definition set_loops (ls : gset nat) (b : bus) : bus :=
  mkBus (running b) (ctx b) (canceled b) (subscribers b) (chans b) (threads b) ls (delivered b) (published b) (panicked b).

Definition panic (b : bus) : bus :=
  mkBus (running b) (ctx b) (canceled b) (subscribers b) (chans b) (threads b) (loops b) (delivered b) (published b) true.

(** ** The calls, under the lock *)

Definition Start (b : bus) : bus :=
  if running b then b
  else mkBus true (S (ctx b)) (canceled b) (subscribers b) (chans b) (threads b) (loops b) (delivered b) (published b) (panicked b).

Inductive bus_error := NotStarted | AlreadyRegistered | NotFound.

(** The new wrapper and its loop. *)
Definition Subscribe (name : string) (b : bus) : bus * option bus_error :=
  if negb (running b) then (b, Some NotStarted)
  else match subscribers b !! name with
       | Some _ => (b, Some AlreadyRegistered)
       | None =>
           let w := size (chans b) in
           (mkBus (running b) (ctx b) (canceled b) (<[name := w]> (subscribers b)) (<[w := mkChan [] false]> (chans b))
              (threads b) ({[w]} ∪ loops b) (<[w := []]> (delivered b)) (published b) (panicked b), None)
       end.

(** The wrapper is taken out; it is closed later by the goroutine [t]. *)
Definition Unsubscribe (t : nat) (name : string) (b : bus) : bus * option bus_error :=
  match subscribers b !! name with
  | None => (b, Some NotFound)
  | Some w => (set_threads (<[t := Unsubscribing w]> (threads b)) (set_subscribers (delete name (subscribers b)) b), None)
  end.

Definition registered (b : bus) : list nat := (map_to_list (subscribers b)).*2.

(** The snapshot of the subscribers. *)
Definition Publish (t : nat) (b : bus) : bus :=
  if negb (running b) then b
  else mkBus (running b) (ctx b) (canceled b) (subscribers b) (chans b) (<[t := Publishing (published b) (registered b) (ctx b)]> (threads b))
         (loops b) (delivered b) (S (published b)) (panicked b).

Definition Stop (t : nat) (b : bus) : bus :=
  if negb (running b) then b
  else mkBus false (ctx b) ({[ctx b]} ∪ canceled b) ∅ (chans b) (<[t := StopDraining (registered b)]> (threads b))
         (loops b) (delivered b) (published b) (panicked b).

(** [closed.Do(func() { close(w.ch) })] *)
Definition close_chan (w : nat) (b : bus) : bus := set_chans (alter (fun c => mkChan (buffer c) true) w (chans b)) b.

(** * Goroutines *)

Inductive label :=
  | CallStart | CallSubscribe (name : string) | CallUnsubscribe (t : nat) (name : string) | CallPublish (t : nat) | CallStop (t : nat)
  | Spawn (t t' : nat)       (* the next turn of the loop of Publish: the dispatch is the goroutine t' *)
  | Send (t : nat)           (* the dispatch puts its event into the channel *)
  | Drop (t : nat)           (* its select takes one of the two contexts *)
  | Close (t : nat)          (* Unsubscribe or Stop closes a channel *)
  | Wait (t : nat)           (* a wait of Stop is over *)
  | Receive (w : nat)        (* a loop takes an event and hands it to its subscriber *)
  | Exit (w : nat).          (* a loop ends *)

Definition dispatches (b : bus) : list nat :=
  omap (fun p => match p.2 with Dispatching _ w _ => Some w | _ => None end) (map_to_list (threads b)).

Definition fresh (t : nat) (b : bus) : bool := bool_decide (threads b !! t = None).

(** [callerDone]: the context of the caller of [Publish] is done. *)
Definition exec (callerDone : nat -> bool) (l : label) (b : bus) : option bus :=
  if panicked b then None else
  match l with
  | CallStart => Some (Start b)
  | CallSubscribe name => Some (Subscribe name b).1
  | CallUnsubscribe t name => if fresh t b then Some (Unsubscribe t name b).1 else None
  | CallPublish t => if fresh t b then Some (Publish t b) else None
  | CallStop t => if fresh t b then Some (Stop t b) else None
  | Spawn t t' =>
      match threads b !! t with
      | Some (Publishing _ [] _) => Some (set_threads (delete t (threads b)) b)
      | Some (Publishing ev (w :: todo) c) =>
          if fresh t' b then Some (set_threads (<[t' := Dispatching ev w c]> (<[t := Publishing ev todo c]> (threads b))) b) else None
      | _ => None
      end
  | Send t =>
      match threads b !! t with
      | Some (Dispatching ev w _) =>
          match chans b !! w with
          | Some ch =>
              if isClosed ch then
                Some (panic b)
              else if (length (buffer ch) <? capacity)%nat then
                Some (set_threads (delete t (threads b)) (set_chans (<[w := mkChan (buffer ch ++ [ev]) false]> (chans b)) b))
              else None
          | None => None
          end
      | _ => None
      end
  | Drop t =>
      match threads b !! t with
      | Some (Dispatching ev w c) => if callerDone ev || bool_decide (c ∈ canceled b) then Some (set_threads (delete t (threads b)) b) else None
      | _ => None
      end
  | Close t =>
      match threads b !! t with
      | Some (Unsubscribing w) => Some (set_threads (delete t (threads b)) (close_chan w b))
      | Some (StopClosing (w :: todo)) => Some (set_threads (<[t := StopClosing todo]> (threads b)) (close_chan w b))
      | Some (StopClosing []) => Some (set_threads (<[t := StopWaiting]> (threads b)) b)
      | _ => None
      end
  | Wait t =>
      match threads b !! t with
      | Some (StopDraining todo) =>
          if decide (dispatches b = []) then Some (set_threads (<[t := StopClosing todo]> (threads b)) b) else None
      | Some StopWaiting => if decide (loops b = ∅) then Some (set_threads (delete t (threads b)) b) else None
      | _ => None
      end
  | Receive w =>
      match chans b !! w with
      | Some (mkChan (ev :: rest) cl) =>
          if decide (w ∈ loops b) then
            Some (set_delivered (alter (fun l => l ++ [ev]) w (delivered b)) (set_chans (<[w := mkChan rest cl]> (chans b)) b))
          else None
      | _ => None
      end
  | Exit w =>
      match chans b !! w with
      | Some (mkChan [] true) =>
          if decide (w ∈ loops b) then
            Some (set_loops (loops b ∖ {[w]}) b)
          else None
      | _ => None
      end
  end.

Fixpoint run (callerDone : nat -> bool) (ls : list label) (b : bus) : option bus :=
  match ls with
  | [] => Some b
  | l :: ls' => match exec callerDone l b with Some b' => run callerDone ls' b' | None => None end
  end.


(** What the goroutines of the bus do by themselves, the calls apart. *)
Definition internal (l : label) : bool :=
  match l with
  | CallStart | CallSubscribe _ | CallUnsubscribe _ _ | CallPublish _ | CallStop _ => false
  | _ => true
  end.

Definition targets (th : thread) : list nat := match th with Publishing _ todo _ => todo | Dispatching _ w _ => [w] | _ => [] end.

(** No call of [Publish] is inside its loop, and none has a dispatch left. *)
Definition no_publisher (b : bus) : bool :=
  forallb (fun p => match p.2 with Publishing _ _ _ => false | _ => true end) (map_to_list (threads b)).
Definition calm (b : bus) : bool := no_publisher b && bool_decide (dispatches b = []).

(** How the bus is meant to be used: nobody is inside [Publish] when [Stop] is called, and
    the events are dispatched before somebody unsubscribes. *)
Definition allowed (l : label) (b : bus) : bool :=
  match l with
  | CallUnsubscribe _ _ => calm b
  | CallStop _ => no_publisher b
  | _ => true
  end.

Inductive reachable (callerDone : nat -> bool) : bus -> Prop :=
  | reach_new : reachable callerDone NewEventBus
  | reach_step l b b' : reachable callerDone b -> allowed l b = true -> exec callerDone l b = Some b' -> reachable callerDone b'.

(** * The invariant *)

(** Where a wrapper is in its life. *)
Inductive phase := Registered (name : string) | Draining (t : nat) | Closing (t : nat) | Gone.

Definition drains (th : thread) : list nat := match th with StopDraining todo => todo | _ => [] end.
Definition closes (th : thread) : list nat := match th with Unsubscribing w => [w] | StopClosing todo => todo | _ => [] end.

Definition held (f : thread -> list nat) (m : gmap nat thread) (t w : nat) : Prop :=
  match m !! t with Some th => w ∈ f th | None => False end.

(** The phase of each wrapper says who may close it; an event is on its way only to wrappers
    that nobody closes before it has arrived. *)
Record wf (ph : nat -> phase) (b : bus) : Prop := {
  wf_subscribers : forall n w, subscribers b !! n = Some w <-> ph w = Registered n;
  wf_drains : forall t w, held drains (threads b) t w <-> ph w = Draining t;
  wf_closes : forall t w, held closes (threads b) t w <-> ph w = Closing t;
  wf_open : forall w, (exists buf, chans b !! w = Some (mkChan buf false)) <-> ph w <> Gone;
  wf_publishing : forall t ev todo c w, threads b !! t = Some (Publishing ev todo c) -> w ∈ todo -> exists n, ph w = Registered n;
  wf_dispatching : forall t ev w c, threads b !! t = Some (Dispatching ev w c) -> (exists n, ph w = Registered n) \/ (exists s, ph w = Draining s);
  wf_NoDup : forall t th, threads b !! t = Some th -> NoDup (drains th ++ closes th);
  wf_loops : forall w ch, chans b !! w = Some ch -> w ∈ loops b \/ ch = mkChan [] true;
  wf_loops_chan : forall w, w ∈ loops b -> is_Some (chans b !! w);
  wf_fresh : forall w, is_Some (chans b !! w) -> (w < size (chans b))%nat;
  wf_quiet : panicked b = false
}.

Definition Inv (b : bus) : Prop := exists ph, wf ph b.

Lemma held_insert f m t th t' w : held f (<[t := th]> m) t' w <-> (if decide (t = t') then w ∈ f th else held f m t' w).
Proof. unfold held. case_decide; subst; [by rewrite lookup_insert_eq | by rewrite lookup_insert_ne]. Qed.

Lemma held_delete f m t t' w : held f (delete t m) t' w <-> t <> t' /\ held f m t' w.
Proof.
  unfold held. destruct (decide (t = t')) as [-> | Hne]; [rewrite lookup_delete_eq | rewrite lookup_delete_ne by done]; naive_solver.
Qed.

Lemma dispatches_nil b : dispatches b = [] <-> forall t ev w c, threads b !! t <> Some (Dispatching ev w c).
Proof.
  unfold dispatches. split.
  - intros He t ev w c Hl. apply elem_of_map_to_list in Hl.
    assert (Hw : w ∈ @nil nat); [|set_solver].
    rewrite <- He. apply list_elem_of_omap. by exists (t, Dispatching ev w c).
  - intros Hn. destruct (omap _ _) as [|w l] eqn:E; [done|]. exfalso.
    assert (Hw : w ∈ w :: l) by set_solver. rewrite <- E in Hw.
    apply list_elem_of_omap in Hw as ([t th] & Hin & Hw). apply elem_of_map_to_list in Hin.
    destruct th; simplify_eq/=. by eapply Hn.
Qed.

Lemma no_publisher_true b : no_publisher b = true <-> forall t ev todo c, threads b !! t <> Some (Publishing ev todo c).
Proof.
  unfold no_publisher. rewrite forallb_forall. setoid_rewrite <- list_elem_of_In. split.
  - intros Ha t ev todo c Hl%elem_of_map_to_list. by specialize (Ha _ Hl).
  - intros Hn [t th] Hin%elem_of_map_to_list. destruct th; try done. exfalso. by eapply Hn.
Qed.

Lemma elem_of_registered b w : w ∈ registered b <-> exists n, subscribers b !! n = Some w.
Proof.
  unfold registered. rewrite list_elem_of_fmap. split.
  - intros ([n w'] & -> & Hin%elem_of_map_to_list). by exists n.
  - intros [n Hn%elem_of_map_to_list]. by exists (n, w).
Qed.

Lemma NoDup_registered ph b : wf ph b -> NoDup (registered b).
Proof.
  intros Hwf. unfold registered. apply NoDup_fmap_2_strong; [|apply NoDup_map_to_list].
  intros [n1 w1] [n2 w2] H1%elem_of_map_to_list H2%elem_of_map_to_list Hw. simplify_eq/=.
  apply (wf_subscribers _ _ Hwf) in H1, H2. congruence.
Qed.

Ltac held_case := repeat setoid_rewrite held_insert; repeat setoid_rewrite held_delete.

(** The fields of [wf] one by one; [f_done] closes those the step leaves alone. *)
Ltac wf_fields Hwf :=
  destruct Hwf as [Hsub Hdr Hcl Hop Hpub Hdis Hnd Hlo Hlc Hfr Hok]; constructor; cbn [fst subscribers threads chans loops panicked set_threads set_chans set_subscribers set_delivered set_loops]; try done.

Lemma wf_Start ph b : wf ph b -> wf ph (Start b).
Proof. intros Hwf. unfold Start. destruct (running b); [done|]. wf_fields Hwf. Qed.

Lemma wf_new_chan ph b : wf ph b -> ph (size (chans b)) = Gone /\ chans b !! size (chans b) = None.
Proof.
  intros Hwf. assert (Hn : chans b !! size (chans b) = None).
  { apply eq_None_not_Some. intros Hs%(wf_fresh _ _ Hwf). lia. }
  split; [|done]. destruct (ph (size (chans b))) eqn:E; try done.
  all: assert (Hne : ph (size (chans b)) <> Gone) by congruence; apply (wf_open _ _ Hwf) in Hne as [buf Hb]; congruence.
Qed.

Definition set_phase (w : nat) (p : phase) (ph : nat -> phase) (v : nat) : phase := if decide (v = w) then p else ph v.

Lemma wf_Subscribe ph name b : wf ph b -> Inv (Subscribe name b).1.
Proof.
  intros Hwf. unfold Subscribe. destruct (running b); cbn; [|by exists ph].
  destruct (subscribers b !! name) eqn:En; cbn; [by exists ph|].
  destruct (wf_new_chan ph b Hwf) as [Hg Hnone]. set (w := size (chans b)) in *.
  exists (set_phase w (Registered name) ph). unfold set_phase. wf_fields Hwf.
  - intros n v. destruct (decide (n = name)) as [-> | Hne].
    + rewrite lookup_insert_eq. case_decide; subst; [naive_solver|]. rewrite <- Hsub, En. naive_solver.
    + rewrite lookup_insert_ne by done. rewrite Hsub. case_decide; subst; naive_solver congruence.
  - intros t v. rewrite Hdr. case_decide; subst; naive_solver congruence.
  - intros t v. rewrite Hcl. case_decide; subst; naive_solver congruence.
  - intros v. case_decide as Hv; [subst v; rewrite lookup_insert_eq; naive_solver | by rewrite lookup_insert_ne].
  - intros t ev todo c v Ht Hv. destruct (Hpub _ _ _ _ _ Ht Hv) as [n Hn]. case_decide; [naive_solver congruence | eauto].
  - intros t ev v c Ht. case_decide; subst; destruct (Hdis _ _ _ _ Ht) as [[n Hn] | [u Hu]]; naive_solver congruence.
  - intros v ch. destruct (decide (v = w)) as [-> | Hne]; [set_solver|]. rewrite lookup_insert_ne by done.
    intros Hl%Hlo. set_solver.
  - intros v Hv. destruct (decide (v = w)) as [-> | Hne]; [by rewrite lookup_insert_eq|].
    rewrite lookup_insert_ne by done. apply Hlc. set_solver.
  - intros v. rewrite map_size_insert_None by done. destruct (decide (v = w)) as [-> | Hne]; [subst w; lia|].
    rewrite lookup_insert_ne by done. intros ?%Hfr. lia.
Qed.

(** A goroutine that is new or changes, and closes or drains nothing before or after. *)
Lemma wf_threads ph b m : wf ph b ->
  (forall t w, held drains m t w <-> held drains (threads b) t w) -> (forall t w, held closes m t w <-> held closes (threads b) t w) ->
  (forall t ev todo c w, m !! t = Some (Publishing ev todo c) -> w ∈ todo -> exists n, ph w = Registered n) ->
  (forall t ev w c, m !! t = Some (Dispatching ev w c) -> (exists n, ph w = Registered n) \/ (exists s, ph w = Draining s)) ->
  (forall t th, m !! t = Some th -> NoDup (drains th ++ closes th)) ->
  wf ph (set_threads m b).
Proof.
  intros Hwf Hd Hc Hp Hi Hn. wf_fields Hwf.
  - intros t w. by rewrite Hd.
  - intros t w. by rewrite Hc.
Qed.

Lemma fresh_None t b : fresh t b = true <-> threads b !! t = None.
Proof. unfold fresh. by rewrite bool_decide_eq_true. Qed.

Lemma held_None f m t w : m !! t = None -> ~ held f m t w.
Proof. unfold held. intros -> Hf. exact Hf. Qed.

Lemma held_Some f m t th w : m !! t = Some th -> held f m t w <-> w ∈ f th.
Proof. unfold held. by intros ->. Qed.

Lemma wf_Publish ph t b : wf ph b -> fresh t b = true -> wf ph (Publish t b).
Proof.
  intros Hwf Ht%fresh_None. unfold Publish. destruct (running b); [|done]. cbn [negb].
  pose proof (NoDup_registered ph b Hwf) as Hreg. pose proof (elem_of_registered b) as Hel.
  wf_fields Hwf.
  - intros t' w. rewrite held_insert, <- Hdr. case_decide; [subst; cbn | done]. split; [set_solver|]. by intros ?%held_None.
  - intros t' w. rewrite held_insert, <- Hcl. case_decide; [subst; cbn | done]. split; [set_solver|]. by intros ?%held_None.
  - intros t' ev todo c w. rewrite lookup_insert_Some. intros [[-> E] | [_ Hl]] Hw; [|by eapply Hpub].
    simplify_eq/=. apply Hel in Hw as [n Hn]. exists n. by apply Hsub.
  - intros t' ev w c. rewrite lookup_insert_Some. intros [[-> E] | [_ Hl]]; [done | by eapply Hdis].
  - intros t' th. rewrite lookup_insert_Some. intros [[-> <-] | [_ Hl]]; [apply NoDup_nil_2 | by eapply Hnd].
Qed.

Lemma wf_Unsubscribe ph t name b : wf ph b -> fresh t b = true -> calm b = true -> Inv (Unsubscribe t name b).1.
Proof.
  intros Hwf Ht%fresh_None [Hnp Hnd0]%andb_prop. unfold Unsubscribe.
  destruct (subscribers b !! name) as [w|] eqn:En; [|by exists ph].
  apply bool_decide_eq_true in Hnd0. rewrite dispatches_nil in Hnd0. rewrite no_publisher_true in Hnp.
  assert (Hph : ph w = Registered name) by by apply (wf_subscribers _ _ Hwf).
  exists (set_phase w (Closing t) ph). unfold set_phase. wf_fields Hwf.
  - intros n v. rewrite lookup_delete_Some, Hsub. case_decide; subst; naive_solver congruence.
  - intros t' v. rewrite held_insert. case_decide; subst; [pose proof (held_None drains _ _ v Ht) as Hno|]; rewrite Hdr in *;
      case_decide; subst; cbn [drains]; rewrite ?elem_of_nil; naive_solver congruence.
  - intros t' v. rewrite held_insert. case_decide; subst; [pose proof (held_None closes _ _ v Ht) as Hno|]; rewrite Hcl in *;
      case_decide; subst; cbn [closes]; rewrite ?list_elem_of_singleton; naive_solver congruence.
  - intros v. rewrite Hop. case_decide; subst; naive_solver congruence.
  - intros t' ev todo c v. rewrite lookup_insert_Some. naive_solver.
  - intros t' ev v c. rewrite lookup_insert_Some. naive_solver.
  - intros t' th. rewrite lookup_insert_Some. intros [[-> <-] | [_ Hl]]; [apply NoDup_singleton | by eapply Hnd].
Qed.

(** All the registered wrappers go over to the goroutine of [Stop]. *)
Definition stop_phase (t : nat) (ph : nat -> phase) (w : nat) : phase :=
  match ph w with Registered _ => Draining t | p => p end.

Lemma wf_Stop ph t b : wf ph b -> fresh t b = true -> no_publisher b = true -> Inv (Stop t b).
Proof.
  intros Hwf Ht%fresh_None Hnp. rewrite no_publisher_true in Hnp. unfold Stop. destruct (running b); [|by exists ph]. cbn [negb].
  pose proof (NoDup_registered ph b Hwf) as Hreg. pose proof (elem_of_registered b) as Hel.
  exists (stop_phase t ph). unfold stop_phase. wf_fields Hwf.
  - intros n w. rewrite lookup_empty. destruct (ph w) eqn:E; naive_solver.
  - intros t' w. rewrite held_insert. case_decide; subst.
    + pose proof (held_None drains _ _ w Ht) as Hno. rewrite Hdr in Hno. cbn [drains]. rewrite Hel. setoid_rewrite Hsub.
      destruct (ph w) eqn:E; naive_solver congruence.
    + rewrite Hdr. destruct (ph w); naive_solver congruence.
  - intros t' w. rewrite held_insert. case_decide; subst.
    + pose proof (held_None closes _ _ w Ht) as Hno. rewrite Hcl in Hno. cbn [closes]. rewrite elem_of_nil. destruct (ph w) eqn:E; naive_solver congruence.
    + rewrite Hcl. destruct (ph w); naive_solver congruence.
  - intros w. rewrite Hop. destruct (ph w); naive_solver congruence.
  - intros t' ev todo c w. rewrite lookup_insert_Some. naive_solver.
  - intros t' ev w c. rewrite lookup_insert_Some. intros [[-> E] | [_ Hl]]; [done|].
    right. destruct (Hdis _ _ _ _ Hl) as [[n ->] | [u ->]]; eauto.
  - intros t' th. rewrite lookup_insert_Some. intros [[-> <-] | [_ Hl]]; [cbn; by rewrite app_nil_r | by eapply Hnd].
Qed.

Lemma held_drop f m t th t' w : m !! t = Some th -> f th = [] -> held f (delete t m) t' w <-> held f m t' w.
Proof.
  intros Ht He. rewrite held_delete. split; [tauto|]. intros Hh. split; [|done]. intros <-.
  rewrite (held_Some f m t th w Ht), He in Hh. by apply elem_of_nil in Hh.
Qed.

Lemma held_replace f m t th th' t' w : m !! t = Some th -> f th' = f th -> held f (<[t := th']> m) t' w <-> held f m t' w.
Proof. intros Ht He. rewrite held_insert. case_decide; [subst|done]. by rewrite (held_Some f m t' th w Ht), He. Qed.

Lemma held_new f m t th t' w : m !! t = None -> f th = [] -> held f (<[t := th]> m) t' w <-> held f m t' w.
Proof.
  intros Ht He. rewrite held_insert. case_decide; [subst|done]. rewrite He, elem_of_nil. split; [done|].
  intros Hh. exact (held_None f m t' w Ht Hh).
Qed.

(** The end of a goroutine that had nothing left to close. *)
Lemma wf_thread_ends ph b t th : wf ph b -> threads b !! t = Some th -> drains th = [] -> closes th = [] ->
  wf ph (set_threads (delete t (threads b)) b).
Proof.
  intros Hwf Ht Hd Hc. apply wf_threads; try done.
  - intros t' w. by eapply held_drop.
  - intros t' w. by eapply held_drop.
  - intros t' ev todo c w [_ Hl]%lookup_delete_Some. by eapply wf_publishing.
  - intros t' ev w c [_ Hl]%lookup_delete_Some. by eapply wf_dispatching.
  - intros t' th' [_ Hl]%lookup_delete_Some. by eapply wf_NoDup.
Qed.

Lemma wf_spawn ph b t t' ev w todo c : wf ph b -> threads b !! t = Some (Publishing ev (w :: todo) c) -> threads b !! t' = None ->
  wf ph (set_threads (<[t' := Dispatching ev w c]> (<[t := Publishing ev todo c]> (threads b))) b).
Proof.
  intros Hwf Ht Hf. assert (t' <> t) by congruence.
  assert (Hf' : <[t := Publishing ev todo c]> (threads b) !! t' = None) by by rewrite lookup_insert_ne.
  apply wf_threads; try done.
  - intros s v. rewrite held_new by done. by eapply held_replace.
  - intros s v. rewrite held_new by done. by eapply held_replace.
  - intros s e td c' v. rewrite !lookup_insert_Some. intros [[<- E] | [_ [[<- E] | [_ Hl]]]] Hv; simplify_eq/=.
    + eapply (wf_publishing _ _ Hwf t); [done|set_solver].
    + by eapply wf_publishing.
  - intros s e v c'. rewrite !lookup_insert_Some. intros [[<- E] | [_ [[<- E] | [_ Hl]]]]; simplify_eq/=.
    + left. eapply (wf_publishing _ _ Hwf t); [done|set_solver].
    + by eapply wf_dispatching.
  - intros s th. rewrite !lookup_insert_Some. intros [[-> <-] | [_ [[-> <-] | [_ Hl]]]]; try apply NoDup_nil_2. by eapply wf_NoDup.
Qed.

(** The content of a channel that stays open, or stays closed. *)
Lemma wf_set_buffer ph b w ch buf : wf ph b -> chans b !! w = Some ch -> w ∈ loops b ->
  wf ph (set_chans (<[w := mkChan buf (isClosed ch)]> (chans b)) b).
Proof.
  intros Hwf Hw Hin. wf_fields Hwf.
  - intros v. rewrite <- Hop. destruct (decide (v = w)) as [-> | Hne]; [|by rewrite lookup_insert_ne].
    rewrite lookup_insert_eq, Hw. destruct ch as [bf []]; cbn; naive_solver.
  - intros v c. rewrite lookup_insert_Some. intros [[-> <-] | [_ Hl]]; [by left | by apply Hlo].
  - intros v Hv. destruct (decide (v = w)) as [-> | Hne]; [by rewrite lookup_insert_eq | rewrite lookup_insert_ne by done; by apply Hlc].
  - intros v. rewrite map_size_insert_Some by (by rewrite Hw). destruct (decide (v = w)) as [-> | Hne].
    + intros _. apply Hfr. by rewrite Hw.
    + rewrite lookup_insert_ne by done. apply Hfr.
Qed.

(** Where an event is on its way, the channel is open and its loop runs. *)
Lemma dispatch_open ph b t ev w c : wf ph b -> threads b !! t = Some (Dispatching ev w c) ->
  exists buf, chans b !! w = Some (mkChan buf false) /\ w ∈ loops b.
Proof.
  intros Hwf Ht. assert (Hne : ph w <> Gone).
  { destruct (wf_dispatching _ _ Hwf _ _ _ _ Ht) as [[n E] | [u E]]; congruence. }
  apply (wf_open _ _ Hwf) in Hne as [buf Hb]. exists buf. split; [done|].
  by destruct (wf_loops _ _ Hwf _ _ Hb).
Qed.

(** A close, and what its goroutine goes on with. *)
Lemma wf_close ph b m t w : wf ph b -> held closes (threads b) t w ->
  (forall t' v, held drains m t' v <-> held drains (threads b) t' v) ->
  (forall t' v, held closes m t' v <-> held closes (threads b) t' v /\ v <> w) ->
  (forall t' th, m !! t' = Some th -> threads b !! t' = Some th \/ (targets th = [] /\ NoDup (drains th ++ closes th))) ->
  wf (set_phase w Gone ph) (set_threads m (close_chan w b)).
Proof.
  intros Hwf Hw Hd Hc Hm. apply (wf_closes _ _ Hwf) in Hw. unfold set_phase.
  assert (Hne : ph w <> Gone) by congruence. apply (wf_open _ _ Hwf) in Hne as [buf Hb].
  assert (Hal : alter (fun c => mkChan (buffer c) true) w (chans b) = <[w := mkChan buf true]> (chans b)).
  { rewrite <- (insert_id (chans b) w _ Hb) at 1. by rewrite alter_insert_eq. }
  unfold close_chan. rewrite Hal. wf_fields Hwf.
  - intros n v. rewrite Hsub. case_decide; subst; naive_solver congruence.
  - intros t' v. rewrite Hd, Hdr. case_decide; subst; naive_solver congruence.
  - intros t' v. rewrite Hc, Hcl. case_decide; subst; naive_solver congruence.
  - intros v. case_decide as Hv; [subst v; rewrite lookup_insert_eq; naive_solver | by rewrite lookup_insert_ne].
  - intros t' ev todo c v Ht Hv. destruct (Hm _ _ Ht) as [Hl | [He _]]; [|cbn in He; subst; by apply elem_of_nil in Hv].
    destruct (Hpub _ _ _ _ _ Hl Hv) as [n Hn]. case_decide; [congruence | eauto].
  - intros t' ev v c Ht. destruct (Hm _ _ Ht) as [Hl | [He _]]; [|done].
    case_decide; subst; [|by eapply Hdis]. destruct (Hdis _ _ _ _ Hl) as [[n Hn] | [u Hu]]; congruence.
  - intros t' th Ht. destruct (Hm _ _ Ht) as [Hl | [_ He]]; [by eapply Hnd | done].
  - intros v ch. rewrite lookup_insert_Some. intros [[<- <-] | [_ Hl]]; [|by apply Hlo].
    left. by destruct (Hlo _ _ Hb).
  - intros v Hv. destruct (decide (v = w)) as [-> | ?]; [by rewrite lookup_insert_eq | rewrite lookup_insert_ne by done; by apply Hlc].
  - intros v. rewrite map_size_insert_Some by (by rewrite Hb). destruct (decide (v = w)) as [-> | ?].
    + intros _. apply Hfr. by rewrite Hb.
    + rewrite lookup_insert_ne by done. apply Hfr.
Qed.

Lemma wf_Unsubscribe_closes ph b t w : wf ph b -> threads b !! t = Some (Unsubscribing w) ->
  wf (set_phase w Gone ph) (set_threads (delete t (threads b)) (close_chan w b)).
Proof.
  intros Hwf Ht. eapply (wf_close _ _ _ t); [done | rewrite (held_Some _ _ _ _ _ Ht); cbn; set_solver | | |].
  - intros t' v. by eapply held_drop.
  - intros t' v. rewrite held_delete. destruct (decide (t = t')) as [<- | Hne].
    + rewrite (held_Some _ _ _ _ _ Ht). cbn. rewrite list_elem_of_singleton. naive_solver.
    + split; [|tauto]. intros [_ Hh]. split; [done|]. intros ->.
      assert (Hh' : held closes (threads b) t w) by (rewrite (held_Some _ _ _ _ _ Ht); cbn; set_solver).
      apply (wf_closes _ _ Hwf) in Hh, Hh'. congruence.
  - intros t' th [_ Hl]%lookup_delete_Some. by left.
Qed.

Lemma wf_Stop_closes ph b t w todo : wf ph b -> threads b !! t = Some (StopClosing (w :: todo)) ->
  wf (set_phase w Gone ph) (set_threads (<[t := StopClosing todo]> (threads b)) (close_chan w b)).
Proof.
  intros Hwf Ht. pose proof (wf_NoDup _ _ Hwf _ _ Ht) as Hnd. cbn in Hnd. apply NoDup_cons in Hnd as [Hnin Hnd].
  assert (Hh' : held closes (threads b) t w) by (rewrite (held_Some _ _ _ _ _ Ht); cbn; set_solver).
  eapply (wf_close _ _ _ t); [done..| | |].
  - intros t' v. by eapply held_replace.
  - intros t' v. rewrite held_insert. case_decide; [subst t'|].
    + rewrite (held_Some _ _ _ _ _ Ht). cbn. rewrite elem_of_cons. naive_solver.
    + split; [|tauto]. intros Hh. split; [done|]. intros ->. apply (wf_closes _ _ Hwf) in Hh, Hh'. congruence.
  - intros t' th. rewrite lookup_insert_Some. intros [[<- <-] | [_ Hl]]; [right | by left]. by rewrite app_nil_l.
Qed.

(** The first wait of [Stop] is over: what was draining is closed from here on. *)
Definition wait_phase (t : nat) (ph : nat -> phase) (w : nat) : phase :=
  match ph w with Draining t' => if decide (t' = t) then Closing t else ph w | p => p end.

Lemma wf_Stop_waited ph b t todo : wf ph b -> threads b !! t = Some (StopDraining todo) -> dispatches b = [] ->
  wf (wait_phase t ph) (set_threads (<[t := StopClosing todo]> (threads b)) b).
Proof.
  intros Hwf Ht Hn. rewrite dispatches_nil in Hn. pose proof (wf_NoDup _ _ Hwf _ _ Ht) as Hnodup. cbn in Hnodup. rewrite app_nil_r in Hnodup.
  assert (Htodo : forall w, w ∈ todo <-> ph w = Draining t).
  { intros w. by rewrite <- (wf_drains _ _ Hwf), (held_Some _ _ _ _ _ Ht). }
  assert (Hnone : forall w, ph w <> Closing t).
  { intros w Hw. apply (wf_closes _ _ Hwf) in Hw. rewrite (held_Some _ _ _ _ _ Ht) in Hw. by apply elem_of_nil in Hw. }
  unfold wait_phase. wf_fields Hwf.
  - intros n w. rewrite Hsub. destruct (ph w) eqn:E; repeat case_decide; naive_solver congruence.
  - intros t' w. rewrite held_insert. case_decide; [subst t'; cbn [drains]; rewrite elem_of_nil | rewrite Hdr];
      destruct (ph w) eqn:E; repeat case_decide; naive_solver congruence.
  - intros t' w. rewrite held_insert. case_decide; [subst t'; cbn [closes]; rewrite Htodo | rewrite Hcl];
      specialize (Hnone w); destruct (ph w) eqn:E; repeat case_decide; naive_solver congruence.
  - intros w. rewrite Hop. destruct (ph w); repeat case_decide; naive_solver congruence.
  - intros t' ev td c w. rewrite lookup_insert_Some. intros [[_ E] | [_ Hl]] Hw; [done|].
    destruct (Hpub _ _ _ _ _ Hl Hw) as [n ->]. eauto.
  - intros t' ev w c. rewrite lookup_insert_Some. intros [[_ E] | [_ Hl]]; [done|]. by apply Hn in Hl.
  - intros t' th. rewrite lookup_insert_Some. intros [[<- <-] | [_ Hl]]; [by rewrite app_nil_l | by eapply Hnd].
Qed.

(** ** The steps of the goroutines as a relation *)

Inductive step (b : bus) : bus -> Prop :=
  | step_ends t th : threads b !! t = Some th -> drains th = [] -> closes th = [] -> step b (set_threads (delete t (threads b)) b)
  | step_spawns t t' ev w todo c : threads b !! t = Some (Publishing ev (w :: todo) c) -> threads b !! t' = None ->
      step b (set_threads (<[t' := Dispatching ev w c]> (<[t := Publishing ev todo c]> (threads b))) b)
  | step_sends t ev w c buf : threads b !! t = Some (Dispatching ev w c) -> chans b !! w = Some (mkChan buf false) -> w ∈ loops b ->
      step b (set_threads (delete t (threads b)) (set_chans (<[w := mkChan (buf ++ [ev]) false]> (chans b)) b))
  | step_unsubscribes t w : threads b !! t = Some (Unsubscribing w) -> step b (set_threads (delete t (threads b)) (close_chan w b))
  | step_closes t w todo : threads b !! t = Some (StopClosing (w :: todo)) ->
      step b (set_threads (<[t := StopClosing todo]> (threads b)) (close_chan w b))
  | step_closed t : threads b !! t = Some (StopClosing []) -> step b (set_threads (<[t := StopWaiting]> (threads b)) b)
  | step_waited t todo : threads b !! t = Some (StopDraining todo) -> dispatches b = [] ->
      step b (set_threads (<[t := StopClosing todo]> (threads b)) b)
  | step_receives w ev rest cl : chans b !! w = Some (mkChan (ev :: rest) cl) -> w ∈ loops b ->
      step b (set_delivered (alter (fun l => l ++ [ev]) w (delivered b)) (set_chans (<[w := mkChan rest cl]> (chans b)) b))
  | step_exits w : chans b !! w = Some (mkChan [] true) -> w ∈ loops b -> step b (set_loops (loops b ∖ {[w]}) b).

Ltac exec_cases H := unfold exec in H; repeat (case_match; simplify_eq/=; try done).

Lemma exec_step cd ph l b b' : wf ph b -> internal l = true -> exec cd l b = Some b' -> step b b'.
Proof.
  intros Hwf Hi He. pose proof (fun t ev w c => dispatch_open ph b t ev w c Hwf) as Hopen.
  destruct l as [| | | | |t t'|t|t|t|t|w|w]; try done; exec_cases He.
  - by eapply step_ends.
  - by apply step_spawns, fresh_None.
  - edestruct Hopen as (buf & Hb & Hin); [done|]. by simplify_eq/=.
  - edestruct Hopen as (buf & Hb & Hin); [done|]. simplify_eq/=. by eapply step_sends.
  - by eapply step_ends.
  - by eapply step_unsubscribes.
  - by eapply step_closed.
  - by eapply step_closes.
  - by eapply step_waited.
  - by eapply step_ends.
  - by eapply step_receives.
  - by eapply step_exits.
Qed.

Lemma wf_step ph b b' : wf ph b -> step b b' -> Inv b'.
Proof.
  intros Hwf Hs. destruct Hs.
  - exists ph. by eapply wf_thread_ends.
  - exists ph. by apply wf_spawn.
  - exists ph. by refine (wf_thread_ends _ _ _ _ (wf_set_buffer _ _ _ (mkChan buf false) (buf ++ [ev]) Hwf _ _) _ _ _).
  - eexists. by apply wf_Unsubscribe_closes.
  - eexists. by apply wf_Stop_closes.
  - exists ph. apply wf_threads; try done.
    + intros t' w. by eapply held_replace.
    + intros t' w. by eapply held_replace.
    + intros t' ev todo c w. rewrite lookup_insert_Some. intros [[_ E] | [_ Hl]]; [done | by eapply wf_publishing].
    + intros t' ev w c. rewrite lookup_insert_Some. intros [[_ E] | [_ Hl]]; [done | by eapply wf_dispatching].
    + intros t' th. rewrite lookup_insert_Some. intros [[<- <-] | [_ Hl]]; [apply NoDup_nil_2 | by eapply wf_NoDup].
  - eexists. by apply wf_Stop_waited.
  - exists ph. pose proof (wf_set_buffer _ _ _ (mkChan (ev :: rest) cl) rest Hwf H H0) as Hw. wf_fields Hw.
  - exists ph. wf_fields Hwf.
    + intros v ch Hv. destruct (decide (v = w)) as [-> | Hne]; [right; congruence|]. destruct (Hlo _ _ Hv); [left; set_solver | by right].
    + intros v Hv. apply Hlc. set_solver.
Qed.

Lemma exec_Inv cd l b b' : Inv b -> allowed l b = true -> exec cd l b = Some b' -> Inv b'.
Proof.
  intros [ph Hwf] Ha He. destruct (internal l) eqn:Hi.
  { eapply wf_step; [done|]. by eapply exec_step. }
  destruct l; try done; exec_cases He.
  - exists ph. by apply wf_Start.
  - by eapply wf_Subscribe.
  - by eapply wf_Unsubscribe.
  - exists ph. by apply wf_Publish.
  - by eapply wf_Stop.
Qed.

Lemma wf_new : wf (fun _ => Gone) NewEventBus.
Proof.
  constructor; cbn; unfold held; try done; intros *; rewrite ?lookup_empty; try naive_solver.
  all: set_solver.
Qed.

Lemma reachable_Inv cd b : reachable cd b -> Inv b.
Proof. induction 1 as [|l b b' _ IH Ha He]; [eexists; apply wf_new | by eapply exec_Inv]. Qed.

(** ** How much the goroutines have left to do *)

Definition thread_weight (th : thread) : nat :=
  match th with
  | Publishing _ todo _ => 1 + 3 * length todo
  | Dispatching _ _ _ => 2
  | Unsubscribing _ => 1
  | StopDraining todo => 3 + length todo
  | StopClosing todo => 2 + length todo
  | StopWaiting => 1
  end.

Definition weight (b : bus) : nat :=
  (sum_map thread_weight (threads b) + sum_map (fun ch => length (buffer ch)) (chans b) + size (loops b))%nat.

Lemma close_chan_weight w b : weight (close_chan w b) = weight b.
Proof. unfold weight, close_chan, set_chans. cbn. by rewrite sum_map_alter. Qed.

Lemma weight_threads m b : weight (set_threads m b) = (sum_map thread_weight m + (weight b - sum_map thread_weight (threads b)))%nat.
Proof. unfold weight, set_threads. cbn. lia. Qed.

Lemma step_weight b b' : step b b' -> (weight b' < weight b)%nat.
Proof.
  assert (Hw : (sum_map thread_weight (threads b) <= weight b)%nat) by (unfold weight; lia).
  intros Hs. destruct Hs; try rewrite weight_threads; try rewrite close_chan_weight; try change (threads (close_chan _ b)) with (threads b).
  - pose proof (sum_map_delete thread_weight _ _ _ H) as Hd. destruct th; cbn in Hd; lia.
  - pose proof (sum_map_replace thread_weight _ _ _ (Publishing ev todo c) H) as Hr. cbn in Hr.
    rewrite sum_map_fresh by (rewrite lookup_insert_ne; congruence). cbn. lia.
  - pose proof (sum_map_delete thread_weight _ _ _ H) as Hd. pose proof (sum_map_replace (fun ch => length (buffer ch)) _ _ _ (mkChan (buf ++ [ev]) false) H0) as Hr.
    cbn in Hd, Hr. rewrite length_app in Hr. cbn in Hr. unfold weight, set_chans. cbn. lia.
  - pose proof (sum_map_delete thread_weight _ _ _ H) as Hd. cbn in Hd. lia.
  - pose proof (sum_map_replace thread_weight _ _ _ (StopClosing todo) H) as Hr. cbn in Hr. lia.
  - pose proof (sum_map_replace thread_weight _ _ _ StopWaiting H) as Hr. cbn in Hr. lia.
  - pose proof (sum_map_replace thread_weight _ _ _ (StopClosing todo) H) as Hr. cbn in Hr. lia.
  - pose proof (sum_map_replace (fun ch => length (buffer ch)) _ _ _ (mkChan rest cl) H) as Hr. cbn in Hr.
    unfold weight. cbn. lia.
  - unfold weight. cbn. assert (size (loops b ∖ {[w]}) < size (loops b))%nat; [|lia].
    apply subset_size. set_solver.
Qed.

(** ** How often an event can still reach, or has reached, a subscriber *)

Notation count x l := (count_occ Nat.eq_dec l x).

Definition thread_copies (ev w : nat) (th : thread) : nat :=
  match th with
  | Publishing e todo _ => if decide (e = ev) then count w todo else 0
  | Dispatching e v _ => if decide (e = ev) then count w [v] else 0
  | _ => 0
  end.

Definition content (b : bus) (w : nat) : list nat := from_option buffer [] (chans b !! w).
Definition got (b : bus) (w : nat) : list nat := default [] (delivered b !! w).

Definition copies (ev w : nat) (b : bus) : nat :=
  (sum_map (thread_copies ev w) (threads b) + count ev (content b w) + count ev (got b w))%nat.

Definition Once (b : bus) : Prop := forall ev w, (copies ev w b <= (if decide (ev < published b)%nat then 1 else 0))%nat.

Lemma content_close w v b : content (close_chan w b) v = content b v.
Proof.
  unfold content, close_chan, set_chans. cbn. destruct (decide (v = w)) as [-> | Hne].
  - rewrite lookup_alter_eq. by destruct (chans b !! w).
  - by rewrite lookup_alter_ne.
Qed.

Lemma copies_threads ev w m b : copies ev w (set_threads m b) =
  (sum_map (thread_copies ev w) m + (copies ev w b - sum_map (thread_copies ev w) (threads b)))%nat.
Proof. unfold copies, content, got, set_threads. cbn. lia. Qed.

Lemma copies_close ev v w b : copies ev v (close_chan w b) = copies ev v b.
Proof. unfold copies. by rewrite content_close. Qed.

Lemma step_copies b b' ev v : step b b' -> (copies ev v b' <= copies ev v b)%nat /\ published b' = published b.
Proof.
  assert (Hw : (sum_map (thread_copies ev v) (threads b) <= copies ev v b)%nat) by (unfold copies; lia).
  intros Hs. split; [|by destruct Hs].
  destruct Hs; try rewrite copies_threads; try rewrite copies_close; try change (threads (close_chan _ b)) with (threads b).
  - pose proof (sum_map_delete (thread_copies ev v) _ _ _ H) as Hd. lia.
  - pose proof (sum_map_replace (thread_copies ev v) _ _ _ (Publishing ev0 todo c) H) as Hr. cbn in Hr.
    rewrite sum_map_fresh by (rewrite lookup_insert_ne; congruence). cbn in *. case_decide; [|lia].
    destruct (Nat.eq_dec w v); lia.
  - pose proof (sum_map_delete (thread_copies ev v) _ _ _ H) as Hd. cbn in Hd.
    unfold copies, content, got, set_chans in *. cbn. destruct (decide (w = v)) as [-> | Hne].
    + rewrite lookup_insert_eq. cbn. rewrite H0 in *. cbn in *. rewrite count_occ_app. cbn.
      destruct (Nat.eq_dec v v); [|done]. destruct (Nat.eq_dec ev0 ev); case_decide; try done; lia.
    + rewrite lookup_insert_ne by done. lia.
  - pose proof (sum_map_delete (thread_copies ev v) _ _ _ H) as Hd. lia.
  - pose proof (sum_map_replace (thread_copies ev v) _ _ _ (StopClosing todo) H) as Hr. cbn in Hr. lia.
  - pose proof (sum_map_replace (thread_copies ev v) _ _ _ StopWaiting H) as Hr. cbn in Hr. lia.
  - pose proof (sum_map_replace (thread_copies ev v) _ _ _ (StopClosing todo) H) as Hr. cbn in Hr. lia.
  - unfold copies, content, got. cbn. destruct (decide (w = v)) as [-> | Hne].
    + rewrite lookup_insert_eq, lookup_alter_eq, H. cbn. destruct (delivered b !! v); cbn; rewrite ?count_occ_app; cbn;
        destruct (Nat.eq_dec ev0 ev); lia.
    + rewrite lookup_insert_ne, lookup_alter_ne by done. lia.
  - unfold copies, content, got. cbn. lia.
Qed.

Lemma Once_le b b' : (forall ev w, (copies ev w b' <= copies ev w b)%nat) -> published b' = published b -> Once b -> Once b'.
Proof. intros Hc Hp Ho ev w. rewrite Hp. specialize (Hc ev w). specialize (Ho ev w). lia. Qed.

(** A goroutine that carries no event comes in. *)
Lemma copies_new ev w t th m : m !! t = None -> thread_copies ev w th = 0%nat ->
  sum_map (thread_copies ev w) (<[t := th]> m) = sum_map (thread_copies ev w) m.
Proof. intros Ht He. rewrite sum_map_fresh by done. lia. Qed.

Lemma Once_Subscribe ph name b : wf ph b -> Once b -> Once (Subscribe name b).1.
Proof.
  intros Hwf. unfold Subscribe. destruct (running b); cbn; [|done]. destruct (subscribers b !! name); cbn; [done|].
  destruct (wf_new_chan ph b Hwf) as [_ Hn]. apply Once_le; [|done]. intros ev w. unfold copies, content, got. cbn.
  destruct (decide (w = size (chans b))) as [-> | Hne]; [rewrite !lookup_insert_eq; cbn; lia | by rewrite !lookup_insert_ne].
Qed.

Lemma Once_Publish ph t b : wf ph b -> fresh t b = true -> Once b -> Once (Publish t b).
Proof.
  intros Hwf Ht%fresh_None Ho ev w. unfold Publish. destruct (running b); cbn; [|by apply Ho]. specialize (Ho ev w).
  assert (Hr : (count w (registered b) <= 1)%nat).
  { apply NoDup_count_occ, NoDup_ListNoDup. by eapply NoDup_registered. }
  unfold copies, content, got in *. cbn. rewrite sum_map_fresh by done. cbn.
  repeat case_decide; lia.
Qed.

Lemma exec_Once cd l b b' : Inv b -> Once b -> exec cd l b = Some b' -> Once b'.
Proof.
  intros [ph Hwf] Ho He. destruct (internal l) eqn:Hi.
  { assert (Hs : step b b') by by eapply exec_step. apply (Once_le b); [intros ev w; by apply step_copies | by apply (step_copies b b' 0 0) | done]. }
  destruct l; try done; exec_cases He.
  - unfold Start. by destruct (running b).
  - by eapply Once_Subscribe.
  - unfold Unsubscribe. destruct (subscribers b !! name); [|done]. cbn. apply (Once_le b); [|done..].
    intros ev w. unfold copies, content, got. cbn. rewrite copies_new; [lia | by apply fresh_None | done].
  - by eapply Once_Publish.
  - unfold Stop. destruct (running b); [|done]. cbn. apply (Once_le b); [|done..].
    intros ev w. unfold copies, content, got. cbn. rewrite copies_new; [lia | by apply fresh_None | done].
Qed.

Lemma reachable_Once cd b : reachable cd b -> Once b.
Proof.
  induction 1 as [|l b b' Hr IH Ha He]; [|eapply exec_Once; [by eapply reachable_Inv | done..]].
  intros ev w. by vm_compute.
Qed.

(** C35: As long as nobody is inside [Publish] when [Stop] is called, and the dispatches are
    through when somebody unsubscribes, no goroutine of the bus sends on a closed channel,
    whatever the interleaving; and a subscriber gets each event at most once, and only
    events that were published. *)
Theorem bus_safe cd b : reachable cd b ->
  panicked b = false /\ forall w, NoDup (got b w) /\ Forall (fun ev => (ev < published b)%nat) (got b w).
Proof.
  intros Hr. destruct (reachable_Inv cd b Hr) as [ph Hwf]. pose proof (reachable_Once cd b Hr) as Ho.
  split; [apply Hwf|]. intros w. split.
  - apply NoDup_ListNoDup, (NoDup_count_occ Nat.eq_dec). intros ev. specialize (Ho ev w). unfold copies in Ho. case_decide; lia.
  - apply Forall_forall. intros ev Hev. apply list_elem_of_In, (count_occ_In Nat.eq_dec) in Hev.
    specialize (Ho ev w). unfold copies in Ho. case_decide; lia.
Qed.

(** ** The goroutines come to rest *)

Definition resting (cd : nat -> bool) (b : bus) : Prop := forall l, internal l = true -> exec cd l b = None.

Lemma resting_loops cd ph b : wf ph b -> resting cd b -> forall w ch, chans b !! w = Some ch -> w ∈ loops b -> ch = mkChan [] false.
Proof.
  intros Hwf Hrest w [[|ev rest] cl] Hw Hin.
  - destruct cl; [|done]. specialize (Hrest (Exit w) eq_refl). unfold exec in Hrest.
    by rewrite (wf_quiet _ _ Hwf), Hw, decide_True in Hrest.
  - specialize (Hrest (Receive w) eq_refl). unfold exec in Hrest. by rewrite (wf_quiet _ _ Hwf), Hw, decide_True in Hrest.
Qed.

Lemma resting_content cd ph b : wf ph b -> resting cd b -> forall w, content b w = [].
Proof.
  intros Hwf Hrest w. unfold content. destruct (chans b !! w) as [ch|] eqn:Hw; [|done]. cbn.
  destruct (wf_loops _ _ Hwf _ _ Hw) as [Hin | ->]; [|done]. by rewrite (resting_loops _ _ _ Hwf Hrest _ _ Hw Hin).
Qed.

Lemma resting_dispatch cd ph b : wf ph b -> resting cd b -> dispatches b = [].
Proof.
  intros Hwf Hrest. apply dispatches_nil. intros t ev w c Ht.
  destruct (dispatch_open _ _ _ _ _ _ Hwf Ht) as (buf & Hb & Hin).
  pose proof (resting_loops _ _ _ Hwf Hrest _ _ Hb Hin) as E. simplify_eq/=.
  specialize (Hrest (Send t) eq_refl). unfold exec in Hrest. by rewrite (wf_quiet _ _ Hwf), Ht, Hb in Hrest.
Qed.

Lemma resting_threads cd ph b : wf ph b -> resting cd b -> forall t th, threads b !! t = Some th -> th = StopWaiting.
Proof.
  intros Hwf Hrest t th Ht. pose proof (wf_quiet _ _ Hwf) as Hq. pose proof (resting_dispatch _ _ _ Hwf Hrest) as Hd.
  destruct th as [ev todo c|ev w c|w|todo|todo|]; [| | | | |done]; exfalso.
  - set (t' := base.fresh (dom (threads b))). pose proof (Hrest (Spawn t t') eq_refl) as He. unfold exec in He. rewrite Hq, Ht in He.
    destruct todo; [done|]. assert (Hf : fresh t' b = true) by apply fresh_None, not_elem_of_dom, is_fresh.
    by rewrite Hf in He.
  - rewrite dispatches_nil in Hd. by apply Hd in Ht.
  - pose proof (Hrest (Close t) eq_refl) as He. unfold exec in He. by rewrite Hq, Ht in He.
  - pose proof (Hrest (Wait t) eq_refl) as He. unfold exec in He. by rewrite Hq, Ht, decide_True in He.
  - pose proof (Hrest (Close t) eq_refl) as He. unfold exec in He. rewrite Hq, Ht in He. by destruct todo.
Qed.

Lemma resting_no_loops cd ph b : wf ph b -> resting cd b -> subscribers b = ∅ -> loops b = ∅.
Proof.
  intros Hwf Hrest Hsub. apply set_eq. intros w. split; [|set_solver]. intros Hin. exfalso.
  destruct (wf_loops_chan _ _ Hwf _ Hin) as [ch Hw]. pose proof (resting_loops _ _ _ Hwf Hrest _ _ Hw Hin) as ->.
  assert (Hne : ph w <> Gone) by (apply (wf_open _ _ Hwf); eauto). destruct (ph w) as [n|t|t|] eqn:E; [| | |done].
  - apply (wf_subscribers _ _ Hwf) in E. by rewrite Hsub, lookup_empty in E.
  - apply (wf_drains _ _ Hwf) in E. unfold held in E. destruct (threads b !! t) as [th|] eqn:Ht; [|done].
    rewrite (resting_threads _ _ _ Hwf Hrest _ _ Ht) in E. by apply elem_of_nil in E.
  - apply (wf_closes _ _ Hwf) in E. unfold held in E. destruct (threads b !! t) as [th|] eqn:Ht; [|done].
    rewrite (resting_threads _ _ _ Hwf Hrest _ _ Ht) in E. by apply elem_of_nil in E.
Qed.

Lemma run_weight cd ls : forall b b', Inv b -> forallb internal ls = true -> run cd ls b = Some b' -> (length ls <= weight b)%nat.
Proof.
  induction ls as [|l ls IH]; intros b b' HI Hi Hr; cbn in *; [lia|].
  apply andb_prop in Hi as [Hl Hi]. destruct (exec cd l b) as [b1|] eqn:He; [|done]. destruct HI as [ph Hwf].
  assert (Hs : step b b1) by by eapply exec_step. pose proof (step_weight b b1 Hs).
  assert (length ls <= weight b1)%nat; [|lia]. eapply IH; [by eapply wf_step | done..].
Qed.

(** Left alone, the goroutines of the bus come to rest after at most [weight] steps,
    whatever their order; at rest every event that was put into a channel has been
    delivered and no call hangs, but for a [Stop] whose bus was started again under it and
    has subscribers: when none is registered, every call has returned and every loop has ended. *)
Theorem bus_comes_to_rest cd b : reachable cd b ->
  (forall ls b', forallb internal ls = true -> run cd ls b = Some b' -> (length ls <= weight b)%nat) /\
  (resting cd b ->
     (forall w, content b w = []) /\ (forall t th, threads b !! t = Some th -> th = StopWaiting) /\
     (subscribers b = ∅ -> threads b = ∅ /\ loops b = ∅)).
Proof.
  intros Hr. pose proof (reachable_Inv cd b Hr) as HI. split; [intros ls b'; by apply run_weight|].
  destruct HI as [ph Hwf]. intros Hrest. pose proof (resting_threads _ _ _ Hwf Hrest) as Hth.
  split_and!; [by eapply resting_content | done |]. intros Hsub.
  assert (Hl : loops b = ∅) by by eapply resting_no_loops. split; [|done].
  apply map_empty. intros t. destruct (threads b !! t) as [th|] eqn:Ht; [|done]. exfalso.
  pose proof (Hth _ _ Ht) as ->. pose proof (Hrest (Wait t) eq_refl) as He. unfold exec in He.
  by rewrite (wf_quiet _ _ Hwf), Ht, decide_True in He.
Qed.

(** ** Runs *)

Fixpoint disciplined (cd : nat -> bool) (ls : list label) (b : bus) : bool :=
  match ls with
  | [] => true
  | l :: ls' => allowed l b && match exec cd l b with Some b' => disciplined cd ls' b' | None => false end
  end.

Lemma reachable_run cd ls : forall b b', reachable cd b -> disciplined cd ls b = true -> run cd ls b = Some b' -> reachable cd b'.
Proof.
  induction ls as [|l ls IH]; intros b b' Hr Hd Hrun; cbn in *; [by simplify_eq|].
  apply andb_prop in Hd as [Ha Hd]. destruct (exec cd l b) as [b1|] eqn:He; [|done].
  by eapply IH; [eapply reach_step | ..].
Qed.

(** Two subscribers, two events, a stop with one event still under way; the second event
    is dropped for the second subscriber. *)
Definition demo_run : list label :=
  [CallStart; CallSubscribe "telemetry"; CallSubscribe "audit"; CallPublish 1; Spawn 1 2; Spawn 1 3; Spawn 1 0; Send 3; Send 2;
   Receive 0; CallPublish 1; Spawn 1 4; Spawn 1 5; Spawn 1 0; Send 5; CallStop 6; Drop 4].
Definition never : nat -> bool := fun _ => false.
Definition demo_bus : bus := default NewEventBus (run never demo_run NewEventBus).

Lemma bus_safe_witness : panicked demo_bus = false /\ got demo_bus 0 = [0%nat] /\ NoDup (got demo_bus 0).
Proof.
  assert (Hr : reachable never demo_bus).
  { apply (reachable_run never demo_run NewEventBus); [apply reach_new | by vm_compute | by vm_compute]. }
  destruct (bus_safe never demo_bus Hr) as [Hp Hn]. split; [exact Hp|]. split; [by vm_compute | apply (Hn 0%nat)].
Defined.

(** The rest of the stop. *)
Definition demo_rest : list label := [Wait 6; Close 6; Close 6; Close 6; Receive 1; Receive 0; Exit 0; Exit 1; Wait 6].

Lemma bus_comes_to_rest_witness : exists b, run never demo_rest demo_bus = Some b /\ (length demo_rest <= weight demo_bus)%nat.
Proof.
  assert (Hr : reachable never demo_bus).
  { apply (reachable_run never demo_run NewEventBus); [apply reach_new | by vm_compute | by vm_compute]. }
  destruct (bus_comes_to_rest never demo_bus Hr) as [Hl _].
  destruct (run never demo_rest demo_bus) as [b|] eqn:E; [|by vm_compute in E].
  exists b. split; [done | exact (Hl demo_rest b eq_refl E)].
Defined.

(** [Publish] has taken its snapshot; the subscriber is taken out and its channel closed
    before the dispatch sends. *)
Theorem unsubscribe_race_panics :
  panicked <$> run never [CallStart; CallSubscribe "audit"; CallPublish 1; CallUnsubscribe 2 "audit"; Close 2; Spawn 1 3; Send 3] NewEventBus
  = Some true.
Proof. by vm_compute. Qed.

(** [Stop] finds no dispatch to wait for, since [Publish] has not started its first one. *)
Theorem stop_race_panics :
  panicked <$> run never [CallStart; CallSubscribe "audit"; CallPublish 1; CallStop 2; Wait 2; Close 2; Spawn 1 3; Send 3] NewEventBus
  = Some true.
Proof. by vm_compute. Qed.

End AtfBus.
