(* ===== verification/AtfConfig.v ===== *)
(** The configuration of the acceptance framework
    (internal/db/acceptance/framework/config/config.go).

    [Load] starts from the defaults and lets the file, the environment, the arguments and
    the caller's base directory override them in this order.  What [os.Open] and the reads
    answer is an argument; the scanner's line limit, the parsing of numbers and their
    width are in the model.  White space is ASCII, and of a number that does not parse the
    key is kept, not the text of the error. *)

From Stdlib Require Import ZArith Lia Ascii.
From S2P Require Import Prelude Word GoStr Cli.

Module AtfConfig.
Import GoStr.
Local Open Scope string_scope.
Local Open Scope Z_scope.

(** * Data *)

(** Durations are nanoseconds. *)
Record Configuration := mkConfiguration {
  BaseDir : string; MemtableSizeBytes : Z; CompactionThreshold : Z; SyncWrites : bool;
  Parallelism : Z; MaxRetries : Z; Timeout : Z
}.

#[export] Instance Configuration_eq_decision : EqDecision Configuration.
Proof. solve_decision. Defined.

Definition Second : Z := 10 ^ 9.

Definition DefaultMemtableSize : Z := 4194304.
Definition DefaultCompactionThreshold : Z := 4.
Definition DefaultSyncWrites : bool := false.
Definition DefaultParallelism : Z := 1.
Definition DefaultMaxRetries : Z := 3.
Definition DefaultTimeout : Z := 30 * Second.

Definition defaults : Configuration :=
  mkConfiguration "" DefaultMemtableSize DefaultCompactionThreshold DefaultSyncWrites DefaultParallelism DefaultMaxRetries DefaultTimeout.

Definition set_BaseDir (v : string) (c : Configuration) : Configuration :=
  mkConfiguration v (MemtableSizeBytes c) (CompactionThreshold c) (SyncWrites c) (Parallelism c) (MaxRetries c) (Timeout c).
Definition set_MemtableSizeBytes (v : Z) (c : Configuration) : Configuration :=
  mkConfiguration (BaseDir c) v (CompactionThreshold c) (SyncWrites c) (Parallelism c) (MaxRetries c) (Timeout c).
Definition set_CompactionThreshold (v : Z) (c : Configuration) : Configuration :=
  mkConfiguration (BaseDir c) (MemtableSizeBytes c) v (SyncWrites c) (Parallelism c) (MaxRetries c) (Timeout c).
Definition set_SyncWrites (v : bool) (c : Configuration) : Configuration :=
  mkConfiguration (BaseDir c) (MemtableSizeBytes c) (CompactionThreshold c) v (Parallelism c) (MaxRetries c) (Timeout c).
Definition set_Parallelism (v : Z) (c : Configuration) : Configuration :=
  mkConfiguration (BaseDir c) (MemtableSizeBytes c) (CompactionThreshold c) (SyncWrites c) v (MaxRetries c) (Timeout c).
Definition set_MaxRetries (v : Z) (c : Configuration) : Configuration :=
  mkConfiguration (BaseDir c) (MemtableSizeBytes c) (CompactionThreshold c) (SyncWrites c) (Parallelism c) v (Timeout c).
Definition set_Timeout (v : Z) (c : Configuration) : Configuration :=
  mkConfiguration (BaseDir c) (MemtableSizeBytes c) (CompactionThreshold c) (SyncWrites c) (Parallelism c) (MaxRetries c) v.

(** What [loadFromFile] returns, and the errors of [Load]. *)
Inductive file_error := BadValue (key : string) | ErrTooLong | FileError (e : error).

Inductive config_error :=
  | LoadFile (e : file_error) | EmptyBaseDir | SmallMemtable | NoParallelism | NegativeRetries | ShortTimeout.

Record ConfigLoader := mkLoader { baseDirOverride : string; cliArgs : list string }.

Definition NewConfigLoader (dir : string) (args : list string) : ConfigLoader := mkLoader dir args.

(** * Numbers *)

(** [strconv.ParseInt(s, 10, 64)]; [strconv.Atoi] accepts the same texts on a 64-bit machine. *)
Definition ParseInt (s : string) : option Z :=
  match s with
  | String "-" r => match ParseUint r with Some n => if n <=? 2 ^ 63 then Some (- n) else None | None => None end
  | String "+" r => match ParseUint r with Some n => if n <? 2 ^ 63 then Some n else None | None => None end
  | _ => match ParseUint s with Some n => if n <? 2 ^ 63 then Some n else None | None => None end
  end.
Definition Atoi : string -> option Z := ParseInt.

(** * The file *)

(** [bufio.ScanLines]: the lines without their ends; a last line may have none. *)
Fixpoint raw_lines (s : string) : list string :=
  match s with
  | "" => []
  | String a s' =>
      if decide (a = "010"%char) then "" :: raw_lines s'
      else match raw_lines s' with [] => [String a ""] | l :: ls => String a l :: ls end
  end.

Fixpoint dropCR (s : string) : string :=
  match s with
  | "" => ""
  | String a "" => if decide (a = "013"%char) then "" else s
  | String a s' => String a (dropCR s')
  end.

Definition MaxScanTokenSize : Z := 64 * 1024.

(** One line of the file, after the scanner. *)
Definition set_line (text : string) (conf : Configuration) : Configuration + file_error :=
  let line := TrimSpace text in
  if bool_decide (line = "") || bool_decide (is_Some (strip_prefix "#" line)) then inl conf
  else match Cli.cut_value line with
  | (_, None) => inl conf
  | (k, Some v) =>
      let key := TrimSpace k in
      let val := TrimSpace v in
      if decide (key = "base_dir") then inl (set_BaseDir val conf)
      else if decide (key = "memtable_size_bytes") then
        match ParseInt val with Some n => inl (set_MemtableSizeBytes n conf) | None => inr (BadValue "memtable_size_bytes") end
      else if decide (key = "compaction_threshold") then
        match Atoi val with Some n => inl (set_CompactionThreshold n conf) | None => inr (BadValue "compaction_threshold") end
      else if decide (key = "sync_writes") then
        match Cli.ParseBool val with Some b => inl (set_SyncWrites b conf) | None => inr (BadValue "sync_writes") end
      else if decide (key = "parallelism") then
        match Atoi val with Some n => inl (set_Parallelism n conf) | None => inr (BadValue "parallelism") end
      else if decide (key = "max_retries") then
        match Atoi val with Some n => inl (set_MaxRetries n conf) | None => inr (BadValue "max_retries") end
      else if decide (key = "timeout_seconds") then
        match Atoi val with Some n => inl (set_Timeout (int64 (u64 (n * Second))) conf) | None => inr (BadValue "timeout_seconds") end
      else inl conf
  end.

(** [for scanner.Scan()]; the configuration is updated in place, also before an error. *)
Fixpoint scan_lines (ls : list string) (conf : Configuration) : Configuration * option file_error :=
  match ls with
  | [] => (conf, None)
  | l :: ls' =>
      if MaxScanTokenSize <=? Z.of_nat (String.length l) then (conf, Some ErrTooLong)
      else match set_line (dropCR l) conf with
           | inl conf' => scan_lines ls' conf'
           | inr e => (conf, Some e)
           end
  end.

(** The answer of [os.Open], and what the reads give: the text up to its end or up to an error. *)
Inductive file_answer := OpenFails (e : error) | Opened (text : string) (readError : option error).

Definition loadFromFile (f : file_answer) (conf : Configuration) : Configuration * option file_error :=
  match f with
  | OpenFails e => if decide (e = os_ErrNotExist) then (conf, None) else (conf, Some (FileError e))
  | Opened text rerr =>
      match scan_lines (raw_lines text) conf with
      | (conf', None) => (conf', FileError <$> rerr)
      | r => r
      end
  end.

(** * Environment and arguments *)

(** [if val := os.Getenv(key); val != ""], and a value that parses. *)
Definition env_override {A} (env : gmap string string) (key : string) (parse : string -> option A) (set : A -> Configuration -> Configuration)
  (conf : Configuration) : Configuration :=
  let val := Cli.Getenv env key in
  if decide (val = "") then conf else match parse val with Some v => set v conf | None => conf end.

Definition loadFromEnv (env : gmap string string) (conf : Configuration) : Configuration :=
  let conf := env_override env "PEBBLEDB_ATF_BASE_DIR" Some set_BaseDir conf in
  let conf := env_override env "PEBBLEDB_ATF_MEMTABLE_SIZE" ParseInt set_MemtableSizeBytes conf in
  let conf := env_override env "PEBBLEDB_ATF_COMPACTION_THRESHOLD" Atoi set_CompactionThreshold conf in
  let conf := env_override env "PEBBLEDB_ATF_SYNC_WRITES" Cli.ParseBool set_SyncWrites conf in
  let conf := env_override env "PEBBLEDB_ATF_PARALLELISM" Atoi set_Parallelism conf in
  env_override env "PEBBLEDB_ATF_MAX_RETRIES" Atoi set_MaxRetries conf.

Definition keep {A} (set : A -> Configuration -> Configuration) (v : option A) (conf : Configuration) : Configuration :=
  match v with Some x => set x conf | None => conf end.

Definition set_arg (arg : string) (conf : Configuration) : Configuration :=
  match strip_prefix "--" arg with
  | None => conf
  | Some rest =>
      match Cli.cut_value rest with
      | (_, None) => conf
      | (key, Some val) =>
          if decide (key = "base-dir") then set_BaseDir val conf
          else if decide (key = "memtable-size") then keep set_MemtableSizeBytes (ParseInt val) conf
          else if decide (key = "compaction-threshold") then keep set_CompactionThreshold (Atoi val) conf
          else if decide (key = "sync-writes") then keep set_SyncWrites (Cli.ParseBool val) conf
          else if decide (key = "parallelism") then keep set_Parallelism (Atoi val) conf
          else if decide (key = "max-retries") then keep set_MaxRetries (Atoi val) conf
          else conf
      end
  end.

Definition loadFromCLI (c : ConfigLoader) (conf : Configuration) : Configuration :=
  fold_left (fun conf arg => set_arg arg conf) (cliArgs c) conf.

(** * Validate and Load *)

Definition Validate (conf : Configuration) : option config_error :=
  if decide (BaseDir conf = "") then Some EmptyBaseDir
  else if MemtableSizeBytes conf <? 256 then Some SmallMemtable
  else if Parallelism conf <? 1 then Some NoParallelism
  else if MaxRetries conf <? 0 then Some NegativeRetries
  else if Timeout conf <? 1 * Second then Some ShortTimeout
  else None.

(** [file]: what opening and reading [configFilePath] answers. *)
Definition Load (c : ConfigLoader) (env : gmap string string) (configFilePath : string) (file : file_answer)
  : Configuration * option config_error :=
  let '(conf, ferr) := if decide (configFilePath = "") then (defaults, None) else loadFromFile file defaults in
  match ferr with
  | Some e => (conf, Some (LoadFile e))
  | None =>
      let conf := loadFromCLI c (loadFromEnv env conf) in
      let conf := if decide (baseDirOverride c = "") then conf else set_BaseDir (baseDirOverride c) conf in
      (conf, Validate conf)
  end.

Example load_example :
  Load (NewConfigLoader "" ["--parallelism=4"; "--max-retries=x"; "run"]) {["PEBBLEDB_ATF_PARALLELISM" := "2"; "PEBBLEDB_ATF_BASE_DIR" := "/tmp/atf"]}
    "atf.conf" (Opened ("# harness" +:+ String "010" ("max_retries = 5" +:+ String "013" (String "010" " timeout_seconds=+60"))) None)
  = (mkConfiguration "/tmp/atf" DefaultMemtableSize 4 false 4 5 (60 * Second), None).
Proof. by vm_compute. Qed.

(** * The sources as lists of settings *)

Inductive setting :=
  | SDir (v : string) | SMem (v : Z) | SThreshold (v : Z) | SSync (v : bool) | SParallelism (v : Z) | SRetries (v : Z) | STimeout (v : Z).

Definition table := list (string * (string -> option setting)).

(** The names a setting has in the file, in the environment and among the arguments. *)
Definition file_table : table :=
  [("base_dir", fun v => Some (SDir v)); ("memtable_size_bytes", fun v => SMem <$> ParseInt v);
   ("compaction_threshold", fun v => SThreshold <$> ParseInt v); ("sync_writes", fun v => SSync <$> Cli.ParseBool v);
   ("parallelism", fun v => SParallelism <$> ParseInt v); ("max_retries", fun v => SRetries <$> ParseInt v);
   ("timeout_seconds", fun v => (fun n => STimeout (int64 (u64 (n * Second)))) <$> ParseInt v)].
Definition env_table : table :=
  [("PEBBLEDB_ATF_BASE_DIR", fun v => Some (SDir v)); ("PEBBLEDB_ATF_MEMTABLE_SIZE", fun v => SMem <$> ParseInt v);
   ("PEBBLEDB_ATF_COMPACTION_THRESHOLD", fun v => SThreshold <$> ParseInt v); ("PEBBLEDB_ATF_SYNC_WRITES", fun v => SSync <$> Cli.ParseBool v);
   ("PEBBLEDB_ATF_PARALLELISM", fun v => SParallelism <$> ParseInt v); ("PEBBLEDB_ATF_MAX_RETRIES", fun v => SRetries <$> ParseInt v)].
Definition cli_table : table :=
  [("base-dir", fun v => Some (SDir v)); ("memtable-size", fun v => SMem <$> ParseInt v);
   ("compaction-threshold", fun v => SThreshold <$> ParseInt v); ("sync-writes", fun v => SSync <$> Cli.ParseBool v);
   ("parallelism", fun v => SParallelism <$> ParseInt v); ("max-retries", fun v => SRetries <$> ParseInt v)].

Fixpoint entry (key : string) (t : table) : option (string -> option setting) :=
  match t with [] => None | (k, p) :: t' => if decide (key = k) then Some p else entry key t' end.

(** What a line of the file sets: nothing, a setting, or an error. *)
Definition line_setting (text : string) : option (setting + file_error) :=
  let line := TrimSpace text in
  if bool_decide (line = "") || bool_decide (is_Some (strip_prefix "#" line)) then None
  else match Cli.cut_value line with
       | (k, Some v) =>
           (fun p => match p (TrimSpace v) with Some x => inl x | None => inr (BadValue (TrimSpace k)) end) <$> entry (TrimSpace k) file_table
       | _ => None
       end.

Fixpoint file_settings (ls : list string) : list setting + file_error :=
  match ls with
  | [] => inl []
  | l :: ls' =>
      if MaxScanTokenSize <=? Z.of_nat (String.length l) then inr ErrTooLong
      else match line_setting (dropCR l) with
           | Some (inr e) => inr e
           | Some (inl x) => match file_settings ls' with inl xs => inl (x :: xs) | inr e => inr e end
           | None => file_settings ls'
           end
  end.

(** A file that does not exist sets nothing. *)
Definition answer_settings (path : string) (file : file_answer) : list setting + file_error :=
  if decide (path = "") then inl []
  else match file with
       | OpenFails e => if decide (e = os_ErrNotExist) then inl [] else inr (FileError e)
       | Opened text rerr => match file_settings (raw_lines text), rerr with inl _, Some e => inr (FileError e) | r, _ => r end
       end.

Definition env_settings (env : gmap string string) : list setting :=
  omap (fun '(key, p) => let v := Cli.Getenv env key in if decide (v = "") then None else p v) env_table.

Definition arg_setting (arg : string) : option setting :=
  match strip_prefix "--" arg with
  | Some rest => match Cli.cut_value rest with (k, Some v) => match entry k cli_table with Some p => p v | None => None end | _ => None end
  | None => None
  end.

Definition cli_settings (args : list string) : list setting := omap arg_setting args.

Definition override_settings (dir : string) : list setting := if decide (dir = "") then [] else [SDir dir].

(** The last word on each field, the default where there is none. *)
Definition latest {A} (f : setting -> option A) (d : A) (l : list setting) : A := default d (last (omap f l)).

Definition from_settings (l : list setting) : Configuration :=
  mkConfiguration
    (latest (fun x => match x with SDir v => Some v | _ => None end) "" l)
    (latest (fun x => match x with SMem v => Some v | _ => None end) DefaultMemtableSize l)
    (latest (fun x => match x with SThreshold v => Some v | _ => None end) DefaultCompactionThreshold l)
    (latest (fun x => match x with SSync v => Some v | _ => None end) DefaultSyncWrites l)
    (latest (fun x => match x with SParallelism v => Some v | _ => None end) DefaultParallelism l)
    (latest (fun x => match x with SRetries v => Some v | _ => None end) DefaultMaxRetries l)
    (latest (fun x => match x with STimeout v => Some v | _ => None end) DefaultTimeout l).

Definition apply_setting (x : setting) : Configuration -> Configuration :=
  match x with
  | SDir v => set_BaseDir v | SMem v => set_MemtableSizeBytes v | SThreshold v => set_CompactionThreshold v | SSync v => set_SyncWrites v
  | SParallelism v => set_Parallelism v | SRetries v => set_MaxRetries v | STimeout v => set_Timeout v
  end.

Lemma latest_snoc {A} (f : setting -> option A) d l x : latest f d (l ++ [x]) = match f x with Some v => v | None => latest f d l end.
Proof. unfold latest. rewrite omap_app. cbn. destruct (f x); [by rewrite last_snoc | by rewrite app_nil_r]. Qed.

Lemma apply_from_settings x l : apply_setting x (from_settings l) = from_settings (l ++ [x]).
Proof. unfold from_settings. rewrite !latest_snoc. by destruct x. Qed.

Definition optional (x : option setting) : list setting := match x with Some y => [y] | None => [] end.

Definition set_optional (x : option setting) (c : Configuration) : Configuration := match x with Some y => apply_setting y c | None => c end.

Lemma optional_from_settings x l : set_optional x (from_settings l) = from_settings (l ++ optional x).
Proof. destruct x; cbn; [apply apply_from_settings | by rewrite app_nil_r]. Qed.

(** ** The code walks over these lists *)

Lemma set_line_setting text c : set_line text c =
  match line_setting text with Some (inr e) => inr e | Some (inl x) => inl (apply_setting x c) | None => inl c end.
Proof.
  unfold set_line, line_setting. destruct (_ || _); [done|]. destruct (Cli.cut_value (TrimSpace text)) as [k [v|]]; [|done].
  unfold Atoi. cbn [entry file_table]. generalize (TrimSpace k), (TrimSpace v). intros key val.
  repeat (case_decide; [subst key; cbn; by repeat case_match; simplify_eq/= |]). done.
Qed.

Lemma scan_lines_settings ls : forall pre,
  match file_settings ls with
  | inl l => scan_lines ls (from_settings pre) = (from_settings (pre ++ l), None)
  | inr e => (scan_lines ls (from_settings pre)).2 = Some e
  end.
Proof.
  induction ls as [|l ls IH]; intros pre; cbn [file_settings scan_lines]; [by rewrite app_nil_r|].
  destruct (_ <=? _); [done|]. rewrite set_line_setting. destruct (line_setting _) as [[x|e]|]; [|done | apply IH].
  rewrite apply_from_settings. specialize (IH (pre ++ [x])%list). destruct (file_settings ls); [by rewrite <- app_assoc in IH | done].
Qed.

Lemma env_override_setting {A} env key (parse : string -> option A) set mk c :
  (forall v, set v = apply_setting (mk v)) ->
  env_override env key parse set c =
  set_optional (let v := Cli.Getenv env key in if decide (v = "") then None else mk <$> parse v) c.
Proof. intros Hs. unfold env_override. cbn. case_decide; [done|]. destruct (parse _); cbn; [by rewrite Hs | done]. Qed.

Lemma omap_cons_optional {A} (f : A -> option setting) a l : omap f (a :: l) = (optional (f a) ++ omap f l)%list.
Proof. cbn. by destruct (f a). Qed.

Lemma loadFromEnv_settings env pre : loadFromEnv env (from_settings pre) = from_settings (pre ++ env_settings env).
Proof.
  unfold loadFromEnv, Atoi. cbn zeta.
  rewrite (env_override_setting _ _ Some set_BaseDir SDir), (env_override_setting _ _ _ set_MemtableSizeBytes SMem),
    (env_override_setting _ _ _ set_CompactionThreshold SThreshold), (env_override_setting _ _ _ set_SyncWrites SSync),
    (env_override_setting _ _ _ set_Parallelism SParallelism), (env_override_setting _ _ _ set_MaxRetries SRetries) by done.
  rewrite !optional_from_settings, <- !app_assoc. unfold env_settings, env_table. rewrite !omap_cons_optional. cbn [omap list_omap].
  by rewrite app_nil_r.
Qed.

Lemma set_arg_setting arg c : set_arg arg c = set_optional (arg_setting arg) c.
Proof.
  unfold set_arg, arg_setting. destruct (strip_prefix "--" arg) as [rest|]; [|done].
  destruct (Cli.cut_value rest) as [key [val|]]; [|done]. unfold Atoi, keep. cbn [entry cli_table].
  repeat (case_decide; [subst key; cbn; by repeat case_match; simplify_eq/= |]). done.
Qed.

Lemma loadFromCLI_settings c pre : loadFromCLI c (from_settings pre) = from_settings (pre ++ cli_settings (cliArgs c)).
Proof.
  unfold loadFromCLI, cli_settings. revert pre. induction (cliArgs c) as [|a args IH]; intros pre; [by rewrite app_nil_r|].
  rewrite omap_cons_optional. cbn [fold_left]. by rewrite set_arg_setting, optional_from_settings, IH, <- app_assoc.
Qed.

Definition valid (c : Configuration) : Prop :=
  BaseDir c <> "" /\ 256 <= MemtableSizeBytes c /\ 1 <= Parallelism c /\ 0 <= MaxRetries c /\ Second <= Timeout c.

Lemma Validate_valid c : Validate c = None <-> valid c.
Proof.
  unfold Validate, valid. repeat case_match; unfold Second in *; split; intros; simplify_eq; repeat split; try done; try lia; naive_solver lia.
Qed.

Lemma loadFromFile_settings path file :
  let r := if decide (path = "") then (defaults, None) else loadFromFile file defaults in
  match answer_settings path file with
  | inl l => r = (from_settings l, None)
  | inr e => r.2 = Some e
  end.
Proof.
  unfold answer_settings. case_decide; [done|]. destruct file as [e|text rerr]; cbn.
  - by case_decide.
  - change defaults with (from_settings []). pose proof (scan_lines_settings (raw_lines text) []) as Hs.
    destruct (file_settings _) as [l|e]; [rewrite Hs; by destruct rerr|].
    destruct (scan_lines _ _) as [c [e'|]]; simplify_eq/=. by destruct rerr.
Qed.

(** C33: The configuration is, field by field, the last setting of the field that parses
    among the file, the environment, the arguments and the caller's directory, in this
    order, and the default where nobody sets it; it is returned without an error exactly
    when it is valid.  A file that cannot be read, has a line of 64 KB, or gives one of its
    keys a value that does not parse fails the whole load with that error, whereas the
    environment and the arguments are then ignored; a file that is missing sets nothing. *)
Theorem Load_precedence c env path file :
  match answer_settings path file with
  | inr e => (Load c env path file).2 = Some (LoadFile e)
  | inl l =>
      let conf := from_settings (l ++ env_settings env ++ cli_settings (cliArgs c) ++ override_settings (baseDirOverride c)) in
      (Load c env path file).1 = conf /\ ((Load c env path file).2 = None <-> valid conf)
  end.
Proof.
  unfold Load. pose proof (loadFromFile_settings path file) as Hf. cbn zeta in Hf.
  destruct (answer_settings path file) as [l|e].
  - rewrite Hf. cbn zeta. rewrite loadFromEnv_settings, loadFromCLI_settings. unfold override_settings. rewrite <- !app_assoc.
    destruct (decide (baseDirOverride c = "")); cbn [fst snd]; rewrite Validate_valid, ?app_nil_r; [done|].
    change (set_BaseDir (baseDirOverride c)) with (apply_setting (SDir (baseDirOverride c))).
    rewrite apply_from_settings, <- !app_assoc. done.
  - destruct (if decide _ then _ else _) as [conf ferr]. cbn in Hf. by subst ferr.
Qed.

End AtfConfig.
