(* ===== verification/AtfRegistry.v ===== *)
(** The registry of scenarios of the acceptance framework
    (internal/db/acceptance/framework/registry/registry.go).

    The version pattern is written out as a recogniser.  The map of a scenario's
    verification graph is the list of its entries in the order the range takes them; it
    only decides which of several errors is reported. *)

From Stdlib Require Import ZArith Lia Ascii.
From stdpp Require Import sorting.
From S2P Require Import Prelude Word GoStr AtfSession.

Module AtfRegistry.
Import AtfSession GoStr.
Local Open Scope string_scope.
Local Open Scope Z_scope.

(** * The version pattern *)

(** [\d+]: the rest behind the digits; no pattern has a digit behind it, so the longest
    match is the only one. *)
Fixpoint skip_digits (s : string) : string :=
  match s with
  | "" => ""
  | String a s' => if char_digit a then skip_digits s' else s
  end.

Definition number (s : string) : option string :=
  match s with
  | "" => None
  | String a s' => if char_digit a then Some (skip_digits s') else None
  end.

(** [^\d+\.\d+\.\d+$] *)
Definition semverPattern (s : string) : bool :=
  match number s with
  | Some (String "." r) =>
      match number r with
      | Some (String "." r') => match number r' with Some "" => true | _ => false end
      | _ => false
      end
  | _ => false
  end.

(** * The registry *)

Record FilterOptions := mkFilter { Priority : Z; Capabilities : list string }.

Record MapRegistry := mkRegistry { scenarios : gmap string ScenarioDefinition }.

Definition NewMapRegistry : MapRegistry := mkRegistry ∅.

Inductive registration_error :=
  | NilScenario | EmptyID | Duplicate (id : string) | InvalidSemver (id version : string) | InvalidPriority (id : string) (priority : Z)
  | EmptyNode (id : string) | EmptyDependency (id node : string) | SelfDependency (id node : string) | NotFound (id : string).

(** The loops over the graph: the first error they meet. *)
Fixpoint check_deps (id node : string) (deps : list string) : option registration_error :=
  match deps with
  | [] => None
  | dep :: deps' =>
      if decide (dep = "") then Some (EmptyDependency id node)
      else if decide (dep = node) then Some (SelfDependency id node)
      else check_deps id node deps'
  end.

Fixpoint check_dag (id : string) (dag : list (string * list string)) : option registration_error :=
  match dag with
  | [] => None
  | (node, deps) :: dag' =>
      if decide (node = "") then Some (EmptyNode id)
      else match check_deps id node deps with
           | Some e => Some e
           | None => check_dag id dag'
           end
  end.

Definition Register (r : MapRegistry) (scenario : option ScenarioDefinition) : MapRegistry * option registration_error :=
  match scenario with
  | None => (r, Some NilScenario)
  | Some sc =>
      let id := IDStr sc in
      if decide (id = "") then (r, Some EmptyID)
      else if scenarios r !! id then (r, Some (Duplicate id))
      else if negb (semverPattern (VersionStr sc)) then (r, Some (InvalidSemver id (VersionStr sc)))
      else if (PriorityVal sc <? 1) || (PriorityVal sc >? 3) then (r, Some (InvalidPriority id (PriorityVal sc)))
      else match check_dag id (VerifyDAGMap sc) with
           | Some e => (r, Some e)
           | None => (mkRegistry (<[id := sc]> (scenarios r)), None)
           end
  end.

Definition Lookup (r : MapRegistry) (id : string) : ScenarioDefinition + registration_error :=
  match scenarios r !! id with Some sc => inl sc | None => inr (NotFound id) end.

Definition by_id (a b : ScenarioDefinition) : Prop := String.le (IDStr a) (IDStr b).
#[export] Instance by_id_dec : RelDecision by_id.
Proof. intros a b. unfold by_id. apply _. Defined.
#[export] Instance by_id_trans : Transitive by_id.
Proof. intros a b c. unfold by_id. apply transitivity. Qed.
#[export] Instance by_id_total : Total by_id.
Proof. intros a b. unfold by_id. apply (total String.le). Qed.

(** The range over the map gives the scenarios in any order, and the sort makes it one:
    no two have the same ID. *)
Definition values (r : MapRegistry) : list ScenarioDefinition := (map_to_list (scenarios r)).*2.

Definition List (r : MapRegistry) : list ScenarioDefinition := merge_sort by_id (values r).

Definition found (c : string) (caps : list string) : bool := existsb (String.eqb c) caps.

Definition selects (opts : FilterOptions) (sc : ScenarioDefinition) : bool :=
  if (Priority opts >? 0) && negb (PriorityVal sc =? Priority opts) then false
  else if 0 <? zlen (Capabilities opts) then forallb (fun c => found c (CapabilitiesVal sc)) (Capabilities opts)
  else true.

(** [filter] of another type is [None]. *)
Definition Filter (r : MapRegistry) (filter : option FilterOptions) : list ScenarioDefinition :=
  match filter with
  | None => List r
  | Some opts => merge_sort by_id (List.filter (selects opts) (values r))
  end.

(** * What the registry accepts *)

Definition acceptable (sc : ScenarioDefinition) : Prop :=
  IDStr sc <> "" /\ semverPattern (VersionStr sc) = true /\ 1 <= PriorityVal sc <= 3 /\
  forall node deps, (node, deps) ∈ VerifyDAGMap sc -> node <> "" /\ "" ∉ deps /\ node ∉ deps.

Lemma check_deps_None id node deps : check_deps id node deps = None <-> "" ∉ deps /\ node ∉ deps.
Proof.
  induction deps as [|d deps IH]; cbn [check_deps]; [set_solver|]. rewrite !not_elem_of_cons.
  repeat case_decide; subst; [naive_solver..|]. rewrite IH. naive_solver.
Qed.

Lemma check_dag_None id dag :
  check_dag id dag = None <-> forall node deps, (node, deps) ∈ dag -> node <> "" /\ "" ∉ deps /\ node ∉ deps.
Proof.
  induction dag as [|[n d] dag IH]; cbn [check_dag]; [split; [intros _ node deps Hin; by apply elem_of_nil in Hin | done]|].
  setoid_rewrite elem_of_cons. pose proof (check_deps_None id n d) as Hd.
  case_decide; [naive_solver|]. destruct (check_deps id n d); [naive_solver|]. rewrite IH. naive_solver.
Qed.

Lemma Register_accepts r sc : (Register r (Some sc)).2 = None <-> acceptable sc /\ scenarios r !! IDStr sc = None.
Proof.
  unfold Register, acceptable. cbn zeta. rewrite <- (check_dag_None (IDStr sc)).
  case_decide; [naive_solver|]. destruct (scenarios r !! IDStr sc); cbn; [naive_solver|].
  destruct (semverPattern _); cbn; [|naive_solver].
  destruct (_ || _) eqn:E; cbn; [split; [done|]; intros; exfalso; lia|].
  destruct (check_dag _ _); cbn; naive_solver lia.
Qed.

Lemma Register_result r sc :
  (Register r (Some sc)).1 = if decide ((Register r (Some sc)).2 = None) then mkRegistry (<[IDStr sc := sc]> (scenarios r)) else r.
Proof. unfold Register. repeat (case_match; simplify_eq/=; try done). Qed.

(** A sequence of calls of [Register], whatever they return. *)
Definition registered (calls : list (option ScenarioDefinition)) : MapRegistry :=
  fold_left (fun r sc => (Register r sc).1) calls NewMapRegistry.

(** The first acceptable scenario with an ID. *)
Definition first_with (id : string) (calls : list (option ScenarioDefinition)) (sc : ScenarioDefinition) : Prop :=
  acceptable sc /\ IDStr sc = id /\
  exists before after, calls = (before ++ Some sc :: after)%list /\ forall x, Some x ∈ before -> acceptable x -> IDStr x <> id.

Lemma first_with_snoc id calls c sc : first_with id (calls ++ [c]) sc <->
  first_with id calls sc \/ (c = Some sc /\ acceptable sc /\ IDStr sc = id /\ forall x, Some x ∈ calls -> acceptable x -> IDStr x <> id).
Proof.
  unfold first_with. split.
  - intros (Ha & Hi & b & a & E & Hb). destruct a as [|y a _] using rev_ind.
    + apply app_inj_tail in E as [-> ->]. right. eauto.
    + rewrite app_comm_cons, app_assoc in E. apply app_inj_tail in E as [-> _]. left. eauto 10.
  - intros [(Ha & Hi & b & a & -> & Hb) | (-> & Ha & Hi & Hb)].
    + split_and!; [done..|]. exists b, (a ++ [c])%list. by rewrite <- app_assoc.
    + split_and!; [done..|]. by exists calls, [].
Qed.

Lemma registered_lookup calls : forall id,
  (forall sc, scenarios (registered calls) !! id = Some sc <-> first_with id calls sc) /\
  (scenarios (registered calls) !! id = None <-> forall x, Some x ∈ calls -> acceptable x -> IDStr x <> id).
Proof.
  induction calls as [|c calls IH] using rev_ind; intros id.
  - change (scenarios (registered [])) with (∅ : gmap string ScenarioDefinition).
    split; [intros sc|]; rewrite lookup_empty; split; try done.
    + intros (_ & _ & b & a & E & _). by destruct b.
    + intros _ x Hx. by apply elem_of_nil in Hx.
  - unfold registered. rewrite fold_left_app. cbn [fold_left]. fold (registered calls). set (r := registered calls) in *.
    setoid_rewrite first_with_snoc. setoid_rewrite elem_of_app. setoid_rewrite list_elem_of_singleton.
    destruct c as [y|]; [|cbn; specialize (IH id) as [IH1 IH2]; rewrite IH2; split; [intros sc; rewrite IH1|]; naive_solver].
    rewrite Register_result. pose proof (Register_accepts r y) as Hacc. destruct (IH id) as [IH1 IH2].
    case_decide as Hd; [apply Hacc in Hd as [Hy Hn]|].
    + cbn. destruct (decide (IDStr y = id)) as [<- | Hne].
      * rewrite lookup_insert_eq. setoid_rewrite <- IH1. rewrite Hn in *. pose proof (proj1 IH2 eq_refl). naive_solver.
      * rewrite lookup_insert_ne by done. rewrite IH2. split; [intros sc; rewrite IH1|]; naive_solver.
    + assert (Hrej : acceptable y -> is_Some (scenarios r !! IDStr y)).
      { intros Hy. destruct (scenarios r !! IDStr y) eqn:E; [done|]. by destruct Hd; apply Hacc. }
      rewrite IH2. setoid_rewrite IH1. split.
      * intros sc. split; [naive_solver|]. intros [?|(E & Hy & Hi & Hb)]; [done|]. simplify_eq.
        destruct (Hrej Hy) as [z Hz]. destruct (IH (IDStr sc)) as [_ IHn]. rewrite (proj2 IHn) in Hz; [done|naive_solver].
      * split; [|naive_solver]. intros Hb x [Hx|E]; [naive_solver|]. simplify_eq. intros Hy <-.
        destruct (Hrej Hy) as [z Hz]. rewrite (proj2 IH2) in Hz; [done|naive_solver].
Qed.

(** * Listing *)

Definition keyed (r : MapRegistry) : Prop := forall id sc, scenarios r !! id = Some sc -> IDStr sc = id.

Lemma registered_keyed calls : keyed (registered calls).
Proof. intros id sc Hl. apply registered_lookup in Hl. by destruct Hl as (_ & Hi & _). Qed.

Lemma elem_of_values r sc : keyed r -> sc ∈ values r <-> scenarios r !! IDStr sc = Some sc.
Proof.
  intros Hk. unfold values. rewrite list_elem_of_fmap. split.
  - intros ([id x] & -> & Hin%elem_of_map_to_list). cbn. by rewrite (Hk id x Hin).
  - intros Hl%elem_of_map_to_list. by exists (IDStr sc, sc).
Qed.

Lemma NoDup_value_ids r : keyed r -> NoDup (IDStr <$> values r).
Proof.
  intros Hk. unfold values. rewrite <- list_fmap_compose.
  erewrite (list_fmap_ext _ fst (map_to_list (scenarios r))); [apply NoDup_fst_map_to_list|].
  intros i [id x] Hi. apply list_elem_of_lookup_2, elem_of_map_to_list in Hi. by apply Hk.
Qed.

Definition wanted (filter : option FilterOptions) (sc : ScenarioDefinition) : bool :=
  match filter with None => true | Some opts => selects opts sc end.

Lemma Filter_values r filter : Filter r filter ≡ₚ List.filter (wanted filter) (values r).
Proof.
  unfold Filter, List, wanted. destruct filter; rewrite merge_sort_Permutation; [done|].
  by rewrite List.filter_true.
Qed.

Definition id_lt (a b : ScenarioDefinition) : Prop := by_id a b /\ IDStr a <> IDStr b.

Lemma sorted_strict l : StronglySorted by_id l -> NoDup (IDStr <$> l) -> StronglySorted id_lt l.
Proof.
  induction 1 as [|a l Hs IH Hf]; cbn; [constructor|]. intros [Hn Hd]%NoDup_cons. constructor; [by apply IH|].
  rewrite Forall_forall in *. intros b Hb. split; [by apply Hf|]. intros E. apply Hn. rewrite E. by apply list_elem_of_fmap_2.
Qed.

Lemma selects_spec opts sc : selects opts sc = true <->
  (0 < Priority opts -> PriorityVal sc = Priority opts) /\ (forall c, c ∈ Capabilities opts -> c ∈ CapabilitiesVal sc).
Proof.
  assert (Hall : forallb (fun c => found c (CapabilitiesVal sc)) (Capabilities opts) = true <->
                 forall c, c ∈ Capabilities opts -> c ∈ CapabilitiesVal sc).
  { rewrite forallb_forall. unfold found. setoid_rewrite existsb_exists. setoid_rewrite <- list_elem_of_In.
    setoid_rewrite String.eqb_eq. naive_solver. }
  unfold selects. destruct (Capabilities opts) as [|c0 cs] eqn:Ec.
  - cbn. destruct (_ && _) eqn:E.
    + split; [done|]. intros [Hp _]. exfalso. lia.
    + split; [|done]. intros _. split; [lia|]. intros c Hc. by apply elem_of_nil in Hc.
  - rewrite zlen_cons. pose proof (zlen_nonneg cs). replace (0 <? 1 + zlen cs) with true by lia.
    destruct (_ && _) eqn:E.
    + split; [done|]. intros [Hp _]. exfalso. lia.
    + rewrite Hall. split; [|tauto]. intros Hc. split; [lia | done].
Qed.

Lemma List_sub {A} (f : A -> bool) l x : x ∈ List.filter f l <-> x ∈ l /\ f x = true.
Proof. rewrite !list_elem_of_In. apply List.filter_In. Qed.

Lemma NoDup_filter_ids f l : NoDup (IDStr <$> l) -> NoDup (IDStr <$> List.filter f l).
Proof.
  induction l as [|a l IH]; cbn; [done|]. intros [Hn Hd]%NoDup_cons. destruct (f a); [|by apply IH]. cbn.
  apply NoDup_cons. split; [|by apply IH]. intros (b & E & Hb)%list_elem_of_fmap. apply List_sub in Hb as [Hb _].
  apply Hn. rewrite E. by apply list_elem_of_fmap_2.
Qed.

(** C32: Whatever is registered, the registry knows under each ID the first scenario that
    was acceptable: an ID, a version of three numbers, a priority from 1 to 3 and no node of
    its graph empty or depending on itself.  A filter lists, strictly ordered by ID, exactly
    the known scenarios with its priority, if it has one, and all of its capabilities; a
    filter of another type lists all. *)
Theorem registry_exact calls :
  let r := registered calls in
  (forall id sc, Lookup r id = inl sc <-> first_with id calls sc) /\
  (forall id, Lookup r id = inr (NotFound id) <-> forall sc, Some sc ∈ calls -> acceptable sc -> IDStr sc <> id) /\
  forall filter, StronglySorted id_lt (Filter r filter) /\
    forall sc, sc ∈ Filter r filter <->
      Lookup r (IDStr sc) = inl sc /\
      match filter with
      | None => True
      | Some opts => (0 < Priority opts -> PriorityVal sc = Priority opts) /\ (forall c, c ∈ Capabilities opts -> c ∈ CapabilitiesVal sc)
      end.
Proof.
  intros r. pose proof (registered_keyed calls) as Hk. fold r in Hk.
  assert (Hl : forall id sc, Lookup r id = inl sc <-> scenarios r !! id = Some sc).
  { intros id sc. unfold Lookup. destruct (scenarios r !! id); naive_solver. }
  split; [intros id sc; rewrite Hl; apply registered_lookup|]. split.
  { intros id. unfold Lookup. rewrite <- (proj2 (registered_lookup calls id)). fold r. destruct (scenarios r !! id); naive_solver. }
  intros filter. pose proof (Filter_values r filter) as Hp. split.
  - apply sorted_strict; [destruct filter; apply (StronglySorted_merge_sort by_id)|]. rewrite Hp. by apply NoDup_filter_ids, NoDup_value_ids.
  - intros sc. rewrite Hp, List_sub, (elem_of_values r sc Hk), Hl. unfold wanted. destruct filter; [by rewrite selects_spec | tauto].
Qed.

End AtfRegistry.
