(* ===== verification/AtfTelemetry.v ===== *)
(** The telemetry store of the acceptance framework
    (internal/db/acceptance/framework/telemetry/telemetry.go).

    Floating point is behind the class [Float64]: the store only adds, divides and
    converts.  Durations are nanoseconds; the sum of the milliseconds of a stage wraps at 64 bits.
    Each method runs under the lock, so that a history of calls is a list. *)

From Stdlib Require Import ZArith Lia.
From S2P Require Import Prelude Word.

Module AtfTelemetry.
Local Open Scope string_scope.
Local Open Scope Z_scope.

Class Float64 (F : Type) := { f_add : F -> F -> F; f_div : F -> F -> F; f_of : Z -> F }.

(** [types.Event]: of the payload, whether it is an execution session, and of which scenario. *)
Inductive EventType :=
  | EventSubprocessStarted | EventSubprocessCrashed | EventRecoveryStarted | EventRecoveryFinished | EventVerificationFinished
  | EventEvidenceZipped | EventVerificationStarted | EventVerifierStarted | EventVerifierPassed | EventVerifierFailed
  | EventVerificationAborted | EventCrashPointRegistered | EventCrashEvaluationStarted | EventCrashEvaluationFinished
  | EventCrashTriggered | EventCrashSkipped | EventCrashPolicyRejected | EventCrashHookExecuted.

Inductive payload := ExecutionSession (scenarioID : string) | OtherPayload.

Record Event := mkEvent { Type_ : EventType; Payload : payload }.

Section store.
Context {F : Type} `{!Float64 F}.

Record MetricRecord := mkRecord { Durations : gmap string (list Z); Counters : gmap string F; Gauges : gmap string F }.

Record TelemetryStore := mkStore { records : gmap string MetricRecord; startTime : Z }.

Definition NewTelemetryStore (now : Z) : TelemetryStore := mkStore ∅ now.

Definition Name : string := "telemetry_engine".

(** The record of a scenario, made if it is not there; the callers put the changed one back. *)
Definition ensureRecordLocked (t : TelemetryStore) (scenarioID : string) : MetricRecord :=
  default (mkRecord ∅ ∅ ∅) (records t !! scenarioID).

Definition put_record (scenarioID : string) (r : MetricRecord) (t : TelemetryStore) : TelemetryStore :=
  mkStore (<[scenarioID := r]> (records t)) (startTime t).

Definition recordMetricLocked (scenarioID name : string) (value : F) (increment : bool) (t : TelemetryStore) : TelemetryStore :=
  let r := ensureRecordLocked t scenarioID in
  put_record scenarioID
    (if increment then mkRecord (Durations r) (<[name := f_add (default (f_of 0) (Counters r !! name)) value]> (Counters r)) (Gauges r)
     else mkRecord (Durations r) (Counters r) (<[name := value]> (Gauges r))) t.

Definition RecordMetric (scenarioID name : string) (value : F) (t : TelemetryStore) : TelemetryStore :=
  recordMetricLocked scenarioID name value false t.

Definition RecordDuration (scenarioID stage : string) (elapsed : Z) (t : TelemetryStore) : TelemetryStore :=
  let r := ensureRecordLocked t scenarioID in
  put_record scenarioID (mkRecord (<[stage := (default [] (Durations r !! stage) ++ [elapsed])%list]> (Durations r)) (Counters r) (Gauges r)) t.

(** [None]: a value that is no [types.Event]. *)
Definition OnEvent (event : option Event) (t : TelemetryStore) : TelemetryStore :=
  match event with
  | Some (mkEvent EventSubprocessStarted (ExecutionSession id)) =>
      let t := put_record id (ensureRecordLocked t id) t in
      recordMetricLocked id "subprocess_starts" (f_of 1) true t
  | _ => t
  end.

(** ** Dump *)

Record ScenarioStats := mkStats {
  s_Counters : gmap string F; s_Gauges : gmap string F; StageAverages : gmap string F; StageMaximus : gmap string F
}.

Record CampaignSummaryReport := mkReport { ElapsedMs : Z; Scenarios : gmap string ScenarioStats }.

(** [Duration.Milliseconds] *)
Definition Milliseconds (d : Z) : Z := Z.quot d 1000000.

(** [total += ms; if ms > max { max = ms }] *)
Definition accumulate (durations : list Z) : Z * Z :=
  fold_left (fun '(total, max) d => let ms := Milliseconds d in (int64 (u64 (total + ms)), if ms >? max then ms else max)) durations (0, 0).

Definition stage_average (durations : list Z) : option F :=
  match durations with [] => None | _ => Some (f_div (f_of (accumulate durations).1) (f_of (zlen durations))) end.
Definition stage_maximum (durations : list Z) : option F :=
  match durations with [] => None | _ => Some (f_of (accumulate durations).2) end.

Definition scenario_stats (r : MetricRecord) : ScenarioStats :=
  mkStats (Counters r) (Gauges r) (omap stage_average (Durations r)) (omap stage_maximum (Durations r)).

Definition Dump (now : Z) (t : TelemetryStore) : CampaignSummaryReport :=
  mkReport (Milliseconds (now - startTime t)) (scenario_stats <$> records t).

(** * Histories *)

Inductive call := CEvent (e : option Event) | CDuration (id stage : string) (d : Z) | CMetric (id name : string) (v : F).

Definition perform (c : call) (t : TelemetryStore) : TelemetryStore :=
  match c with
  | CEvent e => OnEvent e t
  | CDuration id stage d => RecordDuration id stage d t
  | CMetric id name v => RecordMetric id name v t
  end.

Definition history (now : Z) (calls : list call) : TelemetryStore := fold_left (fun t c => perform c t) calls (NewTelemetryStore now).

(** The scenario a call is about, and what it says of it. *)
Definition about (c : call) : option string :=
  match c with
  | CEvent (Some (mkEvent EventSubprocessStarted (ExecutionSession id))) => Some id
  | CEvent _ => None
  | CDuration id _ _ | CMetric id _ _ => Some id
  end.

Definition start_of (id : string) (c : call) : option unit :=
  match c with CEvent (Some (mkEvent EventSubprocessStarted (ExecutionSession i))) => if decide (i = id) then Some tt else None | _ => None end.
Definition duration_of (id stage : string) (c : call) : option Z :=
  match c with CDuration i s d => if decide (i = id /\ s = stage) then Some d else None | _ => None end.
Definition gauge_of (id name : string) (c : call) : option F :=
  match c with CMetric i n v => if decide (i = id /\ n = name) then Some v else None | _ => None end.

(** Counting in floating point. *)
Definition counted (n : nat) : F := Nat.iter n (fun x => f_add x (f_of 1)) (f_of 0).

Record tracks (calls : list call) (t : TelemetryStore) : Prop := {
  tr_records : forall id, is_Some (records t !! id) <-> exists c, c ∈ calls /\ about c = Some id;
  tr_durations : forall id stage, default [] (Durations (ensureRecordLocked t id) !! stage) = omap (duration_of id stage) calls;
  tr_gauges : forall id name, Gauges (ensureRecordLocked t id) !! name = last (omap (gauge_of id name) calls);
  tr_counters : forall id name, Counters (ensureRecordLocked t id) !! name =
    let n := length (omap (start_of id) calls) in
    if decide (name = "subprocess_starts" /\ n <> 0%nat) then Some (counted n) else None
}.

Lemma ensure_put id id' r t : ensureRecordLocked (put_record id r t) id' = if decide (id = id') then r else ensureRecordLocked t id'.
Proof. unfold ensureRecordLocked, put_record. cbn. case_decide; [subst; by rewrite lookup_insert_eq | by rewrite lookup_insert_ne]. Qed.

Lemma tracks_new now : tracks [] (NewTelemetryStore now).
Proof.
  constructor; cbn; intros *; rewrite ?lookup_empty; try done.
  - split; [by intros [? ?] | intros (c & Hc & _); by apply elem_of_nil in Hc].
  - case_decide; [naive_solver | done].
Qed.

Lemma omap_snoc {A B} (f : A -> option B) l x : omap f (l ++ [x])%list = (omap f l ++ match f x with Some y => [y] | None => [] end)%list.
Proof. rewrite omap_app. cbn. by destruct (f x). Qed.

Lemma records_put calls c id r t : (forall i, is_Some (records t !! i) <-> exists c, c ∈ calls /\ about c = Some i) -> about c = Some id ->
  forall i, is_Some (records (put_record id r t) !! i) <-> exists c', c' ∈ (calls ++ [c])%list /\ about c' = Some i.
Proof.
  intros Hr Hc i. cbn. setoid_rewrite elem_of_app. setoid_rewrite list_elem_of_singleton. destruct (decide (id = i)) as [<- | Hne].
  - rewrite lookup_insert_eq. split; [eauto | done].
  - rewrite lookup_insert_ne, Hr by done. naive_solver.
Qed.

Lemma tracks_RecordDuration calls t id stage d : tracks calls t -> tracks (calls ++ [CDuration id stage d])%list (RecordDuration id stage d t).
Proof.
  intros [Hr Hd Hg Hc]. unfold RecordDuration. constructor.
  - by apply records_put.
  - intros id' stage'. rewrite ensure_put, omap_snoc. cbn. rewrite <- Hd. destruct (decide (id = id')) as [<- | Hne]; cbn.
    + destruct (decide (stage = stage')) as [<- | Hne]; [rewrite lookup_insert_eq, decide_True by done; done|].
      rewrite lookup_insert_ne, decide_False by naive_solver. by rewrite app_nil_r.
    + rewrite decide_False by naive_solver. by rewrite app_nil_r.
  - intros id' name. rewrite ensure_put, omap_snoc. cbn. rewrite app_nil_r, <- Hg. case_decide; by subst.
  - intros id' name. rewrite ensure_put, omap_snoc. cbn. rewrite app_nil_r. cbn in Hc. rewrite <- Hc. case_decide; by subst.
Qed.

Lemma tracks_RecordMetric calls t id name v : tracks calls t -> tracks (calls ++ [CMetric id name v])%list (RecordMetric id name v t).
Proof.
  intros [Hr Hd Hg Hc]. unfold RecordMetric, recordMetricLocked. constructor.
  - by apply records_put.
  - intros id' stage. rewrite ensure_put, omap_snoc. cbn. rewrite app_nil_r, <- Hd. case_decide; by subst.
  - intros id' name'. rewrite ensure_put, omap_snoc. cbn. destruct (decide (id = id')) as [<- | Hne]; cbn.
    + destruct (decide (name = name')) as [<- | Hne]; [rewrite lookup_insert_eq, decide_True by done; by rewrite last_snoc|].
      rewrite lookup_insert_ne, decide_False by naive_solver. by rewrite app_nil_r.
    + rewrite decide_False by naive_solver. by rewrite app_nil_r.
  - intros id' name'. rewrite ensure_put, omap_snoc. cbn. rewrite app_nil_r. cbn in Hc. rewrite <- Hc. case_decide; by subst.
Qed.

(** A call that is about no scenario. *)
Lemma tracks_skip calls t e : tracks calls t -> about (CEvent e) = None -> tracks (calls ++ [CEvent e])%list t.
Proof.
  intros [Hr Hd Hg Hc] Ha. assert (Hs : forall id, start_of id (CEvent e) = None).
  { intros id. destruct e as [[[] []]|]; done. }
  constructor; intros *; rewrite ?omap_snoc, ?Hs; cbn [duration_of gauge_of]; rewrite ?app_nil_r; try done.
  setoid_rewrite elem_of_app. setoid_rewrite list_elem_of_singleton. rewrite Hr. naive_solver congruence.
Qed.

Lemma tracks_started calls t id : tracks calls t ->
  tracks (calls ++ [CEvent (Some (mkEvent EventSubprocessStarted (ExecutionSession id)))])%list
    (OnEvent (Some (mkEvent EventSubprocessStarted (ExecutionSession id))) t).
Proof.
  intros [Hr Hd Hg Hc]. cbn [OnEvent]. unfold recordMetricLocked. rewrite ensure_put, decide_True by done. constructor.
  - intros i. rewrite <- (records_put calls (CEvent (Some (mkEvent EventSubprocessStarted (ExecutionSession id)))) id (ensureRecordLocked t id) t Hr eq_refl). cbn.
    destruct (decide (id = i)) as [<- | Hne]; [by rewrite !lookup_insert_eq | by rewrite !lookup_insert_ne].
  - intros id' stage. rewrite !ensure_put, omap_snoc. cbn. rewrite app_nil_r, <- Hd. repeat case_decide; by subst.
  - intros id' name. rewrite !ensure_put, omap_snoc. cbn. rewrite app_nil_r, <- Hg. repeat case_decide; by subst.
  - intros id' name. rewrite !ensure_put, omap_snoc. cbn [start_of]. cbn in Hc. destruct (decide (id = id')) as [<- | Hne].
    + rewrite length_app. cbn [Counters length]. destruct (decide ("subprocess_starts" = name)) as [<- | Hn].
      * rewrite lookup_insert_eq, Hc, Nat.add_1_r. rewrite (decide_True _ _ (P := _ /\ S _ <> 0%nat)) by done. f_equal. cbn. f_equal.
        case_decide as Hz; cbn; [done|]. destruct (length _); [done|naive_solver].
      * rewrite lookup_insert_ne, Hc by done. rewrite !decide_False by naive_solver. done.
    + rewrite app_nil_r. by rewrite Hc.
Qed.

Lemma history_tracks now calls : tracks calls (history now calls).
Proof.
  induction calls as [|c calls IH] using rev_ind; [apply tracks_new|].
  unfold history. rewrite fold_left_app. cbn [fold_left]. fold (history now calls).
  destruct c as [e|id stage d|id name v]; cbn [perform].
  - destruct (about (CEvent e)) as [id|] eqn:Ha.
    + destruct e as [[[] []]|]; simplify_eq/=. by apply tracks_started.
    + assert (E : OnEvent e (history now calls) = history now calls) by (by destruct e as [[[] []]|]).
      rewrite E. by apply tracks_skip.
  - by apply tracks_RecordDuration.
  - by apply tracks_RecordMetric.
Qed.

(** ** The loop of [Dump] *)

Lemma accumulate_snoc ds d : accumulate (ds ++ [d])%list =
  (int64 (u64 ((accumulate ds).1 + Milliseconds d)), Z.max (accumulate ds).2 (Milliseconds d)).
Proof.
  unfold accumulate. rewrite fold_left_app. cbn [fold_left]. destruct (fold_left _ ds (0, 0)) as [total mx]. cbn.
  f_equal. destruct (Z.gtb_spec (Milliseconds d) mx); lia.
Qed.

(** The maximum is the largest of the milliseconds, and zero if they are all negative. *)
Lemma accumulate_maximum ds m : (accumulate ds).2 <= m <-> 0 <= m /\ forall d, d ∈ ds -> Milliseconds d <= m.
Proof.
  induction ds as [|d ds IH] using rev_ind; [cbn; set_solver|]. rewrite accumulate_snoc. cbn [snd].
  setoid_rewrite elem_of_app. setoid_rewrite list_elem_of_singleton. rewrite Z.max_lub_iff, IH. naive_solver.
Qed.

(** The total is the sum as long as that fits. *)
Lemma u64_int64_add x b : u64 (int64 (u64 x) + b) = u64 (x + b).
Proof.
  unfold int64. rewrite (u64_id (u64 x)) by apply u64_range. unfold u64. destruct (_ <? _).
  - by rewrite Zplus_mod_idemp_l.
  - replace (x mod 2 ^ 64 - 2 ^ 64 + b) with (x mod 2 ^ 64 + b + (-1) * 2 ^ 64) by lia. by rewrite Z.mod_add, Zplus_mod_idemp_l by lia.
Qed.

Lemma foldr_sum_init l x : foldr Z.add x l = foldr Z.add 0 l + x.
Proof. induction l as [|y l IH]; cbn; lia. Qed.

Lemma accumulate_total ds : (accumulate ds).1 = int64 (u64 (foldr Z.add 0 (Milliseconds <$> ds))).
Proof.
  induction ds as [|d ds IH] using rev_ind; [done|]. rewrite accumulate_snoc, fmap_app, foldr_app. cbn [fst fmap list_fmap foldr].
  rewrite IH, u64_int64_add, (foldr_sum_init _ (_ + 0)), Z.add_0_r. done.
Qed.

(** Whatever is recorded and published, the report of the campaign has an entry for
    exactly the scenarios some call was about, with the number of subprocesses it started,
    the last value of each gauge, and for each stage that was timed the average and the
    maximum of the milliseconds of all its durations. *)
Theorem telemetry_report now later calls id :
  match Scenarios (Dump later (history now calls)) !! id with
  | None => forall c, c ∈ calls -> about c <> Some id
  | Some stats =>
      (exists c, c ∈ calls /\ about c = Some id) /\
      (forall name, s_Counters stats !! name =
         let n := length (omap (start_of id) calls) in
         if decide (name = "subprocess_starts" /\ n <> 0%nat) then Some (counted n) else None) /\
      (forall name, s_Gauges stats !! name = last (omap (gauge_of id name) calls)) /\
      (forall stage, match omap (duration_of id stage) calls with
         | [] => StageAverages stats !! stage = None /\ StageMaximus stats !! stage = None
         | ds => StageAverages stats !! stage =
                   Some (f_div (f_of (int64 (u64 (foldr Z.add 0 (Milliseconds <$> ds))))) (f_of (zlen ds))) /\
                 exists top, StageMaximus stats !! stage = Some (f_of top) /\
                   forall m, top <= m <-> 0 <= m /\ forall d, d ∈ ds -> Milliseconds d <= m
         end)
  end.
Proof.
  destruct (history_tracks now calls) as [Hr Hd Hg Hc]. cbn [Dump Scenarios]. rewrite lookup_fmap. specialize (Hr id).
  destruct (records (history now calls) !! id) as [r|] eqn:E; cbn [fmap option_fmap option_map].
  - assert (Hens : ensureRecordLocked (history now calls) id = r) by (unfold ensureRecordLocked; by rewrite E).
    split; [apply Hr; done|]. split; [intros name; rewrite <- Hc, Hens; done|]. split; [intros name; rewrite <- Hg, Hens; done|].
    intros stage. rewrite <- Hd, Hens. cbn [scenario_stats StageAverages StageMaximus]. rewrite !lookup_omap.
    destruct (Durations r !! stage) as [[|d ds]|]; cbn [default from_option Datatypes.id mbind option_bind]; [done| |done].
    unfold stage_average, stage_maximum. rewrite accumulate_total. split; [done|].
    exists (accumulate (d :: ds)).2. split; [done|]. apply accumulate_maximum.
  - intros c Hin Ha. assert (Hs : is_Some (@None MetricRecord)) by (apply Hr; eauto). by destruct Hs.
Qed.

End store.
End AtfTelemetry.
