(* ===== verification/DbFindings.v ===== *)
(** Runs on which the code departs from what its comments and its contract say.
    Each theorem evaluates a small program on the model, from an empty directory. *)

From Stdlib Require Import ZArith Lia.
From S2P Require Import Prelude Word Fs GoStr Memtable Wal Manifest Bloom SstFormat SstWriter SstReader.
From S2P Require Import MergeIter SstMerge SstTable DbState DbFlush DbWrite DbRead DbScan DbCompact DbOpen.
From S2P Require Import DbRecover DbInv Demo.

Module DbFindings.
Import Db DbFlush DbOpen DbRead DbCompact Demo.

(** What a program returns when it is run on [f] with the schedule [fl]. *)
Definition outcome {A} (f : fsys) (fl : list fault) (m : io A) : option A :=
  match m (mkWorld f fl) with (Ok a, _) => Some a | _ => None end.

Definition k3 : bytes := [x63].

(** ** Compaction gives the oldest data the newest place *)

Definition opts_three : Options := mkOptions "db" 0 3 no_limits true None.

(** One key written three times, each value flushed to a table of its own. *)
Definition three_versions : io DB :=
  let! d := Open opts_three None [] in
  let! d := put_flush k1 [x31] d in
  let! d := put_flush k1 [x32] d in
  put_flush k1 [x33] d.

Definition read_compact_read : io ((bytes + error) * (bytes + error)) :=
  let! d := three_versions in
  let! (d, before) := Get k1 d in
  let! (d, _) := ForceCompaction d in
  let! (_, after) := Get k1 d in io_ret (before, after).

(** A compaction can bring back an overwritten value: with three tables and the
    threshold three, the two oldest are merged and the result is read before the
    newest, so that [Get] returns the second value instead of the third. *)
Theorem compaction_revives_old_value :
  outcome ∅ [] read_compact_read = Some (inl [x33], inl [x32]).
Proof. vm_compute. reflexivity. Qed.

(** ** The compactor can spin *)

(** With the threshold one and a single table there is nothing to merge, and a round of
    the compactor leaves everything as it is and asks for another one: the loop, which
    holds the lock [Close] needs, never ends. *)
Theorem compactor_spins d n w : compactThreshold (cfg d) = 1 -> zlen (sstables d) = 1 ->
  let d' := clearBackgroundErrOp "compaction" d in
  compactor_loop (S n) d w = compactor_loop n d' w /\ compactThreshold (cfg d') = 1 /\ zlen (sstables d') = 1.
Proof.
  intros Ht Hl d'. assert (Hd : compactThreshold (cfg d') = 1 /\ zlen (sstables d') = 1) by done. split; [|done].
  assert (Hn : doCompaction d = io_ret (d, None)).
  { unfold doCompaction, compact_begin, pickSSTablesForCompactionLocked. by rewrite Ht, Hl. }
  cbn [compactor_loop]. rewrite Hn. unfold io_bind, io_ret. fold d'. destruct Hd as [-> ->]. done.
Qed.

(** ** A flush during a compaction is lost *)

(** The compactor between its second and third critical section, while a memtable
    is flushed to a new table. *)
Definition flush_inside_compaction : io ((bytes + error) * (bytes + error)) :=
  let! d := two_tables in
  match compact_begin d with
  | BeginOk compReaders oldLiveIDs =>
      let! (d, merged) := mergeSSTables (deref d compReaders) d in
      match merged with
      | inl (Some r) =>
          let '(newReader, d) := alloc_reader r d in
          match compact_plan compReaders newReader d with
          | PlanOk newList liveIDs =>
              let! d := put_flush k3 v2 d in
              let! (d, before) := Get k3 d in
              let! (d, _) := append_set liveIDs d in
              let! (d, _) := compact_commit compReaders oldLiveIDs newReader newList d in
              let! (_, after) := Get k3 d in io_ret (before, after)
          | _ => io_err ErrClosed
          end
      | _ => io_err ErrClosed
      end
  | _ => io_err ErrClosed
  end.

(** The list of tables a compaction stores is the one it computed before the manifest
    write: a table flushed in between is dropped from the list and from the manifest,
    and its keys are gone. *)
Theorem compaction_drops_concurrent_flush :
  outcome ∅ [] flush_inside_compaction = Some (inl v2, inr ErrNotFound).
Proof. vm_compute. reflexivity. Qed.

(** ** Two queued memtables *)

(** Two values big enough to freeze a memtable each, then a small synced one; the
    flusher writes both tables; the directory is opened again. *)
Definition two_frozen : io ((bytes + error) * (bytes + error)) :=
  let! d := Open opts None [] in
  let! (d, _) := DbWrite.Put k1 (replicate 20 x41) d in
  let! (d, _) := DbWrite.Put k2 (replicate 20 x42) d in
  let! (d, _) := DbWrite.Put k3 v1 d in
  let! (d, _) := drainPendingFlush 3 d in
  let! (d, before) := Get k3 d in
  let! d := Open opts None [] in
  let! (_, after) := Get k3 d in io_ret (before, after).

(** The offsets at which memtables were frozen are not moved when an earlier flush
    cuts the log: with two memtables in the queue the second cut removes records of
    the active memtable, and a synced write is lost at the next start. *)
Theorem second_truncation_loses_synced_write :
  outcome ∅ [] two_frozen = Some (inl v1, inr ErrNotFound).
Proof. vm_compute. reflexivity. Qed.

(** ** A checkpoint that outlives its log *)

(** The process dies at system call [n] of the first flush. *)
Definition crash_in_flush (n : nat) : fsys :=
  fs (snd ((let! d := Open opts None [] in put_flush k1 v1 d) (mkWorld ∅ (replicate n NoFault ++ [Crash 0])))).

(** A synced write of the next process, and the start after that. *)
Definition write_and_reopen : io ((bytes + error) * (bytes + error)) :=
  let! d := Open opts None [] in
  let! (d, _) := DbWrite.Put k2 v1 d in
  let! (d, before) := Get k2 d in
  let! d := Open opts None [] in
  let! (_, after) := Get k2 d in io_ret (before, after).

(** A crash between the truncation of the log and the removal of wal.flush leaves a
    checkpoint that [Open] never removes: once the log has grown to its offset again,
    the next start skips that many bytes of new, synced records. *)
Theorem stale_checkpoint_loses_synced_write :
  is_Some (crash_in_flush 47 !! walFlushStateName) /\
  outcome (lose_unsynced (crash_in_flush 47)) [] write_and_reopen = Some (inl v1, inr ErrNotFound).
Proof. vm_compute. by split; [eexists|]. Qed.

(** ** Reads while a batch is being written *)

Definition opts_async : Options := mkOptions "db" 0 2 no_limits false None.

(** A read before the flusher takes the batch, one while it appends it to the log,
    and one after it has applied it. *)
Definition read_around_commit : io ((bytes + error) * (bytes + error) * (bytes + error)) :=
  let! d := Open opts_async None [] in
  let! (d, _) := DbWrite.Put k1 v1 d in
  let! (d, r1) := Get k1 d in
  let '(batch, d) := DbWrite.batch_take d in
  let! (d, r2) := Get k1 d in
  let! _ := DbWrite.batch_append batch d in
  let! (d, _) := DbWrite.batch_finish batch d in
  let! (_, r3) := Get k1 d in io_ret (r1, r2, r3).

(** A value that [Get] has returned disappears while the group commit writes it to
    the log and comes back afterwards: the batch is neither pending nor applied in
    between. *)
Theorem read_during_commit_misses_write :
  outcome ∅ [] read_around_commit = Some (inl v1, inr ErrNotFound, inl v1).
Proof. vm_compute. reflexivity. Qed.

(** ** Empty values and empty keys *)

Definition empty_value : io ((bytes + error) * (bytes + error)) :=
  let! d := Open opts None [] in
  let! (d, _) := DbWrite.Put k1 [] d in
  let! (d, before) := Get k1 d in
  let! (d, _) := ForceMemtableFlush 3 d in
  let! (_, after) := Get k1 d in io_ret (before, after).

(** An empty value is found until its memtable is flushed and is then reported as
    [ErrNotFound]. *)
Theorem empty_value_lost_by_flush : outcome ∅ [] empty_value = Some (inl [], inr ErrNotFound).
Proof. vm_compute. reflexivity. Qed.

Definition empty_key_scan : io ((bytes + error) * list (bytes * bytes)) :=
  let! d := Open opts None [] in
  let! (d, _) := DbWrite.Put [] v1 d in
  let! (d, _) := DbWrite.Put k1 v1 d in
  let! (d, r) := Get k1 d in
  let! (_, s) := Scan [] [] d in
  match s with
  | inr e => io_err e
  | inl it => let! (l, _) := scan_walk 10 it [] in io_ret (r, l)
  end.

(** An empty key, which [Put] accepts, hides every key from a scan: the merge takes it
    for the end of its sources. *)
Theorem empty_key_hides_scan : outcome ∅ [] empty_key_scan = Some (inl v1, []).
Proof. vm_compute. reflexivity. Qed.

(** ** A read error during a compaction *)

Definition compact_and_read : io (option error * (bytes + error)) :=
  let! d := io_ret db2 in
  let! (d, e) := ForceCompaction d in
  let! (_, r) := Get k1 d in io_ret (e, r).

(** When the first block of a table cannot be read, neither when its entries are
    counted nor when it is merged, the compaction reports success without the
    entries of that table and deletes its file. *)
Theorem compaction_ignores_read_error :
  outcome fs2 [] (let! (_, r) := Get k1 db2 in io_ret r) = Some (inl v1) /\
  outcome fs2 [Fail (os_error 5) 0; NoFault; NoFault; Fail (os_error 5) 0] compact_and_read =
    Some (None, inr ErrNotFound).
Proof. vm_compute. by split. Qed.

(** ** A record the log refuses *)

Definition opts_small : Options := mkOptions "db" 0 2 (Wal.mkLimits 0 0 8 0) true None.

(** A value over the limit, then a small one, then [Sync]. *)
Definition oversized : io (option error * option error * option error) :=
  let! d := Open opts_small None [] in
  let! (d, e1) := DbWrite.Put k1 (replicate 9 x41) d in
  let! (d, e2) := DbWrite.Put k2 v1 d in
  let! (_, e3) := DbWrite.Sync d in io_ret (e1, e2, e3).

(** A record over the limits is refused by the log only after it was queued: it stays
    in the batch, and every later write and [Sync] of the handle fails. *)
Theorem oversized_record_blocks_writes : exists e1 e2 e3,
  outcome ∅ [] oversized = Some (Some e1, Some e2, Some e3).
Proof. eexists _, _, _. vm_compute. reflexivity. Qed.

(** ** A log longer than it may be replayed *)

Definition opts_short : Options := mkOptions "db" 0 2 (Wal.mkLimits 20 0 0 0) true None.

Definition long_log : io (option error * option error * bool) :=
  let! d := Open opts_short None [] in
  let! (d, e1) := DbWrite.Put k1 v1 d in
  let! (_, e2) := DbWrite.Put k2 v1 d in
  let! r := try (Open opts_short None []) in
  io_ret (e1, e2, match r with inl _ => true | inr _ => false end).

(** [Put] does not look at [MaxFileSize]: two acknowledged writes make a log that the
    next [Open] refuses to replay. *)
Theorem acknowledged_writes_prevent_open : outcome ∅ [] long_log = Some (None, None, false).
Proof. vm_compute. reflexivity. Qed.

End DbFindings.
